(* ===== verification/_CoqProject ===== *)
-Q . S2P
Prelude.v
Codec.v
Varint.v
CodecTypes.v
CodecOrdered.v
ConsensusTypes.v
CodecRecords.v
Ordered.v
SimplexTypes.v
Elector.v
Fixtures.v
SimplexEvidence.v
Emit.v
BatcherVerifier.v
BatcherRound.v
BatcherInvariant.v
BatcherActor.v
BatcherSpec.v
BatcherProperties.v
Resolver.v
CodecProperties.v
ResolverProperties.v
VoterSlot.v
VoterRound.v
VoterJournal.v
VoterState.v
VoterStateSpec.v
VoterActor.v
VoterActorLogic.v
VoterRefinement.v
VoterRefinementLoop.v
VoterRefinementTurn.v
VoterRefinementStart.v
VoterRestart.v
VoterJustified.v
VoterJustifiedLoop.v
SimplexSafety.v
SimplexChain.v
SimplexAccountability.v
BTreeMap.v
RMap.v
RMapProperties.v
Blob.v
Buffered.v
BufferedPool.v
BufferedProperties.v
BufferedRefinement.v
BufferedReader.v
Journal.v
JournalLayout.v
JournalLog.v
JournalRecovery.v
JournalProperties.v
JournalDisk.v
MmrPosition.v
MmrIterator.v
MmrTree.v
MmrProof.v
MmrSoundness.v
MmrCompleteness.v
MmrStore.v
MmrMulti.v
MmrProperties.v
MmrMem.v
MmrMemSpec.v
MmrMemOps.v
MmrMemProperties.v
Bmt.v
BmtTree.v
BmtProperties.v
BmtRange.v
BmtTheorems.v
SafeTip.v
SafeTipProperties.v
