(* ===== verification/Prelude.v ===== *)
(** * Commonware: codecs, simplex voting, its journal and Merkle Mountain Ranges

    A model of the parts of commonware that decide what a validator accepts,
    what it signs and how it authenticates storage, with the theorems
    that make them correct.  Definitions follow the Rust code and keep its names;
    all of them can be evaluated.

    ** The program and its parts

    commonware is a set of crates.  [codec] turns values into bytes and untrusted
    bytes into values.  [consensus::simplex] is a BFT protocol: for each view a
    leader proposes a payload, the validators notarize it or nullify the view on
    a timeout, certify a notarized payload with the application and finalize it.
    The messages of simplex and the artifacts its voter journals are [codec]
    values.  The voter actor owns a [State] of one [Round] per view, a [Round] owns
    a proposal [Slot] and the votes already broadcast, and a journal on disk makes
    the votes survive crashes: [storage::journal] frames the artifacts in blobs of
    the runtime, behind a buffer and a page cache.  [storage::mmr] lays a Merkle Mountain Range out in
    a sequence of nodes; its positions and iterators address every authenticated
    database of the crate, a range in memory appends, updates and prunes, and
    proofs of elements are made from any store of nodes and verified against the
    root.

    ** Where each part is modelled

    - Shared: [Prelude] (outcomes of fallible code, machine integers, tactics and
      generic lemmas) and [Fixtures] (a concrete choice of digests, signatures and
      scheme, on which the witnesses evaluate the model).
    - codec/src: [Codec] (codec.rs, config.rs, error.rs: the record [codec] of the
      three trait operations, the class [Lawful] of what an implementation promises,
      [decode_cfg]); [Varint] (varint.rs: decoder, encoder, ZigZag); [CodecTypes]
      (types/*.rs: integers, [bool], [usize], arrays, [Option], tuples, [Vec],
      [Bytes]); [CodecOrdered] (btree_set.rs, btree_map.rs); [CodecRecords] (the
      laws of structs and enums from those of their fields); [CodecProperties] (the
      theorems on the codecs of the whole development).
    - utils/src/ordered.rs: [Ordered] (sets, maps and bidirectional maps as sorted
      lists, with the binary search and the sort they rely on, and their codecs).
    - utils/src/lib.rs: [max_faults], [quorum], [quorum_from_slice], [union],
      [union_unique] and [modulo], in [ConsensusTypes].
    - consensus/src/types.rs: the modules [View], [Epoch], [Rnd], [EpochInfo] and
      [FixedEpocher] of [ConsensusTypes]; [min_active] and [interesting] of
      simplex/mod.rs are there too.
    - consensus/src/simplex/types.rs: [SimplexTypes] (proposals, votes,
      certificates, journaled artifacts and their codecs) and [SimplexEvidence]
      (the modules [AttributableMap] and [VoteTracker], evidence, [Activity] and the
      catch-up messages, with their verification).
    - consensus/src/simplex/actors/voter: [VoterSlot] (slot.rs, module [Slot]),
      [VoterRound] (round.rs, module [Round]), [VoterState] (state.rs, one operation
      per method) with [VoterStateSpec] (its invariant and theorems), and
      [VoterActor] (actor.rs: every handler, the event loop [iterate] and the
      recovery [recover], in a monad that lists the effects on journal, network,
      batcher, resolver and application; the journal on disk, [Disk], and the
      relation [step] by which a node runs, dies and restarts).
    - consensus/src/simplex/elector.rs: [Elector] (round robin and random election).
    - consensus/src/simplex/actors/batcher: [BatcherVerifier] (verifier.rs, and the
      batch check of cryptography/src/certificate.rs with the class
      [BatchVerification] of what a scheme promises), [BatcherRound] (round.rs) and
      [BatcherActor] (actor.rs and ingress.rs), in a monad that lists the messages
      sent, which [Emit] provides; [BatcherInvariant] and [BatcherSpec] are the invariants of a view and of
      the actor, [BatcherProperties] what they guarantee.
    - consensus/src/simplex/actors/resolver: [Resolver] (state.rs, actor.rs and
      ingress.rs: the fetch state, the check of what peers deliver and one turn of
      the loop) and [ResolverProperties] (its invariant, and the world of requests
      and deliveries in which the theorems are stated).
    - About the voter actor: [VoterJournal] is the one-view abstraction (the
      handlers that journal or vote, and the replay of the journal, for one view);
      [VoterActorLogic] the rules of a crash logic for the monad; [VoterRefinement],
      [VoterRefinementLoop], [VoterRefinementTurn] and [VoterRefinementStart] prove
      that the actor refines it; [VoterJustified] and [VoterJustifiedLoop] relate
      every vote to the certificates behind it; [VoterRestart] shows that the
      recovery returns.
    - [SimplexSafety] puts [n] voters together for one view, [SimplexChain] puts
      [n] voter actors in a network for all views; [SimplexAccountability] relates
      evidence to what a voter can sign.
    - storage/src/mmr: [MmrPosition] (position.rs, location.rs), [MmrIterator]
      (iterator.rs), [MmrTree] (hasher.rs; also the reference tree [tree] and
      [range_root] that the rest is compared with, and the class [CollisionFree]),
      [MmrProof] (proof.rs, verification.rs and the codec of proofs) and [MmrMem]
      (mem.rs, with the modules [DirtyMmr] and [CleanMmr]).
    - About ranges: [MmrSoundness] (what an accepted proof implies),
      [MmrCompleteness] (the canonical proof is accepted), [MmrStore] (proofs made
      from a store), [MmrMulti] (proofs of several elements), [MmrProperties] (their
      theorems); [MmrMemSpec] and [MmrMemOps] are the invariant of the range in
      memory and its preservation, [MmrMemProperties] the refinement of a list.
    - storage/src/bmt: [Bmt] (builder, tree, proofs, verifiers and codecs of a binary
      Merkle tree).  [BmtTree] has the places of digests in its levels, [BmtProperties]
      the proofs of one leaf, [BmtRange] those of a range, [BmtTheorems] the theorems.
    - consensus/src/aggregation/safe_tip.rs: [SafeTip] (the tips of all validators, split
      at the highest ones) and [SafeTipProperties].
    - storage/src/rmap: [RMap] (a set of indices as ranges) and [RMapProperties], on
      [BTreeMap] (the ordered map of the standard library as an ascending list).
    - runtime/src: [Blob] (storage/memory.rs: a blob of the in-memory storage; also
      what buffered blobs and the buffered reader promise) and [Buffered]
      (utils/buffer: the modules [Tip], [Pool], [Append], [Write] and [Read] of
      tip.rs, pool.rs, append.rs, write.rs and read.rs).  [BufferedPool] has the
      invariant of the page cache, [BufferedProperties] the relations between a
      buffered blob and the plain one, [BufferedRefinement] and [BufferedReader] the
      theorems, the reader against the class [ReadLaws] of what a blob promises it.
    - storage/src/journal/segmented/variable.rs: [Journal] (every operation, on plain
      blobs; codec, checksum and compression are parameters with the class
      [Storable]).  [JournalLayout] is the layout of items in a blob, [JournalLog] the
      journal as a list of items per section, [JournalRecovery] what a crash leaves
      of it, [JournalProperties] the theorems, and [JournalDisk] relates the bytes to
      the [Disk] of the voter actor.

    ** How the parts interact

    A codec of a larger type is built by the same combinators the code derives it
    with, and its laws come from [Lawful] by instance resolution: the clients in
    [SimplexTypes] and [SimplexEvidence] use the class only.  [VoterState] calls
    [Round], which calls [Slot], with the guards and early returns of the code.
    [VoterActor.iterate] composes the operations of [VoterState] with the journal,
    the network and the application; [JournalDisk] puts the byte-level [Journal]
    under that journal, and the refinements of [Buffered] put buffers and page
    caches under the blobs of [Journal].  [VoterActor.reachable] is any sequence of
    turns, crashes and starts.  [VoterJournal.exec] is one event of one view, and
    [VoterJournal.run] a sequence of such events in any order: the refinement maps
    a run of the actor to one such sequence per view.  [SimplexSafety] needs only
    the votes such sequences can send and the quorum functions; [SimplexChain]
    takes them from reachable actors.

    ** What the theorems show

    - Voting ([VoterJournal]): in a view a node never sends both a nullify and a
      finalize vote, notarizes at most one proposal, finalizes only what it
      notarized, saw notarized and certified, and can always be restarted.  All
      of it holds across crashes.
    - The actor: what it sends in each view is what the one-view abstraction can
      send ([VoterRefinementStart]); each notarize vote is for a proposal that a
      received certificate proves, or whose parent was certified or finalized and
      whose skipped views were nullified ([VoterJustifiedLoop]); a dead node can
      always be started again ([VoterRestart]).
    - Safety of the chain ([SimplexChain]): with at most [max_faults n] faulty
      participants a finalized proposal is an ancestor of every proposal notarized
      or finalized in the same or a later view.
    - Safety of a view ([SimplexSafety]): with at most [max_faults n] faulty
      participants, certificates of a view agree and a finalized view is not
      nullified.
    - The voter's state ([VoterStateSpec]): no operation panics in a reachable
      state, the parent search and the payload offered for verification are the
      right ones, views only advance, certificates persist until they are pruned,
      and pruning drops exactly the views below the horizon.
    - The batcher ([BatcherProperties]): every certificate it forwards rests on
      verified signatures of a quorum, every proposal on a vote that came from the
      leader and names it as its signer (signatures are verified later); as long as its
      own voter behaves it panics on a vote for view 0 and on no other message.
    - The resolver ([ResolverProperties]): no missed view is forgotten, it catches up
      with the current view, what it serves is accepted by its peers, and no message
      makes it panic.
    - The journal ([JournalProperties], [JournalDisk]): what was appended is read
      back at its offset and by a replay from anywhere; a crash loses nothing that
      was synced and leaves a journal that opens, replays and can be used; whatever
      the voter does to its journal, its restarts replay what the abstract disk of
      [VoterActor] allows.
    - Buffered blobs ([BufferedRefinement], [BufferedReader]): buffers and page caches
      change no result of any sequence of operations, and the same bytes are on disk.
      Growing an append-only blob by [resize] is the exception, with a
      counterexample, and so is the position of a reader after a [read_exact] whose
      quick check counted the buffered bytes twice and that then failed at the end.
    - Range maps ([RMapProperties]): the ranges represent the set the operations
      describe and are the only ones that do; the search for gaps ends and finds
      them all.
    - Participants and leaders ([Ordered], [Elector]): indices and keys are inverse,
      ordered maps keep what they are built from and decode only well-formed
      bytes, round robin is fair and the elected leader exists.
    - Evidence ([SimplexAccountability]): which evidence convicts a faulty
      participant, and which does not.
    - Codecs ([CodecProperties]): for every type, decoding accepts exactly the
      encodings of the values the configuration allows and never panics; what
      follows an encoding in a stream is left untouched; domain separation is
      injective.
    - Ranges ([MmrPosition], [MmrIterator]): locations and positions are inverse,
      valid sizes are recognised, and the iterators yield the peaks, the parents
      and the paths that the binary representation of the number of leaves
      describes.
    - Proofs ([MmrSoundness], [MmrProperties]): what the verifier accepts is true,
      whoever made the proof; what the prover returns is accepted, and its errors
      are the missing node or the bad bounds; a store made of a proof proves every
      part of it.  The exact set of accepted proofs is characterised, and with it
      that proofs are malleable.
    - The binary Merkle tree ([BmtTheorems]): its verifiers accept exactly the proofs the
      tree gives for exactly the leaves it was built from, unless the verifier and the
      builder hashed different bytes to the same digest, and its provers return a proof or the documented error.
    - The range in memory ([MmrMemProperties]) is a list of elements with the root
      of their tree: any history returns what the list determines, every element
      from the pruning position on stays provable, the thread pool changes nothing,
      and batches are all or nothing.  [MmrTree.StandardBinding] shows that the
      standard hasher binds its inputs as far as the hash is collision free.
    - The safe tip of the aggregation engine ([SafeTipProperties]) panics only on a
      validator set of another size, follows a plain map of tips, and is the greatest tip some honest validator must have
      reached.
    - Arithmetic ([ConsensusTypes]): quorums intersect in an honest participant,
      epochs partition the heights, and the window of interesting views contains
      the last finalized and the current view.

    ** Conventions

    - A machine integer is the [Z] it denotes, and each operation writes out its
      wrap-around, saturation, check or panic.  [outcome] is [Result] plus a panic;
      where the code returns no [Result], [None] is a panic.
    - The hash of a range is a parameter.  Theorems about proofs assume
      [CollisionFree]: the digests of leaves, nodes and roots are injective; the
      hasher [Symbolic] satisfies it, and the standard hasher does up to collisions
      of the hash it is given.  The theorems on the binary Merkle tree assume nothing of
      the hash.  Digests have a fixed width there, so that some inputs collide; the
      theorems therefore name the collision: it is among the finitely many bytes that
      the builder hashed ([tree_inputs]) and the verifier hashed ([verify_inputs],
      [range_inputs]).  A hasher is passed new or just finalized.
    - Times and durations are [Z]; reading the clock is an argument of the
      operation that reads it.  Tracing, metrics and gauges have no effect on the
      state and are left out.
    - The digest, the signing scheme, the certificate codec and the leader elector
      are generic in the code and parameters here.  The class [Types] and the
      records [Scheme] and [Verifier] hold them.  Theorems that need a signature to
      be unforgeable or a scheme to sign say so in a hypothesis.
    - The journal is, per section, the list of appended artifacts and the number
      of those known to be durable.  A crash keeps, in every section, any prefix
      that contains the durable ones, and can happen between any two effects of a
      turn; what a start has read is durable from then on.  That is the abstract
      disk of [VoterActor].  In [Journal] a section is a blob: its content and the
      bytes known to be on disk.  After a crash the content is any prefix of it
      that contains those bytes, and the replay cuts a torn item off at its end;
      [JournalDisk] relates the two.  A section stays below 64 GiB, where offsets
      fit.  In [VoterJournal] a crash is [OCrash], and [OCrashIn] inside a handler.
    - The voter actor reads the clock once per turn.  Its environment answers
      requests, delivers proposals and certificates and stops it in any order;
      a channel that closes stops the actor like a crash does.  In [SimplexChain]
      the certificates delivered to a correct node are backed by a quorum of the
      votes sent.
    - The p2p resolver that the resolver actor calls is the set of its open
      requests: [fetch] adds keys, [cancel] and [retain] remove them, and a delivery
      that is accepted removes its key.  The messages arrive in any order.
    - One task uses a blob at a time, and the runtime fails only on reads past the
      end and on offsets that overflow.  The pages that other blobs put into a shared
      page cache are operations of the sequences the theorems are about.

    ** Fuel

    Recursion that is not structural takes fuel, and the theorems that use it
    conclude that the result is [Some], so that the fuel is shown to be enough.
    [Varint.write_loop] gets one more than the number of bits of the value.  In the
    ranges the height of a node is at most 62, which bounds every loop:
    [Position.size_loop] gets 200 steps for two per height, [Location.descend] 64,
    [Peaks.next], [Peaks.collect], [Peaks.search], the loop of [pos_to_height] and
    [Path.collect], [peak_digest_from_range] and [DirtyMmr.pop_loop] 65 (two sizes of
    ranges next to each other are at most 63 apart).  [find_parent] gets one more than the view it starts at,
    because its cursor decreases.  [Ordered.search_loop] gets the length of the
    list, and [RMap.missing_loop] two turns for every range and one more.
    [Journal.replay_loop] gets one more than the bytes of the blob, and so do
    [Pool.read_loop], [Pool.cache_loop] and [Read.read_exact_loop] for the bytes they
    are asked for; [Pool.find_victim] gets two rounds of the clock and a step.
    [Bmt.new_loop] gets the number of leaves.

    ** What is not modelled

    - The aggregation engine, ordered broadcast and marshal; the journaled and the grafted range; the
      authenticated bitmap; the codecs of hash collections and of
      network addresses.
    - Of storage the other journals, archives, indices and databases, which are
      asynchronous input and output over the same blobs.  Of the buffered blobs the
      page fetches in flight, by which concurrent readers share one read.
    - Cryptography, networking, the executors and drivers of the runtime and the
      examples, which are input and output, third-party primitives or glue. *)

From stdpp Require Export base tactics list gmap sorting strings.
From Stdlib Require Export ZArith Lia.

Declare Scope cw_scope.
Delimit Scope cw_scope with cw.
#[global] Open Scope Z_scope.
#[global] Open Scope cw_scope.

(** ** Outcomes of fallible code *)

(** A call of a function returning [Result<A, E>] ends in [Ok], in [Err], or
    does not return because a Rust [panic!] unwinds it.  Functions that do not
    return a [Result] but may panic return an [option]: [None] is the panic. *)
Inductive outcome (E A : Type) : Type :=
| Ok (a : A)
| Err (e : E)
| Panic.
Arguments Ok {E A} a.
Arguments Err {E A} e.
Arguments Panic {E A}.

Section Outcome.
Context {E A B : Type}.

Definition obind (m : outcome E A) (k : A → outcome E B) : outcome E B :=
  match m with
  | Ok a => k a
  | Err e => Err e
  | Panic => Panic
  end.

Lemma obind_Ok (m : outcome E A) (k : A → outcome E B) b :
  obind m k = Ok b ↔ ∃ a, m = Ok a ∧ k a = Ok b.
Proof. destruct m; naive_solver. Qed.

Lemma obind_no_panic (m : outcome E A) (k : A → outcome E B) :
  m ≠ Panic → (∀ a, m = Ok a → k a ≠ Panic) → obind m k ≠ Panic.
Proof. destruct m; naive_solver. Qed.

(** [unwrap]/[expect] of an option inside fallible code. *)
Definition expect (o : option A) : outcome E A :=
  match o with
  | Some a => Ok a
  | None => Panic
  end.
End Outcome.

(** The [?] operator. *)
Notation "'let?' x := m 'in' k" := (obind m (λ x, k))
  (at level 200, x pattern, right associativity) : cw_scope.

(** ** Machine integers *)

(** An unsigned [w]-bit integer is a [Z] in [[0, 2^w)]. *)
Definition fits (w z : Z) : Prop := 0 ≤ z < 2 ^ w.
Definition fitsb (w z : Z) : bool := (0 <=? z) && (z <? 2 ^ w).
Definition wrap (w z : Z) : Z := z mod 2 ^ w.
(** Two's complement reinterpretation of the low [w] bits. *)
Definition swrap (w z : Z) : Z := (z + 2 ^ (w - 1)) mod 2 ^ w - 2 ^ (w - 1).
Definition sfits (w z : Z) : Prop := - 2 ^ (w - 1) ≤ z < 2 ^ (w - 1).

Definition checked_add (w a b : Z) : option Z :=
  if a + b <? 2 ^ w then Some (a + b) else None.
Definition checked_sub (a b : Z) : option Z :=
  if b <=? a then Some (a - b) else None.
Definition checked_mul (w a b : Z) : option Z :=
  if a * b <? 2 ^ w then Some (a * b) else None.
Definition saturating_add (w a b : Z) : Z := Z.min (a + b) (2 ^ w - 1).
Definition saturating_sub (a b : Z) : Z := Z.max 0 (a - b).
Definition div_ceil (a b : Z) : Z := (a + b - 1) / b.

(** Number of significant bits; [leading_zeros] of a [w]-bit integer is
    [w - bit_length]. *)
Definition bit_length (z : Z) : Z := if z =? 0 then 0 else Z.log2 z + 1.
Definition leading_zeros (w z : Z) : Z := w - bit_length z.

(** ** Automation shared by the development *)

Create HintDb cw.

(** Turn boolean comparisons into propositions. *)
Ltac bool_to_prop :=
  repeat match goal with
  | H : _ && _ = true |- _ => apply andb_true_iff in H as [? ?]
  | H : _ && _ = false |- _ => apply andb_false_iff in H
  | H : _ || _ = true |- _ => apply orb_true_iff in H
  | H : _ || _ = false |- _ => apply orb_false_iff in H as [? ?]
  | H : negb _ = true |- _ => apply negb_true_iff in H
  | H : negb _ = false |- _ => apply negb_false_iff in H
  | H : (_ <=? _)%Z = true |- _ => apply Z.leb_le in H
  | H : (_ <=? _)%Z = false |- _ => apply Z.leb_gt in H
  | H : (_ <? _)%Z = true |- _ => apply Z.ltb_lt in H
  | H : (_ <? _)%Z = false |- _ => apply Z.ltb_ge in H
  | H : (_ =? _)%Z = true |- _ => apply Z.eqb_eq in H
  | H : (_ =? _)%Z = false |- _ => apply Z.eqb_neq in H
  end.

(** Case analysis on every boolean test in the goal. *)
Ltac case_tests :=
  repeat match goal with
  | |- context [if ?b then _ else _] =>
      lazymatch type of b with bool => destruct b eqn:? end
  end; bool_to_prop.

(** Split an equation between outcomes through the [let?] chain. *)
Ltac inv_ok :=
  repeat match goal with
  | H : obind _ _ = Ok _ |- _ => apply obind_Ok in H as (? & ? & ?)
  | H : Ok _ = Ok _ |- _ => injection H as H; subst
  | H : Err _ = Ok _ |- _ => discriminate H
  | H : Panic = Ok _ |- _ => discriminate H
  | p : (_ * _)%type |- _ => destruct p
  end; simpl in *.

(** ** Facts on machine integers *)

Lemma fitsb_spec w z : fitsb w z = true ↔ fits w z.
Proof. unfold fitsb, fits. rewrite andb_true_iff, Z.leb_le, Z.ltb_lt. done. Qed.

Lemma wrap_fits w z : 0 ≤ w → fits w (wrap w z).
Proof. intros. apply Z.mod_pos_bound. lia. Qed.

Lemma wrap_small w z : fits w z → wrap w z = z.
Proof. intros. by apply Z.mod_small. Qed.

Lemma pow2_split w : 0 < w → 2 ^ w = 2 * 2 ^ (w - 1).
Proof.
  intros. replace w with (Z.succ (w - 1)) at 1 by lia.
  rewrite Z.pow_succ_r; lia.
Qed.

Lemma swrap_small w z : 0 < w → sfits w z → swrap w z = z.
Proof.
  unfold swrap, sfits. intros Hw H. pose proof (pow2_split w Hw).
  rewrite Z.mod_small; lia.
Qed.

Lemma bit_length_nonneg z : 0 ≤ z → 0 ≤ bit_length z.
Proof.
  intros. unfold bit_length. case_tests; [lia|].
  pose proof (Z.log2_nonneg z). lia.
Qed.

Lemma bit_length_bounds z : 0 < z → 2 ^ (bit_length z - 1) ≤ z < 2 ^ bit_length z.
Proof.
  intros. unfold bit_length. case_tests; [lia|].
  replace (Z.log2 z + 1 - 1) with (Z.log2 z) by lia.
  rewrite Z.add_1_r. by apply Z.log2_spec.
Qed.

Lemma bit_length_le w z : 0 ≤ w → 0 ≤ z → bit_length z ≤ w ↔ z < 2 ^ w.
Proof.
  intros Hw Hz. destruct (Z.eq_dec z 0) as [->|Hne].
  { unfold bit_length. simpl. lia. }
  pose proof (bit_length_bounds z ltac:(lia)) as [Hl Hu]. split; intros H.
  - eapply Z.lt_le_trans; [exact Hu|]. apply Z.pow_le_mono_r; lia.
  - assert (bit_length z - 1 < w); [|lia].
    apply (Z.pow_lt_mono_r_iff 2); lia.
Qed.

(** Disjoint bits: [lor] is addition when the operands share no bit. *)
Lemma lor_add_disjoint a b k :
  0 ≤ k → 0 ≤ a < 2 ^ k → Z.lor a (Z.shiftl b k) = a + 2 ^ k * b.
Proof.
  intros Hk Ha. assert (Z.land a (Z.shiftl b k) = 0) as Hland.
  { apply Z.bits_inj_0. intros i. rewrite Z.land_spec.
    destruct (Z.lt_ge_cases i 0); [by rewrite Z.testbit_neg_r|].
    rewrite Z.shiftl_spec by lia. destruct (Z.lt_ge_cases i k).
    - rewrite (Z.testbit_neg_r b) by lia. apply andb_false_r.
    - rewrite <- (Z.mod_small a (2 ^ k)) by lia.
      by rewrite Z.mod_pow2_bits_high by lia. }
  pose proof (Z.add_lor_land a (Z.shiftl b k)) as E.
  rewrite Hland in E. rewrite (Z.shiftl_mul_pow2 b) in * by lia. lia.
Qed.

(** ** Facts on lists *)

Lemma app_inv_length {A} (l1 l2 k1 k2 : list A) :
  length l1 = length k1 → l1 ++ l2 = k1 ++ k2 → l1 = k1 ∧ l2 = k2.
Proof. intros. by apply app_inj_1. Qed.

(** Check a decidable property of bytes by enumeration. *)
Lemma byte_forall (P : Z → bool) :
  forallb P (seqZ 0 256) = true → ∀ y, 0 ≤ y < 256 → P y = true.
Proof.
  intros H y Hy. rewrite forallb_forall in H. apply H.
  apply list_elem_of_In, elem_of_seqZ. lia.
Qed.

(** A filter that keeps everything. *)
Lemma filter_id {A} (P : A → Prop) `{∀ x, Decision (P x)} (l : list A) : (∀ x, x ∈ l → P x) → filter P l = l.
Proof.
  induction l as [|x l IH]; intros H'; [done|]. rewrite filter_cons_True by (apply H'; constructor).
  f_equal. apply IH. intros y Hy. apply H'. by constructor.
Qed.

(** ** Ascending lists *)

Lemma seqZ_sorted a n : StronglySorted Z.lt (seqZ a n).
Proof.
  destruct (Z.le_gt_cases n 0); [rewrite seqZ_nil by lia; constructor|]. rewrite <- (Z2Nat.id n) by lia.
  generalize (Z.to_nat n). clear n H. intros n. revert a. induction n as [|n IH]; intros a; [rewrite seqZ_nil by lia; constructor|].
  rewrite seqZ_cons by lia. replace (Z.pred (Z.of_nat (S n))) with (Z.of_nat n) by lia. constructor; [apply IH|].
  apply Forall_forall. intros x Hx%elem_of_seqZ. lia.
Qed.

Lemma filter_sorted (P : Z → Prop) `{∀ x, Decision (P x)} l : StronglySorted Z.lt l → StronglySorted Z.lt (filter P l).
Proof.
  induction 1 as [|x l Hs IH Hf]; [constructor|]. rewrite filter_cons. case_decide; [|done]. constructor; [done|].
  apply Forall_forall. intros y [_ Hy]%list_elem_of_filter. by eapply Forall_forall in Hf.
Qed.

(** A strictly ascending list is determined by its elements. *)
Lemma sorted_elements_unique l l' : StronglySorted Z.lt l → StronglySorted Z.lt l' → (∀ x, x ∈ l ↔ x ∈ l') → l = l'.
Proof.
  intros Hl. revert l'. induction Hl as [|x l Hl IH Hx]; intros l' Hl' He.
  - destruct l' as [|y l']; [done|]. specialize (He y). rewrite elem_of_nil, elem_of_cons in He. tauto.
  - destruct Hl' as [|y l' Hl' Hy]; [specialize (He x); rewrite elem_of_nil, elem_of_cons in He; tauto|].
    rewrite Forall_forall in Hx, Hy. assert (x = y) as <-.
    { pose proof (proj1 (He x) ltac:(by left)) as H1. pose proof (proj2 (He y) ltac:(by left)) as H2.
      apply elem_of_cons in H1 as [?|H1], H2 as [?|H2]; try done. specialize (Hx y H2). specialize (Hy x H1). lia. }
    f_equal. apply IH; [done|]. intros z. specialize (He z). rewrite !elem_of_cons in He.
    split; intros Hz; [specialize (Hx z Hz)|specialize (Hy z Hz)]; destruct He as [He1 He2]; naive_solver lia.
Qed.

Lemma take_seqZ k a n : take k (seqZ a n) = seqZ a (Z.min n (Z.of_nat k)).
Proof.
  apply list_eq. intros i. destruct (decide (i < k)%nat).
  - rewrite lookup_take_lt by done. destruct (decide (Z.of_nat i < n)).
    + by rewrite !lookup_seqZ_lt by lia.
    + by rewrite !lookup_seqZ_ge by lia.
  - by rewrite lookup_take_ge, lookup_seqZ_ge by lia.
Qed.
