(* ===== verification/Codec.v ===== *)
(** * The codec traits (codec/src/codec.rs, error.rs, config.rs, util.rs)

    A Rust type with [Write], [EncodeSize] and [Read] implementations is a
    [codec] record of those three operations.  A buffer is the list of bytes
    that remain to be read; [read_cfg] returns the value and the rest of the
    buffer.  The class [Lawful] states what an implementation promises to its
    clients; the files that model concrete types give its instances, and the
    theorems here are proved against the class. *)

From S2P Require Import Prelude.
From coqutil Require Export Byte.

Definition bytes : Type := list Byte.byte.

#[export] Instance byte_eq_dec : EqDecision Byte.byte := Byte.byte_eq_dec.

(** ** Errors (codec/src/error.rs) *)

Inductive Error : Type :=
| EndOfBuffer
| ExtraData (remaining : Z)
| InvalidVarint (size : Z)
| InvalidUsize
| InvalidBool
| InvalidEnum (tag : Z)
| InvalidLength (len : Z)
| Invalid (context message : string)
| Wrapped (context source : string).

#[export] Instance Error_eq_dec : EqDecision Error.
Proof. solve_decision. Defined.

Notation result A := (outcome Error A).

(** ** Range configuration (codec/src/config.rs) *)

Inductive Bound : Type :=
| Included (z : Z)
| Excluded (z : Z)
| Unbounded.

Record RangeCfg : Type := mkRangeCfg { rc_start : Bound; rc_end : Bound }.

Module RangeCfg.
(** [RangeCfg::new] applied to each kind of Rust range. *)
Definition from_range (a b : Z) : RangeCfg := mkRangeCfg (Included a) (Excluded b).
Definition from_range_inclusive (a b : Z) : RangeCfg := mkRangeCfg (Included a) (Included b).
Definition from_range_from (a : Z) : RangeCfg := mkRangeCfg (Included a) Unbounded.
Definition from_range_to (b : Z) : RangeCfg := mkRangeCfg Unbounded (Excluded b).
Definition from_range_to_inclusive (b : Z) : RangeCfg := mkRangeCfg Unbounded (Included b).
Definition from_range_full : RangeCfg := mkRangeCfg Unbounded Unbounded.

Definition exact (v : Z) : RangeCfg := mkRangeCfg (Included v) (Included v).

Definition contains (r : RangeCfg) (v : Z) : bool :=
  if match rc_start r with
     | Included s => v <? s
     | Excluded s => v <=? s
     | Unbounded => false
     end then false
  else if match rc_end r with
     | Included e => v >? e
     | Excluded e => v >=? e
     | Unbounded => false
     end then false
  else true.

Definition lower_ok (b : Bound) (v : Z) : Prop :=
  match b with Included s => s ≤ v | Excluded s => s < v | Unbounded => True end.
Definition upper_ok (b : Bound) (v : Z) : Prop :=
  match b with Included e => v ≤ e | Excluded e => v < e | Unbounded => True end.

Lemma contains_spec r v :
  contains r v = true ↔ lower_ok (rc_start r) v ∧ upper_ok (rc_end r) v.
Proof.
  destruct r as [[s|s|] [e|e|]]; unfold contains; simpl;
    rewrite ?Z.gtb_ltb, ?Z.geb_leb; case_tests; split; intros; naive_solver lia.
Qed.
End RangeCfg.

(** ** Operations of a type *)

Record codec (A Cfg : Type) : Type := Codec {
  write : A → option bytes;         (** [None]: the writer panics *)
  encode_size : A → option Z;
  read_cfg : Cfg → bytes → result (A * bytes);
}.
Arguments Codec {A Cfg} _ _ _.
Arguments write {A Cfg} _ _.
Arguments encode_size {A Cfg} _ _.
Arguments read_cfg {A Cfg} _ _ _.

(** [Encode::encode]: the assertion on the written length is a panic. *)
Definition encode {A Cfg} (c : codec A Cfg) (x : A) : option bytes :=
  len ← encode_size c x;
  buffer ← write c x;
  if Z.of_nat (length buffer) =? len then Some buffer else None.

(** [Decode::decode_cfg]. *)
Definition decode_cfg {A Cfg} (c : codec A Cfg) (buf : bytes) (cfg : Cfg) : result A :=
  let? (x, rest) := read_cfg c cfg buf in
  if 0 <? Z.of_nat (length rest) then Err (ExtraData (Z.of_nat (length rest)))
  else Ok x.

(** [EncodeFixed::encode_fixed::<N>] for a type whose [FixedSize::SIZE] is
    [SIZE]: writing past the end of the array panics, as does writing less. *)
Definition encode_fixed {A Cfg} (c : codec A Cfg) (SIZE N : Z) (x : A) : option bytes :=
  if N =? SIZE then
    b ← write c x;
    if Z.of_nat (length b) =? N then Some b else None
  else None.

(** [util::at_least]. *)
Definition at_least (buf : bytes) (len : Z) : result unit :=
  if Z.of_nat (length buf) <? len then Err EndOfBuffer else Ok tt.

(** ** What an implementation promises *)

Class Lawful {A Cfg} (c : codec A Cfg) : Type := {
  (** the values a configuration accepts *)
  admits : Cfg → A → Prop;
  codec_write_total cfg x : admits cfg x → is_Some (write c x);
  codec_size x b : write c x = Some b → encode_size c x = Some (Z.of_nat (length b));
  codec_roundtrip cfg x b rest :
    admits cfg x → write c x = Some b → read_cfg c cfg (b ++ rest) = Ok (x, rest);
  codec_canonical cfg buf x rest :
    read_cfg c cfg buf = Ok (x, rest) →
    admits cfg x ∧ ∃ b, write c x = Some b ∧ buf = b ++ rest;
  codec_no_panic cfg buf : read_cfg c cfg buf ≠ Panic;
}.
Arguments admits {A Cfg} c {_} _ _.

Section Laws.
Context {A Cfg : Type} (c : codec A Cfg) `{!Lawful c}.

Lemma encode_write x : encode c x = write c x.
Proof.
  unfold encode. destruct (write c x) as [b|] eqn:E.
  - rewrite (codec_size _ _ E). simpl. by rewrite Z.eqb_refl.
  - by destruct (encode_size c x).
Qed.

Lemma encode_total cfg x : admits c cfg x → is_Some (encode c x).
Proof. rewrite encode_write. apply codec_write_total. Qed.

Lemma decode_encode cfg x b :
  admits c cfg x → encode c x = Some b → decode_cfg c b cfg = Ok x.
Proof.
  rewrite encode_write. intros Ha Hw. unfold decode_cfg.
  rewrite <- (app_nil_r b), (codec_roundtrip cfg x b []); done.
Qed.

Lemma encode_decode cfg x b :
  decode_cfg c b cfg = Ok x → admits c cfg x ∧ encode c x = Some b.
Proof.
  unfold decode_cfg. destruct (read_cfg c cfg b) as [[y rest]| |] eqn:E; try done.
  apply codec_canonical in E as (Ha & w & Hw & ->). simpl.
  destruct rest; [|done]. intros [= ->]. rewrite app_nil_r, encode_write. done.
Qed.

Lemma decode_no_panic cfg b : decode_cfg c b cfg ≠ Panic.
Proof.
  unfold decode_cfg. apply obind_no_panic; [apply codec_no_panic|].
  intros [x rest] _. by case_tests.
Qed.

Lemma decode_iff cfg x b :
  decode_cfg c b cfg ≠ Panic ∧
  (decode_cfg c b cfg = Ok x ↔ admits c cfg x ∧ encode c x = Some b).
Proof.
  split; [apply decode_no_panic|]. split; [apply encode_decode|].
  intros [? ?]. by apply decode_encode.
Qed.

(** Two encodings of which one is a prefix of the other are equal. *)
Lemma write_prefix_free cfg x y bx byy s1 s2 :
  admits c cfg x → admits c cfg y →
  write c x = Some bx → write c y = Some byy →
  bx ++ s1 = byy ++ s2 → x = y ∧ s1 = s2.
Proof.
  intros Hx Hy Wx Wy E.
  pose proof (codec_roundtrip cfg x bx s1 Hx Wx) as R1.
  pose proof (codec_roundtrip cfg y byy s2 Hy Wy) as R2.
  rewrite E, R2 in R1. by injection R1 as -> ->.
Qed.

Lemma decode_truncated cfg x b b' s y :
  admits c cfg x → write c x = Some b → b = b' ++ s → s ≠ [] →
  decode_cfg c b' cfg ≠ Ok y.
Proof.
  intros Hx Wx -> Hs Hd. apply encode_decode in Hd as [Hy Wy].
  rewrite encode_write in Wy.
  destruct (write_prefix_free cfg x y _ _ [] s Hx Hy Wx Wy); [|congruence].
  by rewrite app_nil_r.
Qed.

Lemma decode_extra cfg x b s :
  admits c cfg x → write c x = Some b → s ≠ [] →
  decode_cfg c (b ++ s) cfg = Err (ExtraData (Z.of_nat (length s))).
Proof.
  intros Hx Wx Hs. unfold decode_cfg. rewrite (codec_roundtrip cfg x b s) by done.
  simpl. destruct s; [done|]. by case_tests; simpl in *; try lia.
Qed.
End Laws.

(** [FixedSize]: every encoding has the same length. *)
Class FixedSize {A Cfg} (c : codec A Cfg) (SIZE : Z) : Prop :=
  fixed_size x : encode_size c x = Some SIZE.

Lemma encode_fixed_total {A Cfg} (c : codec A Cfg) SIZE `{!Lawful c, !FixedSize c SIZE} cfg x :
  admits c cfg x → encode_fixed c SIZE SIZE x = write c x ∧ is_Some (write c x).
Proof.
  intros Hx. destruct (codec_write_total cfg x Hx) as [b E].
  split; [|eauto]. unfold encode_fixed. rewrite Z.eqb_refl, E. simpl.
  pose proof (codec_size _ _ E) as Hs. rewrite fixed_size in Hs. injection Hs as ->.
  by rewrite Z.eqb_refl.
Qed.
