(* ===== verification/Varint.v ===== *)
(** * Variable-length integers (codec/src/varint.rs)

    [Varint.Decoder] and [feed] model the incremental decoder, [read] the loop
    that drives it over a buffer, [write] and [size] the encoder, and the
    ZigZag functions the signed variant.  The type parameter [U: UPrim] of the
    code enters only through its width, so the definitions take the constant
    [SIZE] (2, 4, 8 or 16 bytes in the code) as an argument. *)

From S2P Require Import Prelude Codec.

Module Varint.

Definition BITS_PER_BYTE : Z := 8.
Definition DATA_BITS_PER_BYTE : Z := 7.
Definition DATA_BITS_MASK : Z := 127.
Definition CONTINUATION_BIT_MASK : Z := 128.

Record Decoder : Type := mkDecoder { dec_result : Z; bits_read : Z }.

Definition new : Decoder := mkDecoder 0 0.

(** [Decoder::feed]: the state after the call and what the call returns. *)
Definition feed (SIZE : Z) (d : Decoder) (b : Byte.byte) : Decoder * result (option Z) :=
  let byte := byte.unsigned b in
  let max_bits := SIZE * BITS_PER_BYTE in
  if (byte =? 0) && (0 <? bits_read d) then (d, Err (InvalidVarint SIZE))
  else
    match checked_sub max_bits (bits_read d) with
    | None => (d, Panic)
    | Some remaining_bits =>
        let relevant_bits := BITS_PER_BYTE - leading_zeros BITS_PER_BYTE byte in
        if (remaining_bits <=? DATA_BITS_PER_BYTE) && (remaining_bits <? relevant_bits)
        then (d, Err (InvalidVarint SIZE))
        else
          let res := Z.lor (dec_result d)
                       (wrap max_bits (Z.shiftl (Z.land byte DATA_BITS_MASK) (bits_read d))) in
          if Z.land byte CONTINUATION_BIT_MASK =? 0
          then (mkDecoder res (bits_read d), Ok (Some res))
          else (mkDecoder res (bits_read d + DATA_BITS_PER_BYTE), Ok None)
    end.

(** The loop of [read]; every iteration takes one byte from the buffer. *)
Fixpoint read_loop (SIZE : Z) (d : Decoder) (buf : bytes) : result (Z * bytes) :=
  match buf with
  | [] => Err EndOfBuffer
  | b :: rest =>
      match feed SIZE d b with
      | (_, Ok (Some v)) => Ok (v, rest)
      | (d', Ok None) => read_loop SIZE d' rest
      | (_, Err e) => Err e
      | (_, Panic) => Panic
      end
  end.

Definition read (SIZE : Z) (buf : bytes) : result (Z * bytes) := read_loop SIZE new buf.

(** The loop of [write]; [None] is exhausted fuel, which [write] never meets. *)
Fixpoint write_loop (fuel : nat) (val : Z) : option bytes :=
  match fuel with
  | O => None
  | S fuel =>
      if CONTINUATION_BIT_MASK <=? val then
        rest ← write_loop fuel (Z.shiftr val 7);
        Some (byte.of_Z (Z.lor (wrap 8 val) CONTINUATION_BIT_MASK) :: rest)
      else Some [byte.of_Z val]
  end.

Definition write (value : Z) : option bytes :=
  if value <? CONTINUATION_BIT_MASK then Some [byte.of_Z value]
  else write_loop (S (Z.to_nat (bit_length value))) value.

Definition size (SIZE value : Z) : Z :=
  let total_bits := SIZE * 8 in
  let data_bits := total_bits - leading_zeros total_bits value in
  Z.max 1 (div_ceil data_bits DATA_BITS_PER_BYTE).

(** [UInt<U>] as a codec. *)
Definition UInt (SIZE : Z) : codec Z unit :=
  Codec write (λ x, Some (size SIZE x)) (λ _ buf, read SIZE buf).

(** ZigZag on a signed integer of [SIZE] bytes. *)
Definition as_zigzag (SIZE n : Z) : Z :=
  let w := SIZE * 8 in
  let shr := w - 1 in
  wrap w (Z.lxor (swrap w (Z.shiftl n 1)) (Z.shiftr n shr)).

Definition un_zigzag (SIZE value : Z) : Z :=
  let w := SIZE * 8 in
  Z.lxor (swrap w (Z.shiftr value 1)) (- (Z.land value 1)).

Definition write_signed (SIZE n : Z) : option bytes := write (as_zigzag SIZE n).
Definition read_signed (SIZE : Z) (buf : bytes) : result (Z * bytes) :=
  let? (v, rest) := read SIZE buf in Ok (un_zigzag SIZE v, rest).
Definition size_signed (SIZE n : Z) : Z := size SIZE (as_zigzag SIZE n).

(** [SInt<S>] as a codec. *)
Definition SInt (SIZE : Z) : codec Z unit :=
  Codec (write_signed SIZE) (λ x, Some (size_signed SIZE x)) (λ _ buf, read_signed SIZE buf).

(** ** The encoder as a recursion on the value *)

Lemma byte_continuation y :
  0 ≤ y < 256 → Z.lor y 128 mod 256 = (y mod 128 + 128) mod 256.
Proof.
  intros H. apply Z.eqb_eq.
  by apply (byte_forall (λ y, Z.lor y 128 mod 256 =? (y mod 128 + 128) mod 256)).
Qed.

Lemma write_loop_step f v :
  128 ≤ v →
  write_loop (S f) v =
    rest ← write_loop f (v / 128); Some (byte.of_Z (v mod 128 + 128) :: rest).
Proof.
  intros Hv. simpl. unfold CONTINUATION_BIT_MASK.
  destruct (Z.leb_spec 128 v); [|lia].
  rewrite Z.shiftr_div_pow2 by lia. change (2 ^ 7) with 128.
  destruct (write_loop f (v / 128)); [|done]. simpl. do 2 f_equal.
  apply byte.unsigned_inj. rewrite !byte.unsigned_of_Z.
  unfold byte.wrap, wrap. change (2 ^ 8) with 256.
  rewrite byte_continuation by (apply Z.mod_pos_bound; lia).
  by rewrite Z.mod_mod_divide by (by exists 2).
Qed.

Lemma write_loop_enough f g v :
  0 ≤ v → v < 128 ^ Z.of_nat (S f) → v < 128 ^ Z.of_nat (S g) →
  write_loop (S f) v = write_loop (S g) v.
Proof.
  revert g v. induction f as [|f IH]; intros g v H0 Hf Hg.
  { change (128 ^ Z.of_nat 1) with 128 in Hf. simpl. unfold CONTINUATION_BIT_MASK.
    by destruct (Z.leb_spec 128 v); [lia|]. }
  destruct (Z.lt_ge_cases v 128) as [Hlt|Hge].
  { simpl. unfold CONTINUATION_BIT_MASK. by destruct (Z.leb_spec 128 v); [lia|]. }
  destruct g as [|g]; [change (128 ^ Z.of_nat 1) with 128 in Hg; lia|].
  rewrite (write_loop_step (S f)), (write_loop_step (S g)) by done.
  rewrite Nat2Z.inj_succ, Z.pow_succ_r in Hf, Hg by lia.
  rewrite (IH g); [done|apply Z.div_pos; lia|..];
    (apply Z.div_lt_upper_bound; [lia|assumption]).
Qed.

Lemma fuel_enough v : 0 ≤ v → v < 128 ^ Z.of_nat (S (Z.to_nat (bit_length v))).
Proof.
  intros Hv. pose proof (bit_length_nonneg v Hv).
  assert (v < 2 ^ bit_length v) as H1 by (apply bit_length_le; lia).
  eapply Z.lt_le_trans; [exact H1|]. change 128 with (2 ^ 7).
  rewrite <- Z.pow_mul_r by lia. apply Z.pow_le_mono_r; lia.
Qed.

Lemma write_small v : v < 128 → write v = Some [byte.of_Z v].
Proof.
  intros. unfold write, CONTINUATION_BIT_MASK. by destruct (Z.ltb_spec v 128); [|lia].
Qed.

Lemma write_large v :
  128 ≤ v → write v = rest ← write (v / 128); Some (byte.of_Z (v mod 128 + 128) :: rest).
Proof.
  intros Hv. unfold write at 1. unfold CONTINUATION_BIT_MASK.
  destruct (Z.ltb_spec v 128); [lia|]. rewrite write_loop_step by done.
  assert (0 ≤ v / 128) by (apply Z.div_pos; lia).
  assert (write (v / 128) = write_loop (S (Z.to_nat (bit_length (v / 128)))) (v / 128)) as ->.
  { unfold write, CONTINUATION_BIT_MASK. destruct (Z.ltb_spec (v / 128) 128); [|done].
    simpl. unfold CONTINUATION_BIT_MASK. by destruct (Z.leb_spec 128 (v / 128)); [lia|]. }
  assert (∃ k, Z.to_nat (bit_length v) = S k ∧ v / 128 < 128 ^ Z.of_nat (S k)) as (k & -> & Hk).
  { assert (7 < bit_length v) by
      (apply Z.lt_nge; rewrite bit_length_le by lia; change (2 ^ 7) with 128; lia).
    exists (Z.to_nat (bit_length v) - 1)%nat. split; [lia|].
    replace (S _) with (Z.to_nat (bit_length v)) by lia.
    pose proof (fuel_enough v ltac:(lia)) as Hf.
    apply Z.div_lt_upper_bound; [lia|]. rewrite <- Z.pow_succ_r by lia.
    by rewrite Nat2Z.inj_succ in Hf. }
  by rewrite (write_loop_enough k (Z.to_nat (bit_length (v / 128)))) by
    (try apply fuel_enough; done).
Qed.

Lemma varint_ind (P : Z → Prop) :
  (∀ v, 0 ≤ v < 128 → P v) → (∀ v, 128 ≤ v → P (v / 128) → P v) → ∀ v, 0 ≤ v → P v.
Proof.
  intros Hs Hl v Hv. pattern v. apply Zlt_0_ind; [|done].
  intros x IH Hx. destruct (Z.lt_ge_cases x 128); [apply Hs; lia|].
  apply Hl; [done|]. apply IH. split; [apply Z.div_pos; lia|].
  apply Z.div_lt; lia.
Qed.

Lemma write_total v : is_Some (write v).
Proof.
  destruct (Z.lt_ge_cases v 0) as [|Hv]; [rewrite write_small by lia; eauto|].
  revert v Hv. apply varint_ind; intros v Hv.
  - rewrite write_small by lia. eauto.
  - intros [b Hb]. rewrite write_large, Hb by done. simpl. eauto.
Qed.

(** ** One step of the decoder *)

Lemma land_mask y : 0 ≤ y < 256 →
  Z.land y 127 = y mod 128 ∧ (Z.land y 128 =? 0) = (y <? 128).
Proof.
  intros H. split; [apply (Z.land_ones y 7); lia|].
  apply eqb_true_iff.
  by apply (byte_forall (λ y, eqb (Z.land y 128 =? 0) (y <? 128))).
Qed.

Section Decoder.
Context (SIZE : Z) (HSIZE : 0 < SIZE).
Notation W := (SIZE * 8).

(** Between calls: the bits read so far are the low bits of the result, and
    another byte can still contribute a bit. *)
Definition decoder_inv (d : Decoder) : Prop :=
  0 ≤ bits_read d < W ∧ 0 ≤ dec_result d < 2 ^ bits_read d.

Definition feed_spec (d : Decoder) (y : Z) : Decoder * result (option Z) :=
  let r := dec_result d + 2 ^ bits_read d * (y mod 128) in
  if (y =? 0) && (0 <? bits_read d) then (d, Err (InvalidVarint SIZE))
  else if (W - bits_read d <=? 7) && (2 ^ (W - bits_read d) <=? y)
  then (d, Err (InvalidVarint SIZE))
  else if y <? 128 then (mkDecoder r (bits_read d), Ok (Some r))
  else (mkDecoder r (bits_read d + 7), Ok None).

Lemma contribution_fits d y :
  0 ≤ bits_read d < W → 0 ≤ y < 256 →
  ((W - bits_read d <=? 7) && (2 ^ (W - bits_read d) <=? y)) = false →
  fits W (2 ^ bits_read d * (y mod 128)).
Proof.
  intros Hk Hy Hc. pose proof (Z.mod_pos_bound y 128 ltac:(lia)).
  split; [apply Z.mul_nonneg_nonneg; lia|].
  replace W with (bits_read d + (W - bits_read d)) by lia.
  rewrite Z.pow_add_r by lia. apply Z.mul_lt_mono_pos_l; [lia|].
  destruct (Z.leb_spec (W - bits_read d) 7) as [Hle|Hgt]; simpl in Hc; bool_to_prop.
  - eapply Z.le_lt_trans; [|exact Hc]. apply Z.mod_le; lia.
  - eapply Z.lt_le_trans with (2 ^ 7); [simpl; lia|]. apply Z.pow_le_mono_r; lia.
Qed.

Lemma feed_unfold d b : decoder_inv d → feed SIZE d b = feed_spec d (byte.unsigned b).
Proof.
  intros [Hk Hr]. unfold feed, feed_spec, checked_sub, BITS_PER_BYTE.
  pose proof (byte.unsigned_range b) as Hy. change (2 ^ 8) with 256 in Hy.
  set (y := byte.unsigned b) in *. clearbody y.
  destruct (_ && _); [done|]. destruct (Z.leb_spec (bits_read d) W); [|lia].
  unfold leading_zeros, DATA_BITS_PER_BYTE, DATA_BITS_MASK, CONTINUATION_BIT_MASK.
  replace (8 - (8 - bit_length y)) with (bit_length y) by lia.
  assert ((W - bits_read d <? bit_length y) = (2 ^ (W - bits_read d) <=? y)) as ->.
  { apply eq_true_iff_eq. rewrite Z.ltb_lt, Z.leb_le.
    rewrite <- Z.nle_gt, bit_length_le by lia. lia. }
  destruct (_ && _) eqn:Hc; [done|].
  destruct (land_mask y Hy) as [-> ->].
  pose proof (contribution_fits d y Hk Hy Hc) as Hfit.
  assert (wrap W (Z.shiftl (y mod 128) (bits_read d)) = Z.shiftl (y mod 128) (bits_read d)) as ->.
  { apply wrap_small. rewrite Z.shiftl_mul_pow2, (Z.mul_comm (y mod 128)) by lia. done. }
  rewrite lor_add_disjoint by lia. done.
Qed.

(** The decoder never panics and keeps its invariant while it asks for more. *)
Lemma feed_inv d b d' :
  decoder_inv d → feed SIZE d b = (d', Ok None) → decoder_inv d'.
Proof.
  intros Hd. rewrite feed_unfold by done. destruct Hd as [Hk Hr].
  pose proof (byte.unsigned_range b) as Hy. change (2 ^ 8) with 256 in Hy.
  unfold feed_spec. case_tests; try done. intros [= <-].
  assert (bits_read d + 7 < W).
  { destruct (Z.lt_ge_cases (W - bits_read d) 8); [|lia].
    assert (2 ^ (W - bits_read d) ≤ 2 ^ 7) by (apply Z.pow_le_mono_r; lia).
    change (2 ^ 7) with 128 in *.
    match goal with H : _ ∨ _ |- _ => destruct H end; bool_to_prop; lia. }
  split; [simpl; lia|]. simpl. rewrite Z.pow_add_r by lia. change (2 ^ 7) with 128.
  pose proof (Z.mod_pos_bound (byte.unsigned b) 128 ltac:(lia)). nia.
Qed.

Lemma feed_no_panic d b : decoder_inv d → (feed SIZE d b).2 ≠ Panic.
Proof. intros Hd. rewrite feed_unfold by done. unfold feed_spec. by case_tests. Qed.

Lemma new_inv : decoder_inv new.
Proof. unfold decoder_inv, new. simpl. lia. Qed.

Lemma read_loop_no_panic d buf : decoder_inv d → read_loop SIZE d buf ≠ Panic.
Proof.
  revert d. induction buf as [|b buf IH]; intros d Hd; [done|]. simpl.
  pose proof (feed_no_panic d b Hd) as Hp.
  destruct (feed SIZE d b) as [d' [[v|]| |]] eqn:E; try done.
  apply IH. by eapply feed_inv.
Qed.

(** ** Decoding what the encoder wrote *)

Lemma read_loop_write v : 0 ≤ v → ∀ d b rest,
  decoder_inv d → v < 2 ^ (W - bits_read d) → (0 < bits_read d → 0 < v) →
  write v = Some b →
  read_loop SIZE d (b ++ rest) = Ok (dec_result d + 2 ^ bits_read d * v, rest).
Proof.
  revert v. apply (varint_ind (λ v, ∀ d b rest, _ → _ → _ → _ → _)); intros v Hv.
  - intros d b rest Hd Hlt Hpos. rewrite write_small by lia. intros [= <-]. simpl.
    rewrite feed_unfold by done. unfold feed_spec. rewrite byte.unsigned_of_Z.
    unfold byte.wrap. change (2 ^ 8) with 256. rewrite Z.mod_small, (Z.mod_small v 128) by lia.
    destruct Hd as [Hk Hr]. case_tests; done || lia.
  - intros IH d b rest Hd Hlt Hpos. rewrite write_large by done.
    destruct (write (v / 128)) as [b'|] eqn:Hb'; simpl; [|done]. intros [= <-]. simpl.
    pose proof (Z.mod_pos_bound v 128 ltac:(lia)) as Hm.
    assert (feed SIZE d (byte.of_Z (v mod 128 + 128)) =
      (mkDecoder (dec_result d + 2 ^ bits_read d * (v mod 128)) (bits_read d + 7), Ok None)) as E.
    { rewrite feed_unfold by done. unfold feed_spec. rewrite byte.unsigned_of_Z.
      unfold byte.wrap. change (2 ^ 8) with 256. rewrite (Z.mod_small _ 256) by lia.
      rewrite <- (Z.mod_unique_pos (v mod 128 + 128) 128 1 (v mod 128)) by lia.
      assert (2 ^ 7 < 2 ^ (W - bits_read d)) as Hw by (change (2 ^ 7) with 128; lia).
      apply Z.pow_lt_mono_r_iff in Hw; destruct Hd; [|lia..]. case_tests; done || lia. }
    rewrite E. rewrite (IH _ b' rest); [..|done]; simpl.
    + f_equal. f_equal. destruct Hd. rewrite Z.pow_add_r by lia. change (2 ^ 7) with 128.
      pose proof (Z.div_mod v 128 ltac:(lia)). nia.
    + by eapply feed_inv.
    + apply Z.div_lt_upper_bound; [lia|]. change 128 with (2 ^ 7). destruct Hd.
      apply feed_inv in E as [? _]; [simpl in *|done..].
      rewrite <- Z.pow_add_r by lia. by replace (7 + _) with (W - bits_read d) by lia.
    + intros _. apply Z.div_str_pos. lia.
Qed.

(** ** What the decoder accepts is what the encoder writes *)

Lemma read_loop_canonical buf : ∀ d v rest,
  decoder_inv d → read_loop SIZE d buf = Ok (v, rest) →
  ∃ u b, 0 ≤ u < 2 ^ (W - bits_read d) ∧ (0 < bits_read d → 0 < u) ∧
    v = dec_result d + 2 ^ bits_read d * u ∧ write u = Some b ∧ buf = b ++ rest.
Proof.
  induction buf as [|b buf IH]; intros d v rest Hd; simpl; [done|].
  pose proof (byte.unsigned_range b) as Hy. change (2 ^ 8) with 256 in Hy.
  destruct (feed SIZE d b) as [d' [[v'|]| |]] eqn:E; try done;
    pose proof E as E'; rewrite feed_unfold in E by done; unfold feed_spec in E.
  - intros [= -> ->]. set (y := byte.unsigned b) in *. revert E. case_tests; try done.
    intros [= _ <-]. rewrite (Z.mod_small y) by lia. exists y, [b].
    assert (y < 2 ^ (W - bits_read d)).
    { match goal with H : _ ∨ _ |- _ => destruct H end; bool_to_prop; [|lia].
      eapply Z.lt_le_trans with (2 ^ 7); [simpl; lia|]. apply Z.pow_le_mono_r; lia. }
    split_and!; try done; try lia.
    rewrite write_small by lia. subst y. by rewrite byte.of_Z_unsigned.
  - intros Hread. pose proof (feed_inv _ _ _ Hd E') as Hd'.
    destruct (IH _ _ _ Hd' Hread) as (u & w & Hu & Hpos & -> & Hw & ->).
    set (y := byte.unsigned b) in *. revert E. case_tests; try done.
    intros [= <-]. simpl in *. destruct Hd as [Hk Hr], Hd' as [Hk' Hr']. simpl in *.
    specialize (Hpos ltac:(lia)).
    pose proof (Z.mod_pos_bound y 128 ltac:(lia)) as Hm.
    exists (y mod 128 + 128 * u), (b :: w). split_and!; try lia.
    + replace (W - bits_read d) with (7 + (W - (bits_read d + 7))) by lia.
      rewrite Z.pow_add_r by lia. change (2 ^ 7) with 128. lia.
    + rewrite Z.pow_add_r by lia. change (2 ^ 7) with 128. lia.
    + rewrite write_large by lia.
      rewrite (Z.mul_comm 128), Z.div_add, (Z.div_small (y mod 128)) by lia.
      rewrite Z.mod_add, Z.mod_mod by lia. rewrite Z.add_0_l, Hw. simpl.
      replace (y mod 128 + 128) with y; [by subst y; rewrite byte.of_Z_unsigned|].
      pose proof (Z.div_mod y 128 ltac:(lia)).
      assert (y / 128 = 1); [|lia].
      symmetry. apply (Z.div_unique y 128 1 (y - 128)); lia.
    + done.
Qed.
End Decoder.

(** ** The predicted size *)

Lemma bit_length_div128 v : 128 ≤ v → bit_length v = 7 + bit_length (v / 128).
Proof.
  intros Hv. assert (0 < v / 128) by (apply Z.div_str_pos; lia).
  unfold bit_length. destruct (Z.eqb_spec v 0), (Z.eqb_spec (v / 128) 0); try lia.
  change 128 with (2 ^ 7). rewrite <- Z.shiftr_div_pow2, Z.log2_shiftr by lia.
  enough (7 ≤ Z.log2 v) by lia. apply Z.log2_le_pow2; simpl; lia.
Qed.

Lemma write_length v : 0 ≤ v → ∀ SIZE b,
  write v = Some b → Z.of_nat (length b) = size SIZE v.
Proof.
  unfold size, leading_zeros, div_ceil, DATA_BITS_PER_BYTE.
  revert v. apply (varint_ind (λ v, ∀ SIZE b, _ → _)); intros v Hv.
  - intros SIZE b. rewrite write_small by lia. intros [= <-].
    replace (SIZE * 8 - (SIZE * 8 - bit_length v)) with (bit_length v) by lia.
    assert (bit_length v ≤ 7) by (rewrite bit_length_le by lia; simpl; lia).
    assert ((bit_length v + 7 - 1) / 7 < 2); [|simpl; lia].
    apply Z.div_lt_upper_bound; lia.
  - intros IH SIZE b. rewrite write_large by done.
    destruct (write (v / 128)) as [b'|]; simpl; [|done]. intros [= <-].
    specialize (IH SIZE b' eq_refl). revert IH.
    replace (SIZE * 8 - (SIZE * 8 - bit_length v)) with (bit_length v) by lia.
    replace (SIZE * 8 - (SIZE * 8 - bit_length (v / 128))) with (bit_length (v / 128)) by lia.
    rewrite (bit_length_div128 v) by done. intros IH. simpl length.
    rewrite Nat2Z.inj_succ, IH.
    replace (7 + bit_length (v / 128) + 7 - 1) with (bit_length (v / 128) + 7 - 1 + 1 * 7) by lia.
    rewrite Z.div_add by lia.
    assert (0 < v / 128) by (apply Z.div_str_pos; lia).
    assert (1 ≤ bit_length (v / 128)).
    { unfold bit_length. destruct (Z.eqb_spec (v / 128) 0); [lia|].
      pose proof (Z.log2_nonneg (v / 128)). lia. }
    assert (1 ≤ (bit_length (v / 128) + 7 - 1) / 7); [|lia].
    apply Z.div_le_lower_bound; lia.
Qed.

(** A varint never takes more than [ceil(bits / 7)] bytes. *)
Lemma size_bound SIZE v : 0 < SIZE → fits (SIZE * 8) v →
  size SIZE v ≤ div_ceil (SIZE * 8) 7.
Proof.
  intros HS [Hv Hf]. unfold size, leading_zeros, div_ceil, DATA_BITS_PER_BYTE.
  replace (SIZE * 8 - (SIZE * 8 - bit_length v)) with (bit_length v) by lia.
  assert (bit_length v ≤ SIZE * 8) by (apply bit_length_le; lia).
  apply Z.max_lub; [apply Z.div_le_lower_bound; lia|].
  apply Z.div_le_mono; lia.
Qed.

(** ** ZigZag *)

Section ZigZag.
Context (SIZE : Z) (HSIZE : 0 < SIZE).
Notation W := (SIZE * 8).

Lemma as_zigzag_eq n : sfits W n →
  as_zigzag SIZE n = if 0 <=? n then 2 * n else - 2 * n - 1.
Proof.
  intros [Hl Hu]. unfold as_zigzag.
  pose proof (pow2_split W ltac:(lia)) as HW.
  pose proof (pow2_split (W - 1) ltac:(lia)) as HW1.
  set (H := 2 ^ (W - 1)) in *.
  assert (Z.shiftr n (W - 1) = if 0 <=? n then 0 else -1) as ->.
  { rewrite Z.shiftr_div_pow2 by lia. fold H. destruct (Z.leb_spec 0 n).
    - apply Z.div_small; lia.
    - symmetry. apply (Z.div_unique_pos n H (-1) (n + H)); lia. }
  rewrite Z.shiftl_mul_pow2 by lia. change (2 ^ 1) with 2.
  destruct (Z.leb_spec 0 n).
  - rewrite Z.lxor_0_r. unfold wrap, swrap. fold H.
    rewrite Zminus_mod_idemp_l. replace (n * 2 + H - H) with (2 * n) by lia.
    apply Z.mod_small. lia.
  - rewrite Z.lxor_m1_r. unfold Z.lnot, wrap, swrap. fold H.
    set (q := (n * 2 + H) / 2 ^ W).
    assert ((n * 2 + H) mod 2 ^ W = n * 2 + H - 2 ^ W * q) as -> by
      (pose proof (Z.div_mod (n * 2 + H) (2 ^ W) ltac:(lia)); lia).
    replace (Z.pred (- (n * 2 + H - 2 ^ W * q - H))) with (- 2 * n - 1 + q * 2 ^ W) by lia.
    rewrite Z.mod_add by lia. apply Z.mod_small. lia.
Qed.

Lemma un_zigzag_eq v : fits W v →
  un_zigzag SIZE v = if Z.even v then v / 2 else - (v / 2) - 1.
Proof.
  intros [Hl Hu]. unfold un_zigzag.
  pose proof (pow2_split W ltac:(lia)) as HW.
  rewrite Z.shiftr_div_pow2 by lia. change (2 ^ 1) with 2.
  assert (sfits W (v / 2)) as Hs.
  { split; [pose proof (Z.div_pos v 2); lia|apply Z.div_lt_upper_bound; lia]. }
  rewrite swrap_small by (done || lia).
  change 1 with (Z.ones 1) at 1. rewrite Z.land_ones by lia. change (2 ^ 1) with 2.
  rewrite Zmod_even. destruct (Z.even v); simpl.
  - apply Z.lxor_0_r.
  - rewrite Z.lxor_m1_r. unfold Z.lnot. lia.
Qed.

Lemma as_zigzag_fits n : sfits W n → fits W (as_zigzag SIZE n).
Proof.
  intros Hn. rewrite as_zigzag_eq by done. destruct Hn.
  pose proof (pow2_split W ltac:(lia)). unfold fits. case_tests; lia.
Qed.

Lemma un_zigzag_sfits v : fits W v → sfits W (un_zigzag SIZE v).
Proof.
  intros Hv. rewrite un_zigzag_eq by done. destruct Hv.
  pose proof (pow2_split W ltac:(lia)). unfold sfits.
  assert (0 ≤ v / 2 < 2 ^ (W - 1)) by
    (split; [apply Z.div_pos; lia|apply Z.div_lt_upper_bound; lia]).
  case_tests; lia.
Qed.

Lemma un_zigzag_as n : sfits W n → un_zigzag SIZE (as_zigzag SIZE n) = n.
Proof.
  intros Hn. rewrite un_zigzag_eq by by apply as_zigzag_fits.
  rewrite as_zigzag_eq by done. destruct (Z.leb_spec 0 n).
  - rewrite Z.even_mul. simpl. rewrite Z.mul_comm. by rewrite Z.div_mul by lia.
  - replace (- 2 * n - 1) with (1 + 2 * (- n - 1)) by lia.
    rewrite Z.even_add_mul_2. simpl.
    replace (1 + 2 * (- n - 1)) with (1 + (- n - 1) * 2) by lia.
    rewrite Z.div_add by lia. change (1 / 2) with 0. lia.
Qed.

Lemma as_zigzag_un v : fits W v → as_zigzag SIZE (un_zigzag SIZE v) = v.
Proof.
  intros Hv. rewrite as_zigzag_eq by by apply un_zigzag_sfits.
  rewrite un_zigzag_eq by done. destruct Hv.
  pose proof (Z.div_pos v 2 ltac:(lia) ltac:(lia)).
  pose proof (Z.div_mod v 2 ltac:(lia)) as Hd. rewrite Zmod_even in Hd.
  destruct (Z.even v); case_tests; lia.
Qed.
End ZigZag.

(** ** Instances *)

#[export] Instance UInt_lawful SIZE (HS : 0 < SIZE) : Lawful (UInt SIZE).
Proof.
  refine {| admits _ x := fits (SIZE * 8) x |}.
  - intros. apply write_total.
  - intros x b E. simpl. f_equal. destruct (Z.lt_ge_cases x 0).
    + simpl in E. rewrite write_small in E by lia. injection E as <-.
      unfold size, leading_zeros, bit_length. destruct (Z.eqb_spec x 0); [lia|].
      rewrite Z.log2_nonpos by lia.
      by replace (SIZE * 8 - (SIZE * 8 - (0 + 1))) with 1 by lia.
    + symmetry. by apply write_length.
  - intros cfg x b rest [Hx Hu] E. simpl in *. unfold read.
    rewrite (read_loop_write SIZE HS x Hx new b rest); simpl; try done.
    + f_equal. f_equal. lia.
    + by apply new_inv.
    + by rewrite Z.sub_0_r.
  - intros cfg buf x rest E. simpl in *. unfold read in E.
    apply read_loop_canonical in E as (u & b & Hu & _ & -> & Hb & ->); [|done || by apply new_inv..].
    cbn [dec_result bits_read new] in *.
    rewrite Z.sub_0_r in Hu. rewrite Z.pow_0_r, Z.mul_1_l, Z.add_0_l. eauto.
  - intros cfg buf. apply read_loop_no_panic; done || by apply new_inv.
Defined.

#[export] Instance SInt_lawful SIZE (HS : 0 < SIZE) : Lawful (SInt SIZE).
Proof.
  pose proof (UInt_lawful SIZE HS) as L.
  refine {| admits _ x := sfits (SIZE * 8) x |}.
  - intros. apply write_total.
  - intros x b E. apply (codec_size (c := UInt SIZE)). done.
  - intros cfg x b rest Hx E. simpl. unfold read_signed.
    change (read SIZE (b ++ rest)) with (read_cfg (UInt SIZE) tt (b ++ rest)).
    rewrite (@codec_roundtrip _ _ _ (UInt_lawful SIZE HS) tt (as_zigzag SIZE x) b rest);
      [|by apply as_zigzag_fits|done].
    simpl. by rewrite un_zigzag_as.
  - intros cfg buf x rest. simpl. unfold read_signed.
    destruct (read SIZE buf) as [[v r]| |] eqn:E; simpl; try done. intros [= <- <-].
    apply (@codec_canonical _ _ _ (UInt_lawful SIZE HS) tt buf v r) in E as (Hv & b & Hb & ->).
    split; [by apply un_zigzag_sfits|]. exists b. split; [|done].
    unfold write_signed. by rewrite as_zigzag_un.
  - intros cfg buf. simpl. unfold read_signed. apply obind_no_panic.
    + apply (@codec_no_panic _ _ _ (UInt_lawful SIZE HS) tt buf).
    + by intros [].
Defined.

End Varint.
