(* ===== verification/CodecTypes.v ===== *)
(** * Codecs of the basic types (codec/src/types/*.rs)

    Fixed-width integers, [usize], [bool], byte arrays, the unit type,
    [Option], tuples, [Vec] and [Bytes], each with its [Lawful] instance, so that the codec of a nested type is lawful by instance
    resolution.  [f32] and [f64] are written as the big-endian bytes of their
    bit pattern, which is the codec of [u32] and [u64] on that pattern. *)

From S2P Require Import Prelude Codec Varint.
From coqutil Require Import Word.LittleEndianList.

Module CodecTypes.

(** Sequencing of writers: a panic in either panics. *)
Definition write2 (a b : option bytes) : option bytes :=
  x ← a; y ← b; Some (x ++ y).

Definition add_size (a b : option Z) : option Z := x ← a; y ← b; Some (x + y).

Lemma write2_Some a b w :
  write2 a b = Some w ↔ ∃ x y, a = Some x ∧ b = Some y ∧ w = x ++ y.
Proof. destruct a, b; simpl; naive_solver. Qed.

(** ** Fixed-width integers (codec/src/types/primitives.rs) *)

Definition put_be (n : nat) (z : Z) : bytes := rev (le_split n z).
Definition get_be (b : bytes) : Z := le_combine (rev b).

Definition numeric_write (n : nat) (z : Z) : option bytes := Some (put_be n z).
Definition numeric_read_cfg (n : nat) (_ : unit) (buf : bytes) : result (Z * bytes) :=
  let? _ := at_least buf (Z.of_nat n) in
  Ok (get_be (take n buf), drop n buf).
Definition unsigned (n : nat) : codec Z unit :=
  Codec (numeric_write n) (λ _, Some (Z.of_nat n)) (numeric_read_cfg n).

Definition signed_read_cfg (n : nat) (cfg : unit) (buf : bytes) : result (Z * bytes) :=
  let? (z, rest) := numeric_read_cfg n cfg buf in Ok (swrap (Z.of_nat n * 8) z, rest).
Definition signed (n : nat) : codec Z unit :=
  Codec (numeric_write n) (λ _, Some (Z.of_nat n)) (signed_read_cfg n).

Definition u8 := unsigned 1.
Definition u16 := unsigned 2.
Definition u32 := unsigned 4.
Definition u64 := unsigned 8.
Definition u128 := unsigned 16.

(** ** usize, bool, byte arrays and unit *)

Definition usize_write (x : Z) : option bytes :=
  if fitsb 32 x then write (Varint.UInt 4) x else None.
Definition usize_encode_size (x : Z) : option Z :=
  if fitsb 32 x then encode_size (Varint.UInt 4) x else None.
Definition usize_read_cfg (range : RangeCfg) (buf : bytes) : result (Z * bytes) :=
  let? (v, rest) := read_cfg (Varint.UInt 4) tt buf in
  let? res := (if fitsb 64 v then Ok v else Err InvalidUsize) in
  if RangeCfg.contains range res then Ok (res, rest) else Err (InvalidLength res).
Definition usize : codec Z RangeCfg := Codec usize_write usize_encode_size usize_read_cfg.

Definition bool_write (b : bool) : option bytes := write u8 (if b then 1 else 0).
Definition bool_read_cfg (_ : unit) (buf : bytes) : result (bool * bytes) :=
  let? (v, rest) := read_cfg u8 tt buf in
  if v =? 0 then Ok (false, rest)
  else if v =? 1 then Ok (true, rest)
  else Err InvalidBool.
Definition bool_codec : codec bool unit := Codec bool_write (λ _, Some 1) bool_read_cfg.

(** [[u8; N]]: the length is part of the type. *)
Definition array_write (N : nat) (a : bytes) : option bytes :=
  if Nat.eqb (length a) N then Some a else None.
Definition array_read_cfg (N : nat) (_ : unit) (buf : bytes) : result (bytes * bytes) :=
  let? _ := at_least buf (Z.of_nat N) in Ok (take N buf, drop N buf).
Definition array (N : nat) : codec bytes unit :=
  Codec (array_write N) (λ _, Some (Z.of_nat N)) (array_read_cfg N).

Definition unit_codec : codec unit unit :=
  Codec (λ _, Some []) (λ _, Some 0) (λ _ buf, Ok (tt, buf)).

(** [util::ensure_zeros]. *)
Fixpoint ensure_zeros (buf : bytes) (size : nat) : result bytes :=
  match size with
  | O => Ok buf
  | S size =>
      let? (v, rest) := read_cfg u8 tt buf in
      if negb (v =? 0) then Err (Invalid "codec" "non-zero bytes")
      else ensure_zeros rest size
  end.

(** ** Option and tuples *)

Section Combinators.
Context {A CA B CB : Type} (a : codec A CA) (b : codec B CB).

Definition option_write (o : option A) : option bytes :=
  write2 (bool_write (bool_decide (is_Some o)))
    match o with Some x => write a x | None => Some [] end.
Definition option_encode_size (o : option A) : option Z :=
  match o with Some x => add_size (Some 1) (encode_size a x) | None => Some 1 end.
Definition option_read_cfg (cfg : CA) (buf : bytes) : result (option A * bytes) :=
  let? (is_some, buf) := bool_read_cfg tt buf in
  if is_some then let? (x, buf) := read_cfg a cfg buf in Ok (Some x, buf)
  else Ok (None, buf).
Definition option_codec : codec (option A) CA :=
  Codec option_write option_encode_size option_read_cfg.

Definition tuple_write (p : A * B) : option bytes := write2 (write a p.1) (write b p.2).
Definition tuple_encode_size (p : A * B) : option Z :=
  add_size (encode_size a p.1) (encode_size b p.2).
Definition tuple_read_cfg (cfg : CA * CB) (buf : bytes) : result ((A * B) * bytes) :=
  let? (x, buf) := read_cfg a cfg.1 buf in
  let? (y, buf) := read_cfg b cfg.2 buf in
  Ok ((x, y), buf).
Definition tuple2 : codec (A * B) (CA * CB) :=
  Codec tuple_write tuple_encode_size tuple_read_cfg.
End Combinators.

(** ** Vec and Bytes *)

Section Sequences.
Context {A CA : Type} (a : codec A CA).

Fixpoint write_items (l : list A) : option bytes :=
  match l with
  | [] => Some []
  | x :: l => write2 (write a x) (write_items l)
  end.
Fixpoint size_items (l : list A) : option Z :=
  match l with
  | [] => Some 0
  | x :: l => add_size (encode_size a x) (size_items l)
  end.
Fixpoint read_items (cfg : CA) (n : nat) (buf : bytes) : result (list A * bytes) :=
  match n with
  | O => Ok ([], buf)
  | S n =>
      let? (x, buf) := read_cfg a cfg buf in
      let? (l, buf) := read_items cfg n buf in
      Ok (x :: l, buf)
  end.

Definition vec_write (l : list A) : option bytes :=
  write2 (write usize (Z.of_nat (length l))) (write_items l).
Definition vec_encode_size (l : list A) : option Z :=
  add_size (encode_size usize (Z.of_nat (length l))) (size_items l).
Definition vec_read_cfg (cfg : RangeCfg * CA) (buf : bytes) : result (list A * bytes) :=
  let? (len, buf) := read_cfg usize cfg.1 buf in
  read_items cfg.2 (Z.to_nat len) buf.
Definition vec : codec (list A) (RangeCfg * CA) :=
  Codec vec_write vec_encode_size vec_read_cfg.
End Sequences.

Definition bytes_write (v : bytes) : option bytes :=
  write2 (write usize (Z.of_nat (length v))) (Some v).
Definition bytes_encode_size (v : bytes) : option Z :=
  add_size (encode_size usize (Z.of_nat (length v))) (Some (Z.of_nat (length v))).
Definition bytes_read_cfg (range : RangeCfg) (buf : bytes) : result (bytes * bytes) :=
  let? (len, buf) := read_cfg usize range buf in
  let? _ := at_least buf len in
  Ok (take (Z.to_nat len) buf, drop (Z.to_nat len) buf).
Definition bytes_codec : codec bytes RangeCfg :=
  Codec bytes_write bytes_encode_size bytes_read_cfg.

(** ** Laws of the primitives *)

Lemma get_put_be n z : get_be (put_be n z) = z mod 2 ^ (Z.of_nat n * 8).
Proof. unfold get_be, put_be. by rewrite rev_involutive, le_combine_split. Qed.

Lemma put_get_be b : put_be (length b) (get_be b) = b.
Proof.
  unfold get_be, put_be. rewrite <- (rev_length b), split_le_combine.
  apply rev_involutive.
Qed.

Lemma length_put_be n z : length (put_be n z) = n.
Proof. unfold put_be. by rewrite length_rev, length_le_split. Qed.

Lemma get_be_fits b : fits (Z.of_nat (length b) * 8) (get_be b).
Proof.
  unfold get_be. pose proof (le_combine_bound (rev b)) as H.
  rewrite length_rev in H. unfold fits. by rewrite Z.mul_comm.
Qed.

Lemma at_least_Ok buf n u : at_least buf (Z.of_nat n) = Ok u ↔ (n ≤ length buf)%nat.
Proof. destruct u. unfold at_least. case_tests; split; try done; lia. Qed.

Lemma at_least_no_panic buf n : at_least buf n ≠ Panic.
Proof. unfold at_least. by case_tests. Qed.

Lemma at_least_app (b rest : bytes) n :
  length b = n → at_least (b ++ rest) (Z.of_nat n) = Ok tt.
Proof. intros. apply at_least_Ok. rewrite length_app. lia. Qed.

Lemma take_drop_length (buf : bytes) n :
  (n ≤ length buf)%nat → length (take n buf) = n ∧ buf = take n buf ++ drop n buf.
Proof. intros. rewrite length_take, take_drop. split; [lia|done]. Qed.

#[export] Instance unsigned_lawful n : Lawful (unsigned n).
Proof.
  refine {| admits _ x := fits (Z.of_nat n * 8) x |}; simpl.
  - by intros.
  - intros x b [= <-]. by rewrite length_put_be.
  - intros cfg x b rest Hx [= <-]. unfold numeric_read_cfg.
    rewrite at_least_app by apply length_put_be. simpl.
    rewrite take_app_length', drop_app_length' by (by rewrite length_put_be).
    by rewrite get_put_be, Z.mod_small.
  - intros cfg buf x rest. unfold numeric_read_cfg. intros ([] & Hl & [= <- <-])%obind_Ok.
    apply at_least_Ok in Hl. destruct (take_drop_length buf n Hl) as [Hn E].
    split.
    + pose proof (get_be_fits (take n buf)) as Hf. by rewrite Hn in Hf.
    + exists (take n buf). split; [|done]. unfold numeric_write.
      pose proof (put_get_be (take n buf)) as Hp. rewrite Hn in Hp. by rewrite Hp.
  - intros cfg buf. apply obind_no_panic; [apply at_least_no_panic|done].
Defined.

#[export] Instance unsigned_fixed n : FixedSize (unsigned n) (Z.of_nat n).
Proof. by intros x. Qed.

Lemma swrap_congr w x y : 0 < w → x mod 2 ^ w = y mod 2 ^ w → swrap w x = swrap w y.
Proof.
  intros Hw E. unfold swrap. by rewrite <- Zplus_mod_idemp_l, E, Zplus_mod_idemp_l.
Qed.

Lemma swrap_mod w x : 0 < w → swrap w x mod 2 ^ w = x mod 2 ^ w.
Proof.
  intros. unfold swrap. rewrite Zminus_mod_idemp_l. f_equal. lia.
Qed.

Lemma swrap_sfits w x : 0 < w → sfits w (swrap w x).
Proof.
  intros Hw. unfold swrap, sfits. pose proof (pow2_split w Hw).
  pose proof (Z.mod_pos_bound (x + 2 ^ (w - 1)) (2 ^ w) ltac:(lia)). lia.
Qed.

#[export] Instance signed_lawful n (Hn : (0 < n)%nat) : Lawful (signed n).
Proof.
  set (w := Z.of_nat n * 8). assert (0 < w) by (unfold w; lia).
  refine {| admits _ x := sfits w x |}; simpl.
  - by intros.
  - intros x b [= <-]. by rewrite length_put_be.
  - intros cfg x b rest Hx [= <-]. unfold signed_read_cfg, numeric_read_cfg.
    rewrite at_least_app by apply length_put_be. simpl.
    rewrite take_app_length', drop_app_length' by (by rewrite length_put_be).
    rewrite get_put_be. fold w. do 2 f_equal. rewrite <- (swrap_small w x) at 2 by done.
    apply swrap_congr; [done|]. apply Z.mod_mod. lia.
  - intros cfg buf x rest. unfold signed_read_cfg.
    intros ([z r] & Hz & [= <- <-])%obind_Ok.
    apply (codec_canonical (c := unsigned n)) in Hz as (Hf & b & [= <-] & ->).
    split; [by apply swrap_sfits|]. exists (put_be n z). split; [|done].
    unfold numeric_write. f_equal. unfold put_be. f_equal.
    rewrite le_split_mod, (le_split_mod z). fold w. by rewrite swrap_mod.
  - intros cfg buf. apply obind_no_panic.
    + apply (codec_no_panic (c := unsigned n) cfg buf).
    + by intros [].
Defined.

#[export] Instance signed_fixed n : FixedSize (signed n) (Z.of_nat n).
Proof. by intros x. Qed.

#[export] Instance usize_lawful : Lawful usize.
Proof.
  assert (L : Lawful (Varint.UInt 4)) by (apply Varint.UInt_lawful; lia).
  refine {| admits r x := fits 32 x ∧ RangeCfg.contains r x = true |}; simpl.
  - intros r x [Hx _]. unfold usize_write. apply fitsb_spec in Hx as ->.
    apply Varint.write_total.
  - intros x b. unfold usize_write, usize_encode_size. destruct (fitsb 32 x); [|done].
    apply (@codec_size _ _ _ (Varint.UInt_lawful 4 eq_refl)).
  - intros r x b rest [Hx Hr]. unfold usize_write, usize_read_cfg.
    pose proof Hx as ->%fitsb_spec. intros E.
    rewrite (@codec_roundtrip _ _ _ (Varint.UInt_lawful 4 eq_refl) tt x b rest Hx E). simpl.
    assert (fitsb 64 x = true) as -> by (apply fitsb_spec; unfold fits in *; lia).
    simpl. by rewrite Hr.
  - intros r buf x rest. unfold usize_read_cfg. intros ([v r'] & E & H)%obind_Ok.
    apply obind_Ok in H as (v' & Hv & H). destruct (fitsb 64 v); [|done]. injection Hv as <-.
    apply (@codec_canonical _ _ _ (Varint.UInt_lawful 4 eq_refl)) in E as (Hf & b & Hb & ->).
    destruct (RangeCfg.contains r v) eqn:Hc; [|done]. injection H as <- <-.
    split; [done|]. exists b. split; [|done]. unfold usize_write.
    by rewrite (proj2 (fitsb_spec 32 v) Hf).
  - intros r buf. unfold usize_read_cfg. apply obind_no_panic.
    + apply (@codec_no_panic _ _ _ (Varint.UInt_lawful 4 eq_refl) tt buf).
    + intros [v rest] _. by case_tests; simpl; case_tests.
Defined.

#[export] Instance bool_lawful : Lawful bool_codec.
Proof.
  refine {| admits _ x := True |}; simpl.
  - by intros.
  - intros x b E. apply (codec_size (c := u8)) in E. done.
  - intros cfg x b rest _ E. unfold bool_read_cfg.
    assert (admits u8 tt (if x then 1 else 0)) as Ha by (destruct x; split; simpl; lia).
    rewrite (codec_roundtrip tt _ b rest Ha E). by destruct x.
  - intros cfg buf x rest. unfold bool_read_cfg. intros ([v r'] & E & H)%obind_Ok.
    apply codec_canonical in E as (_ & b & Hb & ->). split; [done|]. exists b.
    destruct (Z.eqb_spec v 0) as [->|]; [by injection H as <- <-|].
    destruct (Z.eqb_spec v 1) as [->|]; [by injection H as <- <-|done].
  - intros cfg buf. unfold bool_read_cfg. apply obind_no_panic.
    + apply (codec_no_panic (c := u8) tt buf).
    + intros [v rest] _. by case_tests.
Defined.

#[export] Instance array_lawful N : Lawful (array N).
Proof.
  refine {| admits _ x := length x = N |}; simpl.
  - intros cfg x <-. unfold array_write. by rewrite Nat.eqb_refl.
  - intros x b. unfold array_write. destruct (Nat.eqb_spec (length x) N); [|done].
    intros [= <-]. by subst.
  - intros cfg x b rest <-. unfold array_write. rewrite Nat.eqb_refl. intros [= <-].
    unfold array_read_cfg. rewrite at_least_app by done. simpl. by rewrite take_app_length, drop_app_length.
  - intros cfg buf x rest. unfold array_read_cfg. intros ([] & Hl & [= <- <-])%obind_Ok.
    apply at_least_Ok in Hl. destruct (take_drop_length buf N Hl) as [Hn E].
    split; [done|]. exists (take N buf). unfold array_write. by rewrite Hn, Nat.eqb_refl.
  - intros cfg buf. apply obind_no_panic; [apply at_least_no_panic|done].
Defined.

#[export] Instance unit_lawful : Lawful unit_codec.
Proof.
  refine {| admits _ x := True |}; simpl; try done.
  - by intros x b [= <-].
  - by intros cfg [] b rest _ [= <-].
  - intros cfg buf [] rest [= <-]. split; [done|]. by exists [].
Defined.

(** ** Laws of the combinators *)

Section CombinatorLaws.
Context {A CA B CB : Type} (a : codec A CA) (b : codec B CB) `{!Lawful a, !Lawful b}.

#[export] Instance option_lawful : Lawful (option_codec a).
Proof.
  refine {| admits cfg o := match o with Some x => admits a cfg x | None => True end |}; simpl.
  - intros cfg [x|] Hx; unfold option_write; simpl; [|done].
    destruct (codec_write_total cfg x Hx) as [w ->]. done.
  - intros [x|] w (w1 & w2 & E1 & E2 & ->)%write2_Some; simpl in *;
      apply (codec_size (c := bool_codec)) in E1; injection E1 as E1.
    + rewrite (codec_size _ _ E2). simpl. f_equal. rewrite length_app. lia.
    + injection E2 as <-. rewrite app_nil_r. by rewrite E1.
  - intros cfg o w rest Ho (w1 & w2 & E1 & E2 & ->)%write2_Some. unfold option_read_cfg.
    rewrite <- app_assoc.
    pose proof (codec_roundtrip (c := bool_codec) tt _ w1 (w2 ++ rest) I E1) as Hb.
    simpl in Hb. rewrite Hb. simpl. destruct o as [x|]; simpl in *.
    + by rewrite (codec_roundtrip cfg x w2 rest).
    + by injection E2 as <-.
  - intros cfg buf o rest. unfold option_read_cfg. intros ([flag r1] & E & H)%obind_Ok.
    apply (codec_canonical (c := bool_codec)) in E as (_ & w1 & Hw1 & ->).
    destruct flag; [apply obind_Ok in H as ([x r2] & E & H)|]; injection H as <- <-.
    + apply codec_canonical in E as (Hx & w2 & Hw2 & ->). split; [done|].
      exists (w1 ++ w2). rewrite app_assoc. split; [|done]. apply write2_Some. simpl. eauto 6.
    + split; [done|]. exists w1. split; [|done]. apply write2_Some. simpl.
      exists w1, []. by rewrite app_nil_r.
  - intros cfg buf. unfold option_read_cfg. apply obind_no_panic;
      [apply (codec_no_panic (c := bool_codec) tt buf)|].
    intros [[] r] _; [|done]. apply obind_no_panic; [apply codec_no_panic|by intros []].
Defined.

#[export] Instance tuple2_lawful : Lawful (tuple2 a b).
Proof.
  refine {| admits cfg p := admits a cfg.1 p.1 ∧ admits b cfg.2 p.2 |}; simpl.
  - intros cfg p [H1 H2]. unfold tuple_write.
    destruct (codec_write_total _ _ H1) as [w1 ->], (codec_write_total _ _ H2) as [w2 ->]. done.
  - intros p w (w1 & w2 & E1 & E2 & ->)%write2_Some. unfold tuple_encode_size.
    rewrite (codec_size _ _ E1), (codec_size _ _ E2), length_app. simpl. f_equal. lia.
  - intros cfg [x y] w rest [H1 H2] (w1 & w2 & E1 & E2 & ->)%write2_Some.
    unfold tuple_read_cfg. rewrite <- app_assoc.
    rewrite (codec_roundtrip cfg.1 x w1) by done. simpl.
    by rewrite (codec_roundtrip cfg.2 y w2) by done.
  - intros cfg buf [x y] rest. unfold tuple_read_cfg.
    intros ([x' r1] & E1 & ([y' r2] & E2 & [= -> -> ->])%obind_Ok)%obind_Ok.
    apply codec_canonical in E1 as (H1 & w1 & Hw1 & ->).
    apply codec_canonical in E2 as (H2 & w2 & Hw2 & ->).
    split; [done|]. exists (w1 ++ w2). rewrite app_assoc. split; [|done].
    apply write2_Some. eauto 6.
  - intros cfg buf. unfold tuple_read_cfg. apply obind_no_panic; [apply codec_no_panic|].
    intros [x r1] _. apply obind_no_panic; [apply codec_no_panic|by intros []].
Defined.
End CombinatorLaws.

(** ** Laws of sequences *)

Section SequenceLaws.
Context {A CA : Type} (a : codec A CA) `{!Lawful a}.

Lemma write_items_total cfg l : Forall (admits a cfg) l → is_Some (write_items a l).
Proof.
  induction 1 as [|x l Hx _ [w Hw]]; simpl; [done|].
  destruct (codec_write_total cfg x Hx) as [w1 ->]. rewrite Hw. done.
Qed.

Lemma size_items_spec l w :
  write_items a l = Some w → size_items a l = Some (Z.of_nat (length w)).
Proof.
  revert w. induction l as [|x l IH]; simpl; intros w; [by intros [= <-]|].
  intros (w1 & w2 & E1 & E2 & ->)%write2_Some.
  rewrite (codec_size _ _ E1), (IH _ E2), length_app. simpl. f_equal. lia.
Qed.

Lemma read_items_write cfg l w rest :
  Forall (admits a cfg) l → write_items a l = Some w →
  read_items a cfg (length l) (w ++ rest) = Ok (l, rest).
Proof.
  intros H. revert w. induction H as [|x l Hx _ IH]; simpl; intros w; [by intros [= <-]|].
  intros (w1 & w2 & E1 & E2 & ->)%write2_Some. rewrite <- app_assoc.
  rewrite (codec_roundtrip cfg x w1) by done. simpl. by rewrite IH.
Qed.

Lemma read_items_canonical cfg n buf l rest :
  read_items a cfg n buf = Ok (l, rest) →
  length l = n ∧ Forall (admits a cfg) l ∧
  ∃ w, write_items a l = Some w ∧ buf = w ++ rest.
Proof.
  revert buf l. induction n as [|n IH]; simpl; intros buf l.
  { intros [= <- <-]. split_and!; [done..|]. by exists []. }
  intros ([x r1] & E1 & ([l' r2] & E2 & [= <- <-])%obind_Ok)%obind_Ok.
  apply codec_canonical in E1 as (H1 & w1 & Hw1 & ->).
  apply IH in E2 as (<- & HF & w2 & Hw2 & ->).
  split_and!; [done|by constructor|]. exists (w1 ++ w2). rewrite app_assoc.
  split; [|done]. apply write2_Some. eauto 6.
Qed.

Lemma read_items_no_panic cfg n buf : read_items a cfg n buf ≠ Panic.
Proof.
  revert buf. induction n as [|n IH]; simpl; intros buf; [done|].
  apply obind_no_panic; [apply codec_no_panic|]. intros [x r] _.
  apply obind_no_panic; [apply IH|by intros []].
Qed.

#[export] Instance vec_lawful : Lawful (vec a).
Proof.
  refine {| admits cfg l :=
    admits usize cfg.1 (Z.of_nat (length l)) ∧ Forall (admits a cfg.2) l |}.
  - intros cfg l [H1 H2]. simpl. unfold vec_write.
    destruct (codec_write_total _ _ H1) as [w1 ->], (write_items_total _ _ H2) as [w2 ->]. done.
  - intros l w (w1 & w2 & E1 & E2 & ->)%write2_Some. simpl. unfold vec_encode_size.
    rewrite (codec_size _ _ E1), (size_items_spec _ _ E2), length_app. simpl. f_equal. lia.
  - intros cfg l w rest [H1 H2] (w1 & w2 & E1 & E2 & ->)%write2_Some.
    simpl. unfold vec_read_cfg. rewrite <- app_assoc.
    rewrite (codec_roundtrip cfg.1 _ w1 _ H1 E1). simpl. rewrite Nat2Z.id.
    by apply read_items_write.
  - intros cfg buf l rest. simpl. unfold vec_read_cfg. intros ([len r1] & E1 & E2)%obind_Ok.
    apply codec_canonical in E1 as (H1 & w1 & Hw1 & ->).
    apply read_items_canonical in E2 as (Hl & HF & w2 & Hw2 & ->).
    assert (len = Z.of_nat (length l)) as -> by (destruct H1 as [[]]; lia).
    split; [done|]. exists (w1 ++ w2). rewrite app_assoc. split; [|done].
    apply write2_Some. eauto 6.
  - intros cfg buf. simpl. unfold vec_read_cfg. apply obind_no_panic; [apply codec_no_panic|].
    intros [len r] _. apply read_items_no_panic.
Defined.
End SequenceLaws.

#[export] Instance bytes_lawful : Lawful bytes_codec.
Proof.
  refine {| admits cfg v := admits usize cfg (Z.of_nat (length v)) |}.
  - intros cfg v H1. simpl. unfold bytes_write.
    destruct (codec_write_total _ _ H1) as [w1 ->]. done.
  - intros v w (w1 & w2 & E1 & [= <-] & ->)%write2_Some. simpl. unfold bytes_encode_size.
    rewrite (codec_size _ _ E1), length_app. simpl. f_equal. lia.
  - intros cfg v w rest H1 (w1 & w2 & E1 & [= <-] & ->)%write2_Some.
    simpl. unfold bytes_read_cfg. rewrite <- app_assoc.
    rewrite (codec_roundtrip cfg _ w1 _ H1 E1). simpl. rewrite at_least_app, Nat2Z.id by done.
    simpl. by rewrite take_app_length, drop_app_length.
  - intros cfg buf v rest. simpl. unfold bytes_read_cfg.
    intros ([len r1] & E1 & ([] & Hl & [= <- <-])%obind_Ok)%obind_Ok.
    apply codec_canonical in E1 as (H1 & w1 & Hw1 & ->).
    assert (len = Z.of_nat (Z.to_nat len)) as Hlen by (destruct H1 as [[]]; lia).
    rewrite Hlen in Hl. apply at_least_Ok in Hl.
    destruct (take_drop_length r1 _ Hl) as [Hn E]. rewrite Hn, <- Hlen. split; [done|].
    exists (w1 ++ take (Z.to_nat len) r1). rewrite <- app_assoc, <- E. split; [|done].
    apply write2_Some. rewrite Hn, <- Hlen. eauto 6.
  - intros cfg buf. simpl. unfold bytes_read_cfg. apply obind_no_panic; [apply codec_no_panic|].
    intros [len r] _. apply obind_no_panic; [apply at_least_no_panic|done].
Defined.

End CodecTypes.
