(* ===== verification/CodecOrdered.v ===== *)
(** * Codecs of ordered collections (codec/src/types/btree_set.rs, btree_map.rs)

    A [BTreeSet<K>] is the list of its items in ascending order and a
    [BTreeMap<K, V>] the list of its entries in ascending order of keys, which
    is what iterating over them yields; [set_insert] and [map_insert] are the
    insertions of the standard library on that representation.  The readers
    insert the previous item only after the next one passed the order check, as
    the code does. *)

From S2P Require Import Prelude Codec Varint CodecTypes.
Import CodecTypes.

(** ** [Ord] *)

Class Ord (K : Type) : Type := {
  cmp : K → K → comparison;
  cmp_eq x y : cmp x y = Eq ↔ x = y;
  cmp_opp x y : cmp y x = CompOpp (cmp x y);
  cmp_trans x y z : cmp x y = Lt → cmp y z = Lt → cmp x z = Lt;
}.

#[export] Instance Z_ord : Ord Z.
Proof.
  refine {| cmp := Z.compare |}.
  - apply Z.compare_eq_iff.
  - intros. apply Z.compare_antisym.
  - intros x y z. rewrite !Z.compare_lt_iff. lia.
Defined.

Module CodecOrdered.

Section Ordered.
Context {K : Type} `{!Ord K}.

Definition klt (x y : K) : Prop := cmp x y = Lt.

Lemma cmp_gt x y : cmp x y = Gt ↔ klt y x.
Proof. unfold klt. rewrite (cmp_opp x y). by destruct (cmp x y). Qed.

#[export] Instance klt_trans : Transitive klt.
Proof. intros x y z. apply cmp_trans. Qed.

Fixpoint set_insert (x : K) (s : list K) : list K :=
  match s with
  | [] => [x]
  | y :: s' =>
      match cmp x y with
      | Lt => x :: s
      | Eq => s
      | Gt => y :: set_insert x s'
      end
  end.

Fixpoint map_insert {V : Type} (k : K) (v : V) (m : list (K * V)) : list (K * V) :=
  match m with
  | [] => [(k, v)]
  | (k', v') :: m' =>
      match cmp k k' with
      | Lt => (k, v) :: m
      | Eq => (k, v) :: m'
      | Gt => (k', v') :: map_insert k v m'
      end
  end.

Definition ascending (l : list K) : Prop := StronglySorted klt l.

Lemma set_insert_last s x : ascending (s ++ [x]) → set_insert x s = s ++ [x].
Proof.
  intros [Hlt _]%StronglySorted_app. induction s as [|y s IH]; simpl; [done|].
  assert (klt y x) as Hy by (apply Hlt; set_solver).
  apply cmp_gt in Hy as ->. rewrite IH; [done|]. set_solver.
Qed.

Lemma map_insert_last {V} m k (v : V) :
  ascending (m.*1 ++ [k]) → map_insert k v m = m ++ [(k, v)].
Proof.
  intros [Hlt _]%StronglySorted_app. induction m as [|[k' v'] m IH]; simpl; [done|].
  assert (klt k' k) as Hk by (apply Hlt; set_solver).
  apply cmp_gt in Hk as ->. rewrite IH; [done|]. set_solver.
Qed.

(** The order check of one key against the previous one. *)
Definition check_order (ty dup less : string) (last : option K) (k : K) : result unit :=
  match last with
  | None => Ok tt
  | Some l =>
      match cmp k l with
      | Eq => Err (Invalid ty dup)
      | Lt => Err (Invalid ty less)
      | Gt => Ok tt
      end
  end.

Lemma check_order_Ok ty dup less last k u :
  check_order ty dup less last k = Ok u ↔ ∀ l, last = Some l → klt l k.
Proof.
  destruct u, last as [l|]; simpl; [|naive_solver].
  destruct (cmp k l) eqn:E; split; intros H; try done.
  - specialize (H l eq_refl). apply cmp_gt in H. congruence.
  - specialize (H l eq_refl). apply cmp_gt in H. congruence.
  - intros ? [= <-]. by apply cmp_gt.
Qed.

Lemma check_order_no_panic ty dup less last k : check_order ty dup less last k ≠ Panic.
Proof. destruct last as [l|]; simpl; [by destruct (cmp k l)|done]. Qed.

Lemma ascending_snoc (l : list K) x y : ascending (l ++ [x]) → klt x y → ascending (l ++ [x; y]).
Proof.
  intros H Hxy. change [x; y] with ([x] ++ [y]). rewrite app_assoc.
  apply StronglySorted_app_2; [|done|repeat constructor].
  intros z ? Hz ->%list_elem_of_singleton.
  apply elem_of_app in Hz as [Hz| ->%list_elem_of_singleton]; [|done].
  transitivity x; [|done]. eapply StronglySorted_app_1_elem_of; [exact H|done|set_solver].
Qed.
End Ordered.

(** ** BTreeSet *)

Section Set_.
Context {K CK : Type} (k : codec K CK) `{!Ord K}.

Definition BTREESET_TYPE : string := "BTreeSet".

Definition insert_last (last : option K) (s : list K) : list K :=
  match last with Some x => set_insert x s | None => s end.

Fixpoint read_ordered_set (ty : string) (cfg : CK) (len : nat) (last : option K)
    (s : list K) (buf : bytes) : result (list K * bytes) :=
  match len with
  | O => Ok (insert_last last s, buf)
  | S len =>
      let? (item, buf) := read_cfg k cfg buf in
      let? _ := check_order ty "Duplicate item" "Items must ascend" last item in
      read_ordered_set ty cfg len (Some item) (insert_last last s) buf
  end.

Definition set_write (s : list K) : option bytes :=
  write2 (write usize (Z.of_nat (length s))) (write_items k s).
Definition set_encode_size (s : list K) : option Z :=
  add_size (encode_size usize (Z.of_nat (length s))) (size_items k s).
Definition set_read_cfg (cfg : RangeCfg * CK) (buf : bytes) : result (list K * bytes) :=
  let? (len, buf) := read_cfg usize cfg.1 buf in
  read_ordered_set BTREESET_TYPE cfg.2 (Z.to_nat len) None [] buf.
Definition btree_set : codec (list K) (RangeCfg * CK) :=
  Codec set_write set_encode_size set_read_cfg.

Context `{!Lawful k}.

Definition opt_list (o : option K) : list K := match o with Some x => [x] | None => [] end.

Lemma insert_last_app last s : ascending (s ++ opt_list last) → insert_last last s = s ++ opt_list last.
Proof. destruct last; simpl; [apply set_insert_last|by rewrite app_nil_r]. Qed.

Lemma check_order_ascending ty last s item u :
  ascending (s ++ opt_list last) →
  check_order ty "Duplicate item" "Items must ascend" last item = Ok u →
  ascending ((s ++ opt_list last) ++ [item]) ∨ last = None.
Proof.
  intros Hs. rewrite check_order_Ok. destruct last as [l|]; [|by right]. intros H. left.
  simpl in *. rewrite <- app_assoc. apply ascending_snoc; auto.
Qed.

(** The loop starts with an empty set, so [last = None] only with [s = []]. *)
Lemma read_ordered_set_canonical ty cfg n buf last s out rest :
  ascending (s ++ opt_list last) → (last = None → s = []) →
  read_ordered_set ty cfg n last s buf = Ok (out, rest) →
  ∃ l, read_items k cfg n buf = Ok (l, rest) ∧
    out = (s ++ opt_list last) ++ l ∧ ascending out.
Proof.
  revert buf last s. induction n as [|n IH]; simpl; intros buf last s Hs Hn.
  { intros [= <- <-]. exists []. rewrite app_nil_r, insert_last_app by done. done. }
  intros ([x r] & E & ([] & Hc & H)%obind_Ok)%obind_Ok. rewrite E. simpl.
  rewrite insert_last_app in H by done.
  assert (ascending ((s ++ opt_list last) ++ [x])) as Hs'.
  { destruct (check_order_ascending _ _ s _ _ Hs Hc) as [|Hl]; [done|].
    rewrite Hl, (Hn Hl). repeat constructor. }
  apply IH in H as (l & Hl & -> & Ha); [|done..]. simpl in *.
  exists (x :: l). rewrite Hl. simpl. rewrite <- app_assoc in *. done.
Qed.

Lemma read_ordered_set_complete ty cfg l : ∀ buf last s rest,
  read_items k cfg (length l) buf = Ok (l, rest) →
  ascending ((s ++ opt_list last) ++ l) →
  read_ordered_set ty cfg (length l) last s buf = Ok ((s ++ opt_list last) ++ l, rest).
Proof.
  induction l as [|x l IH]; simpl; intros buf last s rest.
  { intros [= <-] Ha. rewrite app_nil_r in *. by rewrite insert_last_app. }
  intros ([y r] & E & ([l' r'] & E' & [= -> -> ->])%obind_Ok)%obind_Ok Ha.
  rewrite E. simpl.
  assert (ascending (s ++ opt_list last)) as Hs by by apply StronglySorted_app_1_l in Ha.
  replace (check_order _ _ _ last x) with (Ok (E := Error) tt).
  - simpl. rewrite insert_last_app by done. rewrite (IH r (Some x) _ rest E');
      simpl; by rewrite <- app_assoc.
  - symmetry. apply check_order_Ok. intros z ->. simpl in Ha.
    eapply StronglySorted_app_1_elem_of; [exact Ha|set_solver..].
Qed.

#[export] Instance btree_set_lawful : Lawful btree_set.
Proof.
  refine {| admits cfg l := ascending l ∧ admits (vec k) cfg l |}.
  - intros cfg l [_ H]. apply (codec_write_total (c := vec k) cfg l H).
  - intros l w. apply (codec_size (c := vec k)).
  - intros cfg l w rest [Ha [H1 H2]] (w1 & w2 & E1 & E2 & ->)%write2_Some.
    simpl. unfold set_read_cfg. rewrite <- app_assoc.
    rewrite (codec_roundtrip cfg.1 _ w1 _ H1 E1). simpl. rewrite Nat2Z.id.
    apply (read_ordered_set_complete _ _ _ _ None []); [|done].
    by apply (read_items_write k).
  - intros cfg buf l rest. simpl. unfold set_read_cfg. intros ([len r1] & E1 & E2)%obind_Ok.
    apply read_ordered_set_canonical in E2 as (l' & E2 & -> & Ha); [|constructor|done].
    simpl in *.
    assert (read_cfg (vec k) cfg buf = Ok (l', rest)) as Hv.
    { simpl. unfold vec_read_cfg. simpl. rewrite E1. done. }
    apply codec_canonical in Hv as [? ?]. done.
  - intros cfg buf. simpl. unfold set_read_cfg. apply obind_no_panic; [apply codec_no_panic|].
    intros [len r] _. generalize (@None K) (@nil K). revert r.
    induction (Z.to_nat len) as [|n IH]; intros r last s; simpl; [done|].
    apply obind_no_panic; [apply codec_no_panic|]. intros [x r'] _.
    apply obind_no_panic; [apply check_order_no_panic|]. intros _ _. apply IH.
Defined.
End Set_.

(** ** BTreeMap *)

Section Map_.
Context {K CK V CV : Type} (k : codec K CK) (v : codec V CV) `{!Ord K}.

Definition BTREEMAP_TYPE : string := "BTreeMap".

Definition insert_last_entry (last : option (K * V)) (m : list (K * V)) : list (K * V) :=
  match last with Some (x, y) => map_insert x y m | None => m end.

Fixpoint read_ordered_map (ty : string) (cfg : CK * CV) (len : nat)
    (last : option (K * V)) (m : list (K * V)) (buf : bytes) :
    result (list (K * V) * bytes) :=
  match len with
  | O => Ok (insert_last_entry last m, buf)
  | S len =>
      let? (key, buf) := read_cfg k cfg.1 buf in
      let? _ := check_order ty "Duplicate key" "Keys must ascend" (fst <$> last) key in
      let? (value, buf) := read_cfg v cfg.2 buf in
      read_ordered_map ty cfg len (Some (key, value)) (insert_last_entry last m) buf
  end.

Definition map_write (m : list (K * V)) : option bytes :=
  write2 (write usize (Z.of_nat (length m))) (write_items (tuple2 k v) m).
Definition map_encode_size (m : list (K * V)) : option Z :=
  add_size (encode_size usize (Z.of_nat (length m))) (size_items (tuple2 k v) m).
Definition map_read_cfg (cfg : RangeCfg * (CK * CV)) (buf : bytes) :
    result (list (K * V) * bytes) :=
  let? (len, buf) := read_cfg usize cfg.1 buf in
  read_ordered_map BTREEMAP_TYPE cfg.2 (Z.to_nat len) None [] buf.
Definition btree_map : codec (list (K * V)) (RangeCfg * (CK * CV)) :=
  Codec map_write map_encode_size map_read_cfg.

Context `{!Lawful k, !Lawful v}.

Definition opt_entry (o : option (K * V)) : list (K * V) :=
  match o with Some e => [e] | None => [] end.

Lemma insert_last_entry_app last m :
  ascending (m ++ opt_entry last).*1 → insert_last_entry last m = m ++ opt_entry last.
Proof.
  destruct last as [[x y]|]; simpl; [|by rewrite app_nil_r].
  rewrite fmap_app. apply map_insert_last.
Qed.

Lemma read_ordered_map_canonical ty cfg n buf last m out rest :
  ascending (m ++ opt_entry last).*1 → (last = None → m = []) →
  read_ordered_map ty cfg n last m buf = Ok (out, rest) →
  ∃ l, read_items (tuple2 k v) cfg n buf = Ok (l, rest) ∧
    out = (m ++ opt_entry last) ++ l ∧ ascending out.*1.
Proof.
  revert buf last m. induction n as [|n IH]; simpl; intros buf last m Hs Hn.
  { intros [= <- <-]. exists []. rewrite app_nil_r, insert_last_entry_app by done. done. }
  intros ([x r] & E & ([] & Hc & ([y r'] & E' & H)%obind_Ok)%obind_Ok)%obind_Ok.
  rewrite insert_last_entry_app in H by done.
  assert (ascending ((m ++ opt_entry last) ++ [(x, y)]).*1) as Hs'.
  { rewrite check_order_Ok in Hc. destruct last as [[x0 y0]|]; simpl in *.
    - rewrite !fmap_app in *. simpl in *. rewrite <- app_assoc.
      apply ascending_snoc; auto.
    - rewrite (Hn eq_refl). repeat constructor. }
  apply IH in H as (l & Hl & -> & Ha); [|done..]. simpl in *.
  exists ((x, y) :: l). unfold tuple_read_cfg. rewrite E. simpl. rewrite E'. simpl.
  rewrite Hl. simpl. rewrite <- app_assoc in *. done.
Qed.

Lemma read_ordered_map_complete ty cfg l : ∀ buf last m rest,
  read_items (tuple2 k v) cfg (length l) buf = Ok (l, rest) →
  ascending ((m ++ opt_entry last) ++ l).*1 →
  read_ordered_map ty cfg (length l) last m buf = Ok ((m ++ opt_entry last) ++ l, rest).
Proof.
  induction l as [|[x y] l IH]; simpl; intros buf last m rest.
  { intros [= <-] Ha. rewrite app_nil_r in *. by rewrite insert_last_entry_app. }
  intros ([e r] & E & ([l' r'] & E' & [= -> -> ->])%obind_Ok)%obind_Ok Ha.
  unfold tuple_read_cfg in E.
  apply obind_Ok in E as ([x' r1] & E1 & ([y' r2] & E2 & [= -> -> ->])%obind_Ok).
  rewrite E1. simpl.
  assert (ascending (m ++ opt_entry last).*1) as Hs.
  { rewrite fmap_app in Ha. by apply StronglySorted_app_1_l in Ha. }
  replace (check_order _ _ _ (fst <$> last) x) with (Ok (E := Error) tt).
  - simpl. rewrite E2. simpl. rewrite insert_last_entry_app by done.
    rewrite (IH r (Some (x, y)) _ rest E'); simpl; by rewrite <- app_assoc.
  - symmetry. apply check_order_Ok. intros z Hz. destruct last as [[z' w]|]; [|done].
    simpl in *. injection Hz as ->. rewrite !fmap_app in Ha. simpl in Ha.
    eapply StronglySorted_app_1_elem_of; [exact Ha|set_solver..].
Qed.

Lemma read_ordered_map_no_panic ty cfg n last m buf :
  read_ordered_map ty cfg n last m buf ≠ Panic.
Proof.
  revert last m buf. induction n as [|n IH]; intros last m r; simpl; [done|].
  apply obind_no_panic; [apply codec_no_panic|]. intros [x r'] _.
  apply obind_no_panic; [apply check_order_no_panic|]. intros _ _.
  apply obind_no_panic; [apply codec_no_panic|]. intros [y r''] _. apply IH.
Qed.

#[export] Instance btree_map_lawful : Lawful btree_map.
Proof.
  refine {| admits cfg m := ascending m.*1 ∧ admits (vec (tuple2 k v)) cfg m |}.
  - intros cfg l [_ H]. apply (codec_write_total (c := vec (tuple2 k v)) cfg l H).
  - intros l w. apply (codec_size (c := vec (tuple2 k v)) l w).
  - intros cfg l w rest [Ha [H1 H2]] (w1 & w2 & E1 & E2 & ->)%write2_Some.
    simpl. unfold map_read_cfg. rewrite <- app_assoc.
    rewrite (codec_roundtrip cfg.1 _ w1 _ H1 E1). simpl. rewrite Nat2Z.id.
    apply (read_ordered_map_complete _ _ _ _ None []); [|done].
    by apply (read_items_write (tuple2 k v)).
  - intros cfg buf l rest. simpl. unfold map_read_cfg. intros ([len r1] & E1 & E2)%obind_Ok.
    apply read_ordered_map_canonical in E2 as (l' & E2 & -> & Ha); [|constructor|done].
    simpl in *.
    assert (read_cfg (vec (tuple2 k v)) cfg buf = Ok (l', rest)) as Hv.
    { simpl. unfold vec_read_cfg. simpl. rewrite E1. done. }
    apply codec_canonical in Hv as [? ?]. done.
  - intros cfg buf. simpl. unfold map_read_cfg. apply obind_no_panic; [apply codec_no_panic|].
    intros [len r] _. apply read_ordered_map_no_panic.
Defined.
End Map_.

End CodecOrdered.
