(* ===== verification/ConsensusTypes.v ===== *)
(** * Consensus types (consensus/src/types.rs, consensus/src/simplex/mod.rs,
      and the quorum functions of utils/src/lib.rs)

    An [Epoch], a [View] and a [Delta] wrap a [u64]; here each is the [Z] it
    wraps, which the codec instances and the operations keep in [[0, 2^64)].
    [next] panics on overflow ([None]); the other operations saturate or return
    an option, as the code documents. *)

From S2P Require Import Prelude Codec Varint CodecTypes.
Import CodecTypes.

(** ** Views, epochs and deltas *)

Module View.
Definition zero : Z := 0.
Definition next (v : Z) : option Z := checked_add 64 v 1.
Definition previous (v : Z) : option Z := checked_sub v 1.
Definition saturating_add (v delta : Z) : Z := Prelude.saturating_add 64 v delta.
Definition saturating_sub (v delta : Z) : Z := Prelude.saturating_sub v delta.
(** [View::range(start, end)] collected in iteration order. *)
Definition range (first last : Z) : list Z := seqZ first (last - first).
Definition codec : codec Z unit := Varint.UInt 8.

Lemma next_Some v w : next v = Some w ↔ w = v + 1 ∧ v + 1 < 2 ^ 64.
Proof. unfold next, checked_add. case_tests; naive_solver lia. Qed.

Lemma previous_Some v w : previous v = Some w ↔ w = v - 1 ∧ 1 ≤ v.
Proof. unfold previous, checked_sub. case_tests; naive_solver lia. Qed.

Lemma elem_of_range first last v : v ∈ range first last ↔ first ≤ v < last.
Proof. unfold range. rewrite elem_of_seqZ. lia. Qed.
End View.

Module Epoch.
Definition zero : Z := 0.
Definition next (e : Z) : option Z := checked_add 64 e 1.
Definition previous (e : Z) : option Z := checked_sub e 1.
Definition saturating_add (e delta : Z) : Z := Prelude.saturating_add 64 e delta.
Definition checked_sub (e delta : Z) : option Z := Prelude.checked_sub e delta.
Definition saturating_sub (e delta : Z) : Z := Prelude.saturating_sub e delta.
Definition codec : codec Z unit := Varint.UInt 8.
End Epoch.

(** ** Rounds *)

Record Rnd : Type := mkRnd { rnd_epoch : Z; rnd_view : Z }.

#[export] Instance Rnd_eq_dec : EqDecision Rnd.
Proof. solve_decision. Defined.

Module Rnd.
Definition zero : Rnd := mkRnd Epoch.zero View.zero.

(** The derived [Ord]: epochs first, then views. *)
Definition cmp (a b : Rnd) : comparison :=
  match rnd_epoch a ?= rnd_epoch b with
  | Eq => rnd_view a ?= rnd_view b
  | c => c
  end.

Definition rnd_write (r : Rnd) : option bytes :=
  write2 (write Epoch.codec (rnd_epoch r)) (write View.codec (rnd_view r)).
Definition rnd_encode_size (r : Rnd) : option Z :=
  add_size (encode_size Epoch.codec (rnd_epoch r)) (encode_size View.codec (rnd_view r)).
Definition rnd_read_cfg (_ : unit) (buf : bytes) : result (Rnd * bytes) :=
  let? (epoch, buf) := read_cfg Epoch.codec tt buf in
  let? (view, buf) := read_cfg View.codec tt buf in
  Ok (mkRnd epoch view, buf).
Definition codec : codec Rnd unit := Codec rnd_write rnd_encode_size rnd_read_cfg.
End Rnd.

#[export] Instance u64_varint_lawful : Lawful (Varint.UInt 8) := Varint.UInt_lawful 8 eq_refl.

Lemma rnd_admits e v :
  admits (tuple2 Epoch.codec View.codec) (tt, tt) (e, v) ↔ fits 64 e ∧ fits 64 v.
Proof.
  cbv delta [admits tuple2_lawful u64_varint_lawful Varint.UInt_lawful].
  cbv beta iota. done.
Qed.

#[export] Instance Rnd_lawful : Lawful Rnd.codec.
Proof.
  refine {| admits _ r := fits 64 (rnd_epoch r) ∧ fits 64 (rnd_view r) |}.
  - intros cfg [e v] H. apply rnd_admits in H.
    apply (codec_write_total (c := tuple2 Epoch.codec View.codec) (tt, tt) (e, v) H).
  - intros [e v] b. apply (codec_size (c := tuple2 Epoch.codec View.codec) (e, v) b).
  - intros cfg [e v] b rest H E. apply rnd_admits in H.
    pose proof (codec_roundtrip (c := tuple2 Epoch.codec View.codec) (tt, tt) (e, v) b rest H E) as R.
    simpl in *. unfold Rnd.rnd_read_cfg, tuple_read_cfg in *. simpl in *.
    destruct (Varint.read 8 (b ++ rest)) as [[x r]| |]; simpl in *; try done.
    destruct (Varint.read 8 r) as [[y r']| |]; simpl in *; try done. by injection R as -> -> ->.
  - intros cfg buf [e v] rest H.
    assert (read_cfg (tuple2 Epoch.codec View.codec) (tt, tt) buf = Ok ((e, v), rest)) as R.
    { simpl in *. unfold Rnd.rnd_read_cfg, tuple_read_cfg in *. simpl in *.
      destruct (Varint.read 8 buf) as [[x r]| |]; simpl in *; try done.
      destruct (Varint.read 8 r) as [[y r']| |]; simpl in *; try done. by injection H as -> -> ->. }
    apply codec_canonical in R. by rewrite rnd_admits in R.
  - intros cfg buf. apply obind_no_panic; [apply (codec_no_panic (c := Varint.UInt 8) tt buf)|].
    intros [e r] _. apply obind_no_panic; [apply (codec_no_panic (c := Varint.UInt 8) tt r)|].
    by intros [].
Defined.

(** ** Epoch boundaries *)

Inductive EpochPhase : Type := Early | Midpoint | Late.

Record EpochInfo : Type := mkEpochInfo {
  info_epoch : Z; info_height : Z; info_first : Z; info_last : Z }.

Module EpochInfo.
(** [None]: the [u64] arithmetic over- or underflows. *)
Definition length (i : EpochInfo) : option Z :=
  d ← checked_sub (info_last i) (info_first i); checked_add 64 d 1.
Definition relative (i : EpochInfo) : option Z := checked_sub (info_height i) (info_first i).
Definition phase (i : EpochInfo) : option EpochPhase :=
  relative ← relative i;
  len ← length i;
  let midpoint := len / 2 in
  Some (if relative <? midpoint then Early
        else if relative =? midpoint then Midpoint
        else Late).
End EpochInfo.

(** What users of the [Epocher] trait rely on: an epoch's heights are the
    interval from its first to its last height, and [containing] finds the
    interval of a height. *)
Record Epocher : Type := mkEpocher {
  containing : Z → option EpochInfo;
  ep_first : Z → option Z;
  ep_last : Z → option Z;
}.

Module FixedEpocher.
Section WithLength.
Context (len : Z).

Definition bounds (epoch : Z) : option (Z * Z) :=
  first ← checked_mul 64 epoch len;
  last ← checked_add 64 first (len - 1);
  Some (first, last).
Definition containing (height : Z) : option EpochInfo :=
  let epoch := height / len in
  '(first, last) ← bounds epoch;
  Some (mkEpochInfo epoch height first last).
Definition first (epoch : Z) : option Z := fst <$> bounds epoch.
Definition last (epoch : Z) : option Z := snd <$> bounds epoch.
Definition epocher : Epocher := mkEpocher containing first last.
End WithLength.

Lemma bounds_Some len e a b : 0 < len → 0 ≤ e →
  bounds len e = Some (a, b) ↔ a = e * len ∧ b = e * len + (len - 1) ∧ b < 2 ^ 64.
Proof.
  intros. unfold bounds, checked_mul, checked_add.
  destruct (Z.ltb_spec (e * len) (2 ^ 64)); simpl; [|split; [done|lia]].
  destruct (Z.ltb_spec (e * len + (len - 1)) (2 ^ 64)); simpl; naive_solver lia.
Qed.

Lemma bounds_None len e : 0 < len → 0 ≤ e →
  bounds len e = None ↔ 2 ^ 64 ≤ e * len + (len - 1).
Proof.
  intros. unfold bounds, checked_mul, checked_add.
  destruct (Z.ltb_spec (e * len) (2 ^ 64)); simpl; [|split; [lia|done]].
  destruct (Z.ltb_spec (e * len + (len - 1)) (2 ^ 64)); simpl; split; done || lia.
Qed.
End FixedEpocher.

(** ** Activity window (consensus/src/simplex/mod.rs) *)

Definition min_active (activity_timeout last_finalized : Z) : Z :=
  View.saturating_sub last_finalized activity_timeout.

(** [None]: [current.next()] overflows. *)
Definition interesting (activity_timeout last_finalized current pending : Z)
    (allow_future : bool) : option bool :=
  if pending <? min_active activity_timeout last_finalized then Some false
  else if allow_future then Some true
  else next ← View.next current; Some (negb (pending >? next)).

(** ** Quorums (utils/src/lib.rs) *)

Definition max_faults (n : Z) : Z := saturating_sub n 1 / 3.
(** [None]: the assertion [n > 0] fails. *)
Definition quorum (n : Z) : option Z := if 0 <? n then Some (n - max_faults n) else None.
Definition quorum_from_slice {T} (slice : list T) : option Z :=
  let n := Z.of_nat (length slice) in
  if fitsb 32 n then quorum n else None.

Ltac Zify.zify_post_hook ::= Z.to_euclidean_division_equations.

Lemma max_faults_spec n f : 0 < n → max_faults n = f ↔ 3 * f + 1 ≤ n ∧ n < 3 * (f + 1) + 1.
Proof. intros. unfold max_faults, saturating_sub. rewrite Z.max_r by lia. lia. Qed.

Lemma quorum_spec n q : 0 < n → quorum n = Some q ↔ 2 * n + 1 ≤ 3 * q ∧ 3 * (q - 1) < 2 * n + 1.
Proof.
  intros. unfold quorum, max_faults, saturating_sub. destruct (Z.ltb_spec 0 n); [|lia].
  rewrite Z.max_r by lia. split; [intros [= <-]|intros; f_equal]; lia.
Qed.

(** Two quorums share more participants than can be faulty. *)
Lemma quorum_intersection n q : 0 < n → quorum n = Some q → max_faults n < 2 * q - n.
Proof.
  intros Hn Hq. apply quorum_spec in Hq; [|done].
  pose proof (proj1 (max_faults_spec n _ Hn) eq_refl). lia.
Qed.

(** A quorum has more correct participants than faulty ones can outvote. *)
Lemma quorum_bounds n q : 0 < n → quorum n = Some q → max_faults n < q ≤ n ∧ 0 ≤ max_faults n.
Proof.
  intros Hn Hq. apply quorum_spec in Hq; [|done].
  pose proof (proj1 (max_faults_spec n _ Hn) eq_refl). lia.
Qed.

(** ** Namespaced messages (utils/src/lib.rs) *)

Definition union (a b : bytes) : bytes := a ++ b.
(** [None]: the length prefix panics on a namespace of [2^32] bytes or more. *)
Definition union_unique (namespace msg : bytes) : option bytes :=
  len_prefix ← write usize (Z.of_nat (length namespace));
  Some (len_prefix ++ namespace ++ msg).

Lemma union_unique_inj ns1 m1 ns2 m2 w :
  union_unique ns1 m1 = Some w → union_unique ns2 m2 = Some w → ns1 = ns2 ∧ m1 = m2.
Proof.
  unfold union_unique. intros H1 H2.
  destruct (write usize (Z.of_nat (length ns1))) as [p1|] eqn:E1; [|done].
  destruct (write usize (Z.of_nat (length ns2))) as [p2|] eqn:E2; [|done].
  simpl in *. injection H1 as <-. injection H2 as H2.
  assert (∀ l, is_Some (write usize l) → admits usize RangeCfg.from_range_full l) as Ha.
  { intros l [p Hp]. simpl in *. unfold usize_write in Hp.
    destruct (fitsb 32 l) eqn:Hf; [|done]. by apply fitsb_spec in Hf. }
  destruct (write_prefix_free usize RangeCfg.from_range_full _ _ p2 p1 (ns2 ++ m2) (ns1 ++ m1)
    (Ha _ (mk_is_Some _ _ E2)) (Ha _ (mk_is_Some _ _ E1)) E2 E1 H2) as [Hl Happ].
  apply app_inv_length in Happ as [-> ->]; [done|lia].
Qed.

(** ** Modular reduction of big-endian bytes (utils/src/lib.rs) *)

(** [None]: the assertion on [n] fails. [result << 8] stays below [2^128]
    because [result < n < 2^64]. *)
Definition modulo (b : bytes) (n : Z) : option Z :=
  if n =? 0 then None
  else Some (fold_left
    (λ r x, wrap 128 (Z.lor (wrap 128 (Z.shiftl r 8)) (byte.unsigned x)) mod n) b 0).

(** ** Properties *)

(** [max_faults n] is the largest [f] with [n >= 3f + 1], a quorum is what the
    others can form without the faulty ones, and any two quorums share a
    participant that is not faulty. *)
Theorem quorum_correct n q : 0 < n → quorum n = Some q →
  let f := max_faults n in
  3 * f + 1 ≤ n ∧ n < 3 * (f + 1) + 1 ∧ q = n - f ∧ f < 2 * q - n.
Proof.
  intros Hn Hq f. pose proof (proj1 (max_faults_spec n f Hn) eq_refl) as [? ?].
  pose proof (quorum_intersection n q Hn Hq). unfold quorum in Hq.
  destruct (Z.ltb_spec 0 n); [|lia]. injection Hq as <-. lia.
Qed.

Lemma quorum_correct_witness : 3 * max_faults 100 + 1 ≤ 100.
Proof. exact (proj1 (quorum_correct 100 67 ltac:(lia) eq_refl)). Defined.

(** with a fixed epoch length, every height lies in exactly one epoch, the one
    [containing] reports, whose bounds are [first] and [last]; there is no result
    exactly when the last height of the epoch does not fit a [u64]. *)
Theorem fixed_epocher_partition len height : 0 < len → 0 ≤ height →
  match FixedEpocher.containing len height with
  | Some i =>
      info_height i = height ∧ info_first i ≤ height ≤ info_last i ∧
      FixedEpocher.first len (info_epoch i) = Some (info_first i) ∧
      FixedEpocher.last len (info_epoch i) = Some (info_last i) ∧
      ∀ e a b, 0 ≤ e → FixedEpocher.bounds len e = Some (a, b) → a ≤ height ≤ b → e = info_epoch i
  | None => 2 ^ 64 ≤ height / len * len + (len - 1)
  end.
Proof.
  intros Hl Hh. unfold FixedEpocher.containing.
  assert (0 ≤ height / len) as He by (apply Z.div_pos; lia).
  destruct (FixedEpocher.bounds len (height / len)) as [[a b]|] eqn:E; simpl;
    [|by apply FixedEpocher.bounds_None in E].
  unfold FixedEpocher.first, FixedEpocher.last. rewrite E.
  apply FixedEpocher.bounds_Some in E as (-> & -> & Hlt); [|done..].
  pose proof (Z.div_mod height len ltac:(lia)). pose proof (Z.mod_pos_bound height len Hl).
  split; [done|]. split; [nia|]. split; [done|]. split; [done|].
  intros e a b He' (-> & -> & _)%FixedEpocher.bounds_Some Hb; [|done..].
  apply (Z.div_unique height len e (height - e * len)); lia.
Qed.

Lemma fixed_epocher_partition_witness :
  FixedEpocher.containing 10 47 = Some (mkEpochInfo 4 47 40 49) ∧ 40 ≤ 47 ≤ 49.
Proof.
  split; [reflexivity|].
  exact (proj1 (proj2 (fixed_epocher_partition 10 47 ltac:(lia) ltac:(lia)))).
Defined.

(** C40: the phase of a height is [Early] below the middle of its epoch, [Midpoint]
    at it and [Late] above, and computing it never overflows. *)
Theorem epoch_phase_correct len height i : 0 < len < 2 ^ 64 → 0 ≤ height →
  FixedEpocher.containing len height = Some i →
  EpochInfo.length i = Some len ∧ EpochInfo.relative i = Some (height mod len) ∧
  EpochInfo.phase i = Some (match height mod len ?= len / 2 with
                            | Lt => Early | Eq => Midpoint | Gt => Late end).
Proof.
  intros Hl Hh. unfold FixedEpocher.containing.
  assert (0 ≤ height / len) as He by (apply Z.div_pos; lia).
  destruct (FixedEpocher.bounds len (height / len)) as [[a b]|] eqn:E; simpl; [|done].
  apply FixedEpocher.bounds_Some in E as (-> & -> & Hlt); [|lia..]. intros [= <-].
  pose proof (Z.div_mod height len ltac:(lia)) as Hd. pose proof (Z.mod_pos_bound height len ltac:(lia)).
  set (e := height / len) in *. set (m := height mod len) in *. clearbody e m.
  assert (EpochInfo.length (mkEpochInfo e height (e * len) (e * len + (len - 1))) = Some len) as E1.
  { unfold EpochInfo.length, checked_sub, checked_add. simpl.
    destruct (Z.leb_spec (e * len) (e * len + (len - 1))); [|lia]. simpl.
    destruct (Z.ltb_spec (e * len + (len - 1) - e * len + 1) (2 ^ 64)); [f_equal; lia|lia]. }
  assert (EpochInfo.relative (mkEpochInfo e height (e * len) (e * len + (len - 1))) = Some m) as E2.
  { unfold EpochInfo.relative, checked_sub. simpl.
    destruct (Z.leb_spec (e * len) height); [f_equal; lia|lia]. }
  split; [done|]. split; [done|]. unfold EpochInfo.phase. rewrite E1, E2. simpl. f_equal.
  destruct (Z.compare_spec m (len / 2)), (Z.ltb_spec m (len / 2)), (Z.eqb_spec m (len / 2));
    done || lia.
Qed.

Lemma epoch_phase_correct_witness : EpochInfo.phase (mkEpochInfo 4 47 40 49) = Some Late.
Proof.
  exact (proj2 (proj2 (epoch_phase_correct 10 47 (mkEpochInfo 4 47 40 49) ltac:(lia) ltac:(lia) eq_refl))).
Defined.

(** a view is interesting when it is within the activity timeout of the last
    finalized view and, unless future views are allowed, at most one above the
    current view; the last finalized and the current view always are. *)
Theorem interesting_correct timeout finalized current pending allow_future :
  0 ≤ timeout → 0 ≤ pending → finalized ≤ current → 0 ≤ finalized → current + 1 < 2 ^ 64 →
  (interesting timeout finalized current pending allow_future = Some true ↔
    finalized ≤ pending + timeout ∧ (allow_future = true ∨ pending ≤ current + 1)) ∧
  interesting timeout finalized current finalized allow_future = Some true ∧
  interesting timeout finalized current current allow_future = Some true.
Proof.
  intros Ht Hp Hf Hf0 Hc.
  assert (∀ p, 0 ≤ p → interesting timeout finalized current p allow_future = Some true ↔
    finalized ≤ p + timeout ∧ (allow_future = true ∨ p ≤ current + 1)) as H.
  { intros p Hp0. unfold interesting, min_active, View.saturating_sub, saturating_sub.
    rewrite (proj2 (View.next_Some current (current + 1))) by lia. simpl.
    destruct (Z.ltb_spec p (Z.max 0 (finalized - timeout))).
    - split; [done|lia].
    - destruct allow_future; [split; [intros _; split; [lia|by left]|done]|].
      rewrite Z.gtb_ltb. destruct (Z.ltb_spec (current + 1) p); simpl; naive_solver lia. }
  split; [by apply H|]. split; apply H; try lia; (split; [lia|right; lia]).
Qed.

Lemma interesting_correct_witness : interesting 10 50 60 60 false = Some true.
Proof.
  exact (proj2 (proj2 (interesting_correct 10 50 60 41 false ltac:(lia) ltac:(lia) ltac:(lia)
    ltac:(lia) ltac:(lia)))).
Defined.

Lemma get_be_snoc b x : get_be (b ++ [x]) = 256 * get_be b + byte.unsigned x.
Proof.
  unfold get_be. rewrite rev_app_distr.
  change (Z.lor (byte.unsigned x) (Z.shiftl (LittleEndianList.le_combine (rev b)) 8) =
    256 * LittleEndianList.le_combine (rev b) + byte.unsigned x).
  pose proof (byte.unsigned_range x). rewrite lor_add_disjoint by lia.
  change (2 ^ 8) with 256. lia.
Qed.

Lemma modulo_step r x n : 0 < n < 2 ^ 64 → 0 ≤ r < n →
  wrap 128 (Z.lor (wrap 128 (Z.shiftl r 8)) (byte.unsigned x)) mod n =
  (256 * r + byte.unsigned x) mod n.
Proof.
  intros Hn Hr. pose proof (byte.unsigned_range x) as Hx. change (2 ^ 8) with 256 in Hx.
  unfold wrap. rewrite Z.lor_comm.
  rewrite (Z.mod_small (Z.shiftl r 8)) by (rewrite Z.shiftl_mul_pow2 by lia; change (2 ^ 8) with 256; lia).
  rewrite lor_add_disjoint by (change (2 ^ 8) with 256; lia). change (2 ^ 8) with 256.
  rewrite (Z.mod_small (byte.unsigned x + 256 * r)) by lia. f_equal. lia.
Qed.

(** [modulo] is the remainder of the big-endian number, and the 128-bit
    accumulator loses no bits. *)
Lemma modulo_spec b n : 0 < n < 2 ^ 64 → modulo b n = Some (get_be b mod n).
Proof.
  intros Hn. unfold modulo. destruct (Z.eqb_spec n 0); [lia|]. f_equal.
  induction b as [|x b IH] using rev_ind; [done|].
  rewrite fold_left_app. simpl. rewrite IH, get_be_snoc, modulo_step by (done || apply Z.mod_pos_bound; lia).
  rewrite <- Z.add_mod_idemp_l, Z.mul_mod_idemp_r, Z.add_mod_idemp_l by lia. done.
Qed.
