(* ===== verification/CodecRecords.v ===== *)
(** * Codecs of records and enums

    The code writes a struct as its fields in order and an enum as a [u8] tag
    followed by the fields of the variant.  [iso_codec] carries the laws of a
    tuple codec over to a record with the same fields; [enum_codec] builds the
    codec of an enum from its tags and bodies, and [TaggedLawful] is what the
    bodies have to satisfy. *)

From S2P Require Import Prelude Codec Varint CodecTypes.
Import CodecTypes.

Module CodecRecords.

Section Iso.
Context {A CA B CB : Type} (c : codec A CA) (f : A → B) (g : B → A) (h : CB → CA).

Definition iso_codec : codec B CB :=
  Codec (λ b, write c (g b)) (λ b, encode_size c (g b))
    (λ cfg buf, let? (a, rest) := read_cfg c (h cfg) buf in Ok (f a, rest)).

Lemma iso_lawful : Lawful c → (∀ b, f (g b) = b) → (∀ a, g (f a) = a) → Lawful iso_codec.
Proof.
  intros L Hfg Hgf. refine {| admits cfg b := admits c (h cfg) (g b) |}; simpl.
  - intros cfg b. apply codec_write_total.
  - intros b w. apply codec_size.
  - intros cfg b w rest Ha Hw. rewrite (codec_roundtrip (h cfg) (g b) w rest Ha Hw).
    simpl. by rewrite Hfg.
  - intros cfg buf b rest ([a r] & E & [= <- <-])%obind_Ok. rewrite Hgf.
    by apply codec_canonical in E.
  - intros cfg buf. apply obind_no_panic; [apply codec_no_panic|by intros []].
Defined.
End Iso.

(** A codec whose reader ends in a check. *)
Section Checked.
Context {A CA : Type} (c : codec A CA) (ok : A → bool) (err : Error).

Definition checked : codec A CA :=
  Codec (write c) (encode_size c)
    (λ cfg buf, let? (a, rest) := read_cfg c cfg buf in if ok a then Ok (a, rest) else Err err).

Lemma checked_lawful : Lawful c → Lawful checked.
Proof.
  intros L. refine {| admits cfg a := admits c cfg a ∧ ok a = true |}; simpl.
  - intros cfg a [H _]. by eapply codec_write_total.
  - apply codec_size.
  - intros cfg a w rest [Ha Ho] Hw. rewrite (codec_roundtrip cfg a w rest Ha Hw). simpl. by rewrite Ho.
  - intros cfg buf a rest ([a' r] & E & H)%obind_Ok. destruct (ok a') eqn:Ho; [|done].
    injection H as <- <-. by apply codec_canonical in E as [? ?].
  - intros cfg buf. apply obind_no_panic; [apply codec_no_panic|]. intros [a r] _. by case_match.
Defined.
End Checked.

(** The bodies of an enum: the tag of a variant, and how its fields are written,
    measured and read. *)
Record tagged (B Cfg : Type) : Type := Tagged {
  t_tag : B → Z;
  t_write : B → option bytes;
  t_size : B → option Z;
  t_read : Z → Cfg → bytes → result (B * bytes);
}.
Arguments Tagged {B Cfg} _ _ _ _.
Arguments t_tag {B Cfg} _ _.
Arguments t_write {B Cfg} _ _.
Arguments t_size {B Cfg} _ _.
Arguments t_read {B Cfg} _ _ _ _.

Class TaggedLawful {B Cfg} (t : tagged B Cfg) : Type := {
  t_admits : Cfg → B → Prop;
  t_tag_fits b : fits 8 (t_tag t b);
  t_write_total cfg b : t_admits cfg b → is_Some (t_write t b);
  t_size_spec b w : t_write t b = Some w → t_size t b = Some (Z.of_nat (length w));
  t_roundtrip cfg b w rest :
    t_admits cfg b → t_write t b = Some w →
    t_read t (t_tag t b) cfg (w ++ rest) = Ok (b, rest);
  t_canonical tag cfg buf b rest :
    t_read t tag cfg buf = Ok (b, rest) →
    t_tag t b = tag ∧ t_admits cfg b ∧ ∃ w, t_write t b = Some w ∧ buf = w ++ rest;
  t_no_panic tag cfg buf : t_read t tag cfg buf ≠ Panic;
}.

Section Enum.
Context {B Cfg : Type} (t : tagged B Cfg).

Definition enum_codec : codec B Cfg :=
  Codec (λ b, write2 (write u8 (t_tag t b)) (t_write t b))
    (λ b, add_size (Some 1) (t_size t b))
    (λ cfg buf, let? (tag, buf) := read_cfg u8 tt buf in t_read t tag cfg buf).

#[export] Instance enum_lawful `{!TaggedLawful t} : Lawful enum_codec.
Proof.
  refine {| admits cfg b := t_admits cfg b |}; cbn [write encode_size read_cfg enum_codec].
  - intros cfg b [w Hw]%t_write_total. by rewrite Hw.
  - intros b w (w1 & w2 & [= <-] & E2 & ->)%write2_Some.
    rewrite (t_size_spec _ _ E2). simpl. f_equal. lia.
  - intros cfg b w rest Ha (w1 & w2 & E1 & E2 & ->)%write2_Some. rewrite <- app_assoc.
    pose proof (codec_roundtrip (c := u8) tt _ w1 (w2 ++ rest) (t_tag_fits b) E1) as R.
    rewrite R. simpl. by apply t_roundtrip.
  - intros cfg buf b rest ([tag r] & E & H)%obind_Ok.
    apply (codec_canonical (c := u8) tt) in E as (_ & w1 & Hw1 & ->).
    apply t_canonical in H as (<- & Ha & w2 & Hw2 & ->). split; [done|].
    exists (w1 ++ w2). rewrite app_assoc. split; [|done]. apply write2_Some. eauto 6.
  - intros cfg buf. apply obind_no_panic; [apply (codec_no_panic (c := u8) tt)|].
    intros [tag r] _. apply t_no_panic.
Defined.
End Enum.

(** Reading one variant: its body, wrapped by the constructor. *)
Definition variant {A B CA} (c : codec A CA) (ctor : A → B) (cfg : CA) (buf : bytes) :
    result (B * bytes) :=
  let? (x, rest) := read_cfg c cfg buf in Ok (ctor x, rest).

Section Variant.
Context {A B CA : Type} (c : codec A CA) `{!Lawful c} (ctor : A → B).

Lemma variant_write cfg x w rest :
  admits c cfg x → write c x = Some w → variant c ctor cfg (w ++ rest) = Ok (ctor x, rest).
Proof. intros. unfold variant. by rewrite (codec_roundtrip cfg x w rest). Qed.

Lemma variant_Ok cfg buf b rest :
  variant c ctor cfg buf = Ok (b, rest) →
  ∃ x w, b = ctor x ∧ admits c cfg x ∧ write c x = Some w ∧ buf = w ++ rest.
Proof.
  intros ([x r] & E & [= <- <-])%obind_Ok. apply codec_canonical in E as (? & w & ? & ->).
  eauto 8.
Qed.

Lemma variant_no_panic cfg buf : variant c ctor cfg buf ≠ Panic.
Proof. apply obind_no_panic; [apply codec_no_panic|by intros []]. Qed.
End Variant.

(** Settle the laws of an enum whose reader is a chain of tests on the tag, each
    branch a [variant]. *)
Ltac solve_tagged :=
  repeat match goal with
  | |- context [if ?b then _ else _] => destruct b eqn:?
  | H : context [if ?b then _ else _] |- _ => destruct b eqn:?
  end; bool_to_prop; subst;
  repeat match goal with
  | H : variant ?c ?k _ _ = Ok _ |- _ =>
      apply (variant_Ok c k) in H as ([] & ? & -> & ? & ? & ->)
  end;
  try match goal with
  | |- variant _ _ _ _ ≠ Panic => apply variant_no_panic; apply _
  | Ha : admits ?c ?cfg ?x, Hw : write ?c ?x = Some ?w |- variant ?c ?k ?cfg (?w ++ ?r) = Ok _ =>
      exact (variant_write c k cfg x w r Ha Hw)
  | |- _ ∧ _ ∧ ∃ _, _ => split; [done|split; [assumption|eexists; split; [eassumption|done]]]
  end; try done; try lia.

End CodecRecords.
