(* ===== verification/Ordered.v ===== *)
(** * Ordered collections (utils/src/ordered.rs)

    [Set_] is a sorted vector without duplicates, [Map] its parallel vector of
    values and [BiMap] a map whose values are unique too.  The participants of
    simplex are such a set: a vote carries the position of its signer, and the
    trait [Quorum] translates positions and keys.  [sort_by_key], [dedup_by_key]
    and [binary_search] are the functions of the standard library the code
    calls. *)

From S2P Require Import Prelude Codec Varint CodecTypes CodecRecords CodecOrdered ConsensusTypes.
Import CodecTypes CodecRecords CodecOrdered.

Module Ordered.

Inductive Error : Type := DuplicateKey | DuplicateValue.

(** ** Sorting, deduplication and search *)

Section Sorting.
Context {K A : Type} `{!Ord K} (key : A → K).

(** [Vec::sort] and [sort_by]: stable. *)
Fixpoint insert_by_key (x : A) (l : list A) : list A :=
  match l with
  | [] => [x]
  | y :: l' => match cmp (key x) (key y) with Gt => y :: insert_by_key x l' | _ => x :: l end
  end.
Definition sort_by_key (l : list A) : list A := foldr insert_by_key [] l.

(** [Vec::dedup] and [dedup_by]: of neighbours with the same key the first is
    kept. *)
Fixpoint dedup_after (x : A) (l : list A) : list A :=
  match l with
  | [] => []
  | y :: l => match cmp (key y) (key x) with Eq => dedup_after x l | _ => y :: dedup_after y l end
  end.
Definition dedup_by_key (l : list A) : list A :=
  match l with [] => [] | x :: l => x :: dedup_after x l end.
End Sorting.

Section Search.
Context {K : Type} `{!Ord K}.

(** [slice::binary_search]: the candidates are [base, base + size). *)
Fixpoint search_loop (fuel : nat) (l : list K) (x : K) (base size : nat) : nat :=
  match fuel with
  | O => base
  | S fuel =>
      if (size <=? 1)%nat then base
      else
        let half := (size / 2)%nat in
        let mid := (base + half)%nat in
        let base := match (λ y, cmp y x) <$> l !! mid with Some Gt => base | _ => mid end in
        search_loop fuel l x base (size - half)
  end.
Definition binary_search (l : list K) (x : K) : option nat :=
  if (length l =? 0)%nat then None
  else
    let base := search_loop (length l) l x 0 (length l) in
    match (λ y, cmp y x) <$> l !! base with Some Eq => Some base | _ => None end.
End Search.

(** ** Set *)

Notation Set_ := list (only parsing).

Section SetOps.
Context {K : Type} `{!Ord K}.

Implicit Types s : Set_ K.

Definition set_from_iter_dedup (l : list K) : Set_ K := dedup_by_key id (sort_by_key id l).
Definition set_try_from_iter (l : list K) : outcome Error (Set_ K) :=
  let items := sort_by_key id l in
  let len := length items in
  let items := dedup_by_key id items in
  if (length items =? len)%nat then Ok items else Err DuplicateKey.
Definition position s (x : K) : option nat := binary_search s x.

(** [Quorum]; [None] is a panic. *)
Definition quorum s : option Z := quorum_from_slice s.
Definition max_faults s : option Z :=
  n ← (if fitsb 32 (Z.of_nat (length s)) then Some (Z.of_nat (length s)) else None);
  Some (ConsensusTypes.max_faults n).
Definition key_at s (index : Z) : option K := s !! Z.to_nat index.
Definition index_of s (k : K) : option (option Z) :=
  match position s k with
  | None => Some None
  | Some i => if fitsb 32 (Z.of_nat i) then Some (Some (Z.of_nat i)) else None
  end.
End SetOps.

(** ** Map and BiMap *)

Record Map (K V : Type) : Type := mkMap { keys : Set_ K; values : list V }.
Arguments mkMap {K V} _ _.
Arguments keys {K V} _.
Arguments values {K V} _.

Section MapOps.
Context {K V : Type} `{!Ord K}.
Implicit Types m : Map K V.

Definition of_pairs (l : list (K * V)) : Map K V := mkMap l.*1 l.*2.
Definition map_from_iter_dedup (l : list (K * V)) : Map K V :=
  of_pairs (dedup_by_key fst (sort_by_key fst l)).
Definition map_try_from_iter (l : list (K * V)) : outcome Error (Map K V) :=
  let items := sort_by_key fst l in
  let len := length items in
  let items := dedup_by_key fst items in
  if (length items =? len)%nat then Ok (of_pairs items) else Err DuplicateKey.
Definition value m (index : nat) : option V := values m !! index.
Definition get_value m (k : K) : option V := index ← position (keys m) k; values m !! index.
(** Writing through [get_value_mut]. *)
Definition set_value m (k : K) (v : V) : option (Map K V) :=
  index ← position (keys m) k;
  if (index <? length (values m))%nat then Some (mkMap (keys m) (<[index := v]> (values m))) else None.
Definition truncate m (len : nat) : Map K V := mkMap (take len (keys m)) (take len (values m)).
Definition iter_pairs m : list (K * V) := zip (keys m) (values m).

(** [MapIntoIter]. *)
Definition into_iter_next m : option ((K * V) * Map K V) :=
  match keys m, values m with
  | k :: ks, v :: vs => Some ((k, v), mkMap ks vs)
  | _, _ => None
  end.

Context `{!EqDecision V}.

(** The loop over the hash set of the values seen. *)
Fixpoint no_duplicate (seen l : list V) : bool :=
  match l with
  | [] => true
  | v :: l => if decide (v ∈ seen) then false else no_duplicate (v :: seen) l
  end.
Definition bimap_try_from m : outcome Error (Map K V) :=
  if no_duplicate [] (values m) then Ok m else Err DuplicateValue.
Definition bimap_try_from_iter (l : list (K * V)) : outcome Error (Map K V) :=
  let? m := map_try_from_iter l in bimap_try_from m.
Definition get_key m (v : V) : option K :=
  index ← fst <$> list_find (λ w, w = v) (values m); keys m !! index.
End MapOps.

(** ** Sorting lemmas *)

Section SortingLemmas.
Context {K A : Type} `{!Ord K} (key : A → K).
Implicit Types l : list A.

#[local] Instance K_eq_dec : EqDecision K.
Proof. intros x y. destruct (cmp x y) eqn:E; [left; by apply cmp_eq|right..]; intros ->;
  rewrite (proj2 (cmp_eq y y) eq_refl) in E; discriminate. Defined.

Lemma klt_irrefl (x : K) : ¬ klt x x.
Proof. unfold klt. by rewrite (proj2 (cmp_eq x x) eq_refl). Qed.

Definition below (x y : A) : Prop := klt (key x) (key y).
Definition not_above (x y : A) : Prop := ¬ klt (key y) (key x).

(** The items with a given key, in order: what sorting keeps and what
    deduplication cuts down to the first. *)
Definition with_key (k : K) l : list A := filter (λ x, key x = k) l.

Lemma not_above_cases x y : not_above x y → below x y ∨ key x = key y.
Proof.
  unfold not_above, below. rewrite <- cmp_gt. unfold klt. destruct (cmp (key x) (key y)) eqn:E; [|by left|done].
  right. by apply cmp_eq.
Qed.

Lemma below_not_above x y : below x y → not_above x y.
Proof. intros H H'. by eapply klt_irrefl, klt_trans. Qed.

#[local] Instance not_above_trans : Transitive not_above.
Proof.
  intros x y z Hxy Hyz. apply not_above_cases in Hxy as [Hxy|E].
  - apply not_above_cases in Hyz as [Hyz|E]; [by apply below_not_above; eapply klt_trans|].
    unfold not_above. rewrite <- E. by apply below_not_above.
  - unfold not_above in *. by rewrite E.
Qed.

Lemma insert_by_key_perm x l : insert_by_key key x l ≡ₚ x :: l.
Proof. induction l as [|y l IH]; simpl; [done|]. case_match; [done..|]. rewrite IH. apply Permutation_swap. Qed.

Lemma sort_by_key_perm l : sort_by_key key l ≡ₚ l.
Proof. induction l as [|x l IH]; simpl; [done|]. by rewrite insert_by_key_perm, IH. Qed.

Lemma insert_by_key_sorted x l :
  StronglySorted not_above l → StronglySorted not_above (insert_by_key key x l).
Proof.
  induction 1 as [|y l Hs IH Hy]; simpl; [by repeat constructor|].
  destruct (cmp (key x) (key y)) eqn:E.
  1-2: assert (not_above x y) as Hxy by (unfold not_above; rewrite <- cmp_gt, E; done);
    constructor; [by constructor|]; constructor; [done|]; eapply Forall_impl; [exact Hy|];
    intros z Hz; by etransitivity.
  constructor; [done|]. rewrite insert_by_key_perm. constructor; [|done].
  apply below_not_above. by apply cmp_gt.
Qed.

Lemma sort_by_key_sorted l : StronglySorted not_above (sort_by_key key l).
Proof. induction l as [|x l IH]; simpl; [constructor|by apply insert_by_key_sorted]. Qed.

Lemma sorted_below_key l x y : StronglySorted below l → x ∈ l → y ∈ l → key x = key y → x = y.
Proof.
  induction 1 as [|z l Hs IH Hz]; [by intros ?%not_elem_of_nil|]. rewrite Forall_forall in Hz.
  intros [->|Hx]%elem_of_cons [->|Hy]%elem_of_cons E; [done|..|by apply IH];
    exfalso; [specialize (Hz y Hy)|specialize (Hz x Hx)]; unfold below in Hz; rewrite E in Hz; by eapply klt_irrefl.
Qed.

(** The only order in which the keys strictly ascend. *)
Lemma sort_by_key_unique l l' : l' ≡ₚ l → StronglySorted below l' → sort_by_key key l = l'.
Proof.
  intros Hp Hs. apply (StronglySorted_unique_strong not_above).
  - intros x y Hx Hy H1 H2. apply (sorted_below_key l'); [done| |done|].
    + rewrite Hp. by rewrite (sort_by_key_perm l) in Hx.
    + apply not_above_cases in H1 as [H1|]; [|done]. by destruct H2.
  - apply sort_by_key_sorted.
  - clear Hp. induction Hs as [|x l0 Hs IH Hx]; [constructor|]. constructor; [done|].
    eapply Forall_impl; [exact Hx|]. intros y. apply below_not_above.
  - by rewrite sort_by_key_perm.
Qed.

Lemma sort_by_key_stable k l : with_key k (sort_by_key key l) = with_key k l.
Proof.
  induction l as [|x l IH]; simpl; [done|]. unfold with_key in *. rewrite filter_cons, <- IH. clear IH.
  induction (sort_by_key key l) as [|y l' IH]; simpl; [by rewrite filter_cons|].
  destruct (cmp (key x) (key y)) eqn:E; [by rewrite filter_cons..|].
  rewrite !(filter_cons _ y), IH. destruct (decide (key y = k)) as [Ey|], (decide (key x = k)) as [Ex|]; try done.
  by rewrite Ex, Ey, (proj2 (cmp_eq k k) eq_refl) in E.
Qed.

Lemma dedup_after_spec l : ∀ x, StronglySorted not_above (x :: l) →
  StronglySorted below (x :: dedup_after key x l) ∧
  ∀ k, with_key k (x :: dedup_after key x l) = take 1 (with_key k (x :: l)).
Proof.
  induction l as [|y l IH]; intros x [Hs Hx]%StronglySorted_inv; simpl.
  { split; [by repeat constructor|]. intros k. unfold with_key. rewrite filter_cons. by case_decide. }
  apply Forall_cons in Hx as [Hxy Hx]. unfold with_key in *.
  destruct (cmp (key y) (key x)) eqn:E.
  - apply cmp_eq in E. destruct (IH x) as [I1 I2]; [by constructor; [apply StronglySorted_inv in Hs as []|]|].
    split; [done|]. intros k. rewrite (I2 k), !filter_cons, E. by case_decide.
  - exfalso. by apply Hxy.
  - apply cmp_gt in E. destruct (IH y Hs) as [I1 I2]. split.
    + constructor; [done|]. constructor; [done|]. apply StronglySorted_inv in I1 as [_ I1].
      eapply Forall_impl; [exact I1|]. intros z Hz. by eapply klt_trans.
    + intros k. rewrite !(filter_cons _ x). case_decide as Ek; [|by rewrite I2]. simpl. f_equal.
      rewrite I2. replace (filter (λ z, key z = k) (y :: l)) with (@nil A); [done|]. symmetry.
      apply elem_of_nil_inv. intros z [Hz Hin]%list_elem_of_filter. apply (klt_irrefl k).
      apply StronglySorted_inv in Hs as [Hs Hy]. apply elem_of_cons in Hin as [->|Hin].
      * unfold below in E. by rewrite Ek, Hz in E.
      * rewrite Forall_forall in Hy. specialize (Hy z Hin). apply not_above_cases in Hy as [Hy|Hy].
        -- rewrite <- Ek at 1. rewrite <- Hz. eapply klt_trans; [exact E|done].
        -- rewrite <- Ek at 1. rewrite <- Hz, <- Hy. done.
Qed.

Lemma dedup_by_key_spec l : StronglySorted not_above l →
  StronglySorted below (dedup_by_key key l) ∧
  ∀ k, with_key k (dedup_by_key key l) = take 1 (with_key k l).
Proof. destruct l as [|x l]; simpl; [by split; [constructor|]|apply dedup_after_spec]. Qed.

Lemma ascending_keys l : StronglySorted below l ↔ ascending (key <$> l).
Proof.
  unfold ascending. induction l as [|x l IH]; [split; constructor|]. rewrite fmap_cons.
  split; intros [Hs Hx]%StronglySorted_inv; constructor; try (by apply IH).
  - apply Forall_fmap. exact Hx.
  - apply (Forall_fmap key) in Hx. exact Hx.
Qed.

Lemma ascending_nodup (l : list K) : ascending l → NoDup l.
Proof.
  induction 1 as [|x l Hs IH Hx]; constructor; [|done]. rewrite Forall_forall in Hx.
  intros Hin. by apply (klt_irrefl x), Hx.
Qed.

Lemma below_unique l1 l2 : StronglySorted below l1 → StronglySorted below l2 → l1 ≡ₚ l2 → l1 = l2.
Proof.
  apply (StronglySorted_unique_strong below). intros x y _ _ Hxy Hyx.
  exfalso. by eapply klt_irrefl, klt_trans.
Qed.

Lemma not_above_nodup l : StronglySorted not_above l → NoDup (key <$> l) → StronglySorted below l.
Proof.
  induction 1 as [|x l Hs IH Hx]; simpl; intros Hn; constructor; apply NoDup_cons in Hn as [Hn Hd].
  - by apply IH.
  - rewrite Forall_forall in *. intros y Hy. destruct (not_above_cases x y (Hx y Hy)) as [|E]; [done|].
    destruct Hn. rewrite E. by apply list_elem_of_fmap_2.
Qed.

Lemma dedup_after_below l : ∀ x, StronglySorted below (x :: l) → dedup_after key x l = l.
Proof.
  induction l as [|y l IH]; intros x [Hs Hx]%StronglySorted_inv; simpl; [done|].
  apply Forall_cons in Hx as [Hxy _]. apply cmp_gt in Hxy as ->. by rewrite IH.
Qed.

Lemma dedup_after_length l : ∀ x, (length (dedup_after key x l) ≤ length l)%nat.
Proof. induction l as [|y l IH]; intros x; simpl; [lia|]. case_match; simpl; [specialize (IH x)|specialize (IH y)..]; lia. Qed.

Lemma dedup_after_full l : ∀ x, length (dedup_after key x l) = length l → dedup_after key x l = l.
Proof.
  induction l as [|y l IH]; intros x; simpl; [done|]. case_match; simpl.
  - pose proof (dedup_after_length l x). lia.
  - intros [= E]. by rewrite IH.
  - intros [= E]. by rewrite IH.
Qed.

(** Sorting and deduplicating loses no item exactly when the keys are distinct;
    the result is then the sorted permutation. *)
Lemma sort_dedup_full l :
  length (dedup_by_key key (sort_by_key key l)) = length (sort_by_key key l) ↔ NoDup (key <$> l).
Proof.
  assert (NoDup (key <$> sort_by_key key l) ↔ NoDup (key <$> l)) as Hp.
  { apply NoDup_Permutation_proper. by rewrite sort_by_key_perm. }
  rewrite <- Hp. pose proof (sort_by_key_sorted l) as Hs. destruct (dedup_by_key_spec _ Hs) as [Hd _]. split.
  - intros E. apply ascending_nodup, ascending_keys.
    replace (sort_by_key key l) with (dedup_by_key key (sort_by_key key l)); [done|].
    destruct (sort_by_key key l) as [|x l']; [done|]. simpl in *. injection E as E. by rewrite dedup_after_full.
  - intros Hn. apply not_above_nodup in Hn; [|done]. destruct (sort_by_key key l); [done|]. simpl.
    by rewrite dedup_after_below.
Qed.

Lemma sort_dedup_nodup l : NoDup (key <$> l) → dedup_by_key key (sort_by_key key l) = sort_by_key key l.
Proof.
  intros Hn. pose proof (sort_by_key_sorted l) as Hs.
  assert (StronglySorted below (sort_by_key key l)) as Hb.
  { apply not_above_nodup; [done|]. by rewrite sort_by_key_perm. }
  destruct (sort_by_key key l); [done|]. simpl. by rewrite dedup_after_below.
Qed.
End SortingLemmas.

(** ** Search lemmas *)

Section SearchLemmas.
Context {K : Type} `{!Ord K}.
Implicit Types l : list K.

Lemma ascending_lookup l i j x y : ascending l → l !! i = Some x → l !! j = Some y → (i < j)%nat → klt x y.
Proof.
  intros Hs Hi Hj Hij. rewrite <- (take_drop_middle l i x Hi) in Hs.
  apply StronglySorted_app in Hs as (_ & _ & [_ Hx]%StronglySorted_inv).
  rewrite Forall_forall in Hx. apply Hx, list_elem_of_lookup. exists (j - S i)%nat.
  rewrite lookup_drop, <- Hj. f_equal. lia.
Qed.

Lemma search_loop_finds l x i : ascending l → l !! i = Some x → ∀ fuel base size,
  (size ≤ S fuel)%nat → (base + size ≤ length l)%nat → (base ≤ i < base + size)%nat →
  search_loop fuel l x base size = i.
Proof.
  intros Hs Hi. induction fuel as [|fuel IH]; intros base size Hf Hl Hb; [simpl; lia|].
  cbn [search_loop].
  destruct (Nat.leb_spec size 1) as [|Hsize]; [lia|].
  pose proof (Nat.div_lt size 2 ltac:(lia) ltac:(lia)) as Hlt.
  pose proof (Nat.div_le_lower_bound size 2 1 ltac:(lia) ltac:(lia)) as Hge.
  pose proof (Nat.mul_div_le size 2 ltac:(lia)) as Hhalf.
  destruct (lookup_lt_is_Some_2 l (base + size / 2)) as [y Hy]; [lia|]. rewrite Hy. cbn [fmap option_fmap option_map].
  destruct (cmp y x) eqn:E; apply IH; try lia.
  - apply cmp_eq in E as ->. destruct (Nat.lt_trichotomy i (base + size / 2)) as [H|[H|H]]; [|lia|lia].
    destruct (klt_irrefl x). by eapply (ascending_lookup l i (base + size / 2)%nat).
  - destruct (Nat.lt_ge_cases i (base + size / 2)) as [H|H]; [|lia].
    destruct (klt_irrefl x). eapply klt_trans; [by eapply (ascending_lookup l i (base + size / 2)%nat)|done].
  - apply cmp_gt in E. destruct (Nat.lt_ge_cases i (base + size / 2)) as [H|H]; [lia|].
    apply Nat.le_lteq in H as [H|<-].
    + destruct (klt_irrefl x). eapply klt_trans; [exact E|]. by eapply (ascending_lookup l (base + size / 2)%nat i).
    + rewrite Hi in Hy. injection Hy as ->. by destruct (klt_irrefl y).
Qed.

Lemma binary_search_spec l x i : ascending l → binary_search l x = Some i ↔ l !! i = Some x.
Proof.
  intros Hs. unfold binary_search. split.
  - destruct (Nat.eqb_spec (length l) 0); [done|].
    destruct (l !! search_loop _ _ _ _ _) as [y|] eqn:E; simpl; [|done].
    destruct (cmp y x) eqn:Ec; try done. intros [= <-]. apply cmp_eq in Ec as ->. done.
  - intros Hi. pose proof (lookup_lt_Some _ _ _ Hi).
    destruct (Nat.eqb_spec (length l) 0); [lia|].
    rewrite (search_loop_finds l x i Hs Hi) by lia. rewrite Hi. simpl.
    by rewrite (proj2 (cmp_eq x x) eq_refl).
Qed.

Lemma binary_search_None l x : ascending l → binary_search l x = None ↔ x ∉ l.
Proof.
  intros Hs. split.
  - intros E [i Hi]%list_elem_of_lookup. apply (binary_search_spec l x i Hs) in Hi. congruence.
  - intros Hn. destruct (binary_search l x) as [i|] eqn:E; [|done].
    apply binary_search_spec in E; [|done]. by apply list_elem_of_lookup_2 in E.
Qed.
End SearchLemmas.

(** ** Theorems *)

Section SetTheorems.
Context {K : Type} `{!Ord K, !EqDecision K}.

Lemma set_try_from_iter_sorted (l : list K) : NoDup l →
  set_try_from_iter l = Ok (sort_by_key id l) ∧ ascending (sort_by_key id l).
Proof.
  intros Hn. unfold set_try_from_iter. rewrite sort_dedup_nodup by by rewrite list_fmap_id.
  rewrite Nat.eqb_refl. split; [done|].
  pose proof (proj1 (ascending_keys id (sort_by_key id l))) as H. rewrite list_fmap_id in H. apply H.
  apply not_above_nodup; [apply sort_by_key_sorted|]. by rewrite list_fmap_id, sort_by_key_perm.
Qed.

Lemma set_try_from_iter_duplicate (l : list K) : ¬ NoDup l → set_try_from_iter l = Err DuplicateKey.
Proof.
  intros Hn. unfold set_try_from_iter. destruct (Nat.eqb_spec (length (dedup_by_key id (sort_by_key id l)))
    (length (sort_by_key id l))) as [E|]; [|done].
  apply sort_dedup_full in E. by rewrite list_fmap_id in E.
Qed.

Lemma set_from_iter_dedup_spec (l : list K) :
  ascending (set_from_iter_dedup l) ∧ ∀ x, x ∈ set_from_iter_dedup l ↔ x ∈ l.
Proof.
  destruct (dedup_by_key_spec id _ (sort_by_key_sorted id l)) as [Hs Hd]. split.
  { apply ascending_keys in Hs. by rewrite list_fmap_id in Hs. }
  intros x. specialize (Hd x). rewrite sort_by_key_stable in Hd.
  assert (∀ l' : list K, x ∈ l' ↔ ∃ y, y ∈ with_key id x l') as Hin.
  { intros l'. unfold with_key. setoid_rewrite list_elem_of_filter. naive_solver. }
  rewrite !Hin. unfold set_from_iter_dedup. rewrite Hd. destruct (with_key id x l) as [|y l']; [done|]. simpl.
  split; intros [z Hz]; exists y; constructor.
Qed.

Lemma ascending_unique (s1 s2 : list K) : ascending s1 → ascending s2 → s1 ≡ₚ s2 → s1 = s2.
Proof. apply (below_unique id). Qed.

(** the participant set built from a list is its ascending permutation, and
    exists exactly when no key is duplicated; in it the position of a key and the
    key at a position are inverse, so the index a vote carries names one
    participant. *)
Theorem set_positions_correct (l : list K) s :
  (set_try_from_iter l = Ok s ↔ NoDup l ∧ ascending s ∧ s ≡ₚ l) ∧
  set_try_from_iter l ≠ Panic ∧
  (set_try_from_iter l = Ok s → ∀ x i, position s x = Some i ↔ s !! i = Some x).
Proof.
  assert (set_try_from_iter l = Ok s ↔ NoDup l ∧ ascending s ∧ s ≡ₚ l) as Hs.
  { destruct (decide (NoDup l)) as [Hn|Hn].
    - destruct (set_try_from_iter_sorted l Hn) as [E Ha]. rewrite E. split.
      + intros [= <-]. split_and!; [done..|apply sort_by_key_perm].
      + intros (_ & Hs & Hp). f_equal. apply ascending_unique; [done..|]. by rewrite sort_by_key_perm.
    - rewrite set_try_from_iter_duplicate by done. naive_solver. }
  split; [done|]. split; [by unfold set_try_from_iter; case_match|].
  intros E x i. apply binary_search_spec. by apply Hs.
Qed.
End SetTheorems.

Section MapTheorems.
Context {K V : Type} `{!Ord K, !EqDecision K}.
Implicit Types m : Map K V.
Implicit Types l : list (K * V).

Record map_wf m : Prop := {
  mw_keys : ascending (keys m);
  mw_values : length (values m) = length (keys m);
}.

Lemma iter_of_pairs l : iter_pairs (of_pairs l) = l.
Proof. apply zip_fst_snd. Qed.

Lemma of_pairs_wf l : StronglySorted (below fst) l → map_wf (of_pairs l).
Proof. intros H. split; [exact (proj1 (ascending_keys fst l) H)|simpl; by rewrite !length_fmap]. Qed.

Lemma get_value_spec m k v : map_wf m → get_value m k = Some v ↔ (k, v) ∈ iter_pairs m.
Proof.
  intros [Hk Hv]. unfold get_value, position, iter_pairs. rewrite bind_Some, list_elem_of_lookup.
  apply exist_proper. intros i. rewrite (binary_search_spec (keys m) k i Hk), lookup_zip_with.
  destruct (keys m !! i) as [k'|], (values m !! i) as [v'|]; simpl; split; try (by intros ([=] & [=])); try done.
  - by intros ([= ->] & [= ->]).
  - by intros [= -> ->].
Qed.

Lemma get_value_unique m k v w : (k, v) ∈ iter_pairs m → (k, w) ∈ iter_pairs m → map_wf m → v = w.
Proof. intros H1 H2 Hw. apply get_value_spec in H1, H2; [congruence|done..]. Qed.

Lemma map_try_from_iter_duplicate l : ¬ NoDup l.*1 → map_try_from_iter l = Err DuplicateKey.
Proof.
  intros Hn. unfold map_try_from_iter. destruct (Nat.eqb_spec (length (dedup_by_key fst (sort_by_key fst l)))
    (length (sort_by_key fst l))) as [E|]; [|done]. by apply sort_dedup_full in E.
Qed.

Lemma map_try_from_iter_sorted l : NoDup l.*1 → map_try_from_iter l = Ok (of_pairs (sort_by_key fst l)) ∧
  map_wf (of_pairs (sort_by_key fst l)).
Proof.
  intros Hn. unfold map_try_from_iter. rewrite sort_dedup_nodup, Nat.eqb_refl by done. split; [done|].
  apply of_pairs_wf, not_above_nodup; [apply sort_by_key_sorted|]. by rewrite sort_by_key_perm.
Qed.

Lemma head_take_one (x : K * V) l : x ∈ take 1 l ↔ head l = Some x.
Proof. destruct l as [|y l]; simpl; [split; [by intros ?%not_elem_of_nil|done]|]. rewrite list_elem_of_singleton. naive_solver. Qed.

(** a map built from pairs exists exactly when no key is duplicated and then
    maps each key to the value it was paired with; the constructor that tolerates
    duplicates keeps the first value of each key. *)
Theorem ordered_map_correct l :
  (NoDup l.*1 → ∃ m, map_try_from_iter l = Ok m ∧ map_wf m ∧ iter_pairs m ≡ₚ l ∧
    ∀ k v, get_value m k = Some v ↔ (k, v) ∈ l) ∧
  (¬ NoDup l.*1 → map_try_from_iter l = Err DuplicateKey) ∧
  map_wf (map_from_iter_dedup l) ∧
  ∀ k, get_value (map_from_iter_dedup l) k = snd <$> head (with_key fst k l).
Proof.
  split; [|split; [apply map_try_from_iter_duplicate|]].
  { intros Hn. destruct (map_try_from_iter_sorted l Hn) as [E Hw]. eexists. split; [done|].
    split; [done|]. rewrite iter_of_pairs. split; [apply sort_by_key_perm|]. intros k v.
    rewrite get_value_spec, iter_of_pairs by done. by rewrite sort_by_key_perm. }
  destruct (dedup_by_key_spec fst _ (sort_by_key_sorted fst l)) as [Hs Hd]. unfold map_from_iter_dedup.
  pose proof (of_pairs_wf _ Hs) as Hw. split; [done|]. intros k. apply option_eq. intros v.
  rewrite get_value_spec, iter_of_pairs by done.
  specialize (Hd k). rewrite sort_by_key_stable in Hd.
  trans ((k, v) ∈ take 1 (with_key fst k l)).
  - rewrite <- Hd. unfold with_key. rewrite list_elem_of_filter. naive_solver.
  - rewrite head_take_one. destruct (head (with_key fst k l)) as [[k' v']|] eqn:E; simpl; [|done].
    assert ((k', v') ∈ with_key fst k l) as [Hk _]%list_elem_of_filter.
    { destruct (with_key fst k l); [done|]. injection E as ->. constructor. }
    simpl in Hk. subst. naive_solver.
Qed.

(** Writing a value changes that value alone; truncating keeps a map. *)
Lemma set_value_spec m k v : map_wf m →
  match set_value m k v with
  | Some m' => map_wf m' ∧ k ∈ keys m ∧ ∀ j, get_value m' j = if decide (j = k) then Some v else get_value m j
  | None => k ∉ keys m
  end.
Proof.
  intros [Hk Hv]. unfold set_value, get_value, position. destruct (binary_search (keys m) k) as [i|] eqn:E; simpl.
  - apply binary_search_spec in E; [|done]. pose proof (lookup_lt_Some _ _ _ E).
    rewrite (proj2 (Nat.ltb_lt _ _)) by lia. split; [by split; [|simpl; rewrite length_insert]|].
    split; [by eapply list_elem_of_lookup_2|]. intros j. simpl. case_decide as Ej.
    + subst. rewrite (proj2 (binary_search_spec _ _ _ Hk) E). simpl. rewrite list_lookup_insert_eq; [done|lia].
    + destruct (binary_search (keys m) j) as [i'|] eqn:E'; simpl; [|done].
      apply binary_search_spec in E'; [|done]. rewrite list_lookup_insert_ne; [done|]. congruence.
  - by apply binary_search_None.
Qed.

Lemma truncate_wf m n : map_wf m → map_wf (truncate m n) ∧ iter_pairs (truncate m n) = take n (iter_pairs m).
Proof.
  intros [Hk Hv]. split; [split; simpl|].
  - unfold ascending in *. rewrite <- (take_drop n (keys m)) in Hk. by apply StronglySorted_app in Hk as (_ & ? & _).
  - rewrite !length_take, Hv. done.
  - unfold iter_pairs. simpl. clear. revert n. generalize (values m). induction (keys m) as [|k ks IH]; intros [|v vs] [|n]; simpl; try done.
    f_equal. apply IH.
Qed.

Context `{!EqDecision V}.

Lemma no_duplicate_spec (l seen : list V) : no_duplicate seen l = true ↔ NoDup l ∧ ∀ v, v ∈ l → v ∉ seen.
Proof.
  revert seen. induction l as [|v l IH]; intros seen; simpl.
  { split; [|done]. intros _. split; [constructor|]. by intros ? ?%not_elem_of_nil. }
  rewrite NoDup_cons. case_decide as Hv; [split; [done|]; intros [_ H]; exfalso; apply (H v); [constructor|done]|].
  rewrite IH. set_solver.
Qed.

Lemma bimap_try_from_ok m :
  (match bimap_try_from m with Ok _ => true | _ => false end) = true ↔ NoDup (values m).
Proof.
  unfold bimap_try_from. pose proof (no_duplicate_spec (values m) []) as Hn.
  destruct (no_duplicate [] (values m)); [naive_solver|]. split; [done|]. intros Hd.
  apply Hn. split; [done|]. by intros ? _ ?%not_elem_of_nil.
Qed.

(** a map whose values are unique can be read both ways: looking a value up
    finds its key exactly when looking the key up finds the value, and duplicate
    values are rejected. *)
Theorem bimap_inverse m : map_wf m →
  (bimap_try_from m = Ok m ∧ NoDup (values m) ∧ (∀ k v, get_key m v = Some k ↔ get_value m k = Some v)) ∨
  (bimap_try_from m = Err DuplicateValue ∧ ¬ NoDup (values m)).
Proof.
  intros Hw. unfold bimap_try_from. pose proof (no_duplicate_spec (values m) []) as Hn.
  destruct (no_duplicate [] (values m)) eqn:E.
  - left. destruct (proj1 Hn eq_refl) as [Hd _]. split; [done|]. split; [done|]. intros k v.
    unfold get_key, get_value, position. rewrite !bind_Some. apply exist_proper. intros i.
    rewrite binary_search_spec by apply Hw. rewrite fmap_Some. split.
    + intros [([i' w] & (Hi & -> & _)%list_find_Some & ->) Hk]. done.
    + intros [Hk Hv]. split; [|done]. exists (i, v). split; [|done]. apply list_find_Some.
      split; [done|]. split; [done|]. intros j w Hj Hlt ->.
      pose proof (NoDup_lookup _ _ _ _ Hd Hv Hj). lia.
  - right. split; [done|]. intros Hd. discriminate (proj2 Hn). split; [done|]. by intros ? _ ?%not_elem_of_nil.
Qed.
End MapTheorems.

(** ** Codecs *)

Section Codecs.
Context {K V CK CV : Type} (k : codec K CK) (v : codec V CV) `{!Ord K, !EqDecision V}.

(** The loop that compares neighbours. *)
Fixpoint sorted_unique (l : list K) : bool :=
  match l with
  | x :: (y :: _) as l' => match cmp x y with Lt => sorted_unique l' | _ => false end
  | _ => true
  end.
Definition set_codec : codec (Set_ K) (RangeCfg * CK) :=
  checked (vec k) sorted_unique (Invalid "Set" "items must be sorted and unique").

Definition map_write (m : Map K V) : option bytes := write2 (write set_codec (keys m)) (write (vec v) (values m)).
Definition map_encode_size (m : Map K V) : option Z :=
  add_size (encode_size set_codec (keys m)) (encode_size (vec v) (values m)).
Definition map_read_cfg (cfg : RangeCfg * (CK * CV)) (buf : bytes) : result (Map K V * bytes) :=
  let '(range_cfg, (key_cfg, value_cfg)) := cfg in
  let? (ks, buf) := read_cfg set_codec (range_cfg, key_cfg) buf in
  let? (vs, buf) := read_cfg (vec v) (RangeCfg.exact (Z.of_nat (length ks)), value_cfg) buf in
  Ok (mkMap ks vs, buf).
Definition map_codec : codec (Map K V) (RangeCfg * (CK * CV)) := Codec map_write map_encode_size map_read_cfg.

Definition bimap_codec : codec (Map K V) (RangeCfg * (CK * CV)) :=
  checked map_codec (λ m, match bimap_try_from m with Ok _ => true | _ => false end)
    (Invalid "BiMap" "duplicate value detected during deserialization").

Lemma sorted_unique_spec (l : list K) : sorted_unique l = true ↔ ascending l.
Proof.
  unfold ascending. split.
  - intros H. apply Sorted_StronglySorted; [apply klt_trans|]. revert H.
    induction l as [|x [|y l] IH]; [repeat constructor..|]. simpl in *. unfold klt in *.
    destruct (cmp x y) eqn:E; try done. intros H. constructor; [by apply IH|by constructor].
  - induction 1 as [|x l Hs IH Hx]; [done|]. destruct l as [|y l]; [done|].
    change ((match cmp x y with Lt => sorted_unique (y :: l) | _ => false end) = true).
    apply Forall_cons in Hx as [Hxy _]. unfold klt in Hxy. by rewrite Hxy.
Qed.

Context `{!Lawful k, !Lawful v}.

#[export] Instance set_codec_lawful : Lawful set_codec.
Proof. apply checked_lawful. apply _. Defined.

Definition map_admits (cfg : RangeCfg * (CK * CV)) (m : Map K V) : Prop :=
  admits set_codec (cfg.1, cfg.2.1) (keys m) ∧
  admits (vec v) (RangeCfg.exact (Z.of_nat (length (keys m))), cfg.2.2) (values m).

#[export] Instance map_codec_lawful : Lawful map_codec.
Proof.
  refine {| admits := map_admits |}.
  - intros cfg m [H1 H2]. simpl. unfold map_write.
    destruct (codec_write_total (c := set_codec) _ _ H1) as [w1 ->].
    destruct (codec_write_total (c := vec v) _ _ H2) as [w2 ->]. done.
  - intros m w (w1 & w2 & E1 & E2 & ->)%write2_Some. unfold map_codec, map_encode_size. cbn [encode_size].
    pose proof (codec_size (c := set_codec) _ _ E1) as S1. pose proof (codec_size (c := vec v) _ _ E2) as S2.
    rewrite S1, S2, length_app. simpl. f_equal. lia.
  - intros [r [ck cv]] m w rest [H1 H2] (w1 & w2 & E1 & E2 & ->)%write2_Some. cbn [fst snd] in H1, H2.
    unfold map_codec, map_read_cfg. cbn [read_cfg]. rewrite <- app_assoc.
    rewrite (codec_roundtrip (c := set_codec) _ _ w1 _ H1 E1). cbn [obind].
    rewrite (codec_roundtrip (c := vec v) _ _ w2 _ H2 E2). cbn [obind]. by destruct m.
  - intros [r [ck cv]] buf m rest ([ks r1] & E1 & ([vs r2] & E2 & [= <- <-])%obind_Ok)%obind_Ok.
    apply (codec_canonical (c := set_codec)) in E1 as (H1 & w1 & Hw1 & ->).
    apply (codec_canonical (c := vec v)) in E2 as (H2 & w2 & Hw2 & ->).
    split; [done|]. exists (w1 ++ w2). rewrite app_assoc. split; [|done]. apply write2_Some. eauto 6.
  - intros [r [ck cv]] buf. apply obind_no_panic; [apply codec_no_panic|]. intros [ks r1] _.
    apply obind_no_panic; [apply codec_no_panic|]. by intros [].
Defined.

#[export] Instance bimap_codec_lawful : Lawful bimap_codec.
Proof. apply checked_lawful. apply _. Defined.

Lemma exact_contains n m : RangeCfg.contains (RangeCfg.exact n) m = true ↔ m = n.
Proof. rewrite RangeCfg.contains_spec. simpl. lia. Qed.

Lemma map_admits_wf `{!EqDecision K} cfg m : map_admits cfg m → map_wf m.
Proof.
  intros [[_ Hs] [[_ Hl] _]]. apply sorted_unique_spec in Hs. split; [done|].
  apply exact_contains in Hl. lia.
Qed.

(** an ordered map decodes exactly from the encoding of a map whose keys are
    strictly ascending and which has one value per key; as a [BiMap] its values
    must be unique too.  Untrusted bytes never yield a map that is not well
    formed. *)
Theorem ordered_decode_iff `{!EqDecision K} cfg m buf :
  (decode_cfg map_codec buf cfg ≠ Panic ∧ decode_cfg bimap_codec buf cfg ≠ Panic) ∧
  (decode_cfg map_codec buf cfg = Ok m ↔ map_admits cfg m ∧ encode map_codec m = Some buf) ∧
  (decode_cfg map_codec buf cfg = Ok m → map_wf m) ∧
  (decode_cfg bimap_codec buf cfg = Ok m ↔ decode_cfg map_codec buf cfg = Ok m ∧ NoDup (values m)).
Proof.
  destruct (decode_iff map_codec cfg m buf) as [M1 M2], (decode_iff bimap_codec cfg m buf) as [B1 B2].
  split; [done|]. split; [done|]. split; [intros [H _]%M2; by eapply map_admits_wf|].
  rewrite B2, M2, !encode_write by apply _. simpl.
  rewrite (bimap_try_from_ok m). tauto.
Qed.
End Codecs.

(** ** Instances *)

Lemma set_positions_correct_witness : position [2; 5; 9] 5 = Some 1%nat ∧ position [2; 5; 9] 9 = Some 2%nat.
Proof.
  destruct (set_positions_correct [9; 2; 5] [2; 5; 9]) as (_ & _ & H). specialize (H eq_refl).
  split; by apply H.
Defined.

Definition demo_pairs : list (Z * Z) := [(9, 1); (2, 7); (5, 3)].

Lemma demo_pairs_nodup : NoDup demo_pairs.*1.
Proof. apply (bool_decide_unpack _). vm_compute. exact I. Qed.

Lemma ordered_map_correct_witness : map_try_from_iter (demo_pairs ++ [(2, 4)]) = Err DuplicateKey ∧
  ∃ m, map_try_from_iter demo_pairs = Ok m ∧ get_value m 5 = Some 3.
Proof.
  split.
  - destruct (ordered_map_correct (demo_pairs ++ [(2, 4)])) as (_ & H & _). apply H.
    apply (bool_decide_unpack _). vm_compute. exact I.
  - destruct (ordered_map_correct demo_pairs) as (H & _).
    destruct (H demo_pairs_nodup) as (m & Hm & _ & _ & Hg). exists m. split; [done|].
    apply Hg. apply (bool_decide_unpack _). vm_compute. exact I.
Defined.

Definition demo_map : Map Z Z := mkMap [2; 5; 9] [7; 3; 1].

Lemma demo_map_wf : map_wf demo_map.
Proof. split; [|done]. apply sorted_unique_spec. reflexivity. Qed.

Lemma bimap_inverse_witness : bimap_try_from demo_map = Ok demo_map ∧ get_key demo_map 3 = Some 5.
Proof.
  destruct (bimap_inverse demo_map demo_map_wf) as [(H1 & _ & H2)|[H _]]; [|discriminate H].
  split; [exact H1|]. apply H2. reflexivity.
Defined.

(** The encoding of a map whose values repeat: a [Map], not a [BiMap]. *)
Definition demo_bytes : bytes := byte.of_Z <$> [2; 3; 8; 2; 1; 1].

Lemma ordered_decode_iff_witness :
  decode_cfg (map_codec u8 u8) demo_bytes (RangeCfg.exact 2, (tt, tt)) = Ok (mkMap [3; 8] [1; 1]) ∧
  decode_cfg (bimap_codec u8 u8) demo_bytes (RangeCfg.exact 2, (tt, tt)) ≠ Ok (mkMap [3; 8] [1; 1]) ∧
  map_wf (mkMap [3; 8] [1; 1]).
Proof.
  destruct (ordered_decode_iff u8 u8 (RangeCfg.exact 2, (tt, tt)) (mkMap [3; 8] [1; 1]) demo_bytes)
    as (_ & _ & Hw & Hb).
  assert (decode_cfg (map_codec u8 u8) demo_bytes (RangeCfg.exact 2, (tt, tt)) = Ok (mkMap [3; 8] [1; 1])) as E
    by (vm_compute; reflexivity).
  split; [exact E|]. split; [|exact (Hw E)]. intros [_ H]%Hb. by apply (bool_decide_pack _) in H.
Defined.
End Ordered.
