(* ===== verification/SimplexTypes.v ===== *)
(** * Simplex messages (consensus/src/simplex/types.rs)

    Proposals, votes, certificates and the artifacts the voter journals, with
    their codecs.  The generic parameters of the
    code (the digest, and the signature and certificate types of the signing
    scheme, with their codecs) are the class [Types] and section variables. *)

From S2P Require Import Prelude Codec Varint CodecTypes CodecRecords ConsensusTypes.
Import CodecTypes CodecRecords.

(** The associated types of a signing scheme, and the digest of payloads. *)
Class Types : Type := {
  Digest : Type;
  Signature : Type;
  Certificate : Type;
  PublicKey : Type;
  #[global] Digest_eq_dec :: EqDecision Digest;
}.

Section Data.
Context {T : Types}.

Record Proposal : Type := mkProposal { round : Rnd; parent : Z; payload : Digest }.

#[export] Instance Proposal_eq_dec : EqDecision Proposal.
Proof. solve_decision. Defined.

Record Context_ : Type := mkContext {
  ctx_round : Rnd; ctx_leader : PublicKey; ctx_parent : Z * Digest }.

(** cryptography/src/certificate.rs *)
Record Attestation : Type := mkAttestation { signer : Z; signature : Signature }.

Inductive Subject : Type :=
| SNotarize (proposal : Proposal)
| SNullify (round : Rnd)
| SFinalize (proposal : Proposal).

Record Notarize : Type := mkNotarize { nt_proposal : Proposal; nt_attestation : Attestation }.
Record Nullify : Type := mkNullify { nl_round : Rnd; nl_attestation : Attestation }.
Record Finalize : Type := mkFinalize { fz_proposal : Proposal; fz_attestation : Attestation }.
Record Notarization : Type := mkNotarization { nz_proposal : Proposal; nz_certificate : Certificate }.
Record Nullification : Type := mkNullification { nlz_round : Rnd; nlz_certificate : Certificate }.
Record Finalization : Type := mkFinalization { fzz_proposal : Proposal; fzz_certificate : Certificate }.

Inductive Vote : Type :=
| VNotarize (v : Notarize)
| VNullify (v : Nullify)
| VFinalize (v : Finalize).

Inductive Cert : Type :=
| CNotarization (v : Notarization)
| CNullification (v : Nullification)
| CFinalization (v : Finalization).

Inductive Artifact : Type :=
| ANotarize (v : Notarize)
| ANotarization (v : Notarization)
| ACertification (r : Rnd) (success : bool)
| ANullify (v : Nullify)
| ANullification (v : Nullification)
| AFinalize (v : Finalize)
| AFinalization (v : Finalization).

(** [Viewable]. *)
Definition proposal_view (p : Proposal) : Z := rnd_view (round p).
Definition subject_view (s : Subject) : Z :=
  match s with
  | SNotarize p => proposal_view p
  | SNullify r => rnd_view r
  | SFinalize p => proposal_view p
  end.
Definition vote_view (v : Vote) : Z :=
  match v with
  | VNotarize v => proposal_view (nt_proposal v)
  | VNullify v => rnd_view (nl_round v)
  | VFinalize v => proposal_view (fz_proposal v)
  end.
Definition cert_view (c : Cert) : Z :=
  match c with
  | CNotarization v => proposal_view (nz_proposal v)
  | CNullification v => rnd_view (nlz_round v)
  | CFinalization v => proposal_view (fzz_proposal v)
  end.
Definition artifact_view (a : Artifact) : Z :=
  match a with
  | ANotarize v => proposal_view (nt_proposal v)
  | ANotarization v => proposal_view (nz_proposal v)
  | ACertification r _ => rnd_view r
  | ANullify v => rnd_view (nl_round v)
  | ANullification v => rnd_view (nlz_round v)
  | AFinalize v => proposal_view (fz_proposal v)
  | AFinalization v => proposal_view (fzz_proposal v)
  end.

(** What the code uses of a signing scheme. *)
Record Scheme : Type := mkScheme {
  me : option Z;
  participants : list PublicKey;
  sign : bytes → Subject → option Attestation;
  assemble : list Attestation → option Certificate;
}.

Definition Notarize_sign (s : Scheme) (namespace : bytes) (p : Proposal) : option Notarize :=
  a ← sign s namespace (SNotarize p); Some (mkNotarize p a).
Definition Nullify_sign (s : Scheme) (namespace : bytes) (r : Rnd) : option Nullify :=
  a ← sign s namespace (SNullify r); Some (mkNullify r a).
Definition Finalize_sign (s : Scheme) (namespace : bytes) (p : Proposal) : option Finalize :=
  a ← sign s namespace (SFinalize p); Some (mkFinalize p a).

Definition from_notarizes (s : Scheme) (l : list Notarize) : option Notarization :=
  first ← head l;
  c ← assemble s (nt_attestation <$> l);
  Some (mkNotarization (nt_proposal first) c).
Definition from_nullifies (s : Scheme) (l : list Nullify) : option Nullification :=
  first ← head l;
  c ← assemble s (nl_attestation <$> l);
  Some (mkNullification (nl_round first) c).
Definition from_finalizes (s : Scheme) (l : list Finalize) : option Finalization :=
  first ← head l;
  c ← assemble s (fz_attestation <$> l);
  Some (mkFinalization (fz_proposal first) c).
End Data.

(** ** Codecs *)

Module SimplexCodec.
Section Codecs.
Context {T : Types} {CCfg : Type}.
Context (digest : codec Digest unit) (sig : codec Signature unit) (cert : codec Certificate CCfg).

Definition proposal_codec : codec Proposal unit :=
  iso_codec (tuple2 Rnd.codec (tuple2 View.codec digest))
    (λ '(r, (p, d)), mkProposal r p d) (λ x, (round x, (parent x, payload x)))
    (λ _, (tt, (tt, tt))).
Definition attestation_codec : codec Attestation unit :=
  iso_codec (tuple2 (Varint.UInt 4) sig)
    (λ '(i, s), mkAttestation i s) (λ x, (signer x, signature x)) (λ _, (tt, tt)).
Definition notarize_codec : codec Notarize unit :=
  iso_codec (tuple2 proposal_codec attestation_codec)
    (λ '(p, a), mkNotarize p a) (λ x, (nt_proposal x, nt_attestation x)) (λ _, (tt, tt)).
Definition nullify_codec : codec Nullify unit :=
  iso_codec (tuple2 Rnd.codec attestation_codec)
    (λ '(r, a), mkNullify r a) (λ x, (nl_round x, nl_attestation x)) (λ _, (tt, tt)).
Definition finalize_codec : codec Finalize unit :=
  iso_codec (tuple2 proposal_codec attestation_codec)
    (λ '(p, a), mkFinalize p a) (λ x, (fz_proposal x, fz_attestation x)) (λ _, (tt, tt)).
Definition notarization_codec : codec Notarization CCfg :=
  iso_codec (tuple2 proposal_codec cert)
    (λ '(p, c), mkNotarization p c) (λ x, (nz_proposal x, nz_certificate x)) (λ cfg, (tt, cfg)).
Definition nullification_codec : codec Nullification CCfg :=
  iso_codec (tuple2 Rnd.codec cert)
    (λ '(r, c), mkNullification r c) (λ x, (nlz_round x, nlz_certificate x)) (λ cfg, (tt, cfg)).
Definition finalization_codec : codec Finalization CCfg :=
  iso_codec (tuple2 proposal_codec cert)
    (λ '(p, c), mkFinalization p c) (λ x, (fzz_proposal x, fzz_certificate x)) (λ cfg, (tt, cfg)).

Definition vote_tagged : tagged Vote unit := Tagged
  (λ v, match v with VNotarize _ => 0 | VNullify _ => 1 | VFinalize _ => 2 end)
  (λ v, match v with
    | VNotarize v => write notarize_codec v
    | VNullify v => write nullify_codec v
    | VFinalize v => write finalize_codec v
    end)
  (λ v, match v with
    | VNotarize v => encode_size notarize_codec v
    | VNullify v => encode_size nullify_codec v
    | VFinalize v => encode_size finalize_codec v
    end)
  (λ tag cfg buf,
    if tag =? 0 then variant notarize_codec VNotarize tt buf
    else if tag =? 1 then variant nullify_codec VNullify tt buf
    else if tag =? 2 then variant finalize_codec VFinalize tt buf
    else Err (Invalid "consensus::simplex::Vote" "Invalid type")).
Definition vote_codec : codec Vote unit := enum_codec vote_tagged.

Definition cert_tagged : tagged Cert CCfg := Tagged
  (λ v, match v with CNotarization _ => 0 | CNullification _ => 1 | CFinalization _ => 2 end)
  (λ v, match v with
    | CNotarization v => write notarization_codec v
    | CNullification v => write nullification_codec v
    | CFinalization v => write finalization_codec v
    end)
  (λ v, match v with
    | CNotarization v => encode_size notarization_codec v
    | CNullification v => encode_size nullification_codec v
    | CFinalization v => encode_size finalization_codec v
    end)
  (λ tag cfg buf,
    if tag =? 0 then variant notarization_codec CNotarization cfg buf
    else if tag =? 1 then variant nullification_codec CNullification cfg buf
    else if tag =? 2 then variant finalization_codec CFinalization cfg buf
    else Err (Invalid "consensus::simplex::Certificate" "Invalid type")).
Definition cert_codec : codec Cert CCfg := enum_codec cert_tagged.

Definition artifact_tagged : tagged Artifact CCfg := Tagged
  (λ a, match a with
    | ANotarize _ => 0 | ANotarization _ => 1 | ACertification _ _ => 2 | ANullify _ => 3
    | ANullification _ => 4 | AFinalize _ => 5 | AFinalization _ => 6
    end)
  (λ a, match a with
    | ANotarize v => write notarize_codec v
    | ANotarization v => write notarization_codec v
    | ACertification r b => write (tuple2 Rnd.codec bool_codec) (r, b)
    | ANullify v => write nullify_codec v
    | ANullification v => write nullification_codec v
    | AFinalize v => write finalize_codec v
    | AFinalization v => write finalization_codec v
    end)
  (λ a, match a with
    | ANotarize v => encode_size notarize_codec v
    | ANotarization v => encode_size notarization_codec v
    | ACertification r b => encode_size (tuple2 Rnd.codec bool_codec) (r, b)
    | ANullify v => encode_size nullify_codec v
    | ANullification v => encode_size nullification_codec v
    | AFinalize v => encode_size finalize_codec v
    | AFinalization v => encode_size finalization_codec v
    end)
  (λ tag cfg buf,
    if tag =? 0 then variant notarize_codec ANotarize tt buf
    else if tag =? 1 then variant notarization_codec ANotarization cfg buf
    else if tag =? 2 then
      variant (tuple2 Rnd.codec bool_codec) (λ '(r, b), ACertification r b) (tt, tt) buf
    else if tag =? 3 then variant nullify_codec ANullify tt buf
    else if tag =? 4 then variant nullification_codec ANullification cfg buf
    else if tag =? 5 then variant finalize_codec AFinalize tt buf
    else if tag =? 6 then variant finalization_codec AFinalization cfg buf
    else Err (Invalid "consensus::simplex::Artifact" "Invalid type")).
Definition artifact_codec : codec Artifact CCfg := enum_codec artifact_tagged.

Context `{!Lawful digest, !Lawful sig, !Lawful cert}.

#[local] Instance u32_varint_lawful : Lawful (Varint.UInt 4) := Varint.UInt_lawful 4 eq_refl.

#[export] Instance proposal_lawful : Lawful proposal_codec.
Proof. apply iso_lawful; [apply _|by intros []|by intros (? & ? & ?)]. Defined.
#[export] Instance attestation_lawful : Lawful attestation_codec.
Proof. apply iso_lawful; [apply _|by intros []|by intros []]. Defined.
#[export] Instance notarize_lawful : Lawful notarize_codec.
Proof. apply iso_lawful; [apply _|by intros []|by intros []]. Defined.
#[export] Instance nullify_lawful : Lawful nullify_codec.
Proof. apply iso_lawful; [apply _|by intros []|by intros []]. Defined.
#[export] Instance finalize_lawful : Lawful finalize_codec.
Proof. apply iso_lawful; [apply _|by intros []|by intros []]. Defined.
#[export] Instance notarization_lawful : Lawful notarization_codec.
Proof. apply iso_lawful; [apply _|by intros []|by intros []]. Defined.
#[export] Instance nullification_lawful : Lawful nullification_codec.
Proof. apply iso_lawful; [apply _|by intros []|by intros []]. Defined.
#[export] Instance finalization_lawful : Lawful finalization_codec.
Proof. apply iso_lawful; [apply _|by intros []|by intros []]. Defined.

#[export] Instance vote_tagged_lawful : TaggedLawful vote_tagged.
Proof.
  refine {| t_admits _ v := match v with
    | VNotarize v => admits notarize_codec tt v
    | VNullify v => admits nullify_codec tt v
    | VFinalize v => admits finalize_codec tt v
    end |}; cbn [t_tag t_write t_size t_read vote_tagged].
  - intros []; by unfold fits.
  - intros cfg [] H; exact (codec_write_total _ _ H).
  - intros [] w H; exact (codec_size _ _ H).
  - intros cfg [] w rest Ha Hw; solve_tagged.
  - intros tag cfg buf b rest H. solve_tagged.
  - intros tag cfg buf. solve_tagged.
Defined.

#[export] Instance cert_tagged_lawful : TaggedLawful cert_tagged.
Proof.
  refine {| t_admits cfg v := match v with
    | CNotarization v => admits notarization_codec cfg v
    | CNullification v => admits nullification_codec cfg v
    | CFinalization v => admits finalization_codec cfg v
    end |}; cbn [t_tag t_write t_size t_read cert_tagged].
  - intros []; by unfold fits.
  - intros cfg [] H; exact (codec_write_total _ _ H).
  - intros [] w H; exact (codec_size _ _ H).
  - intros cfg [] w rest Ha Hw; solve_tagged.
  - intros tag cfg buf b rest H. solve_tagged.
  - intros tag cfg buf. solve_tagged.
Defined.

#[export] Instance artifact_tagged_lawful : TaggedLawful artifact_tagged.
Proof.
  refine {| t_admits cfg a := match a with
    | ANotarize v => admits notarize_codec tt v
    | ANotarization v => admits notarization_codec cfg v
    | ACertification r b => admits (tuple2 Rnd.codec bool_codec) (tt, tt) (r, b)
    | ANullify v => admits nullify_codec tt v
    | ANullification v => admits nullification_codec cfg v
    | AFinalize v => admits finalize_codec tt v
    | AFinalization v => admits finalization_codec cfg v
    end |}; cbn [t_tag t_write t_size t_read artifact_tagged].
  - intros []; by unfold fits.
  - intros cfg [] H; exact (codec_write_total _ _ H).
  - intros [] w H; exact (codec_size _ _ H).
  - intros cfg [] w rest Ha Hw; solve_tagged.
  - intros tag cfg buf b rest H. solve_tagged.
  - intros tag cfg buf. solve_tagged.
Defined.
End Codecs.
End SimplexCodec.
