(* ===== verification/Elector.v ===== *)
(** * Leader election (consensus/src/simplex/elector.rs)

    [RoundRobin] rotates through a permutation of the participants, [Random]
    reduces the seed of a threshold certificate modulo their number.  The hash
    function of the shuffle and the encoding of a seed are parameters. *)

From S2P Require Import Prelude Codec CodecTypes CodecOrdered ConsensusTypes Ordered SimplexTypes.
Import CodecTypes CodecOrdered.

Module Elector.

(** ** Round robin *)

Section RoundRobin.
Context {P Dg : Type} (hash : bytes → Dg) `{!Ord Dg}.

Record RoundRobin : Type := mkRoundRobin { seed : option bytes }.
Record RoundRobinElector : Type := mkRoundRobinElector { permutation : list Z }.

(** The key of the shuffle: the hasher is reset by [finalize]. *)
Definition shuffle_key (s : bytes) (index : Z) : Dg := hash (s ++ put_be 4 index).

(** [None]: the assertion that there are participants fails. *)
Definition build (c : RoundRobin) (participants : list P) : option RoundRobinElector :=
  if (length participants =? 0)%nat then None
  else
    let permutation := seqZ 0 (wrap 32 (Z.of_nat (length participants))) in
    let permutation :=
      match seed c with
      | Some s => Ordered.sort_by_key (shuffle_key s) permutation
      | None => permutation
      end in
    Some (mkRoundRobinElector permutation).

(** [None]: the division or the index fails. *)
Definition elect (e : RoundRobinElector) (rd : Rnd) : option Z :=
  let n := Z.of_nat (length (permutation e)) in
  if n =? 0 then None
  else
    let idx := wrap 64 (rnd_epoch rd + rnd_view rd) mod n in
    permutation e !! Z.to_nat idx.
End RoundRobin.

(** ** Random *)

(** [seed_signature] is the encoding of the seed of a certificate; the
    outer option is a panic. *)
Definition select_leader (rd : Rnd) (n : Z) (seed_signature : option bytes) : option Z :=
  match seed_signature with
  | None =>
      if negb (rnd_view rd =? 1) then None
      else if n =? 0 then None
      else Some (wrap 32 (wrap 64 (rnd_epoch rd + rnd_view rd) mod n))
  | Some b => wrap 32 <$> modulo b (wrap 64 n)
  end.

Record RandomElector : Type := mkRandomElector { re_n : Z }.
Definition random_build {P} (participants : list P) : option RandomElector :=
  if (length participants =? 0)%nat then None
  else Some (mkRandomElector (Z.of_nat (length participants))).
Definition random_elect {C} (seed_of : C → bytes) (e : RandomElector) (rd : Rnd) (certificate : option C)
    : option Z :=
  select_leader rd (re_n e) (seed_of <$> certificate).

(** ** Lemmas *)

Section Rotation.
Context (n : Z).

(** Consecutive numbers have all the remainders once. *)
Lemma rotation_permutation s : 0 < n → (λ i, (s + i) mod n) <$> seqZ 0 n ≡ₚ seqZ 0 n.
Proof.
  intros Hn. apply submseteq_length_Permutation; [|by rewrite length_fmap].
  apply NoDup_submseteq.
  - apply NoDup_fmap_2_strong; [|apply NoDup_seqZ]. intros x y [? ?]%elem_of_seqZ [? ?]%elem_of_seqZ E.
    assert (n * ((s + x) / n) + (s + x) mod n = s + x) by (symmetry; apply Z.div_mod; lia).
    assert (n * ((s + y) / n) + (s + y) mod n = s + y) by (symmetry; apply Z.div_mod; lia).
    assert (x - y = n * ((s + x) / n - (s + y) / n)) by lia.
    assert (-1 < (s + x) / n - (s + y) / n < 1) by nia. nia.
  - intros x (i & -> & [? ?]%elem_of_seqZ)%list_elem_of_fmap. apply elem_of_seqZ.
    pose proof (Z.mod_pos_bound (s + i) n Hn). lia.
Qed.
End Rotation.

Lemma fmap_lookup_seqZ {A} (l : list A) : (λ i, l !! Z.to_nat i) <$> seqZ 0 (Z.of_nat (length l)) = Some <$> l.
Proof.
  apply list_eq. intros i. rewrite !list_lookup_fmap.
  destruct (decide (i < length l)%nat) as [Hi|Hi].
  - rewrite lookup_seqZ_lt by lia. simpl. rewrite Z.add_0_l, Nat2Z.id.
    by destruct (lookup_lt_is_Some_2 l i Hi) as [x ->].
  - rewrite lookup_seqZ_ge, lookup_ge_None_2 by lia. done.
Qed.

Section RoundRobinProperties.
Context {P Dg : Type} (hash : bytes → Dg) `{!Ord Dg}.
Implicit Types ps : list P.

Lemma build_permutation c ps e : Z.of_nat (length ps) < 2 ^ 32 → build hash c ps = Some e →
  permutation e ≡ₚ seqZ 0 (Z.of_nat (length ps)) ∧ ps ≠ [].
Proof.
  intros Hl. unfold build. destruct (Nat.eqb_spec (length ps) 0) as [|Hne]; [done|].
  rewrite wrap_small by (unfold fits; lia). intros [= <-]. simpl.
  split; [|by intros ->]. destruct (seed c); [apply Ordered.sort_by_key_perm|done].
Qed.

Lemma elect_lookup c ps e rd : Z.of_nat (length ps) < 2 ^ 32 → build hash c ps = Some e →
  elect e rd = permutation e !! Z.to_nat (wrap 64 (rnd_epoch rd + rnd_view rd) mod Z.of_nat (length ps)) ∧
  length (permutation e) = length ps.
Proof.
  intros Hl He. destruct (build_permutation c ps e Hl He) as [Hp Hne].
  assert (length (permutation e) = length ps) as E by (rewrite Hp, length_seqZ; lia).
  split; [|done]. unfold elect. rewrite E. destruct ps; [done|]. done.
Qed.

(** round robin can be built for any non-empty participant set and elects a
    participant in every round, and in as many consecutive views as there are
    participants each of them exactly once, whatever the shuffle. *)
Theorem round_robin_fair c ps :
  Z.of_nat (length ps) < 2 ^ 32 → ps ≠ [] → ∃ e, build hash c ps = Some e ∧
  (∀ rd, ∃ i, elect e rd = Some i ∧ is_Some (ps !! Z.to_nat i)) ∧
  ∀ ep v, 0 ≤ ep → 0 ≤ v → ep + v + Z.of_nat (length ps) ≤ 2 ^ 64 →
    (λ k, elect e (mkRnd ep (v + k))) <$> seqZ 0 (Z.of_nat (length ps)) ≡ₚ Some <$> seqZ 0 (Z.of_nat (length ps)).
Proof.
  intros Hl Hne. destruct (build hash c ps) as [e|] eqn:He.
  2:{ unfold build in He. destruct ps; [done|]. done. }
  exists e. split; [done|]. destruct (build_permutation c ps e Hl He) as [Hp _].
  assert (0 < Z.of_nat (length ps)) as Hpos by (destruct ps; [done|]; simpl; lia). split.
  - intros rd. destruct (elect_lookup c ps e rd Hl He) as [-> Elen].
    set (x := wrap 64 _ mod _). pose proof (Z.mod_pos_bound (wrap 64 (rnd_epoch rd + rnd_view rd)) _ Hpos).
    destruct (lookup_lt_is_Some_2 (permutation e) (Z.to_nat x)) as [i Hi]; [lia|]. exists i. split; [done|].
    apply list_elem_of_lookup_2 in Hi. rewrite Hp in Hi. apply elem_of_seqZ in Hi. apply lookup_lt_is_Some. lia.
  - intros ep v Hep Hv Hmax.
    assert ((λ k, elect e (mkRnd ep (v + k))) <$> seqZ 0 (Z.of_nat (length ps)) =
      (λ i, permutation e !! Z.to_nat i) <$> ((λ k, (ep + v + k) mod Z.of_nat (length ps)) <$> seqZ 0 (Z.of_nat (length ps)))) as ->.
    { rewrite <- list_fmap_compose. apply list_fmap_ext. intros j k Hj. simpl.
      apply list_elem_of_lookup_2, elem_of_seqZ in Hj.
      destruct (elect_lookup c ps e (mkRnd ep (v + k)) Hl He) as [-> _]. simpl.
      rewrite wrap_small by (unfold fits; lia). do 3 f_equal. lia. }
    rewrite rotation_permutation by done. destruct (elect_lookup c ps e (mkRnd 0 0) Hl He) as [_ <-].
    rewrite fmap_lookup_seqZ. rewrite Hp at 1. by rewrite Hp, length_seqZ, Z2Nat.id by lia.
Qed.
End RoundRobinProperties.

(** the random elector returns a participant whenever it is asked as the
    protocol asks it, and panics only when the certificate is missing in a view
    other than the first; with a certificate the leader is its seed, read as a
    big-endian number, modulo the number of participants. *)
Theorem random_elect_correct {P C} (seed_of : C → bytes) (ps : list P) rd certificate :
  Z.of_nat (length ps) < 2 ^ 32 → ps ≠ [] → ∃ e, random_build ps = Some e ∧
  (random_elect seed_of e rd certificate = None ↔ certificate = None ∧ rnd_view rd ≠ 1) ∧
  (∀ i, random_elect seed_of e rd certificate = Some i → is_Some (ps !! Z.to_nat i)) ∧
  ∀ c, certificate = Some c →
    random_elect seed_of e rd certificate = Some (get_be (seed_of c) mod Z.of_nat (length ps)).
Proof.
  intros Hl Hne. assert (0 < Z.of_nat (length ps)) as Hpos by (destruct ps; [done|]; simpl; lia).
  exists (mkRandomElector (Z.of_nat (length ps))).
  split; [unfold random_build; destruct ps; [done|]; done|]. unfold random_elect, select_leader. simpl.
  rewrite (wrap_small 64) by (unfold fits; lia).
  assert (∀ x, fits 32 (x mod Z.of_nat (length ps)) ∧ is_Some (ps !! Z.to_nat (x mod Z.of_nat (length ps)))) as Hmod.
  { intros x. pose proof (Z.mod_pos_bound x _ Hpos). split; [unfold fits; lia|]. apply lookup_lt_is_Some. lia. }
  destruct certificate as [c|]; simpl.
  - rewrite modulo_spec by lia. simpl. destruct (Hmod (get_be (seed_of c))) as [Hf Hs].
    rewrite wrap_small by done. split; [split; [done|intros [? _]; done]|].
    split; [by intros i [= <-]|by intros ? [= <-]].
  - destruct (Z.eqb_spec (rnd_view rd) 1) as [E|E]; simpl.
    + destruct (Z.eqb_spec (Z.of_nat (length ps)) 0); [lia|]. destruct (Hmod (wrap 64 (rnd_epoch rd + rnd_view rd))) as [Hf Hs].
      rewrite wrap_small by done. split; [split; [done|intros [_ ?]; done]|]. split; [by intros i [= <-]|done].
    + done.
Qed.
(** Four participants, shuffled by a checksum of the seed. *)
Definition demo_hash (b : bytes) : Z := (get_be b * 7919) mod 97.

Lemma round_robin_fair_witness : ∃ e, build demo_hash (mkRoundRobin (Some [byte.of_Z 5])) [10; 11; 12; 13] = Some e ∧
  permutation e ≠ [0; 1; 2; 3] ∧
  (λ k, elect e (mkRnd 0 (9 + k))) <$> seqZ 0 4 ≡ₚ Some <$> seqZ 0 4.
Proof.
  destruct (round_robin_fair demo_hash (mkRoundRobin (Some [byte.of_Z 5])) [10; 11; 12; 13] eq_refl ltac:(done))
    as (e & He & _ & H).
  exists e. split; [exact He|]. split; [|refine (H 0 9 _ _ _); simpl; lia].
  vm_compute in He. injection He as <-. vm_compute. discriminate.
Defined.

Lemma random_elect_correct_witness : ∃ e, random_build [10; 11; 12; 13] = Some e ∧
  random_elect (λ c : bytes, c) e (mkRnd 0 7) (Some [byte.of_Z 1; byte.of_Z 44]) = Some (300 mod 4).
Proof.
  destruct (random_elect_correct (λ c : bytes, c) [10; 11; 12; 13] (mkRnd 0 7) (Some [byte.of_Z 1; byte.of_Z 44])
    eq_refl ltac:(done)) as (e & He & _ & _ & H).
  exists e. split; [exact He|]. exact (H _ eq_refl).
Defined.
End Elector.
