(* ===== verification/Fixtures.v ===== *)
(** * A concrete instance of the simplex parameters

    Digests, keys, signatures and certificates are numbers and lists of numbers;
    the scheme of participant [i] signs every subject in its own name.  The
    witnesses of the voter's theorems evaluate the model on it. *)

From S2P Require Import Prelude Codec ConsensusTypes SimplexTypes.

Module Fixtures.
#[global] Instance types : Types := {|
  Digest := Z; Signature := Z; Certificate := list Z; PublicKey := Z |}.

Definition sign_as (i : Z) (namespace : bytes) (s : Subject) : option Attestation :=
  Some (mkAttestation i (100 * i + subject_view s)).

Definition scheme (i : Z) : Scheme :=
  mkScheme (Some i) [10; 11; 12; 13] (sign_as i) (λ l, Some (signature <$> l)).

Definition rnd (view : Z) : Rnd := mkRnd 0 view.
Definition proposal (view payload : Z) : Proposal := mkProposal (rnd view) (view - 1) payload.

Lemma sign_as_me i namespace subject : ∃ a,
  sign (scheme i) namespace subject = Some a ∧ me (scheme i) = Some (signer a).
Proof. by eexists. Qed.
End Fixtures.
