(* ===== verification/SimplexEvidence.v ===== *)
(** * Vote tracking, evidence and catch-up messages of simplex
      (consensus/src/simplex/types.rs)

    [AttributableMap] and [VoteTracker] keep one vote per signer; the evidence
    types, [Activity] and the [Backfiller] messages come with their codecs.  The
    verification half of a signing scheme is the record [Verifier]; the
    randomness it is passed in the code is part of it. *)

From S2P Require Import Prelude Codec Varint CodecTypes CodecRecords ConsensusTypes SimplexTypes.
Import CodecTypes CodecRecords SimplexCodec.

(** ** One vote per signer *)

Section Tracker.
Context {A : Type}.

Record AttributableMap : Type := mkMap { am_data : list (option A); am_added : Z }.
End Tracker.
Arguments AttributableMap A : clear implicits.

Module AttributableMap.
Section Ops.
Context {A : Type} (signer : A → Z).
Implicit Types m : AttributableMap A.

Definition new (participants : nat) : AttributableMap A := mkMap (replicate participants None) 0.
Definition clear m : AttributableMap A := mkMap (replicate (length (am_data m)) None) 0.
Definition insert m (item : A) : AttributableMap A * bool :=
  let index := Z.to_nat (signer item) in
  match am_data m !! index with
  | None => (m, false)
  | Some (Some _) => (m, false)
  | Some None => (mkMap (<[index := Some item]> (am_data m)) (am_added m + 1), true)
  end.
Definition len m : Z := am_added m.
Definition is_empty m : bool := am_added m =? 0.
Definition get m (s : Z) : option A := mjoin (am_data m !! Z.to_nat s).
Definition iter m : list A := omap id (am_data m).

(** The items in the order they were offered; [insert_all] keeps the accepted
    ones. *)
Definition insert_all m (items : list A) : AttributableMap A :=
  fold_left (λ m x, (insert m x).1) items m.

(** The first item offered by each signer. *)
Definition first_of (items : list A) (s : Z) : option A :=
  head (filter (λ x, signer x = s) items).

(** [added] counts the entries, and an entry is stored at its signer. *)
Record wf m : Prop := {
  wf_added : am_added m = Z.of_nat (length (iter m));
  wf_signer i x : am_data m !! i = Some (Some x) → Z.to_nat (signer x) = i;
}.

Lemma iter_insert (l : list (option A)) i x : l !! i = Some None →
  length (omap id (<[i := Some x]> l)) = S (length (omap id l)).
Proof.
  revert i. induction l as [|o l IH]; intros [|i]; simpl; try done.
  - by intros [= ->].
  - intros H. specialize (IH i H). unfold omap in IH. destruct o; simpl; lia.
Qed.

Lemma iter_replicate n : omap id (replicate n (@None A)) = [].
Proof. by induction n. Qed.

Lemma iter_length m : (length (iter m) ≤ length (am_data m))%nat.
Proof.
  unfold iter. induction (am_data m) as [|[x|] l IH]; simpl; [lia|..]; unfold omap in IH; lia.
Qed.

Lemma map_new_wf n : wf (new n).
Proof.
  split; simpl; [unfold iter; simpl; by rewrite iter_replicate|].
  intros i x H. apply lookup_replicate in H as [? _]. done.
Qed.

Lemma insert_wf m x : wf m → wf (insert m x).1.
Proof.
  intros [Ha Hs]. unfold insert. destruct (am_data m !! Z.to_nat (signer x)) as [[y|]|] eqn:E;
    [done| |done]. split; simpl.
  - unfold iter in *. simpl. rewrite iter_insert by done. lia.
  - intros i z. rewrite list_lookup_insert_Some. intros [(<- & [= <-] & _)|[_ H]]; [done|].
    by apply Hs.
Qed.

Lemma insert_length m x : length (am_data (insert m x).1) = length (am_data m).
Proof. unfold insert. repeat case_match; simpl; [done|by rewrite length_insert|done]. Qed.

Lemma insert_get m x s : 0 ≤ s → 0 ≤ signer x → s < Z.of_nat (length (am_data m)) →
  get (insert m x).1 s =
    match get m s with
    | Some y => Some y
    | None => if decide (signer x = s) then Some x else None
    end.
Proof.
  intros Hs Hx Hl. unfold insert, get.
  destruct (lookup_lt_is_Some_2 (am_data m) (Z.to_nat s)) as [o Ho]; [lia|].
  destruct (decide (signer x = s)) as [<-|Hne].
  - rewrite Ho. destruct o as [y|]; simpl; [by rewrite Ho|].
    rewrite list_lookup_insert_eq; [done|]. by apply lookup_lt_Some in Ho.
  - destruct (am_data m !! Z.to_nat (signer x)) as [[y|]|]; simpl;
      [rewrite Ho; by destruct o| |rewrite Ho; by destruct o].
    rewrite list_lookup_insert_ne, Ho by lia. by destruct o.
Qed.

Lemma insert_all_spec items : ∀ m, wf m → Forall (λ x, 0 ≤ signer x) items →
  wf (insert_all m items) ∧ length (am_data (insert_all m items)) = length (am_data m) ∧
  ∀ s, 0 ≤ s < Z.of_nat (length (am_data m)) →
    get (insert_all m items) s =
      match get m s with Some y => Some y | None => first_of items s end.
Proof.
  induction items as [|x items IH]; intros m Hw Hf; simpl.
  { split; [done|]. split; [done|]. intros s _. by destruct (get m s). }
  apply Forall_cons in Hf as [Hx Hf].
  destruct (IH (insert m x).1 (insert_wf m x Hw) Hf) as (Hw' & Hl & Hg).
  rewrite insert_length in Hl, Hg. split; [done|]. split; [done|].
  intros s Hs. rewrite (Hg s Hs), insert_get by lia. unfold first_of. rewrite filter_cons.
  destruct (get m s); [done|]. by case_decide.
Qed.

Lemma get_new n s : get (new n) s = None.
Proof.
  unfold get, new. simpl. destruct (replicate n (@None A) !! Z.to_nat s) as [o|] eqn:E; [|done].
  by apply lookup_replicate in E as [-> _].
Qed.

(** after any sequence of insertions each participant's entry is the first
    item it signed, items of signers outside the participant set are dropped,
    and the count is the number of entries. *)
Theorem attributable_map_correct (participants : nat) items :
  Forall (λ x, 0 ≤ signer x) items →
  let m := insert_all (new participants) items in
  (∀ s, 0 ≤ s < Z.of_nat participants → get m s = first_of items s) ∧
  len m = Z.of_nat (length (iter m)) ∧ (length (iter m) ≤ participants)%nat.
Proof.
  intros Hf m. destruct (insert_all_spec items (new participants) (map_new_wf _) Hf) as (Hw & Hl & Hg).
  fold m in Hw, Hl, Hg. simpl in Hl, Hg. rewrite length_replicate in Hl, Hg.
  split; [|split; [apply Hw|]].
  - intros s Hs. rewrite (Hg s Hs). by rewrite get_new.
  - rewrite <- Hl. apply iter_length.
Qed.
End Ops.

Lemma attributable_map_correct_witness :
  len (insert_all (λ x : Z, x) (new 4) [2; 7; 0; 2]) = 2 ∧
  get (insert_all (λ x : Z, x) (new 4) [2; 7; 0; 2]) 2 = Some 2.
Proof.
  assert (Forall (λ x : Z, 0 ≤ x) [2; 7; 0; 2]) as H by (repeat constructor; lia).
  split; [vm_compute; reflexivity|].
  exact (proj1 (attributable_map_correct (λ x, x) 4 [2; 7; 0; 2] H) 2 ltac:(lia)).
Defined.
End AttributableMap.

Section VoteTracker.
Context {T : Types}.

Record VoteTracker : Type := mkTracker {
  vt_notarizes : AttributableMap Notarize;
  vt_nullifies : AttributableMap Nullify;
  vt_finalizes : AttributableMap Finalize;
}.

Definition notarize_signer (n : Notarize) : Z := signer (nt_attestation n).
Definition nullify_signer (n : Nullify) : Z := signer (nl_attestation n).
Definition finalize_signer (f : Finalize) : Z := signer (fz_attestation f).
End VoteTracker.

Module VoteTracker.
Section Ops.
Context {T : Types}.
Implicit Types t : VoteTracker.

Definition new (participants : nat) : VoteTracker :=
  mkTracker (AttributableMap.new participants) (AttributableMap.new participants)
    (AttributableMap.new participants).

Definition insert_notarize t (v : Notarize) : VoteTracker * bool :=
  let '(m, b) := AttributableMap.insert notarize_signer (vt_notarizes t) v in
  (mkTracker m (vt_nullifies t) (vt_finalizes t), b).
Definition insert_nullify t (v : Nullify) : VoteTracker * bool :=
  let '(m, b) := AttributableMap.insert nullify_signer (vt_nullifies t) v in
  (mkTracker (vt_notarizes t) m (vt_finalizes t), b).
Definition insert_finalize t (v : Finalize) : VoteTracker * bool :=
  let '(m, b) := AttributableMap.insert finalize_signer (vt_finalizes t) v in
  (mkTracker (vt_notarizes t) (vt_nullifies t) m, b).

Definition notarize t (signer : Z) : option Notarize := AttributableMap.get (vt_notarizes t) signer.
Definition nullify t (signer : Z) : option Nullify := AttributableMap.get (vt_nullifies t) signer.
Definition finalize t (signer : Z) : option Finalize := AttributableMap.get (vt_finalizes t) signer.

Definition iter_notarizes t : list Notarize := AttributableMap.iter (vt_notarizes t).
Definition iter_nullifies t : list Nullify := AttributableMap.iter (vt_nullifies t).
Definition iter_finalizes t : list Finalize := AttributableMap.iter (vt_finalizes t).

(** [u32::try_from(..).expect(..)]. *)
Definition to_u32 (n : Z) : option Z := if fitsb 32 n then Some n else None.
Definition len_notarizes t : option Z := to_u32 (AttributableMap.len (vt_notarizes t)).
Definition len_nullifies t : option Z := to_u32 (AttributableMap.len (vt_nullifies t)).
Definition len_finalizes t : option Z := to_u32 (AttributableMap.len (vt_finalizes t)).

Definition has_notarize t (signer : Z) : bool := bool_decide (is_Some (notarize t signer)).
Definition has_nullify t (signer : Z) : bool := bool_decide (is_Some (nullify t signer)).
Definition has_finalize t (signer : Z) : bool := bool_decide (is_Some (finalize t signer)).

Definition clear_notarizes t : VoteTracker :=
  mkTracker (AttributableMap.clear (vt_notarizes t)) (vt_nullifies t) (vt_finalizes t).
Definition clear_finalizes t : VoteTracker :=
  mkTracker (vt_notarizes t) (vt_nullifies t) (AttributableMap.clear (vt_finalizes t)).
End Ops.
End VoteTracker.

(** ** Verification and evidence *)

Section EvidenceData.
Context {T : Types}.

(** What the code uses of a scheme to check votes and certificates. *)
Record Verifier : Type := mkVerifier {
  verify_attestation : bytes → Subject → Attestation → bool;
  verify_certificate : bytes → Subject → Certificate → bool;
  verify_certificates : bytes → list (Subject * Certificate) → bool;
}.

Definition notarize_verify (s : Verifier) (namespace : bytes) (n : Notarize) : bool :=
  verify_attestation s namespace (SNotarize (nt_proposal n)) (nt_attestation n).
Definition nullify_verify (s : Verifier) (namespace : bytes) (n : Nullify) : bool :=
  verify_attestation s namespace (SNullify (nl_round n)) (nl_attestation n).
Definition finalize_verify (s : Verifier) (namespace : bytes) (f : Finalize) : bool :=
  verify_attestation s namespace (SFinalize (fz_proposal f)) (fz_attestation f).
Definition notarization_verify (s : Verifier) (namespace : bytes) (n : Notarization) : bool :=
  verify_certificate s namespace (SNotarize (nz_proposal n)) (nz_certificate n).
Definition nullification_verify (s : Verifier) (namespace : bytes) (n : Nullification) : bool :=
  verify_certificate s namespace (SNullify (nlz_round n)) (nlz_certificate n).
Definition finalization_verify (s : Verifier) (namespace : bytes) (f : Finalization) : bool :=
  verify_certificate s namespace (SFinalize (fzz_proposal f)) (fzz_certificate f).

Record ConflictingNotarize : Type := mkConflictingNotarize {
  notarize_1 : Notarize; notarize_2 : Notarize }.
Record ConflictingFinalize : Type := mkConflictingFinalize {
  finalize_1 : Finalize; finalize_2 : Finalize }.
Record NullifyFinalize : Type := mkNullifyFinalize {
  nf_nullify : Nullify; nf_finalize : Finalize }.

(** The constructors of the evidence assert the condition the readers check. *)
Definition notarizes_match (n1 n2 : Notarize) : bool :=
  negb (negb (notarize_signer n1 =? notarize_signer n2) ||
        negb (bool_decide (round (nt_proposal n1) = round (nt_proposal n2)))).
Definition finalizes_match (f1 f2 : Finalize) : bool :=
  negb (negb (finalize_signer f1 =? finalize_signer f2) ||
        negb (bool_decide (round (fz_proposal f1) = round (fz_proposal f2)))).
Definition nullify_finalize_match (n : Nullify) (f : Finalize) : bool :=
  negb (negb (nullify_signer n =? finalize_signer f) ||
        negb (bool_decide (nl_round n = round (fz_proposal f)))).

Definition ConflictingNotarize_new (n1 n2 : Notarize) : option ConflictingNotarize :=
  if notarizes_match n1 n2 then Some (mkConflictingNotarize n1 n2) else None.
Definition ConflictingFinalize_new (f1 f2 : Finalize) : option ConflictingFinalize :=
  if finalizes_match f1 f2 then Some (mkConflictingFinalize f1 f2) else None.
Definition NullifyFinalize_new (n : Nullify) (f : Finalize) : option NullifyFinalize :=
  if nullify_finalize_match n f then Some (mkNullifyFinalize n f) else None.

Definition conflicting_notarize_verify (s : Verifier) (namespace : bytes)
    (e : ConflictingNotarize) : bool :=
  notarize_verify s namespace (notarize_1 e) && notarize_verify s namespace (notarize_2 e).
Definition conflicting_finalize_verify (s : Verifier) (namespace : bytes)
    (e : ConflictingFinalize) : bool :=
  finalize_verify s namespace (finalize_1 e) && finalize_verify s namespace (finalize_2 e).
Definition nullify_finalize_verify (s : Verifier) (namespace : bytes) (e : NullifyFinalize) : bool :=
  nullify_verify s namespace (nf_nullify e) && finalize_verify s namespace (nf_finalize e).

Inductive Activity : Type :=
| AcNotarize (n : Notarize)
| AcNotarization (n : Notarization)
| AcCertification (n : Notarization)
| AcNullify (n : Nullify)
| AcNullification (n : Nullification)
| AcFinalize (f : Finalize)
| AcFinalization (f : Finalization)
| AcConflictingNotarize (e : ConflictingNotarize)
| AcConflictingFinalize (e : ConflictingFinalize)
| AcNullifyFinalize (e : NullifyFinalize).

Definition activity_verified (a : Activity) : bool :=
  match a with AcNotarization _ | AcNullification _ | AcFinalization _ => true | _ => false end.

Definition activity_verify (s : Verifier) (namespace : bytes) (a : Activity) : bool :=
  match a with
  | AcNotarize n => notarize_verify s namespace n
  | AcNotarization n => notarization_verify s namespace n
  | AcCertification n => notarization_verify s namespace n
  | AcNullify n => nullify_verify s namespace n
  | AcNullification n => nullification_verify s namespace n
  | AcFinalize f => finalize_verify s namespace f
  | AcFinalization f => finalization_verify s namespace f
  | AcConflictingNotarize e => conflicting_notarize_verify s namespace e
  | AcConflictingFinalize e => conflicting_finalize_verify s namespace e
  | AcNullifyFinalize e => nullify_finalize_verify s namespace e
  end.

Definition activity_round (a : Activity) : Rnd :=
  match a with
  | AcNotarize n => round (nt_proposal n)
  | AcNotarization n | AcCertification n => round (nz_proposal n)
  | AcNullify n => nl_round n
  | AcNullification n => nlz_round n
  | AcFinalize f => round (fz_proposal f)
  | AcFinalization f => round (fzz_proposal f)
  | AcConflictingNotarize e => round (nt_proposal (notarize_1 e))
  | AcConflictingFinalize e => round (fz_proposal (finalize_1 e))
  | AcNullifyFinalize e => nl_round (nf_nullify e)
  end.
Definition activity_epoch (a : Activity) : Z := rnd_epoch (activity_round a).
Definition activity_view (a : Activity) : Z := rnd_view (activity_round a).

(** ** Catch-up messages *)

Record Request : Type := mkRequest {
  req_id : Z; req_notarizations : list Z; req_nullifications : list Z }.
Record Response : Type := mkResponse {
  res_id : Z; res_notarizations : list Notarization; res_nullifications : list Nullification }.
Inductive Backfiller : Type :=
| BfRequest (r : Request)
| BfResponse (r : Response).

Definition response_verify (s : Verifier) (namespace : bytes) (r : Response) : bool :=
  if bool_decide (res_notarizations r = []) && bool_decide (res_nullifications r = []) then true
  else
    verify_certificates s namespace
      (map (λ n, (SNotarize (nz_proposal n), nz_certificate n)) (res_notarizations r) ++
       map (λ n, (SNullify (nlz_round n), nlz_certificate n)) (res_nullifications r)).
End EvidenceData.

Module Evidence.

(** The loop that inserts the views into a hash set and stops at a duplicate. *)
Fixpoint insert_views (views : gset Z) (l : list Z) : bool :=
  match l with
  | [] => true
  | v :: l => if decide (v ∈ views) then false else insert_views ({[v]} ∪ views) l
  end.

Lemma insert_views_spec l : ∀ views,
  insert_views views l = true ↔ NoDup l ∧ ∀ v, v ∈ l → v ∉ views.
Proof.
  induction l as [|v l IH]; intros views; simpl.
  { split; [|done]. intros _. split; [constructor|]. set_solver. }
  case_decide as Hv.
  - split; [done|]. intros [_ H]. destruct (H v); [apply list_elem_of_here|done].
  - rewrite IH, NoDup_cons. set_solver.
Qed.

(** The body shared by requests and responses: two lists, each without a
    repeated view, that together are no longer than the limit. *)
Section Lists.
Context {N CN L CL : Type} (cn : codec N CN) (cl : codec L CL) (vn : N → Z) (vl : L → Z).
Context (ty : string).

Definition lists_write (x : Z * (list N * list L)) : option bytes :=
  write2 (write (Varint.UInt 8) x.1) (write2 (write (vec cn) x.2.1) (write (vec cl) x.2.2)).
Definition lists_encode_size (x : Z * (list N * list L)) : option Z :=
  add_size (encode_size (Varint.UInt 8) x.1)
    (add_size (encode_size (vec cn) x.2.1) (encode_size (vec cl) x.2.2)).
Definition lists_read_cfg (cfg : Z * (CN * CL)) (buf : bytes)
    : result ((Z * (list N * list L)) * bytes) :=
  let '(max_len, (cfg_n, cfg_l)) := cfg in
  let? (id, buf) := read_cfg (Varint.UInt 8) tt buf in
  let? (notarizations, buf) :=
    read_cfg (vec cn) (RangeCfg.from_range_to_inclusive max_len, cfg_n) buf in
  if negb (insert_views ∅ (vn <$> notarizations)) then Err (Invalid ty "Duplicate notarization")
  else
    let? remaining := expect (checked_sub max_len (Z.of_nat (length notarizations))) in
    let? (nullifications, buf) :=
      read_cfg (vec cl) (RangeCfg.from_range_to_inclusive remaining, cfg_l) buf in
    if negb (insert_views ∅ (vl <$> nullifications)) then Err (Invalid ty "Duplicate nullification")
    else Ok ((id, (notarizations, nullifications)), buf).
Definition lists_codec : codec (Z * (list N * list L)) (Z * (CN * CL)) :=
  Codec lists_write lists_encode_size lists_read_cfg.

Context `{!Lawful cn, !Lawful cl}.

Definition lists_ok (cfg : Z * (CN * CL)) (x : Z * (list N * list L)) : Prop :=
  fits 64 x.1 ∧
  admits (vec cn) (RangeCfg.from_range_to_inclusive cfg.1, cfg.2.1) x.2.1 ∧ NoDup (vn <$> x.2.1) ∧
  admits (vec cl)
    (RangeCfg.from_range_to_inclusive (cfg.1 - Z.of_nat (length x.2.1)), cfg.2.2) x.2.2 ∧
  NoDup (vl <$> x.2.2).

Lemma insert_empty l : insert_views ∅ l = true ↔ NoDup l.
Proof. rewrite insert_views_spec. set_solver. Qed.

Lemma vec_length_le m (cfg : CN) l : admits (vec cn) (RangeCfg.from_range_to_inclusive m, cfg) l →
  Z.of_nat (length l) ≤ m.
Proof. intros [[_ H] _]. apply RangeCfg.contains_spec in H as [_ H]. exact H. Qed.

Lemma lists_read_write cfg x w rest : lists_ok cfg x → lists_write x = Some w →
  lists_read_cfg cfg (w ++ rest) = Ok (x, rest).
Proof.
  destruct cfg as [m [cfg_n cfg_l]], x as [i [ns ls]].
  intros (Hi & Hn & Hdn & Hl & Hdl) (w1 & w' & E1 & (w2 & w3 & E2 & E3 & ->)%write2_Some & ->)%write2_Some.
  unfold lists_read_cfg. rewrite <- !app_assoc.
  rewrite (@codec_roundtrip _ _ _ u64_varint_lawful tt i w1 _ Hi E1). cbn [obind].
  rewrite (codec_roundtrip (c := vec cn) _ ns w2 _ Hn E2). cbn [obind].
  apply insert_empty in Hdn, Hdl. cbn [fst snd] in *. rewrite Hdn. cbn [negb].
  pose proof (vec_length_le _ _ _ Hn). unfold checked_sub.
  rewrite (proj2 (Z.leb_le _ _)) by done. cbn [expect obind].
  rewrite (codec_roundtrip (c := vec cl) _ ls w3 _ Hl E3). cbn [obind]. by rewrite Hdl.
Qed.

Lemma lists_read_canonical cfg buf x rest : lists_read_cfg cfg buf = Ok (x, rest) →
  lists_ok cfg x ∧ ∃ w, lists_write x = Some w ∧ buf = w ++ rest.
Proof.
  destruct cfg as [m [cfg_n cfg_l]]. unfold lists_read_cfg.
  intros ([i r1] & E1 & ([ns r2] & E2 & H)%obind_Ok)%obind_Ok.
  apply (@codec_canonical _ _ _ u64_varint_lawful tt) in E1 as (Hi & w1 & Hw1 & ->).
  apply (codec_canonical (c := vec cn)) in E2 as (Hn & w2 & Hw2 & ->).
  destruct (insert_views ∅ (vn <$> ns)) eqn:Hdn; cbn [negb] in H; [|done].
  pose proof (vec_length_le _ _ _ Hn). unfold checked_sub in H.
  rewrite (proj2 (Z.leb_le _ _)) in H by done. cbn [expect obind] in H.
  apply obind_Ok in H as ([ls r3] & E3 & H).
  apply (codec_canonical (c := vec cl)) in E3 as (Hl & w3 & Hw3 & ->).
  destruct (insert_views ∅ (vl <$> ls)) eqn:Hdl; cbn [negb] in H; [|done]. injection H as <- <-.
  apply insert_empty in Hdn, Hdl. split; [done|]. exists (w1 ++ (w2 ++ w3)).
  rewrite <- !app_assoc. split; [|done]. apply write2_Some. exists w1, (w2 ++ w3).
  split; [done|]. split; [|done]. apply write2_Some. eauto 6.
Qed.

#[export] Instance lists_lawful : Lawful lists_codec.
Proof.
  refine {| admits := lists_ok |}.
  - intros cfg [i [ns ls]] (Hi & Hn & _ & Hl & _). simpl. unfold lists_write. cbn [fst snd].
    destruct (@codec_write_total _ _ _ u64_varint_lawful tt i Hi) as [w1 ->].
    destruct (codec_write_total (c := vec cn) _ ns Hn) as [w2 ->].
    destruct (codec_write_total (c := vec cl) _ ls Hl) as [w3 ->]. done.
  - intros [i [ns ls]] w (w1 & w' & E1 & (w2 & w3 & E2 & E3 & ->)%write2_Some & ->)%write2_Some.
    change (lists_encode_size (i, (ns, ls)) = Some (Z.of_nat (length (w1 ++ w2 ++ w3)))).
    unfold lists_encode_size. cbn [fst snd] in *.
    rewrite (@codec_size _ _ _ u64_varint_lawful _ _ E1), (codec_size _ _ E2), (codec_size _ _ E3).
    simpl. f_equal. rewrite !length_app. lia.
  - apply lists_read_write.
  - apply lists_read_canonical.
  - intros [m [cfg_n cfg_l]] buf. cbn [read_cfg lists_codec]. unfold lists_read_cfg.
    apply obind_no_panic; [apply (@codec_no_panic _ _ _ u64_varint_lawful)|]. intros [i r1] _.
    apply obind_no_panic; [apply codec_no_panic|]. intros [ns r2] Hns. case_match; [done|].
    apply (codec_canonical (c := vec cn)) in Hns as (Hn & _).
    pose proof (vec_length_le _ _ _ Hn). unfold checked_sub.
    rewrite (proj2 (Z.leb_le _ _)) by done. cbn [expect obind].
    apply obind_no_panic; [apply codec_no_panic|]. intros [ls r3] _. by case_match.
Defined.
End Lists.

Section Codecs.
Context {T : Types} {CCfg : Type}.
Context (digest : codec Digest unit) (sig : codec Signature unit) (cert : codec Certificate CCfg).

#[local] Notation notarize_codec := (notarize_codec digest sig).
#[local] Notation nullify_codec := (nullify_codec sig).
#[local] Notation finalize_codec := (finalize_codec digest sig).
#[local] Notation notarization_codec := (notarization_codec digest cert).
#[local] Notation nullification_codec := (nullification_codec cert).
#[local] Notation finalization_codec := (finalization_codec digest cert).

Definition conflicting_notarize_codec : codec ConflictingNotarize unit :=
  iso_codec
    (checked (tuple2 notarize_codec notarize_codec) (λ '(a, b), notarizes_match a b)
      (Invalid "consensus::simplex::ConflictingNotarize" "invalid conflicting notarize"))
    (λ '(a, b), mkConflictingNotarize a b) (λ e, (notarize_1 e, notarize_2 e)) (λ _, (tt, tt)).
Definition conflicting_finalize_codec : codec ConflictingFinalize unit :=
  iso_codec
    (checked (tuple2 finalize_codec finalize_codec) (λ '(a, b), finalizes_match a b)
      (Invalid "consensus::simplex::ConflictingFinalize" "invalid conflicting finalize"))
    (λ '(a, b), mkConflictingFinalize a b) (λ e, (finalize_1 e, finalize_2 e)) (λ _, (tt, tt)).
Definition nullify_finalize_codec : codec NullifyFinalize unit :=
  iso_codec
    (checked (tuple2 nullify_codec finalize_codec) (λ '(a, b), nullify_finalize_match a b)
      (Invalid "consensus::simplex::NullifyFinalize" "mismatched signatures"))
    (λ '(a, b), mkNullifyFinalize a b) (λ e, (nf_nullify e, nf_finalize e)) (λ _, (tt, tt)).

Definition activity_tagged : tagged Activity CCfg := Tagged
  (λ a, match a with
    | AcNotarize _ => 0 | AcNotarization _ => 1 | AcCertification _ => 2 | AcNullify _ => 3
    | AcNullification _ => 4 | AcFinalize _ => 5 | AcFinalization _ => 6
    | AcConflictingNotarize _ => 7 | AcConflictingFinalize _ => 8 | AcNullifyFinalize _ => 9
    end)
  (λ a, match a with
    | AcNotarize v => write notarize_codec v
    | AcNotarization v => write notarization_codec v
    | AcCertification v => write notarization_codec v
    | AcNullify v => write nullify_codec v
    | AcNullification v => write nullification_codec v
    | AcFinalize v => write finalize_codec v
    | AcFinalization v => write finalization_codec v
    | AcConflictingNotarize v => write conflicting_notarize_codec v
    | AcConflictingFinalize v => write conflicting_finalize_codec v
    | AcNullifyFinalize v => write nullify_finalize_codec v
    end)
  (λ a, match a with
    | AcNotarize v => encode_size notarize_codec v
    | AcNotarization v => encode_size notarization_codec v
    | AcCertification v => encode_size notarization_codec v
    | AcNullify v => encode_size nullify_codec v
    | AcNullification v => encode_size nullification_codec v
    | AcFinalize v => encode_size finalize_codec v
    | AcFinalization v => encode_size finalization_codec v
    | AcConflictingNotarize v => encode_size conflicting_notarize_codec v
    | AcConflictingFinalize v => encode_size conflicting_finalize_codec v
    | AcNullifyFinalize v => encode_size nullify_finalize_codec v
    end)
  (λ tag cfg buf,
    if tag =? 0 then variant notarize_codec AcNotarize tt buf
    else if tag =? 1 then variant notarization_codec AcNotarization cfg buf
    else if tag =? 2 then variant notarization_codec AcCertification cfg buf
    else if tag =? 3 then variant nullify_codec AcNullify tt buf
    else if tag =? 4 then variant nullification_codec AcNullification cfg buf
    else if tag =? 5 then variant finalize_codec AcFinalize tt buf
    else if tag =? 6 then variant finalization_codec AcFinalization cfg buf
    else if tag =? 7 then variant conflicting_notarize_codec AcConflictingNotarize tt buf
    else if tag =? 8 then variant conflicting_finalize_codec AcConflictingFinalize tt buf
    else if tag =? 9 then variant nullify_finalize_codec AcNullifyFinalize tt buf
    else Err (Invalid "consensus::simplex::Activity" "Invalid type")).
Definition activity_codec : codec Activity CCfg := enum_codec activity_tagged.

Definition request_codec : codec Request Z :=
  iso_codec (lists_codec View.codec View.codec id id "consensus::simplex::Request")
    (λ '(i, (ns, ls)), mkRequest i ns ls)
    (λ r, (req_id r, (req_notarizations r, req_nullifications r))) (λ m, (m, (tt, tt))).
Definition response_codec : codec Response (Z * CCfg) :=
  iso_codec
    (lists_codec notarization_codec nullification_codec (λ n, proposal_view (nz_proposal n))
      (λ n, rnd_view (nlz_round n)) "consensus::simplex::Response")
    (λ '(i, (ns, ls)), mkResponse i ns ls)
    (λ r, (res_id r, (res_notarizations r, res_nullifications r)))
    (λ cfg, (cfg.1, (cfg.2, cfg.2))).

Definition backfiller_tagged : tagged Backfiller (Z * CCfg) := Tagged
  (λ b, match b with BfRequest _ => 0 | BfResponse _ => 1 end)
  (λ b, match b with
    | BfRequest v => write request_codec v
    | BfResponse v => write response_codec v
    end)
  (λ b, match b with
    | BfRequest v => encode_size request_codec v
    | BfResponse v => encode_size response_codec v
    end)
  (λ tag cfg buf,
    if tag =? 0 then variant request_codec BfRequest cfg.1 buf
    else if tag =? 1 then variant response_codec BfResponse cfg buf
    else Err (Invalid "consensus::simplex::Backfiller" "Invalid type")).
Definition backfiller_codec : codec Backfiller (Z * CCfg) := enum_codec backfiller_tagged.

Context `{!Lawful digest, !Lawful sig, !Lawful cert}.

#[export] Instance conflicting_notarize_lawful : Lawful conflicting_notarize_codec.
Proof. apply iso_lawful; [apply checked_lawful, _|by intros []|by intros []]. Defined.
#[export] Instance conflicting_finalize_lawful : Lawful conflicting_finalize_codec.
Proof. apply iso_lawful; [apply checked_lawful, _|by intros []|by intros []]. Defined.
#[export] Instance nullify_finalize_lawful : Lawful nullify_finalize_codec.
Proof. apply iso_lawful; [apply checked_lawful, _|by intros []|by intros []]. Defined.
#[export] Instance request_lawful : Lawful request_codec.
Proof. apply iso_lawful; [apply _|by intros []|by intros (? & ? & ?)]. Defined.
#[export] Instance response_lawful : Lawful response_codec.
Proof. apply iso_lawful; [apply _|by intros []|by intros (? & ? & ?)]. Defined.

#[export] Instance activity_tagged_lawful : TaggedLawful activity_tagged.
Proof.
  refine {| t_admits cfg a := match a with
    | AcNotarize v => admits notarize_codec tt v
    | AcNotarization v => admits notarization_codec cfg v
    | AcCertification v => admits notarization_codec cfg v
    | AcNullify v => admits nullify_codec tt v
    | AcNullification v => admits nullification_codec cfg v
    | AcFinalize v => admits finalize_codec tt v
    | AcFinalization v => admits finalization_codec cfg v
    | AcConflictingNotarize v => admits conflicting_notarize_codec tt v
    | AcConflictingFinalize v => admits conflicting_finalize_codec tt v
    | AcNullifyFinalize v => admits nullify_finalize_codec tt v
    end |}; cbn [t_tag t_write t_size t_read activity_tagged].
  - intros []; by unfold fits.
  - intros cfg [] H; exact (codec_write_total _ _ H).
  - intros [] w H; exact (codec_size _ _ H).
  - intros cfg [] w rest Ha Hw; solve_tagged.
  - intros tag cfg buf b rest H. solve_tagged.
  - intros tag cfg buf. solve_tagged.
Defined.

#[export] Instance backfiller_tagged_lawful : TaggedLawful backfiller_tagged.
Proof.
  refine {| t_admits cfg b := match b with
    | BfRequest v => admits request_codec cfg.1 v
    | BfResponse v => admits response_codec cfg v
    end |}; cbn [t_tag t_write t_size t_read backfiller_tagged].
  - intros []; by unfold fits.
  - intros cfg [] H; exact (codec_write_total _ _ H).
  - intros [] w H; exact (codec_size _ _ H).
  - intros cfg [] w rest Ha Hw; solve_tagged.
  - intros tag cfg buf b rest H.
    destruct (Z.eqb_spec tag 0) as [->|]; [|destruct (Z.eqb_spec tag 1) as [->|]; [|done]].
    + apply (variant_Ok request_codec) in H as (x & w & -> & ? & ? & ->). split; [done|eauto].
    + apply (variant_Ok response_codec) in H as (x & w & -> & ? & ? & ->). split; [done|eauto].
  - intros tag cfg buf. solve_tagged.
Defined.
End Codecs.
End Evidence.
