(* ===== verification/Emit.v ===== *)
(** * Computations that send messages

    The monad of the actors' handlers: a computation returns a value with the
    messages it sent on the way, or panics.  [ends] is its weakest precondition:
    the computation returns, and its value and messages satisfy a predicate. *)

From S2P Require Import Prelude.

(** [None] is a panic. *)
Definition W (O A : Type) : Type := option (A * list O).
Definition wret {O A} (x : A) : W O A := Some (x, []).
Definition send {O} (o : O) : W O unit := Some (tt, [o]).
Definition wbind {O A B} (m : W O A) (k : A → W O B) : W O B :=
  '(x, o) ← m; '(y, o') ← k x; Some (y, o ++ o').
Notation "'let^' x := m 'in' k" := (wbind m (λ x, k))
  (at level 200, x pattern, right associativity) : cw_scope.
(** A panic when there is no value. *)
Definition wlift {O A} (o : option A) : W O A := x ← o; Some (x, []).

Section Ends.
Context {O : Type}.

Definition ends {A} (w : W O A) (Q : A → list O → Prop) : Prop := ∃ x o, w = Some (x, o) ∧ Q x o.

Lemma ends_ret {A} (x : A) (Q : A → list O → Prop) : Q x [] → ends (wret x) Q.
Proof. intros H. by exists x, []. Qed.
Lemma ends_lift {A} (m : option A) x (Q : A → list O → Prop) : m = Some x → Q x [] → ends (wlift m) Q.
Proof. intros -> H. by exists x, []. Qed.
Lemma ends_send e (Q : unit → list O → Prop) : Q tt [e] → ends (send e) Q.
Proof. intros H. by exists tt, [e]. Qed.
Lemma ends_bind {A B} (m : W O A) (k : A → W O B) (Q : B → list O → Prop) :
  ends m (λ x o, ends (k x) (λ y o', Q y (o ++ o'))) → ends (wbind m k) Q.
Proof. intros (x & o & -> & y & o' & E & H). exists y, (o ++ o'). split; [|done]. unfold wbind. simpl. by rewrite E. Qed.
Lemma ends_mono {A} (w : W O A) (Q Q' : A → list O → Prop) : (∀ x o, Q x o → Q' x o) → ends w Q → ends w Q'.
Proof. intros H (x & o & E & Hq). exists x, o. auto. Qed.
Lemma ends_lift_bind {A B} (m : option A) x (k : A → W O B) Q : m = Some x → ends (k x) Q → ends (wbind (wlift m) k) Q.
Proof. intros E H. apply ends_bind, (ends_lift _ _ _ E). eapply ends_mono; [|exact H]. done. Qed.
Lemma ends_send_bind {B} e (k : unit → W O B) Q : ends (k tt) (λ y o, Q y (e :: o)) → ends (wbind (send e) k) Q.
Proof. intros H. by apply ends_bind, ends_send. Qed.
End Ends.
