(* ===== verification/BatcherVerifier.v ===== *)
(** * Batch verification of votes
      (consensus/src/simplex/actors/batcher/verifier.rs)

    The batcher collects the votes of a view and has the scheme check many
    signatures at once.  [Verification] and the default of [verify_attestations]
    are those of cryptography/src/certificate.rs; the schemes that verify in
    batches are covered by the class [BatchVerification], which states what the
    trait promises.  The module
    [BatcherVerifier] has the code's [Verifier] and its operations. *)

From S2P Require Import Prelude Codec CodecOrdered ConsensusTypes Ordered SimplexTypes SimplexEvidence.
From coqutil Require Export Datatypes.RecordSetters.
Export DoubleBraceUpdate.

(** ** Batch verification of attestations *)

Section BatchVerification.
Context {T : Types}.

Record Verification : Type := mkVerification { verified : list Attestation; invalid : list Z }.

Definition Batch : Type := bytes → Subject → list Attestation → Verification.

(** The default of the trait: one by one. *)
Definition verify_attestations (s : Verifier) : Batch := λ namespace subject attestations,
  let ok a := verify_attestation s namespace subject a in
  mkVerification (filter (λ a, ok a = true) attestations)
    (Ordered.set_from_iter_dedup (signer <$> filter (λ a, ok a = false) attestations)).

(** What the code relies on: accepted attestations verify and keep their order;
    when no signer occurs twice, all that verify are accepted and the signers of
    the others reported. *)
Class BatchVerification (s : Verifier) (batch : Batch) : Prop := {
  batch_sublist namespace subject l : verified (batch namespace subject l) `sublist_of` l;
  batch_sound namespace subject l a :
    a ∈ verified (batch namespace subject l) → verify_attestation s namespace subject a = true;
  batch_complete namespace subject l a : NoDup (signer <$> l) → a ∈ l →
    verify_attestation s namespace subject a = true → a ∈ verified (batch namespace subject l);
  batch_invalid namespace subject l i : NoDup (signer <$> l) →
    i ∈ invalid (batch namespace subject l) ↔
      ∃ a, a ∈ l ∧ signer a = i ∧ verify_attestation s namespace subject a = false;
}.

#[export] Instance verify_attestations_batch s : BatchVerification s (verify_attestations s).
Proof.
  split; unfold verify_attestations; simpl.
  - intros. apply sublist_filter.
  - intros ns subject l a. rewrite list_elem_of_filter. tauto.
  - intros ns subject l a _ Ha Hok. by apply list_elem_of_filter.
  - intros ns subject l i _. rewrite (proj2 (Ordered.set_from_iter_dedup_spec _)), list_elem_of_fmap.
    setoid_rewrite list_elem_of_filter. naive_solver.
Qed.

End BatchVerification.

(** ** The verifier of a view *)

Module BatcherVerifier.
Section Ops.
Context {T : Types} (batch : Batch).

Record Verifier : Type := mkVerifier {
  quorum : Z;
  leader : option Z;
  leader_proposal : option Proposal;
  notarizes : list Notarize;
  notarizes_verified : Z;
  nullifies : list Nullify;
  nullifies_verified : Z;
  finalizes : list Finalize;
  finalizes_verified : Z;
}.
Implicit Types v : Verifier.

Definition new (quorum : Z) : Verifier := mkVerifier quorum None None [] 0 [] 0 [] 0.

Definition set_leader_proposal v (p : Proposal) : Verifier :=
  v {{ notarizes := filter (λ n, nt_proposal n = p) (notarizes v);
       finalizes := filter (λ f, fz_proposal f = p) (finalizes v);
       leader_proposal := Some p }}.

(** The outer option is [None] when the leader is unknown although its proposal
    is not. *)
Definition get_leader_proposal v : option (option (Z * Proposal)) :=
  match leader_proposal v with
  | None => Some None
  | Some p => l ← leader v; Some (Some (l, p))
  end.

Definition add v (msg : Vote) (verified : bool) : Verifier * bool :=
  match msg with
  | VNotarize n =>
      let push v :=
        if verified then v {{ notarizes_verified := notarizes_verified v + 1 }}
        else v {{ notarizes := notarizes v ++ [n] }} in
      match leader_proposal v with
      | Some p => if bool_decide (p ≠ nt_proposal n) then (v, false) else (push v, true)
      | None =>
          match leader v with
          | Some l =>
              (push (if l =? notarize_signer n then set_leader_proposal v (nt_proposal n) else v), true)
          | None => (push v, true)
          end
      end
  | VNullify n =>
      (if verified then v {{ nullifies_verified := nullifies_verified v + 1 }}
       else v {{ nullifies := nullifies v ++ [n] }}, true)
  | VFinalize f =>
      let push v :=
        if verified then v {{ finalizes_verified := finalizes_verified v + 1 }}
        else v {{ finalizes := finalizes v ++ [f] }} in
      match leader_proposal v with
      | Some p => if bool_decide (p ≠ fz_proposal f) then (v, false) else (push v, true)
      | None => (push v, true)
      end
  end.

(** [None]: the leader is already set. *)
Definition set_leader v (l : Z) : option Verifier :=
  match leader v with
  | Some _ => None
  | None =>
      let v := v {{ leader := Some l }} in
      match head (filter (λ n, notarize_signer n = l) (notarizes v)) with
      | None => Some v
      | Some n => Some (set_leader_proposal v (nt_proposal n))
      end
  end.

(** The votes of a batch are put together again by position. *)
Definition verify_notarizes v (namespace : bytes) : Verifier * (list Vote * list Z) :=
  let pending := notarizes v in
  let v := v {{ notarizes := [] }} in
  match pending with
  | [] => (v, ([], []))
  | first :: _ =>
      let proposals := nt_proposal <$> pending in
      let attestations := nt_attestation <$> pending in
      let r := batch namespace (SNotarize (nt_proposal first)) attestations in
      (v {{ notarizes_verified := notarizes_verified v + Z.of_nat (length (verified r)) }},
       (zip_with (λ a p, VNotarize (mkNotarize p a)) (verified r) proposals, invalid r))
  end.

Definition verify_nullifies v (namespace : bytes) : Verifier * (list Vote * list Z) :=
  let pending := nullifies v in
  let v := v {{ nullifies := [] }} in
  match pending with
  | [] => (v, ([], []))
  | first :: _ =>
      let rd := nl_round first in
      let r := batch namespace (SNullify rd) (nl_attestation <$> pending) in
      (v {{ nullifies_verified := nullifies_verified v + Z.of_nat (length (verified r)) }},
       ((λ a, VNullify (mkNullify rd a)) <$> verified r, invalid r))
  end.

Definition verify_finalizes v (namespace : bytes) : Verifier * (list Vote * list Z) :=
  let pending := finalizes v in
  let v := v {{ finalizes := [] }} in
  match pending with
  | [] => (v, ([], []))
  | first :: _ =>
      let proposals := fz_proposal <$> pending in
      let attestations := fz_attestation <$> pending in
      let r := batch namespace (SFinalize (fz_proposal first)) attestations in
      (v {{ finalizes_verified := finalizes_verified v + Z.of_nat (length (verified r)) }},
       (zip_with (λ a p, VFinalize (mkFinalize p a)) (verified r) proposals, invalid r))
  end.

Definition leader_known v : bool :=
  bool_decide (is_Some (leader v)) && bool_decide (is_Some (leader_proposal v)).

Definition ready_notarizes v : bool :=
  if bool_decide (notarizes v = []) then false
  else if negb (leader_known v) then false
  else if quorum v <=? notarizes_verified v then false
  else if notarizes_verified v + Z.of_nat (length (notarizes v)) <? quorum v then false
  else true.
Definition ready_nullifies v : bool :=
  if bool_decide (nullifies v = []) then false
  else if quorum v <=? nullifies_verified v then false
  else if nullifies_verified v + Z.of_nat (length (nullifies v)) <? quorum v then false
  else true.
Definition ready_finalizes v : bool :=
  if bool_decide (finalizes v = []) then false
  else if negb (leader_known v) then false
  else if quorum v <=? finalizes_verified v then false
  else if finalizes_verified v + Z.of_nat (length (finalizes v)) <? quorum v then false
  else true.
End Ops.

(** ** What the verifier maintains *)

Section Invariant.
Context {T : Types} (batch : Batch) (s : SimplexEvidence.Verifier) `{!BatchVerification s batch}.
Implicit Types v : Verifier.

(** Once the leader's proposal is known, only votes for it are pending, and so
    are put together correctly after a batch. *)
Record wf v : Prop := {
  w_leader : is_Some (leader_proposal v) → is_Some (leader v);
  w_notarizes p n : leader_proposal v = Some p → n ∈ notarizes v → nt_proposal n = p;
  w_finalizes p f : leader_proposal v = Some p → f ∈ finalizes v → fz_proposal f = p;
}.

Lemma new_wf q : wf (new q).
Proof. split; [by intros [? ?]|by intros ? ? [=]..]. Qed.

Lemma set_leader_proposal_wf v p : is_Some (leader v) → wf (set_leader_proposal v p).
Proof.
  intros Hl. split; [done|..]; intros p' x [= <-] Hx; by apply list_elem_of_filter in Hx as [-> _].
Qed.

Lemma push_notarize_wf v n (b : bool) : (∀ p, leader_proposal v = Some p → nt_proposal n = p) → wf v →
  wf (if b then v {{ notarizes_verified := notarizes_verified v + 1 }} else v {{ notarizes := notarizes v ++ [n] }}).
Proof.
  intros Hn [H1 H2 H3]. destruct b; split; try assumption. intros p x Hp [Hx|Hx]%elem_of_app; [by eapply H2|].
  apply list_elem_of_singleton in Hx as ->. by apply Hn.
Qed.

Lemma push_finalize_wf v f (b : bool) : (∀ p, leader_proposal v = Some p → fz_proposal f = p) → wf v →
  wf (if b then v {{ finalizes_verified := finalizes_verified v + 1 }} else v {{ finalizes := finalizes v ++ [f] }}).
Proof.
  intros Hn [H1 H2 H3]. destruct b; split; try assumption. intros p x Hp [Hx|Hx]%elem_of_app; [by eapply H3|].
  apply list_elem_of_singleton in Hx as ->. by apply Hn.
Qed.

Lemma add_wf v msg b : wf v → wf (add v msg b).1.
Proof.
  intros Hw. destruct msg as [n|n|f]; simpl.
  - destruct (leader_proposal v) as [p|] eqn:Ep.
    + case_bool_decide; simpl; [done|]. apply push_notarize_wf; [|done]. rewrite Ep. by intros ? [= <-].
    + destruct (leader v) as [l|] eqn:El; simpl; [|apply push_notarize_wf; [by rewrite Ep|done]].
      destruct (l =? notarize_signer n); apply push_notarize_wf.
      * by intros ? [= <-].
      * apply set_leader_proposal_wf. by rewrite El.
      * by rewrite Ep.
      * done.
  - destruct Hw as [H1 H2 H3]. destruct b; split; assumption.
  - destruct (leader_proposal v) as [p|] eqn:Ep.
    + case_bool_decide; simpl; [done|]. apply push_finalize_wf; [|done]. rewrite Ep. by intros ? [= <-].
    + apply push_finalize_wf; [by rewrite Ep|done].
Qed.

Lemma set_leader_wf v l v' : wf v → set_leader v l = Some v' → wf v'.
Proof.
  intros [H1 H2 H3]. unfold set_leader. destruct (leader v) eqn:El; [done|].
  destruct (head _) as [n|]; intros [= <-].
  - by apply set_leader_proposal_wf.
  - split; simpl; [|assumption..]. intros H. eauto.
Qed.

(** The proposal of the leader is fixed once known. *)
Lemma add_leader v msg b : leader (add v msg b).1 = leader v ∧
  (is_Some (leader_proposal v) → leader_proposal (add v msg b).1 = leader_proposal v).
Proof.
  destruct msg as [n|n|f]; simpl; [|by destruct b|]; destruct (leader_proposal v) as [p|] eqn:Ep.
  - case_bool_decide; [done|]. by destruct b.
  - split; [|by intros [? ?]]. destruct (leader v) as [l|] eqn:El; simpl; [destruct (l =? _)|]; by destruct b.
  - case_bool_decide; [done|]. by destruct b.
  - split; [by destruct b|by intros [? ?]].
Qed.

Lemma zip_same {A B C} (f : A → B → C) (l : list A) (ps : list B) q :
  (∀ p, p ∈ ps → p = q) → (length l ≤ length ps)%nat → zip_with f l ps = (λ a, f a q) <$> l.
Proof.
  revert l. induction ps as [|p ps IH]; intros [|a l] Hp Hl; simpl in *; try done; [lia|].
  rewrite (Hp p) by constructor. f_equal. apply IH; [|lia]. intros x Hx. apply Hp. by constructor.
Qed.

(** What a batch of pending votes returns. *)
Record verified_batch {A} (pending : list A) (vote : A → Vote) (attestation : A → Attestation) (ok : A → bool)
    (votes : list Vote) (failed : list Z) : Prop := {
  vb_sound x : x ∈ votes → ∃ a, a ∈ pending ∧ x = vote a ∧ ok a = true;
  vb_complete a : NoDup (signer <$> (attestation <$> pending)) → a ∈ pending → ok a = true → vote a ∈ votes;
  vb_failed i : NoDup (signer <$> (attestation <$> pending)) →
    i ∈ failed ↔ ∃ a, a ∈ pending ∧ signer (attestation a) = i ∧ ok a = false;
  vb_sublist : votes `sublist_of` (vote <$> pending);
}.

Lemma verified_batch_nil {A} (vote : A → Vote) attestation ok : verified_batch [] vote attestation ok [] [].
Proof.
  split; [by intros ? ?%not_elem_of_nil|by intros ? _ ?%not_elem_of_nil| |done].
  intros i _. split; [by intros ?%not_elem_of_nil|by intros (? & ?%not_elem_of_nil & _)].
Qed.

Lemma batch_verified {A} (pending : list A) vote attestation ok namespace subject :
  (∀ a, a ∈ pending → ok a = verify_attestation s namespace subject (attestation a)) →
  let r := batch namespace subject (attestation <$> pending) in
  ∀ f, (∀ a, a ∈ pending → f (attestation a) = vote a) →
  verified_batch pending vote attestation ok (f <$> verified r) (invalid r).
Proof.
  intros Hok r f Hf.
  assert (vote <$> pending = f <$> (attestation <$> pending)) as Ev.
  { rewrite <- list_fmap_compose. apply list_fmap_ext. intros i a Ha. simpl. symmetry. apply Hf.
    by eapply list_elem_of_lookup_2. }
  pose proof (batch_sublist (BatchVerification := BatchVerification0) namespace subject (attestation <$> pending)) as Hs.
  split.
  - intros x (b & -> & Hb)%list_elem_of_fmap. pose proof (batch_sound _ _ _ _ Hb) as Hv.
    apply (sublist_subseteq _ _ Hs) in Hb. apply list_elem_of_fmap in Hb as (a & -> & Ha). exists a.
    rewrite Hf, Hok by done. done.
  - intros a Hd Ha Ho. rewrite <- Hf by done. apply list_elem_of_fmap_2.
    apply batch_complete; [done|by apply list_elem_of_fmap_2|]. by rewrite <- Hok.
  - intros i Hd. unfold r. rewrite batch_invalid by done. split.
    + intros (b & Hb & <- & Hv). apply list_elem_of_fmap in Hb as (a & -> & Ha). exists a. by rewrite Hok.
    + intros (a & Ha & <- & Ho). exists (attestation a). split; [by apply list_elem_of_fmap_2|]. by rewrite <- Hok.
  - rewrite Ev. by apply fmap_sublist.
Qed.

Lemma notarize_votes_batch v namespace p : wf v → leader_proposal v = Some p →
  let '(v', (votes, failed)) := verify_notarizes batch v namespace in
  verified_batch (notarizes v) VNotarize nt_attestation (notarize_verify s namespace) votes failed ∧
  v' = v {{ notarizes := []; notarizes_verified := notarizes_verified v + Z.of_nat (length votes) }}.
Proof.
  intros Hw Hp. pose proof (λ n, w_notarizes v Hw p n Hp) as Hn. unfold verify_notarizes.
  destruct (notarizes v) as [|first l] eqn:E.
  { split; [apply verified_batch_nil|by destruct v; simpl in *; rewrite Z.add_0_r]. }
  rewrite <- E in *. rewrite (Hn first) by (rewrite E; constructor).
  set (r := batch _ _ _). rewrite (zip_same _ (verified r) (nt_proposal <$> notarizes v) p).
  - split.
    + apply batch_verified; [intros n Hin; unfold notarize_verify; by rewrite (Hn n Hin)|].
      intros [q a] Hin. simpl. by rewrite <- (Hn _ Hin).
    + by rewrite length_fmap.
  - intros q (n & -> & Hin)%list_elem_of_fmap. by apply Hn.
  - rewrite length_fmap. etrans; [apply sublist_length, batch_sublist|]. by rewrite length_fmap.
Qed.

Lemma finalize_votes_batch v namespace p : wf v → leader_proposal v = Some p →
  let '(v', (votes, failed)) := verify_finalizes batch v namespace in
  verified_batch (finalizes v) VFinalize fz_attestation (finalize_verify s namespace) votes failed ∧
  v' = v {{ finalizes := []; finalizes_verified := finalizes_verified v + Z.of_nat (length votes) }}.
Proof.
  intros Hw Hp. pose proof (λ n, w_finalizes v Hw p n Hp) as Hn. unfold verify_finalizes.
  destruct (finalizes v) as [|first l] eqn:E.
  { split; [apply verified_batch_nil|by destruct v; simpl in *; rewrite Z.add_0_r]. }
  rewrite <- E in *. rewrite (Hn first) by (rewrite E; constructor).
  set (r := batch _ _ _). rewrite (zip_same _ (verified r) (fz_proposal <$> finalizes v) p).
  - split.
    + apply batch_verified; [intros n Hin; unfold finalize_verify; by rewrite (Hn n Hin)|].
      intros [q a] Hin. simpl. by rewrite <- (Hn _ Hin).
    + by rewrite length_fmap.
  - intros q (n & -> & Hin)%list_elem_of_fmap. by apply Hn.
  - rewrite length_fmap. etrans; [apply sublist_length, batch_sublist|]. by rewrite length_fmap.
Qed.

Lemma nullify_votes_batch v namespace rd : (∀ n, n ∈ nullifies v → nl_round n = rd) →
  let '(v', (votes, failed)) := verify_nullifies batch v namespace in
  verified_batch (nullifies v) VNullify nl_attestation (nullify_verify s namespace) votes failed ∧
  v' = v {{ nullifies := []; nullifies_verified := nullifies_verified v + Z.of_nat (length votes) }}.
Proof.
  intros Hn. unfold verify_nullifies. destruct (nullifies v) as [|first l] eqn:E.
  { split; [apply verified_batch_nil|by destruct v; simpl in *; rewrite Z.add_0_r]. }
  rewrite <- E in *. rewrite (Hn first) by (rewrite E; constructor). split; [|by rewrite length_fmap].
  apply batch_verified; [intros n Hin; unfold nullify_verify; by rewrite (Hn n Hin)|].
  intros [q a] Hin. simpl. by rewrite <- (Hn _ Hin).
Qed.
End Invariant.
End BatcherVerifier.
