(* ===== verification/BatcherRound.v ===== *)
(** * The votes of one view
      (consensus/src/simplex/actors/batcher/round.rs)

    [Round] keeps the votes received ([pending_votes], one per signer and kind),
    those verified, the batch verifier and the certificates known.  An operation
    returns the new state with the messages it sent on the way; [None] is a
    panic. *)

From S2P Require Import Prelude Codec CodecOrdered ConsensusTypes Ordered SimplexTypes SimplexEvidence.
From S2P Require Import Emit BatcherVerifier.

(** What the batcher sends: to the blocker, the reporter, the voter that asked for
    an update, and the voter's mailbox. *)
Inductive Out {T : Types} : Type :=
| OBlock (k : PublicKey)
| OReport (a : Activity)
| OActive (is_active : bool)
| OProposal (p : Proposal)
| ORecovered (c : Cert).

Notation W := (Emit.W Out).

Module BatcherRound.
Section Ops.
Context {T : Types} `{!Ord PublicKey, !EqDecision Signature}.

#[export] Instance Attestation_eq_dec : EqDecision Attestation.
Proof. solve_decision. Defined.
#[export] Instance Notarize_eq_dec : EqDecision Notarize.
Proof. solve_decision. Defined.
#[export] Instance Nullify_eq_dec : EqDecision Nullify.
Proof. solve_decision. Defined.
#[export] Instance Finalize_eq_dec : EqDecision Finalize.
Proof. solve_decision. Defined.

Record Round : Type := mkRound {
  br_participants : list PublicKey;
  verifier : BatcherVerifier.Verifier;
  pending_votes : VoteTracker;
  verified_votes : VoteTracker;
  proposal_sent : bool;
  notarization : option Notarization;
  nullification : option Nullification;
  finalization : option Finalization;
}.
Implicit Types r : Round.

Definition new (participants : list PublicKey) : option Round :=
  quorum ← Ordered.quorum participants;
  let len := length participants in
  Some (mkRound participants (BatcherVerifier.new quorum) (VoteTracker.new len) (VoteTracker.new len)
    false None None None).

Definition has_notarization r : bool := bool_decide (is_Some (notarization r)).
Definition has_nullification r : bool := bool_decide (is_Some (nullification r)).
Definition has_finalization r : bool := bool_decide (is_Some (finalization r)).
Definition set_notarization r (n : Notarization) : Round := r {{ notarization := Some n }}.
Definition set_nullification r (n : Nullification) : Round := r {{ nullification := Some n }}.
Definition set_finalization r (f : Finalization) : Round := r {{ finalization := Some f }}.

(** The vote is refused and its sender blocked. *)
Definition block r (sender : PublicKey) : W (Round * bool) :=
  Some (r, false, [OBlock sender]).
(** The sender signed two conflicting votes. *)
Definition expose r (sender : PublicKey) (a : Activity) : W (Round * bool) :=
  Some (r, false, [OReport a; OBlock sender]).

Definition add_network_notarize r (sender : PublicKey) (n : Notarize) (index : Z)
    : W (Round * bool) :=
  if negb (index =? notarize_signer n) then block r sender
  else
    match VoteTracker.notarize (pending_votes r) index with
    | Some previous =>
        if bool_decide (previous ≠ n) then
          let^ e := wlift (ConflictingNotarize_new previous n) in
          expose r sender (AcConflictingNotarize e)
        else Some (r, false, [])
    | None =>
        Some (r {{ pending_votes := (VoteTracker.insert_notarize (pending_votes r) n).1;
                   verifier := (BatcherVerifier.add (verifier r) (VNotarize n) false).1 }},
              true, [OReport (AcNotarize n)])
    end.

Definition add_network_nullify r (sender : PublicKey) (n : Nullify) (index : Z)
    : W (Round * bool) :=
  if negb (index =? nullify_signer n) then block r sender
  else
    match VoteTracker.finalize (pending_votes r) index with
    | Some previous =>
        let^ e := wlift (NullifyFinalize_new n previous) in
        expose r sender (AcNullifyFinalize e)
    | None =>
        match VoteTracker.nullify (pending_votes r) index with
        | Some previous => if bool_decide (previous ≠ n) then block r sender else Some (r, false, [])
        | None =>
            Some (r {{ pending_votes := (VoteTracker.insert_nullify (pending_votes r) n).1;
                       verifier := (BatcherVerifier.add (verifier r) (VNullify n) false).1 }},
                  true, [OReport (AcNullify n)])
        end
    end.

Definition add_network_finalize r (sender : PublicKey) (f : Finalize) (index : Z)
    : W (Round * bool) :=
  if negb (index =? finalize_signer f) then block r sender
  else
    match VoteTracker.nullify (pending_votes r) index with
    | Some previous =>
        let^ e := wlift (NullifyFinalize_new previous f) in
        expose r sender (AcNullifyFinalize e)
    | None =>
        match VoteTracker.finalize (pending_votes r) index with
        | Some previous =>
            if bool_decide (previous ≠ f) then
              let^ e := wlift (ConflictingFinalize_new previous f) in
              expose r sender (AcConflictingFinalize e)
            else Some (r, false, [])
        | None =>
            Some (r {{ pending_votes := (VoteTracker.insert_finalize (pending_votes r) f).1;
                       verifier := (BatcherVerifier.add (verifier r) (VFinalize f) false).1 }},
                  true, [OReport (AcFinalize f)])
        end
    end.

Definition add_network r (sender : PublicKey) (msg : Vote) : W (Round * bool) :=
  let^ index := wlift (Ordered.index_of (br_participants r) sender) in
  match index with
  | None => block r sender
  | Some index =>
      match msg with
      | VNotarize n => add_network_notarize r sender n index
      | VNullify n => add_network_nullify r sender n index
      | VFinalize f => add_network_finalize r sender f index
      end
  end.

Definition add_verified r (v : Vote) : Round :=
  r {{ verified_votes :=
    match v with
    | VNotarize n => (VoteTracker.insert_notarize (verified_votes r) n).1
    | VNullify n => (VoteTracker.insert_nullify (verified_votes r) n).1
    | VFinalize f => (VoteTracker.insert_finalize (verified_votes r) f).1
    end }}.

(** Our own votes; the assertion that they are the first of their kind fails with
    [None]. *)
Definition add_constructed r (msg : Vote) : W Round :=
  let '((pending, fresh), activity) :=
    match msg with
    | VNotarize n => (VoteTracker.insert_notarize (pending_votes r) n, AcNotarize n)
    | VNullify n => (VoteTracker.insert_nullify (pending_votes r) n, AcNullify n)
    | VFinalize f => (VoteTracker.insert_finalize (pending_votes r) f, AcFinalize f)
    end in
  if negb fresh then None
  else
    let '(v, accepted) := BatcherVerifier.add (verifier r) msg true in
    let r := r {{ pending_votes := pending; verifier := v }} in
    Some (if accepted then add_verified r msg else r, [OReport activity]).

Definition set_leader r (leader : Z) : option Round :=
  v ← BatcherVerifier.set_leader (verifier r) leader; Some (r {{ verifier := v }}).

Definition forward_proposal r (me : Z) : option (Round * option Proposal) :=
  if proposal_sent r then Some (r, None)
  else
    found ← BatcherVerifier.get_leader_proposal (verifier r);
    match found with
    | None => Some (r, None)
    | Some (leader, proposal) =>
        Some (r {{ proposal_sent := true }}, if leader =? me then None else Some proposal)
    end.

Definition ready_notarizes r : bool :=
  if has_notarization r then false else BatcherVerifier.ready_notarizes (verifier r).
Definition ready_nullifies r : bool :=
  if has_nullification r then false else BatcherVerifier.ready_nullifies (verifier r).
Definition ready_finalizes r : bool :=
  if has_finalization r then false else BatcherVerifier.ready_finalizes (verifier r).

Definition on_verifier r (x : BatcherVerifier.Verifier * (list Vote * list Z)) : Round * (list Vote * list Z) :=
  (r {{ verifier := x.1 }}, x.2).
Definition verify_notarizes (batch : Batch) r (namespace : bytes) : Round * (list Vote * list Z) :=
  on_verifier r (BatcherVerifier.verify_notarizes batch (verifier r) namespace).
Definition verify_nullifies (batch : Batch) r (namespace : bytes) : Round * (list Vote * list Z) :=
  on_verifier r (BatcherVerifier.verify_nullifies batch (verifier r) namespace).
Definition verify_finalizes (batch : Batch) r (namespace : bytes) : Round * (list Vote * list Z) :=
  on_verifier r (BatcherVerifier.verify_finalizes batch (verifier r) namespace).

Definition is_active r (leader : Z) : bool :=
  VoteTracker.has_notarize (pending_votes r) leader
  || VoteTracker.has_nullify (pending_votes r) leader
  || VoteTracker.has_finalize (pending_votes r) leader.

(** The outer option is a panic of the conversions of lengths. *)
Definition try_construct_notarization r (scheme : Scheme) : option (Round * option Notarization) :=
  if has_notarization r then Some (r, None)
  else
    len ← VoteTracker.len_notarizes (verified_votes r);
    quorum ← Ordered.quorum (br_participants r);
    if len <? quorum then Some (r, None)
    else
      match from_notarizes scheme (VoteTracker.iter_notarizes (verified_votes r)) with
      | None => Some (r, None)
      | Some n => Some (set_notarization r n, Some n)
      end.
Definition try_construct_nullification r (scheme : Scheme) : option (Round * option Nullification) :=
  if has_nullification r then Some (r, None)
  else
    len ← VoteTracker.len_nullifies (verified_votes r);
    quorum ← Ordered.quorum (br_participants r);
    if len <? quorum then Some (r, None)
    else
      match from_nullifies scheme (VoteTracker.iter_nullifies (verified_votes r)) with
      | None => Some (r, None)
      | Some n => Some (set_nullification r n, Some n)
      end.
Definition try_construct_finalization r (scheme : Scheme) : option (Round * option Finalization) :=
  if has_finalization r then Some (r, None)
  else
    len ← VoteTracker.len_finalizes (verified_votes r);
    quorum ← Ordered.quorum (br_participants r);
    if len <? quorum then Some (r, None)
    else
      match from_finalizes scheme (VoteTracker.iter_finalizes (verified_votes r)) with
      | None => Some (r, None)
      | Some f => Some (set_finalization r f, Some f)
      end.
End Ops.
End BatcherRound.
