(* ===== verification/BatcherInvariant.v ===== *)
(** * What the batcher maintains in each view

    [round_ok] is the invariant of a [BatcherRound.Round]: whose votes it holds,
    which of them were verified, and for which proposal.  Every operation of the
    round keeps it and, on votes it may be given, does not panic. *)

From S2P Require Import Prelude Codec CodecOrdered ConsensusTypes Ordered SimplexTypes SimplexEvidence.
From S2P Require Import Emit BatcherVerifier BatcherRound.

Module BatcherInvariant.
#[local] Arguments constant {_} _ _ /.

(** ** Maps with one entry per signer *)

Section Tracked.
Context {A : Type} (signer_of : A → Z) (n : nat).
Implicit Types m : AttributableMap A.

Record tracked (ok : A → Prop) m : Prop := {
  tr_wf : AttributableMap.wf signer_of m;
  tr_length : length (am_data m) = n;
  tr_ok x : x ∈ AttributableMap.iter m → 0 ≤ signer_of x ∧ ok x;
}.

Lemma iter_lookup m x : x ∈ AttributableMap.iter m ↔ ∃ i, am_data m !! i = Some (Some x).
Proof.
  unfold AttributableMap.iter. rewrite list_elem_of_omap. setoid_rewrite list_elem_of_lookup. naive_solver.
Qed.

Lemma tracked_new ok : tracked ok (AttributableMap.new n).
Proof.
  split; [apply AttributableMap.map_new_wf|apply length_replicate|].
  intros x (i & H)%iter_lookup. simpl in H. by apply lookup_replicate in H as [? _].
Qed.

Lemma tracked_mono (ok ok' : A → Prop) m : (∀ x, ok x → ok' x) → tracked ok m → tracked ok' m.
Proof. intros H [H1 H2 H3]. split; [done..|]. intros x Hx. naive_solver. Qed.

Lemma tracked_insert ok m x : tracked ok m → 0 ≤ signer_of x → ok x →
  tracked ok (AttributableMap.insert signer_of m x).1.
Proof.
  intros [H1 H2 H3] Hs Hx. split; [by apply AttributableMap.insert_wf|by rewrite AttributableMap.insert_length|].
  intros y (i & Hi)%iter_lookup. unfold AttributableMap.insert in Hi.
  destruct (am_data m !! Z.to_nat (signer_of x)) as [[z|]|] eqn:E; simpl in Hi;
    try (apply H3, iter_lookup; eauto; done).
  apply list_lookup_insert_Some in Hi as [(<- & [= <-] & _)|[_ Hi]]; [done|]. apply H3, iter_lookup. eauto.
Qed.

Lemma tracked_get ok m i x : tracked ok m → 0 ≤ i → AttributableMap.get m i = Some x → signer_of x = i ∧ ok x.
Proof.
  intros [H1 H2 H3] Hi Hg. unfold AttributableMap.get in Hg.
  assert (am_data m !! Z.to_nat i = Some (Some x)) as E by (by destruct (am_data m !! Z.to_nat i) as [[y|]|]; simplify_eq/=).
  pose proof (AttributableMap.wf_signer _ _ H1 _ _ E).
  destruct (H3 x) as [? ?]; [apply iter_lookup; eauto|]. split; [lia|done].
Qed.

(** The entry of a signer that has none yet. *)
Lemma tracked_fresh ok m x : tracked ok m → 0 ≤ signer_of x < Z.of_nat n →
  AttributableMap.get m (signer_of x) = None → (AttributableMap.insert signer_of m x).2 = true.
Proof.
  intros [H1 H2 H3] Hs Hg. unfold AttributableMap.get in Hg. unfold AttributableMap.insert.
  destruct (lookup_lt_is_Some_2 (am_data m) (Z.to_nat (signer_of x))) as [o Ho]; [lia|].
  rewrite Ho in *. by destruct o.
Qed.

Lemma omap_nodup (l : list (option A)) k :
  (∀ i x, l !! i = Some (Some x) → Z.to_nat (signer_of x) = (k + i)%nat) →
  NoDup (signer_of <$> omap id l) ∧ ∀ x, x ∈ omap id l → (k ≤ Z.to_nat (signer_of x))%nat.
Proof.
  revert k. induction l as [|o l IH]; intros k Hl; simpl; [split; [constructor|by intros ? ?%not_elem_of_nil]|].
  destruct (IH (S k)) as [Hd Hk]; [intros i x Hi; rewrite (Hl (S i) x Hi); lia|].
  destruct o as [y|]; simpl; [|split; [done|]; intros x Hx; specialize (Hk x Hx); lia].
  pose proof (Hl 0%nat y eq_refl) as Hy. split.
  - constructor; [|done]. intros (x & E & Hx)%list_elem_of_fmap. specialize (Hk x Hx). rewrite <- E in Hk. lia.
  - intros x [->|Hx]%elem_of_cons; [lia|]. specialize (Hk x Hx). lia.
Qed.

Lemma tracked_nodup ok m : tracked ok m → NoDup (signer_of <$> AttributableMap.iter m).
Proof. intros [H1 _ _]. by apply (omap_nodup _ 0), (AttributableMap.wf_signer _ _ H1). Qed.

Lemma tracked_len ok m : tracked ok m →
  AttributableMap.len m = Z.of_nat (length (AttributableMap.iter m)) ∧ (length (AttributableMap.iter m) ≤ n)%nat.
Proof. intros [H1 H2 _]. split; [exact (AttributableMap.wf_added _ _ H1)|]. rewrite <- H2. apply AttributableMap.iter_length; done. Qed.
End Tracked.

(** ** Votes of either kind *)

Section Votes.
Context {T : Types}.

Definition vote_signer (x : Vote) : Z :=
  match x with
  | VNotarize n => notarize_signer n
  | VNullify n => nullify_signer n
  | VFinalize f => finalize_signer f
  end.
Definition vote_round (x : Vote) : Rnd :=
  match x with
  | VNotarize n => round (nt_proposal n)
  | VNullify n => nl_round n
  | VFinalize f => round (fz_proposal f)
  end.
Definition vote_proposal (x : Vote) : option Proposal :=
  match x with
  | VNotarize n => Some (nt_proposal n)
  | VNullify _ => None
  | VFinalize f => Some (fz_proposal f)
  end.
Definition vote_verify (s : SimplexEvidence.Verifier) (namespace : bytes) (x : Vote) : bool :=
  match x with
  | VNotarize n => notarize_verify s namespace n
  | VNullify n => nullify_verify s namespace n
  | VFinalize f => finalize_verify s namespace f
  end.
(** The vote of the same kind a tracker holds for a signer. *)
Definition same_kind (t : VoteTracker) (x : Vote) (i : Z) : option Vote :=
  match x with
  | VNotarize _ => VNotarize <$> VoteTracker.notarize t i
  | VNullify _ => VNullify <$> VoteTracker.nullify t i
  | VFinalize _ => VFinalize <$> VoteTracker.finalize t i
  end.
Definition insert_vote (t : VoteTracker) (x : Vote) : VoteTracker * bool :=
  match x with
  | VNotarize n => VoteTracker.insert_notarize t n
  | VNullify n => VoteTracker.insert_nullify t n
  | VFinalize f => VoteTracker.insert_finalize t f
  end.
Definition queued (v : BatcherVerifier.Verifier) : list Vote :=
  (VNotarize <$> BatcherVerifier.notarizes v) ++ (VNullify <$> BatcherVerifier.nullifies v)
  ++ (VFinalize <$> BatcherVerifier.finalizes v).

Context (n : nat).

Record tracker_ok (ok : Vote → Prop) (t : VoteTracker) : Prop := {
  tk_notarizes : tracked notarize_signer n (ok ∘ VNotarize) (vt_notarizes t);
  tk_nullifies : tracked nullify_signer n (ok ∘ VNullify) (vt_nullifies t);
  tk_finalizes : tracked finalize_signer n (ok ∘ VFinalize) (vt_finalizes t);
}.

Lemma tracker_new ok : tracker_ok ok (VoteTracker.new n).
Proof. split; apply tracked_new. Qed.

Lemma tracker_mono (ok ok' : Vote → Prop) t : (∀ x, ok x → ok' x) → tracker_ok ok t → tracker_ok ok' t.
Proof. intros H [H1 H2 H3]. split; (eapply tracked_mono; [|done]); simpl; intros; by apply H. Qed.

Lemma insert_notarize_fst t x : (VoteTracker.insert_notarize t x).1 =
  mkTracker (AttributableMap.insert notarize_signer (vt_notarizes t) x).1 (vt_nullifies t) (vt_finalizes t).
Proof. unfold VoteTracker.insert_notarize. by destruct (AttributableMap.insert _ _ _). Qed.
Lemma insert_nullify_fst t x : (VoteTracker.insert_nullify t x).1 =
  mkTracker (vt_notarizes t) (AttributableMap.insert nullify_signer (vt_nullifies t) x).1 (vt_finalizes t).
Proof. unfold VoteTracker.insert_nullify. by destruct (AttributableMap.insert _ _ _). Qed.
Lemma insert_finalize_fst t x : (VoteTracker.insert_finalize t x).1 =
  mkTracker (vt_notarizes t) (vt_nullifies t) (AttributableMap.insert finalize_signer (vt_finalizes t) x).1.
Proof. unfold VoteTracker.insert_finalize. by destruct (AttributableMap.insert _ _ _). Qed.

Lemma tracker_insert ok t x : tracker_ok ok t → 0 ≤ vote_signer x → ok x → tracker_ok ok (insert_vote t x).1.
Proof.
  intros [H1 H2 H3] Hs Hx. destruct x; simpl; rewrite ?insert_notarize_fst, ?insert_nullify_fst, ?insert_finalize_fst;
    split; simpl; try done; by apply tracked_insert.
Qed.

Lemma tracker_get ok t x i y : tracker_ok ok t → 0 ≤ i → same_kind t x i = Some y → vote_signer y = i ∧ ok y.
Proof.
  intros [H1 H2 H3] Hi. destruct x; simpl; intros (z & Hz & ->)%fmap_Some; simpl.
  - by apply (tracked_get _ _ _ _ _ _ H1).
  - by apply (tracked_get _ _ _ _ _ _ H2).
  - by apply (tracked_get _ _ _ _ _ _ H3).
Qed.

Lemma tracker_fresh ok t x : tracker_ok ok t → 0 ≤ vote_signer x < Z.of_nat n →
  same_kind t x (vote_signer x) = None → (insert_vote t x).2 = true.
Proof.
  intros [H1 H2 H3] Hs. destruct x as [v|v|v]; simpl in *; intros ?%fmap_None.
  - pose proof (tracked_fresh _ _ _ _ v H1 Hs H). unfold VoteTracker.insert_notarize. by destruct (AttributableMap.insert _ _ _).
  - pose proof (tracked_fresh _ _ _ _ v H2 Hs H). unfold VoteTracker.insert_nullify. by destruct (AttributableMap.insert _ _ _).
  - pose proof (tracked_fresh _ _ _ _ v H3 Hs H). unfold VoteTracker.insert_finalize. by destruct (AttributableMap.insert _ _ _).
Qed.
End Votes.

(** ** The verifier *)

Section VerifierSteps.
Context {T : Types}.
Implicit Types v : BatcherVerifier.Verifier.
Import BatcherVerifier.

Lemma queued_notarize v x : x ∈ notarizes v → VNotarize x ∈ queued v.
Proof. intros H. apply elem_of_app. left. by apply list_elem_of_fmap_2. Qed.

Lemma queued_leader_proposal v p x : x ∈ queued (set_leader_proposal v p) → x ∈ queued v.
Proof.
  unfold queued. simpl. rewrite !elem_of_app, !list_elem_of_fmap. setoid_rewrite list_elem_of_filter. naive_solver.
Qed.

Lemma add_queued v x b y : y ∈ queued (add v x b).1 → y ∈ queued v ∨ b = false ∧ y = x.
Proof.
  assert (∀ w, y ∈ queued (if b then w {{ notarizes_verified := notarizes_verified w + 1 }} else w) → y ∈ queued w) by (by destruct b).
  destruct x as [nt|nl|fz]; simpl.
  - assert (∀ w, y ∈ queued (if b then w {{ notarizes_verified := notarizes_verified w + 1 }}
      else w {{ notarizes := notarizes w ++ [nt] }}) → y ∈ queued w ∨ b = false ∧ y = VNotarize nt) as Hp.
    { intros w. destruct b; [by left|]. unfold queued, constant. simpl. rewrite !fmap_app, !elem_of_app. simpl. rewrite list_elem_of_singleton. tauto. }
    destruct (leader_proposal v) as [p|]; [case_bool_decide; simpl; [by left|by apply Hp]|].
    destruct (leader v) as [l|]; simpl; [|by apply Hp]. destruct (l =? _); [|by apply Hp].
    intros [Hq|Hq]%Hp; [|by right]. left. by eapply queued_leader_proposal.
  - destruct b; [by left|]. unfold queued, constant. simpl. rewrite !fmap_app, !elem_of_app. simpl. rewrite list_elem_of_singleton. tauto.
  - assert (y ∈ queued (if b then v {{ finalizes_verified := finalizes_verified v + 1 }}
      else v {{ finalizes := finalizes v ++ [fz] }}) → y ∈ queued v ∨ b = false ∧ y = VFinalize fz) as Hp.
    { destruct b; [by left|]. unfold queued, constant. simpl. rewrite !fmap_app, !elem_of_app. simpl. rewrite list_elem_of_singleton. tauto. }
    destruct (leader_proposal v) as [p|]; [case_bool_decide; simpl; [by left|by apply Hp]|by apply Hp].
Qed.

(** The proposal of the leader becomes known by a notarize vote of the leader. *)
Definition reveals v v' (x : Vote) : Prop :=
  leader_proposal v = None ∧ ∃ nt, x = VNotarize nt ∧ leader v' = Some (notarize_signer nt) ∧
    leader_proposal v' = Some (nt_proposal nt).

Lemma add_proposal v x b : quorum (add v x b).1 = quorum v ∧ leader (add v x b).1 = leader v ∧
  (leader_proposal (add v x b).1 = leader_proposal v ∨ reveals v (add v x b).1 x).
Proof.
  unfold reveals. destruct x as [nt|nl|fz]; simpl; [|by destruct b; eauto|]; destruct (leader_proposal v) as [p|] eqn:Ep.
  - case_bool_decide; simpl; [eauto|]. destruct b; simpl; eauto.
  - destruct (leader v) as [l|] eqn:El; simpl; [destruct (Z.eqb_spec l (notarize_signer nt)) as [->|]|];
      destruct b; simpl; eauto 8.
  - case_bool_decide; simpl; [eauto|]. destruct b; simpl; eauto.
  - destruct b; simpl; eauto.
Qed.

Lemma set_leader_spec v l : leader v = None → wf v → ∃ v', set_leader v l = Some v' ∧
  leader v' = Some l ∧ quorum v' = quorum v ∧ (∀ x, x ∈ queued v' → x ∈ queued v) ∧
  (leader_proposal v' = None ∨ ∃ x, x ∈ queued v ∧ reveals v v' x).
Proof.
  intros El [Hw _ _]. unfold set_leader, reveals. rewrite El.
  assert (leader_proposal v = None) as Ep.
  { destruct (leader_proposal v) as [p|] eqn:E; [|done]. destruct (Hw ltac:(eauto)) as [? ?]. congruence. }
  destruct (head _) as [nt|] eqn:E.
  - assert (nt ∈ filter (λ n, notarize_signer n = l) (notarizes (v {{ leader := Some l }}))) as [<- Hin]%list_elem_of_filter.
    { apply head_Some in E as [l' ->]. constructor. }
    eexists. split; [done|]. split; [done|]. split; [done|]. split; [apply queued_leader_proposal|].
    right. exists (VNotarize nt). split; [by apply queued_notarize|]. eauto 8.
  - eexists. split; [done|]. split; [done|]. split; [done|]. split; [done|]. by left.
Qed.
End VerifierSteps.

(** ** The round *)

Section RoundInvariant.
Context {T : Types} `{!Ord PublicKey, !EqDecision Signature}.
Context (scheme : Scheme) (sv : SimplexEvidence.Verifier) (batch : Batch) `{!BatchVerification sv batch}.
Context (ep : Z) (namespace : bytes) (q self : Z).
Context (Hasc : CodecOrdered.ascending (participants scheme)).
Context (Hsize : Z.of_nat (length (participants scheme)) < 2 ^ 32).
Context (Hq : Ordered.quorum (participants scheme) = Some q).
Context (Hself : 0 ≤ self < Z.of_nat (length (participants scheme))).
Implicit Types v : Z.
Implicit Types r : BatcherRound.Round.
Implicit Types x y : Vote.
Import BatcherRound.

Notation n := (length (participants scheme)).
Notation rnd v := (mkRnd ep v).

(** Every verified vote verifies, and unless it is our own it is for the
    proposal of the leader. *)
Definition genuine v (lp : option Proposal) x : Prop :=
  vote_round x = rnd v ∧ vote_verify sv namespace x = true ∧
  (vote_signer x = self ∨ ∀ p, vote_proposal x = Some p → lp = Some p).

Definition pending_ok (made : Vote → Prop) v x : Prop :=
  vote_round x = rnd v ∧ (vote_signer x = self → made x).

(** [made] are the votes we constructed, [got] those received from their signers
    and [led] the leaders we were told. *)
Record round_ok (made got : Vote → Prop) (led : Z → Prop) v r : Prop := {
  ro_participants : br_participants r = participants scheme;
  ro_verifier : BatcherVerifier.wf (verifier r);
  ro_quorum : BatcherVerifier.quorum (verifier r) = q;
  ro_pending : tracker_ok n (pending_ok made v) (pending_votes r);
  ro_verified : tracker_ok n (genuine v (BatcherVerifier.leader_proposal (verifier r))) (verified_votes r);
  ro_queued x : x ∈ queued (verifier r) → 0 ≤ vote_signer x ∧ vote_round x = rnd v ∧ got x;
  ro_leader l : BatcherVerifier.leader (verifier r) = Some l → led l;
  ro_proposal p : BatcherVerifier.leader_proposal (verifier r) = Some p →
    ∃ nt, nt_proposal nt = p ∧ round p = rnd v ∧
      BatcherVerifier.leader (verifier r) = Some (notarize_signer nt) ∧
      (got (VNotarize nt) ∨ notarize_signer nt = self);
}.

Lemma round_ok_mono (made made' got got' : Vote → Prop) (led led' : Z → Prop) v r :
  (∀ x, made x → made' x) → (∀ x, got x → got' x) → (∀ l, led l → led' l) →
  round_ok made got led v r → round_ok made' got' led' v r.
Proof.
  intros Hm Hg Hl [R1 R2 R3 R4 R5 R6 R7 R8]. split; try done.
  - eapply tracker_mono; [|done]. intros x [? ?]. split; auto.
  - intros x Hx. destruct (R6 x Hx) as (? & ? & ?). auto.
  - auto.
  - intros p Hp. destruct (R8 p Hp) as (nt & ? & ? & ? & [?|?]); exists nt; split_and!; auto.
Qed.

Lemma round_new made got led v : ∃ r, BatcherRound.new (participants scheme) = Some r ∧ round_ok made got led v r.
Proof.
  unfold BatcherRound.new. rewrite Hq. simpl. eexists. split; [done|]. split; simpl; try done.
  - apply BatcherVerifier.new_wf.
  - apply tracker_new.
  - apply tracker_new.
  - by intros x ?%not_elem_of_nil.
Qed.

(** Giving the verifier a vote. *)
Lemma genuine_add v lp lp' x : lp' = lp ∨ lp = None → genuine v lp x → genuine v lp' x.
Proof.
  intros Hl (H1 & H2 & H3). split; [done|]. split; [done|]. destruct H3 as [H3|H3]; [by left|right].
  intros p Hp. specialize (H3 p Hp). destruct Hl as [->| ->]; done.
Qed.

Definition give r x (b : bool) : BatcherRound.Round := r {{ BatcherRound.verifier := (BatcherVerifier.add (verifier r) x b).1 }}.

Lemma give_ok made got led v r x (b : bool) : round_ok made got led v r → vote_round x = rnd v → 0 ≤ vote_signer x →
  (if b then vote_signer x = self else got x) → round_ok made got led v (give r x b).
Proof.
  intros [R1 R2 R3 R4 R5 R6 R7 R8] Hr Hs Hb. pose proof (BatcherVerifier.add_wf (verifier r) x b R2) as Hw.
  destruct (add_proposal (verifier r) x b) as (Eq & El & Ep). split; simpl; try done.
  - congruence.
  - eapply tracker_mono; [|done]. intros y. apply genuine_add. destruct Ep as [E|[E _]]; [by left|by right].
  - intros y [Hy|[-> ->]]%add_queued; auto.
  - rewrite El. done.
  - destruct Ep as [E|(_ & nt & -> & Hl & E)]; rewrite E; [rewrite El; apply R8|]. intros p [= <-].
    exists nt. rewrite Hl. split_and!; [done..|]. destruct b; auto.
Qed.

Lemma pend_ok made got led v r x : round_ok made got led v r → 0 ≤ vote_signer x → vote_round x = rnd v →
  (vote_signer x = self → made x) →
  round_ok made got led v (r {{ pending_votes := (insert_vote (pending_votes r) x).1 }}).
Proof. intros [R1 R2 R3 R4 R5 R6 R7 R8] Hs Hr Hm. split; try done. simpl. apply tracker_insert; [done..|by split]. Qed.

Lemma add_verified_ok made got led v r x : round_ok made got led v r → 0 ≤ vote_signer x →
  genuine v (BatcherVerifier.leader_proposal (verifier r)) x → round_ok made got led v (add_verified r x).
Proof.
  intros [R1 R2 R3 R4 R5 R6 R7 R8] Hs Hg. split; try done.
  pose proof (tracker_insert n _ (verified_votes r) x R5 Hs Hg) as H. by destruct x.
Qed.

Lemma add_all_verified_ok made got led v l : ∀ r, round_ok made got led v r →
  (∀ x, x ∈ l → 0 ≤ vote_signer x ∧ genuine v (BatcherVerifier.leader_proposal (verifier r)) x) →
  round_ok made got led v (fold_left add_verified l r) ∧
  verifier (fold_left add_verified l r) = verifier r.
Proof.
  induction l as [|x l IH]; intros r Hr Hl; [done|]. simpl.
  destruct (Hl x) as [? ?]; [constructor|]. destruct (IH (add_verified r x)) as [I1 I2].
  - by apply add_verified_ok.
  - intros y Hy. apply (Hl y). by constructor.
  - split; [exact I1|by rewrite I2].
Qed.

(** ** Votes from the network *)

Lemma index_total sender : ∃ o, Ordered.index_of (participants scheme) sender = Some o ∧
  ∀ i, o = Some i → 0 ≤ i < Z.of_nat n.
Proof.
  unfold Ordered.index_of. destruct (Ordered.position (participants scheme) sender) as [i|] eqn:E; [|by eexists].
  apply Ordered.binary_search_spec in E; [|done]. apply lookup_lt_Some in E.
  assert (fitsb 32 (Z.of_nat i) = true) as -> by (apply fitsb_spec; unfold fits; lia).
  eexists. split; [done|]. intros j [= <-]. lia.
Qed.

Definition quiet (o : Out) : Prop := match o with OProposal _ | ORecovered _ => False | _ => True end.
Definition all_quiet (o : list Out) : Prop := ∀ e, e ∈ o → quiet e.

Lemma all_quiet_nil : all_quiet [].
Proof. by intros e ?%not_elem_of_nil. Qed.
Lemma all_quiet_cons e o : quiet e → all_quiet o → all_quiet (e :: o).
Proof. intros H Ho z [->|Hz]%elem_of_cons; auto. Qed.
Lemma all_quiet_app o o' : all_quiet o → all_quiet o' → all_quiet (o ++ o').
Proof. intros H H' z [Hz|Hz]%elem_of_app; auto. Qed.

(** A network vote is taken, or refused in a state that does not change. *)
Definition settles made got led v r (w : W (Round * bool)) : Prop := ∃ r' b o,
  w = Some (r', b, o) ∧ round_ok made got led v r' ∧ all_quiet o ∧
  proposal_sent r' = proposal_sent r ∧ BatcherVerifier.leader (verifier r') = BatcherVerifier.leader (verifier r).

Lemma settles_block made got led v r sender : round_ok made got led v r → settles made got led v r (block r sender).
Proof. intros H. exists r, false. eexists. split_and!; try done. by apply all_quiet_cons, all_quiet_nil. Qed.

Lemma settles_expose made got led v r sender a : round_ok made got led v r → settles made got led v r (expose r sender a).
Proof. intros H. exists r, false. eexists. split_and!; try done. apply all_quiet_cons; [done|]. by apply all_quiet_cons, all_quiet_nil. Qed.

Lemma settles_same made got led v r : round_ok made got led v r → settles made got led v r (Some (r, false, [])).
Proof. intros H. exists r, false. eexists. split_and!; try done. apply all_quiet_nil. Qed.

Lemma settles_bind {A} made got led v r (m : option A) (a : A) k :
  m = Some a → settles made got led v r (k a) → settles made got led v r (let^ b := wlift m in k b).
Proof. intros -> (r' & b & o & E & H). exists r', b, o. unfold wbind, wlift. simpl. by rewrite E. Qed.

Lemma settles_take made got led v r x a : round_ok made got led v r → vote_round x = rnd v → 0 ≤ vote_signer x →
  vote_signer x ≠ self → got x →
  settles made got led v r (Some (give (r {{ pending_votes := (insert_vote (pending_votes r) x).1 }}) x false, true, [OReport a])).
Proof.
  intros Hr Hx Hs Hne Hg. do 3 eexists. split; [done|]. split.
  - apply give_ok; try done. by apply pend_ok.
  - split; [by apply all_quiet_cons, all_quiet_nil|]. split; [done|]. apply (add_proposal (verifier r) x false).
Qed.

Lemma matches_ok (a b : Z) (r1 r2 : Rnd) : a = b → r1 = r2 →
  negb (negb (a =? b) || negb (bool_decide (r1 = r2))) = true.
Proof. intros -> ->. rewrite Z.eqb_refl, bool_decide_true by done. done. Qed.

Ltac known_vote H4 x i :=
  match goal with
  | Hi : 0 ≤ i < _, E : ?get (pending_votes ?r) i = Some ?p |- _ =>
      let H := fresh "Hp" in
      first [ pose proof (tracker_get n _ _ (VNotarize p) i (VNotarize p) H4 ltac:(lia)) as H
            | pose proof (tracker_get n _ _ (VNullify p) i (VNullify p) H4 ltac:(lia)) as H
            | pose proof (tracker_get n _ _ (VFinalize p) i (VFinalize p) H4 ltac:(lia)) as H ];
      simpl in H; rewrite E in H; specialize (H eq_refl) as [H [? _]]; simpl in *
  end.

Lemma add_network_ok made got led v r sender x : round_ok made got led v r → vote_round x = rnd v →
  (∀ i, Ordered.index_of (participants scheme) sender = Some (Some i) → i ≠ self ∧ (vote_signer x = i → got x)) →
  settles made got led v r (add_network r sender x).
Proof.
  intros Hr Hx Hi. unfold add_network. rewrite (ro_participants _ _ _ _ _ Hr).
  destruct (index_total sender) as (o & Eo & Ho). eapply settles_bind; [exact Eo|]. pose proof (ro_pending _ _ _ _ _ Hr) as H4.
  destruct o as [i|]; [|by apply settles_block]. specialize (Ho i eq_refl). destruct (Hi i Eo) as [Hne Hg].
  destruct x as [nt|nl|fz]; simpl in Hx.
  - unfold add_network_notarize. destruct (Z.eqb_spec i (notarize_signer nt)) as [Es|]; [|by apply settles_block]. simpl.
    destruct (VoteTracker.notarize (pending_votes r) i) as [previous|] eqn:E.
    + known_vote H4 x i. case_bool_decide; [|by apply settles_same]. eapply settles_bind; [|by apply settles_expose].
      unfold ConflictingNotarize_new, notarizes_match. rewrite matches_ok; [done|congruence..].
    + apply (settles_take _ _ _ _ _ (VNotarize nt)); simpl; try done; [lia|congruence|by apply Hg].
  - unfold add_network_nullify. destruct (Z.eqb_spec i (nullify_signer nl)) as [Es|]; [|by apply settles_block]. simpl.
    destruct (VoteTracker.finalize (pending_votes r) i) as [previous|] eqn:E.
    + known_vote H4 x i. eapply settles_bind; [|by apply settles_expose].
      unfold NullifyFinalize_new, nullify_finalize_match. rewrite matches_ok; [done|congruence..].
    + destruct (VoteTracker.nullify (pending_votes r) i) as [previous|] eqn:E'.
      * case_bool_decide; [by apply settles_block|by apply settles_same].
      * apply (settles_take _ _ _ _ _ (VNullify nl)); simpl; try done; [lia|congruence|by apply Hg].
  - unfold add_network_finalize. destruct (Z.eqb_spec i (finalize_signer fz)) as [Es|]; [|by apply settles_block]. simpl.
    destruct (VoteTracker.nullify (pending_votes r) i) as [previous|] eqn:E.
    + known_vote H4 x i. eapply settles_bind; [|by apply settles_expose].
      unfold NullifyFinalize_new, nullify_finalize_match. rewrite matches_ok; [done|congruence..].
    + destruct (VoteTracker.finalize (pending_votes r) i) as [previous|] eqn:E'.
      * known_vote H4 x i. case_bool_decide; [|by apply settles_same]. eapply settles_bind; [|by apply settles_expose].
        unfold ConflictingFinalize_new, finalizes_match. rewrite matches_ok; [done|congruence..].
      * apply (settles_take _ _ _ _ _ (VFinalize fz)); simpl; try done; [lia|congruence|by apply Hg].
Qed.

(** ** Our own votes, the leader and its proposal *)

Definition activity_of x : Activity :=
  match x with VNotarize nt => AcNotarize nt | VNullify nl => AcNullify nl | VFinalize fz => AcFinalize fz end.

#[local] Arguments BatcherVerifier.add : simpl never.

Lemma add_constructed_eq r x : add_constructed r x =
  if (insert_vote (pending_votes r) x).2 then
    let r' := give (r {{ pending_votes := (insert_vote (pending_votes r) x).1 }}) x true in
    Some (if (BatcherVerifier.add (verifier r) x true).2 then add_verified r' x else r', [OReport (activity_of x)])
  else None.
Proof.
  unfold add_constructed, give. destruct r.
  destruct x; simpl; [destruct (VoteTracker.insert_notarize _ _) as [t []]|
    destruct (VoteTracker.insert_nullify _ _) as [t []]|destruct (VoteTracker.insert_finalize _ _) as [t []]];
    simpl; try done;
    match goal with |- context [BatcherVerifier.add ?a ?b ?c] => by destruct (BatcherVerifier.add a b c) end.
Qed.

Lemma add_constructed_ok made got led v r x : round_ok made got led v r →
  vote_signer x = self → vote_round x = rnd v → vote_verify sv namespace x = true → made x →
  same_kind (pending_votes r) x self = None →
  ∃ r', add_constructed r x = Some (r', [OReport (activity_of x)]) ∧ round_ok made got led v r' ∧
    proposal_sent r' = proposal_sent r ∧ BatcherVerifier.leader (verifier r') = BatcherVerifier.leader (verifier r).
Proof.
  intros Hr Hs Hx Hv Hm Hk. rewrite add_constructed_eq.
  rewrite (tracker_fresh n _ _ _ (ro_pending _ _ _ _ _ Hr)) by (rewrite Hs; done || lia). cbv zeta.
  eexists. split; [done|].
  set (r' := give _ x true). assert (round_ok made got led v r') as Hr'.
  { apply give_ok; [|done|lia|done]. by apply pend_ok; [|lia|..]. }
  assert (BatcherVerifier.leader (verifier r') = BatcherVerifier.leader (verifier r)) as Hl by apply (add_proposal (verifier r) x true).
  destruct (BatcherVerifier.add (verifier r) x true).2; split_and!; try done.
  apply add_verified_ok; [done|lia|]. split; [done|]. split; [done|by left].
Qed.

Lemma set_leader_ok made got led v r l : round_ok made got led v r →
  BatcherVerifier.leader (verifier r) = None → led l →
  ∃ r', set_leader r l = Some r' ∧ round_ok made got led v r' ∧ proposal_sent r' = proposal_sent r.
Proof.
  intros [R1 R2 R3 R4 R5 R6 R7 R8] Hn Hl. unfold set_leader.
  destruct (set_leader_spec (verifier r) l Hn R2) as (w & Ew & El & Eq & Hsub & Hp). rewrite Ew. simpl.
  eexists. split; [done|]. split; [|done].
  assert (BatcherVerifier.leader_proposal (verifier r) = None) as Ep.
  { destruct (BatcherVerifier.leader_proposal (verifier r)) as [p|] eqn:E; [|done].
    destruct (BatcherVerifier.w_leader _ R2 ltac:(eauto)) as [? ?]. congruence. }
  split; simpl; try done.
  - by eapply BatcherVerifier.set_leader_wf.
  - congruence.
  - eapply tracker_mono; [|done]. intros y. apply genuine_add. by right.
  - intros y Hy. by apply R6, Hsub.
  - rewrite El. by intros ? [= <-].
  - intros p Hw. destruct Hp as [E|(x & Hx & _ & nt & -> & E1 & E2)]; [congruence|]. destruct (R6 _ Hx) as (? & Hrd & ?).
    rewrite Hw in E2. injection E2 as ->. exists nt. rewrite El in *. split_and!; auto.
Qed.

Lemma set_sent_ok made got led v r b : round_ok made got led v r → round_ok made got led v (r {{ proposal_sent := b }}).
Proof. by intros [R1 R2 R3 R4 R5 R6 R7 R8]. Qed.

Lemma forward_proposal_ok made got led v r : round_ok made got led v r →
  ∃ r' o, forward_proposal r self = Some (r', o) ∧ round_ok made got led v r' ∧
    BatcherVerifier.leader (verifier r') = BatcherVerifier.leader (verifier r) ∧
    (proposal_sent r = true → proposal_sent r' = true ∧ o = None) ∧
    ∀ p, o = Some p → proposal_sent r' = true ∧ round p = rnd v ∧
      ∃ nt, nt_proposal nt = p ∧ got (VNotarize nt) ∧ led (notarize_signer nt) ∧ notarize_signer nt ≠ self.
Proof.
  intros Hr. pose proof Hr as [R1 R2 R3 R4 R5 R6 R7 R8]. unfold forward_proposal, BatcherVerifier.get_leader_proposal.
  destruct (proposal_sent r) eqn:Es; [by exists r, None|].
  destruct (BatcherVerifier.leader_proposal (verifier r)) as [p|] eqn:Ep; [|by exists r, None]. simpl.
  destruct (R8 p eq_refl) as (nt & <- & Hrd & El & Hg). rewrite El. simpl. do 2 eexists. split; [done|].
  split; [by apply set_sent_ok|]. split; [done|]. split; [done|]. intros p. destruct (Z.eqb_spec (notarize_signer nt) self); [done|].
  intros [= <-]. split; [done|]. split; [done|]. exists nt. destruct Hg as [Hg|?]; [|done]. auto.
Qed.

(** ** Certificates *)

(** A certificate put together from verified votes of a quorum. *)
Definition assembled v (c : Cert) : Prop :=
  match c with
  | CNotarization m => ∃ l lp, from_notarizes scheme l = Some m ∧ q ≤ Z.of_nat (length l) ∧
      NoDup (notarize_signer <$> l) ∧ ∀ nt, nt ∈ l → 0 ≤ notarize_signer nt ∧ genuine v lp (VNotarize nt)
  | CNullification m => ∃ l, from_nullifies scheme l = Some m ∧ q ≤ Z.of_nat (length l) ∧
      NoDup (nullify_signer <$> l) ∧ ∀ nl, nl ∈ l → 0 ≤ nullify_signer nl ∧ genuine v None (VNullify nl)
  | CFinalization m => ∃ l lp, from_finalizes scheme l = Some m ∧ q ≤ Z.of_nat (length l) ∧
      NoDup (finalize_signer <$> l) ∧ ∀ fz, fz ∈ l → 0 ≤ finalize_signer fz ∧ genuine v lp (VFinalize fz)
  end.

Lemma set_certificates_ok made got led v r a b c : round_ok made got led v r →
  round_ok made got led v (r {{ notarization := a; nullification := b; finalization := c }}).
Proof. by intros [R1 R2 R3 R4 R5 R6 R7 R8]. Qed.

Lemma fits_len {A} (f : A → Z) ok m : tracked f n ok m → VoteTracker.to_u32 (AttributableMap.len m) =
  Some (Z.of_nat (length (AttributableMap.iter m))).
Proof.
  intros Hm. destruct (tracked_len _ _ _ _ Hm) as [-> Hl]. unfold VoteTracker.to_u32.
  assert (fitsb 32 (Z.of_nat (length (AttributableMap.iter m))) = true) as ->; [|done].
  apply fitsb_spec. unfold fits. lia.
Qed.

(** The outcome of one attempt to construct a certificate. *)
Definition constructs {A} made got led v r (ctor : A → Cert) (x : option (Round * option A)) : Prop := ∃ r' o,
  x = Some (r', o) ∧ round_ok made got led v r' ∧ proposal_sent r' = proposal_sent r ∧
  verifier r' = verifier r ∧ ∀ c, o = Some c → assembled v (ctor c).

Lemma constructs_none {A} made got led v r (ctor : A → Cert) : round_ok made got led v r →
  constructs made got led v r ctor (Some (r, None)).
Proof. intros Hr. by exists r, None. Qed.

Lemma try_construct_notarization_ok made got led v r : round_ok made got led v r →
  constructs made got led v r CNotarization (try_construct_notarization r scheme).
Proof.
  intros Hr. pose proof Hr as [R1 R2 R3 R4 R5 R6 R7 R8]. unfold try_construct_notarization.
  destruct (has_notarization r); [by apply constructs_none|]. destruct R5 as [V1 V2 V3].
  unfold VoteTracker.len_notarizes. rewrite (fits_len _ _ _ V1), R1, Hq. simpl.
  case_match eqn:El; [by apply constructs_none|]. bool_to_prop.
  destruct (from_notarizes _ _) as [m|] eqn:Em; [|by apply constructs_none].
  do 2 eexists. split; [done|]. split; [by apply set_certificates_ok|]. split; [done|]. split; [done|].
  intros c [= <-]. do 2 eexists. split; [exact Em|]. split; [done|].
  split; [by eapply tracked_nodup|]. intros nt Hnt. by apply V1 in Hnt.
Qed.

Lemma try_construct_nullification_ok made got led v r : round_ok made got led v r →
  constructs made got led v r CNullification (try_construct_nullification r scheme).
Proof.
  intros Hr. pose proof Hr as [R1 R2 R3 R4 R5 R6 R7 R8]. unfold try_construct_nullification.
  destruct (has_nullification r); [by apply constructs_none|]. destruct R5 as [V1 V2 V3].
  unfold VoteTracker.len_nullifies. rewrite (fits_len _ _ _ V2), R1, Hq. simpl.
  case_match eqn:El; [by apply constructs_none|]. bool_to_prop.
  destruct (from_nullifies _ _) as [m|] eqn:Em; [|by apply constructs_none].
  do 2 eexists. split; [done|]. split; [by apply set_certificates_ok|]. split; [done|]. split; [done|].
  intros c [= <-]. eexists. split; [exact Em|]. split; [done|].
  split; [by eapply tracked_nodup|]. intros nl Hnl. apply V2 in Hnl as [? (H1 & H2 & _)].
  split; [done|]. split; [done|]. split; [done|]. by right.
Qed.

Lemma try_construct_finalization_ok made got led v r : round_ok made got led v r →
  constructs made got led v r CFinalization (try_construct_finalization r scheme).
Proof.
  intros Hr. pose proof Hr as [R1 R2 R3 R4 R5 R6 R7 R8]. unfold try_construct_finalization.
  destruct (has_finalization r); [by apply constructs_none|]. destruct R5 as [V1 V2 V3].
  unfold VoteTracker.len_finalizes. rewrite (fits_len _ _ _ V3), R1, Hq. simpl.
  case_match eqn:El; [by apply constructs_none|]. bool_to_prop.
  destruct (from_finalizes _ _) as [m|] eqn:Em; [|by apply constructs_none].
  do 2 eexists. split; [done|]. split; [by apply set_certificates_ok|]. split; [done|]. split; [done|].
  intros c [= <-]. do 2 eexists. split; [exact Em|]. split; [done|].
  split; [by eapply tracked_nodup|]. intros fz Hfz. by apply V3 in Hfz.
Qed.
End RoundInvariant.
End BatcherInvariant.
