(* ===== verification/BatcherActor.v ===== *)
(** * The batcher actor (consensus/src/simplex/actors/batcher/actor.rs)

    The batcher stands between the network and the voter: it checks the votes and
    certificates that arrive, assembles certificates from verified votes and
    forwards them and the leader's proposal.  [handle] is one turn of its loop on a
    message; [None] is a panic. *)

From S2P Require Import Prelude Codec CodecOrdered ConsensusTypes Ordered SimplexTypes SimplexEvidence.
From S2P Require Import Emit BatcherVerifier BatcherRound.

(** What the select of the loop receives; a message of a peer that cannot be
    decoded is [None]. *)
Inductive Incoming {T : Types} : Type :=
| MUpdate (current leader finalized : Z)
| MConstructed (v : Vote)
| MCertificate (sender : PublicKey) (c : option Cert)
| MVote (sender : PublicKey) (v : option Vote).

(** The epoch a message is for. *)
Definition vote_epoch {T : Types} (v : Vote) : Z :=
  match v with
  | VNotarize n => rnd_epoch (round (nt_proposal n))
  | VNullify n => rnd_epoch (nl_round n)
  | VFinalize f => rnd_epoch (round (fz_proposal f))
  end.
Definition cert_epoch {T : Types} (c : Cert) : Z :=
  match c with
  | CNotarization n => rnd_epoch (round (nz_proposal n))
  | CNullification n => rnd_epoch (nlz_round n)
  | CFinalization f => rnd_epoch (round (fzz_proposal f))
  end.

Module BatcherActor.
Section Actor.
Context {T : Types} `{!Ord PublicKey, !EqDecision Signature}.
Context (scheme : Scheme) (sv : SimplexEvidence.Verifier) (batch : Batch).
Context (activity_timeout skip_timeout ep : Z) (namespace : bytes).

(** The locals of the loop. *)
Record Batcher : Type := mkBatcher {
  current : Z;
  finalized : Z;
  work : gmap Z BatcherRound.Round;
}.
Implicit Types b : Batcher.

Definition start : Batcher := mkBatcher 0 0 ∅.

Definition entry b (v : Z) : option BatcherRound.Round :=
  match work b !! v with
  | Some r => Some r
  | None => BatcherRound.new (participants scheme)
  end.
Definition put b (v : Z) (r : BatcherRound.Round) : Batcher := b {{ work := <[v := r]> (work b) }}.
Definition is_interesting b (v : Z) (allow_future : bool) : option bool :=
  interesting activity_timeout (finalized b) (current b) v allow_future.

(** The rounds from the highest view down. *)
Definition recent b (n : nat) : list BatcherRound.Round :=
  snd <$> take n (reverse (Ordered.sort_by_key fst (map_to_list (work b)))).

(** A branch of the select returns the view it modified, if any. *)
Definition on_update b (new_current leader new_finalized : Z) : W (Batcher * option Z) :=
  let b := b {{ current := new_current; finalized := new_finalized }} in
  let^ r := wlift (entry b new_current) in
  let^ r := wlift (BatcherRound.set_leader r leader) in
  let b := put b new_current r in
  let is_active :=
    (Z.of_nat (size (work b)) <? skip_timeout)
    || existsb (λ r, BatcherRound.is_active r leader) (recent b (Z.to_nat skip_timeout)) in
  let^ _ := send (OActive is_active) in
  wret (b, Some new_current).

Definition on_constructed b (v : Vote) : W (Batcher * option Z) :=
  let^ ok := wlift (is_interesting b (vote_view v) false) in
  if negb ok then wret (b, None)
  else
    let^ r := wlift (entry b (vote_view v)) in
    let^ r := BatcherRound.add_constructed r v in
    wret (put b (vote_view v) r, Some (vote_view v)).

Definition has_certificate b (c : Cert) : bool :=
  match work b !! cert_view c with
  | None => false
  | Some r =>
      match c with
      | CNotarization _ => BatcherRound.has_notarization r
      | CNullification _ => BatcherRound.has_nullification r
      | CFinalization _ => BatcherRound.has_finalization r
      end
  end.
Definition cert_verify (c : Cert) : bool :=
  match c with
  | CNotarization n => notarization_verify sv namespace n
  | CNullification n => nullification_verify sv namespace n
  | CFinalization f => finalization_verify sv namespace f
  end.
Definition set_certificate (r : BatcherRound.Round) (c : Cert) : BatcherRound.Round :=
  match c with
  | CNotarization n => BatcherRound.set_notarization r n
  | CNullification n => BatcherRound.set_nullification r n
  | CFinalization f => BatcherRound.set_finalization r f
  end.

Definition on_certificate b (sender : PublicKey) (message : option Cert) : W (Batcher * option Z) :=
  match message with
  | None => let^ _ := send (OBlock sender) in wret (b, None)
  | Some c =>
      if negb (cert_epoch c =? ep) then let^ _ := send (OBlock sender) in wret (b, None)
      else
        let^ ok := wlift (is_interesting b (cert_view c) true) in
        if negb ok then wret (b, None)
        else if has_certificate b c then wret (b, None)
        else if negb (cert_verify c) then let^ _ := send (OBlock sender) in wret (b, None)
        else
          let^ r := wlift (entry b (cert_view c)) in
          let b := put b (cert_view c) (set_certificate r c) in
          let^ _ := send (ORecovered c) in
          wret (b, None)
  end.

Definition on_vote b (sender : PublicKey) (message : option Vote) : W (Batcher * option Z) :=
  match message with
  | None => let^ _ := send (OBlock sender) in wret (b, None)
  | Some v =>
      if negb (vote_epoch v =? ep) then let^ _ := send (OBlock sender) in wret (b, None)
      else
        let^ ok := wlift (is_interesting b (vote_view v) false) in
        if negb ok then wret (b, None)
        else
          let^ r := wlift (entry b (vote_view v)) in
          let^ (r, _) := BatcherRound.add_network r sender v in
          wret (put b (vote_view v) r, Some (vote_view v))
  end.

Definition select b (m : Incoming) : W (Batcher * option Z) :=
  match m with
  | MUpdate c l f => on_update b c l f
  | MConstructed v => on_constructed b v
  | MCertificate sender c => on_certificate b sender c
  | MVote sender v => on_vote b sender v
  end.

(** ** After a view was modified *)

Definition forward b : W Batcher :=
  match work b !! current b, me scheme with
  | Some r, Some me =>
      let^ (r, proposal) := wlift (BatcherRound.forward_proposal r me) in
      let^ _ := match proposal with Some p => send (OProposal p) | None => wret tt end in
      wret (put b (current b) r)
  | _, _ => wret b
  end.

Definition batch_verify (r : BatcherRound.Round) : BatcherRound.Round * option (list Vote * list Z) :=
  let run x := (x.1, Some x.2) in
  if BatcherRound.ready_notarizes r then run (BatcherRound.verify_notarizes batch r namespace)
  else if BatcherRound.ready_nullifies r then run (BatcherRound.verify_nullifies batch r namespace)
  else if BatcherRound.ready_finalizes r then run (BatcherRound.verify_finalizes batch r namespace)
  else (r, None).

Fixpoint block_all (failed : list Z) : W unit :=
  match failed with
  | [] => wret tt
  | i :: failed =>
      let^ _ := match Ordered.key_at (participants scheme) i with Some k => send (OBlock k) | None => wret tt end in
      block_all failed
  end.

Definition recovered {A} (ctor : A → Cert) (x : option (BatcherRound.Round * option A)) : W BatcherRound.Round :=
  let^ (r, c) := wlift x in
  let^ _ := match c with Some c => send (ORecovered (ctor c)) | None => wret tt end in
  wret r.

Definition update_round (r : BatcherRound.Round) : W BatcherRound.Round :=
  let '(r, result) := batch_verify r in
  let^ r :=
    match result with
    | Some (voters, failed) => let^ _ := block_all failed in wret (fold_left BatcherRound.add_verified voters r)
    | None => wret r
    end in
  let^ r := recovered CNotarization (BatcherRound.try_construct_notarization r scheme) in
  let^ r := recovered CNullification (BatcherRound.try_construct_nullification r scheme) in
  recovered CFinalization (BatcherRound.try_construct_finalization r scheme).

(** The loop that pops the first view while it is not interesting, on the views
    in ascending order. *)
Fixpoint pop b (views : list Z) : option Batcher :=
  match views with
  | [] => Some b
  | v :: views =>
      ok ← is_interesting b v false;
      if ok : bool then Some b else pop (b {{ work := delete v (work b) }}) views
  end.

Definition process b (updated_view : Z) : W Batcher :=
  if updated_view =? 0 then None
  else
    let^ b := forward b in
    if updated_view <=? finalized b then wret b
    else
      match work b !! updated_view with
      | None => wret b
      | Some r =>
          let^ r := update_round r in
          let b := put b updated_view r in
          wlift (pop b (merge_sort Z.le (elements (dom (work b)))))
      end.

Definition handle b (m : Incoming) : W Batcher :=
  let^ (b, updated) := select b m in
  match updated with
  | None => wret b
  | Some v => process b v
  end.
End Actor.
End BatcherActor.
