(* ===== verification/BatcherSpec.v ===== *)
(** * What the batcher guarantees

    [reachable h outs b]: after the messages [h], latest first, the batcher is in
    state [b] and has sent [outs].  The voter is expected to follow its side:
    views it enters increase, a vote it constructs is the first of its kind in its
    view; the network may deliver anything, except that nobody else is
    authenticated with our key. *)

From S2P Require Import Prelude Codec CodecOrdered ConsensusTypes Ordered SimplexTypes SimplexEvidence.
From S2P Require Import Emit BatcherVerifier BatcherRound BatcherInvariant BatcherActor.

Module BatcherSpec.
Import BatcherInvariant BatcherActor.
#[local] Arguments constant {_} _ _ /.
#[local] Arguments wbind : simpl never.
#[local] Arguments wlift : simpl never.
#[local] Arguments send : simpl never.
#[local] Arguments wret : simpl never.

Section Spec.
Context {T : Types} `{!Ord PublicKey, !EqDecision Signature}.
Context (scheme : Scheme) (sv : SimplexEvidence.Verifier) (batch : Batch) `{!BatchVerification sv batch}.
Context (activity_timeout skip_timeout ep : Z) (namespace : bytes) (q self : Z).
Context (Hasc : CodecOrdered.ascending (participants scheme)).
Context (Hsize : Z.of_nat (length (participants scheme)) < 2 ^ 32).
Context (Hq : Ordered.quorum (participants scheme) = Some q).
Context (Hme : me scheme = Some self).
Context (Hself : 0 ≤ self < Z.of_nat (length (participants scheme))).
Context (Hactivity : 0 ≤ activity_timeout).
Implicit Types b : Batcher.
Implicit Types v : Z.
Implicit Types x y : Vote.
Implicit Types h : list Incoming.

Notation handle := (handle scheme sv batch activity_timeout skip_timeout ep namespace).
Notation select := (select scheme sv activity_timeout skip_timeout ep namespace).
Notation process := (process scheme batch activity_timeout namespace).
Notation entry := (entry scheme).
Notation round_ok := (round_ok scheme sv ep namespace q self).
Notation assembled := (assembled scheme sv ep namespace q self).

(** ** Histories *)

Definition made h x : Prop := MConstructed x ∈ h.
Definition got h x : Prop := ∃ sender,
  MVote sender (Some x) ∈ h ∧ Ordered.index_of (participants scheme) sender = Some (Some (vote_signer x)).
Definition led h v (l : Z) : Prop := ∃ f, MUpdate v l f ∈ h.

Definition kind x : Z := match x with VNotarize _ => 0 | VNullify _ => 1 | VFinalize _ => 2 end.

Definition allowed h (m : Incoming) : Prop :=
  match m with
  | MUpdate c l f => 1 ≤ c ∧ c + 1 < 2 ^ 64 ∧ 0 ≤ f < c ∧ ∀ c' l' f', MUpdate c' l' f' ∈ h → c' < c
  | MConstructed x =>
      vote_signer x = self ∧ vote_epoch x = ep ∧ 1 ≤ vote_view x ∧ vote_verify sv namespace x = true ∧
      ∀ y, MConstructed y ∈ h → vote_view y = vote_view x → kind y ≠ kind x
  | MVote sender x =>
      Ordered.index_of (participants scheme) sender ≠ Some (Some self) ∧ ∀ y, x = Some y → 0 ≤ vote_view y
  | MCertificate _ _ => True
  end.

Inductive reachable : list Incoming → list Out → Batcher → Prop :=
| reachable_start : reachable [] [] start
| reachable_handle h outs b m b' o :
    reachable h outs b → allowed h m → handle b m = Some (b', o) → reachable (m :: h) (outs ++ o) b'.

(** ** The invariant *)

(** What a message sent to the voter rests on. *)
Definition out_ok h (e : Out) : Prop :=
  match e with
  | ORecovered c =>
      (∃ sender, MCertificate sender (Some c) ∈ h ∧ cert_epoch c = ep ∧ cert_verify sv namespace c = true)
      ∨ assembled (cert_view c) c
  | OProposal p => ∃ nt, nt_proposal nt = p ∧ rnd_epoch (round p) = ep ∧ got h (VNotarize nt) ∧
      notarize_signer nt ≠ self ∧ led h (proposal_view p) (notarize_signer nt)
  | _ => True
  end.
Definition proposals (outs : list Out) : list Proposal :=
  omap (λ e, match e with OProposal p => Some p | _ => None end) outs.

Record batcher_ok h (outs : list Out) b : Prop := {
  bo_work v r : work b !! v = Some r → round_ok (made h) (got h) (led h v) v r;
  bo_updates c l f : MUpdate c l f ∈ h → c ≤ current b;
  bo_last : current b = 0 ∨ ∃ l f, MUpdate (current b) l f ∈ h;
  bo_current : 0 ≤ current b ∧ current b + 1 < 2 ^ 64;
  bo_finalized : 0 ≤ finalized b ≤ current b;
  bo_outs e : e ∈ outs → out_ok h e;
  bo_sent p : p ∈ proposals outs → proposal_view p ≤ current b ∧
    (proposal_view p = current b → ∃ r, work b !! current b = Some r ∧ BatcherRound.proposal_sent r = true);
  bo_once : NoDup (proposal_view <$> proposals outs);
}.

Lemma made_mono h m x : made h x → made (m :: h) x.
Proof. intros H. by apply elem_of_cons; right. Qed.
Lemma got_mono h m x : got h x → got (m :: h) x.
Proof. intros (s & H & E). exists s. split; [|done]. by apply elem_of_cons; right. Qed.
Lemma led_mono h m v l : led h v l → led (m :: h) v l.
Proof. intros (f & H). exists f. by apply elem_of_cons; right. Qed.

Lemma out_ok_mono h m e : out_ok h e → out_ok (m :: h) e.
Proof.
  destruct e as [| | |p|c]; simpl; try done.
  - intros (nt & ? & ? & ? & ? & ?). exists nt. eauto 10 using got_mono, led_mono.
  - intros [(s & ? & ? & ?)|?]; [left|by right]. exists s. split; [by apply elem_of_cons; right|done].
Qed.

Lemma vote_round_eq x : vote_round x = mkRnd (vote_epoch x) (vote_view x).
Proof. by destruct x as [[[[] ? ?] ?]|[[] ?]|[[[] ? ?] ?]]. Qed.

Lemma hist_ok h outs b m : batcher_ok h outs b → (∀ c l f, m = MUpdate c l f → c ≤ current b) →
  batcher_ok (m :: h) outs b.
Proof.
  intros [B1 B2 B0 B3 B4 B5 B6 B7] Hm. split; try done.
  - intros v r Hr. eapply round_ok_mono; [..|by apply B1]; eauto using made_mono, got_mono, led_mono.
  - intros c l f [E|Hin]%elem_of_cons; [by eapply Hm|by eapply B2].
  - destruct B0 as [?|(l & f & ?)]; [by left|]. right. exists l, f. by apply elem_of_cons; right.
  - intros e He. by apply out_ok_mono, B5.
Qed.

Lemma outs_ok h outs b o : batcher_ok h outs b → (∀ e, e ∈ o → out_ok h e) → proposals o = [] →
  batcher_ok h (outs ++ o) b.
Proof.
  intros [B1 B2 B0 B3 B4 B5 B6 B7] Ho Hp. split; try done.
  - intros e [He|He]%elem_of_app; auto.
  - unfold proposals in *. rewrite omap_app, Hp, app_nil_r. done.
  - unfold proposals in *. rewrite omap_app, Hp, app_nil_r. done.
Qed.

Lemma quiet_outs h outs b o : batcher_ok h outs b → all_quiet o → batcher_ok h (outs ++ o) b.
Proof.
  intros Hb Ho. apply outs_ok; [done| |].
  - intros e He. specialize (Ho e He). by destruct e.
  - clear Hb. induction o as [|e o IH]; [done|]. simpl. assert (quiet e) as He by (apply Ho; constructor).
    destruct e; try done; apply IH; intros z Hz; apply Ho; by constructor.
Qed.

Lemma put_ok h outs b v r : batcher_ok h outs b → round_ok (made h) (got h) (led h v) v r →
  (∀ r', work b !! v = Some r' → BatcherRound.proposal_sent r' = true → BatcherRound.proposal_sent r = true) →
  batcher_ok h outs (put b v r).
Proof.
  intros [B1 B2 B0 B3 B4 B5 B6 B7] Hr Hs. split; try done; simpl.
  - intros w r' [[<- <-]|[_ Hw]]%lookup_insert_Some; auto.
  - intros p Hp. destruct (B6 p Hp) as [? Hc]. split; [done|]. intros E. destruct (Hc E) as (r' & Hr' & ?).
    destruct (decide (v = current b)) as [->|Hne].
    + exists r. rewrite lookup_insert_eq. eauto.
    + exists r'. by rewrite lookup_insert_ne.
Qed.

Lemma entry_ok h outs b v : batcher_ok h outs b → ∃ r, entry b v = Some r ∧
  round_ok (made h) (got h) (led h v) v r ∧ (∀ r', work b !! v = Some r' → r' = r).
Proof.
  intros Hb. unfold BatcherActor.entry. destruct (work b !! v) as [r|] eqn:E.
  - exists r. split; [done|]. split; [by eapply bo_work|]. by intros ? [= ->].
  - destruct (round_new scheme sv ep namespace q self Hq (made h) (got h) (led h v) v) as (r & -> & Hr). by exists r.
Qed.

Lemma interesting_ok h outs b v future : batcher_ok h outs b → ∃ i, is_interesting activity_timeout b v future = Some i ∧
  (i = true → finalized b - activity_timeout ≤ v).
Proof.
  intros [_ _ _ B3 B4 _ _ _]. unfold is_interesting, interesting, min_active, View.saturating_sub, saturating_sub.
  destruct (Z.ltb_spec v (Z.max 0 (finalized b - activity_timeout))); [by eexists|].
  destruct future; [eexists; split; [done|lia]|]. unfold View.next, checked_add.
  rewrite (proj2 (Z.ltb_lt _ _)) by lia. simpl. eexists. split; [done|]. lia.
Qed.

(** ** The branches of the select *)

(** The view a message modifies has a positive number. *)
Definition selected h outs (r : Batcher * option Z) (o : list Out) : Prop :=
  batcher_ok h (outs ++ o) r.1 ∧ ∀ v, r.2 = Some v → 1 ≤ v.

Lemma on_update_ok h outs b c l f : batcher_ok h outs b → allowed h (MUpdate c l f) →
  ends (on_update scheme skip_timeout b c l f) (selected (MUpdate c l f :: h) outs).
Proof.
  intros Hb (Hc & Hmax & Hf & Hlt). unfold on_update. pose proof Hb as [B1 B2 B0 B3 B4 B5 B6 B7].
  assert (current b < c) as Hcur by (destruct B0 as [->|(l' & f' & Hin)]; [lia|by eapply Hlt]).
  destruct (entry_ok h outs b c Hb) as (r & Er & Hr & Hsame).
  assert (BatcherVerifier.leader (BatcherRound.verifier r) = None) as Hn.
  { destruct (BatcherVerifier.leader _) as [l'|] eqn:E; [|done]. destruct (ro_leader _ _ _ _ _ _ _ _ _ _ _ Hr l' E) as [f' Hin].
    specialize (Hlt _ _ _ Hin). lia. }
  set (h' := MUpdate c l f :: h).
  assert (batcher_ok h' outs (b {{ current := c; finalized := f }})) as Hb'.
  { split; simpl; try done; try lia.
    - intros v r' Hr'. eapply round_ok_mono; [..|by apply B1]; eauto using made_mono, got_mono, led_mono.
    - intros c' l' f' [[= -> _ _]|Hin]%elem_of_cons; [lia|]. specialize (B2 _ _ _ Hin). lia.
    - right. exists l, f. constructor.
    - intros e He. by apply out_ok_mono, B5.
    - intros p Hp. destruct (B6 p Hp) as [? _]. split; lia. }
  eapply ends_lift_bind; [exact Er|].
  eapply (round_ok_mono _ _ _ _ _ _ _ (made h') _ (got h') _ (led h' c)) in Hr; eauto using made_mono, got_mono, led_mono.
  destruct (set_leader_ok _ _ _ _ _ _ _ _ _ _ r l Hr Hn) as (r' & Es & Hr' & Hp'); [exists f; constructor|].
  eapply ends_lift_bind; [exact Es|]. apply ends_send_bind, ends_ret. split; [|intros v [= <-]; done].
  apply quiet_outs; [|by apply all_quiet_cons, all_quiet_nil]. apply put_ok; [done..|].
  intros r0 Hr0 Hs. rewrite <- (Hsame r0 Hr0) in Hp'. congruence.
Qed.

Lemma selected_same h outs b m o : batcher_ok h outs b → (∀ c l f, m ≠ MUpdate c l f) → all_quiet o →
  selected (m :: h) outs (b, None) o.
Proof. intros Hb Hm Ho. split; [|done]. apply quiet_outs; [|done]. apply hist_ok; [done|]. intros c l f E. by destruct (Hm c l f). Qed.

Lemma ends_blocked h outs b m sender : batcher_ok h outs b → (∀ c l f, m ≠ MUpdate c l f) →
  ends (let^ _ := send (OBlock sender) in wret (b, None)) (selected (m :: h) outs).
Proof. intros Hb Hm. apply ends_send_bind, ends_ret, selected_same; [done..|]. by apply all_quiet_cons, all_quiet_nil. Qed.

Lemma same_kind_made h outs b v r x y : batcher_ok h outs b → round_ok (made h) (got h) (led h v) v r →
  same_kind (BatcherRound.pending_votes r) x self = Some y → made h y ∧ vote_view y = v ∧ kind y = kind x.
Proof.
  intros Hb Hr Hk. destruct (tracker_get _ _ _ x self y (ro_pending _ _ _ _ _ _ _ _ _ _ _ Hr) ltac:(lia) Hk) as [Hs [Hv Hm]].
  split; [by apply Hm|]. split; [rewrite vote_round_eq in Hv; by injection Hv|].
  destruct x; simpl in Hk; by apply fmap_Some in Hk as (z & _ & ->).
Qed.

Lemma on_constructed_ok h outs b x : batcher_ok h outs b → allowed h (MConstructed x) →
  ends (on_constructed scheme activity_timeout b x) (selected (MConstructed x :: h) outs).
Proof.
  intros Hb (Hs & He & Hv & Hver & Hnew). unfold on_constructed.
  destruct (interesting_ok h outs b (vote_view x) false Hb) as (i & Ei & _). eapply ends_lift_bind; [exact Ei|].
  destruct i; simpl; [|by apply ends_ret, selected_same; [| |apply all_quiet_nil]].
  destruct (entry_ok h outs b (vote_view x) Hb) as (r & Er & Hr & Hsame). eapply ends_lift_bind; [exact Er|].
  assert (same_kind (BatcherRound.pending_votes r) x self = None) as Hk.
  { destruct (same_kind _ _ _) as [y|] eqn:E; [|done]. destruct (same_kind_made h outs b (vote_view x) r x y Hb Hr E) as (Hm & Hvy & Hky).
    by destruct (Hnew y Hm Hvy). }
  set (h' := MConstructed x :: h).
  eapply (round_ok_mono _ _ _ _ _ _ _ (made h') _ (got h') _ (led h' (vote_view x))) in Hr;
    eauto using made_mono, got_mono, led_mono.
  destruct (add_constructed_ok _ _ _ _ _ _ Hself _ _ _ _ r x Hr Hs) as (r' & E & Hr' & Hsent & _);
    [by rewrite vote_round_eq, He|done|constructor|done|].
  apply ends_bind. eexists r', _. split; [exact E|]. apply ends_ret. split; [|by intros v [= <-]].
  apply quiet_outs; [|by apply all_quiet_cons, all_quiet_nil]. apply put_ok; [by apply hist_ok|done|].
  intros r0 Hr0 H0. rewrite <- (Hsame r0 Hr0) in Hsent. congruence.
Qed.

Lemma on_certificate_ok h outs b sender c : batcher_ok h outs b →
  ends (on_certificate scheme sv activity_timeout ep namespace b sender c) (selected (MCertificate sender c :: h) outs).
Proof.
  intros Hb. unfold on_certificate. destruct c as [c|]; [|by apply ends_blocked].
  destruct (Z.eqb_spec (cert_epoch c) ep) as [He|]; simpl; [|by apply ends_blocked].
  destruct (interesting_ok h outs b (cert_view c) true Hb) as (i & Ei & _). eapply ends_lift_bind; [exact Ei|].
  destruct i; simpl; [|by apply ends_ret, selected_same; [| |apply all_quiet_nil]].
  destruct (has_certificate b c); [by apply ends_ret, selected_same; [| |apply all_quiet_nil]|].
  destruct (cert_verify sv namespace c) eqn:Ev; simpl; [|by apply ends_blocked].
  destruct (entry_ok h outs b (cert_view c) Hb) as (r & Er & Hr & Hsame). eapply ends_lift_bind; [exact Er|].
  cbv zeta. apply ends_send_bind, ends_ret. split; [|done]. apply outs_ok; [|intros e ->%list_elem_of_singleton|done].
  - set (h' := MCertificate sender (Some c) :: h).
    eapply (round_ok_mono _ _ _ _ _ _ _ (made h') _ (got h') _ (led h' (cert_view c))) in Hr;
      eauto using made_mono, got_mono, led_mono.
    apply put_ok; [by apply hist_ok|by destruct c; apply set_certificates_ok|].
    intros r0 Hr0 H0. rewrite (Hsame r0 Hr0) in H0. by destruct c.
  - left. exists sender. split; [constructor|done].
Qed.

(** A vote for view 0 that is taken up. *)
Definition zero_vote b (m : Incoming) : Prop := ∃ sender x,
  m = MVote sender (Some x) ∧ vote_epoch x = ep ∧ vote_view x = 0 ∧ finalized b ≤ activity_timeout.

Lemma on_vote_entry h outs b sender x : batcher_ok h outs b → allowed h (MVote sender (Some x)) →
  vote_epoch x = ep → ∃ r, entry b (vote_view x) = Some r ∧
  (∀ r', work b !! vote_view x = Some r' → r' = r) ∧
  let h' := MVote sender (Some x) :: h in
  settles scheme sv ep namespace q self (made h') (got h') (led h' (vote_view x)) (vote_view x) r
    (BatcherRound.add_network r sender x).
Proof.
  intros Hb [Hs _] He. destruct (entry_ok h outs b (vote_view x) Hb) as (r & Er & Hr & Hsame).
  exists r. split; [done|]. split; [done|]. intros h'.
  eapply (round_ok_mono _ _ _ _ _ _ _ (made h') _ (got h') _ (led h' (vote_view x))) in Hr;
    eauto using made_mono, got_mono, led_mono.
  apply (add_network_ok _ _ _ _ _ _ Hasc Hsize Hself); [done|by rewrite vote_round_eq, He|].
  intros i Hi. split; [congruence|]. intros Hx. exists sender. split; [constructor|congruence].
Qed.

Lemma on_vote_ok h outs b sender o : batcher_ok h outs b → allowed h (MVote sender o) →
  ¬ zero_vote b (MVote sender o) →
  ends (on_vote scheme activity_timeout ep b sender o) (selected (MVote sender o :: h) outs).
Proof.
  intros Hb Ha Hz. unfold on_vote. destruct o as [x|]; [|by apply ends_blocked].
  destruct (Z.eqb_spec (vote_epoch x) ep) as [He|]; simpl; [|by apply ends_blocked].
  destruct (interesting_ok h outs b (vote_view x) false Hb) as (i & Ei & Hi). eapply ends_lift_bind; [exact Ei|].
  destruct i; simpl; [|by apply ends_ret, selected_same; [| |apply all_quiet_nil]]. specialize (Hi eq_refl).
  destruct (on_vote_entry h outs b sender x Hb Ha He) as (r & Er & Hsame & r' & t & o & E & Hr' & Hq' & Hsent & _).
  eapply ends_lift_bind; [exact Er|]. apply ends_bind. do 2 eexists. split; [exact E|]. apply ends_ret. split.
  - rewrite app_nil_r. apply quiet_outs; [|done]. apply put_ok; [by apply hist_ok|done|].
    intros r0 Hr0 H0. rewrite <- (Hsame r0 Hr0) in Hsent. congruence.
  - intros v [= <-]. destruct Ha as [_ Hpos]. specialize (Hpos x eq_refl).
    destruct (decide (vote_view x = 0)) as [E0|]; [|lia]. destruct Hz. exists sender, x. split_and!; try done. lia.
Qed.

Lemma on_vote_zero h outs b m : batcher_ok h outs b → allowed h m → zero_vote b m →
  ∃ b' o, select b m = Some (b', Some 0, o).
Proof.
  intros Hb Ha (sender & x & -> & He & Hv & Hf). unfold select, on_vote. rewrite He, Z.eqb_refl. simpl.
  assert (is_interesting activity_timeout b (vote_view x) false = Some true) as Ei.
  { destruct Hb as [_ _ _ B3 B4 _ _ _].
    unfold is_interesting, interesting, min_active, View.saturating_sub, saturating_sub, View.next, checked_add.
    rewrite Hv, Z.max_l by lia. simpl. rewrite (proj2 (Z.ltb_lt _ _)) by lia. simpl.
    destruct (Z.gtb_spec 0 (current b + 1)); [lia|done]. }
  destruct (on_vote_entry h outs b sender x Hb Ha He) as (r & Er & _ & r' & t & o & E & _).
  unfold wbind, wlift. rewrite Ei. simpl. rewrite Er. simpl. rewrite E. simpl. rewrite Hv. eauto.
Qed.

(** ** After a view was modified *)

Lemma proposals_app o o' : proposals (o ++ o') = proposals o ++ proposals o'.
Proof. apply omap_app. Qed.

Lemma forward_ok h outs b : batcher_ok h outs b → ends (forward scheme b) (λ b' o, batcher_ok h (outs ++ o) b').
Proof.
  intros Hb. unfold forward. rewrite Hme. destruct (work b !! current b) as [r|] eqn:Er; [|apply ends_ret; by rewrite app_nil_r].
  destruct (forward_proposal_ok _ _ _ _ _ _ _ _ _ (current b) r (bo_work _ _ _ Hb _ _ Er))
    as (r' & o & E & Hr' & _ & Hs & Hp).
  eapply ends_lift_bind; [exact E|]. cbv beta iota.
  assert (batcher_ok h outs (put b (current b) r')) as Hb'.
  { apply put_ok; [done..|]. intros r0. rewrite Er. intros [= <-] ?. by apply Hs. }
  destruct o as [p|]; [|apply ends_bind, ends_ret, ends_ret; by rewrite !app_nil_r].
  apply ends_send_bind, ends_ret. destruct (Hp p eq_refl) as (Hsent & Hrd & nt & <- & Hg & Hl & Hne).
  assert (proposal_view (nt_proposal nt) = current b) as Hv by (unfold proposal_view; by rewrite Hrd).
  assert (∀ p, p ∈ proposals outs → proposal_view p ≠ current b) as Hfresh.
  { intros p Hin E'. destruct (bo_sent _ _ _ Hb p Hin) as [_ Hc]. destruct (Hc E') as (r0 & Hr0 & Hs0).
    rewrite Er in Hr0. injection Hr0 as <-. by destruct (Hs Hs0) as [_ ?]. }
  destruct Hb' as [B1 B2 B0 B3 B4 B5 B6 B7]. split; try done.
  - intros e [He| ->%list_elem_of_singleton]%elem_of_app; [by apply B5|]. exists nt. simpl. rewrite Hv, Hrd. done.
  - intros p. rewrite proposals_app. intros [Hin| ->%list_elem_of_singleton]%elem_of_app; [by apply B6|].
    split; [rewrite Hv; apply Z.le_refl|]. intros _. exists r'. simpl. by rewrite lookup_insert_eq.
  - rewrite proposals_app, fmap_app. simpl. apply NoDup_app. split; [done|]. split; [|apply NoDup_singleton].
    intros v (p & -> & Hin)%list_elem_of_fmap Hv'%list_elem_of_singleton. apply (Hfresh p Hin). congruence.
Qed.

Lemma queue_ok made got led v r w : round_ok made got led v r →
  (∀ x, x ∈ queued w → x ∈ queued (BatcherRound.verifier r)) →
  BatcherVerifier.quorum w = BatcherVerifier.quorum (BatcherRound.verifier r) →
  BatcherVerifier.leader w = BatcherVerifier.leader (BatcherRound.verifier r) →
  BatcherVerifier.leader_proposal w = BatcherVerifier.leader_proposal (BatcherRound.verifier r) →
  BatcherVerifier.wf w → round_ok made got led v (r {{ BatcherRound.verifier := w }}).
Proof.
  intros [R1 R2 R3 R4 R5 R6 R7 R8] Hs Hw1 Hw2 Hw3 Hw. split; simpl; rewrite ?Hw1, ?Hw2, ?Hw3; auto.
Qed.

Lemma voters_ok made got led v r (votes : list Vote) : round_ok made got led v r →
  (∀ x, x ∈ votes → x ∈ queued (BatcherRound.verifier r) ∧ vote_verify sv namespace x = true ∧
    ∀ p, vote_proposal x = Some p → BatcherVerifier.leader_proposal (BatcherRound.verifier r) = Some p) →
  ∀ w, BatcherVerifier.leader_proposal w = BatcherVerifier.leader_proposal (BatcherRound.verifier r) →
  ∀ x, x ∈ votes → 0 ≤ vote_signer x ∧ genuine sv ep namespace self v (BatcherVerifier.leader_proposal w) x.
Proof.
  intros Hr Hv w Hw x Hx. destruct (Hv x Hx) as (Hq' & Hver & Hp).
  destruct (ro_queued _ _ _ _ _ _ _ _ _ _ _ Hr x Hq') as (? & ? & _). split; [done|]. split; [done|]. split; [done|].
  right. rewrite Hw. exact Hp.
Qed.

Definition batch_result made got led v r (x : BatcherRound.Round * option (list Vote * list Z)) : Prop :=
  match x.2 with
  | Some (voters, _) => round_ok made got led v (fold_left BatcherRound.add_verified voters x.1) ∧
      BatcherRound.proposal_sent (fold_left BatcherRound.add_verified voters x.1) = BatcherRound.proposal_sent r
  | None => x.1 = r
  end.

Lemma fold_add_verified_sent l : ∀ r,
  BatcherRound.proposal_sent (fold_left BatcherRound.add_verified l r) = BatcherRound.proposal_sent r.
Proof. induction l as [|x l IH]; intros r; [done|]. simpl. by rewrite IH. Qed.

Lemma leader_proposal_known w : BatcherVerifier.leader_known w = true → ∃ p, BatcherVerifier.leader_proposal w = Some p.
Proof. unfold BatcherVerifier.leader_known. intros [_ [p Hp]%bool_decide_eq_true]%andb_true_iff. by exists p. Qed.

Lemma emptied_wf w (w' : BatcherVerifier.Verifier) : BatcherVerifier.wf w →
  BatcherVerifier.leader w' = BatcherVerifier.leader w → BatcherVerifier.leader_proposal w' = BatcherVerifier.leader_proposal w →
  (∀ nt, nt ∈ BatcherVerifier.notarizes w' → nt ∈ BatcherVerifier.notarizes w) →
  (∀ fz, fz ∈ BatcherVerifier.finalizes w' → fz ∈ BatcherVerifier.finalizes w) → BatcherVerifier.wf w'.
Proof. intros [W1 W2 W3] El Ep Hn Hf. split; rewrite ?El, ?Ep; eauto. Qed.

Lemma queued_subset (w w' : BatcherVerifier.Verifier) :
  BatcherVerifier.notarizes w' ⊆ BatcherVerifier.notarizes w →
  BatcherVerifier.nullifies w' ⊆ BatcherVerifier.nullifies w →
  BatcherVerifier.finalizes w' ⊆ BatcherVerifier.finalizes w → ∀ x, x ∈ queued w' → x ∈ queued w.
Proof.
  intros H1 H2 H3 x. unfold queued. rewrite !elem_of_app, !list_elem_of_fmap. naive_solver.
Qed.

Lemma fold_ok made got led v r votes w : round_ok made got led v r →
  (∀ x, x ∈ queued w → x ∈ queued (BatcherRound.verifier r)) →
  BatcherVerifier.quorum w = BatcherVerifier.quorum (BatcherRound.verifier r) →
  BatcherVerifier.leader w = BatcherVerifier.leader (BatcherRound.verifier r) →
  BatcherVerifier.leader_proposal w = BatcherVerifier.leader_proposal (BatcherRound.verifier r) →
  BatcherVerifier.wf w →
  (∀ x, x ∈ votes → x ∈ queued (BatcherRound.verifier r) ∧ vote_verify sv namespace x = true ∧
    ∀ p, vote_proposal x = Some p → BatcherVerifier.leader_proposal (BatcherRound.verifier r) = Some p) →
  round_ok made got led v (fold_left BatcherRound.add_verified votes (r {{ BatcherRound.verifier := w }})) ∧
  BatcherRound.proposal_sent (fold_left BatcherRound.add_verified votes (r {{ BatcherRound.verifier := w }})) =
    BatcherRound.proposal_sent r.
Proof.
  intros Hr H1 H2 H3 H4 H5 Hv. split; [|by rewrite fold_add_verified_sent].
  apply add_all_verified_ok; [by apply queue_ok|]. by apply (voters_ok made got led v r).
Qed.

Lemma verify_notarizes_ok made got led v r : round_ok made got led v r → BatcherRound.ready_notarizes r = true →
  let x := BatcherRound.verify_notarizes batch r namespace in batch_result made got led v r (x.1, Some x.2).
Proof.
  intros Hr E. pose proof (ro_verifier _ _ _ _ _ _ _ _ _ _ _ Hr) as Hw.
  assert (∃ p, BatcherVerifier.leader_proposal (BatcherRound.verifier r) = Some p) as [p Hp].
  { unfold BatcherRound.ready_notarizes, BatcherVerifier.ready_notarizes in E. repeat case_match; try done.
    apply leader_proposal_known. by apply negb_false_iff. }
  pose proof (BatcherVerifier.notarize_votes_batch batch sv (BatcherRound.verifier r) namespace p Hw Hp) as H.
  unfold BatcherRound.verify_notarizes, BatcherRound.on_verifier, batch_result.
  destruct (BatcherVerifier.verify_notarizes batch (BatcherRound.verifier r) namespace) as [w [votes failed]].
  destruct H as [Hb ->]. simpl. apply fold_ok; try done.
  - by apply queued_subset; [apply list_subseteq_nil|..].
  - eapply emptied_wf; [exact Hw|done..| |done]. by intros ? ?%not_elem_of_nil.
  - intros x Hx. destruct (BatcherVerifier.vb_sound _ _ _ _ _ _ Hb x Hx) as (a & Ha & -> & Hok).
    split; [by apply queued_notarize|]. split; [done|]. intros p' [= <-]. rewrite Hp. f_equal. symmetry.
    by eapply BatcherVerifier.w_notarizes.
Qed.

Lemma verify_finalizes_ok made got led v r : round_ok made got led v r → BatcherRound.ready_finalizes r = true →
  let x := BatcherRound.verify_finalizes batch r namespace in batch_result made got led v r (x.1, Some x.2).
Proof.
  intros Hr E. pose proof (ro_verifier _ _ _ _ _ _ _ _ _ _ _ Hr) as Hw.
  assert (∃ p, BatcherVerifier.leader_proposal (BatcherRound.verifier r) = Some p) as [p Hp].
  { unfold BatcherRound.ready_finalizes, BatcherVerifier.ready_finalizes in E. repeat case_match; try done.
    apply leader_proposal_known. by apply negb_false_iff. }
  pose proof (BatcherVerifier.finalize_votes_batch batch sv (BatcherRound.verifier r) namespace p Hw Hp) as H.
  unfold BatcherRound.verify_finalizes, BatcherRound.on_verifier, batch_result.
  destruct (BatcherVerifier.verify_finalizes batch (BatcherRound.verifier r) namespace) as [w [votes failed]].
  destruct H as [Hb ->]. simpl. apply fold_ok; try done.
  - by apply queued_subset; [..|apply list_subseteq_nil].
  - eapply emptied_wf; [exact Hw|done..|]. by intros ? ?%not_elem_of_nil.
  - intros x Hx. destruct (BatcherVerifier.vb_sound _ _ _ _ _ _ Hb x Hx) as (a & Ha & -> & Hok).
    split; [unfold queued; rewrite !elem_of_app; right; right; by apply list_elem_of_fmap_2|].
    split; [done|]. intros p' [= <-]. rewrite Hp. f_equal. symmetry. by eapply BatcherVerifier.w_finalizes.
Qed.

Lemma verify_nullifies_ok made got led v r : round_ok made got led v r →
  let x := BatcherRound.verify_nullifies batch r namespace in batch_result made got led v r (x.1, Some x.2).
Proof.
  intros Hr. pose proof (ro_verifier _ _ _ _ _ _ _ _ _ _ _ Hr) as Hw.
  assert (∀ nl, nl ∈ BatcherVerifier.nullifies (BatcherRound.verifier r) → VNullify nl ∈ queued (BatcherRound.verifier r)) as Hin.
  { intros nl Hnl. unfold queued. rewrite !elem_of_app. right; left. by apply list_elem_of_fmap_2. }
  assert (∀ nl, nl ∈ BatcherVerifier.nullifies (BatcherRound.verifier r) → nl_round nl = mkRnd ep v) as Hrd.
  { intros nl Hnl. by destruct (ro_queued _ _ _ _ _ _ _ _ _ _ _ Hr _ (Hin nl Hnl)) as (_ & ? & _). }
  pose proof (BatcherVerifier.nullify_votes_batch batch sv (BatcherRound.verifier r) namespace _ Hrd) as H.
  unfold BatcherRound.verify_nullifies, BatcherRound.on_verifier, batch_result.
  destruct (BatcherVerifier.verify_nullifies batch (BatcherRound.verifier r) namespace) as [w [votes failed]].
  destruct H as [Hb ->]. simpl. apply fold_ok; try done.
  - by apply queued_subset; [|apply list_subseteq_nil|].
  - by eapply emptied_wf.
  - intros x Hx. destruct (BatcherVerifier.vb_sound _ _ _ _ _ _ Hb x Hx) as (a & Ha & -> & Hok).
    split; [by apply Hin|]. split; [done|]. by intros ? [=].
Qed.

Lemma batch_verify_ok made got led v r : round_ok made got led v r →
  batch_result made got led v r (batch_verify batch namespace r).
Proof.
  intros Hr. unfold batch_verify. destruct (BatcherRound.ready_notarizes r) eqn:E1; [by apply verify_notarizes_ok|].
  destruct (BatcherRound.ready_nullifies r) eqn:E2; [by apply verify_nullifies_ok|].
  destruct (BatcherRound.ready_finalizes r) eqn:E3; [by apply verify_finalizes_ok|done].
Qed.

(** Certificates are for the view they are assembled in. *)
Lemma assembled_view v c : assembled v c → cert_view c = v.
Proof.
  destruct c as [m|m|m]; simpl.
  - intros (l & lp & E & _ & _ & Hl). unfold from_notarizes in E. destruct l as [|nt l]; [done|]. simpl in E.
    destruct (assemble _ _); [|done]. injection E as <-. destruct (Hl nt) as (_ & Hr & _); [constructor|].
    unfold proposal_view. simpl in *. by rewrite Hr.
  - intros (l & E & _ & _ & Hl). unfold from_nullifies in E. destruct l as [|nt l]; [done|]. simpl in E.
    destruct (assemble _ _); [|done]. injection E as <-. destruct (Hl nt) as (_ & Hr & _); [constructor|].
    simpl in *. by rewrite Hr.
  - intros (l & lp & E & _ & _ & Hl). unfold from_finalizes in E. destruct l as [|nt l]; [done|]. simpl in E.
    destruct (assemble _ _); [|done]. injection E as <-. destruct (Hl nt) as (_ & Hr & _); [constructor|].
    unfold proposal_view. simpl in *. by rewrite Hr.
Qed.

(** What [update_round] may send. *)
Definition settled (e : Out) : Prop :=
  match e with OProposal _ => False | ORecovered c => assembled (cert_view c) c | _ => True end.

Lemma block_all_ok l : ends (block_all scheme l) (λ _ o, ∀ e, e ∈ o → settled e).
Proof.
  induction l as [|i l IH]; simpl; [apply ends_ret; by intros e ?%not_elem_of_nil|]. apply ends_bind.
  destruct (Ordered.key_at (participants scheme) i) as [k|]; [apply ends_send|apply ends_ret];
    (eapply ends_mono; [|exact IH]); intros u o Ho e; simpl; [intros [->|He]%elem_of_cons; [done|]|]; auto.
Qed.

Definition updates made got led v r (r' : BatcherRound.Round) (o : list Out) : Prop :=
  round_ok made got led v r' ∧ BatcherRound.proposal_sent r' = BatcherRound.proposal_sent r ∧ ∀ e, e ∈ o → settled e.

Lemma recovered_ok {A} made got led v r (ctor : A → Cert) (s : option (BatcherRound.Round * option A)) :
  constructs scheme sv ep namespace q self made got led v r ctor s → ends (recovered ctor s) (updates made got led v r).
Proof.
  intros (r' & o & -> & Hr & Hs & _ & Ho). unfold recovered. eapply ends_lift_bind; [done|]. cbv beta iota.
  destruct o as [c|].
  - apply ends_send_bind, ends_ret. split; [done|]. split; [done|]. intros e ->%list_elem_of_singleton. simpl.
    pose proof (Ho c eq_refl) as Hc. by rewrite (assembled_view _ _ Hc).
  - apply ends_bind, ends_ret, ends_ret. split; [done|]. split; [done|]. by intros e ?%not_elem_of_nil.
Qed.

Lemma updates_bind made got led v r (w : W BatcherRound.Round) k : ends w (updates made got led v r) →
  (∀ r', round_ok made got led v r' → ends (k r') (updates made got led v r')) →
  ends (wbind w k) (updates made got led v r).
Proof.
  intros Hw Hk. apply ends_bind. eapply ends_mono; [|exact Hw]. intros r' o (Hr & Hs & Ho). cbv beta.
  eapply ends_mono; [|by apply Hk]. intros r'' o' (Hr' & Hs' & Ho'). split; [done|]. split; [congruence|].
  intros e [He|He]%elem_of_app; auto.
Qed.

Lemma update_round_ok made got led v r : round_ok made got led v r →
  ends (update_round scheme batch namespace r) (updates made got led v r).
Proof.
  intros Hr. unfold update_round. pose proof (batch_verify_ok made got led v r Hr) as Hb.
  destruct (batch_verify batch namespace r) as [r1 result]. unfold batch_result in Hb. simpl in Hb.
  apply updates_bind.
  - destruct result as [[voters failed]|].
    + apply ends_bind. eapply ends_mono; [|apply block_all_ok]. intros u o Ho. apply ends_ret. rewrite app_nil_r.
      by split; [apply Hb|split; [apply Hb|]].
    + apply ends_ret. subst. split; [done|]. split; [done|]. by intros e ?%not_elem_of_nil.
  - intros r2 Hr2. apply updates_bind; [by apply recovered_ok, try_construct_notarization_ok|]. intros r3 Hr3.
    apply updates_bind; [by apply recovered_ok, try_construct_nullification_ok|]. intros r4 Hr4.
    by apply recovered_ok, try_construct_finalization_ok.
Qed.

Lemma pop_ok h outs l : ∀ b, batcher_ok h outs b → ∃ b', pop activity_timeout b l = Some b' ∧ batcher_ok h outs b'.
Proof.
  induction l as [|v l IH]; intros b Hb; simpl; [by exists b|].
  destruct (interesting_ok h outs b v false Hb) as (i & Ei & _). rewrite Ei. simpl. destruct i; [by exists b|].
  apply IH. assert (v ≠ current b) as Hne.
  { intros ->. destruct Hb as [_ _ _ B3 B4 _ _ _].
    unfold is_interesting, interesting, min_active, View.saturating_sub, saturating_sub, View.next, checked_add in Ei.
    destruct (Z.ltb_spec (current b) (Z.max 0 (finalized b - activity_timeout))); [lia|]. simpl in Ei.
    rewrite (proj2 (Z.ltb_lt _ _)) in Ei by lia. simpl in Ei. destruct (Z.gtb_spec (current b) (current b + 1)); [lia|done]. }
  destruct Hb as [B1 B2 B0 B3 B4 B5 B6 B7]. split; try done; simpl.
  - intros w r Hw. apply B1. by apply lookup_delete_Some in Hw as [_ ?].
  - intros p Hp. destruct (B6 p Hp) as [? Hc]. split; [done|]. intros E. destruct (Hc E) as (r & Hr & ?).
    exists r. by rewrite lookup_delete_ne.
Qed.

Lemma process_ok h outs b v : batcher_ok h outs b → 1 ≤ v → ends (process b v) (λ b' o, batcher_ok h (outs ++ o) b').
Proof.
  intros Hb Hv. unfold BatcherActor.process. destruct (Z.eqb_spec v 0); [lia|]. apply ends_bind.
  eapply ends_mono; [|by apply (forward_ok h outs)]. intros b1 o1 Hb1. cbv beta.
  destruct (v <=? finalized b1); [apply ends_ret; by rewrite app_nil_r|].
  destruct (work b1 !! v) as [r|] eqn:Er; [|apply ends_ret; by rewrite app_nil_r]. apply ends_bind.
  eapply ends_mono; [|apply (update_round_ok (made h) (got h) (led h v) v r); exact (bo_work _ _ _ Hb1 _ _ Er)].
  intros r' o2 (Hr & Hs & Ho). cbv zeta beta.
  assert (batcher_ok h (outs ++ o1 ++ o2) (put b1 v r')) as Hb2.
  { rewrite app_assoc. apply outs_ok.
    - apply put_ok; [done..|]. intros r0. rewrite Er. intros [= <-] ?. congruence.
    - intros e He. specialize (Ho e He). destruct e; try done. by right.
    - clear Hs Hr. induction o2 as [|e o2 IH]; [done|]. simpl. assert (settled e) as He by (apply Ho; constructor).
      destruct e; try done; apply IH; intros z Hz; apply Ho; by constructor. }
  destruct (pop_ok h _ (merge_sort Z.le (elements (dom (work (put b1 v r'))))) _ Hb2) as (b' & Hp & Hb').
  eapply ends_lift; [exact Hp|]. by rewrite app_nil_r.
Qed.
End Spec.
End BatcherSpec.
