(* ===== verification/BatcherProperties.v ===== *)
(** * The guarantees of the batcher

    What reaches the voter is backed by verified signatures, and the batcher
    panics on exactly one kind of message. *)

From S2P Require Import Prelude Codec CodecOrdered ConsensusTypes Ordered SimplexTypes Fixtures SimplexEvidence.
From S2P Require Import Emit BatcherVerifier BatcherRound BatcherInvariant BatcherActor BatcherSpec.

Module BatcherProperties.
Import BatcherInvariant BatcherActor BatcherSpec.
Section Guarantees.
Context {T : Types} `{!Ord PublicKey, !EqDecision Signature}.
Context (scheme : Scheme) (sv : SimplexEvidence.Verifier) (batch : Batch).
Context (activity_timeout skip_timeout ep : Z) (namespace : bytes) (q self : Z).
Implicit Types b : Batcher.
Implicit Types h : list Incoming.

(** The assumptions on the configuration. *)
Record config_ok : Prop := {
  c_batch : BatchVerification sv batch;
  c_sorted : CodecOrdered.ascending (participants scheme);
  c_size : Z.of_nat (length (participants scheme)) < 2 ^ 32;
  c_quorum : Ordered.quorum (participants scheme) = Some q;
  c_me : me scheme = Some self;
  c_self : 0 ≤ self < Z.of_nat (length (participants scheme));
  c_activity : 0 ≤ activity_timeout;
}.

Notation handle := (handle scheme sv batch activity_timeout skip_timeout ep namespace).
Notation allowed := (allowed scheme sv ep namespace self).
Notation reachable := (reachable scheme sv batch activity_timeout skip_timeout ep namespace self).
Notation zero_vote := (zero_vote activity_timeout ep).
Notation batcher_ok := (batcher_ok scheme sv ep namespace q self).

Lemma select_ok h outs b m : config_ok → batcher_ok h outs b → allowed h m → ¬ zero_vote b m →
  ends (select scheme sv activity_timeout skip_timeout ep namespace b m)
    (selected scheme sv ep namespace q self (m :: h) outs).
Proof.
  intros [? ? ? ? ? ? ?] Hb Ha Hz. destruct m as [c l f|x|s c|s x]; simpl.
  - by apply on_update_ok.
  - by apply on_constructed_ok.
  - by apply on_certificate_ok.
  - by apply on_vote_ok.
Qed.

Lemma handle_ok h outs b m : config_ok → batcher_ok h outs b → allowed h m → ¬ zero_vote b m →
  ends (handle b m) (λ b' o, batcher_ok (m :: h) (outs ++ o) b').
Proof.
  intros Hc Hb Ha Hz. unfold BatcherActor.handle. apply ends_bind.
  eapply ends_mono; [|by eapply select_ok]. intros [b1 [v|]] o [Hb1 Hv]; cbv beta iota; simpl in *.
  - destruct Hc. eapply ends_mono;
      [|apply (process_ok scheme sv batch activity_timeout ep namespace q self) with (h := m :: h); eauto]. intros b2 o2 Hb2. cbv beta. by rewrite app_assoc.
  - apply ends_ret. by rewrite app_nil_r.
Qed.

Lemma handle_zero h outs b m : config_ok → batcher_ok h outs b → allowed h m → zero_vote b m → handle b m = None.
Proof.
  intros [? ? ? ? ? ? ?] Hb Ha Hz. unfold BatcherActor.handle.
  destruct (on_vote_zero scheme sv activity_timeout skip_timeout ep namespace q self) with (h := h) (outs := outs) (b := b) (m := m)
    as (b' & o & E); try done. unfold wbind. by rewrite E.
Qed.

Lemma start_ok : batcher_ok [] [] start.
Proof.
  split; simpl; try lia; try apply NoDup_nil_2; try (by left).
  - intros w r Hw. by rewrite lookup_empty in Hw.
  - by intros c l f ?%not_elem_of_nil.
  - by intros e ?%not_elem_of_nil.
  - by intros p ?%not_elem_of_nil.
Qed.

Lemma reachable_ok h outs b : config_ok → reachable h outs b → batcher_ok h outs b.
Proof.
  intros Hc. induction 1 as [|h outs b m b' o Hr IH Ha E]; [apply start_ok|].
  assert (¬ zero_vote b m) as Hz by (intros Hz; by rewrite (handle_zero h outs) in E).
  destruct (handle_ok h outs b m Hc IH Ha Hz) as (b2 & o2 & E2 & Hb). congruence.
Qed.

(** C11: every certificate the batcher hands to the voter was either received and
    verified, for the current epoch, or assembled from at least a quorum of votes
    of distinct participants whose signatures all verify; every proposal it hands
    over is that of a notarize vote that arrived on the channel of the validator which
    the voter named as the leader of its view, not ourselves, and that names this
    validator as its signer (the signature is not checked before), and no two are for
    the same view.  The voter and the peers behave as [allowed] says. *)
Theorem forwarded_are_backed h outs b : config_ok → reachable h outs b →
  (∀ c, ORecovered c ∈ outs →
    (∃ sender, MCertificate sender (Some c) ∈ h ∧ cert_epoch c = ep ∧ cert_verify sv namespace c = true)
    ∨ assembled scheme sv ep namespace q self (cert_view c) c) ∧
  (∀ p, OProposal p ∈ outs → ∃ nt sender f,
    nt_proposal nt = p ∧ rnd_epoch (round p) = ep ∧ MVote sender (Some (VNotarize nt)) ∈ h ∧
    Ordered.index_of (participants scheme) sender = Some (Some (notarize_signer nt)) ∧
    notarize_signer nt ≠ self ∧ MUpdate (proposal_view p) (notarize_signer nt) f ∈ h) ∧
  NoDup (proposal_view <$> proposals outs).
Proof.
  intros Hc Hr. pose proof (reachable_ok h outs b Hc Hr) as Hb. split_and!.
  - intros c Hin. exact (bo_outs _ _ _ _ _ _ _ _ _ Hb _ Hin).
  - intros p Hin. destruct (bo_outs _ _ _ _ _ _ _ _ _ Hb _ Hin) as (nt & ? & ? & (sender & ? & ?) & ? & f & ?).
    exists nt, sender, f. auto 10.
  - exact (bo_once _ _ _ _ _ _ _ _ _ Hb).
Qed.

(** C12: in every state the batcher of a participant can reach it survives every
    message, except a vote of the current epoch for view 0 that arrives while the last
    finalized view is at most the activity timeout: that one fails the assertion that a
    modified view is not zero, whoever sends it and whether or not it is signed.  The
    messages of its own voter are those the voter sends ([allowed]: updates with
    ascending views, and own votes that are valid, one of a kind in a view), and no
    peer sends on the channel of this validator's own key; certificates and the votes
    of all other senders are arbitrary. *)
Theorem batcher_panics_iff h outs b m : config_ok → reachable h outs b → allowed h m →
  handle b m = None ↔ zero_vote b m.
Proof.
  intros Hc Hr Ha. pose proof (reachable_ok h outs b Hc Hr) as Hb. split; [|by eapply handle_zero].
  intros E. destruct m as [c l f|x|s c|s x];
    try (by edestruct (handle_ok h outs b) as (? & ? & E' & _); [done..| |by rewrite E in E']; intros (? & ? & [=] & _)).
  destruct x as [x|]; [|by edestruct (handle_ok h outs b) as (? & ? & E' & _); [done..| |by rewrite E in E']; intros (? & ? & [=] & _)].
  destruct (decide (vote_epoch x = ep ∧ vote_view x = 0 ∧ finalized b ≤ activity_timeout)) as [(?&?&?)|Hn]; [by exists s, x|].
  edestruct (handle_ok h outs b) as (? & ? & E' & _); [done..| |by rewrite E in E'].
  intros (? & ? & [= <- <-] & ?). tauto.
Qed.
End Guarantees.

(** ** A run

    Participant 0 is told that 1 leads view 1; a bad signature, the leader's
    notarize vote, ours and that of 2 make a notarization. *)
Module Demo.
Import Fixtures.

Definition verifier : SimplexEvidence.Verifier := SimplexEvidence.mkVerifier
  (λ _ s a, signature a =? 100 * signer a + subject_view s) (λ _ _ _, false) (λ _ _, false).
Definition batch : Batch := verify_attestations verifier.
Definition notarize (i s : Z) : Vote := VNotarize (mkNotarize (proposal 1 7) (mkAttestation i s)).
Definition zero : Incoming := MVote 13 (Some (VNullify (mkNullify (rnd 0) (mkAttestation 3 0)))).

(** The messages, latest first. *)
Definition history : list Incoming :=
  [MVote 12 (Some (notarize 2 201)); MVote 13 (Some (notarize 3 5)); MConstructed (notarize 0 1);
   MVote 11 (Some (notarize 1 101)); MUpdate 1 1 0].

Notation turn := (handle (scheme 0) verifier batch 10 5 0 []).
Notation permitted := (allowed (scheme 0) verifier 0 [] 0).
Notation reaches := (reachable (scheme 0) verifier batch 10 5 0 [] 0).

Fixpoint replay (h : list Incoming) : option (Batcher * list Out) :=
  match h with
  | [] => Some (start, [])
  | m :: h => '(b, outs) ← replay h; '(b', o) ← turn b m; Some (b', outs ++ o)
  end.
Fixpoint all_permitted (h : list Incoming) : Prop :=
  match h with [] => True | m :: h => permitted h m ∧ all_permitted h end.

Lemma replay_reachable h b outs : all_permitted h → replay h = Some (b, outs) → reaches h outs b.
Proof.
  revert b outs. induction h as [|m h IH]; intros b outs; simpl.
  - intros _ [= <- <-]. constructor.
  - intros [Hm Hh]. destruct (replay h) as [[b0 o0]|] eqn:E; [|done]. simpl.
    destruct (turn b0 m) as [[b1 o1]|] eqn:E1; [|done]. intros [= <- <-]. econstructor; eauto.
Qed.

Lemma config : config_ok (scheme 0) verifier batch 10 3 0.
Proof. split; try done; try apply _. by repeat constructor. Qed.

Lemma history_permitted : all_permitted history.
Proof.
  repeat split; simpl; try lia; try (by vm_compute); try (by intros y [= <-]).
  - intros y. rewrite !elem_of_cons. by intros [?|[?|?%not_elem_of_nil]].
  - by intros ? ? ? ?%not_elem_of_nil.
Qed.

Definition demo_cert : Cert := CNotarization (mkNotarization (proposal 1 7) [1; 101; 201]).
Definition report (i s : Z) : Out := OReport (AcNotarize (mkNotarize (proposal 1 7) (mkAttestation i s))).
Definition sent : list Out :=
  [OActive true; report 1 101; OProposal (proposal 1 7); report 0 1; report 3 5; OBlock 13; report 2 201;
   ORecovered demo_cert].

Lemma history_replayed : (λ x, (finalized x.1, x.2)) <$> replay history = Some (0, sent).
Proof. by vm_compute. Qed.

Lemma history_reachable : ∃ b, reaches history sent b ∧ finalized b = 0.
Proof.
  pose proof history_replayed as H. apply fmap_Some in H as ([b o] & E & [= Hf Ho]). simpl in *. subst o.
  exists b. split; [|done]. by apply replay_reachable; [apply history_permitted|].
Qed.

End Demo.
Import Fixtures Demo.

Lemma forwarded_are_backed_witness : ORecovered demo_cert ∈ sent ∧ OProposal (proposal 1 7) ∈ sent ∧
  assembled (scheme 0) verifier 0 [] 3 0 1 demo_cert ∧ MUpdate 1 1 0 ∈ history ∧ NoDup (proposal_view <$> proposals sent).
Proof.
  destruct history_reachable as (b & Hr & _).
  destruct (forwarded_are_backed (scheme 0) verifier batch 10 5 0 [] 3 0 _ _ _ config Hr) as (H1 & _ & H3).
  assert (ORecovered demo_cert ∈ sent) as Hin by (repeat constructor).
  split; [exact Hin|]. split; [repeat constructor|]. split; [|split; [repeat constructor|exact H3]].
  destruct (H1 _ Hin) as [(s & Hs & _)|Ha]; [|exact Ha].
  repeat (apply elem_of_cons in Hs as [Hs|Hs]; [discriminate|]). by apply not_elem_of_nil in Hs.
Defined.

Lemma batcher_panics_iff_witness : ∃ b, reaches history sent b ∧ turn b zero = None ∧ turn b (MVote 13 None) ≠ None.
Proof.
  destruct history_reachable as (b & Hr & Hf). exists b. split; [exact Hr|].
  assert (permitted history zero) as Hz by (split; [by vm_compute|by intros y [= <-]]).
  assert (permitted history (MVote 13 None)) as Hn by (split; [by vm_compute|by intros y [=]]).
  split.
  - apply (batcher_panics_iff (scheme 0) verifier batch 10 5 0 [] 3 0 history sent b zero config Hr Hz).
    eexists 13, _. split; [reflexivity|]. split; [reflexivity|]. split; [reflexivity|]. lia.
  - intros Hp. apply (batcher_panics_iff (scheme 0) verifier batch 10 5 0 [] 3 0 history sent b _ config Hr Hn) in Hp.
    destruct Hp as (? & ? & ? & _). discriminate.
Defined.
End BatcherProperties.
