(* ===== verification/Resolver.v ===== *)
(** * The resolver actor (consensus/src/simplex/actors/resolver)

    The resolver fetches the certificates a validator has missed: it asks peers for
    the nullification of every view between its floor (the highest certified
    notarization or finalization) and the current view, and serves the certificates
    of its own.  [Resolver.State] and its methods are state.rs, [handle_mailbox]
    and [handle_resolver] are one turn of the loop of actor.rs. *)

From S2P Require Import Prelude Codec ConsensusTypes SimplexTypes SimplexEvidence Emit.
From coqutil Require Export Datatypes.RecordSetters.
Export DoubleBraceUpdate.

(** The calls of the [Resolver] trait (resolver/src/lib.rs) that the state makes;
    [RRetain f] keeps the requests above [f]. *)
Inductive Request : Type :=
| RFetch (key : Z)
| RFetchAll (keys : list Z)
| RCancel (key : Z)
| RRetain (floor : Z).

Inductive MailboxMessage {T : Types} : Type :=
| MCert (c : Cert)
| MCertified (v : Z) (success : bool).

Inductive HandlerMessage : Type :=
| HDeliver (v : Z) (data : bytes)
| HProduce (v : Z).

(** What the actor does besides changing its state: it calls the p2p resolver,
    passes a certificate to the voter, and answers on the channel of a message. *)
Inductive Output {T : Types} : Type :=
| OResolver (r : Request)
| OVoter (c : Cert)
| ORespond (ok : bool)
| OProduce (data : bytes).

Module Resolver.
Section State_.
Context {T : Types}.

Record State : Type := mkState {
  current_view : Z;
  floor : option Cert;
  notarizations : gmap Z Notarization;
  nullifications : gmap Z Cert;
  fetch_concurrent : nat;
  fetch_floor : Z;
  satisfied_by : gmap Z (gset Z);
  failed_views : gset Z;
}.
Implicit Types st : State.
Notation W := (Emit.W Output).

Definition call (r : Request) : W unit := send (OResolver r).

Definition new (fetch_concurrent : nat) : State :=
  mkState View.zero None ∅ ∅ fetch_concurrent View.zero ∅ ∅.

Definition is_failed st (v : Z) : bool := bool_decide (v ∈ failed_views st).

Definition floor_view st : Z := match floor st with Some c => cert_view c | None => View.zero end.

(** Whether the view is above the floor, with the current view updated. *)
Definition encounter_view st (v : Z) : bool * State :=
  let st := st {{ current_view := Z.max (current_view st) v }} in
  (floor_view st <? v, st).

Definition can_upgrade_floor st (v : Z) : bool :=
  match floor st with Some (CNotarization n) => proposal_view (nz_proposal n) =? v | _ => false end.

Definition fetch st : W State :=
  let^ above := wlift (View.next (floor_view st)) in
  let start := Z.max (fetch_floor st) above in
  let views := take (fetch_concurrent st)
    (filter (λ v, nullifications st !! v = None) (View.range start (current_view st))) in
  let^ st :=
    match last views with
    | Some v => let^ next := wlift (View.next v) in wret (st {{ fetch_floor := next }})
    | None => wret st
    end in
  let^ _ := call (RFetchAll views) in
  wret st.

Definition prune st : W State :=
  let f := floor_view st in
  let^ _ := call (RRetain f) in
  wret (st {{ notarizations := filter (λ x, f < x.1) (notarizations st);
              nullifications := filter (λ x, f < x.1) (nullifications st);
              satisfied_by := filter (λ x, f < x.1) (satisfied_by st);
              failed_views := filter (λ v, f < v) (failed_views st) }}).

Definition handle st (certificate : Cert) (request : option Z) : W State :=
  let^ st :=
    match certificate with
    | CNullification n =>
        let v := rnd_view (nlz_round n) in
        let '(interesting, st) := encounter_view st v in
        if interesting : bool then
          let^ _ := call (RCancel v) in
          wret (st {{ nullifications := <[v := CNullification n]> (nullifications st) }})
        else wret st
    | CNotarization n =>
        let v := proposal_view (nz_proposal n) in
        let '(interesting, st) := encounter_view st v in
        if interesting : bool then
          let st := st {{ notarizations := <[v := n]> (notarizations st) }} in
          match request with
          | Some r => wret (st {{ satisfied_by := <[v := {[r]} ∪ default ∅ (satisfied_by st !! v)]> (satisfied_by st) }})
          | None => wret st
          end
        else wret st
    | CFinalization f =>
        let v := proposal_view (fzz_proposal f) in
        let '(interesting, st) := encounter_view st v in
        if interesting || can_upgrade_floor st v
        then prune (st {{ floor := Some (CFinalization f) }})
        else wret st
    end in
  fetch st.

Fixpoint fetch_each (views : list Z) : W unit :=
  match views with [] => wret tt | v :: views => let^ _ := call (RFetch v) in fetch_each views end.

Definition handle_certified st (v : Z) (success : bool) : W State :=
  if success then
    let^ st :=
      match notarizations st !! v with
      | Some n =>
          let st := st {{ notarizations := delete v (notarizations st) }} in
          if floor_view st <? v then prune (st {{ floor := Some (CNotarization n) }}) else wret st
      | None => wret st
      end in
    wret (st {{ satisfied_by := delete v (satisfied_by st) }})
  else
    let st := st {{ notarizations := delete v (notarizations st); failed_views := {[v]} ∪ failed_views st }} in
    let f := floor_view st in
    let^ _ := if f <? v then call (RFetch v) else wret tt in
    match satisfied_by st !! v with
    | Some views =>
        let^ _ := fetch_each (filter (λ w, f < w) (merge_sort Z.le (elements views))) in
        wret (st {{ satisfied_by := delete v (satisfied_by st) }})
    | None => wret st
    end.

Definition get st (v : Z) : option Cert :=
  match floor st with
  | Some c => if v <=? cert_view c then Some c else nullifications st !! v
  | None => nullifications st !! v
  end.
End State_.

(** ** The actor *)

Section Actor.
Context {T : Types} {CCfg : Type} (digest : codec Digest unit) (cert : codec Certificate CCfg) (cfg : CCfg).
Context (sv : SimplexEvidence.Verifier) (ep : Z) (namespace : bytes).
Implicit Types st : State.
Notation W := (Emit.W Output).
Notation cert_codec := (SimplexCodec.cert_codec digest cert).

Definition validate st (v : Z) (data : bytes) : option (option Cert) :=
  match decode_cfg cert_codec data cfg with
  | Panic => None
  | Err _ => Some None
  | Ok (CNotarization n) =>
      let notarization_view := proposal_view (nz_proposal n) in
      Some (
        if notarization_view <? v then None
        else if negb (rnd_epoch (round (nz_proposal n)) =? ep) then None
        else if is_failed st notarization_view then None
        else if negb (notarization_verify sv namespace n) then None
        else Some (CNotarization n))
  | Ok (CFinalization f) =>
      Some (
        if proposal_view (fzz_proposal f) <? v then None
        else if negb (rnd_epoch (round (fzz_proposal f)) =? ep) then None
        else if negb (finalization_verify sv namespace f) then None
        else Some (CFinalization f))
  | Ok (CNullification n) =>
      Some (
        if negb (rnd_view (nlz_round n) =? v) then None
        else if negb (rnd_epoch (nlz_round n) =? ep) then None
        else if negb (nullification_verify sv namespace n) then None
        else Some (CNullification n))
  end.

Definition handle_resolver st (m : HandlerMessage) : W State :=
  match m with
  | HDeliver v data =>
      let^ parsed := wlift (validate st v data) in
      match parsed with
      | None => let^ _ := send (ORespond false) in wret st
      | Some parsed =>
          let^ _ := send (ORespond true) in
          let^ _ := send (OVoter parsed) in
          handle st parsed (Some v)
      end
  | HProduce v =>
      match get st v with
      | None => wret st
      | Some c =>
          let^ data := wlift (encode cert_codec c) in
          let^ _ := send (OProduce data) in
          wret st
      end
  end.

Definition handle_mailbox st (m : MailboxMessage) : W State :=
  match m with
  | MCert c => handle st c None
  | MCertified v success => handle_certified st v success
  end.

(** A turn of the loop. *)
Definition turn st (m : MailboxMessage + HandlerMessage) : W State :=
  match m with inl m => handle_mailbox st m | inr m => handle_resolver st m end.
End Actor.
End Resolver.
