(* ===== verification/CodecProperties.v ===== *)
(** * Properties of the codecs

    What the codecs of the other files promise, in terms of the values they
    accept: decoding is the inverse of encoding, on exactly the values of the
    type that the configuration allows, and no input makes a decoder panic. *)

From S2P Require Import Prelude Codec Varint CodecTypes CodecOrdered CodecRecords ConsensusTypes.
From S2P Require Import SimplexTypes SimplexEvidence Fixtures.
Import CodecTypes CodecOrdered CodecRecords SimplexCodec Evidence.

Module CodecProperties.

#[local] Hint Extern 1 (fits _ _) => (split; vm_compute; discriminate || reflexivity) : cw.

(** ** Any codec *)

(** for any lawful codec, an encoding can be followed by other data: the
    reader returns the value and leaves exactly what follows, while [decode]
    rejects every proper prefix of the encoding and reports the length of
    trailing data. *)
Theorem codec_in_stream {A Cfg} (c : codec A Cfg) `{!Lawful c} cfg x b :
  admits c cfg x → encode c x = Some b →
  (∀ rest, read_cfg c cfg (b ++ rest) = Ok (x, rest)) ∧
  (∀ p s, b = p ++ s → s ≠ [] → ∀ y, decode_cfg c p cfg ≠ Ok y) ∧
  (∀ s, s ≠ [] → decode_cfg c (b ++ s) cfg = Err (ExtraData (Z.of_nat (length s)))).
Proof.
  rewrite (encode_write c). intros Ha Hw. split; [|split].
  - intros rest. by apply codec_roundtrip.
  - intros p s -> Hs y. by eapply decode_truncated.
  - intros s Hs. by eapply decode_extra.
Qed.

Lemma codec_in_stream_witness :
  encode u16 300 = Some [byte.of_Z 1; byte.of_Z 44] ∧
  ∀ rest, read_cfg u16 tt ([byte.of_Z 1; byte.of_Z 44] ++ rest) = Ok (300, rest).
Proof.
  assert (admits u16 tt 300) as Ha by (split; vm_compute; discriminate || reflexivity).
  assert (encode u16 300 = Some [byte.of_Z 1; byte.of_Z 44]) as He by (vm_compute; reflexivity).
  split; [exact He|]. exact (proj1 (codec_in_stream u16 tt 300 _ Ha He)).
Defined.

(** ** Integers *)

(** C39: the variable-length decoder of a [SIZE]-byte unsigned integer accepts
    exactly the encodings of the integers of that width, every such integer has
    one, of at most [ceil(8 * SIZE / 7)] bytes, and no input makes the decoder
    panic. *)
Theorem uint_decode_iff SIZE x buf : 0 < SIZE →
  decode_cfg (Varint.UInt SIZE) buf tt ≠ Panic ∧
  (decode_cfg (Varint.UInt SIZE) buf tt = Ok x ↔
    fits (SIZE * 8) x ∧ encode (Varint.UInt SIZE) x = Some buf) ∧
  (fits (SIZE * 8) x → ∃ b, encode (Varint.UInt SIZE) x = Some b ∧
    Z.of_nat (length b) = Varint.size SIZE x ∧ Varint.size SIZE x ≤ div_ceil (SIZE * 8) 7).
Proof.
  intros HS. pose proof (Varint.UInt_lawful SIZE HS) as L.
  destruct (@decode_iff _ _ _ (Varint.UInt_lawful SIZE HS) tt x buf) as [H1 H2].
  split; [done|]. split; [done|]. intros Hf.
  destruct (@encode_total _ _ _ (Varint.UInt_lawful SIZE HS) tt x Hf) as [b Hb].
  exists b. split; [done|]. rewrite (@encode_write _ _ _ (Varint.UInt_lawful SIZE HS)) in Hb.
  split; [|by apply Varint.size_bound]. apply Varint.write_length; [apply Hf|done].
Qed.

Lemma uint_decode_iff_witness :
  decode_cfg (Varint.UInt 2) [byte.of_Z 255; byte.of_Z 255; byte.of_Z 3] tt = Ok 65535 ↔
  fits 16 65535 ∧ encode (Varint.UInt 2) 65535 = Some [byte.of_Z 255; byte.of_Z 255; byte.of_Z 3].
Proof. exact (proj1 (proj2 (uint_decode_iff 2 65535 _ ltac:(lia)))). Defined.

(** A last byte that overflows the width, and a superfluous zero byte. *)
Example uint_overflow :
  decode_cfg (Varint.UInt 2) [byte.of_Z 255; byte.of_Z 255; byte.of_Z 4] tt = Err (InvalidVarint 2) ∧
  decode_cfg (Varint.UInt 2) [byte.of_Z 129; byte.of_Z 0] tt = Err (InvalidVarint 2).
Proof. by vm_compute. Qed.

(** the ZigZag decoder of a [SIZE]-byte signed integer accepts exactly the
    encodings of the integers of that width, and ZigZag maps them one to one to
    the unsigned integers, small magnitudes to small values. *)
Theorem sint_decode_iff SIZE x buf : 0 < SIZE →
  decode_cfg (Varint.SInt SIZE) buf tt ≠ Panic ∧
  (decode_cfg (Varint.SInt SIZE) buf tt = Ok x ↔
    sfits (SIZE * 8) x ∧ encode (Varint.SInt SIZE) x = Some buf) ∧
  (sfits (SIZE * 8) x →
    Varint.as_zigzag SIZE x = (if 0 <=? x then 2 * x else - 2 * x - 1) ∧
    fits (SIZE * 8) (Varint.as_zigzag SIZE x) ∧
    Varint.un_zigzag SIZE (Varint.as_zigzag SIZE x) = x).
Proof.
  intros HS. destruct (@decode_iff _ _ _ (Varint.SInt_lawful SIZE HS) tt x buf) as [H1 H2].
  split; [done|]. split; [done|]. intros Hx. split; [by apply Varint.as_zigzag_eq|].
  split; [by apply Varint.as_zigzag_fits|by apply Varint.un_zigzag_as].
Qed.

Lemma sint_decode_iff_witness :
  decode_cfg (Varint.SInt 4) [byte.of_Z 3] tt = Ok (-2) ↔
  sfits 32 (-2) ∧ encode (Varint.SInt 4) (-2) = Some [byte.of_Z 3].
Proof. exact (proj1 (proj2 (sint_decode_iff 4 (-2) _ ltac:(lia)))). Defined.

(** fixed-width integers are big-endian: an unsigned [n]-byte integer decodes
    from exactly [n] bytes, each sequence of which is the encoding of one value,
    and shorter input is an error. *)
Theorem fixed_decode_iff n x buf :
  decode_cfg (unsigned n) buf tt ≠ Panic ∧
  (decode_cfg (unsigned n) buf tt = Ok x ↔
    length buf = n ∧ x = get_be buf ∧ fits (Z.of_nat n * 8) x ∧ encode (unsigned n) x = Some buf) ∧
  ((length buf < n)%nat → decode_cfg (unsigned n) buf tt = Err EndOfBuffer).
Proof.
  split; [apply (decode_iff (unsigned n) tt x buf)|]. split.
  - rewrite (proj2 (decode_iff (unsigned n) tt x buf)), (encode_write (unsigned n)). simpl.
    unfold numeric_write. split; [|naive_solver]. intros [Hx [= <-]].
    rewrite length_put_be, get_put_be, Z.mod_small by done. done.
  - intros Hl. unfold decode_cfg. simpl. unfold numeric_read_cfg, at_least.
    by rewrite (proj2 (Z.ltb_lt _ _)) by lia.
Qed.

(** a length is written as a 32-bit varint; writing one that does not fit
    panics, and reading accepts exactly the lengths in the configured range. *)
Theorem usize_limits range x buf : 0 ≤ x →
  (encode usize x = None ↔ 2 ^ 32 ≤ x) ∧
  decode_cfg usize buf range ≠ Panic ∧
  (decode_cfg usize buf range = Ok x ↔
    RangeCfg.lower_ok (rc_start range) x ∧ RangeCfg.upper_ok (rc_end range) x ∧
    encode usize x = Some buf).
Proof.
  intros Hx.
  assert (encode usize x = None ↔ 2 ^ 32 ≤ x) as Hnone.
  { rewrite (encode_write usize). change (usize_write x = None ↔ 2 ^ 32 ≤ x).
    unfold usize_write. destruct (fitsb 32 x) eqn:E.
    - destruct (Varint.write_total x) as [b Hb].
      change (Varint.write x = None ↔ 2 ^ 32 ≤ x). rewrite Hb. apply fitsb_spec in E as [? ?].
      split; [done|lia].
    - split; [|done]. intros _. apply not_true_iff_false in E. rewrite fitsb_spec in E.
      unfold fits in E. lia. }
  split; [done|]. destruct (decode_iff usize range x buf) as [H1 H2]. split; [done|].
  rewrite H2. simpl. rewrite RangeCfg.contains_spec. split; [naive_solver|].
  intros (Hl & Hu & E). split; [|done]. split; [|done]. split; [done|].
  destruct (Z.lt_ge_cases x (2 ^ 32)) as [|Hge]; [done|]. apply Hnone in Hge. congruence.
Qed.

Lemma usize_limits_witness : encode usize (2 ^ 32) = None ↔ 2 ^ 32 ≤ 2 ^ 32.
Proof. exact (proj1 (usize_limits RangeCfg.from_range_full (2 ^ 32) [] ltac:(lia))). Defined.

(** ** Collections *)

Section Collections.
Context {K CK V CV : Type} (k : codec K CK) (v : codec V CV) `{!Lawful k, !Lawful v, !Ord K}.

(** a vector decodes exactly from its encoding, when its length is in the
    configured range and every item is one the item's codec accepts. *)
Theorem vec_decode_iff range cfg l buf :
  decode_cfg (vec k) buf (range, cfg) ≠ Panic ∧
  (decode_cfg (vec k) buf (range, cfg) = Ok l ↔
    RangeCfg.contains range (Z.of_nat (length l)) = true ∧ Forall (admits k cfg) l ∧
    encode (vec k) l = Some buf).
Proof.
  destruct (decode_iff (vec k) (range, cfg) l buf) as [H1 H2]. split; [done|]. rewrite H2.
  simpl. split; [naive_solver|]. intros (Hr & Hf & E). split; [|done]. split; [|done].
  split; [|done]. rewrite (encode_write (vec k)) in E. simpl in E. unfold vec_write, write2 in E.
  simpl in E. unfold usize_write in E.
  destruct (fitsb 32 (Z.of_nat (length l))) eqn:Ef; [by apply fitsb_spec|done].
Qed.

(** a set decodes exactly from the encoding of its items in strictly
    ascending order: duplicates and wrong orders are rejected, and the decoded
    items are the ones read, in order. *)
Theorem set_decode_iff cfg l buf :
  decode_cfg (btree_set k) buf cfg ≠ Panic ∧
  (decode_cfg (btree_set k) buf cfg = Ok l ↔
    ascending l ∧ decode_cfg (vec k) buf cfg = Ok l) ∧
  (ascending l → encode (btree_set k) l = encode (vec k) l).
Proof.
  destruct (decode_iff (btree_set k) cfg l buf) as [H1 H2].
  assert (encode (btree_set k) l = encode (vec k) l) as E
    by (rewrite (encode_write (btree_set k)), (encode_write (vec k)); done).
  split; [done|]. split; [|done]. rewrite H2, (proj2 (decode_iff (vec k) cfg l buf)), E.
  simpl. naive_solver.
Qed.

(** a map decodes exactly from the encoding of its entries in strictly
    ascending order of keys. *)
Theorem map_decode_iff cfg m buf :
  decode_cfg (btree_map k v) buf cfg ≠ Panic ∧
  (decode_cfg (btree_map k v) buf cfg = Ok m ↔
    ascending m.*1 ∧ decode_cfg (vec (tuple2 k v)) buf cfg = Ok m) ∧
  (ascending m.*1 → encode (btree_map k v) m = encode (vec (tuple2 k v)) m).
Proof.
  destruct (decode_iff (btree_map k v) cfg m buf) as [H1 H2].
  assert (encode (btree_map k v) m = encode (vec (tuple2 k v)) m) as E
    by (rewrite (encode_write (btree_map k v)), (encode_write (vec (tuple2 k v))); done).
  split; [done|]. split; [|done].
  rewrite H2, (proj2 (decode_iff (vec (tuple2 k v)) cfg m buf)), E. simpl. naive_solver.
Qed.
End Collections.

Example set_decode_order :
  decode_cfg (btree_set u8) (byte.of_Z <$> [2; 3; 5]) (RangeCfg.from_range 0 9, tt) = Ok [3; 5] ∧
  decode_cfg (btree_set u8) (byte.of_Z <$> [2; 5; 3]) (RangeCfg.from_range 0 9, tt) =
    Err (Invalid "BTreeSet" "Items must ascend") ∧
  decode_cfg (btree_set u8) (byte.of_Z <$> [2; 5; 5]) (RangeCfg.from_range 0 9, tt) =
    Err (Invalid "BTreeSet" "Duplicate item").
Proof. by vm_compute. Qed.

(** ** Simplex artifacts *)

Section Artifacts.
Context {T : Types} {CCfg : Type}.
Context (digest : codec Digest unit) (sig : codec Signature unit) (cert : codec Certificate CCfg).
Context `{!Lawful digest, !Lawful sig, !Lawful cert}.

Definition rnd_fits (r : Rnd) : Prop := fits 64 (rnd_epoch r) ∧ fits 64 (rnd_view r).
Definition proposal_fits (p : Proposal) : Prop :=
  rnd_fits (round p) ∧ fits 64 (parent p) ∧ admits digest tt (payload p).
Definition attestation_fits (a : Attestation) : Prop :=
  fits 32 (signer a) ∧ admits sig tt (signature a).

(** The field values the code's types can hold. *)
Definition artifact_fits (cfg : CCfg) (a : Artifact) : Prop :=
  match a with
  | ANotarize n => proposal_fits (nt_proposal n) ∧ attestation_fits (nt_attestation n)
  | ANotarization n => proposal_fits (nz_proposal n) ∧ admits cert cfg (nz_certificate n)
  | ACertification r _ => rnd_fits r ∧ True
  | ANullify n => rnd_fits (nl_round n) ∧ attestation_fits (nl_attestation n)
  | ANullification n => rnd_fits (nlz_round n) ∧ admits cert cfg (nlz_certificate n)
  | AFinalize f => proposal_fits (fz_proposal f) ∧ attestation_fits (fz_attestation f)
  | AFinalization f => proposal_fits (fzz_proposal f) ∧ admits cert cfg (fzz_certificate f)
  end.

Lemma artifact_admits cfg a :
  admits (artifact_codec digest sig cert) cfg a ↔ artifact_fits cfg a.
Proof.
  destruct a as [[[? ? ?] [? ?]]|[[? ? ?] ?]|? ?|[? [? ?]]|[? ?]|[[? ? ?] [? ?]]|[[? ? ?] ?]];
    done.
Qed.

(** C38: a journal entry decodes exactly from the encoding of an artifact whose
    fields have the widths of their types, so a replayed journal contains the
    artifacts that were appended and nothing else is accepted. *)
Theorem artifact_decode_iff cfg a buf :
  decode_cfg (artifact_codec digest sig cert) buf cfg ≠ Panic ∧
  (decode_cfg (artifact_codec digest sig cert) buf cfg = Ok a ↔
    artifact_fits cfg a ∧ encode (artifact_codec digest sig cert) a = Some buf).
Proof.
  rewrite <- artifact_admits. apply (decode_iff (artifact_codec digest sig cert)).
Qed.

Definition notarize_fits (n : Notarize) : Prop :=
  proposal_fits (nt_proposal n) ∧ attestation_fits (nt_attestation n).
Definition nullify_fits (n : Nullify) : Prop :=
  rnd_fits (nl_round n) ∧ attestation_fits (nl_attestation n).
Definition finalize_fits (f : Finalize) : Prop :=
  proposal_fits (fz_proposal f) ∧ attestation_fits (fz_attestation f).
Definition notarization_fits (cfg : CCfg) (n : Notarization) : Prop :=
  proposal_fits (nz_proposal n) ∧ admits cert cfg (nz_certificate n).
Definition nullification_fits (cfg : CCfg) (n : Nullification) : Prop :=
  rnd_fits (nlz_round n) ∧ admits cert cfg (nlz_certificate n).

(** The activities a reader accepts: evidence only when its votes match. *)
Definition activity_fits (cfg : CCfg) (a : Activity) : Prop :=
  match a with
  | AcNotarize n => notarize_fits n
  | AcNotarization n | AcCertification n => notarization_fits cfg n
  | AcNullify n => nullify_fits n
  | AcNullification n => nullification_fits cfg n
  | AcFinalize f => finalize_fits f
  | AcFinalization f => proposal_fits (fzz_proposal f) ∧ admits cert cfg (fzz_certificate f)
  | AcConflictingNotarize e =>
      (notarize_fits (notarize_1 e) ∧ notarize_fits (notarize_2 e)) ∧
      notarizes_match (notarize_1 e) (notarize_2 e) = true
  | AcConflictingFinalize e =>
      (finalize_fits (finalize_1 e) ∧ finalize_fits (finalize_2 e)) ∧
      finalizes_match (finalize_1 e) (finalize_2 e) = true
  | AcNullifyFinalize e =>
      (nullify_fits (nf_nullify e) ∧ finalize_fits (nf_finalize e)) ∧
      nullify_finalize_match (nf_nullify e) (nf_finalize e) = true
  end.

Lemma activity_admits cfg a :
  admits (activity_codec digest sig cert) cfg a ↔ activity_fits cfg a.
Proof. by destruct a. Qed.

(** a reported activity decodes exactly from the encoding of an activity
    whose fields have their widths; evidence is accepted only when its two votes
    have the same signer and round. *)
Theorem activity_decode_iff cfg a buf :
  decode_cfg (activity_codec digest sig cert) buf cfg ≠ Panic ∧
  (decode_cfg (activity_codec digest sig cert) buf cfg = Ok a ↔
    activity_fits cfg a ∧ encode (activity_codec digest sig cert) a = Some buf).
Proof.
  rewrite <- activity_admits. apply (decode_iff (activity_codec digest sig cert)).
Qed.

(** What a catch-up message of at most [max_len] items holds. *)
Definition backfiller_fits (cfg : Z * CCfg) (b : Backfiller) : Prop :=
  match b with
  | BfRequest r =>
      fits 64 (req_id r) ∧ Forall (fits 64) (req_notarizations r) ∧
      Forall (fits 64) (req_nullifications r) ∧
      NoDup (req_notarizations r) ∧ NoDup (req_nullifications r) ∧
      Z.of_nat (length (req_notarizations r) + length (req_nullifications r)) ≤ cfg.1
  | BfResponse r =>
      fits 64 (res_id r) ∧ Forall (notarization_fits cfg.2) (res_notarizations r) ∧
      Forall (nullification_fits cfg.2) (res_nullifications r) ∧
      NoDup ((λ n, proposal_view (nz_proposal n)) <$> res_notarizations r) ∧
      NoDup ((λ n, rnd_view (nlz_round n)) <$> res_nullifications r) ∧
      Z.of_nat (length (res_notarizations r) + length (res_nullifications r)) ≤ cfg.1
  end.

Lemma vec_admits_below {A CA} (c : codec A CA) `{!Lawful c} m cfg l :
  m < 2 ^ 32 →
  admits (vec c) (RangeCfg.from_range_to_inclusive m, cfg) l ↔
  Z.of_nat (length l) ≤ m ∧ Forall (admits c cfg) l.
Proof.
  intros Hm. cbn [admits vec_lawful usize_lawful fst snd]. rewrite RangeCfg.contains_spec.
  unfold fits. simpl. split; [naive_solver|]. intros [? ?]. split; [split; [lia|done]|done].
Qed.

Lemma lists_ok_spec {N CN L CL} (cn : codec N CN) (cl : codec L CL) `{!Lawful cn, !Lawful cl}
    vn vl (m : Z) (cfg_n : CN) (cfg_l : CL) i ns ls : m < 2 ^ 32 →
  lists_ok cn cl vn vl (m, (cfg_n, cfg_l)) (i, (ns, ls)) ↔
  fits 64 i ∧ Forall (admits cn cfg_n) ns ∧ Forall (admits cl cfg_l) ls ∧
  NoDup (vn <$> ns) ∧ NoDup (vl <$> ls) ∧ Z.of_nat (length ns + length ls) ≤ m.
Proof.
  intros Hm. unfold lists_ok. cbn [fst snd].
  rewrite (vec_admits_below cn m) by done.
  rewrite (vec_admits_below cl (m - Z.of_nat (length ns))) by lia.
  split; [intros (? & [? ?] & ? & [? ?] & ?)|intros (? & ? & ? & ? & ? & ?)];
    split_and!; done || lia.
Qed.

Lemma backfiller_admits cfg b : cfg.1 < 2 ^ 32 →
  admits (backfiller_codec digest cert) cfg b ↔ backfiller_fits cfg b.
Proof.
  intros Hm. destruct b as [[i ns ls]|[i ns ls]].
  - pose proof (lists_ok_spec View.codec View.codec id id cfg.1 tt tt i ns ls Hm) as H.
    rewrite !list_fmap_id in H. exact H.
  - exact (lists_ok_spec (notarization_codec digest cert) (nullification_codec cert) _ _
      cfg.1 cfg.2 cfg.2 i ns ls Hm).
Qed.

(** a catch-up message decodes exactly from the encoding of a message in
    which no view is requested or answered twice in the same list and whose two
    lists together are within the configured limit. *)
Theorem backfiller_decode_iff cfg b buf : cfg.1 < 2 ^ 32 →
  decode_cfg (backfiller_codec digest cert) buf cfg ≠ Panic ∧
  (decode_cfg (backfiller_codec digest cert) buf cfg = Ok b ↔
    backfiller_fits cfg b ∧ encode (backfiller_codec digest cert) b = Some buf).
Proof.
  intros Hm. rewrite <- (backfiller_admits cfg b Hm). apply (decode_iff (backfiller_codec digest cert)).
Qed.
End Artifacts.

Section BackfillerWitness.
#[local] Instance demo_types : Types := {|
  Digest := Z; Signature := Z; Certificate := Z; PublicKey := Z |}.

Definition demo_request : Backfiller := BfRequest (mkRequest 1 [3; 4] [5]).
Definition demo_request_bytes : bytes := byte.of_Z <$> [0; 1; 2; 3; 4; 1; 5].

(** The request decodes within a limit of three views, not within two. *)
Lemma backfiller_decode_iff_witness :
  decode_cfg (backfiller_codec u32 u64) demo_request_bytes (3, tt) = Ok demo_request ∧
  ¬ backfiller_fits u32 u64 (2, tt) demo_request.
Proof.
  assert (encode (backfiller_codec u32 u64) demo_request = Some demo_request_bytes) as He
    by (vm_compute; reflexivity).
  split.
  - apply (proj2 (backfiller_decode_iff (T := demo_types) u32 u64 (3, tt) demo_request demo_request_bytes eq_refl)).
    split; [|exact He].
    unfold fits. simpl. split_and!; try (by lia); repeat constructor; unfold fits; try lia;
      set_solver by lia.
  - intros Hf.
    pose proof (proj2 (proj2 (backfiller_decode_iff (T := demo_types) u32 u64 (2, tt) demo_request demo_request_bytes
      eq_refl)) (conj Hf He)) as H.
    vm_compute in H. discriminate H.
Defined.
End BackfillerWitness.

(** ** Namespaces *)

(** namespaced messages cannot be confused: two namespace and message pairs
    with the same union are the same pair. *)
Theorem union_unique_injective ns1 m1 ns2 m2 w :
  union_unique ns1 m1 = Some w → union_unique ns2 m2 = Some w → ns1 = ns2 ∧ m1 = m2.
Proof. apply union_unique_inj. Qed.

Definition demo_ns : bytes := [byte.of_Z 1; byte.of_Z 2].
Definition demo_msg : bytes := [byte.of_Z 9].

Lemma union_unique_injective_witness : demo_ns = demo_ns ∧ demo_msg = demo_msg.
Proof.
  assert (union_unique demo_ns demo_msg = Some (byte.of_Z 2 :: demo_ns ++ demo_msg)) as E
    by (vm_compute; reflexivity).
  exact (union_unique_injective demo_ns demo_msg demo_ns demo_msg _ E E).
Defined.
End CodecProperties.
