(* ===== verification/ResolverProperties.v ===== *)
(** * What the resolver guarantees

    [reachable h st out]: after the mailbox messages [h], latest first, the actor
    is in state [st], and the p2p resolver, whose contract is [requested], still has
    to deliver the keys [out].  No missed view is forgotten, enough messages make
    the resolver ask for every one, and what it serves its peers accept. *)

From S2P Require Import Prelude Codec Varint CodecTypes CodecRecords ConsensusTypes SimplexTypes SimplexEvidence Fixtures Emit BatcherActor.
From S2P Require Import Resolver.

Module ResolverProperties.
Import CodecRecords Resolver SimplexCodec.
#[local] Arguments constant {_} _ _ /.
#[local] Arguments wbind : simpl never.
#[local] Arguments wlift : simpl never.
#[local] Arguments send : simpl never.
#[local] Arguments wret : simpl never.

(** ** The contract of the p2p resolver *)

(** The keys still to deliver after a call. *)
Definition requested (out : gset Z) (r : Request) : gset Z :=
  match r with
  | RFetch k => {[k]} ∪ out
  | RFetchAll ks => list_to_set ks ∪ out
  | RCancel k => out ∖ {[k]}
  | RRetain f => filter (λ k, f < k) out
  end.
Definition calls {T : Types} (o : list Output) : list Request :=
  omap (λ e, match e with OResolver r => Some r | _ => None end) o.
Definition requests {T : Types} (out : gset Z) (o : list Output) : gset Z := foldl requested out (calls o).

Section Contract.
Context {T : Types}.
Implicit Types o : list Output.

Lemma requests_app out o1 o2 : requests out (o1 ++ o2) = requests (requests out o1) o2.
Proof. unfold requests, calls. by rewrite omap_app, foldl_app. Qed.
Lemma requests_cons out e o : requests out (e :: o) =
  match e with OResolver r => requests (requested out r) o | _ => requests out o end.
Proof. by destruct e. Qed.

Lemma requested_mono out out' v r : (∀ w, w ∈ out → w ∈ out' ∨ w = v) →
  ∀ w, w ∈ requested out r → w ∈ requested out' r ∨ w = v.
Proof. intros H w. destruct r; simpl; set_solver. Qed.
Lemma requests_mono o out out' v : (∀ w, w ∈ out → w ∈ out' ∨ w = v) →
  ∀ w, w ∈ requests out o → w ∈ requests out' o ∨ w = v.
Proof.
  revert out out'. induction o as [|e o IH]; intros out out' H; [exact H|]. rewrite !requests_cons.
  destruct e; try by apply IH. apply IH. by apply requested_mono.
Qed.
End Contract.

(** ** The views a call of [fetch] asks for *)

Lemma take_last l k z v : StronglySorted Z.lt l → last (take k l) = Some z → v ∈ l → v ≤ z → v ∈ take k l.
Proof.
  intros Hs Hz Hv Hle. rewrite <- (take_drop k l) in Hv, Hs. apply elem_of_app in Hv as [Hv|Hv]; [done|].
  apply last_Some_elem_of in Hz. pose proof (StronglySorted_app_1_elem_of _ _ _ _ _ Hs Hz Hv). lia.
Qed.

(** [k] different views from [s] on reach up to [s + k - 1]. *)
Lemma sorted_last l s z : StronglySorted Z.lt l → (∀ v, v ∈ l → s ≤ v) → last l = Some z → s + Z.of_nat (length l) ≤ z + 1.
Proof.
  intros Hs. revert s. induction Hs as [|x l Hs IH Hf]; intros s Hge Hz; [done|]. cbn [length].
  assert (s ≤ x) by (apply Hge; constructor). destruct l as [|y l].
  - simpl in *. injection Hz as ->. lia.
  - cut (x + 1 + Z.of_nat (length (y :: l)) ≤ z + 1); [lia|]. apply IH; [|exact Hz].
    intros v Hv. eapply Forall_forall in Hf; [|exact Hv]. lia.
Qed.

Lemma sorted_max l z v : StronglySorted Z.lt l → last l = Some z → v ∈ l → v ≤ z.
Proof.
  intros Hs Hz Hv. apply last_Some in Hz as [l' ->]. apply elem_of_app in Hv as [Hv|Hv%list_elem_of_singleton]; [|lia].
  assert (v < z) by (apply (StronglySorted_app_1_elem_of _ _ _ _ _ Hs Hv); constructor). lia.
Qed.

(** ** The invariant *)

Section Spec.
Context {T : Types} {CCfg : Type} (digest : codec Digest unit) (cert : codec Certificate CCfg) (cfg : CCfg).
Context `{!Lawful digest, !Lawful cert}.
Context (sv : SimplexEvidence.Verifier) (ep : Z) (namespace : bytes).
Implicit Types st : State.
Implicit Types c : Cert.
Implicit Types v : Z.
Implicit Types out : gset Z.
Implicit Types h : list MailboxMessage.
Notation cert_codec := (SimplexCodec.cert_codec digest cert).
Notation handle_resolver := (handle_resolver digest cert cfg sv ep namespace).
Notation validate := (validate digest cert cfg sv ep namespace).

(** A certificate that peers accept.  The quorum never certifies the last view a
    [u64] can name. *)
Definition good c : Prop :=
  admits cert_codec cfg c ∧ cert_epoch c = ep ∧ BatcherActor.cert_verify sv namespace c = true ∧ cert_view c + 1 < 2 ^ 64.

Lemma good_view c : good c → 0 ≤ cert_view c.
Proof.
  intros (Ha & _). destruct c as [[[[e v] p d] x]|[[e v] x]|[[[e v] p d] x]]; cbn in Ha |- *; unfold fits in Ha; naive_solver lia.
Qed.

(** The requests for [v] are over: the floor is above it, its nullification is
    known, or a notarization of a later view awaits its certification. *)
Definition awaited st v : Prop :=
  ∃ n s, is_Some (notarizations st !! n) ∧ satisfied_by st !! n = Some s ∧ v ∈ s.
Definition settled st v : Prop :=
  v ≤ floor_view st ∨ is_Some (nullifications st !! v) ∨ awaited st v.

Definition covered st out v : Prop := v ∈ out ∨ settled st v.

Record ok h st out : Prop := {
  ok_view : 0 ≤ floor_view st < 2 ^ 64 - 1 ∧ floor_view st ≤ current_view st;
  ok_current : current_view st < 2 ^ 64;
  ok_floor c : floor st = Some c → good c ∧
    match c with
    | CNotarization n => MCertified (proposal_view (nz_proposal n)) true ∈ h
    | CNullification _ => False
    | CFinalization _ => True
    end;
  ok_notarizations v n : notarizations st !! v = Some n → proposal_view (nz_proposal n) = v ∧ good (CNotarization n) ∧ floor_view st < v ≤ current_view st;
  ok_nullifications v c : nullifications st !! v = Some c →
    cert_view c = v ∧ good c ∧ match c with CNullification _ => True | _ => False end;
  ok_satisfied n s : satisfied_by st !! n = Some s → is_Some (notarizations st !! n) ∧ ∀ v, v ∈ s → v ≤ n;
  ok_requested v : v < fetch_floor st → covered st out v;
}.

(** What only grows. *)
Record later st out st' out' : Prop := {
  la_covered v : covered st out v → covered st' out' v;
  la_floor : floor_view st ≤ floor_view st';
  la_current : current_view st ≤ current_view st';
  la_fetch : fetch_floor st ≤ fetch_floor st';
  la_concurrent : fetch_concurrent st' = fetch_concurrent st;
  la_serves v : is_Some (get st v) → is_Some (get st' v);
}.

Lemma later_trans st out st1 out1 st2 out2 : later st out st1 out1 → later st1 out1 st2 out2 → later st out st2 out2.
Proof. intros [] []. split; [auto|lia..|congruence|auto]. Qed.
Lemma later_refl st out out' : out ⊆ out' → later st out st out'.
Proof. intros H. split; [|lia..|done|done]. intros v [Hv|Hv]; [left; set_solver|by right]. Qed.

Lemma ok_weaken h st out out' : ok h st out → (∀ v, v ∈ out → v ∈ out' ∨ settled st v) → ok h st out'.
Proof. intros [] H. split; try done. intros v Hv. destruct (ok_requested0 v Hv) as [Hx|?]; [by apply H|by right]. Qed.

Lemma ok_hist h m st out : ok h st out → ok (m :: h) st out.
Proof.
  intros []. split; try done. intros c Hc. destruct (ok_floor0 c Hc) as [? Hf]. split; [done|]. destruct c; try done.
  by apply elem_of_cons; right.
Qed.

Lemma new_ok k : ok [] (new k) ∅.
Proof.
  split; simpl; unfold View.zero, floor_view; cbn; try done; try lia.
  intros v Hv. right. left. unfold floor_view. cbn. unfold View.zero. lia.
Qed.

(** ** Handling a certificate *)

Lemma fetch_ok h st out : ok h st out →
  ends (fetch st) (λ st' o,
    ok h st' (requests out o) ∧ later st out st' (requests out o) ∧ (∀ v, settled st v → settled st' v) ∧
    current_view st' = current_view st ∧
    ((∀ v, v < current_view st → covered st' (requests out o) v) ∨
      fetch_floor st + Z.of_nat (fetch_concurrent st) ≤ fetch_floor st')).
Proof.
  intros Hok. pose proof (ok_view _ _ _ Hok) as [Hf Hc]. pose proof (ok_current _ _ _ Hok) as Hcur. unfold fetch.
  eapply ends_lift_bind; [by apply View.next_Some; split; [|lia]|].
  set (start := Z.max _ _). set (l := filter _ _). set (k := fetch_concurrent st).
  assert (start = Z.max (fetch_floor st) (floor_view st + 1)) as Hst by done. clearbody start.
  assert (StronglySorted Z.lt l) as Hl by apply filter_sorted, seqZ_sorted.
  assert (∀ v, v ∈ l ↔ nullifications st !! v = None ∧ start ≤ v < current_view st) as Hin.
  { intros v. unfold l. by rewrite list_elem_of_filter, View.elem_of_range. }
  destruct (last (take k l)) as [z|] eqn:Ez.
  - pose proof Ez as Hz%last_Some_elem_of. apply elem_of_take in Hz as (i & Hz%list_elem_of_lookup_2 & _). apply Hin in Hz as [_ Hz].
    eapply ends_bind, ends_lift_bind; [by apply View.next_Some; split; [|lia]|]. apply ends_ret, ends_send_bind, ends_ret.
    cbn [app]. rewrite requests_cons. change (requests ?x []) with x. cbn [requested]. set (out' := _ ∪ out).
    assert (∀ v, v ∈ out' ↔ v ∈ take k l ∨ v ∈ out) as Hout by (intros v; unfold out'; set_solver).
    assert (∀ v, v < z + 1 → covered (st {{ fetch_floor := z + 1 }}) out' v) as Hnew.
    { intros v Hv. destruct (decide (start ≤ v)).
      - destruct (nullifications st !! v) eqn:Ev; [by right; right; left|]. left. apply Hout. left.
        apply (take_last _ _ z); [done..| |lia]. apply Hin. split; [done|lia].
      - destruct (decide (v < fetch_floor st)); [|right; left; change (v ≤ floor_view st); lia].
        destruct (ok_requested _ _ _ Hok v ltac:(done)); [left; apply Hout; by right|by right]. }
    split_and!; try done.
    + destruct Hok. by split.
    + split; cbn; try done; try lia. intros v [Hv|Hv]; [left; apply Hout; by right|by right].
    + destruct (decide (k ≤ length l)%nat).
      * right. pose proof (sorted_last (take k l) start z) as Hs. rewrite length_take in Hs.
        cut (start + Z.of_nat (k `min` length l) ≤ z + 1); [cbn; lia|]. apply Hs; [|intros v Hv|done].
        -- rewrite <- (take_drop k l) in Hl. by apply StronglySorted_app_1_l in Hl.
        -- apply elem_of_take in Hv as (j & Hv%list_elem_of_lookup_2 & _). by apply Hin in Hv as [_ [??]].
      * left. intros v Hv. destruct (decide (v < z + 1)); [by apply Hnew|]. right; right; left. cbn.
        rewrite take_ge in Ez by lia. destruct (nullifications st !! v) eqn:Ev; [done|].
        assert (v ∈ l) as Hvl by (apply Hin; split; [done|lia]). pose proof (sorted_max l z v Hl Ez Hvl). lia.
  - apply ends_bind, ends_ret, ends_send_bind, ends_ret. cbn [app]. rewrite requests_cons. change (requests ?x []) with x. cbn [requested].
    apply last_None in Ez. split_and!; try done.
    + apply (ok_weaken _ _ _ _ Hok). intros v Hv. left. set_solver.
    + apply later_refl. set_solver.
    + destruct k as [|k'] eqn:Ek; [right; lia|]. left. intros v Hv. destruct (decide (v < fetch_floor st)).
      { destruct (ok_requested _ _ _ Hok v ltac:(done)); [left; set_solver|by right]. }
      right. destruct (nullifications st !! v) eqn:Ev; [by right; left|]. destruct (decide (v ≤ floor_view st)); [by left|].
      assert (v ∈ l) as Hvl by (apply Hin; split; [done|lia]). destruct l; [by apply elem_of_nil in Hvl|done].
Qed.

Lemma prune_ok h st out c : ok h st out → floor_view st ≤ cert_view c ≤ current_view st → good c →
  match c with
  | CNotarization n => MCertified (proposal_view (nz_proposal n)) true ∈ h
  | CNullification _ => False
  | CFinalization _ => True
  end →
  ends (prune (st {{ floor := Some c }})) (λ st' o,
    ok h st' (requests out o) ∧ later st out st' (requests out o) ∧ floor_view st' = cert_view c ∧ current_view st' = current_view st).
Proof.
  intros Hok Hc Hg Hb. pose proof Hok as []. unfold prune. change (floor_view (st {{ floor := Some c }})) with (cert_view c).
  apply ends_send_bind, ends_ret. rewrite requests_cons. change (requests ?x []) with x. cbn [requested].
  set (out' := filter _ out). set (st' := apply_update _ _).
  assert (∀ v, covered st out v → covered st' out' v) as Hcov.
  { intros v Hv. destruct (decide (v ≤ cert_view c)); [by right; left|].
    destruct Hv as [Hv|[?|[[x E]|(m & s & [x En] & Es & Hs)]]]; [left; apply elem_of_filter; by split; [lia|]|lia|right; right; left|right; right; right].
    - exists x. cbn. apply map_lookup_filter_Some. split; [done|cbn; lia].
    - destruct (ok_satisfied0 m s Es) as [_ Hle]. specialize (Hle v Hs). exists m, s. cbn. split; [exists x|split; [|done]];
        apply map_lookup_filter_Some; split; try done; cbn; lia. }
  assert (∀ v, is_Some (get st v) → is_Some (get st' v)) as Hserves.
  { intros v Hv. change (get st' v) with (if v <=? cert_view c then Some c else nullifications st' !! v). unfold get in Hv.
    destruct (Z.leb_spec v (cert_view c)); [done|]. unfold floor_view in Hc.
    assert (is_Some (nullifications st !! v)) as [x E].
    { destruct (floor st) as [f|]; [|done]. by destruct (Z.leb_spec v (cert_view f)); [lia|]. }
    exists x. apply map_lookup_filter_Some. split; [done|cbn; lia]. }
  split_and!; try done; [|split; [exact Hcov|exact (proj1 Hc)|exact (Z.le_refl _)|exact (Z.le_refl _)|done|exact Hserves]].
  pose proof (good_view c Hg). destruct Hg as (?&?&?&?). split; cbn; try done.
  - change (0 ≤ cert_view c < 2 ^ 64 - 1 ∧ cert_view c ≤ current_view st). lia.
  - by intros ? [= <-].
  - intros v n [E ?]%map_lookup_filter_Some. destruct (ok_notarizations0 v n E) as (? & ? & _ & ?). done.
  - intros v n [E _]%map_lookup_filter_Some. by apply ok_nullifications0.
  - intros n s [E Hn]%map_lookup_filter_Some. destruct (ok_satisfied0 n s E) as [[x Ex] ?]. split; [|done]. exists x.
    by apply map_lookup_filter_Some.
  - intros v Hv. by apply Hcov, ok_requested0.
Qed.

(** Whether the certificate answers a request for [v]. *)
Definition answers c v : Prop := match c with CNullification n => rnd_view (nlz_round n) = v | _ => v ≤ cert_view c end.

Lemma encounter_ok h st out v : ok h st out → v < 2 ^ 64 →
  ok h (st {{ current_view := Z.max (current_view st) v }}) out ∧
  later st out (st {{ current_view := Z.max (current_view st) v }}) out.
Proof.
  intros Hok Hv. pose proof Hok as []. split.
  - split; cbn; try done; [change (floor_view _) with (floor_view st); lia|lia|].
    intros w n E. destruct (ok_notarizations0 w n E) as (? & ? & ? & ?). split_and!; [done..|lia].
  - split; [by intros w Hw|apply Z.le_refl|cbn; lia|apply Z.le_refl|done|done].
Qed.

Lemma absorb_nullification h st out n : ok h st out → good (CNullification n) →
  floor_view st < rnd_view (nlz_round n) →
  let v := rnd_view (nlz_round n) in
  let st' := st {{ nullifications := <[v := CNullification n]> (nullifications st) }} in
  ok h st' (out ∖ {[v]}) ∧ later st out st' (out ∖ {[v]}) ∧ settled st' v.
Proof.
  intros Hok Hg Hfl v st'. pose proof Hok as [].
  assert (settled st' v) as Hs by (right; left; unfold st'; cbn; rewrite lookup_insert_eq; eauto).
  assert (∀ w, covered st out w → covered st' (out ∖ {[v]}) w) as Hcov.
  { intros w Hw. destruct (decide (w = v)) as [->|Hne]; [by right|]. destruct Hw as [Hw|[?|[[x E]|?]]].
    - left. set_solver.
    - right; by left.
    - right; right; left. exists x. unfold st'. cbn. by rewrite lookup_insert_ne.
    - right; right; by right. }
  assert (∀ w, is_Some (get st w) → is_Some (get st' w)) as Hserves.
  { intros w. assert (is_Some (nullifications st !! w) → is_Some (nullifications st' !! w)) as Hi
      by (intros; apply lookup_insert_is_Some'; by right).
    unfold get. change (floor st') with (floor st). destruct (floor st) as [f|]; [|exact Hi]. destruct (w <=? cert_view f); [done|exact Hi]. }
  split_and!; [|split; [exact Hcov|apply Z.le_refl..|done|exact Hserves]|done]. split; cbn; try done.
  - intros w c [[<- <-]|[_ E]]%lookup_insert_Some; [done|by apply ok_nullifications0].
  - intros w Hw. by apply Hcov, ok_requested0.
Qed.

Lemma absorb_notarization h st out n request : ok h st out → good (CNotarization n) →
  floor_view st < proposal_view (nz_proposal n) ≤ current_view st → (∀ r, request = Some r → r ≤ proposal_view (nz_proposal n)) →
  let v := proposal_view (nz_proposal n) in
  let st1 := st {{ notarizations := <[v := n]> (notarizations st) }} in
  let st' := match request with
    | Some r => st1 {{ satisfied_by := <[v := {[r]} ∪ default ∅ (satisfied_by st1 !! v)]> (satisfied_by st1) }}
    | None => st1
    end in
  ok h st' out ∧ later st out st' out ∧ ∀ r, request = Some r → settled st' r.
Proof.
  intros Hok Hg Hfl Hr v st1. pose proof Hok as [].
  assert (∀ w s, satisfied_by st !! w = Some s → is_Some (<[v:=n]> (notarizations st) !! w)) as Hsome.
  { intros w s Hs. apply lookup_insert_is_Some'. right. by eapply ok_satisfied0. }
  assert (ok h st1 out ∧ later st out st1 out) as [Hok1 Hl1].
  { assert (∀ w, covered st out w → covered st1 out w) as Hcov.
    { intros w [?|[?|[?|(m & s & Hm & Hs & Hw)]]]; [by left|right; by left|right; right; by left|].
      right; right; right. exists m, s. split; [by eapply Hsome|done]. }
    split; [split; cbn; try done|split; [exact Hcov|apply Z.le_refl..|done|exact (λ _ H, H)]].
    - intros w x [[<- <-]|[_ E]]%lookup_insert_Some; [done|by apply ok_notarizations0].
    - intros w s Hs. split; [by eapply Hsome|by eapply ok_satisfied0].
    - intros w Hw. by apply Hcov, ok_requested0. }
  destruct request as [r|]; intros st'; [|split_and!; done].
  clear Hok ok_view0 ok_current0 ok_floor0 ok_notarizations0 ok_nullifications0 ok_satisfied0 ok_requested0. pose proof Hok1 as [].
  assert (settled st' r) as Hs.
  { right; right. exists v. eexists. cbn. rewrite !lookup_insert_eq. split; [eauto|]. split; [done|]. set_solver. }
  assert (∀ w, covered st1 out w → covered st' out w) as Hcov.
  { intros w [?|[?|[?|(m & s & Hm & Es & Hw)]]]; [by left|right; by left|right; right; by left|].
    right; right; right. destruct (decide (m = v)) as [->|Hne].
    - exists v. eexists. split; [done|]. cbn. rewrite lookup_insert_eq. split; [done|].
      change (w ∈ {[r]} ∪ default ∅ (satisfied_by st !! v)). change (satisfied_by st !! v = Some s) in Es. rewrite Es. set_solver.
    - exists m, s. split; [done|]. cbn. by rewrite lookup_insert_ne. }
  split_and!; [|apply (later_trans _ _ _ _ _ _ Hl1); split; [exact Hcov|apply Z.le_refl..|done|exact (λ _ H, H)]|by intros ? [= <-]].
  split; cbn; try done.
  - intros m s [[<- <-]|[_ E]]%lookup_insert_Some; [|by apply ok_satisfied0].
    split; [exists n; apply lookup_insert_eq|]. intros w [->%elem_of_singleton|Hw]%elem_of_union; [by apply Hr|].
    change (w ∈ default ∅ (satisfied_by st !! v)) in Hw.
    destruct (satisfied_by st !! v) as [s|] eqn:E; [|by apply not_elem_of_empty in Hw]. by eapply ok_satisfied0.
  - intros w Hw. by apply Hcov, ok_requested0.
Qed.

(** What handling a certificate achieves. *)
Definition handled h st out c (request : option Z) st' out' : Prop :=
  ok h st' out' ∧ later st out st' out' ∧ (∀ r, request = Some r → settled st' r) ∧
  current_view st' = Z.max (current_view st) (cert_view c).
Definition complete st out : Prop := ∀ v, v < current_view st → covered st out v.

Lemma handled_later h st out st1 c request st' out' : later st out st1 out → current_view st1 = Z.max (current_view st) (cert_view c) →
  ok h st' out' ∧ later st1 out st' out' ∧ (∀ r, request = Some r → settled st' r) ∧ current_view st' = current_view st1 →
  handled h st out c request st' out'.
Proof. intros Hl Ec (Ho & Hl' & Hs & Ec'). split_and!; [done|by eapply later_trans|done|congruence]. Qed.

Lemma handle_cert_ok h st out c request : ok h st out → good c → (∀ r, request = Some r → answers c r) →
  ends (handle st c request) (λ st' o, handled h st out c request st' (requests out o) ∧
    (complete st' (requests out o) ∨ fetch_floor st + Z.of_nat (fetch_concurrent st) ≤ fetch_floor st')).
Proof.
  intros Hok Hg Hr. unfold handle. apply ends_bind, (ends_mono _ (λ st1 o, handled h st out c request st1 (requests out o))).
  { intros st1 o (Hok1 & Hl1 & Hs1 & Ec1). eapply ends_mono; [|by apply fetch_ok]. intros st2 o2 (Hok2 & Hl2 & Hs2 & Ec2 & Hp).
    rewrite requests_app. split; [split_and!; [done|by eapply later_trans|eauto|congruence]|].
    destruct Hp as [Hp|Hp]; [left; unfold complete; by rewrite Ec2|right]. destruct Hl1. rewrite la_concurrent0 in Hp. lia. }
  destruct (encounter_ok h st out (cert_view c)) as [Hok1 Hl1]; [done|by destruct Hg as (?&?&?&?); lia|].
  set (st1 := st {{ current_view := Z.max (current_view st) (cert_view c) }}) in *.
  assert (floor_view st1 <? cert_view c = false → ends (wret st1) (λ st' o, handled h st out c request st' (requests out o))) as Hout.
  { intros Hb%Z.ltb_ge. apply ends_ret. eapply handled_later; [exact Hl1|done|]. split_and!; [done|by apply later_refl| |done].
    intros r Er. specialize (Hr r Er). left. destruct c; cbn in *; lia. }
  pose proof (λ st' out' H, handled_later h st out st1 c request st' out' Hl1 eq_refl H) as Hin.
  destruct c as [n|n|f]; unfold encounter_view; cbn [cert_view answers] in *; fold st1 in Hout |- *; cbv zeta.
  - destruct (Z.ltb_spec (floor_view st1) (proposal_view (nz_proposal n))) as [Hv|Hv]; [|by apply Hout].
    pose proof (absorb_notarization h st1 out n request Hok1 Hg (conj Hv (Z.le_max_r _ _)) Hr) as (Hok2 & Hl2 & Hs2).
    destruct request as [r|]; apply ends_ret, Hin; by split_and!.
  - destruct (Z.ltb_spec (floor_view st1) (rnd_view (nlz_round n))) as [Hv|Hv]; [|by apply Hout].
    pose proof (absorb_nullification h st1 out n Hok1 Hg Hv) as (Hok2 & Hl2 & Hs2).
    apply ends_send_bind, ends_ret, Hin. split_and!; [done..| |done]. intros r Er. by rewrite <- (Hr r Er).
  - destruct ((floor_view st1 <? proposal_view (fzz_proposal f)) || can_upgrade_floor st1 (proposal_view (fzz_proposal f))) eqn:Eb.
    + assert (floor_view st1 ≤ proposal_view (fzz_proposal f)) as Hv.
      { apply orb_true_iff in Eb as [Hlt%Z.ltb_lt|Hup]; [lia|]. unfold can_upgrade_floor, floor_view in *.
        destruct (floor st1) as [[n| |]|]; try done. apply Z.eqb_eq in Hup. cbn. lia. }
      eapply ends_mono; [|apply (prune_ok h st1 out (CFinalization f)); [done| |done..]].
      * intros st2 o (Hok2 & Hl2 & Ef & Ec). apply Hin. split_and!; [done..| |done]. intros r Er. left. rewrite Ef. by apply Hr.
      * split; [done|]. apply Z.le_max_r.
    + apply orb_false_iff in Eb as [Eb _]. by apply Hout.
Qed.

(** ** Handling the result of a certification *)

Lemma fetch_each_spec l : ends (fetch_each l) (λ _ o, o = (λ v, OResolver (RFetch v)) <$> l).
Proof.
  induction l as [|v l IH]; [by apply ends_ret|]. apply ends_send_bind. eapply ends_mono; [|exact IH]. by intros _ o ->.
Qed.
Lemma requests_fetch_each out l v : v ∈ requests out ((λ v, OResolver (RFetch v)) <$> l) ↔ v ∈ l ∨ v ∈ out.
Proof.
  revert out. induction l as [|w l IH]; intros out; [set_solver|].
  rewrite fmap_cons, requests_cons, IH. cbn [requested]. set_solver.
Qed.

Lemma filter_delete_floor {A} (m : gmap Z A) (f : Z) :
  filter (λ x : Z * A, f < x.1) (delete f m) = filter (λ x, f < x.1) m.
Proof. apply map_filter_delete_not. intros y _. cbn. lia. Qed.

Lemma prune_delete st n v : proposal_view (nz_proposal n) = v →
  prune (st {{ notarizations := delete v (notarizations st) }} {{ floor := Some (CNotarization n) }}) =
  prune (st {{ floor := Some (CNotarization n) }}).
Proof. intros <-. unfold prune. cbn. by rewrite filter_delete_floor. Qed.

Lemma certified_ok h st out v : ok (MCertified v true :: h) st out →
  ends (handle_certified st v true) (λ st' o, ok (MCertified v true :: h) st' (requests out o) ∧
    later st out st' (requests out o) ∧ current_view st' = current_view st).
Proof.
  intros Hok. pose proof Hok as []. unfold handle_certified. cbv iota.
  apply ends_bind, (ends_mono _ (λ st1 o, ok (MCertified v true :: h) st1 (requests out o) ∧ later st out st1 (requests out o) ∧
    current_view st1 = current_view st ∧ (is_Some (satisfied_by st1 !! v) → v ≤ floor_view st1))).
  { intros st1 o (Hok1 & Hl1 & Ec & Hs). apply ends_ret. rewrite app_nil_r. pose proof Hok1 as [].
    assert (∀ w, covered st1 (requests out o) w → covered (st1 {{ satisfied_by := delete v (satisfied_by st1) }}) (requests out o) w) as Hcov.
    { intros w [?|[?|[?|(m & s & Hm & Es & Hw)]]]; [by left|right; by left|right; right; by left|].
      destruct (decide (m = v)) as [->|Hne].
      - right. left. change (w ≤ floor_view st1). destruct (ok_satisfied1 v s Es) as [_ Hle]. specialize (Hle w Hw).
        specialize (Hs ltac:(by eexists)). lia.
      - right; right; right. exists m, s. split; [done|]. cbn. by rewrite lookup_delete_ne. }
    split_and!; [|apply (later_trans _ _ _ _ _ _ Hl1); split; [exact Hcov|apply Z.le_refl..|done|exact (λ _ H, H)]|done].
    split; cbn; try done.
    - intros m s [_ E]%lookup_delete_Some. by apply ok_satisfied1.
    - intros w Hw. by apply Hcov, ok_requested1. }
  destruct (notarizations st !! v) as [n|] eqn:En.
  - destruct (ok_notarizations0 v n En) as (Ev & Hg & Hv). cbv zeta. change (floor_view (st {{ notarizations := delete v (notarizations st) }})) with (floor_view st).
    rewrite (proj2 (Z.ltb_lt _ _) (proj1 Hv)), prune_delete by done. eapply ends_mono; [|apply (prune_ok (MCertified v true :: h) st out (CNotarization n)); [done| |done|]].
    + intros st1 o (Hok1 & Hl1 & Ef & Ec). split_and!; [done..|]. intros _. rewrite Ef. cbn. lia.
    + cbn. rewrite Ev. lia.
    + rewrite Ev. constructor.
  - apply ends_ret. split_and!; [done|by apply later_refl|done|]. intros [s Es]. destruct (ok_satisfied0 v s Es) as [[x Ex] _]. congruence.
Qed.

Lemma certification_failed_ok h st out v : ok h st out →
  ends (handle_certified st v false) (λ st' o, ok h st' (requests out o) ∧
    later st out st' (requests out o) ∧ current_view st' = current_view st).
Proof.
  intros Hok. pose proof Hok as []. unfold handle_certified. cbv iota zeta.
  set (st0 := st {{ notarizations := delete v (notarizations st); failed_views := {[v]} ∪ failed_views st }}).
  change (floor_view st0) with (floor_view st). set (f := floor_view st).
  set (st' := st0 {{ satisfied_by := delete v (satisfied_by st0) }}).
  assert (∀ out', out ⊆ out' → (∀ s w, satisfied_by st !! v = Some s → w ∈ s → f < w → w ∈ out') →
    ok h st' out' ∧ later st out st' out' ∧ current_view st' = current_view st) as Hst'.
  { intros out' Hsub Hs.
    assert (∀ w, covered st out w → covered st' out' w) as Hcov.
    { intros w [?|[?|[?|(m & s & Hm & Es & Hw)]]]; [left; by apply Hsub|right; by left|right; right; by left|].
      destruct (decide (m = v)) as [->|Hne].
      - destruct (decide (w ≤ f)); [right; by left|]. left. apply (Hs s); [done..|lia].
      - right; right; right. exists m, s. cbn. by rewrite !lookup_delete_ne. }
    split_and!; [|split; [exact Hcov|apply Z.le_refl..|done|exact (λ _ H, H)]|done]. split; cbn; try done.
    - intros m n [_ E]%lookup_delete_Some. by apply ok_notarizations0.
    - intros m s [Hne E]%lookup_delete_Some. rewrite lookup_delete_ne by done. by apply ok_satisfied0.
    - intros w Hw. by apply Hcov, ok_requested0. }
  apply ends_bind, (ends_mono _ (λ _ o, out ⊆ requests out o)).
  2: { destruct (f <? v); [apply ends_send|apply ends_ret]; [|done]. rewrite requests_cons. cbn. set_solver. }
  intros _ o Ho. change (satisfied_by st0 !! v) with (satisfied_by st !! v). destruct (satisfied_by st !! v) as [s|] eqn:Es.
  - apply ends_bind. eapply ends_mono; [|apply fetch_each_spec]. intros _ o' ->. apply ends_ret. rewrite app_nil_r, requests_app.
    apply Hst'.
    + intros w Hw. apply requests_fetch_each. right. by apply Ho.
    + intros s' w [= <-] Hw Hf. apply requests_fetch_each. left. apply list_elem_of_filter. split; [done|].
      rewrite merge_sort_Permutation. by apply elem_of_elements.
  - apply ends_ret. rewrite app_nil_r. assert (st' = st0) as E by (unfold st'; change (satisfied_by st0) with (satisfied_by st); rewrite (delete_id (satisfied_by st) v Es); by destruct st).
    rewrite <- E. by apply Hst'.
Qed.

(** ** Deliveries *)

Lemma validate_ok st v data : validate st v data ≠ None ∧ ∀ c, validate st v data = Some (Some c) →
  decode_cfg cert_codec data cfg = Ok c ∧ admits cert_codec cfg c ∧ cert_epoch c = ep ∧ BatcherActor.cert_verify sv namespace c = true ∧ answers c v.
Proof.
  pose proof (decode_no_panic cert_codec cfg data) as Hnp. unfold Resolver.validate. pose proof (λ c, decode_iff cert_codec cfg c data) as Hd.
  destruct (decode_cfg cert_codec data cfg) as [c|e|]; [|done..].
  assert (admits cert_codec cfg c) as Ha by by apply Hd. split; [by destruct c|]. intros c' H.
  destruct c as [n|n|f]; cbn in H; repeat (case_match; try done); simplify_eq; bool_to_prop; cbn [answers cert_epoch cert_view BatcherActor.cert_verify];
    split_and!; try done; lia.
Qed.

Lemma good_validated st v data c : (∀ c, BatcherActor.cert_verify sv namespace c = true → cert_view c + 1 < 2 ^ 64) →
  validate st v data = Some (Some c) → good c ∧ answers c v.
Proof. intros Hlast H. destruct (proj2 (validate_ok st v data) c H) as (_ & ? & ? & Hv & ?). split; [|done]. split_and!; auto. Qed.

(** ** Runs *)

Record World : Type := mkWorld { seen : list MailboxMessage; actor : State; outstanding : gset Z }.
Implicit Types w : World.

(** The voter sends valid certificates. *)
Definition message_ok (m : MailboxMessage) : Prop := match m with MCert c => good c | MCertified _ _ => True end.

(** A turn of the actor; the flag tells whether it took in a certificate.  A key is
    removed from the requests when its delivery was answered with [true], before or
    after the calls that follow the answer. *)
Inductive step : World → bool → World → Prop :=
| step_mailbox h st out m st' o :
    message_ok m → handle_mailbox st m = Some (st', o) →
    step (mkWorld h st out) (match m with MCert _ => true | _ => false end) (mkWorld (m :: h) st' (requests out o))
| step_other h st out m st' o :
    handle_resolver st m = Some (st', o) → ORespond true ∉ o →
    step (mkWorld h st out) false (mkWorld h st' (requests out o))
| step_delivered h st out v data st' o1 o2 :
    handle_resolver st (HDeliver v data) = Some (st', o1 ++ o2) → ORespond true ∈ o1 →
    step (mkWorld h st out) true (mkWorld h st' (requests (requests out o1 ∖ {[v]}) o2)).

(** [n] certificates are taken in. *)
Inductive run : nat → World → World → Prop :=
| run_refl w : run 0 w w
| run_step n w w1 b w2 : run n w w1 → step w1 b w2 → run (n + Nat.b2n b) w w2.
Definition start (k : nat) : World := mkWorld [] (new k) ∅.
Definition reachable (k : nat) w : Prop := ∃ n, run n (start k) w.

Context (Hlast : ∀ c, BatcherActor.cert_verify sv namespace c = true → cert_view c + 1 < 2 ^ 64).

Definition world_ok w : Prop := ok (seen w) (actor w) (outstanding w).
Definition world_later w w' : Prop := later (actor w) (outstanding w) (actor w') (outstanding w').
Definition progress w w' : Prop :=
  complete (actor w') (outstanding w') ∨
  fetch_floor (actor w) + Z.of_nat (fetch_concurrent (actor w)) ≤ fetch_floor (actor w').

(** A delivered key may go missing from the requests: it is settled. *)
Lemma delivered_ok h st out v st' out' out'' : ok h st' out' → later st out st' out' → settled st' v →
  (∀ u, u ∈ out' → u ∈ out'' ∨ u = v) →
  ok h st' out'' ∧ later st out st' out'' ∧ (complete st' out' → complete st' out'').
Proof.
  intros Hok Hl Hs Hout. assert (∀ u, covered st' out' u → covered st' out'' u) as Hc.
  { intros u [Hu|Hu]; [|by right]. destruct (Hout u Hu) as [?| ->]; [by left|by right]. }
  split_and!; [|destruct Hl; split; auto|intros H u Hu; by apply Hc, H].
  apply (ok_weaken _ _ _ _ Hok). intros u Hu. by apply Hc; left.
Qed.

Lemma deliver_spec h st out v data c : ok h st out → validate st v data = Some (Some c) →
  ends (handle_resolver st (HDeliver v data)) (λ st' o, ∃ o', o = ORespond true :: OVoter c :: o' ∧ handled h st out c (Some v) st' (requests out o') ∧
    (complete st' (requests out o') ∨ fetch_floor st + Z.of_nat (fetch_concurrent st) ≤ fetch_floor st')).
Proof.
  intros Hok Hv. destruct (good_validated st v data c Hlast Hv) as [Hg Ha]. cbn [Resolver.handle_resolver].
  eapply ends_lift_bind; [exact Hv|]. cbv iota beta. apply ends_send_bind, ends_send_bind.
  eapply ends_mono; [|apply (handle_cert_ok h st out c (Some v)); [done..|by intros ? [= <-]]].
  intros st' o' [H1 H2]. exists o'. by split_and!.
Qed.

Lemma step_ok w b w' : world_ok w → step w b w' → world_ok w' ∧ world_later w w' ∧ (b = true → progress w w').
Proof.
  intros Hok Hs. unfold world_ok, world_later, progress in *. destruct Hs as [h st out m st' o Hm E|h st out m st' o E Hn|h st out v data st' o1 o2 E Hr];
    cbn [seen actor outstanding] in *.
  - destruct m as [c|v []]; cbn [handle_mailbox] in E.
    + destruct (handle_cert_ok (MCert c :: h) st out c None) as (st1 & o1 & E1 & (Hok1 & Hl1 & _) & Hp); [by apply ok_hist|done..|].
      rewrite E1 in E. injection E as <- <-. by split_and!.
    + destruct (certified_ok h st out v) as (st1 & o1 & E1 & Hok1 & Hl1 & _); [by apply ok_hist|]. rewrite E1 in E. injection E as <- <-. by split_and!.
    + destruct (certification_failed_ok h st out v) as (st1 & o1 & E1 & Hok1 & Hl1 & _); [done|]. rewrite E1 in E. injection E as <- <-.
      split_and!; [by apply ok_hist|done..].
  - destruct m as [v data|v].
    + destruct (validate_ok st v data) as [Hv _]. destruct (validate st v data) as [[c|]|] eqn:Ev; [|clear Hv|done].
      * destruct (deliver_spec h st out v data c Hok Ev) as (st1 & o1 & E1 & o' & -> & _). rewrite E1 in E. injection E as <- <-.
        destruct Hn. constructor.
      * cbn [Resolver.handle_resolver] in E. rewrite Ev in E. injection E as <- <-. split_and!; [done|by apply later_refl|done].
    + cbn [Resolver.handle_resolver] in E. destruct (get st v) as [c|].
      * unfold wlift, wbind in E. destruct (encode _ c); [|done]. injection E as <- <-. split_and!; [done|by apply later_refl|done].
      * injection E as <- <-. split_and!; [done|by apply later_refl|done].
  - destruct (validate_ok st v data) as [Hv _]. destruct (validate st v data) as [[c|]|] eqn:Ev; [|clear Hv|done].
    + destruct (deliver_spec h st out v data c Hok Ev) as (st1 & o & E1 & o' & -> & (Hok1 & Hl1 & Hset & _) & Hp). rewrite E1 in E.
      injection E as <- Eo. change (requests out o') with (requests out (ORespond true :: OVoter c :: o')) in *. rewrite Eo, requests_app in *.
      destruct (delivered_ok h st out v st1 _ (requests (requests out o1 ∖ {[v]}) o2) Hok1 Hl1) as (? & ? & Hc); [by apply Hset| |].
      * apply requests_mono. intros u Hu. destruct (decide (u = v)); [by right|left; set_solver].
      * split_and!; [done..|]. intros _. destruct Hp; [left; by apply Hc|by right].
    + exfalso. cbn [Resolver.handle_resolver] in E. rewrite Ev in E. injection E as <- Eo. destruct o1 as [|e o1]; [by apply elem_of_nil in Hr|].
      injection Eo as <- Eo. destruct o1; [|done]. apply elem_of_cons in Hr as [?|Hr]; [done|by apply elem_of_nil in Hr].
Qed.

Lemma run_world_ok n w w' : world_ok w → run n w w' → world_ok w' ∧ world_later w w'.
Proof.
  intros Hok. induction 1 as [w|n w w1 b w2 Hr IH Hs]; [split; [done|by apply later_refl]|]. destruct (IH Hok) as [H1 H2].
  destruct (step_ok _ _ _ H1 Hs) as (? & ? & _). split; [done|by eapply later_trans].
Qed.
Lemma reachable_world_ok k w : reachable k w → world_ok w ∧ 0 ≤ fetch_floor (actor w) ∧ fetch_concurrent (actor w) = k.
Proof.
  intros [n Hr]. destruct (run_world_ok _ _ _ (new_ok k : world_ok (start k)) Hr) as [? []]. split; [done|]. split; [exact la_fetch0|exact la_concurrent0].
Qed.

(** ** The guarantees *)

(** C13: no missed view is forgotten.  Whatever certificates, certification results
    and deliveries arrive: of every view between the floor and the next one to ask
    for, the nullification is known, or a notarization that answered for it awaits
    its certification, or it is still requested. *)
Theorem no_view_forgotten k h st out v : reachable k (mkWorld h st out) → floor_view st < v < fetch_floor st →
  is_Some (nullifications st !! v) ∨ awaited st v ∨ v ∈ out.
Proof.
  intros [Hok _]%reachable_world_ok Hv. destruct (ok_requested _ _ _ Hok v ltac:(cbn; lia)) as [?|[?|[?|?]]]; auto.
  cbn in *. lia.
Qed.

(** C14: the resolver catches up.  When as many certificates as it takes at
    [fetch_concurrent] views each have arrived without a new view, in any order and
    with anything in between, every view between the floor and the current one is
    known, awaits a certification or is requested. *)
Theorem missing_views_requested k w n w' v : reachable k w → run n w w' → current_view (actor w') = current_view (actor w) →
  current_view (actor w) ≤ Z.of_nat n * Z.of_nat k → floor_view (actor w') < v < current_view (actor w') →
  is_Some (nullifications (actor w') !! v) ∨ awaited (actor w') v ∨ v ∈ outstanding w'.
Proof.
  intros Hr Hrun Ec Hn Hv. destruct (reachable_world_ok k w Hr) as (Hok & Hf & Hk).
  assert (complete (actor w') (outstanding w') ∨ fetch_floor (actor w) + Z.of_nat n * Z.of_nat k ≤ fetch_floor (actor w')) as Hp.
  { clear Hn Hv v Hf. induction Hrun as [w|n w w1 b w2 Hrun IH Hs]; [right; lia|].
    destruct (run_world_ok _ _ _ Hok Hrun) as [Hok1 Hl1]. destruct (step_ok _ _ _ Hok1 Hs) as (Hok2 & Hl2 & Hp).
    pose proof (la_current _ _ _ _ Hl1). pose proof (la_current _ _ _ _ Hl2). pose proof (la_fetch _ _ _ _ Hl2).
    pose proof (la_concurrent _ _ _ _ Hl1) as Ek. rewrite Hk in Ek.
    destruct (IH Hr ltac:(lia) Hok Hk) as [Hc|Hc].
    - left. intros u Hu. apply (la_covered _ _ _ _ Hl2), Hc. lia.
    - destruct b; [|right; cbn; lia]. destruct (Hp eq_refl) as [?|Hq]; [by left|]. right. rewrite Ek in Hq. cbn. lia. }
  destruct (run_world_ok _ _ _ Hok Hrun) as [Hok' _].
  assert (covered (actor w') (outstanding w') v) as Hc.
  { destruct Hp as [Hc|Hc]; [apply Hc; lia|]. apply (ok_requested _ _ _ Hok'). lia. }
  destruct Hc as [?|[?|[?|?]]]; auto. lia.
Qed.

Lemma served_ok h st out v c : ok h st out → get st v = Some c →
  good c ∧ answers c v ∧ ∀ n, c = CNotarization n → MCertified (proposal_view (nz_proposal n)) true ∈ h.
Proof.
  intros [] Hg. assert (∀ c, nullifications st !! v = Some c → good c ∧ answers c v ∧ ∀ n, c = CNotarization n →
    MCertified (proposal_view (nz_proposal n)) true ∈ h) as Hnull.
  { intros c' E. destruct (ok_nullifications0 v c' E) as (? & ? & Hk). by destruct c'. }
  unfold get in Hg. destruct (floor st) as [f|] eqn:Ef; [|by apply Hnull]. destruct (Z.leb_spec v (cert_view f)); [|by apply Hnull].
  injection Hg as <-. destruct (ok_floor0 f eq_refl) as [? Hb]. split_and!; [done|by destruct f|]. by intros n ->.
Qed.

Lemma validate_good st v c data : good c → answers c v → encode cert_codec c = Some data →
  (∀ n, c = CNotarization n → proposal_view (nz_proposal n) ∉ failed_views st) → validate st v data = Some (Some c).
Proof.
  intros (Ha & He & Hv & _) Hans Henc Hf. unfold Resolver.validate.
  rewrite (proj2 (proj2 (decode_iff cert_codec cfg c data)) (conj Ha Henc)).
  destruct c as [n|n|f]; cbn [answers cert_view cert_epoch BatcherActor.cert_verify] in *.
  - rewrite (proj2 (Z.ltb_ge _ _)) by lia. rewrite (proj2 (Z.eqb_eq _ _)) by done.
    unfold is_failed. rewrite bool_decide_eq_false_2 by by apply Hf. by rewrite Hv.
  - rewrite !(proj2 (Z.eqb_eq _ _)) by done. by rewrite Hv.
  - rewrite (proj2 (Z.ltb_ge _ _)) by lia. rewrite (proj2 (Z.eqb_eq _ _)) by done. by rewrite Hv.
Qed.

(** C15: a request of a peer is answered unless the floor is below the view and its
    nullification is not known.  The answer is a finalization or a notarization at
    the view or above, the latter certified by this node, or the nullification of
    the view, and every resolver accepts it, unless it saw the certification of
    that notarization fail; and once it can be answered it always can. *)
Theorem served_is_accepted k h st out v : reachable k (mkWorld h st out) →
  match get st v with
  | None => handle_resolver st (HProduce v) = Some (st, []) ∧ nullifications st !! v = None ∧
      ∀ c, floor st = Some c → cert_view c < v
  | Some c => ∃ data, handle_resolver st (HProduce v) = Some (st, [OProduce data]) ∧ answers c v ∧
      (∀ n, c = CNotarization n → MCertified (proposal_view (nz_proposal n)) true ∈ h) ∧
      (∀ st', (∀ n, c = CNotarization n → proposal_view (nz_proposal n) ∉ failed_views st') → validate st' v data = Some (Some c)) ∧
      ∀ n w, run n (mkWorld h st out) w → is_Some (get (actor w) v)
  end.
Proof.
  intros [Hok _]%reachable_world_ok. cbn in Hok. cbn [Resolver.handle_resolver]. destruct (get st v) as [c|] eqn:Eg.
  - destruct (served_ok h st out v c Hok Eg) as (Hg & Ha & Hn). destruct (encode_total cert_codec cfg c) as [data Ed]; [apply Hg|].
    exists data. rewrite Ed. split_and!; [done..|intros st' Hf; by apply validate_good|]. intros n w Hrun.
    apply (run_world_ok _ _ _ Hok) in Hrun as [_ Hl]. apply (la_serves _ _ _ _ Hl). cbn. by rewrite Eg.
  - split; [done|]. unfold get in Eg. destruct (floor st) as [f|]; [|by split]. destruct (Z.leb_spec v (cert_view f)); [done|].
    split; [done|]. by intros ? [= <-].
Qed.

End Spec.

(** ** A concrete run *)

Section Demo.
#[local] Existing Instance Fixtures.types.
#[local] Instance u64_lawful : Lawful (Varint.UInt 8) := Varint.UInt_lawful 8 eq_refl.

(** Certificates are lists of signatures; a quorum signs views below 1000. *)
Definition demo_digest : codec Digest unit := Varint.UInt 8.
Definition demo_cert : codec Certificate (RangeCfg * unit) := CodecTypes.vec (Varint.UInt 8).
Definition demo_cfg : RangeCfg * unit := (RangeCfg.from_range_to_inclusive 4, tt).
Definition demo_verifier : SimplexEvidence.Verifier := mkVerifier (λ _ _ _, true)
  (λ _ s c, (subject_view s <? 1000) && bool_decide (c = [1; 2; 3])) (λ _ _, true).
Definition demo_nullification (v : Z) : Cert := CNullification (mkNullification (Fixtures.rnd v) [1; 2; 3]).
Definition demo_notarization (v : Z) : Cert := CNotarization (mkNotarization (Fixtures.proposal v 7) [1; 2; 3]).

#[local] Instance demo_digest_lawful : Lawful demo_digest := u64_lawful.
#[local] Instance demo_cert_lawful : Lawful demo_cert := CodecTypes.vec_lawful _.

Lemma demo_last c : BatcherActor.cert_verify demo_verifier [] c = true → cert_view c + 1 < 2 ^ 64.
Proof. destruct c; cbn; unfold proposal_view; intros [H%Z.ltb_lt _]%andb_true_iff; cbn in *; unfold proposal_view in *; lia. Qed.

Notation demo_step := (step demo_digest demo_cert demo_cfg demo_verifier 0 []).
Notation demo_run := (run demo_digest demo_cert demo_cfg demo_verifier 0 []).
Definition demo_data : bytes := default [] (encode (SimplexCodec.cert_codec demo_digest demo_cert) (demo_notarization 2)).

(** The world after a message, and after a delivery whose key is removed at once. *)
Definition demo_told (w : World) (m : MailboxMessage) : World :=
  match handle_mailbox (actor w) m with
  | Some (st, o) => mkWorld (m :: seen w) st (requests (outstanding w) o)
  | None => w
  end.
Definition demo_delivered (w : World) (v : Z) (data : bytes) : World :=
  match handle_resolver demo_digest demo_cert demo_cfg demo_verifier 0 [] (actor w) (HDeliver v data) with
  | Some (st, o) => mkWorld (seen w) st (requests (outstanding w ∖ {[v]}) (tail o))
  | None => w
  end.
Lemma demo_told_run n w w' m : demo_run n w w' → message_ok demo_digest demo_cert demo_cfg demo_verifier 0 [] (MCert m) →
  is_Some (handle_mailbox (actor w') (MCert m)) → demo_run (n + 1) w (demo_told w' (MCert m)).
Proof.
  intros Hr Hm [[st o] E]. eapply (run_step _ _ _ _ _ _ n _ _ true); [exact Hr|]. unfold demo_told. rewrite E. destruct w' as [h st' out].
  by apply (step_mailbox _ _ _ _ _ _ h st' out (MCert m)).
Qed.
Lemma demo_delivered_run n w w' v data : demo_run n w w' →
  (∃ x, validate demo_digest demo_cert demo_cfg demo_verifier 0 [] (actor w') v data = Some (Some x) ∧ is_Some (handle (actor w') x (Some v))) →
  demo_run (n + 1) w (demo_delivered w' v data).
Proof.
  intros Hr (x & Ev & [[st o] E]). eapply (run_step _ _ _ _ _ _ n _ _ true); [exact Hr|]. unfold demo_delivered. destruct w' as [h st' out].
  cbn [actor] in *. assert (handle_resolver demo_digest demo_cert demo_cfg demo_verifier 0 [] st' (HDeliver v data) =
    Some (st, ORespond true :: OVoter x :: o)) as H.
  { cbn [handle_resolver]. rewrite Ev. unfold wlift, send, wbind. cbn. by rewrite E. }
  rewrite H. apply (step_delivered _ _ _ _ _ _ h st' out v data st [ORespond true] (OVoter x :: o)); [exact H|constructor].
Qed.

Lemma demo_good v : 0 ≤ v < 900 → good demo_digest demo_cert demo_cfg demo_verifier 0 [] (demo_nullification v).
Proof.
  intros Hv. split; [|cbn; unfold subject_view; cbn; rewrite (proj2 (Z.ltb_lt _ _)) by lia; cbn; split_and!; try done; lia].
  cbn. unfold fits. repeat split; try lia; repeat constructor; lia.
Qed.

(** View 4 is nullified, so the two views after the floor are requested; a peer
    answers the first with a notarization of view 2. *)
Definition demo_world : World := demo_delivered (demo_told (start 2) (MCert (demo_nullification 4))) 1 demo_data.
Lemma demo_world_reachable : reachable demo_digest demo_cert demo_cfg demo_verifier 0 [] 2 demo_world.
Proof.
  exists 2%nat. apply (demo_delivered_run 1); [apply (demo_told_run 0); [apply run_refl|by apply demo_good|vm_compute; by eexists]|].
  exists (demo_notarization 2). split; [by vm_compute|vm_compute; by eexists].
Qed.

Lemma no_view_forgotten_witness : ∃ h st out, demo_world = mkWorld h st out ∧ floor_view st < 1 < fetch_floor st ∧
  (is_Some (nullifications st !! 1) ∨ awaited st 1 ∨ 1 ∈ out).
Proof.
  destruct demo_world as [h st out] eqn:E. exists h, st, out. split; [done|].
  assert (floor_view st < 1 < fetch_floor st) as Hv.
  { change st with (actor (mkWorld h st out)). rewrite <- E. vm_compute. done. }
  split; [exact Hv|]. apply (no_view_forgotten demo_digest demo_cert demo_cfg demo_verifier 0 [] demo_last 2 h); [|exact Hv].
  rewrite <- E. apply demo_world_reachable.
Defined.

Lemma missing_views_requested_witness :
  let w := demo_told (start 2) (MCert (demo_nullification 4)) in
  let w' := demo_told (demo_told w (MCert (demo_nullification 4))) (MCert (demo_nullification 2)) in
  floor_view (actor w') < 3 < current_view (actor w') ∧
  (is_Some (nullifications (actor w') !! 3) ∨ awaited (actor w') 3 ∨ 3 ∈ outstanding w').
Proof.
  intros w w'. split; [vm_compute; done|].
  apply (missing_views_requested demo_digest demo_cert demo_cfg demo_verifier 0 [] demo_last 2 w 2 w').
  - exists 1%nat. apply (demo_told_run 0); [apply run_refl|by apply demo_good|vm_compute; by eexists].
  - apply (demo_told_run 1); [apply (demo_told_run 0); [apply run_refl|by apply demo_good|vm_compute; by eexists]|by apply demo_good|vm_compute; by eexists].
  - vm_compute. done.
  - vm_compute. done.
  - vm_compute. done.
Defined.

Lemma served_is_accepted_witness : ∃ h st out, demo_world = mkWorld h st out ∧
  ∃ data, handle_resolver demo_digest demo_cert demo_cfg demo_verifier 0 [] st (HProduce 4) = Some (st, [OProduce data]) ∧
    validate demo_digest demo_cert demo_cfg demo_verifier 0 [] (new 1) 4 data = Some (Some (demo_nullification 4)).
Proof.
  destruct demo_world as [h st out] eqn:E. exists h, st, out. split; [done|].
  pose proof (served_is_accepted demo_digest demo_cert demo_cfg demo_verifier 0 [] demo_last 2 h st out 4) as H.
  assert (get st 4 = Some (demo_nullification 4)) as Hg.
  { change st with (actor (mkWorld h st out)). rewrite <- E. by vm_compute. }
  rewrite Hg in H. destruct H as (data & H1 & _ & _ & H2 & _); [rewrite <- E; apply demo_world_reachable|]. exists data. split; [exact H1|].
  apply H2. intros n Hn. discriminate Hn.
Defined.


(** With [fetch_concurrent] one, two messages leave two requests open: the bound is
    on the views a message requests, not on the requests that are open. *)
Lemma fetch_concurrent_exceeded :
  let w := demo_told (demo_told (start 1) (MCert (demo_nullification 4))) (MCert (demo_nullification 4)) in
  reachable demo_digest demo_cert demo_cfg demo_verifier 0 [] 1 w ∧ outstanding w = {[1; 2]}.
Proof.
  split; [|vm_compute; done]. exists 2%nat.
  apply (demo_told_run 1); [apply (demo_told_run 0); [apply run_refl|by apply demo_good|vm_compute; by eexists]|by apply demo_good|vm_compute; by eexists].
Qed.
End Demo.
End ResolverProperties.
