(* ===== verification/VoterSlot.v ===== *)
(** * Proposal slot of a round (consensus/src/simplex/actors/voter/slot.rs) *)

From S2P Require Import Prelude Codec ConsensusTypes SimplexTypes.
From coqutil Require Export Datatypes.RecordSetters.
Export DoubleBraceUpdate.

Inductive Status : Type := StNone | StUnverified | StVerified | StEquivocated.

#[export] Instance Status_eq_dec : EqDecision Status.
Proof. solve_decision. Defined.

Section Slot.
Context {T : Types}.

Inductive Change : Type :=
| ChNew
| ChUnchanged
| ChEquivocated (dropped retained : Proposal)
| ChSkipped.

Record Slot : Type := mkSlot {
  sl_proposal : option Proposal;
  sl_status : Status;
  requested_build : bool;
  requested_verify : bool;
}.
End Slot.

Module Slot.
Section Ops.
Context {T : Types}.

Definition new : Slot := mkSlot None StNone false false.

Definition should_build (s : Slot) : bool :=
  negb (requested_build s) && bool_decide (sl_proposal s = None).

Definition set_building (s : Slot) : Slot := s {{ requested_build := true }}.

Definition built (s : Slot) (p : Proposal) : Slot :=
  match sl_proposal s with
  | Some _ => s
  | None => s {{ sl_proposal := Some p; sl_status := StVerified;
                 requested_build := true; requested_verify := true }}
  end.

Definition request_verify (s : Slot) : Slot * bool :=
  if requested_verify s then (s, false) else (s {{ requested_verify := true }}, true).

Definition mark_verified (s : Slot) : Slot * bool :=
  if decide (sl_status s = StUnverified) then (s {{ sl_status := StVerified }}, true)
  else (s, false).

Definition update (s : Slot) (p : Proposal) (recovered : bool) : Slot * Change :=
  if decide (sl_status s = StEquivocated) then (s, ChSkipped)
  else
    match sl_proposal s with
    | None =>
        (s {{ sl_proposal := Some p;
              sl_status := if recovered then StVerified else StUnverified }}, ChNew)
    | Some existing =>
        if decide (existing = p) then
          ((if recovered then s {{ sl_status := StVerified }} else s), ChUnchanged)
        else if recovered then
          (s {{ sl_proposal := Some p; requested_build := true; requested_verify := true;
                sl_status := StEquivocated }}, ChEquivocated existing p)
        else (s {{ sl_status := StEquivocated }}, ChEquivocated p existing)
    end.

(** A slot has a status exactly when it holds a proposal. *)
Definition wf (s : Slot) : Prop := sl_status s = StNone ↔ sl_proposal s = None.

Lemma slot_new_wf : wf new.
Proof. done. Qed.

Lemma set_building_wf s : wf s → wf (set_building s).
Proof. done. Qed.

Lemma built_wf s p : wf s → wf (built s p).
Proof. unfold built, wf. destruct (sl_proposal s) eqn:E; simpl; [by rewrite E|done]. Qed.

Lemma request_verify_wf s : wf s → wf (request_verify s).1.
Proof. unfold request_verify. by case_match. Qed.

Lemma mark_verified_wf s : wf s → wf (mark_verified s).1.
Proof.
  unfold mark_verified, wf. case_decide as E; [|done]. simpl. intros H.
  split; [done|]. intros Hp%H. congruence.
Qed.

Lemma update_wf s p r : wf s → wf (update s p r).1.
Proof.
  destruct s as [[q|] st b v]; unfold update, wf; simpl; intros H;
    repeat case_decide; destruct r; simpl; unfold constant; naive_solver.
Qed.

(** ** What can become of a voted slot

    [agrees s p]: the slot holds [p] with a verified status, or equivocation
    was detected, after which the slot offers no proposal for voting. *)
Definition agrees (s : Slot) (p : Proposal) : Prop :=
  (sl_status s = StVerified ∧ sl_proposal s = Some p) ∨ sl_status s = StEquivocated.

Lemma agrees_built s p q : wf s → agrees s p → agrees (built s q) p.
Proof.
  unfold built, agrees, wf. intros Hw [[H1 H2]|H]; [rewrite H2; auto|].
  destruct (sl_proposal s) eqn:E; [by right|]. by rewrite (proj2 Hw eq_refl) in H.
Qed.

Lemma agrees_mark_verified s p : agrees s p → agrees (mark_verified s).1 p.
Proof. unfold mark_verified, agrees. case_decide; [|done]. intros [[H1 H2]|H1]; congruence. Qed.

Lemma agrees_request_verify s p : agrees s p → agrees (request_verify s).1 p.
Proof. unfold request_verify. by case_match. Qed.

Lemma agrees_update s p q r : agrees s p → agrees (update s q r).1 p.
Proof.
  unfold update, agrees. intros H. case_decide; [by right|].
  destruct H as [[H1 H2]|H]; [|done]. rewrite H2.
  case_decide; subst; [left; by destruct r|]. right. by destruct r.
Qed.

(** A certificate for another proposal ends in equivocation; a certificate
    for the held one ends verified. *)
Lemma update_recovered s p :
  let s' := (update s p true).1 in
  (sl_proposal s' = Some p ∧ sl_status s' = StVerified) ∨ sl_status s' = StEquivocated.
Proof.
  unfold update. case_decide; [by right|].
  destruct (sl_proposal s) as [q|] eqn:E; [case_decide; subst|]; simpl; auto.
Qed.
End Ops.
End Slot.
