(* ===== verification/VoterRound.v ===== *)
(** * Per-view state machine of the voter
      (consensus/src/simplex/actors/voter/round.rs)

    [Round.*] are the methods of the code, each returning the new state (and the
    returned value where there is one).  Times and durations are [Z]; reading
    the clock is an argument.  A method that can panic returns an [option]. *)

From S2P Require Import Prelude Codec ConsensusTypes SimplexTypes VoterSlot.

Section RoundData.
Context {T : Types}.

Inductive CertifyResult (A : Type) : Type :=
| CrReady (a : A)
| CrPending
| CrSkip.
Arguments CrReady {A} a.
Arguments CrPending {A}.
Arguments CrSkip {A}.

Record Leader : Type := mkLeader { ld_idx : Z; ld_key : PublicKey }.

Record Round : Type := mkRound {
  r_start : Z;
  r_scheme : Scheme;
  r_rnd : Rnd;
  r_leader : option Leader;
  r_slot : Slot;
  leader_deadline : option Z;
  advance_deadline : option Z;
  nullify_retry : option Z;
  r_notarization : option Notarization;
  b_notarize : bool;
  b_notarization : bool;
  r_nullification : option Nullification;
  b_nullify : bool;
  b_nullification : bool;
  r_finalization : option Finalization;
  b_finalize : bool;
  b_finalization : bool;
  r_certified : option bool;
  certify_handle : option Z;
}.
End RoundData.
Arguments CrReady {A} a.
Arguments CrPending {A}.
Arguments CrSkip {A}.

Module Round.
Section Ops.
Context {T : Types}.
Implicit Types r : Round.

Definition new (scheme : Scheme) (rnd : Rnd) (start : Z) : Round :=
  mkRound start scheme rnd None Slot.new None None None None false false None false false
    None false false None None.

Definition is_signer r (signer : Z) : bool :=
  match me (r_scheme r) with Some me => me =? signer | None => false end.

Definition propose_ready r : option Leader :=
  leader ← r_leader r;
  if negb (is_signer r (ld_idx leader)) || b_nullify r || negb (Slot.should_build (r_slot r))
  then None else Some leader.

Definition should_propose r : bool := bool_decide (is_Some (propose_ready r)).

Definition try_propose r : Round * option Leader :=
  match propose_ready r with
  | None => (r, None)
  | Some leader => (r {{ r_slot := Slot.set_building (r_slot r) }}, Some leader)
  end.

Definition verify_ready r : option Leader :=
  leader ← r_leader r;
  if is_signer r (ld_idx leader) || b_nullify r then None else Some leader.

Definition should_verify r : option (Leader * Proposal) :=
  leader ← verify_ready r;
  proposal ← sl_proposal (r_slot r);
  Some (leader, proposal).

Definition try_verify r : Round * bool :=
  match verify_ready r with
  | None => (r, false)
  | Some _ =>
      let '(s, b) := Slot.request_verify (r_slot r) in (r {{ r_slot := s }}, b)
  end.

Definition should_certify r : CertifyResult Proposal :=
  match r_notarization r, r_certified r, certify_handle r with
  | Some _, None, None =>
      match sl_proposal (r_slot r) with
      | Some p => CrReady p
      | None => CrPending
      end
  | _, _, _ => CrSkip
  end.

Definition set_certify_handle r (h : Z) : Round := r {{ certify_handle := Some h }}.
Definition unset_certify_handle r : Round := r {{ certify_handle := None }}.

Definition clear_deadlines r : Round :=
  r {{ leader_deadline := None; advance_deadline := None }}.

(** [None]: the index is outside the participant set. *)
Definition set_leader r (leader : Z) : option Round :=
  key ← participants (r_scheme r) !! Z.to_nat leader;
  Some (r {{ r_leader := Some (mkLeader leader key) }}).

Definition is_certified r : bool := bool_decide (r_certified r = Some true).

Definition elapsed_since_start r (now : Z) : Z := Z.max 0 (now - r_start r).

Definition proposed r (p : Proposal) : Round * bool :=
  if b_nullify r then (r, false)
  else (r {{ r_slot := Slot.built (r_slot r) p; leader_deadline := None }}, true).

Definition verified r : Round * bool :=
  if b_nullify r then (r, false)
  else
    let '(s, ok) := Slot.mark_verified (r_slot r) in
    if ok then (r {{ r_slot := s; leader_deadline := None }}, true)
    else (r {{ r_slot := s }}, false).

Definition set_proposal r (p : Proposal) : Round * bool :=
  if b_nullify r then (r, false)
  else
    let '(s, change) := Slot.update (r_slot r) p false in
    match change with
    | ChNew => (r {{ r_slot := s; leader_deadline := None }}, true)
    | _ => (r {{ r_slot := s }}, false)
    end.

(** [None]: the assertion that certification results agree fails. *)
Definition certified r (is_success : bool) : option Round :=
  match r_certified r with
  | Some v => if Bool.eqb v is_success
              then Some (r {{ r_certified := Some is_success; certify_handle := None }})
              else None
  | None => Some (r {{ r_certified := Some is_success; certify_handle := None }})
  end.

Definition set_deadlines r (leader advance : Z) : Round :=
  r {{ leader_deadline := Some leader; advance_deadline := Some advance }}.
Definition set_nullify_retry r (time : option Z) : Round := r {{ nullify_retry := time }}.

Definition construct_nullify r : Round * option bool :=
  if b_finalize r then (r, None)
  else
    let retry := b_nullify r in
    (set_nullify_retry (clear_deadlines (r {{ b_nullify := true }})) None, Some retry).

Definition next_timeout_deadline r (now retry : Z) : Round * Z :=
  match leader_deadline r, advance_deadline r, nullify_retry r with
  | Some d, _, _ => (r, d)
  | None, Some d, _ => (r, d)
  | None, None, Some d => (r, d)
  | None, None, None => (r {{ nullify_retry := Some (now + retry) }}, now + retry)
  end.

Definition add_recovered_proposal r (p : Proposal) : Round * option PublicKey :=
  let '(s, change) := Slot.update (r_slot r) p true in
  (r {{ r_slot := s }},
   match change with
   | ChEquivocated _ _ => ld_key <$> r_leader r
   | _ => None
   end).

Definition add_notarization r (n : Notarization) : Round * (bool * option PublicKey) :=
  match r_notarization r with
  | Some _ => (r, (false, None))
  | None =>
      let r := clear_deadlines r in
      let '(r, equivocator) := add_recovered_proposal r (nz_proposal n) in
      (r {{ r_notarization := Some n }}, (true, equivocator))
  end.

Definition add_nullification r (n : Nullification) : Round * bool :=
  match r_nullification r with
  | Some _ => (r, false)
  | None => ((clear_deadlines r) {{ r_nullification := Some n }}, true)
  end.

Definition add_finalization r (f : Finalization) : Round * (bool * option PublicKey) :=
  match r_finalization r with
  | Some _ => (r, (false, None))
  | None =>
      let r := clear_deadlines r in
      let '(r, equivocator) := add_recovered_proposal r (fzz_proposal f) in
      (r {{ r_finalization := Some f }}, (true, equivocator))
  end.

Definition broadcast_notarization r : Round * option Notarization :=
  if b_notarization r then (r, None)
  else match r_notarization r with
       | Some n => (r {{ b_notarization := true }}, Some n)
       | None => (r, None)
       end.
Definition broadcast_nullification r : Round * option Nullification :=
  if b_nullification r then (r, None)
  else match r_nullification r with
       | Some n => (r {{ b_nullification := true }}, Some n)
       | None => (r, None)
       end.
Definition broadcast_finalization r : Round * option Finalization :=
  if b_finalization r then (r, None)
  else match r_finalization r with
       | Some n => (r {{ b_finalization := true }}, Some n)
       | None => (r, None)
       end.

Definition construct_notarize r : Round * option Proposal :=
  if b_notarize r || b_nullify r then (r, None)
  else if decide (sl_status (r_slot r) = StVerified) then
    (r {{ b_notarize := true }}, sl_proposal (r_slot r))
  else (r, None).

Definition construct_finalize r : Round * option Proposal :=
  if b_finalize r || b_nullify r then (r, None)
  else if negb (b_notarize r) || negb (b_notarization r) then (r, None)
  else if decide (sl_status (r_slot r) = StVerified) then
    if is_certified r then (r {{ b_finalize := true }}, sl_proposal (r_slot r))
    else (r, None)
  else (r, None).

(** [None]: the artifact is a vote of another signer, or the certification
    result contradicts an earlier one. *)
Definition replay r (a : Artifact) : option Round :=
  match a with
  | ANotarize n =>
      if is_signer r (signer (nt_attestation n))
      then Some (r {{ r_slot := Slot.built (r_slot r) (nt_proposal n); b_notarize := true }})
      else None
  | ANullify n =>
      if is_signer r (signer (nl_attestation n)) then Some (r {{ b_nullify := true }}) else None
  | AFinalize f =>
      if is_signer r (signer (fz_attestation f)) then Some (r {{ b_finalize := true }}) else None
  | ANotarization _ => Some (r {{ b_notarization := true }})
  | ANullification _ => Some (r {{ b_nullification := true }})
  | AFinalization _ => Some (r {{ b_finalization := true }})
  | ACertification _ success => certified r success
  end.
End Ops.
End Round.
