(* ===== verification/VoterJournal.v ===== *)
(** * Votes of one view across crashes
      (consensus/src/simplex/actors/voter/actor.rs, restricted to one view)

    A [Node] is the round of one view together with the artifacts the actor has
    journaled for it.  [exec] is one event of the actor's loop that reaches the
    round: the handlers journal an artifact exactly where the code appends one,
    and a vote leaves the node only after it was journaled.  [OCrash] loses the
    round and rebuilds it from the journal as [run] does on start.

    [journal_ok] is the invariant of the journal: every entry is consistent with
    the entries before it.  It makes the recovery total and pins down the votes
    the node can have signed. *)

From S2P Require Import Prelude Codec ConsensusTypes SimplexTypes VoterSlot VoterRound Fixtures.

Section Node.
Context {T : Types}.

(** The round, the journal and how many of its entries were synced. *)
Record Node : Type :=
  mkNode { nd_round : Round; nd_journal : list Artifact; nd_synced : nat }.

Inductive Op : Type :=
| OTryPropose
| OTryVerify
| OSetCertifyHandle (h : Z)
| OUnsetCertifyHandle
| OSetLeader (leader : Z)
| OProposed (p : Proposal)
| OVerified
| OSetProposal (p : Proposal)
| OSetDeadlines (leader advance : Z)
| ONextTimeout (now retry : Z)
| ONotarization (n : Notarization)
| ONullification (n : Nullification)
| OFinalization (f : Finalization)
| OCertified (now : Z) (success : bool)
| OBroadcastNotarization
| OBroadcastNullification
| OBroadcastFinalization
| OTimeout
| OVoteNotarize
| OVoteFinalize
| OCrash (now : Z) (kept : nat)
| OCrashIn (o : Op) (now : Z) (kept : nat).
End Node.

Module VoterJournal.
Section Journal.
Context {T : Types} (scheme : Scheme) (namespace : bytes) (rnd : Rnd).

(** A participant's scheme signs every subject, in its own name. *)
Definition signs : Prop := ∀ subject, ∃ a,
  sign scheme namespace subject = Some a ∧ me scheme = Some (signer a).

(** [State::certified] on the round of the view: a failed certification expires
    the round; [None] when it panics. *)
Definition state_certified (now : Z) (r : Round) (success : bool) : option Round :=
  r ← Round.certified r success;
  _ ← r_notarization r;
  Some (if success then r else Round.set_deadlines r now now).

(** The actor's reaction to a replayed artifact, after [Round::replay]. *)
Definition replay_handler (now : Z) (r : Round) (a : Artifact) : option Round :=
  match a with
  | ANotarization n => Some (Round.add_notarization r n).1
  | ANullification n => Some (Round.add_nullification r n).1
  | AFinalization f => Some (Round.add_finalization r f).1
  | ACertification _ success => state_certified now r success
  | ANotarize _ | ANullify _ | AFinalize _ => Some r
  end.

Definition recover_step (now : Z) (r : Round) (a : Artifact) : option Round :=
  r ← Round.replay r a; replay_handler now r a.

Fixpoint recover_from (now : Z) (r : Round) (journal : list Artifact) : option Round :=
  match journal with
  | [] => Some r
  | a :: journal => r ← recover_step now r a; recover_from now r journal
  end.

Definition recover (now : Z) (journal : list Artifact) : option Round :=
  recover_from now (Round.new scheme rnd now) journal.

Definition set_round (nd : Node) (r : Round) : Node := mkNode r (nd_journal nd) (nd_synced nd).
Definition append_journal (nd : Node) (a : Artifact) : Node :=
  mkNode (nd_round nd) (nd_journal nd ++ [a]) (nd_synced nd).
Definition sync_journal (nd : Node) : Node :=
  mkNode (nd_round nd) (nd_journal nd) (length (nd_journal nd)).

Definition handle_notarization (nd : Node) (n : Notarization) : Node :=
  let '(r, (added, _)) := Round.add_notarization (nd_round nd) n in
  let nd := set_round nd r in
  if added then append_journal nd (ANotarization n) else nd.
Definition handle_nullification (nd : Node) (n : Nullification) : Node :=
  let '(r, added) := Round.add_nullification (nd_round nd) n in
  let nd := set_round nd r in
  if added then append_journal nd (ANullification n) else nd.
Definition handle_finalization (nd : Node) (f : Finalization) : Node :=
  let '(r, (added, _)) := Round.add_finalization (nd_round nd) f in
  let nd := set_round nd r in
  if added then append_journal nd (AFinalization f) else nd.
Definition handle_certification (now : Z) (nd : Node) (success : bool) : option Node :=
  r ← state_certified now (nd_round nd) success;
  Some (sync_journal (append_journal (set_round nd r) (ACertification rnd success))).

Definition handle_timeout (nd : Node) : Node * option Vote :=
  let '(r, retry) := Round.construct_nullify (nd_round nd) in
  let nd := set_round nd r in
  match retry, Nullify_sign scheme namespace rnd with
  | Some retry, Some v =>
      (if retry : bool then nd else sync_journal (append_journal nd (ANullify v)),
       Some (VNullify v))
  | _, _ => (nd, None)
  end.
Definition try_broadcast_notarize (nd : Node) : Node * option Vote :=
  let '(r, candidate) := Round.construct_notarize (nd_round nd) in
  let nd := set_round nd r in
  match p ← candidate; Notarize_sign scheme namespace p with
  | Some v => (sync_journal (append_journal nd (ANotarize v)), Some (VNotarize v))
  | None => (nd, None)
  end.
Definition try_broadcast_finalize (nd : Node) : Node * option Vote :=
  let '(r, candidate) := Round.construct_finalize (nd_round nd) in
  let nd := set_round nd r in
  match p ← candidate; Finalize_sign scheme namespace p with
  | Some v => (sync_journal (append_journal nd (AFinalize v)), Some (VFinalize v))
  | None => (nd, None)
  end.
Definition try_broadcast_notarization (nd : Node) : Node :=
  let '(r, candidate) := Round.broadcast_notarization (nd_round nd) in
  let nd := set_round nd r in
  match candidate with Some n => sync_journal (handle_notarization nd n) | None => nd end.
Definition try_broadcast_nullification (nd : Node) : Node :=
  let '(r, candidate) := Round.broadcast_nullification (nd_round nd) in
  let nd := set_round nd r in
  match candidate with Some n => sync_journal (handle_nullification nd n) | None => nd end.
Definition try_broadcast_finalization (nd : Node) : Node :=
  let '(r, candidate) := Round.broadcast_finalization (nd_round nd) in
  let nd := set_round nd r in
  match candidate with Some f => sync_journal (handle_finalization nd f) | None => nd end.

(** The process dies: what was synced survives, of what was appended since an
    arbitrary prefix does; the next start replays what is left. *)
Definition restart (now : Z) (kept synced : nat) (journal : list Artifact) : option Node :=
  let journal := take (max synced kept) journal in
  r ← recover now journal;
  Some (mkNode r journal (length journal)).

(** Events that neither vote nor journal. *)
Definition quiet_round (o : Op) (r : Round) : option Round :=
  match o with
  | OTryPropose => Some (Round.try_propose r).1
  | OTryVerify => Some (Round.try_verify r).1
  | OSetCertifyHandle h => Some (Round.set_certify_handle r h)
  | OUnsetCertifyHandle => Some (Round.unset_certify_handle r)
  | OSetLeader leader => Round.set_leader r leader
  | OProposed p => Some (Round.proposed r p).1
  | OVerified => Some (Round.verified r).1
  | OSetProposal p => Some (Round.set_proposal r p).1
  | OSetDeadlines a b => Some (Round.set_deadlines r a b)
  | ONextTimeout now retry => Some (Round.next_timeout_deadline r now retry).1
  | _ => None
  end.

(** One event and the vote it sends, if any; [None] when it panics. *)
Fixpoint exec (o : Op) (nd : Node) : option (Node * option Vote) :=
  match o with
  | ONotarization n => Some (handle_notarization nd n, None)
  | ONullification n => Some (handle_nullification nd n, None)
  | OFinalization f => Some (handle_finalization nd f, None)
  | OCertified now success => nd ← handle_certification now nd success; Some (nd, None)
  | OBroadcastNotarization => Some (try_broadcast_notarization nd, None)
  | OBroadcastNullification => Some (try_broadcast_nullification nd, None)
  | OBroadcastFinalization => Some (try_broadcast_finalization nd, None)
  | OTimeout => Some (handle_timeout nd)
  | OVoteNotarize => Some (try_broadcast_notarize nd)
  | OVoteFinalize => Some (try_broadcast_finalize nd)
  | OCrash now kept => nd ← restart now kept (nd_synced nd) (nd_journal nd); Some (nd, None)
  | OCrashIn o now kept =>
      '(nd', _) ← exec o nd;
      nd ← restart now kept (nd_synced nd) (nd_journal nd'); Some (nd, None)
  | o => r ← quiet_round o (nd_round nd); Some (set_round nd r, None)
  end.

(** A run of the node; [None] when an event panics. *)
Fixpoint run (ops : list Op) (nd : Node) (sent : list Vote) : option (Node * list Vote) :=
  match ops with
  | [] => Some (nd, sent)
  | o :: ops =>
      '(nd, out) ← exec o nd;
      run ops nd (sent ++ option_list out)
  end.

Definition init (now : Z) : Node := mkNode (Round.new scheme rnd now) [] 0.

(** ** The journal invariant *)

Definition entry_ok (J : list Artifact) (a : Artifact) : Prop :=
  match a with
  | ANotarize n =>
      me scheme = Some (signer (nt_attestation n)) ∧
      (∀ c, ANotarization c ∈ J → nz_proposal c = nt_proposal n) ∧
      (∀ f, AFinalization f ∈ J → fzz_proposal f = nt_proposal n) ∧
      (∀ n', ANotarize n' ∉ J) ∧ (∀ x, ANullify x ∉ J)
  | ANotarization c => ∀ c', ANotarization c' ∈ J → c' = c
  | AFinalization f => ∀ f', AFinalization f' ∈ J → f' = f
  | ANullification _ => True
  | ACertification _ b =>
      (∃ c, ANotarization c ∈ J) ∧ ∀ r' b', ACertification r' b' ∈ J → b' = b
  | ANullify x =>
      me scheme = Some (signer (nl_attestation x)) ∧ (∀ f, AFinalize f ∉ J)
  | AFinalize f =>
      me scheme = Some (signer (fz_attestation f)) ∧ (∀ x, ANullify x ∉ J) ∧
      (∃ n, ANotarize n ∈ J ∧ nt_proposal n = fz_proposal f) ∧
      (∃ c, ANotarization c ∈ J ∧ nz_proposal c = fz_proposal f) ∧
      (∃ r', ACertification r' true ∈ J)
  end.

Inductive journal_ok : list Artifact → Prop :=
| journal_nil : journal_ok []
| journal_snoc J a : journal_ok J → entry_ok J a → journal_ok (J ++ [a]).

(** How a round that has processed a journal relates to it. *)
Record in_sync (J : list Artifact) (r : Round) : Prop := {
  sync_scheme : r_scheme r = scheme;
  sync_slot : Slot.wf (r_slot r);
  sync_notarization n : ANotarization n ∈ J ↔ r_notarization r = Some n;
  sync_finalization f : AFinalization f ∈ J ↔ r_finalization r = Some f;
  sync_certified b : (∃ r', ACertification r' b ∈ J) ↔ r_certified r = Some b;
  sync_cert_slot c : ANotarization c ∈ J → Slot.agrees (r_slot r) (nz_proposal c);
  sync_fin_slot f : AFinalization f ∈ J → Slot.agrees (r_slot r) (fzz_proposal f);
  sync_vote_slot n : ANotarize n ∈ J → Slot.agrees (r_slot r) (nt_proposal n);
  sync_notarize : b_notarize r = true ↔ ∃ n, ANotarize n ∈ J;
  sync_nullify : b_nullify r = true ↔ ∃ x, ANullify x ∈ J;
  sync_finalize : b_finalize r = true ↔ ∃ f, AFinalize f ∈ J;
  sync_broadcast : b_notarization r = true → is_Some (r_notarization r);
}.

(** ** One step of the round and one entry of the journal *)

Definition carried (a : Artifact) : option Proposal :=
  match a with
  | ANotarize n => Some (nt_proposal n)
  | ANotarization c => Some (nz_proposal c)
  | AFinalization f => Some (fzz_proposal f)
  | _ => None
  end.

(** The change of a round that goes with a new journal entry [a], or with no
    entry. *)
Record effect (r : Round) (a : option Artifact) (r' : Round) : Prop := {
  ef_scheme : r_scheme r' = r_scheme r;
  ef_wf : Slot.wf (r_slot r');
  ef_agrees p : Slot.agrees (r_slot r) p → Slot.agrees (r_slot r') p;
  ef_carried a' p : a = Some a' → carried a' = Some p → Slot.agrees (r_slot r') p;
  ef_notarization : r_notarization r' =
    match a with Some (ANotarization n) => Some n | _ => r_notarization r end;
  ef_finalization : r_finalization r' =
    match a with Some (AFinalization f) => Some f | _ => r_finalization r end;
  ef_certified : r_certified r' =
    match a with Some (ACertification _ b) => Some b | _ => r_certified r end;
  ef_notarize : b_notarize r' = match a with Some (ANotarize _) => true | _ => b_notarize r end;
  ef_nullify : b_nullify r' = match a with Some (ANullify _) => true | _ => b_nullify r end;
  ef_finalize : b_finalize r' = match a with Some (AFinalize _) => true | _ => b_finalize r end;
  ef_broadcast : b_notarization r' = true →
    b_notarization r = true ∨ is_Some (r_notarization r');
}.

Definition add_entry (J : list Artifact) (a : option Artifact) : list Artifact :=
  match a with Some a => J ++ [a] | None => J end.

Lemma elem_of_add_entry J a x : x ∈ add_entry J a ↔ x ∈ J ∨ a = Some x.
Proof.
  destruct a as [a|]; simpl; [|naive_solver].
  rewrite elem_of_app, list_elem_of_singleton. naive_solver.
Qed.

Definition entry_ok' (J : list Artifact) (a : option Artifact) : Prop :=
  match a with Some a => entry_ok J a | None => True end.

Lemma in_sync_effect J r a r' :
  in_sync J r → entry_ok' J a → effect r a r' → in_sync (add_entry J a) r'.
Proof.
  intros [] He []. split; try done; try setoid_rewrite elem_of_add_entry.
  - congruence.
  - intros n. rewrite sync_notarization0, ef_notarization0.
    destruct a as [[]|]; simpl in *; try naive_solver.
  - intros f. rewrite sync_finalization0, ef_finalization0.
    destruct a as [[]|]; simpl in *; try naive_solver.
  - intros b. specialize (sync_certified0 b). rewrite ef_certified0.
    destruct a as [[]|]; simpl in *; naive_solver.
  - intros c [H| ->]; [by apply ef_agrees0, sync_cert_slot0|by eapply ef_carried0].
  - intros f [H| ->]; [by apply ef_agrees0, sync_fin_slot0|by eapply ef_carried0].
  - intros n [H| ->]; [by apply ef_agrees0, sync_vote_slot0|by eapply ef_carried0].
  - rewrite ef_notarize0. destruct a as [[]|]; naive_solver.
  - rewrite ef_nullify0. destruct a as [[]|]; naive_solver.
  - rewrite ef_finalize0. destruct a as [[]|]; naive_solver.
  - intros [H|H]%ef_broadcast0; [|done]. rewrite ef_notarization0.
    destruct a as [[]|]; naive_solver.
Qed.

(** Settle the fields of an [effect] after the record was taken apart. *)
Ltac solve_effect :=
  split; simpl; unfold constant; intros; simplify_eq/=; eauto 2.

(** A change of the slot alone. *)
Lemma effect_slot r (s : Slot) :
  Slot.wf s → (∀ p, Slot.agrees (r_slot r) p → Slot.agrees s p) →
  effect r None (r {{ r_slot := s }}).
Proof. destruct r. intros. solve_effect. Qed.

Lemma effect_refl r : Slot.wf (r_slot r) → effect r None r.
Proof. destruct r. intros. solve_effect. Qed.

Lemma effect_trans r1 r2 r3 a : effect r1 None r2 → effect r2 a r3 → effect r1 a r3.
Proof.
  intros [] []. split; try congruence; eauto.
  - destruct a as [[]|]; congruence.
  - destruct a as [[]|]; congruence.
  - destruct a as [[]|]; congruence.
  - destruct a as [[]|]; congruence.
  - destruct a as [[]|]; congruence.
  - destruct a as [[]|]; congruence.
  - intros H. destruct (ef_broadcast1 H) as [H'|]; [|by right].
    destruct (ef_broadcast0 H') as [|H'']; [by left|right].
    rewrite ef_notarization1. destruct a as [[]|]; eauto.
Qed.

(** Changes the votes do not depend on. *)
Lemma effect_deadlines r a b : Slot.wf (r_slot r) →
  effect r None (r {{ leader_deadline := a; advance_deadline := b }}).
Proof. destruct r. intros. solve_effect. Qed.
Lemma effect_leader_deadline r a : Slot.wf (r_slot r) → effect r None (r {{ leader_deadline := a }}).
Proof. destruct r. intros. solve_effect. Qed.
Lemma effect_retry r a : Slot.wf (r_slot r) → effect r None (r {{ nullify_retry := a }}).
Proof. destruct r. intros. solve_effect. Qed.
Lemma effect_handle r a : Slot.wf (r_slot r) → effect r None (r {{ certify_handle := a }}).
Proof. destruct r. intros. solve_effect. Qed.
Lemma effect_leader r a : Slot.wf (r_slot r) → effect r None (r {{ r_leader := a }}).
Proof. destruct r. intros. solve_effect. Qed.
Lemma effect_b_nullification r : Slot.wf (r_slot r) → effect r None (r {{ b_nullification := true }}).
Proof. destruct r. intros. solve_effect. Qed.
Lemma effect_b_finalization r : Slot.wf (r_slot r) → effect r None (r {{ b_finalization := true }}).
Proof. destruct r. intros. solve_effect. Qed.
Lemma effect_b_notarization r : Slot.wf (r_slot r) → is_Some (r_notarization r) →
  effect r None (r {{ b_notarization := true }}).
Proof. destruct r. intros. solve_effect. Qed.

Lemma effect_nullification r n : Slot.wf (r_slot r) →
  effect r (Some (ANullification n)) (Round.add_nullification r n).1.
Proof.
  unfold Round.add_nullification, Round.clear_deadlines. destruct r. intros. simpl.
  case_match; simpl; solve_effect.
Qed.

Lemma effect_add_recovered r p : Slot.wf (r_slot r) →
  effect r None (Round.add_recovered_proposal r p).1 ∧
  Slot.agrees (r_slot (Round.add_recovered_proposal r p).1) p.
Proof.
  intros Hw. unfold Round.add_recovered_proposal.
  pose proof (Slot.update_wf (r_slot r) p true Hw) as H1.
  pose proof (λ q, Slot.agrees_update (r_slot r) q p true) as H2.
  pose proof (Slot.update_recovered (r_slot r) p) as H3.
  destruct (Slot.update (r_slot r) p true) as [s c]. simpl in *.
  split; [by apply effect_slot|]. destruct r; simpl. unfold constant.
  destruct H3 as [[? ?]|?]; [by left|by right].
Qed.

Lemma effect_notarization r n : Slot.wf (r_slot r) →
  (r_notarization r = None ∨ r_notarization r = Some n ∧ Slot.agrees (r_slot r) (nz_proposal n)) →
  effect r (Some (ANotarization n)) (Round.add_notarization r n).1.
Proof.
  intros Hw Hn. unfold Round.add_notarization. destruct (r_notarization r) as [n'|] eqn:E.
  - destruct Hn as [|[[= ->] Ha]]; [done|]. destruct r; simpl in *; solve_effect.
  - unfold Round.clear_deadlines.
    pose proof (effect_deadlines r None None Hw) as H1.
    destruct (effect_add_recovered _ (nz_proposal n) (ef_wf _ _ _ H1)) as [H2 H3].
    destruct (Round.add_recovered_proposal _ _) as [r' e]. simpl in *.
    apply (effect_trans _ r'); [by eapply effect_trans|].
    apply ef_wf in H2. destruct r'; simpl in *. solve_effect.
Qed.

Lemma effect_finalization r f : Slot.wf (r_slot r) →
  (r_finalization r = None ∨ r_finalization r = Some f ∧ Slot.agrees (r_slot r) (fzz_proposal f)) →
  effect r (Some (AFinalization f)) (Round.add_finalization r f).1.
Proof.
  intros Hw Hn. unfold Round.add_finalization. destruct (r_finalization r) as [n'|] eqn:E.
  - destruct Hn as [|[[= ->] Ha]]; [done|]. destruct r; simpl in *; solve_effect.
  - unfold Round.clear_deadlines.
    pose proof (effect_deadlines r None None Hw) as H1.
    destruct (effect_add_recovered _ (fzz_proposal f) (ef_wf _ _ _ H1)) as [H2 H3].
    destruct (Round.add_recovered_proposal _ _) as [r' e]. simpl in *.
    apply (effect_trans _ r'); [by eapply effect_trans|].
    apply ef_wf in H2. destruct r'; simpl in *. solve_effect.
Qed.

Lemma effect_certified r rd b r' : Slot.wf (r_slot r) →
  Round.certified r b = Some r' → effect r (Some (ACertification rd b)) r'.
Proof.
  unfold Round.certified. intros Hw.
  destruct r; simpl in *. repeat case_match; intros [= <-]; simpl in *; solve_effect.
Qed.

Lemma state_certified_effect now r rd b r' : Slot.wf (r_slot r) →
  state_certified now r b = Some r' →
  effect r (Some (ACertification rd b)) r' ∧ r_slot r' = r_slot r ∧ is_Some (r_notarization r).
Proof.
  unfold state_certified. intros Hw. destruct (Round.certified r b) as [r1|] eqn:E; simpl; [|done].
  pose proof (effect_certified r rd b r1 Hw E) as Hef.
  destruct (r_notarization r1) eqn:En; simpl; [|done]. intros [= <-].
  assert (r_slot r1 = r_slot r ∧ is_Some (r_notarization r)) as [Hs Hn].
  { unfold Round.certified in E. destruct r; simpl in *. repeat case_match; simplify_eq/=; eauto. }
  destruct Hef, r1; simpl in *. destruct b; (split; [|done]); split; done.
Qed.

Lemma certified_agree r b : (∀ b', r_certified r = Some b' → b' = b) →
  ∃ r', Round.certified r b = Some r' ∧ r_certified r' = Some b ∧ r_notarization r' = r_notarization r.
Proof.
  intros H. unfold Round.certified. destruct (r_certified r) as [b'|].
  - rewrite (H b' eq_refl), eqb_reflx. destruct r. eauto.
  - destruct r. eauto.
Qed.

(** ** Recovery *)

(** During recovery the slot is filled by journaled artifacts only. *)
Definition anchored (J : list Artifact) (r : Round) : Prop :=
  sl_proposal (r_slot r) = None ∨ ∃ a p, a ∈ J ∧ carried a = Some p.

Lemma is_signer_me r x : r_scheme r = scheme → me scheme = Some x → Round.is_signer r x = true.
Proof. intros H1 H2. unfold Round.is_signer. rewrite H1, H2. apply Z.eqb_refl. Qed.

Lemma sync_carried J r a p : in_sync J r → a ∈ J → carried a = Some p → Slot.agrees (r_slot r) p.
Proof. intros [] H. destruct a; simpl; intros [= <-]; eauto. Qed.

(** The proposal of a journaled notarize vote agrees with the slot it is
    replayed into. *)
Lemma replay_notarize_agrees J r n :
  in_sync J r → anchored J r → entry_ok J (ANotarize n) →
  Slot.agrees (Slot.built (r_slot r) (nt_proposal n)) (nt_proposal n).
Proof.
  intros Hs Ha (_ & H1 & H2 & H3 & _). destruct Ha as [Hn|(a & p & Ha & Hp)].
  - unfold Slot.built. rewrite Hn. left. by destruct (r_slot r).
  - apply Slot.agrees_built; [apply Hs|].
    pose proof (sync_carried _ _ _ _ Hs Ha Hp) as Hag.
    destruct a; simpl in *; simplify_eq/=; try (by destruct (H3 _ Ha)).
    + by rewrite (H1 _ Ha) in Hag.
    + by rewrite (H2 _ Ha) in Hag.
Qed.

Lemma recover_notarization_effect J r n :
  in_sync J r → entry_ok J (ANotarization n) →
  effect r (Some (ANotarization n))
    (Round.add_notarization (r {{ b_notarization := true }}) n).1.
Proof.
  intros Hs He. pose proof (sync_slot _ _ Hs) as Hw.
  set (r1 := r {{ b_notarization := true }}).
  assert (r_notarization r1 = None ∨
    r_notarization r1 = Some n ∧ Slot.agrees (r_slot r1) (nz_proposal n)) as Hn.
  { subst r1. destruct (r_notarization r) as [c|] eqn:E; [right|left; by destruct r].
    apply (sync_notarization _ _ Hs) in E. pose proof (He _ E) as ->.
    pose proof (sync_cert_slot _ _ Hs _ E). apply (sync_notarization _ _ Hs) in E.
    by destruct r. }
  assert (Slot.wf (r_slot r1)) as Hw1 by (by destruct r).
  destruct (effect_notarization r1 n Hw1 Hn).
  subst r1. destruct r; simpl in *; unfold constant in *.
  split; try done. intros _. right. rewrite ef_notarization0. eauto.
Qed.

Lemma recover_finalization_effect J r f :
  in_sync J r → entry_ok J (AFinalization f) →
  effect r (Some (AFinalization f))
    (Round.add_finalization (r {{ b_finalization := true }}) f).1.
Proof.
  intros Hs He. pose proof (sync_slot _ _ Hs) as Hw.
  set (r1 := r {{ b_finalization := true }}).
  assert (r_finalization r1 = None ∨
    r_finalization r1 = Some f ∧ Slot.agrees (r_slot r1) (fzz_proposal f)) as Hn.
  { subst r1. destruct (r_finalization r) as [c|] eqn:E; [right|left; by destruct r].
    apply (sync_finalization _ _ Hs) in E. pose proof (He _ E) as ->.
    pose proof (sync_fin_slot _ _ Hs _ E). apply (sync_finalization _ _ Hs) in E.
    by destruct r. }
  assert (Slot.wf (r_slot r1)) as Hw1 by (by destruct r).
  destruct (effect_finalization r1 f Hw1 Hn).
  subst r1. destruct r; simpl in *; unfold constant in *. done.
Qed.

Lemma state_certified_total now r n b :
  r_notarization r = Some n → (∀ b', r_certified r = Some b' → b' = b) →
  ∃ r', state_certified now r b = Some r'.
Proof.
  intros Hn Hb. unfold state_certified.
  destruct (certified_agree r b Hb) as (r1 & -> & _ & Hn1). simpl. rewrite Hn1, Hn. eauto.
Qed.

Lemma recover_certification_ok now J r rd b :
  in_sync J r → entry_ok J (ACertification rd b) →
  ∃ r', recover_step now r (ACertification rd b) = Some r' ∧
    effect r (Some (ACertification rd b)) r' ∧ r_slot r' = r_slot r.
Proof.
  intros Hs [[c Hc] He]. pose proof (sync_slot _ _ Hs) as Hw.
  apply (sync_notarization _ _ Hs) in Hc.
  destruct (certified_agree r b) as (r1 & E1 & Hb & Hn1).
  { intros b' Hb'. apply (sync_certified _ _ Hs) in Hb' as [rd' Hb']. eauto. }
  pose proof (effect_certified r rd b r1 Hw E1) as Hef.
  destruct (state_certified_total now r1 c b) as (r2 & E2); [congruence..|].
  destruct (state_certified_effect now r1 rd b r2 (ef_wf _ _ _ Hef) E2) as (Hef2 & Hsl & _).
  exists r2. unfold recover_step. simpl. rewrite E1. split; [done|].
  split; [|rewrite Hsl; unfold Round.certified in E1; destruct r; simpl in *; by repeat case_match; simplify_eq/=].
  destruct Hef, Hef2. split; try congruence; eauto; try done.
  intros H. destruct (ef_broadcast1 H) as [H'|]; [|by right].
  destruct (ef_broadcast0 H') as [|H'']; [by left|right]. by rewrite ef_notarization1.
Qed.

Lemma recover_step_ok now J r a :
  in_sync J r → anchored J r → entry_ok J a →
  ∃ r', recover_step now r a = Some r' ∧ effect r (Some a) r' ∧ anchored (J ++ [a]) r'.
Proof.
  intros Hs Ha He. pose proof (sync_slot _ _ Hs) as Hw.
  pose proof (sync_scheme _ _ Hs) as Hsc.
  assert (∀ r', is_Some (carried a) → anchored (J ++ [a]) r') as Hanch.
  { intros r' [p Hp]. right. exists a, p. split; [set_solver|done]. }
  assert (∀ r', r_slot r' = r_slot r → anchored (J ++ [a]) r') as Hkeep.
  { intros r' E. destruct Ha as [H|(b & p & ? & ?)]; [left; by rewrite E|].
    right. exists b, p. set_solver. }
  destruct a as [n|n|rd b|x|x|f|f].
  - destruct He as (Hm & He'). unfold recover_step. simpl. rewrite is_signer_me by done.
    simpl. eexists. split; [done|]. split; [|by apply Hanch].
    pose proof (replay_notarize_agrees J r n Hs Ha (conj Hm He')) as Hag.
    pose proof (Slot.built_wf (r_slot r) (nt_proposal n) Hw) as Hw'.
    pose proof (λ p, Slot.agrees_built (r_slot r) p (nt_proposal n) Hw) as Hag'.
    destruct r; simpl in *. solve_effect.
  - eexists. split; [done|]. split; [by apply recover_notarization_effect with J|by apply Hanch].
  - destruct (recover_certification_ok now _ _ rd b Hs He) as (r' & E & Hef & Hsl). eauto.
  - destruct He as [Hm _]. unfold recover_step. simpl. rewrite is_signer_me by done.
    eexists. split; [done|]. split; [destruct r; solve_effect|by apply Hkeep; destruct r].
  - eexists. split; [done|]. split; [|apply Hkeep; simpl; unfold Round.add_nullification,
      Round.clear_deadlines; by destruct r; simpl; case_match].
    pose proof (effect_nullification (r {{ b_nullification := true }}) x) as [];
      destruct r; simpl in *; unfold constant in *; done.
  - destruct He as (Hm & _). unfold recover_step. simpl. rewrite is_signer_me by done.
    eexists. split; [done|]. split; [destruct r; solve_effect|by apply Hkeep; destruct r].
  - eexists. split; [done|]. split; [by apply recover_finalization_effect with J|by apply Hanch].
Qed.

Lemma recover_from_snoc now r J a :
  recover_from now r (J ++ [a]) = r ← recover_from now r J; recover_step now r a.
Proof.
  revert r. induction J as [|b J IH]; intros r; simpl; [by destruct (recover_step now r a)|].
  destruct (recover_step now r b); simpl; [apply IH|done].
Qed.

Lemma new_in_sync now : in_sync [] (Round.new scheme rnd now).
Proof. split; simpl; try done; try set_solver. Qed.

(** A well-formed journal is replayed without a panic, into a round that
    remembers every vote in it. *)
Lemma recover_ok now J : journal_ok J → ∃ r, recover now J = Some r ∧ in_sync J r.
Proof.
  intros HJ. enough (∃ r, recover now J = Some r ∧ in_sync J r ∧ anchored J r) by naive_solver.
  induction HJ as [|J a _ (r & E & Hs & Ha) He].
  { eexists. split; [done|]. split; [apply new_in_sync|by left]. }
  destruct (recover_step_ok now J r a Hs Ha He) as (r' & E' & Hef & Ha').
  exists r'. unfold recover in *. rewrite recover_from_snoc, E. split; [done|].
  split; [|done]. by apply (in_sync_effect J r (Some a) r').
Qed.

(** ** What a well-formed journal says about the votes in it *)

Lemma journal_notarize_unique J : journal_ok J →
  ∀ n m, ANotarize n ∈ J → ANotarize m ∈ J → n = m.
Proof.
  induction 1 as [|J a HJ IH He]; intros n m; [set_solver|].
  rewrite !elem_of_app, !list_elem_of_singleton. intros [Hn| <-] [Hm|Hm]; simplify_eq/=; eauto.
  - destruct He as (_ & _ & _ & He & _). by destruct (He n).
  - destruct He as (_ & _ & _ & He & _). by destruct (He m).
Qed.

Lemma journal_nullify_finalize J : journal_ok J →
  ∀ x f, ANullify x ∈ J → AFinalize f ∈ J → False.
Proof.
  induction 1 as [|J a HJ IH He]; intros x f; [set_solver|].
  rewrite !elem_of_app, !list_elem_of_singleton.
  intros [Hx| <-] [Hf|Hf]; simplify_eq/=; eauto.
  - subst. destruct He as (_ & He & _). by destruct (He x).
  - destruct He as (_ & He). by destruct (He f).
Qed.

Lemma journal_finalize J : journal_ok J → ∀ f, AFinalize f ∈ J →
  (∃ n, ANotarize n ∈ J ∧ nt_proposal n = fz_proposal f) ∧
  (∃ c, ANotarization c ∈ J ∧ nz_proposal c = fz_proposal f) ∧
  (∃ r', ACertification r' true ∈ J).
Proof.
  induction 1 as [|J a HJ IH He]; intros f; [set_solver|].
  rewrite elem_of_app, list_elem_of_singleton. intros [Hf| <-].
  - destruct (IH f Hf) as ((n & ? & ?) & (c & ? & ?) & (r' & ?)).
    split_and!; [exists n|exists c|exists r']; set_solver.
  - destruct He as (_ & _ & (n & ? & ?) & (c & ? & ?) & (r' & ?)).
    split_and!; [exists n|exists c|exists r']; set_solver.
Qed.

Lemma journal_votes_mine J : journal_ok J → ∀ a, a ∈ J →
  match a with
  | ANotarize n => me scheme = Some (signer (nt_attestation n))
  | ANullify n => me scheme = Some (signer (nl_attestation n))
  | AFinalize n => me scheme = Some (signer (fz_attestation n))
  | _ => True
  end.
Proof.
  induction 1 as [|J a HJ IH He]; intros b; [set_solver|].
  rewrite elem_of_app, list_elem_of_singleton. intros [Hb| ->]; [by apply IH|].
  destruct a; simpl in He; naive_solver.
Qed.

(** ** Durable votes *)

(** A sent vote is in the journal. *)
Definition recorded (J : list Artifact) (v : Vote) : Prop :=
  match v with
  | VNotarize n => ANotarize n ∈ J
  | VFinalize f => AFinalize f ∈ J
  | VNullify x => ∃ x', ANullify x' ∈ J
  end.

(** What a crash cannot lose. *)
Definition disk (nd : Node) : list Artifact := take (nd_synced nd) (nd_journal nd).

Lemma disk_sync nd : disk (sync_journal nd) = nd_journal nd.
Proof. unfold disk. simpl. by rewrite firstn_all. Qed.

Lemma disk_prefix nd : disk nd `prefix_of` nd_journal nd.
Proof. unfold disk. exists (drop (nd_synced nd) (nd_journal nd)). by rewrite take_drop. Qed.

Lemma disk_app nd J : disk nd `prefix_of` take (nd_synced nd) (nd_journal nd ++ J).
Proof. unfold disk. rewrite take_app. by eexists. Qed.

Lemma prefix_elem (J K : list Artifact) a : J `prefix_of` K → a ∈ J → a ∈ K.
Proof. intros [L ->]. set_solver. Qed.

Lemma recorded_prefix J K v : J `prefix_of` K → recorded J v → recorded K v.
Proof.
  intros Hp. destruct v; simpl; [by apply prefix_elem| |by apply prefix_elem].
  intros [x Hx]. exists x. by eapply prefix_elem.
Qed.

Lemma recorded_journal nd v : recorded (disk nd) v → recorded (nd_journal nd) v.
Proof. apply recorded_prefix, disk_prefix. Qed.

(** ** Events of the running node *)

Hypothesis sign_spec : signs.

Lemma agrees_verified (sl : Slot) p q :
  sl_status sl = StVerified → sl_proposal sl = Some p → Slot.agrees sl q → q = p.
Proof. intros H1 H2 [[_ H]|H]; congruence. Qed.

Lemma verified_some (sl : Slot) : Slot.wf sl → sl_status sl = StVerified → is_Some (sl_proposal sl).
Proof.
  unfold Slot.wf. intros Hw E. destruct (sl_proposal sl); [done|].
  rewrite E in Hw. by destruct Hw as [_ Hw]; specialize (Hw eq_refl).
Qed.

Lemma slot_then_deadline r s : Slot.wf s →
  (∀ p, Slot.agrees (r_slot r) p → Slot.agrees s p) →
  effect r None (r {{ r_slot := s; leader_deadline := None }}).
Proof.
  intros Hw Ha. eapply effect_trans; [by apply effect_slot|].
  apply effect_leader_deadline. by destruct r.
Qed.

Lemma quiet_effect o r r' : Slot.wf (r_slot r) → quiet_round o r = Some r' → effect r None r'.
Proof.
  intros Hw. destruct o; simpl; try done.
  - intros [= <-]. unfold Round.try_propose. case_match; [|by apply effect_refl].
    apply effect_slot; [by apply Slot.set_building_wf|]. by destruct (r_slot r).
  - intros [= <-]. unfold Round.try_verify. case_match; [|by apply effect_refl].
    pose proof (Slot.request_verify_wf _ Hw) as H1.
    pose proof (λ p, Slot.agrees_request_verify (r_slot r) p) as H2.
    destruct (Slot.request_verify (r_slot r)). by apply effect_slot.
  - intros [= <-]. by apply effect_handle.
  - intros [= <-]. by apply effect_handle.
  - unfold Round.set_leader. destruct (participants _ !! _); simpl; [|done].
    intros [= <-]. by apply effect_leader.
  - intros [= <-]. unfold Round.proposed. case_match; [by apply effect_refl|].
    apply slot_then_deadline; [by apply Slot.built_wf|]. intros. by apply Slot.agrees_built.
  - intros [= <-]. unfold Round.verified. case_match; [by apply effect_refl|].
    pose proof (Slot.mark_verified_wf _ Hw) as H1.
    pose proof (λ p, Slot.agrees_mark_verified (r_slot r) p) as H2.
    destruct (Slot.mark_verified (r_slot r)) as [sl []];
      [by apply slot_then_deadline|by apply effect_slot].
  - intros [= <-]. unfold Round.set_proposal. case_match; [by apply effect_refl|].
    pose proof (Slot.update_wf _ p false Hw) as H1.
    pose proof (λ q, Slot.agrees_update (r_slot r) q p false) as H2.
    destruct (Slot.update (r_slot r) p false) as [sl []];
      try (by apply effect_slot); by apply slot_then_deadline.
  - intros [= <-]. by apply effect_deadlines.
  - intros [= <-]. unfold Round.next_timeout_deadline.
    repeat case_match; try (by apply effect_refl); by apply effect_retry.
Qed.

Lemma broadcast_notarization_effect r : Slot.wf (r_slot r) →
  effect r None (Round.broadcast_notarization r).1.
Proof.
  intros. unfold Round.broadcast_notarization.
  repeat case_match; try (by apply effect_refl). apply effect_b_notarization; eauto.
Qed.
Lemma broadcast_nullification_effect r : Slot.wf (r_slot r) →
  effect r None (Round.broadcast_nullification r).1.
Proof.
  intros. unfold Round.broadcast_nullification.
  repeat case_match; try (by apply effect_refl). by apply effect_b_nullification.
Qed.
Lemma broadcast_finalization_effect r : Slot.wf (r_slot r) →
  effect r None (Round.broadcast_finalization r).1.
Proof.
  intros. unfold Round.broadcast_finalization.
  repeat case_match; try (by apply effect_refl). by apply effect_b_finalization.
Qed.

Definition node_ok (r : Round) (J : list Artifact) : Prop := journal_ok J ∧ in_sync J r.

(** A new journal entry that goes with an effect keeps the node well-formed. *)
Lemma node_ok_step r J a r' :
  node_ok r J → entry_ok' J a → effect r a r' → node_ok r' (add_entry J a).
Proof.
  intros [HJ Hs] He Hef. split; [|by eapply in_sync_effect].
  destruct a; simpl in *; [by apply journal_snoc|done].
Qed.

Lemma construct_notarize_ok r J r' p v :
  node_ok r J → Round.construct_notarize r = (r', Some p) →
  Notarize_sign scheme namespace p = Some v →
  entry_ok J (ANotarize v) ∧ effect r (Some (ANotarize v)) r'.
Proof.
  intros [HJ Hs]. simpl in *. unfold Round.construct_notarize, Notarize_sign.
  destruct (b_notarize r) eqn:En; [done|]. destruct (b_nullify r) eqn:El; [done|]. simpl.
  case_decide as Ev; [|done]. intros [= <- Hp]. destruct (sign_spec (SNotarize p)) as (a & -> & Hm).
  intros [= <-]. split.
  - split_and!; simpl; [done|..].
    + intros c Hc. eapply agrees_verified; [done..|]. by eapply sync_cert_slot.
    + intros f Hf. eapply agrees_verified; [done..|]. by eapply sync_fin_slot.
    + intros n' Hn'. apply not_true_iff_false in En. apply En, (sync_notarize _ _ Hs). eauto.
    + intros x Hx. apply not_true_iff_false in El. apply El, (sync_nullify _ _ Hs). eauto.
  - pose proof (sync_slot _ _ Hs). destruct r; simpl in *. solve_effect. by left.
Qed.

Lemma construct_finalize_ok r J r' p v :
  node_ok r J → Round.construct_finalize r = (r', Some p) →
  Finalize_sign scheme namespace p = Some v →
  entry_ok J (AFinalize v) ∧ effect r (Some (AFinalize v)) r'.
Proof.
  intros [HJ Hs]. simpl in *. unfold Round.construct_finalize, Finalize_sign.
  destruct (b_finalize r) eqn:Ef; [done|]. destruct (b_nullify r) eqn:El; [done|]. simpl.
  destruct (b_notarize r) eqn:En; [|done]. destruct (b_notarization r) eqn:Eb; [|done]. simpl.
  case_decide as Ev; [|done]. unfold Round.is_certified. case_bool_decide as Ec; [|done].
  intros [= <- Hp]. destruct (sign_spec (SFinalize p)) as (a & -> & Hm). intros [= <-].
  apply (sync_notarize _ _ Hs) in En as [n Hn].
  destruct (sync_broadcast _ _ Hs Eb) as [c Hc]. apply (sync_notarization _ _ Hs) in Hc.
  apply (sync_certified _ _ Hs) in Ec. split.
  - split_and!; simpl; try done.
    + intros x Hx. apply not_true_iff_false in El. apply El, (sync_nullify _ _ Hs). eauto.
    + exists n. split; [done|]. eapply agrees_verified; [done..|]. by eapply sync_vote_slot.
    + exists c. split; [done|]. eapply agrees_verified; [done..|]. by eapply sync_cert_slot.
  - pose proof (sync_slot _ _ Hs). destruct r; simpl in *. solve_effect.
Qed.

Lemma construct_nullify_ok r J r' retry v :
  node_ok r J → Round.construct_nullify r = (r', Some retry) →
  Nullify_sign scheme namespace rnd = Some v →
  (retry = true ∧ (∃ x, ANullify x ∈ J) ∧ effect r None r') ∨
  (retry = false ∧ entry_ok J (ANullify v) ∧ effect r (Some (ANullify v)) r').
Proof.
  intros [HJ Hs]. simpl in *. unfold Round.construct_nullify, Nullify_sign.
  destruct (b_finalize r) eqn:Ef; [done|]. intros [= <- <-].
  destruct (sign_spec (SNullify rnd)) as (a & -> & Hm). intros [= <-].
  pose proof (sync_slot _ _ Hs) as Hw.
  destruct (b_nullify r) eqn:El; [left|right]; (split; [done|split]).
  - by apply (sync_nullify _ _ Hs) in El.
  - destruct r; simpl in *; subst. solve_effect.
  - split; [done|]. intros f Hf.
    apply not_true_iff_false in Ef. apply Ef, (sync_finalize _ _ Hs). eauto.
  - destruct r; simpl in *. solve_effect.
Qed.

(** ** Steps of the node *)

Definition is_vote (a : Artifact) : bool :=
  match a with ANotarize _ | ANullify _ | AFinalize _ => true | _ => false end.

Definition good (nd : Node) : Prop :=
  node_ok (nd_round nd) (nd_journal nd) ∧
  ∀ a, a ∈ nd_journal nd → is_vote a = true → a ∈ disk nd.

Record step_ok (nd nd' : Node) (out : option Vote) : Prop := {
  so_good : good nd';
  so_disk : disk nd `prefix_of` disk nd';
  so_sent v : out = Some v → recorded (disk nd') v;
}.

Lemma step_trans nd1 nd2 nd3 out :
  step_ok nd1 nd2 None → step_ok nd2 nd3 out → step_ok nd1 nd3 out.
Proof. intros [] []. split; [done| |done]. by etrans. Qed.

Lemma step_quiet nd r' : good nd → effect (nd_round nd) None r' → step_ok nd (set_round nd r') None.
Proof.
  intros [Hn Hd] He. split; [split|done|done]; [|done].
  by apply (node_ok_step (nd_round nd) (nd_journal nd) None r').
Qed.

Lemma step_append nd r' a :
  good nd → entry_ok (nd_journal nd) a → effect (nd_round nd) (Some a) r' → is_vote a = false →
  step_ok nd (append_journal (set_round nd r') a) None.
Proof.
  intros [Hn Hd] He Hef Hv. split; [split|apply (disk_app nd [a])|done].
  - by apply (node_ok_step (nd_round nd) (nd_journal nd) (Some a) r').
  - intros b [Hb| ->%list_elem_of_singleton]%elem_of_app Hb'; [|congruence].
    eapply prefix_elem; [apply (disk_app nd [a])|by apply Hd].
Qed.

Lemma step_sync nd : good nd → step_ok nd (sync_journal nd) None.
Proof.
  intros [Hn Hd]. split; [split; [done|]| |done].
  - intros a Ha _. by rewrite disk_sync.
  - rewrite disk_sync. apply disk_prefix.
Qed.

Lemma step_append_sync nd r' a out :
  good nd → entry_ok (nd_journal nd) a → effect (nd_round nd) (Some a) r' →
  (∀ v, out = Some v → recorded (nd_journal nd ++ [a]) v) →
  step_ok nd (sync_journal (append_journal (set_round nd r') a)) out.
Proof.
  intros [Hn Hd] He Hef Hv. split; [split|..].
  - by apply (node_ok_step (nd_round nd) (nd_journal nd) (Some a) r').
  - intros b Hb _. by rewrite disk_sync.
  - rewrite disk_sync. simpl. etrans; [apply disk_prefix|by eexists].
  - intros v Hv'. rewrite disk_sync. by apply Hv.
Qed.
Hint Resolve step_quiet step_append step_sync step_append_sync effect_refl : cw.

Lemma good_slot nd : good nd → Slot.wf (r_slot (nd_round nd)).
Proof. intros [[_ Hs] _]. apply Hs. Qed.
Hint Resolve good_slot : cw.

Lemma handle_notarization_ok nd n : good nd → step_ok nd (handle_notarization nd n) None.
Proof.
  intros H. pose proof (good_slot _ H) as Hw. pose proof (proj2 (proj1 H)) as Hs.
  pose proof (effect_notarization (nd_round nd) n Hw) as Hef. revert Hef.
  unfold handle_notarization, Round.add_notarization. destruct (r_notarization _) eqn:E.
  - intros _. auto with cw.
  - destruct (Round.add_recovered_proposal _ _) as [r1 e1]. intros Hef.
    apply step_append; [done| |by apply Hef; left|done].
    intros c Hc. apply (sync_notarization _ _ Hs) in Hc. congruence.
Qed.

Lemma handle_finalization_ok nd f : good nd → step_ok nd (handle_finalization nd f) None.
Proof.
  intros H. pose proof (good_slot _ H) as Hw. pose proof (proj2 (proj1 H)) as Hs.
  pose proof (effect_finalization (nd_round nd) f Hw) as Hef. revert Hef.
  unfold handle_finalization, Round.add_finalization. destruct (r_finalization _) eqn:E.
  - intros _. auto with cw.
  - destruct (Round.add_recovered_proposal _ _) as [r1 e1]. intros Hef.
    apply step_append; [done| |by apply Hef; left|done].
    intros c Hc. apply (sync_finalization _ _ Hs) in Hc. congruence.
Qed.

Lemma handle_nullification_ok nd x : good nd → step_ok nd (handle_nullification nd x) None.
Proof.
  intros H. pose proof (effect_nullification (nd_round nd) x (good_slot _ H)) as Hef. revert Hef.
  unfold handle_nullification, Round.add_nullification. destruct (r_nullification _) eqn:E;
    intros Hef; simpl in *; [auto with cw|by apply step_append].
Qed.

Lemma handle_certification_ok now nd b nd' :
  good nd → handle_certification now nd b = Some nd' → step_ok nd nd' None.
Proof.
  intros H. pose proof (good_slot _ H) as Hw. pose proof (proj2 (proj1 H)) as Hs.
  unfold handle_certification. destruct (state_certified _ _ _) as [r'|] eqn:E; simpl; [|done].
  intros [= <-]. destruct (state_certified_effect now _ rnd b r' Hw E) as (Hef & _ & [n Hn]).
  apply step_append_sync; [done| |done|done]. split.
  - exists n. by apply (sync_notarization _ _ Hs).
  - intros r1 b1 H1. assert (r_certified (nd_round nd) = Some b1) as Hc
      by (apply (sync_certified _ _ Hs); eauto).
    unfold state_certified, Round.certified in E. rewrite Hc in E. by destruct b1, b.
Qed.

Lemma try_broadcast_notarization_ok nd :
  good nd → step_ok nd (try_broadcast_notarization nd) None.
Proof.
  intros H. pose proof (broadcast_notarization_effect _ (good_slot _ H)) as Hef.
  unfold try_broadcast_notarization.
  destruct (Round.broadcast_notarization _) as [r [n|]]; simpl in *; [|auto with cw].
  eapply step_trans; [by apply step_quiet|]. eapply step_trans; [|apply step_sync];
    apply handle_notarization_ok; by eapply so_good, step_quiet.
Qed.
Lemma try_broadcast_nullification_ok nd :
  good nd → step_ok nd (try_broadcast_nullification nd) None.
Proof.
  intros H. pose proof (broadcast_nullification_effect _ (good_slot _ H)) as Hef.
  unfold try_broadcast_nullification.
  destruct (Round.broadcast_nullification _) as [r [n|]]; simpl in *; [|auto with cw].
  eapply step_trans; [by apply step_quiet|]. eapply step_trans; [|apply step_sync];
    apply handle_nullification_ok; by eapply so_good, step_quiet.
Qed.
Lemma try_broadcast_finalization_ok nd :
  good nd → step_ok nd (try_broadcast_finalization nd) None.
Proof.
  intros H. pose proof (broadcast_finalization_effect _ (good_slot _ H)) as Hef.
  unfold try_broadcast_finalization.
  destruct (Round.broadcast_finalization _) as [r [n|]]; simpl in *; [|auto with cw].
  eapply step_trans; [by apply step_quiet|]. eapply step_trans; [|apply step_sync];
    apply handle_finalization_ok; by eapply so_good, step_quiet.
Qed.

Lemma handle_timeout_ok nd :
  good nd → step_ok nd (handle_timeout nd).1 (handle_timeout nd).2.
Proof.
  intros H. pose proof (good_slot _ H) as Hw. pose proof (proj1 H) as Hn. unfold handle_timeout.
  destruct (Round.construct_nullify _) as [r' [retry|]] eqn:Ec.
  - destruct (Nullify_sign scheme namespace rnd) as [v|] eqn:Hsg.
    + destruct (construct_nullify_ok _ _ r' retry _ Hn Ec Hsg)
        as [(-> & [x Hx] & Hef)|(-> & He & Hef)]; simpl.
      * destruct (step_quiet nd r' H Hef). split; [done..|]. intros ? [= <-].
        exists x. by apply so_good0.
      * apply step_append_sync; [done..|]. intros ? [= <-]. exists v. set_solver.
    + exfalso. unfold Nullify_sign in Hsg. destruct (sign_spec (SNullify rnd)) as (a & Ha & _).
      by rewrite Ha in Hsg.
  - unfold Round.construct_nullify in Ec. case_match; simplify_eq. simpl. auto with cw.
Qed.

Lemma try_broadcast_notarize_ok nd :
  good nd → step_ok nd (try_broadcast_notarize nd).1 (try_broadcast_notarize nd).2.
Proof.
  intros H. pose proof (good_slot _ H) as Hw. pose proof (proj1 H) as Hn.
  unfold try_broadcast_notarize.
  destruct (Round.construct_notarize _) as [r' [p|]] eqn:Ec; simpl.
  - destruct (Notarize_sign scheme namespace p) as [v|] eqn:Hsg; simpl.
    + destruct (construct_notarize_ok _ _ r' p _ Hn Ec Hsg) as [He Hef].
      apply step_append_sync; [done..|]. intros ? [= <-]. simpl. set_solver.
    + exfalso. unfold Notarize_sign in Hsg. destruct (sign_spec (SNotarize p)) as (a & Ha & _).
      by rewrite Ha in Hsg.
  - unfold Round.construct_notarize in Ec. repeat case_match; simplify_eq; auto with cw.
    destruct (verified_some _ Hw ltac:(done)) as [? Hsome]. congruence.
Qed.

Lemma try_broadcast_finalize_ok nd :
  good nd → step_ok nd (try_broadcast_finalize nd).1 (try_broadcast_finalize nd).2.
Proof.
  intros H. pose proof (good_slot _ H) as Hw. pose proof (proj1 H) as Hn.
  unfold try_broadcast_finalize.
  destruct (Round.construct_finalize _) as [r' [p|]] eqn:Ec; simpl.
  - destruct (Finalize_sign scheme namespace p) as [v|] eqn:Hsg; simpl.
    + destruct (construct_finalize_ok _ _ r' p _ Hn Ec Hsg) as [He Hef].
      apply step_append_sync; [done..|]. intros ? [= <-]. simpl. set_solver.
    + exfalso. unfold Finalize_sign in Hsg. destruct (sign_spec (SFinalize p)) as (a & Ha & _).
      by rewrite Ha in Hsg.
  - unfold Round.construct_finalize in Ec. repeat case_match; simplify_eq; auto with cw.
    destruct (verified_some _ Hw ltac:(done)) as [? Hsome]. congruence.
Qed.

Lemma journal_ok_prefix J K : journal_ok (J ++ K) → journal_ok J.
Proof.
  induction K as [|a K IH] using rev_ind; [by rewrite app_nil_r|].
  rewrite app_assoc. intros H. apply IH. inversion H as [E|? ? ? ? E].
  - by destruct (J ++ K).
  - by apply app_inj_tail in E as [-> _].
Qed.

Lemma restart_ok nd J now kept : journal_ok J → disk nd `prefix_of` J →
  ∃ nd', restart now kept (nd_synced nd) J = Some nd' ∧ step_ok nd nd' None.
Proof.
  intros HJ Hp. unfold restart. set (J' := take _ J).
  assert (journal_ok J') as HJ'.
  { apply (journal_ok_prefix _ (drop (max (nd_synced nd) kept) J)). unfold J'. by rewrite take_drop. }
  destruct (recover_ok now J' HJ') as (r & -> & Hs). eexists. split; [done|].
  assert (disk (mkNode r J' (length J')) = J') as Hd by (unfold disk; simpl; apply firstn_all).
  split; [split; [done|by rewrite Hd]| |done]. rewrite Hd. destruct Hp as [K ->]. subst J'.
  rewrite take_app_ge; [by eexists|]. unfold disk. rewrite length_take. lia.
Qed.

Lemma quiet_exec_ok o nd nd' out :
  good nd → (r ← quiet_round o (nd_round nd); Some (set_round nd r, None)) = Some (nd', out) →
  step_ok nd nd' out.
Proof.
  intros H. destruct (quiet_round o _) as [r|] eqn:E; simpl; [|done].
  intros [= <- <-]. apply step_quiet; [done|]. eapply quiet_effect; [by apply good_slot|done].
Qed.

Lemma exec_ok o nd nd' out : good nd → exec o nd = Some (nd', out) → step_ok nd nd' out.
Proof.
  revert nd nd' out. induction o; intros nd nd' out H;
    try (match goal with |- exec ?o _ = _ → _ => exact (quiet_exec_ok o nd nd' out H) end);
    simpl.
  - intros [= <- <-]. by apply handle_notarization_ok.
  - intros [= <- <-]. by apply handle_nullification_ok.
  - intros [= <- <-]. by apply handle_finalization_ok.
  - destruct (handle_certification _ _ _) eqn:E; simpl; [|done]. intros [= <- <-].
    by eapply handle_certification_ok.
  - intros [= <- <-]. by apply try_broadcast_notarization_ok.
  - intros [= <- <-]. by apply try_broadcast_nullification_ok.
  - intros [= <- <-]. by apply try_broadcast_finalization_ok.
  - pose proof (handle_timeout_ok nd H). destruct (handle_timeout nd). by intros [= <- <-].
  - pose proof (try_broadcast_notarize_ok nd H). destruct (try_broadcast_notarize nd).
    by intros [= <- <-].
  - pose proof (try_broadcast_finalize_ok nd H). destruct (try_broadcast_finalize nd).
    by intros [= <- <-].
  - destruct (restart_ok nd (nd_journal nd) now kept (proj1 (proj1 H)) (disk_prefix nd))
      as (nd1 & -> & Hok). by intros [= <- <-].
  - destruct (exec o nd) as [[nd1 o1]|] eqn:E; simpl; [|done].
    pose proof (IHo _ _ _ H E) as [Hg Hd _].
    destruct (restart_ok nd (nd_journal nd1) now kept (proj1 (proj1 Hg))) as (nd2 & -> & Hok).
    { etrans; [done|apply disk_prefix]. }
    by intros [= <- <-].
Qed.

Lemma run_ok ops : ∀ nd sent nd' sent',
  good nd → (∀ v, v ∈ sent → recorded (disk nd) v) →
  run ops nd sent = Some (nd', sent') →
  good nd' ∧ (∀ v, v ∈ sent' → recorded (disk nd') v).
Proof.
  induction ops as [|o ops IH]; intros nd sent nd' sent' H Hs; simpl; [by intros [= <- <-]|].
  destruct (exec o nd) as [[nd1 out]|] eqn:E; simpl; [|done].
  destruct (exec_ok _ _ _ _ H E) as [Hg Hd Hv]. apply IH; [done|].
  intros v [Hv'|Hv']%elem_of_app; [eapply recorded_prefix; eauto|].
  apply Hv. by destruct out; set_solver.
Qed.

Lemma init_good now : good (init now).
Proof.
  split; [split; [constructor|apply new_in_sync]|]. simpl. set_solver.
Qed.

Lemma run_init ops now nd sent :
  run ops (init now) [] = Some (nd, sent) →
  good nd ∧ ∀ v, v ∈ sent → recorded (disk nd) v.
Proof. intros H. eapply run_ok; [apply init_good| |done]. set_solver. Qed.

(** The journal of a run is well-formed and holds every vote sent. *)
Lemma run_journal ops now nd sent :
  run ops (init now) [] = Some (nd, sent) →
  journal_ok (nd_journal nd) ∧ ∀ v, v ∈ sent → recorded (nd_journal nd) v.
Proof.
  intros H. apply run_init in H as [[[HJ _] _] Hr]. split; [done|].
  intros v Hv. by apply recorded_journal, Hr.
Qed.

(** in one view, across any sequence of events and crashes (including
    crashes in the middle of a handler that lose unsynced journal entries), a
    node sends notarize votes for at most one proposal. *)
Theorem notarize_votes_agree ops now nd sent n m :
  run ops (init now) [] = Some (nd, sent) →
  VNotarize n ∈ sent → VNotarize m ∈ sent → n = m.
Proof.
  intros H Hn Hm. apply run_journal in H as [HJ Hr].
  exact (journal_notarize_unique _ HJ n m (Hr _ Hn) (Hr _ Hm)).
Qed.

(** C18: in one view, across any sequence of events and crashes, a node that
    sends a finalize vote never sends a nullify vote. *)
Theorem never_nullify_and_finalize ops now nd sent f :
  run ops (init now) [] = Some (nd, sent) →
  VFinalize f ∈ sent → ∀ x, VNullify x ∉ sent.
Proof.
  intros H Hf x Hx. apply run_journal in H as [HJ Hr].
  destruct (Hr _ Hx) as [x' Hx']. exact (journal_nullify_finalize _ HJ x' f Hx' (Hr _ Hf)).
Qed.

(** a sent finalize vote is for the proposal the node voted to notarize,
    for which it holds a notarization certificate and a successful
    certification, all of them in its journal; so two sent finalize votes, and
    a sent notarize and a sent finalize vote, are for the same proposal. *)
Theorem finalize_votes_justified ops now nd sent f :
  run ops (init now) [] = Some (nd, sent) → VFinalize f ∈ sent →
  (∃ n, ANotarize n ∈ nd_journal nd ∧ nt_proposal n = fz_proposal f) ∧
  (∃ c, ANotarization c ∈ nd_journal nd ∧ nz_proposal c = fz_proposal f) ∧
  (∃ r, ACertification r true ∈ nd_journal nd) ∧
  (∀ n, VNotarize n ∈ sent → nt_proposal n = fz_proposal f) ∧
  (∀ g, VFinalize g ∈ sent → fz_proposal g = fz_proposal f).
Proof.
  intros H Hf. apply run_journal in H as [HJ Hr'].
  destruct (journal_finalize _ HJ f (Hr' _ Hf)) as ((n & Hn & E) & Hc & Hcert).
  split_and!; [by eauto|done|done|..].
  - intros m Hm. by rewrite <- E, (journal_notarize_unique _ HJ n m Hn (Hr' _ Hm)).
  - intros g Hg. destruct (journal_finalize _ HJ g (Hr' _ Hg)) as ((m & Hm & E') & _).
    by rewrite <- E', <- E, (journal_notarize_unique _ HJ n m Hn Hm).
Qed.

(** a node can be restarted after any sequence of events: whatever part of
    the unsynced journal a crash loses, replaying the rest does not panic, and
    every vote sent before is still in the journal. *)
Theorem restart_recovers ops now nd sent now' kept :
  run ops (init now) [] = Some (nd, sent) →
  ∃ nd', exec (OCrash now' kept) nd = Some (nd', None) ∧
    ∀ v, v ∈ sent → recorded (nd_journal nd') v.
Proof.
  intros H. apply run_init in H as [Hg Hr].
  destruct (restart_ok nd (nd_journal nd) now' kept (proj1 (proj1 Hg)) (disk_prefix nd))
    as (nd' & E & [_ Hd _]).
  exists nd'. simpl. rewrite E. split; [done|]. intros v Hv.
  eapply recorded_journal, recorded_prefix; [done|by apply Hr].
Qed.
End Journal.

(** ** Evaluation on a concrete node *)

Section Witness.
Import Fixtures.

Definition demo_proposal : Proposal := proposal 5 77.
Definition demo_notarize : Notarize := mkNotarize demo_proposal (mkAttestation 0 5).
Definition demo_finalize : Finalize := mkFinalize demo_proposal (mkAttestation 0 5).

(** A leader's proposal is verified and voted for; the node crashes, a
    notarization arrives and is certified, the node crashes again in the middle
    of the finalize vote and then votes once more. *)
Definition demo_ops : list Op :=
  [OSetLeader 1; OSetProposal demo_proposal; OTryVerify; OVerified; OVoteNotarize; OCrash 3 0;
   OVoteNotarize; ONotarization (mkNotarization demo_proposal []); OBroadcastNotarization;
   OCertified 4 true; OCrashIn OVoteFinalize 5 0; OVoteFinalize; OTimeout; OCrash 9 0].

Definition demo_run : option (Node * list Vote) := run (scheme 0) [] (rnd 5) demo_ops
  (init (scheme 0) (rnd 5) 0) [].

Definition demo_votes : list Vote := [VNotarize demo_notarize; VFinalize demo_finalize].

Lemma demo_sent : ∃ nd, demo_run = Some (nd, demo_votes).
Proof. eexists. vm_compute. reflexivity. Qed.
Lemma demo_notarize_sent : VNotarize demo_notarize ∈ demo_votes.
Proof. apply list_elem_of_here. Qed.
Lemma demo_finalize_sent : VFinalize demo_finalize ∈ demo_votes.
Proof. right. apply list_elem_of_here. Qed.

Lemma notarize_votes_agree_witness : demo_notarize = demo_notarize.
Proof.
  destruct demo_sent as [nd E].
  exact (notarize_votes_agree (scheme 0) [] (rnd 5) (sign_as_me 0 []) demo_ops 0 nd
    demo_votes _ _ E demo_notarize_sent demo_notarize_sent).
Defined.

Lemma never_nullify_and_finalize_witness :
  VFinalize demo_finalize ∈ demo_votes ∧ ∀ x, VNullify x ∉ demo_votes.
Proof.
  destruct demo_sent as [nd E]. split; [apply demo_finalize_sent|].
  exact (never_nullify_and_finalize (scheme 0) [] (rnd 5) (sign_as_me 0 []) demo_ops 0 nd
    demo_votes _ E demo_finalize_sent).
Defined.

Lemma finalize_votes_justified_witness :
  VFinalize demo_finalize ∈ demo_votes ∧
  ∀ n, VNotarize n ∈ demo_votes → nt_proposal n = demo_proposal.
Proof.
  destruct demo_sent as [nd E]. split; [apply demo_finalize_sent|].
  exact (proj1 (proj2 (proj2 (proj2 (finalize_votes_justified (scheme 0) [] (rnd 5)
    (sign_as_me 0 []) demo_ops 0 nd demo_votes _ E demo_finalize_sent))))).
Defined.

Lemma restart_recovers_witness : ∃ nd nd',
  exec (scheme 0) [] (rnd 5) (OCrash 20 1) nd = Some (nd', None) ∧
  ∀ v, v ∈ demo_votes → recorded (nd_journal nd') v.
Proof.
  destruct demo_sent as [nd E]. exists nd.
  exact (restart_recovers (scheme 0) [] (rnd 5) (sign_as_me 0 []) demo_ops 0 nd
    demo_votes 20 1 E).
Defined.
End Witness.
End VoterJournal.
