(* ===== verification/VoterState.v ===== *)
(** * The voter's state machine of one epoch
      (consensus/src/simplex/actors/voter/state.rs)

    A [State] holds a [Round] per tracked view.  The operations are the methods
    of the code; the clock is the argument [now], read once per call.  [None] is
    a panic.  The leader elector is a field, as the code is generic in it.  The
    metrics gauges are left out. *)

From S2P Require Import Prelude Codec ConsensusTypes SimplexTypes VoterSlot VoterRound Fixtures.

Section StateData.
Context {T : Types}.

Record State : Type := mkState {
  st_scheme : Scheme;
  elector : Rnd → option Certificate → Z;
  st_namespace : bytes;
  epoch : Z;
  activity_timeout : Z;
  leader_timeout : Z;
  notarization_timeout : Z;
  st_nullify_retry : Z;
  view : Z;
  last_finalized : Z;
  genesis : option Digest;
  views : gmap Z Round;
}.
End StateData.

Module VoterState.
Section Ops.
Context {T : Types}.
Implicit Types st : State.
Implicit Types v : Z.

Definition GENESIS_VIEW : Z := View.zero.

Definition new (scheme : Scheme) (elector : Rnd → option Certificate → Z) (namespace : bytes)
    (epoch activity_timeout leader_timeout notarization_timeout nullify_retry : Z) : State :=
  mkState scheme elector namespace epoch activity_timeout leader_timeout notarization_timeout
    nullify_retry GENESIS_VIEW GENESIS_VIEW None ∅.

Definition put st v (r : Round) : State := st {{ views := <[v := r]> (views st) }}.

(** [create_round]: the round of [v], a new one when there is none. *)
Definition entry (now : Z) st v : Round :=
  default (Round.new (st_scheme st) (mkRnd (epoch st) v) now) (views st !! v).
Definition create_round (now : Z) st v : State := put st v (entry now st v).

Definition enter_view (now : Z) st v : State * bool :=
  if v <=? view st then (st, false)
  else
    let round := Round.set_deadlines (entry now st v)
                   (now + leader_timeout st) (now + notarization_timeout st) in
    ((put st v round) {{ view := v }}, true).

Definition set_leader (now : Z) st v (certificate : option Certificate) : option State :=
  let leader := elector st (mkRnd (epoch st) v) certificate in
  let round := entry now st v in
  match r_leader round with
  | Some _ => Some (put st v round)
  | None => round ← Round.set_leader round leader; Some (put st v round)
  end.

Definition set_genesis (now : Z) st (g : Digest) : option State :=
  let st := st {{ genesis := Some g }} in
  first ← View.next GENESIS_VIEW;
  let st := (enter_view now st first).1 in
  set_leader now st first None.

Definition min_active st : Z := ConsensusTypes.min_active (activity_timeout st) (last_finalized st).
Definition is_interesting st (pending : Z) (allow_future : bool) : option bool :=
  interesting (activity_timeout st) (last_finalized st) (view st) pending allow_future.
Definition is_me st (idx : Z) : bool :=
  match me (st_scheme st) with Some me => me =? idx | None => false end.

Definition next_timeout_deadline (now : Z) st : State * Z :=
  let '(round, d) := Round.next_timeout_deadline (entry now st (view st)) now (st_nullify_retry st) in
  (put st (view st) round, d).

Definition notarization st v : option Notarization := views st !! v ≫= r_notarization.
Definition nullification st v : option Nullification := views st !! v ≫= r_nullification.
Definition finalization st v : option Finalization := views st !! v ≫= r_finalization.

Definition handle_timeout (now : Z) st : State * (bool * option Nullify * option Cert) :=
  let v := view st in
  let '(round, retry) := Round.construct_nullify (entry now st v) in
  let st := put st v round in
  match retry with
  | None => (st, (false, None, None))
  | Some retry =>
      let nullify := Nullify_sign (st_scheme st) (st_namespace st) (mkRnd (epoch st) v) in
      let entry_view := default GENESIS_VIEW (View.previous v) in
      if negb retry || (entry_view =? GENESIS_VIEW) then (st, (retry, nullify, None))
      else
        let cert :=
          match finalization st entry_view, nullification st entry_view,
                notarization st entry_view with
          | Some f, _, _ => Some (CFinalization f)
          | None, Some n, _ => Some (CNullification n)
          | None, None, Some n => Some (CNotarization n)
          | None, None, None => None
          end in
        (st, (retry, nullify, cert))
  end.

Definition add_notarization (now : Z) st (n : Notarization)
    : option (State * (bool * option PublicKey)) :=
  let v := proposal_view (nz_proposal n) in
  next ← View.next v;
  st ← set_leader now st next (Some (nz_certificate n));
  let '(round, res) := Round.add_notarization (entry now st v) n in
  Some (put st v round, res).

Definition add_nullification (now : Z) st (n : Nullification) : option (State * bool) :=
  let v := rnd_view (nlz_round n) in
  next ← View.next v;
  let st := (enter_view now st next).1 in
  st ← set_leader now st next (Some (nlz_certificate n));
  let '(round, res) := Round.add_nullification (entry now st v) n in
  Some (put st v round, res).

Definition add_finalization (now : Z) st (f : Finalization)
    : option (State * (bool * option PublicKey)) :=
  let v := proposal_view (fzz_proposal f) in
  let st := if last_finalized st <? v then st {{ last_finalized := v }} else st in
  next ← View.next v;
  let st := (enter_view now st next).1 in
  st ← set_leader now st next (Some (fzz_certificate f));
  let '(round, res) := Round.add_finalization (entry now st v) f in
  Some (put st v round, res).

(** [views.get_mut(&v).and_then(f)]. *)
Definition on_round {A} st v (f : Round → Round * option A) : State * option A :=
  match views st !! v with
  | None => (st, None)
  | Some r => let '(r, a) := f r in (put st v r, a)
  end.

Definition construct_notarize st v : State * option Notarize :=
  let '(st, candidate) := on_round st v Round.construct_notarize in
  (st, p ← candidate; Notarize_sign (st_scheme st) (st_namespace st) p).
Definition construct_finalize st v : State * option Finalize :=
  let '(st, candidate) := on_round st v Round.construct_finalize in
  (st, p ← candidate; Finalize_sign (st_scheme st) (st_namespace st) p).
Definition broadcast_notarization st v : State * option Notarization :=
  on_round st v Round.broadcast_notarization.
Definition broadcast_nullification st v : State * option Nullification :=
  on_round st v Round.broadcast_nullification.
Definition broadcast_finalization st v : State * option Finalization :=
  on_round st v Round.broadcast_finalization.

Definition replay (now : Z) st (a : Artifact) : option State :=
  let v := artifact_view a in
  round ← Round.replay (entry now st v) a; Some (put st v round).

Definition leader_index st v : option Z :=
  round ← views st !! v; ld_idx <$> r_leader round.
Definition elapsed_since_start (now : Z) st v : option Z :=
  (λ round, Round.elapsed_since_start round now) <$> views st !! v.

Definition expire_round (now : Z) st v : State :=
  put st v (Round.set_deadlines (entry now st v) now now).

(** The payload of a certified or finalized view; the outer option is [None]
    when an [expect] fails. *)
Definition is_certified st v : option (option Digest) :=
  if v =? GENESIS_VIEW then g ← genesis st; Some (Some g)
  else
    match views st !! v with
    | None => Some None
    | Some round =>
        if bool_decide (is_Some (r_finalization round)) || Round.is_certified round
        then p ← sl_proposal (r_slot round); Some (Some (payload p))
        else Some None
    end.

Definition is_nullified st v : bool :=
  if v =? GENESIS_VIEW then false
  else match views st !! v with
       | Some round => bool_decide (is_Some (r_nullification round))
       | None => false
       end.

(** The loop of [find_parent]; the cursor decreases, so [fuel] above the cursor
    is enough. *)
Fixpoint find_parent_loop (fuel : nat) st (cursor : Z) : outcome Z (Z * Digest) :=
  match fuel with
  | O => Panic
  | S fuel =>
      let? certified := expect (is_certified st cursor) in
      match certified with
      | Some parent => Ok (cursor, parent)
      | None =>
          if negb (is_nullified st cursor) then Err cursor
          else let? cursor := expect (View.previous cursor) in find_parent_loop fuel st cursor
      end
  end.
Definition find_parent st v : outcome Z (Z * Digest) :=
  let cursor := default GENESIS_VIEW (View.previous v) in
  find_parent_loop (S (Z.to_nat cursor)) st cursor.

Definition parent_payload st (proposal : Proposal) : option (option Digest) :=
  let v := proposal_view proposal in
  let parent := parent proposal in
  if v <=? parent then Some None
  else if parent <? last_finalized st then Some None
  else
    next ← View.next parent;
    if negb (forallb (is_nullified st) (View.range next v)) then Some None
    else is_certified st parent.

Definition try_propose st : option (State * option Context_) :=
  let v := view st in
  if v =? GENESIS_VIEW then Some (st, None)
  else
    round ← views st !! v;
    if negb (Round.should_propose round) then Some (st, None)
    else
      match find_parent st v with
      | Panic => None
      | Err _ => Some (st, None)
      | Ok (parent_view, parent_payload) =>
          let '(round, leader) := Round.try_propose round in
          Some (put st v round,
                leader ← leader;
                Some (mkContext (mkRnd (epoch st) v) (ld_key leader) (parent_view, parent_payload)))
      end.

Definition proposed st (p : Proposal) : State * bool :=
  let '(st, b) := on_round st (proposal_view p) (λ r, let '(r, b) := Round.proposed r p in (r, Some b)) in
  (st, default false b).
Definition set_proposal (now : Z) st v (p : Proposal) : State * bool :=
  let '(round, b) := Round.set_proposal (entry now st v) p in (put st v round, b).

Definition try_verify st : option (State * option (Context_ * Proposal)) :=
  let v := view st in
  match views st !! v ≫= Round.should_verify, views st !! v with
  | Some (leader, proposal), Some round =>
      payload ← parent_payload st proposal;
      match payload with
      | None => Some (st, None)
      | Some payload =>
          let '(round, ok) := Round.try_verify round in
          Some (put st v round,
                if ok : bool then
                  Some (mkContext (SimplexTypes.round proposal) (ld_key leader) (parent proposal, payload),
                        proposal)
                else None)
      end
  | _, _ => Some (st, None)
  end.

Definition verified st v : State * bool :=
  let '(st, b) := on_round st v (λ r, let '(r, b) := Round.verified r in (r, Some b)) in
  (st, default false b).

Definition try_certify st v : CertifyResult Proposal :=
  match views st !! v with None => CrSkip | Some round => Round.should_certify round end.
Definition set_certify_handle st v (h : Z) : State :=
  match views st !! v with
  | None => st
  | Some round => put st v (Round.set_certify_handle round h)
  end.
Definition retry_certification st v : State :=
  match views st !! v with
  | None => st
  | Some round => put st v (Round.unset_certify_handle round)
  end.

Definition certified (now : Z) st v (is_success : bool) : option (State * option Notarization) :=
  match views st !! v with
  | None => Some (st, None)
  | Some round =>
      round ← Round.certified round is_success;
      let st := put st v round in
      n ← r_notarization round;
      if is_success then
        next ← View.next v; Some ((enter_view now st next).1, Some n)
      else Some (expire_round now st v, Some n)
  end.

(** [split_off] at the activity horizon; the dropped views come out in
    ascending order. *)
Definition prune st : State * list Z :=
  let min := min_active st in
  let kept := filter (λ kv, min ≤ kv.1) (views st) in
  let removed := filter (λ kv, ¬ min ≤ kv.1) (views st) in
  (st {{ views := kept }}, merge_sort Z.le (map_to_list removed).*1).

Definition parent_certificate st v : option Cert :=
  round ← views st !! v;
  p ← sl_proposal (r_slot round);
  parent ← views st !! parent p;
  match r_finalization parent, r_notarization parent with
  | Some f, _ => Some (CFinalization f)
  | None, Some n => Some (CNotarization n)
  | None, None => None
  end.
End Ops.
End VoterState.
