(* ===== verification/VoterStateSpec.v ===== *)
(** * Invariant of the voter's state and its parent search

    [round_le] and [st_le] say how a round and a state can change: certificates,
    certification results and proposals are never lost and views never decrease.
    The invariant [wf] makes every [expect] of the state machine succeed, and
    [find_parent] and [parent_payload] do what their comments promise. *)

From S2P Require Import Prelude Codec ConsensusTypes SimplexTypes VoterSlot VoterRound VoterState Fixtures.
Import VoterState.

Module VoterStateSpec.
Section Spec.
Context {T : Types}.
Implicit Types st : State.
Implicit Types r : Round.
Implicit Types v : Z.

(** ** Rounds *)

Record round_ok (r : Round) : Prop := {
  ro_slot : Slot.wf (r_slot r);
  ro_notarization : is_Some (r_notarization r) → is_Some (sl_proposal (r_slot r));
  ro_finalization : is_Some (r_finalization r) → is_Some (sl_proposal (r_slot r));
  ro_certified : is_Some (r_certified r) → is_Some (r_notarization r);
}.

Record round_le (r r' : Round) : Prop := {
  rl_slot : is_Some (sl_proposal (r_slot r)) → is_Some (sl_proposal (r_slot r'));
  rl_notarization n : r_notarization r = Some n → r_notarization r' = Some n;
  rl_nullification n : r_nullification r = Some n → r_nullification r' = Some n;
  rl_finalization f : r_finalization r = Some f → r_finalization r' = Some f;
  rl_certified b : r_certified r = Some b → r_certified r' = Some b;
  rl_ok : round_ok r → round_ok r';
}.

#[global] Instance round_le_preorder : PreOrder round_le.
Proof.
  split; [by intros r; split|]. intros r1 r2 r3 [] []. split; auto.
Qed.

(** A change of fields that no certificate depends on. *)
Lemma round_le_same r r' :
  (Slot.wf (r_slot r) → Slot.wf (r_slot r')) →
  (is_Some (sl_proposal (r_slot r)) → is_Some (sl_proposal (r_slot r'))) →
  r_notarization r' = r_notarization r → r_nullification r' = r_nullification r →
  r_finalization r' = r_finalization r → r_certified r' = r_certified r → round_le r r'.
Proof.
  intros H0 H1 H2 H3 H4 H5. split; try congruence; [done|].
  intros []. split; rewrite ?H2, ?H4, ?H5; auto.
Qed.

Ltac same := apply round_le_same; simpl; unfold constant; done || eauto.

Lemma set_deadlines_le r a b : round_le r (Round.set_deadlines r a b).
Proof. destruct r. same. Qed.
Lemma set_leader_le r l r' : Round.set_leader r l = Some r' → round_le r r'.
Proof.
  unfold Round.set_leader. destruct (participants _ !! _); simpl; [|done].
  intros [= <-]. destruct r. same.
Qed.
Lemma next_timeout_le r now d : round_le r (Round.next_timeout_deadline r now d).1.
Proof.
  unfold Round.next_timeout_deadline. destruct r; simpl. repeat case_match; same.
Qed.
Lemma construct_nullify_le r : round_le r (Round.construct_nullify r).1.
Proof. unfold Round.construct_nullify. destruct r; simpl. case_match; same. Qed.
Lemma construct_notarize_le r : round_le r (Round.construct_notarize r).1.
Proof. unfold Round.construct_notarize. destruct r; simpl. repeat case_match; same. Qed.
Lemma construct_finalize_le r : round_le r (Round.construct_finalize r).1.
Proof. unfold Round.construct_finalize. destruct r; simpl. repeat case_match; same. Qed.
Lemma broadcast_notarization_le r : round_le r (Round.broadcast_notarization r).1.
Proof. unfold Round.broadcast_notarization. destruct r; simpl. repeat case_match; same. Qed.
Lemma broadcast_nullification_le r : round_le r (Round.broadcast_nullification r).1.
Proof. unfold Round.broadcast_nullification. destruct r; simpl. repeat case_match; same. Qed.
Lemma broadcast_finalization_le r : round_le r (Round.broadcast_finalization r).1.
Proof. unfold Round.broadcast_finalization. destruct r; simpl. repeat case_match; same. Qed.
Lemma set_certify_handle_le r h : round_le r (Round.set_certify_handle r h).
Proof. destruct r. same. Qed.
Lemma unset_certify_handle_le r : round_le r (Round.unset_certify_handle r).
Proof. destruct r. same. Qed.

Lemma built_keeps s p : is_Some (sl_proposal s) → is_Some (sl_proposal (Slot.built s p)).
Proof. intros [q E]. unfold Slot.built. rewrite E. eauto. Qed.
Lemma update_keeps s p rec : is_Some (sl_proposal s) → is_Some (sl_proposal (Slot.update s p rec).1).
Proof.
  intros [q E]. unfold Slot.update. case_decide; [eauto|]. rewrite E.
  destruct rec; repeat case_decide; simpl; unfold constant; eauto.
Qed.
Lemma update_fills s p : Slot.wf s → is_Some (sl_proposal (Slot.update s p true).1).
Proof.
  unfold Slot.update, Slot.wf. intros Hw. destruct (sl_proposal s) as [q|] eqn:E.
  - repeat case_decide; simpl; unfold constant; eauto.
  - case_decide; simpl; unfold constant; [|eauto]. destruct Hw as [_ Hw]. rewrite Hw in *; done.
Qed.

(** A change of the slot and of the deadlines. *)
Lemma slot_change_le r s d :
  (Slot.wf (r_slot r) → Slot.wf s) →
  (is_Some (sl_proposal (r_slot r)) → is_Some (sl_proposal s)) →
  round_le r (r {{ r_slot := s; leader_deadline := d }}) ∧ round_le r (r {{ r_slot := s }}).
Proof. intros. destruct r. split; apply round_le_same; done. Qed.

Lemma try_propose_le r : round_le r (Round.try_propose r).1.
Proof.
  unfold Round.try_propose. case_match; [|done].
  apply (slot_change_le r _ None); [apply Slot.set_building_wf|by destruct (r_slot r)].
Qed.
Lemma try_verify_le r : round_le r (Round.try_verify r).1.
Proof.
  unfold Round.try_verify. case_match; [|done].
  pose proof (Slot.request_verify_wf (r_slot r)) as H1.
  assert (sl_proposal (Slot.request_verify (r_slot r)).1 = sl_proposal (r_slot r)) as H2.
  { unfold Slot.request_verify. by case_match. }
  destruct (Slot.request_verify _). apply (slot_change_le r _ None); simpl in *; [done|congruence].
Qed.
Lemma proposed_le r p : round_le r (Round.proposed r p).1.
Proof.
  unfold Round.proposed. case_match; [done|].
  apply slot_change_le; [apply Slot.built_wf|apply built_keeps].
Qed.
Lemma verified_le r : round_le r (Round.verified r).1.
Proof.
  unfold Round.verified. case_match; [done|].
  pose proof (Slot.mark_verified_wf (r_slot r)) as H1.
  assert (sl_proposal (Slot.mark_verified (r_slot r)).1 = sl_proposal (r_slot r)) as H2.
  { unfold Slot.mark_verified. by case_decide. }
  destruct (Slot.mark_verified _) as [s []]; apply (slot_change_le r _ None); simpl in *;
    done || congruence.
Qed.
Lemma set_proposal_le r p : round_le r (Round.set_proposal r p).1.
Proof.
  unfold Round.set_proposal. case_match; [done|].
  pose proof (update_keeps (r_slot r) p false) as H1.
  pose proof (Slot.update_wf (r_slot r) p false) as H2.
  destruct (Slot.update _ _ _) as [s []]; by apply (slot_change_le r _ None).
Qed.

(** A certificate is stored where there was none. *)
Lemma add_certificate_le r s (n : option Notarization) (f : option Finalization) :
  Slot.wf s → is_Some (sl_proposal s) →
  (∀ x, r_notarization r = Some x → n = Some x) → (∀ x, r_finalization r = Some x → f = Some x) →
  round_le r (r {{ r_slot := s; r_notarization := n; r_finalization := f;
                   leader_deadline := None; advance_deadline := None }}).
Proof.
  intros Hw Hp Hn Hf. destruct r. split; simpl in *; unfold constant; try done.
  intros []. split; simpl in *; try done. intros [x Hx]%ro_certified0. eauto.
Qed.

Lemma add_notarization_le r n : round_ok r → round_le r (Round.add_notarization r n).1.
Proof.
  intros Hok. unfold Round.add_notarization. destruct (r_notarization r) eqn:E; [done|].
  unfold Round.add_recovered_proposal. simpl.
  pose proof (update_fills (r_slot r) (nz_proposal n) (ro_slot _ Hok)) as H1.
  pose proof (Slot.update_wf (r_slot r) (nz_proposal n) true (ro_slot _ Hok)) as H2.
  pose proof (add_certificate_le r (Slot.update (r_slot r) (nz_proposal n) true).1
    (Some n) (r_finalization r) H2 H1) as H3.
  destruct r; simpl in *; unfold constant in *.
  destruct (Slot.update _ _ _) as [s c]; simpl in *. apply H3; naive_solver.
Qed.
Lemma add_finalization_le r f : round_ok r → round_le r (Round.add_finalization r f).1.
Proof.
  intros Hok. unfold Round.add_finalization. destruct (r_finalization r) eqn:E; [done|].
  unfold Round.add_recovered_proposal. simpl.
  pose proof (update_fills (r_slot r) (fzz_proposal f) (ro_slot _ Hok)) as H1.
  pose proof (Slot.update_wf (r_slot r) (fzz_proposal f) true (ro_slot _ Hok)) as H2.
  pose proof (add_certificate_le r (Slot.update (r_slot r) (fzz_proposal f) true).1
    (r_notarization r) (Some f) H2 H1) as H3.
  destruct r; simpl in *; unfold constant in *.
  destruct (Slot.update _ _ _) as [s c]; simpl in *. apply H3; naive_solver.
Qed.
Lemma add_nullification_le r n : round_le r (Round.add_nullification r n).1.
Proof.
  unfold Round.add_nullification. destruct (r_nullification r) eqn:E; [done|].
  destruct r; simpl in *. split; simpl; unfold constant; try done; [congruence|].
  intros []. by split.
Qed.

Lemma certified_le r b r' : is_Some (r_notarization r) → Round.certified r b = Some r' → round_le r r'.
Proof.
  intros Hn. unfold Round.certified. destruct (r_certified r) as [c|] eqn:E.
  - destruct (Bool.eqb c b) eqn:Eb; [apply eqb_prop in Eb as ->|done].
    intros [= <-]. destruct r; simpl in *. by same.
  - intros [= <-]. destruct r; simpl in *. split; simpl; unfold constant; try done; [congruence|].
    intros []. by split.
Qed.

Lemma replay_le r a r' :
  (∀ rd b, a = ACertification rd b → is_Some (r_notarization r)) →
  Round.replay r a = Some r' → round_le r r'.
Proof.
  intros Hc. destruct a; simpl; try (case_match; [|done]); try intros [= <-];
    try (by destruct r; same).
  - destruct r; simpl. apply round_le_same; try done; simpl; [apply Slot.built_wf|apply built_keeps].
  - apply certified_le. eauto.
Qed.
#[local] Hint Resolve set_deadlines_le next_timeout_le construct_nullify_le construct_notarize_le
  construct_finalize_le broadcast_notarization_le broadcast_nullification_le
  broadcast_finalization_le set_certify_handle_le unset_certify_handle_le try_propose_le
  try_verify_le proposed_le verified_le set_proposal_le add_notarization_le add_finalization_le
  add_nullification_le : cw.

(** ** States *)

(** The round [v] of [st], or a new one for an untracked view. *)
Definition from st v r : Prop :=
  views st !! v = Some r ∨
  (views st !! v = None ∧ ∃ now, r = Round.new (st_scheme st) (mkRnd (epoch st) v) now).

Record st_le (st st' : State) : Prop := {
  le_views v r' : views st' !! v = Some r' → ∃ r, from st v r ∧ round_le r r';
  le_dom v : is_Some (views st !! v) → is_Some (views st' !! v);
  le_view : view st ≤ view st';
  le_bound : view st < 2 ^ 64 → view st' < 2 ^ 64;
  le_current : is_Some (views st !! view st) → is_Some (views st' !! view st');
  le_finalized : last_finalized st ≤ last_finalized st';
  le_genesis : genesis st' = genesis st;
  le_scheme : st_scheme st' = st_scheme st;
  le_epoch : epoch st' = epoch st;
  le_activity : activity_timeout st' = activity_timeout st;
}.

#[global] Instance st_le_preorder : PreOrder st_le.
Proof.
  split.
  - intros st. split; try done. intros v r H. exists r. split; [by left|done].
  - intros st1 st2 st3 H12 H23. split;
      [|intros v H; by apply (le_dom _ _ H23), (le_dom _ _ H12)
       |etrans; [apply (le_view _ _ H12)|apply (le_view _ _ H23)]
       |intros H; by apply (le_bound _ _ H23), (le_bound _ _ H12)
       |intros H; by apply (le_current _ _ H23), (le_current _ _ H12)
       |etrans; [apply (le_finalized _ _ H12)|apply (le_finalized _ _ H23)]
       |destruct H12, H23; congruence..].
    + intros v r3 H. destruct (le_views _ _ H23 v r3 H) as (r2 & Hf & Hle).
      destruct Hf as [H2|[H2 (now & ->)]].
      * destruct (le_views _ _ H12 v r2 H2) as (r1 & ? & ?). exists r1. split; [done|by etrans].
      * eexists. split; [|done]. right. split.
        -- destruct (views st1 !! v) eqn:E; [|done].
           destruct (le_dom _ _ H12 v) as [? ?]; [by eauto|congruence].
        -- exists now. by rewrite (le_scheme _ _ H12), (le_epoch _ _ H12).
Qed.

Lemma from_entry now st v : from st v (entry now st v).
Proof. unfold from, entry. destruct (views st !! v); simpl; eauto. Qed.

Lemma put_le st v r0 r : from st v r0 → round_le r0 r → st_le st (put st v r).
Proof.
  intros Hf Hle. split; try done.
  - intros w r'. destruct (decide (w = v)) as [->|Hne]; simpl; unfold constant.
    + rewrite lookup_insert_eq. intros [= <-]. eauto.
    + rewrite lookup_insert_ne by done. intros. exists r'. split; [by left|done].
  - intros w. simpl. unfold constant. rewrite lookup_insert_is_Some. destruct (decide (v = w)); eauto.
  - simpl. unfold constant. rewrite lookup_insert_is_Some. destruct (decide (v = view st)); eauto.
Qed.

Lemma put_entry_le now st v r : round_le (entry now st v) r → st_le st (put st v r).
Proof. apply put_le, from_entry. Qed.

Lemma put_lookup st v r0 r : views st !! v = Some r0 → round_le r0 r → st_le st (put st v r).
Proof. intros H. by apply put_le; left. Qed.

Lemma set_view_le st v : is_Some (views st !! v) → view st ≤ v < 2 ^ 64 → st_le st (st {{ view := v }}).
Proof.
  intros Hv Hb. destruct st; split; simpl in *; unfold constant; try done; try lia.
  intros w r Hr. exists r. split; [left; exact Hr|done].
Qed.

Lemma enter_view_le now st v : v < 2 ^ 64 → st_le st (enter_view now st v).1.
Proof.
  intros Hv. unfold enter_view. destruct (Z.leb_spec v (view st)); [done|].
  etrans; [by apply (put_entry_le now st v), set_deadlines_le|].
  apply set_view_le; [|by split; [apply Z.lt_le_incl|]].
  exists (Round.set_deadlines (entry now st v) (now + leader_timeout st)
            (now + notarization_timeout st)). apply lookup_insert_eq.
Qed.

Lemma set_leader_state_le now st v c st' : set_leader now st v c = Some st' → st_le st st'.
Proof.
  unfold set_leader. case_match; simpl; [intros [= <-]; by apply put_entry_le with now|].
  destruct (Round.set_leader _ _) as [r|] eqn:E; simpl; [|done]. intros [= <-].
  by eapply put_entry_le, set_leader_le.
Qed.

Definition rounds_ok st : Prop := ∀ v r, views st !! v = Some r → round_ok r.

Lemma new_round_ok s rd now : round_ok (Round.new s rd now).
Proof. split; simpl; try done; by intros [? ?]. Qed.
Lemma from_ok st v r : rounds_ok st → from st v r → round_ok r.
Proof. intros H [E|[_ [now ->]]]; [by eapply H|apply new_round_ok]. Qed.
Lemma rounds_ok_le st st' : st_le st st' → rounds_ok st → rounds_ok st'.
Proof.
  intros Hle H v r' E. destruct (le_views _ _ Hle v r' E) as (r & Hf & Hr).
  apply Hr. by eapply from_ok.
Qed.

Lemma on_round_le {A} st v (f : Round → Round * option A) :
  (∀ r, round_le r (f r).1) → st_le st (on_round st v f).1.
Proof.
  intros Hf. unfold on_round. destruct (views st !! v) as [r|] eqn:E; [|done].
  specialize (Hf r). destruct (f r). by eapply put_lookup.
Qed.

Record wf (st : State) : Prop := {
  w_rounds : rounds_ok st;
  w_current : is_Some (views st !! view st);
  w_genesis : is_Some (genesis st);
  w_finalized : 0 ≤ last_finalized st < view st;
  w_view : view st < 2 ^ 64;
  w_certificate : last_finalized st = 0 ∨ is_Some (finalization st (last_finalized st));
  w_activity : 0 ≤ activity_timeout st;
}.

Lemma finalization_le st st' v :
  st_le st st' → is_Some (finalization st v) → is_Some (finalization st' v).
Proof.
  unfold finalization. intros Hle [f Hf]. destruct (views st !! v) as [r|] eqn:E; [|done].
  destruct (le_dom _ _ Hle v) as [r' E']; [by eauto|]. rewrite E'. simpl in *.
  destruct (le_views _ _ Hle v r' E') as (r0 & [Hr|[Hr _]] & Hrl); [|congruence].
  rewrite E in Hr. injection Hr as <-. eexists. by apply Hrl.
Qed.

Lemma wf_le st st' : wf st → st_le st st' → last_finalized st' = last_finalized st → wf st'.
Proof.
  intros [] Hle E. split.
  - by eapply rounds_ok_le.
  - by apply (le_current _ _ Hle).
  - by rewrite (le_genesis _ _ Hle).
  - pose proof (le_view _ _ Hle). lia.
  - by apply (le_bound _ _ Hle).
  - rewrite E. destruct w_certificate0; [by left|right]. by eapply finalization_le.
  - by rewrite (le_activity _ _ Hle).
Qed.

(** ** Runs of the state machine *)

Inductive Op : Type :=
| SNextTimeout
| SHandleTimeout
| SAddNotarization (n : Notarization)
| SAddNullification (n : Nullification)
| SAddFinalization (f : Finalization)
| SConstructNotarize (v : Z)
| SConstructFinalize (v : Z)
| SBroadcastNotarization (v : Z)
| SBroadcastNullification (v : Z)
| SBroadcastFinalization (v : Z)
| SExpireRound (v : Z)
| STryPropose
| SProposed (p : Proposal)
| SSetProposal (v : Z) (p : Proposal)
| STryVerify
| SVerified (v : Z)
| SSetCertifyHandle (v : Z) (h : Z)
| SRetryCertification (v : Z)
| SCertified (v : Z) (is_success : bool)
| SPrune.

Definition exec (now : Z) (o : Op) st : option State :=
  match o with
  | SNextTimeout => Some (next_timeout_deadline now st).1
  | SHandleTimeout => Some (handle_timeout now st).1
  | SAddNotarization n => fst <$> add_notarization now st n
  | SAddNullification n => fst <$> add_nullification now st n
  | SAddFinalization f => fst <$> add_finalization now st f
  | SConstructNotarize v => Some (construct_notarize st v).1
  | SConstructFinalize v => Some (construct_finalize st v).1
  | SBroadcastNotarization v => Some (broadcast_notarization st v).1
  | SBroadcastNullification v => Some (broadcast_nullification st v).1
  | SBroadcastFinalization v => Some (broadcast_finalization st v).1
  | SExpireRound v => Some (expire_round now st v)
  | STryPropose => fst <$> try_propose st
  | SProposed p => Some (proposed st p).1
  | SSetProposal v p => Some (set_proposal now st v p).1
  | STryVerify => fst <$> try_verify st
  | SVerified v => Some (verified st v).1
  | SSetCertifyHandle v h => Some (set_certify_handle st v h)
  | SRetryCertification v => Some (retry_certification st v)
  | SCertified v b => fst <$> certified now st v b
  | SPrune => Some (prune st).1
  end.

Lemma next_timeout_state_le now st : st_le st (next_timeout_deadline now st).1.
Proof.
  unfold next_timeout_deadline.
  pose proof (next_timeout_le (entry now st (view st)) now (st_nullify_retry st)) as H.
  destruct (Round.next_timeout_deadline _ _ _). by eapply put_entry_le.
Qed.

Lemma handle_timeout_le now st : st_le st (handle_timeout now st).1.
Proof.
  unfold handle_timeout. pose proof (construct_nullify_le (entry now st (view st))) as H.
  destruct (Round.construct_nullify _) as [r [retry|]]; [case_match|]; by eapply put_entry_le.
Qed.

Lemma set_proposal_state_le now st v p : st_le st (set_proposal now st v p).1.
Proof.
  unfold set_proposal. pose proof (set_proposal_le (entry now st v) p) as H.
  destruct (Round.set_proposal _ _). by eapply put_entry_le.
Qed.

Lemma add_notarization_state_le now st n st' : rounds_ok st →
  fst <$> add_notarization now st n = Some st' → st_le st st'.
Proof.
  intros Hok. unfold add_notarization. destruct (View.next _) as [v'|]; simpl; [|done].
  destruct (set_leader _ _ _ _) as [st1|] eqn:E; simpl; [|done].
  apply set_leader_state_le in E. pose proof (rounds_ok_le _ _ E Hok) as Hok1.
  pose proof (add_notarization_le _ n (from_ok _ _ _ Hok1
    (from_entry now st1 (proposal_view (nz_proposal n))))) as H.
  destruct (Round.add_notarization _ _). intros [= <-]. etrans; [done|]. by eapply put_entry_le.
Qed.

Lemma add_nullification_state_le now st n st' :
  fst <$> add_nullification now st n = Some st' → st_le st st'.
Proof.
  unfold add_nullification. destruct (View.next _) as [v'|] eqn:Ev; simpl; [|done].
  apply View.next_Some in Ev as [-> Hv].
  destruct (set_leader _ _ _ _) as [st1|] eqn:E; simpl; [|done].
  apply set_leader_state_le in E.
  pose proof (add_nullification_le (entry now st1 (rnd_view (nlz_round n))) n) as H.
  destruct (Round.add_nullification _ _). intros [= <-].
  etrans; [by apply enter_view_le|]. etrans; [done|]. by eapply put_entry_le.
Qed.

Lemma enter_view_view now st v : view (enter_view now st v).1 = Z.max (view st) v.
Proof. unfold enter_view. destruct (Z.leb_spec v (view st)); simpl; unfold constant; lia. Qed.
Lemma enter_view_finalized now st v : last_finalized (enter_view now st v).1 = last_finalized st.
Proof. unfold enter_view. by case_match. Qed.
Lemma set_leader_finalized now st v c st' :
  set_leader now st v c = Some st' → last_finalized st' = last_finalized st.
Proof.
  unfold set_leader. case_match; simpl; [by intros [= <-]|].
  destruct (Round.set_leader _ _); simpl; [by intros [= <-]|done].
Qed.

Lemma set_finalized_le st v : last_finalized st ≤ v → st_le st (st {{ last_finalized := v }}).
Proof.
  intros H. destruct st; split; simpl in *; unfold constant; try done.
  intros w r Hr. exists r. split; [left; exact Hr|done].
Qed.

Lemma add_finalization_stored r f : is_Some (r_finalization (Round.add_finalization r f).1).
Proof.
  unfold Round.add_finalization. destruct (r_finalization r) eqn:E; [by eauto|].
  destruct (Round.add_recovered_proposal _ _). simpl. unfold constant. eauto.
Qed.

Lemma add_finalization_spec now st f st' :
  let v := proposal_view (fzz_proposal f) in
  rounds_ok st → fst <$> add_finalization now st f = Some st' →
  st_le st st' ∧ last_finalized st' = Z.max (last_finalized st) v ∧ v < view st' ∧
  is_Some (finalization st' v).
Proof.
  intros v Hok. unfold add_finalization. fold v.
  set (st0 := if last_finalized st <? v then _ else st).
  assert (st_le st st0 ∧ last_finalized st0 = Z.max (last_finalized st) v) as [Hle0 Hlf].
  { subst st0. destruct (Z.ltb_spec (last_finalized st) v).
    - split; [apply set_finalized_le; lia|simpl; unfold constant; lia].
    - split; [done|lia]. }
  clearbody st0. destruct (View.next v) as [v'|] eqn:Ev; simpl; [|done].
  apply View.next_Some in Ev as [-> Hv].
  pose proof (enter_view_le now st0 (v + 1) Hv) as Hle1.
  pose proof (enter_view_view now st0 (v + 1)) as Hvw.
  pose proof (enter_view_finalized now st0 (v + 1)) as Hlf1.
  destruct (set_leader _ _ _ _) as [st2|] eqn:E; simpl; [|done].
  pose proof (set_leader_finalized _ _ _ _ _ E) as Hlf2. apply set_leader_state_le in E.
  assert (st_le st st2) as Hle by (etrans; [done|by etrans]).
  pose proof (from_ok _ _ _ (rounds_ok_le _ _ Hle Hok) (from_entry now st2 v)) as Hr.
  pose proof (add_finalization_le _ f Hr) as H.
  pose proof (add_finalization_stored (entry now st2 v) f) as Hs.
  destruct (Round.add_finalization _ _) as [r res]. intros [= <-]. simpl in *.
  split_and!.
  - etrans; [exact Hle|]. by eapply put_entry_le.
  - change (last_finalized st2 = Z.max (last_finalized st) v). congruence.
  - pose proof (le_view _ _ E). change (v < view st2). lia.
  - unfold finalization, put. simpl. unfold constant. by rewrite lookup_insert_eq.
Qed.

Lemma add_finalization_wf now st f st' : 0 ≤ proposal_view (fzz_proposal f) → wf st →
  fst <$> add_finalization now st f = Some st' → wf st'.
Proof.
  intros Hv Hw E. destruct (add_finalization_spec now st f st' (w_rounds _ Hw) E)
    as (Hle & Hlf & Hgt & Hs). destruct Hw. split.
  - by eapply rounds_ok_le.
  - by apply (le_current _ _ Hle).
  - by rewrite (le_genesis _ _ Hle).
  - pose proof (le_view _ _ Hle). lia.
  - by apply (le_bound _ _ Hle).
  - rewrite Hlf. destruct (Z.max_spec (last_finalized st) (proposal_view (fzz_proposal f)))
      as [[? ->]|[? ->]]; [by right|].
    destruct w_certificate0; [by left|right]. by eapply finalization_le.
  - by rewrite (le_activity _ _ Hle).
Qed.

Lemma is_certified_total st v : rounds_ok st → is_Some (genesis st) → is_Some (is_certified st v).
Proof.
  intros Hr [g Hg]. unfold is_certified. rewrite Hg. case_match; [by eauto|].
  destruct (views st !! v) as [r|] eqn:E; [|by eauto].
  destruct (bool_decide (is_Some (r_finalization r)) || Round.is_certified r) eqn:Ec; [|by eauto].
  assert (is_Some (sl_proposal (r_slot r))) as [p ->]; [|by eauto].
  apply orb_true_iff in Ec as [Ec|Ec]; apply bool_decide_eq_true in Ec; destruct (Hr _ _ E); eauto.
Qed.

Lemma prune_wf st : wf st → wf (prune st).1.
Proof.
  intros []. assert (min_active st ≤ last_finalized st) as Hm.
  { unfold min_active, ConsensusTypes.min_active, View.saturating_sub, saturating_sub. lia. }
  split; try done.
  - intros v r. simpl. unfold constant. rewrite map_lookup_filter_Some. intros [? _]. eauto.
  - destruct w_current0 as [r Hr]. exists r. change (filter (λ kv, min_active st ≤ kv.1) (views st) !! view st = Some r).
    apply map_lookup_filter_Some. split; [done|simpl; lia].
  - destruct w_certificate0 as [|[f Hf]]; [by left|right]. exists f.
    unfold finalization in *. destruct (views st !! last_finalized st) as [r|] eqn:E; [|done].
    change (filter (λ kv, min_active st ≤ kv.1) (views st) !! last_finalized st ≫= r_finalization = Some f).
    rewrite (proj2 (map_lookup_filter_Some _ _ _ r)); [done|]. split; [done|simpl; lia].
Qed.

Lemma try_propose_state_le st st' : fst <$> try_propose st = Some st' →
  st_le st st' ∧ last_finalized st' = last_finalized st.
Proof.
  unfold try_propose. case_match; [by intros [= <-]|].
  destruct (views st !! view st) as [r|] eqn:E; simpl; [|done].
  case_match; [by intros [= <-]|]. destruct (find_parent st (view st)) as [[u d]|e|]; simpl;
    [|by intros [= <-]|done].
  pose proof (try_propose_le r) as H2. destruct (Round.try_propose r). intros [= <-].
  split; [by eapply put_lookup|done].
Qed.

Lemma try_verify_state_le st st' : fst <$> try_verify st = Some st' →
  st_le st st' ∧ last_finalized st' = last_finalized st.
Proof.
  unfold try_verify. destruct (views st !! view st) as [r|] eqn:E; simpl; [|by intros [= <-]].
  destruct (Round.should_verify r) as [[l p]|]; [|by intros [= <-]].
  destruct (parent_payload st p) as [[d|]|]; simpl; [|by intros [= <-]|done].
  pose proof (try_verify_le r) as H2. destruct (Round.try_verify r). intros [= <-].
  split; [by eapply put_lookup|done].
Qed.

Lemma certified_state_le now st v b st' : fst <$> certified now st v b = Some st' →
  st_le st st' ∧ last_finalized st' = last_finalized st.
Proof.
  unfold certified. destruct (views st !! v) as [r|] eqn:E; simpl; [|by intros [= <-]].
  destruct (Round.certified r b) as [r1|] eqn:Ec; simpl; [|done].
  destruct (r_notarization r1) as [n|] eqn:En; simpl; [|done].
  assert (st_le st (put st v r1)) as Hle.
  { eapply put_lookup; [done|]. eapply certified_le; [|done].
    unfold Round.certified in Ec. destruct r; simpl in *. repeat case_match; simplify_eq/=; eauto. }
  destruct b; simpl.
  - destruct (View.next v) as [w|] eqn:Ev; simpl; [|done]. apply View.next_Some in Ev as [-> Hv].
    intros [= <-]. split; [|by rewrite enter_view_finalized].
    etrans; [exact Hle|by apply enter_view_le].
  - intros [= <-]. split; [|done]. etrans; [exact Hle|]. eapply put_entry_le, set_deadlines_le.
Qed.

Lemma on_round_finalized {A} st v (f : Round → Round * option A) :
  last_finalized (on_round st v f).1 = last_finalized st.
Proof. unfold on_round. by repeat case_match. Qed.

Lemma certificate_ops_finalized now st st' :
  (∃ n, fst <$> add_notarization now st n = Some st') ∨
  (∃ n, fst <$> add_nullification now st n = Some st') →
  last_finalized st' = last_finalized st.
Proof.
  intros [[n E]|[n E]]; revert E; [unfold add_notarization|unfold add_nullification];
    (destruct (View.next _); simpl; [|done]);
    (destruct (set_leader _ _ _ _) eqn:E; simpl; [|done]);
    apply set_leader_finalized in E; rewrite ?enter_view_finalized in E;
    case_match; by intros [= <-].
Qed.

(** Operations that only touch a round through [on_round]. *)
Lemma on_round_ops_le o now st st' :
  match o with
  | SConstructNotarize _ | SConstructFinalize _ | SBroadcastNotarization _
  | SBroadcastNullification _ | SBroadcastFinalization _ | SProposed _ | SVerified _ => True
  | _ => False
  end → exec now o st = Some st' → st_le st st' ∧ last_finalized st' = last_finalized st.
Proof.
  assert (∀ A v (f : Round → Round * option A), (∀ r, round_le r (f r).1) →
    st_le st (on_round st v f).1 ∧ last_finalized (on_round st v f).1 = last_finalized st) as H.
  { intros A v f Hf. split; [by apply on_round_le|apply on_round_finalized]. }
  destruct o; simpl; try done; intros _ [= <-];
    unfold construct_notarize, construct_finalize, proposed, verified;
    try (match goal with |- context [on_round st ?v ?f] =>
      specialize (H _ v f); destruct (on_round st v f) end; simpl in *; apply H);
    try (apply H); auto with cw.
  - intros r. pose proof (proposed_le r p). by destruct (Round.proposed r p).
  - intros r. pose proof (verified_le r). by destruct (Round.verified r).
Qed.

(** Every operation but pruning moves the state up. *)
Lemma exec_le now o st st' : rounds_ok st → o ≠ SPrune → exec now o st = Some st' →
  st_le st st' ∧ ((∀ f, o ≠ SAddFinalization f) → last_finalized st' = last_finalized st).
Proof.
  intros Hok Hp. destruct o; simpl; try done.
  - intros [= <-]. split; [apply next_timeout_state_le|]. unfold next_timeout_deadline. by case_match.
  - intros [= <-]. split; [apply handle_timeout_le|]. unfold handle_timeout. by repeat case_match.
  - intros E. split; [by eapply add_notarization_state_le|]. intros _.
    apply (certificate_ops_finalized now). eauto.
  - intros E. split; [by eapply add_nullification_state_le|]. intros _.
    apply (certificate_ops_finalized now). eauto.
  - intros E. split; [by eapply add_finalization_spec|]. intros H. by destruct (H f).
  - intros E. by destruct (on_round_ops_le (SConstructNotarize v) now st st' I E).
  - intros E. by destruct (on_round_ops_le (SConstructFinalize v) now st st' I E).
  - intros E. by destruct (on_round_ops_le (SBroadcastNotarization v) now st st' I E).
  - intros E. by destruct (on_round_ops_le (SBroadcastNullification v) now st st' I E).
  - intros E. by destruct (on_round_ops_le (SBroadcastFinalization v) now st st' I E).
  - intros [= <-]. split; [|done]. eapply put_entry_le, set_deadlines_le.
  - intros E. by destruct (try_propose_state_le st st' E).
  - intros E. by destruct (on_round_ops_le (SProposed p) now st st' I E).
  - intros [= <-]. split; [apply set_proposal_state_le|]. unfold set_proposal. by case_match.
  - intros E. by destruct (try_verify_state_le st st' E).
  - intros E. by destruct (on_round_ops_le (SVerified v) now st st' I E).
  - intros [= <-]. unfold set_certify_handle. case_match; [|done].
    split; [|done]. by eapply put_lookup, set_certify_handle_le.
  - intros [= <-]. unfold retry_certification. case_match; [|done].
    split; [|done]. by eapply put_lookup, unset_certify_handle_le.
  - intros E. by destruct (certified_state_le now st v is_success st' E).
Qed.

(** The views of certificates are unsigned. *)
Definition op_ok (o : Op) : Prop :=
  match o with SAddFinalization f => 0 ≤ proposal_view (fzz_proposal f) | _ => True end.

Lemma exec_wf now o st st' : wf st → op_ok o → exec now o st = Some st' →
  wf st' ∧ view st ≤ view st' ∧ last_finalized st ≤ last_finalized st'.
Proof.
  intros Hw Ho E. assert (o = SPrune ∨ o ≠ SPrune) as [->|Hp] by (destruct o; auto).
  - injection E as <-. split; [by apply prune_wf|done].
  - destruct (exec_le now o st st' (w_rounds _ Hw) Hp E) as [Hle Hlf].
    split; [|split; apply Hle]. destruct o; try (eapply wf_le; [done..|by apply Hlf]).
    by eapply add_finalization_wf.
Qed.

(** Events with the time they happen at. *)
Fixpoint run (ops : list (Z * Op)) st : option State :=
  match ops with
  | [] => Some st
  | (now, o) :: ops => st ← exec now o st; run ops st
  end.

Lemma run_wf ops st st' : wf st → Forall (λ o, op_ok o.2) ops → run ops st = Some st' →
  wf st' ∧ view st ≤ view st' ∧ last_finalized st ≤ last_finalized st'.
Proof.
  intros Hw Ho. revert st Hw. induction Ho as [|[now o] ops Ho _ IH]; intros st Hw; simpl;
    [by intros [= <-]|].
  destruct (exec now o st) as [st1|] eqn:E; simpl; [|done].
  destruct (exec_wf now o st st1 Hw Ho E) as (Hw1 & Hv & Hl).
  intros H. destruct (IH st1 Hw1 H) as (? & ? & ?). split; [done|lia].
Qed.

Lemma set_genesis_wf now sc el ns e act lt nt rt g st : 0 ≤ act →
  set_genesis now (new sc el ns e act lt nt rt) g = Some st →
  wf st ∧ view st = 1 ∧ last_finalized st = 0.
Proof.
  intros Ha. unfold set_genesis. simpl.
  set (st0 := mkState sc el ns e act lt nt rt GENESIS_VIEW GENESIS_VIEW (Some g) ∅).
  change (set_leader now (enter_view now st0 1).1 1 None = Some st →
    wf st ∧ view st = 1 ∧ last_finalized st = 0).
  pose proof (enter_view_le now st0 1 ltac:(lia)) as Hle1.
  assert (is_Some (views (enter_view now st0 1).1 !! view (enter_view now st0 1).1)) as Hcur.
  { exists (Round.set_deadlines (entry now st0 1) (now + lt) (now + nt)).
    apply lookup_insert_eq. }
  intros E. assert (view st = 1 ∧ last_finalized st = 0) as [Hv Hlf].
  { unfold set_leader in E. case_match; simpl in E; [by injection E as <-|].
    destruct (Round.set_leader _ _); simpl in E; [by injection E as <-|done]. }
  apply set_leader_state_le in E. split; [|done].
  assert (st_le st0 st) as Hle by (by etrans).
  split.
  - apply (rounds_ok_le st0); [done|]. intros v r Hr.
    change ((∅ : gmap Z Round) !! v = Some r) in Hr. by rewrite lookup_empty in Hr.
  - by apply (le_current _ _ E).
  - rewrite (le_genesis _ _ Hle). by eexists.
  - lia.
  - rewrite Hv. lia.
  - by left.
  - by rewrite (le_activity _ _ Hle).
Qed.

(** ** Parents *)

(** The payload of a certified view: the genesis, or the proposal of a round with
    a finalization certificate or a successful certification. *)
Definition certified_as st v (d : Digest) : Prop :=
  (v = 0 ∧ genesis st = Some d) ∨
  (v ≠ 0 ∧ ∃ r p, views st !! v = Some r ∧
    (is_Some (r_finalization r) ∨ r_certified r = Some true) ∧
    sl_proposal (r_slot r) = Some p ∧ payload p = d).
Definition uncertified st v : Prop :=
  v ≠ 0 ∧ ∀ r, views st !! v = Some r → r_finalization r = None ∧ r_certified r ≠ Some true.
Definition nullified_at st v : Prop := v ≠ 0 ∧ is_Some (nullification st v).

Lemma is_certified_round (r : Round) :
  bool_decide (is_Some (r_finalization r)) || Round.is_certified r = true ↔
  is_Some (r_finalization r) ∨ r_certified r = Some true.
Proof. unfold Round.is_certified. by rewrite orb_true_iff, !bool_decide_eq_true. Qed.

Lemma is_certified_Some st v d : is_certified st v = Some (Some d) ↔ certified_as st v d.
Proof.
  unfold is_certified, certified_as. change GENESIS_VIEW with 0.
  destruct (Z.eqb_spec v 0) as [->|Hv].
  { destruct (genesis st); simpl;
      (split; [intros ?; left; split; congruence|intros [[_ ?]|[? _]]; congruence]). }
  destruct (views st !! v) as [r|];
    [|split; [done|intros [[? _]|(_ & r & p & ? & _)]; congruence]].
  pose proof (is_certified_round r) as Hc. destruct (_ || _).
  - destruct (sl_proposal (r_slot r)) as [q|] eqn:Eq; simpl.
    + split; [intros [= <-]; right; split; [done|]; exists r, q; naive_solver|].
      intros [[? _]|(_ & ? & ? & ? & _ & ? & <-)]; congruence.
    + split; [done|]. intros [[? _]|(_ & ? & ? & ? & _ & ? & _)]; congruence.
  - split; [done|]. intros [[? _]|(_ & ? & ? & [= <-] & H & _)]; [done|]. by apply Hc in H.
Qed.

Lemma is_certified_None st v : is_Some (genesis st) → rounds_ok st →
  is_certified st v = Some None ↔ uncertified st v.
Proof.
  intros [g Hg] Hok. pose proof (is_certified_total st v Hok ltac:(eauto)) as Ht.
  unfold is_certified, uncertified in *. change GENESIS_VIEW with 0 in *.
  destruct (Z.eqb_spec v 0) as [->|Hv]; [rewrite Hg; simpl; split; [done|intros [? _]; done]|].
  destruct (views st !! v) as [r|]; [|split; [by split|done]].
  pose proof (is_certified_round r) as Hc. destruct (_ || _).
  - destruct Ht as [o Ht]. destruct (sl_proposal (r_slot r)); [|done]. simpl. split; [done|].
    intros [_ H]. destruct (H r eq_refl) as [H1 H2].
    destruct (proj1 Hc eq_refl) as [[f Hf]|]; congruence.
  - split; [|done]. intros _. split; [done|]. intros ? [= <-].
    split; [apply eq_None_not_Some|]; intros H; discriminate (proj2 Hc ltac:(auto)).
Qed.

Lemma is_nullified_spec st v : is_nullified st v = true ↔ nullified_at st v.
Proof.
  unfold is_nullified, nullified_at, nullification. change GENESIS_VIEW with 0.
  destruct (Z.eqb_spec v 0) as [->|Hv]; [split; [done|intros [? _]; done]|].
  destruct (views st !! v) as [r|]; simpl.
  - rewrite bool_decide_eq_true. naive_solver.
  - split; [done|]. by intros [_ [? ?]].
Qed.

(** The views from above [u] up to [v] are nullified and not certified. *)
Definition skipped st (u v : Z) : Prop := ∀ w, u < w ≤ v → nullified_at st w ∧ uncertified st w.

Lemma find_parent_loop_spec st fuel c :
  rounds_ok st → is_Some (genesis st) → 0 ≤ c < Z.of_nat fuel →
  match find_parent_loop fuel st c with
  | Ok (u, d) => 0 ≤ u ≤ c ∧ certified_as st u d ∧ skipped st u c
  | Err w => 0 < w ≤ c ∧ uncertified st w ∧ ¬ nullified_at st w ∧ skipped st w c
  | Panic => False
  end.
Proof.
  intros Hr Hg. revert c. induction fuel as [|fuel IH]; intros c Hc; [lia|]. simpl.
  destruct (is_certified_total st c Hr Hg) as [[d|] E]; rewrite E; simpl.
  { split; [lia|]. split; [by apply is_certified_Some|]. intros w Hw. lia. }
  apply is_certified_None in E; [|done..]. assert (0 < c) by (destruct E; lia).
  pose proof (is_nullified_spec st c) as Hn. destruct (is_nullified st c); simpl.
  - unfold View.previous, checked_sub. destruct (Z.leb_spec 1 c); [|lia]. simpl.
    specialize (IH (c - 1) ltac:(lia)).
    assert (∀ u, skipped st u (c - 1) → skipped st u c) as Hs.
    { intros u Hu w Hw. destruct (decide (w = c)) as [->|]; [naive_solver|]. apply Hu. lia. }
    destruct (find_parent_loop fuel st (c - 1)) as [[u d]|w|]; [|..|done].
    + destruct IH as (? & ? & ?). split_and!; try lia; auto.
    + destruct IH as (? & ? & ? & ?). split_and!; try lia; auto.
  - split; [lia|]. split; [done|]. split; [naive_solver|]. intros w Hw. lia.
Qed.

Lemma find_parent_spec st v : wf st → 1 ≤ v →
  match find_parent st v with
  | Ok (u, d) => 0 ≤ u < v ∧ certified_as st u d ∧ skipped st u (v - 1)
  | Err w => 0 < w < v ∧ uncertified st w ∧ ¬ nullified_at st w ∧ skipped st w (v - 1)
  | Panic => False
  end.
Proof.
  intros Hw Hv. unfold find_parent, View.previous, checked_sub.
  destruct (Z.leb_spec 1 v); [|lia]. simpl default.
  pose proof (find_parent_loop_spec st (S (Z.to_nat (v - 1))) (v - 1)
    (w_rounds _ Hw) (w_genesis _ Hw) ltac:(lia)) as H1.
  destruct (find_parent_loop _ _ _) as [[u d]|w|]; [|..|done].
  - destruct H1 as (? & ? & ?). split; [lia|done].
  - destruct H1 as (? & ? & ?). split; [lia|done].
Qed.

Lemma certified_not_uncertified st v d : certified_as st v d → ¬ uncertified st v.
Proof.
  intros [[-> _]|(_ & r & p & E & H & _)] [Hv Hn]; [done|]. destruct (Hn r E) as [Hf Hc].
  destruct H as [[f H]|H]; congruence.
Qed.

(** A round that should propose does so once. *)
Lemma should_propose_once r : Round.should_propose r = true → ∃ l,
  Round.try_propose r = (r {{ r_slot := Slot.set_building (r_slot r) }}, Some l) ∧
  Round.should_propose (r {{ r_slot := Slot.set_building (r_slot r) }}) = false.
Proof.
  unfold Round.should_propose, Round.try_propose. rewrite bool_decide_eq_true.
  intros [l Hl]. exists l. rewrite Hl. split; [done|]. apply bool_decide_eq_false.
  unfold Round.propose_ready, Slot.should_build. destruct r as [???[?|]]; simpl; [|by intros []].
  rewrite orb_true_r. by intros [].
Qed.

Lemma try_propose_idle st r : views st !! view st = Some r → Round.should_propose r = false →
  try_propose st = Some (st, None).
Proof. intros Hr H. unfold try_propose. case_match; [done|]. rewrite Hr. simpl. by rewrite H. Qed.

Lemma last_finalized_certified st : wf st → ¬ uncertified st (last_finalized st).
Proof.
  intros [] [Hv H]. destruct w_certificate0 as [|[f Hf]]; [done|]. unfold finalization in Hf.
  destruct (views st !! last_finalized st) as [r|] eqn:E; [|done]. simpl in Hf.
  destruct (H r eq_refl). congruence.
Qed.

Lemma parent_payload_spec st p : wf st → proposal_view p < 2 ^ 64 →
  ∃ d, parent_payload st p = Some d ∧
  ∀ x, d = Some x ↔
    last_finalized st ≤ parent p < proposal_view p ∧
    (∀ w, parent p < w < proposal_view p → nullified_at st w) ∧
    certified_as st (parent p) x.
Proof.
  intros Hw Hb. unfold parent_payload.
  destruct (Z.leb_spec (proposal_view p) (parent p)).
  { exists None. split; [done|]. intros x. split; [done|lia]. }
  destruct (Z.ltb_spec (parent p) (last_finalized st)).
  { exists None. split; [done|]. intros x. split; [done|lia]. }
  rewrite (proj2 (View.next_Some _ (parent p + 1))) by lia. simpl.
  destruct (forallb _ _) eqn:Ef; simpl.
  - destruct (is_certified_total st (parent p) (w_rounds _ Hw) (w_genesis _ Hw)) as [d Ed].
    exists d. split; [done|]. intros x. rewrite <- is_certified_Some, Ed. split.
    + intros ->. split; [lia|]. split; [|done]. intros w Hw'. rewrite forallb_forall in Ef.
      apply is_nullified_spec, Ef, list_elem_of_In, View.elem_of_range. lia.
    + intros (_ & _ & [= <-]). done.
  - exists None. split; [done|]. intros x. split; [done|]. intros (_ & Hn & _).
    apply not_true_iff_false in Ef. destruct Ef. apply forallb_forall. intros w Hin.
    apply list_elem_of_In, View.elem_of_range in Hin. apply is_nullified_spec, Hn. lia.
Qed.

Lemma own_parent_accepted st v u d x e : wf st → last_finalized st < v < 2 ^ 64 →
  find_parent st v = Ok (u, d) →
  parent_payload st (mkProposal (mkRnd e v) u x) = Some (Some d).
Proof.
  intros Hw Hv E. pose proof (find_parent_spec st v Hw ltac:(destruct Hw; lia)) as H.
  rewrite E in H. destruct H as (Hu & Hc & Hs).
  destruct (parent_payload_spec st (mkProposal (mkRnd e v) u x) Hw) as (d' & -> & Hd);
    [unfold proposal_view; simpl; lia|].
  f_equal. apply Hd. simpl. unfold proposal_view. simpl. split_and!; [|lia|..|done].
  - destruct (decide (last_finalized st ≤ u)) as [|Hlt]; [done|].
    destruct (last_finalized_certified st Hw). apply Hs. lia.
  - intros w Hw'. apply Hs. lia.
Qed.

(** The certificates a state holds for a view. *)
Definition certificates st v : option Notarization * option Nullification * option Finalization :=
  (notarization st v, nullification st v, finalization st v).

(** Every certificate of [a] is in [b]. *)
Definition includes (a b : option Notarization * option Nullification * option Finalization) : Prop :=
  (∀ n, a.1.1 = Some n → b.1.1 = Some n) ∧ (∀ n, a.1.2 = Some n → b.1.2 = Some n) ∧
  (∀ f, a.2 = Some f → b.2 = Some f).

#[global] Instance includes_preorder : PreOrder includes.
Proof. split; [by intros ?; split_and!|]. intros a b c (?&?&?) (?&?&?). split_and!; auto. Qed.

Lemma certificates_le st st' v : st_le st st' → includes (certificates st v) (certificates st' v).
Proof.
  intros Hle. unfold certificates, includes, notarization, nullification, finalization. simpl.
  destruct (views st !! v) as [r|] eqn:E; simpl; [|by split_and!].
  destruct (le_dom _ _ Hle v) as [r' E']; [by eauto|]. rewrite E'. simpl.
  destruct (le_views _ _ Hle v r' E') as (r0 & [Hr|[Hr _]] & Hrl); [|congruence].
  rewrite E in Hr. injection Hr as <-. split_and!; apply Hrl.
Qed.

Lemma exec_certificates now o st st' v : wf st → op_ok o → exec now o st = Some st' →
  min_active st ≤ min_active st' ∧
  (includes (certificates st v) (certificates st' v) ∨ v < min_active st').
Proof.
  intros Hw Ho E. destruct (exec_wf now o st st' Hw Ho E) as (Hw' & _ & Hlf).
  assert (activity_timeout st' = activity_timeout st ∧
    (includes (certificates st v) (certificates st' v) ∨ v < min_active st')) as [Ha H].
  { assert (o = SPrune ∨ o ≠ SPrune) as [->|Hp] by (destruct o; auto).
    - assert (st' = (prune st).1) as -> by (by injection E as <-).
      split; [done|]. destruct (decide (min_active st ≤ v)) as [Hm|Hm]; [|right].
      + left. enough (views (prune st).1 !! v = views st !! v) as Hv.
        { unfold certificates, notarization, nullification, finalization. by rewrite Hv. }
        change (filter (λ kv, min_active st ≤ kv.1) (views st) !! v = views st !! v).
        apply option_eq. intros r. rewrite map_lookup_filter_Some. naive_solver.
      + change (v < min_active st). lia.
    - destruct (exec_le now o st st' (w_rounds _ Hw) Hp E) as [Hle _].
      split; [apply Hle|left; by apply certificates_le]. }
  split; [|done]. unfold min_active, ConsensusTypes.min_active, View.saturating_sub, saturating_sub.
  rewrite Ha. lia.
Qed.

Lemma run_certificates ops st st' v : wf st → Forall (λ o, op_ok o.2) ops →
  run ops st = Some st' →
  min_active st ≤ min_active st' ∧
  (includes (certificates st v) (certificates st' v) ∨ v < min_active st').
Proof.
  intros Hw Ho. revert st Hw. induction Ho as [|[now o] ops Ho _ IH]; intros st Hw; simpl.
  { intros [= <-]. split; [done|by left]. }
  destruct (exec now o st) as [st1|] eqn:E; simpl; [|done].
  destruct (exec_wf now o st st1 Hw Ho E) as (Hw1 & _).
  destruct (exec_certificates now o st st1 v Hw Ho E) as [Hm1 Hc1]. intros H.
  destruct (IH st1 Hw1 H) as [Hm2 Hc2]. split; [lia|].
  destruct Hc2 as [Hc2|]; [|by right]. destruct Hc1 as [Hc1|]; [left; by etrans|right; lia].
Qed.

(** ** Properties *)

(** What holds of every state the voter reaches from its genesis. *)
Definition started (st : State) : Prop :=
  ∃ now sc el ns e act lt nt rt g,
    0 ≤ act ∧ set_genesis now (new sc el ns e act lt nt rt) g = Some st.

Lemma started_run st0 ops st : started st0 → Forall (λ o, op_ok o.2) ops → run ops st0 = Some st →
  wf st ∧ 1 ≤ view st.
Proof.
  intros (now & sc & el & ns & e & act & lt & nt & rt & g & Ha & E) Ho Hr.
  destruct (set_genesis_wf _ _ _ _ _ _ _ _ _ _ _ Ha E) as (Hw & Hv & _).
  destruct (run_wf ops st0 st Hw Ho Hr) as (? & ? & _). split; [done|lia].
Qed.

(** C20: whatever events a started voter handles, its current view stays
    tracked and above the last finalized view, neither view ever decreases, and
    a finalization certificate backs the last finalized view unless it is the
    genesis. *)
Theorem views_advance st0 ops st ops' st' :
  started st0 → Forall (λ o, op_ok o.2) (ops ++ ops') →
  run ops st0 = Some st → run ops' st = Some st' →
  view st ≤ view st' ∧ last_finalized st ≤ last_finalized st' ∧
  last_finalized st' < view st' ∧ is_Some (views st' !! view st') ∧
  (last_finalized st' = 0 ∨ is_Some (finalization st' (last_finalized st'))).
Proof.
  intros Hs Ho%Forall_app Hr Hr'. destruct Ho as [Ho Ho'].
  destruct (started_run _ _ _ Hs Ho Hr) as [Hw _].
  destruct (run_wf _ _ _ Hw Ho' Hr') as ([] & ? & ?). split_and!; done || lia.
Qed.

(** a certificate the voter has stored for a view stays, unchanged, until
    the view falls below the activity horizon. *)
Theorem certificates_persist st0 ops st ops' st' v :
  started st0 → Forall (λ o, op_ok o.2) (ops ++ ops') →
  run ops st0 = Some st → run ops' st = Some st' → min_active st' ≤ v →
  includes (certificates st v) (certificates st' v).
Proof.
  intros Hs Ho%Forall_app Hr Hr' Hm. destruct Ho as [Ho Ho'].
  destruct (started_run _ _ _ Hs Ho Hr) as [Hw _].
  destruct (run_certificates _ _ _ v Hw Ho' Hr') as [_ [|]]; [done|lia].
Qed.

(** C19: in every reachable state the parent search returns, without a panic:
    either the highest certified view below [v], everything in between being
    nullified, or the highest view below [v] that is neither certified nor
    nullified. *)
Theorem find_parent_correct st0 ops st v :
  started st0 → Forall (λ o, op_ok o.2) ops → run ops st0 = Some st → 1 ≤ v →
  match find_parent st v with
  | Ok (u, d) => 0 ≤ u < v ∧ certified_as st u d ∧ skipped st u (v - 1)
  | Err w => 0 < w < v ∧ uncertified st w ∧ ¬ nullified_at st w ∧ skipped st w (v - 1)
  | Panic => False
  end.
Proof. intros Hs Ho Hr Hv. by apply find_parent_spec; [eapply started_run|]. Qed.

(** in every reachable state a proposal is offered for verification with
    the payload of its parent exactly when the parent is certified, is below
    the proposal and not below the last finalized view, and every view in
    between is nullified; the check never panics. *)
Theorem parent_payload_correct st0 ops st p :
  started st0 → Forall (λ o, op_ok o.2) ops → run ops st0 = Some st → proposal_view p < 2 ^ 64 →
  ∃ d, parent_payload st p = Some d ∧
  ∀ x, d = Some x ↔
    last_finalized st ≤ parent p < proposal_view p ∧
    (∀ w, parent p < w < proposal_view p → nullified_at st w) ∧
    certified_as st (parent p) x.
Proof. intros Hs Ho Hr Hv. by apply parent_payload_spec; [eapply started_run|]. Qed.

(** in every reachable state [try_propose] returns; it asks for a proposal
    exactly when the round of the current view should propose and some certified
    view is followed by nullified views only; the parent it names is one the
    voter's own check accepts for a proposal of the current view with any
    payload, and it does not ask a second time. *)
Theorem try_propose_verifiable st0 ops st :
  started st0 → Forall (λ o, op_ok o.2) ops → run ops st0 = Some st →
  ∃ st' ctx, try_propose st = Some (st', ctx) ∧
  (is_Some ctx ↔
    (∃ r, views st !! view st = Some r ∧ Round.should_propose r = true) ∧
    ∃ u d, u < view st ∧ certified_as st u d ∧ skipped st u (view st - 1)) ∧
  ∀ c, ctx = Some c →
    ctx_round c = mkRnd (epoch st) (view st) ∧
    (∀ x, parent_payload st (mkProposal (ctx_round c) (ctx_parent c).1 x)
      = Some (Some (ctx_parent c).2)) ∧
    try_propose st' = Some (st', None).
Proof.
  intros Hs Ho Hr. destruct (started_run _ _ _ Hs Ho Hr) as [Hw Hv]. unfold try_propose at 1.
  destruct (Z.eqb_spec (view st) GENESIS_VIEW) as [E0|_]; [change GENESIS_VIEW with 0 in E0; lia|].
  destruct (w_current _ Hw) as [r Er]. rewrite Er. simpl.
  destruct (Round.should_propose r) eqn:Esp; simpl.
  2:{ eexists _, _. split; [done|]. split; [|done]. split; [by intros []|].
      intros [(? & ? & ?) _]. congruence. }
  pose proof (find_parent_spec st (view st) Hw Hv) as Hf.
  pose proof (λ u d x, own_parent_accepted st (view st) u d x (epoch st) Hw
    ltac:(destruct Hw; lia)) as Hown.
  destruct (find_parent st (view st)) as [[u d]|w|]; [..|done].
  - destruct (should_propose_once r Esp) as (l & Etp & Eagain). rewrite Etp. simpl.
    eexists _, _. split; [done|]. split; [split; [|by eauto]|].
    { intros _. split; [by eauto|]. exists u, d. destruct Hf as (? & ? & ?). split_and!; [lia|done..]. }
    intros c [= <-]. simpl. split; [done|]. split; [intros x; by apply Hown|].
    eapply try_propose_idle, Eagain. apply lookup_insert_eq.
  - eexists _, _. split; [done|]. split; [|done]. split; [by intros []|].
    intros [_ (u & d & Hu & Hc & Hsk)]. destruct Hf as (Hw0 & Hun & Hnn & Hsw).
    destruct (decide (u < w)); [by destruct (Hsk w ltac:(lia))|].
    destruct (certified_not_uncertified st u d Hc).
    destruct (decide (u = w)) as [->|]; [done|]. by apply Hsw; lia.
Qed.

(** pruning keeps exactly the rounds at or above the activity horizon and
    reports each dropped view once, in ascending order. *)
Theorem prune_correct st :
  (∀ v, views (prune st).1 !! v = if decide (min_active st ≤ v) then views st !! v else None) ∧
  Sorted Z.le (prune st).2 ∧ NoDup (prune st).2 ∧
  ∀ v, v ∈ (prune st).2 ↔ is_Some (views st !! v) ∧ v < min_active st.
Proof.
  split_and!.
  - intros v. change (filter (λ kv, min_active st ≤ kv.1) (views st) !! v =
      if decide (min_active st ≤ v) then views st !! v else None).
    apply option_eq. intros r. rewrite map_lookup_filter_Some. case_decide; naive_solver.
  - simpl. apply (Sorted_merge_sort Z.le).
  - simpl. rewrite (merge_sort_Permutation Z.le). apply NoDup_fst_map_to_list.
  - intros v. simpl. rewrite (merge_sort_Permutation Z.le), list_elem_of_fmap. split.
    + intros ([w r] & -> & H%elem_of_map_to_list). apply map_lookup_filter_Some in H.
      simpl in *. destruct H as [H ?]. split; [by eexists|lia].
    + intros [[r Hr] Hlt]. exists (v, r). split; [done|]. apply elem_of_map_to_list.
      apply map_lookup_filter_Some. split; [done|simpl; lia].
Qed.
End Spec.

(** ** Evaluation on a concrete voter *)

Section Witness.
Import Fixtures.

Definition demo_init : State := new (scheme 3) (λ r _, rnd_view r mod 4) [] 0 1 10 20 30.
Definition demo_start : State := default demo_init (set_genesis 0 demo_init 7).

(** View 1 is notarized and certified, view 2 nullified; the voter leads view
    3. *)
Definition demo_ops : list (Z * Op) :=
  [(1, SAddNotarization (mkNotarization (proposal 1 41) []));
   (2, SCertified 1 true);
   (3, SAddNullification (mkNullification (rnd 2) []))].
Definition demo_ops' : list (Z * Op) :=
  [(4, SAddFinalization (mkFinalization (proposal 3 43) [])); (5, SPrune)].
Definition demo_state : State := default demo_init (run demo_ops demo_start).
Definition demo_state' : State := default demo_init (run demo_ops' demo_state).

Lemma demo_started : started demo_start.
Proof.
  eexists 0, (scheme 3), (λ r _, rnd_view r mod 4), [], 0, 1, 10, 20, 30, 7. by split.
Qed.
Lemma demo_ops_ok : Forall (λ o : Z * Op, op_ok o.2) (demo_ops ++ demo_ops').
Proof. repeat constructor; vm_compute; discriminate. Qed.
Lemma demo_ops_ok1 : Forall (λ o : Z * Op, op_ok o.2) demo_ops.
Proof. repeat constructor. Qed.
Lemma demo_run : run demo_ops demo_start = Some demo_state.
Proof. vm_compute. reflexivity. Qed.
Lemma demo_run' : run demo_ops' demo_state = Some demo_state'.
Proof. vm_compute. reflexivity. Qed.

Example demo_find_parent : find_parent demo_state 3 = Ok (1, 41).
Proof. vm_compute. reflexivity. Qed.
Example demo_prune : min_active demo_state' = 2 ∧ (prune demo_state').2 = [].
Proof. vm_compute. done. Qed.

Lemma views_advance_witness : view demo_state = 3 ∧ view demo_state' = 4 ∧
  view demo_state ≤ view demo_state'.
Proof.
  split; [vm_compute; reflexivity|]. split; [vm_compute; reflexivity|].
  exact (proj1 (views_advance _ _ _ _ _ demo_started demo_ops_ok demo_run demo_run')).
Defined.

Lemma certificates_persist_witness :
  includes (certificates demo_state 2) (certificates demo_state' 2).
Proof.
  apply (certificates_persist _ _ _ _ _ 2 demo_started demo_ops_ok demo_run demo_run').
  vm_compute. discriminate.
Defined.

Lemma find_parent_correct_witness :
  0 ≤ 1 < 3 ∧ certified_as demo_state 1 41 ∧ skipped demo_state 1 2.
Proof.
  pose proof (find_parent_correct _ _ _ 3 demo_started demo_ops_ok1 demo_run ltac:(lia)) as H.
  rewrite demo_find_parent in H. exact H.
Defined.

Lemma parent_payload_correct_witness :
  ∃ d, parent_payload demo_state (mkProposal (T := types) (rnd 3) 1 50) = Some d ∧ d = Some 41.
Proof.
  destruct (parent_payload_correct _ _ _ (mkProposal (T := types) (rnd 3) 1 50) demo_started demo_ops_ok1 demo_run)
    as (d & E & H); [vm_compute; reflexivity|].
  exists d. split; [exact E|]. apply H. split; [vm_compute; split; [discriminate|reflexivity]|].
  split; [|apply is_certified_Some; vm_compute; reflexivity].
  intros w Hw. assert (w = 2) as -> by (unfold proposal_view in Hw; simpl in Hw; lia).
  apply is_nullified_spec. vm_compute. reflexivity.
Defined.

(** The voter leads view 3 and builds on view 1. *)
Lemma try_propose_verifiable_witness : ∃ st' c,
  try_propose demo_state = Some (st', Some c) ∧ try_propose st' = Some (st', None).
Proof.
  destruct (try_propose_verifiable _ _ _ demo_started demo_ops_ok1 demo_run)
    as (st' & ctx & E & _ & H).
  assert (snd <$> try_propose demo_state = Some (Some (mkContext (T := types) (rnd 3) 13 (1, 41))))
    as Ec by (vm_compute; reflexivity).
  rewrite E in Ec. injection Ec as ->. exists st', (mkContext (T := types) (rnd 3) 13 (1, 41)).
  split; [exact E|]. exact (proj2 (proj2 (H _ eq_refl))).
Defined.
End Witness.
End VoterStateSpec.
