(* ===== verification/VoterActor.v ===== *)
(** * The voter actor (consensus/src/simplex/actors/voter/actor.rs)

    The actor runs in a monad over its own state.  A computation returns the new
    state, or panics, and in both cases lists the effects it had on the way: what
    it wrote to the journal and what it sent.  [iterate] is one turn of the event
    loop on an event chosen by the environment, [start] the recovery that
    precedes the loop.

    [Disk] is the journal on disk, one section per view, each with the number of
    its items that are durable (storage/src/journal/segmented/variable.rs); the
    checksums, offsets and compression of that file are left out.  [step] puts the
    actor and its disk together: the process can die between any two effects and
    is then started again from what the disk kept.

    The clock is an argument, read once per turn; metrics are left out. *)

From S2P Require Import Prelude Codec ConsensusTypes SimplexTypes SimplexEvidence.
From S2P Require Import VoterSlot VoterRound VoterState.

(** ** Data *)

Inductive Resolved : Type :=
| RsNone
| RsNotarization
| RsNullification
| RsFinalization.

#[export] Instance Resolved_eq_dec : EqDecision Resolved.
Proof. solve_decision. Defined.

Section ActorData.
Context {T : Types}.

(** What the actor does to the outside: its journal, the network, the batcher,
    the resolver, the application, the reporter and the blocker. *)
Inductive Effect : Type :=
| EAppend (v : Z) (a : Artifact)
| ESync (v : Z)
| EPrune (min : Z)
| EClose
| EVote (v : Vote)
| ECertificate (c : Cert)
| EBatcherConstructed (v : Vote)
| EBatcherUpdate (current leader finalized : Z)
| EResolverUpdated (c : Cert)
| EResolverCertified (v : Z) (success : bool)
| EReport (a : Activity)
| EBlock (k : PublicKey)
| EPropose (c : Context_)
| EVerify (c : Context_) (payload : Digest)
| ECertify (payload : Digest)
| ERelay (payload : Digest).

(** The fields of the actor and the locals of its loop.  A request to the
    application is the context it was made with; a pooled certification request
    carries the number of its abort handle. *)
Record Actor : Type := mkActor {
  ac_state : State;
  certification_candidates : gset Z;
  ac_journal : bool;
  pending_propose : option Context_;
  pending_verify : option Context_;
  certify_pool : list (Z * Rnd);
  next_handle : Z;
}.

(** What the select of the loop can wait for; a response that is [None] was
    cancelled. *)
Inductive Event : Type :=
| EvShutdown
| EvTimeout
| EvProposed (r : option Digest)
| EvVerified (r : option bool)
| EvCertified (handle : Z) (r : option bool)
| EvProposal (p : Proposal)
| EvCertificate (c : Cert) (from_resolver : bool).

(** How a branch of the select ends: the loop goes on to send what became ready
    in a view, starts over, or stops. *)
Inductive Outcome : Type :=
| Notify (v : Z) (r : Resolved)
| Continue
| Stop.
End ActorData.

Module VoterActor.
Section Ops.
Context {T : Types}.

(** ** The monad *)

Definition M (A : Type) : Type := Actor → option (A * Actor) * list Effect.

Definition ret {A} (x : A) : M A := λ a, (Some (x, a), []).
Definition bind {A B} (m : M A) (k : A → M B) : M B := λ a,
  let '(r, es) := m a in
  match r with
  | None => (None, es)
  | Some (x, a) => let '(r, es') := k x a in (r, es ++ es')
  end.
(** A panic when there is no value. *)
Definition lift {A} (o : option A) : M A := λ a, ((λ x, (x, a)) <$> o, []).
Definition gets {A} (f : Actor → A) : M A := λ a, (Some (f a, a), []).
Definition modify (f : Actor → Actor) : M unit := λ a, (Some (tt, f a), []).
Definition emit (e : Effect) : M unit := λ a, (Some (tt, a), [e]).
Definition get_state : M State := gets ac_state.
Definition put_state (st : State) : M unit := modify (λ a, a {{ ac_state := st }}).
(** Run a method of the state. *)
Definition on_state {A} (f : State → State * A) : M A := λ a,
  let '(st, x) := f (ac_state a) in (Some (x, a {{ ac_state := st }}), []).
Definition on_state' {A} (f : State → option (State * A)) : M A := λ a,
  match f (ac_state a) with
  | Some (st, x) => (Some (x, a {{ ac_state := st }}), [])
  | None => (None, [])
  end.
End Ops.

Notation "'let!' x := m 'in' k" := (bind m (λ x, k))
  (at level 200, x pattern, right associativity) : cw_scope.
Notation "m ';;' k" := (bind m (λ _, k)) (at level 100, right associativity) : cw_scope.

Section Handlers.
Context {T : Types}.
Implicit Types v : Z.

Definition when (b : bool) (m : M unit) : M unit := if b then m else ret tt.
Fixpoint each {A} (f : A → M unit) (l : list A) : M unit :=
  match l with
  | [] => ret tt
  | x :: l => f x;; each f l
  end.
Definition update_state (f : State → State) : M unit := on_state (λ st, (f st, tt)).
Definition update_state' (f : State → option State) : M unit :=
  on_state' (λ st, st ← f st; Some (st, tt)).

Definition add_candidate v : M unit :=
  modify (λ a, a {{ certification_candidates := {[v]} ∪ certification_candidates a }}).
Definition set_pending_propose (p : option Context_) : M unit :=
  modify (λ a, a {{ pending_propose := p }}).
Definition set_pending_verify (p : option Context_) : M unit :=
  modify (λ a, a {{ pending_verify := p }}).

(** ** Journal and network *)

(** During the recovery the journal is not attached yet, and nothing is
    written. *)
Definition append_journal v (x : Artifact) : M unit :=
  let! live := gets ac_journal in when live (emit (EAppend v x)).
Definition sync_journal v : M unit :=
  let! live := gets ac_journal in when live (emit (ESync v)).

Definition prune_views : M unit :=
  let! removed := on_state VoterState.prune in
  match removed with
  | [] => ret tt
  | _ =>
      let! st := get_state in
      let! live := gets ac_journal in
      when live (emit (EPrune (VoterState.min_active st)))
  end.

Definition broadcast_vote (x : Vote) : M unit := emit (EVote x).
Definition broadcast_certificate (c : Cert) : M unit := emit (ECertificate c).
Definition block_equivocator (k : option PublicKey) : M unit :=
  match k with Some k => emit (EBlock k) | None => ret tt end.

(** ** Requests to the application *)

Definition try_propose : M (option Context_) :=
  let! ctx := on_state' VoterState.try_propose in
  match ctx with
  | None => ret None
  | Some ctx => emit (EPropose ctx);; ret (Some ctx)
  end.

Definition try_verify : M (option Context_) :=
  let! request := on_state' VoterState.try_verify in
  match request with
  | None => ret None
  | Some (ctx, proposal) => emit (EVerify ctx (payload proposal));; ret (Some ctx)
  end.

Definition try_certify v : M (option Rnd) :=
  let! st := get_state in
  match VoterState.try_certify st v with
  | CrReady proposal => emit (ECertify (payload proposal));; ret (Some (round proposal))
  | CrPending => add_candidate v;; ret None
  | CrSkip => ret None
  end.

(** ** Handlers *)

Definition handle_notarize (n : Notarize) : M unit :=
  append_journal (proposal_view (nt_proposal n)) (ANotarize n).
Definition handle_nullify (n : Nullify) : M unit :=
  append_journal (rnd_view (nl_round n)) (ANullify n).
Definition handle_finalize (f : Finalize) : M unit :=
  append_journal (proposal_view (fz_proposal f)) (AFinalize f).

Definition handle_notarization now (n : Notarization) : M unit :=
  let v := proposal_view (nz_proposal n) in
  let! (added, equivocator) := on_state' (λ st, VoterState.add_notarization now st n) in
  when added (add_candidate v;; append_journal v (ANotarization n));;
  block_equivocator equivocator.

Definition handle_nullification now (n : Nullification) : M (option Cert) :=
  let v := rnd_view (nlz_round n) in
  let! added := on_state' (λ st, VoterState.add_nullification now st n) in
  if negb added then ret None
  else
    append_journal v (ANullification n);;
    let! st := get_state in
    ret (leader ← VoterState.leader_index st v;
         if VoterState.is_me st leader then VoterState.parent_certificate st v else None).

Definition handle_finalization now (f : Finalization) : M unit :=
  let v := proposal_view (fzz_proposal f) in
  let! (added, equivocator) := on_state' (λ st, VoterState.add_finalization now st f) in
  when added (append_journal v (AFinalization f));;
  block_equivocator equivocator;;
  modify (λ a, a {{ certification_candidates :=
    filter (λ w, last_finalized (ac_state a) < w) (certification_candidates a) }}).

Definition handle_certification now v (success : bool) : M (option Notarization) :=
  let! n := on_state' (λ st, VoterState.certified now st v success) in
  match n with
  | None => ret None
  | Some n =>
      modify (λ a, a {{ certification_candidates := certification_candidates a ∖ {[v]} }});;
      let! st := get_state in
      append_journal v (ACertification (mkRnd (epoch st) v) success);;
      sync_journal v;;
      ret (Some n)
  end.

Definition handle_timeout now : M unit :=
  let! (retry, nullify, entry) := on_state (VoterState.handle_timeout now) in
  match nullify with
  | None => ret tt
  | Some nullify =>
      when (negb retry)
        (emit (EBatcherConstructed (VNullify nullify));;
         handle_nullify nullify;;
         sync_journal (rnd_view (nl_round nullify)));;
      broadcast_vote (VNullify nullify)
  end;;
  match entry with Some c => broadcast_certificate c | None => ret tt end.

Definition try_broadcast_notarize v : M unit :=
  let! n := on_state (λ st, VoterState.construct_notarize st v) in
  match n with
  | None => ret tt
  | Some n =>
      emit (EBatcherConstructed (VNotarize n));;
      handle_notarize n;;
      sync_journal v;;
      broadcast_vote (VNotarize n)
  end.

Definition try_broadcast_finalize v : M unit :=
  let! f := on_state (λ st, VoterState.construct_finalize st v) in
  match f with
  | None => ret tt
  | Some f =>
      emit (EBatcherConstructed (VFinalize f));;
      handle_finalize f;;
      sync_journal v;;
      broadcast_vote (VFinalize f)
  end.

Definition try_broadcast_notarization now v (resolved : Resolved) : M unit :=
  let! n := on_state (λ st, VoterState.broadcast_notarization st v) in
  match n with
  | None => ret tt
  | Some n =>
      when (bool_decide (resolved ≠ RsNotarization)) (emit (EResolverUpdated (CNotarization n)));;
      handle_notarization now n;;
      sync_journal v;;
      broadcast_certificate (CNotarization n);;
      emit (EReport (AcNotarization n))
  end.

Definition try_broadcast_nullification now v (resolved : Resolved) : M unit :=
  let! n := on_state (λ st, VoterState.broadcast_nullification st v) in
  match n with
  | None => ret tt
  | Some n =>
      when (bool_decide (resolved ≠ RsNullification)) (emit (EResolverUpdated (CNullification n)));;
      let! floor := handle_nullification now n in
      match floor with Some c => broadcast_certificate c | None => ret tt end;;
      sync_journal v;;
      broadcast_certificate (CNullification n);;
      emit (EReport (AcNullification n))
  end.

Definition try_broadcast_finalization now v (resolved : Resolved) : M unit :=
  let! f := on_state (λ st, VoterState.broadcast_finalization st v) in
  match f with
  | None => ret tt
  | Some f =>
      when (bool_decide (resolved ≠ RsFinalization)) (emit (EResolverUpdated (CFinalization f)));;
      handle_finalization now f;;
      sync_journal v;;
      broadcast_certificate (CFinalization f);;
      emit (EReport (AcFinalization f))
  end.

Definition notify now v (resolved : Resolved) : M unit :=
  try_broadcast_notarize v;;
  try_broadcast_notarization now v resolved;;
  try_broadcast_nullification now v resolved;;
  try_broadcast_finalize v;;
  try_broadcast_finalization now v resolved.

(** ** Recovery *)

Definition replay_artifact now (x : Artifact) : M unit :=
  update_state' (λ st, VoterState.replay now st x);;
  match x with
  | ANotarize n => handle_notarize n;; emit (EReport (AcNotarize n))
  | ANotarization n =>
      handle_notarization now n;;
      emit (EResolverUpdated (CNotarization n));;
      emit (EReport (AcNotarization n))
  | ACertification r success =>
      let! n := handle_certification now (rnd_view r) success in
      match n with
      | None => ret tt
      | Some n =>
          emit (EResolverCertified (rnd_view r) success);;
          when success (emit (EReport (AcCertification n)))
      end
  | ANullify n => handle_nullify n;; emit (EReport (AcNullify n))
  | ANullification n =>
      let! _ := handle_nullification now n in
      emit (EResolverUpdated (CNullification n));;
      emit (EReport (AcNullification n))
  | AFinalize f => handle_finalize f;; emit (EReport (AcFinalize f))
  | AFinalization f =>
      handle_finalization now f;;
      emit (EResolverUpdated (CFinalization f));;
      emit (EReport (AcFinalization f))
  end.

(** [run] up to its loop, on the artifacts the journal replays. *)
Definition recover now (genesis : Digest) (artifacts : list Artifact) : M unit :=
  update_state' (λ st, VoterState.set_genesis now st genesis);;
  each (replay_artifact now) artifacts;;
  modify (λ a, a {{ ac_journal := true }});;
  let! st := get_state in
  update_state (λ st', VoterState.expire_round now st' (view st));;
  let! st := get_state in
  let! leader := lift (VoterState.leader_index st (view st)) in
  emit (EBatcherUpdate (view st) leader (last_finalized st)).

(** ** The event loop *)

(** Requests of earlier views are dropped; then the actor asks the application
    for what the current view and the certification candidates need. *)
Definition drop_stale (v : Z) (p : option Context_) : option Context_ :=
  ctx ← p; if rnd_view (ctx_round ctx) =? v then Some ctx else None.

Definition certify_candidate v : M unit :=
  let! request := try_certify v in
  match request with
  | None => ret tt
  | Some r =>
      let! handle := gets next_handle in
      modify (λ a, a {{ certify_pool := (handle, r) :: certify_pool a; next_handle := handle + 1 }});;
      update_state (λ st, VoterState.set_certify_handle st (rnd_view r) handle)
  end.

Definition loop_top now : M unit :=
  modify (λ a, a {{ pending_propose := drop_stale (view (ac_state a)) (pending_propose a);
                    pending_verify := drop_stale (view (ac_state a)) (pending_verify a) }});;
  let! pp := gets pending_propose in
  match pp with
  | None => let! p := try_propose in set_pending_propose p
  | Some _ => ret tt
  end;;
  let! pv := gets pending_verify in
  match pv with
  | None => let! p := try_verify in set_pending_verify p
  | Some _ => ret tt
  end;;
  let! candidates := gets certification_candidates in
  modify (λ a, a {{ certification_candidates := ∅ }});;
  let! st := get_state in
  let! first := lift (View.next (last_finalized st)) in
  each certify_candidate (merge_sort Z.le (elements (filter (λ w, first ≤ w) candidates)));;
  let! _ := on_state (VoterState.next_timeout_deadline now) in ret tt.

(** A dropped handle aborts its request. *)
Definition handle_live st (handle : Z) : bool :=
  bool_decide (map_Exists (λ _ r, certify_handle r = Some handle) (views st)).

Definition on_proposed (r : option Digest) : M Outcome :=
  let! pp := gets pending_propose in
  let! ctx := lift pp in
  set_pending_propose None;;
  match r with
  | None => ret Continue
  | Some proposed =>
      let! st := get_state in
      if bool_decide (mkRnd (epoch st) (view st) ≠ ctx_round ctx) then ret Continue
      else
        let! ok := on_state (λ st, VoterState.proposed st
                     (mkProposal (ctx_round ctx) (ctx_parent ctx).1 proposed)) in
        if negb ok then ret Continue
        else
          let! st := get_state in
          emit (ERelay proposed);;
          ret (Notify (view st) RsNone)
  end.

Definition on_verified now (r : option bool) : M Outcome :=
  let! pv := gets pending_verify in
  let! ctx := lift pv in
  set_pending_verify None;;
  let v := rnd_view (ctx_round ctx) in
  match r with
  | Some true => let! _ := on_state (λ st, VoterState.verified st v) in ret tt
  | Some false => handle_timeout now
  | None => ret tt
  end;;
  ret (Notify v RsNone).

Definition on_certified now (handle : Z) (r : option bool) : M Outcome :=
  let! pool := gets certify_pool in
  let! request := lift (snd <$> head (filter (λ hr, hr.1 = handle) pool)) in
  modify (λ a, a {{ certify_pool := filter (λ hr, hr.1 ≠ handle) (certify_pool a) }});;
  let! st := get_state in
  let v := rnd_view request in
  if negb (handle_live st handle) then ret Continue
  else
    match r with
    | Some certified =>
        let! n := handle_certification now v certified in
        match n with
        | None => ret Continue
        | Some n =>
            emit (EResolverCertified v certified);;
            when certified (emit (EReport (AcCertification n)));;
            ret (Notify v RsNone)
        end
    | None =>
        update_state (λ st, VoterState.retry_certification st v);;
        add_candidate v;;
        ret (Notify v RsNone)
    end.

Definition on_proposal now (p : Proposal) : M Outcome :=
  let v := proposal_view p in
  let! st := get_state in
  let! interesting := lift (VoterState.is_interesting st v false) in
  if negb interesting then ret Continue
  else
    let! ok := on_state (λ st, VoterState.set_proposal now st v p) in
    ret (if ok : bool then Notify v RsNone else Continue).

Definition on_certificate now (c : Cert) (from_resolver : bool) : M Outcome :=
  let v := cert_view c in
  let! st := get_state in
  let! interesting := lift (VoterState.is_interesting st v true) in
  if negb interesting then ret Continue
  else
    match c with
    | CNotarization n =>
        handle_notarization now n;;
        ret (Notify v (if from_resolver then RsNotarization else RsNone))
    | CNullification n =>
        let! floor := handle_nullification now n in
        match floor with Some c => broadcast_certificate c | None => ret tt end;;
        ret (Notify v (if from_resolver then RsNullification else RsNone))
    | CFinalization f =>
        handle_finalization now f;;
        ret (Notify v (if from_resolver then RsFinalization else RsNone))
    end.

Definition select now (ev : Event) : M Outcome :=
  match ev with
  | EvShutdown => emit EClose;; ret Stop
  | EvTimeout =>
      handle_timeout now;;
      let! st := get_state in ret (Notify (view st) RsNone)
  | EvProposed r => on_proposed r
  | EvVerified r => on_verified now r
  | EvCertified handle r => on_certified now handle r
  | EvProposal p => on_proposal now p
  | EvCertificate c from_resolver => on_certificate now c from_resolver
  end.

(** The batcher answers an update with whether the leader is active. *)
Definition update_batcher now (start : Z) (is_active : bool) : M unit :=
  let! st := get_state in
  let current := view st in
  when (start <? current)
    (let! leader := lift (VoterState.leader_index st current) in
     emit (EBatcherUpdate current leader (last_finalized st));;
     when (negb is_active && negb (VoterState.is_me st leader))
       (update_state (λ st, VoterState.expire_round now st current))).

(** One turn of the loop; the result says whether the loop goes on. *)
Definition iterate now (ev : Event) (is_active : bool) : M bool :=
  loop_top now;;
  let! st := get_state in
  let! out := select now ev in
  match out with
  | Stop => ret false
  | Continue => ret true
  | Notify v resolved =>
      notify now v resolved;;
      prune_views;;
      update_batcher now (view st) is_active;;
      ret true
  end.
End Handlers.

(** ** The actor, its journal and crashes *)

Section System.
Context {T : Types}.

Record Disk : Type := mkDisk { sections : gmap Z (list Artifact * nat); oldest : Z }.

Definition section (d : Disk) (v : Z) : list Artifact * nat := default ([], 0%nat) (sections d !! v).

(** A section that was pruned since the journal was opened cannot be used. *)
Definition prune_guard (d : Disk) (v : Z) : option unit := if v <? oldest d then None else Some tt.

Definition append (d : Disk) (v : Z) (a : Artifact) : option Disk :=
  _ ← prune_guard d v;
  let '(items, synced) := section d v in
  Some (mkDisk (<[v := (items ++ [a], synced)]> (sections d)) (oldest d)).

Definition sync (d : Disk) (v : Z) : option Disk :=
  _ ← prune_guard d v;
  Some (mkDisk (alter (λ s, (s.1, length s.1)) v (sections d)) (oldest d)).

Definition prune (d : Disk) (min : Z) : Disk :=
  mkDisk (filter (λ kv, min ≤ kv.1) (sections d))
    (if bool_decide (map_Exists (λ v _, v < min) (sections d)) then min else oldest d).

Definition close (d : Disk) : Disk :=
  mkDisk ((λ s, (s.1, length s.1)) <$> sections d) (oldest d).

(** The journal after an effect; [None] is a panic of the actor, which expects
    its journal to work. *)
Definition apply_effect (d : Disk) (e : Effect) : option Disk :=
  match e with
  | EAppend v a => append d v a
  | ESync v => sync d v
  | EPrune min => Some (prune d min)
  | EClose => Some (close d)
  | _ => Some d
  end.
Fixpoint apply_effects (d : Disk) (es : list Effect) : option Disk :=
  match es with
  | [] => Some d
  | e :: es => d ← apply_effect d e; apply_effects d es
  end.

Definition votes (es : list Effect) : list Vote :=
  omap (λ e, match e with EVote x => Some x | _ => None end) es.

(** Where the process can die: between two effects, or with part of the sections
    to prune removed. *)
Inductive crash_point : list Effect → list Effect → Prop :=
| crash_prefix es es' : crash_point es (es ++ es')
| crash_prune es m m' es' : m' ≤ m → crash_point (es ++ [EPrune m']) (es ++ EPrune m :: es').

(** What a new process reads: of every section the durable items and some of
    those that follow. *)
Definition crash (keep : Z → nat) (d : Disk) : Disk :=
  mkDisk (map_imap (λ v s, let items := take (max s.2 (keep v)) s.1 in Some (items, length items))
    (sections d)) 0.

(** The items of all sections, in ascending order of the sections. *)
Definition replay_order (d : Disk) : list Artifact :=
  concat (map (λ v, (section d v).1) (merge_sort Z.le (elements (dom (sections d))))).

(** A node: the running actor, if any, what is on disk, the votes sent and the
    certificates delivered to it so far. *)
Record Node : Type := mkNode {
  n_actor : option Actor;
  n_disk : Disk;
  n_sent : list Vote;
  n_received : list Cert;
}.

Definition new (st : State) : Actor := mkActor st ∅ false None None [] 0.
Definition boot : Node := mkNode None (mkDisk ∅ 0) [] [].
Definition received (ev : Event) : list Cert :=
  match ev with EvCertificate c _ => [c] | _ => [] end.

(** What happens to a node whose state starts as [st]: a turn of the loop, the
    death of the process in the middle of a turn (a panic included), or a start.
    The label is the event the turn handles. *)
Inductive step (st : State) (genesis : Digest) : option Event → Node → Node → Prop :=
| step_turn now ev is_active n a a' d :
    n_actor n = Some a →
    (iterate now ev is_active a).1 = Some (true, a') →
    apply_effects (n_disk n) (iterate now ev is_active a).2 = Some d →
    step st genesis (Some ev) n
      (mkNode (Some a') d (n_sent n ++ votes (iterate now ev is_active a).2)
         (received ev ++ n_received n))
| step_crash now ev is_active keep n a es d :
    n_actor n = Some a →
    crash_point es (iterate now ev is_active a).2 →
    apply_effects (n_disk n) es = Some d →
    step st genesis (Some ev) n
      (mkNode None (crash keep d) (n_sent n ++ votes es) (received ev ++ n_received n))
| step_start now n a es :
    n_actor n = None →
    recover now genesis (replay_order (n_disk n)) (new st) = (Some (tt, a), es) →
    step st genesis None n (mkNode (Some a) (n_disk n) (n_sent n) (n_received n)).

Inductive reachable (st : State) (genesis : Digest) : Node → Prop :=
| reachable_boot : reachable st genesis boot
| reachable_step l n n' :
    reachable st genesis n → step st genesis l n n' → reachable st genesis n'.
(** Moves of a node that can be evaluated; a crash point is given by the number
    of effects that happened. *)
Inductive Move : Type :=
| MTurn (now : Z) (ev : Event) (is_active : bool)
| MCrash (now : Z) (ev : Event) (is_active : bool) (effects kept : nat)
| MStart (now : Z).

Definition move (st : State) (genesis : Digest) (m : Move) (n : Node) : option Node :=
  match m, n_actor n with
  | MTurn now ev is_active, Some a =>
      let '(r, es) := iterate now ev is_active a in
      d ← apply_effects (n_disk n) es;
      match r with
      | Some (true, a') => Some (mkNode (Some a') d (n_sent n ++ votes es) (received ev ++ n_received n))
      | _ => None
      end
  | MCrash now ev is_active effects kept, Some a =>
      let es := take effects (iterate now ev is_active a).2 in
      d ← apply_effects (n_disk n) es;
      Some (mkNode None (crash (λ _, kept) d) (n_sent n ++ votes es) (received ev ++ n_received n))
  | MStart now, None =>
      match recover now genesis (replay_order (n_disk n)) (new st) with
      | (Some (_, a), _) => Some (mkNode (Some a) (n_disk n) (n_sent n) (n_received n))
      | _ => None
      end
  | _, _ => None
  end.

Fixpoint play (st : State) (genesis : Digest) (ms : list Move) (n : Node) : option Node :=
  match ms with
  | [] => Some n
  | m :: ms => n ← move st genesis m n; play st genesis ms n
  end.

(** The event of a move. *)
Definition move_event (m : Move) : option Event :=
  match m with MTurn _ ev _ | MCrash _ ev _ _ _ => Some ev | MStart _ => None end.

Lemma append_Some d v a d' : append d v a = Some d' →
  d' = mkDisk (<[v := ((section d v).1 ++ [a], (section d v).2)]> (sections d)) (oldest d).
Proof. unfold append, prune_guard. destruct (v <? oldest d); simpl; [done|]. destruct (section d v). by intros [= <-]. Qed.

Lemma sync_Some d v d' : sync d v = Some d' →
  d' = mkDisk (alter (λ s, (s.1, length s.1)) v (sections d)) (oldest d).
Proof. unfold sync, prune_guard. destruct (v <? oldest d); simpl; [done|]. by intros [= <-]. Qed.

Lemma move_step st genesis m n n' : move st genesis m n = Some n' → step st genesis (move_event m) n n'.
Proof.
  unfold move. destruct m as [now ev active|now ev active k kept|now]; destruct (n_actor n) as [a|] eqn:Ea; try done.
  - destruct (iterate now ev active a) as [r es] eqn:Ei. destruct (apply_effects _ es) as [d|] eqn:Ed; simpl; [|done].
    destruct r as [[[] a']|]; try done. intros [= <-].
    pose proof (step_turn st genesis now ev active n a a' d Ea) as H. rewrite Ei in H. by apply H.
  - destruct (apply_effects _ _) as [d|] eqn:Ed; simpl; [|done]. intros [= <-].
    eapply step_crash; [done| |done].
    rewrite <- (take_drop k (iterate now ev active a).2) at 2. constructor.
  - destruct (recover _ _ _ _) as [[[[] a]|] es] eqn:Er; [|done]. intros [= <-]. by eapply step_start.
Qed.

Lemma play_reachable st genesis ms : ∀ n n',
  reachable st genesis n → play st genesis ms n = Some n' → reachable st genesis n'.
Proof.
  induction ms as [|m ms IH]; intros n n' Hn; simpl; [by intros [= <-]|].
  destruct (move st genesis m n) as [n1|] eqn:E; simpl; [|done].
  eapply IH. by eapply reachable_step, move_step.
Qed.
End System.
End VoterActor.
