(* ===== verification/VoterActorLogic.v ===== *)
(** * A crash logic for the voter actor

    [triple C P m Q]: a computation that starts in an actor, a disk and votes
    satisfying [P] ends, if it returns, in ones satisfying [Q], and wherever the
    process dies on the way, disk and votes satisfy [C]. *)

From S2P Require Import Prelude Codec ConsensusTypes SimplexTypes SimplexEvidence.
From S2P Require Import VoterSlot VoterRound VoterState VoterActor.
Import VoterActor.

Module VoterActorLogic.
Section Logic.
Context {T : Types}.

(** ** Effects *)

Lemma apply_effects_app d es1 es2 :
  apply_effects d (es1 ++ es2) = (d ← apply_effects d es1; apply_effects d es2).
Proof.
  revert d. induction es1 as [|e es1 IH]; intros d; [done|]. simpl.
  destruct (apply_effect d e); simpl; [apply IH|done].
Qed.

Lemma votes_app es1 es2 : votes (es1 ++ es2) = votes es1 ++ votes es2.
Proof. apply omap_app. Qed.

(** Effects that change neither the disk nor the votes. *)
Definition silent (e : Effect) : bool :=
  match e with EAppend _ _ | ESync _ | EPrune _ | EClose | EVote _ => false | _ => true end.

Definition core (es : list Effect) : list Effect := filter (λ e, silent e = false) es.

Lemma core_app es1 es2 : core (es1 ++ es2) = core es1 ++ core es2.
Proof. apply filter_app. Qed.
Lemma core_cons e es : core (e :: es) = if silent e then core es else e :: core es.
Proof. unfold core. rewrite filter_cons. by destruct (silent e). Qed.

Lemma apply_core es : ∀ d, apply_effects d es = apply_effects d (core es).
Proof.
  induction es as [|e es IH]; intros d; [done|]. rewrite core_cons.
  destruct (silent e) eqn:E; simpl; [|by destruct (apply_effect d e); simpl].
  by destruct e; simpl.
Qed.
Lemma votes_core es : votes es = votes (core es).
Proof.
  induction es as [|e es IH]; [done|]. rewrite core_cons.
  change (e :: es) with ([e] ++ es). rewrite votes_app, IH.
  destruct (silent e) eqn:E; [by destruct e|]. by rewrite <- votes_app.
Qed.

Definition certificate_of (c : option Cert) : list Effect :=
  match c with Some c => [ECertificate c] | None => [] end.

Lemma core_certificate c : core (certificate_of c) = [].
Proof. by destruct c. Qed.

(** The journal is not pruned. *)
Definition unpruned (es : list Effect) : Prop := ∀ m, EPrune m ∉ es.

Lemma unpruned_nil : unpruned [].
Proof. intros m. apply not_elem_of_nil. Qed.
Lemma unpruned_cons e es : (∀ m, e ≠ EPrune m) → unpruned es → unpruned (e :: es).
Proof. intros He Hes m [E|H]%elem_of_cons; [by destruct (He m)|by destruct (Hes m)]. Qed.
Lemma unpruned_app es1 es2 : unpruned es1 → unpruned es2 → unpruned (es1 ++ es2).
Proof. intros H1 H2 m [H|H]%elem_of_app; [by destruct (H1 m)|by destruct (H2 m)]. Qed.
Lemma unpruned_certificate c : unpruned (certificate_of c).
Proof. destruct c; [apply unpruned_cons; [done|]|]; apply unpruned_nil. Qed.

(** ** Crash points *)

Lemma crash_point_app es1 es2 es : crash_point es (es1 ++ es2) →
  crash_point es es1 ∨ ∃ es', es = es1 ++ es' ∧ es' ≠ [] ∧ crash_point es' es2.
Proof.
  intros H. remember (es1 ++ es2) as l eqn:E. destruct H as [es k|es m m' k Hm]; symmetry in E.
  - apply app_eq_inv in E as [(j & -> & ->)|(j & -> & ->)]; [left; constructor|].
    destruct j as [|e j].
    { left. rewrite app_nil_r. rewrite <- (app_nil_r es1) at 2. constructor. }
    right. exists (e :: j). split_and!; [done..|constructor].
  - apply app_eq_inv in E as [([|e j] & -> & E)|(j & -> & ->)].
    + simpl in E. rewrite app_nil_r. right. exists [EPrune m']. split_and!; [done..|].
      rewrite <- E. by apply (crash_prune [] m m' k).
    + injection E as <- ->. left. by constructor.
    + right. exists (j ++ [EPrune m']). split_and!; [by rewrite app_assoc|by destruct j|by constructor].
Qed.

Lemma crash_point_cons e es es' : crash_point es' (e :: es) →
  es' = [] ∨ (∃ es'', es' = e :: es'' ∧ crash_point es'' es) ∨
  ∃ m m', e = EPrune m ∧ m' ≤ m ∧ es' = [EPrune m'].
Proof.
  intros H. remember (e :: es) as l eqn:E. destruct H as [es' k|es' m m' k Hm].
  - destruct es' as [|e' es']; [by left|]. injection E as -> <-. right; left.
    eexists. split; [done|constructor].
  - destruct es' as [|e' es'].
    + injection E as <- <-. right; right. by eexists _, _.
    + injection E as -> <-. right; left. eexists. split; [done|]. by constructor.
Qed.

Lemma crash_point_nil es : crash_point es [] → es = [].
Proof.
  intros H. remember [] as l eqn:E. destruct H as [es k|es m m' k Hm]; by destruct es.
Qed.

(** Without a pruning of the journal, the crash points are the prefixes, and
    silent effects do not matter. *)
Lemma crash_point_core es es' : crash_point es' es → unpruned es →
  ∃ k, core es = core es' ++ k.
Proof.
  intros [es1 k|es1 m m' k Hm] Hp.
  - rewrite core_app. by eexists.
  - destruct (Hp m). apply elem_of_app. right. constructor.
Qed.

(** ** Triples *)

Definition assertion : Type := Actor → Disk → list Vote → Prop.

(** What a result with its effects, from a disk and votes, may end in. *)
Definition ends {A} (C : Disk → list Vote → Prop) (d : Disk) (s : list Vote)
    (res : option (A * Actor) * list Effect) (Q : A → assertion) : Prop :=
  (∀ es d', crash_point es res.2 → es ≠ [] → apply_effects d es = Some d' →
     C d' (s ++ votes es)) ∧
  (∀ x a' d', res.1 = Some (x, a') → apply_effects d res.2 = Some d' →
     Q x a' d' (s ++ votes res.2)).

Definition triple {A} (C : Disk → list Vote → Prop) (P : assertion) (m : M A)
    (Q : A → assertion) : Prop :=
  ∀ a d s, P a d s → ends C d s (m a) Q.

Context {C : Disk → list Vote → Prop}.

Lemma ends_panic {A} d s (Q : A → assertion) : ends C d s (None, []) Q.
Proof. by split; [intros es d' ->%crash_point_nil Hn|]. Qed.

Lemma ends_quiet {A} d s (x : A) a' (Q : A → assertion) : Q x a' d s → ends C d s (Some (x, a'), []) Q.
Proof.
  intros H. split; [by intros es d' ->%crash_point_nil Hn|].
  intros ? ? ? [= <- <-] [= <-]. by rewrite app_nil_r.
Qed.

(** A panic after silent effects. *)
Lemma ends_silent {A} d s es (Q : A → assertion) : C d s → core es = [] → unpruned es →
  ends C d s (None, es) Q.
Proof.
  intros HC He Hp. split; [|done]. intros es' d' Hc Hn. destruct (crash_point_core _ _ Hc Hp) as [k Hk].
  simpl in Hk. rewrite He in Hk. symmetry in Hk. apply app_eq_nil in Hk as [Hk _].
  rewrite apply_core, votes_core, Hk. intros [= <-]. by rewrite app_nil_r.
Qed.

Lemma triple_conseq {A} (P P' : assertion) (m : M A) (Q Q' : A → assertion) :
  triple C P m Q → (∀ a d s, P' a d s → P a d s) → (∀ x a d s, Q x a d s → Q' x a d s) →
  triple C P' m Q'.
Proof.
  intros H HP HQ a d s Ha. destruct (H a d s (HP _ _ _ Ha)) as [H1 H2]. split; [done|eauto].
Qed.

Lemma triple_post {A} (P : assertion) (m : M A) (Q Q' : A → assertion) :
  triple C P m Q → (∀ x a d s, Q x a d s → Q' x a d s) → triple C P m Q'.
Proof. intros H HQ. by eapply triple_conseq. Qed.

Lemma triple_ret {A} (P : assertion) (x : A) (Q : A → assertion) :
  (∀ a d s, P a d s → Q x a d s) → triple C P (ret x) Q.
Proof.
  intros H a d s Ha. apply ends_quiet. auto.
Qed.

Lemma triple_bind {A B} (P : assertion) (m : M A) (R : A → assertion) (k : A → M B) (Q : B → assertion) :
  triple C P m R → (∀ x, triple C (R x) (k x) Q) → triple C P (bind m k) Q.
Proof.
  intros Hm Hk a d s Ha. destruct (Hm a d s Ha) as [Hm1 Hm2]. unfold bind.
  destruct (m a) as [[[x a1]|] es1]; simpl in *; [|by split].
  destruct (k x a1) as [r es2] eqn:Ek. unfold ends. simpl.
  split.
  - intros es d' [Hc|(es' & -> & Hn' & Hc)]%crash_point_app Hn Ha'; [by eapply Hm1|].
    rewrite apply_effects_app in Ha'. destruct (apply_effects d es1) as [d1|] eqn:E1; [|done].
    rewrite votes_app, app_assoc.
    destruct (Hk x a1 d1 _ (Hm2 x a1 d1 eq_refl eq_refl)) as [Hk1 _]. rewrite Ek in Hk1. by eapply Hk1.
  - intros y a' d' -> Ha'. rewrite apply_effects_app in Ha'.
    destruct (apply_effects d es1) as [d1|] eqn:E1; [|done]. rewrite votes_app, app_assoc.
    destruct (Hk x a1 d1 _ (Hm2 x a1 d1 eq_refl eq_refl)) as [_ Hk2]. rewrite Ek in Hk2. by eapply Hk2.
Qed.

(** A computation without effects. *)
Lemma triple_quiet {A} (P : assertion) (m : M A) (Q : A → assertion) :
  (∀ a d s, P a d s → (m a).2 = [] ∧ ∀ x a', (m a).1 = Some (x, a') → Q x a' d s) →
  triple C P m Q.
Proof.
  intros H a d s Ha. destruct (H a d s Ha) as [E HQ]. unfold ends. rewrite E. split.
  - by intros es d' ->%crash_point_nil Hn.
  - intros ? ? ? Hm [= <-]. rewrite app_nil_r. auto.
Qed.

Lemma triple_gets {A} (P : assertion) (f : Actor → A) (Q : A → assertion) :
  (∀ a d s, P a d s → Q (f a) a d s) → triple C P (gets f) Q.
Proof. intros H. apply triple_quiet. intros a d s Ha. split; [done|]. intros ? ? [= <- <-]. auto. Qed.

Lemma triple_lift {A} (P : assertion) (o : option A) (Q : A → assertion) :
  (∀ x a d s, o = Some x → P a d s → Q x a d s) → triple C P (lift o) Q.
Proof.
  intros H. apply triple_quiet. intros a d s Ha. split; [done|].
  destruct o as [y|]; simpl; [intros ? ? [= <- <-]; auto|done].
Qed.

Lemma triple_modify (P : assertion) (f : Actor → Actor) (Q : unit → assertion) :
  (∀ a d s, P a d s → Q tt (f a) d s) → triple C P (modify f) Q.
Proof. intros H. apply triple_quiet. intros a d s Ha. split; [done|]. intros ? ? [= <- <-]. auto. Qed.

Lemma triple_on_state {A} (P : assertion) (f : State → State * A) (Q : A → assertion) :
  (∀ a d s, P a d s → Q (f (ac_state a)).2 (a {{ ac_state := (f (ac_state a)).1 }}) d s) →
  triple C P (on_state f) Q.
Proof.
  intros H. apply triple_quiet. intros a d s Ha. specialize (H _ _ _ Ha). unfold on_state.
  destruct (f (ac_state a)) as [st x]. split; [done|]. by intros ? ? [= <- <-].
Qed.

Lemma triple_on_state' {A} (P : assertion) (f : State → option (State * A)) (Q : A → assertion) :
  (∀ a d s st x, P a d s → f (ac_state a) = Some (st, x) → Q x (a {{ ac_state := st }}) d s) →
  triple C P (on_state' f) Q.
Proof.
  intros H. apply triple_quiet. intros a d s Ha. unfold on_state'.
  destruct (f (ac_state a)) as [[st x]|] eqn:E; split; try done. intros ? ? [= <- <-]. eauto.
Qed.

Lemma triple_emit (P : assertion) (e : Effect) (Q : unit → assertion) :
  silent e = true → (∀ a d s, P a d s → C d s) → (∀ a d s, P a d s → Q tt a d s) →
  triple C P (emit e) Q.
Proof.
  intros He HC H a d s Ha. unfold emit.
  assert (apply_effects d [e] = Some d ∧ votes [e] = []) as [Hd Hv] by (by destruct e).
  unfold ends. simpl fst. simpl snd. rewrite Hd, Hv, app_nil_r. split.
  - intros es d' Hc Hn. apply crash_point_cons in Hc as [->|[(es' & -> & Hc)|(? & ? & -> & _)]]; [done| |done].
    apply crash_point_nil in Hc as ->. rewrite Hd, Hv, app_nil_r. intros [= <-]. eauto.
  - intros ? ? ? [= <- <-] [= <-]. auto.
Qed.

Lemma triple_when (P : assertion) (b : bool) (m : M unit) (Q : unit → assertion) :
  (b = true → triple C P m Q) → (b = false → ∀ a d s, P a d s → Q tt a d s) →
  triple C P (when b m) Q.
Proof. intros H1 H2. destruct b; simpl; [auto|apply triple_ret; auto]. Qed.

Lemma triple_each {A} (P : assertion) (f : A → M unit) (l : list A) :
  (∀ x, triple C P (f x) (λ _, P)) → triple C P (each f l) (λ _, P).
Proof.
  intros H. induction l as [|x l IH]; simpl; [by apply triple_ret|].
  eapply triple_bind; [apply H|]. by intros [].
Qed.

Lemma triple_gets_eq {A} (P : assertion) (f : Actor → A) :
  triple C P (gets f) (λ x a d s, P a d s ∧ x = f a).
Proof. by apply triple_gets. Qed.

(** Carry a fact that does not depend on the state. *)
Lemma triple_pure {A} (φ : Prop) (P : assertion) (m : M A) (Q : A → assertion) :
  (φ → triple C P m Q) → triple C (λ a d s, P a d s ∧ φ) m Q.
Proof. intros H a d s [Ha Hφ]. exact (H Hφ a d s Ha). Qed.
End Logic.

#[export] Hint Resolve unpruned_nil unpruned_app unpruned_certificate : cw.
#[export] Hint Extern 2 (unpruned (_ :: _)) => (apply unpruned_cons; [done|]) : cw.
End VoterActorLogic.
