(* ===== verification/VoterRefinement.v ===== *)
(** * The voter actor refines its per-view specification

    [VoterJournal] specifies what a node may do in one view; [VoterActor] is the
    actor with all its views, one journal and one event loop.  [reaches] says that
    a run of the specification leads to a round, a journal and the votes sent;
    the simulation [live] holds that every view of a running actor is reached in
    this way, and [down] the same of what a crash leaves on disk.

    Views below the horizon [h] were pruned from the journal.  Nothing happens in
    them any more, because a finalization that puts them out of the activity
    window is durable. *)

From S2P Require Import Prelude Codec ConsensusTypes SimplexTypes SimplexEvidence VoterSlot VoterRound.
From S2P Require Import VoterJournal VoterState VoterStateSpec VoterActor VoterActorLogic Fixtures.
Import VoterActor VoterActorLogic.

Module VoterRefinement.
Section Refinement.
Context {T : Types} (scheme : Scheme) (namespace : bytes) (ep act : Z).
Implicit Types st : State.
Implicit Types v h : Z.

Notation jnode := VoterJournal.mkNode.
Notation jexec v := (VoterJournal.exec scheme namespace (mkRnd ep v)).
Notation jrun v := (VoterJournal.run scheme namespace (mkRnd ep v)).
Notation jinit v := (VoterJournal.init scheme (mkRnd ep v)).
Notation jrecover v := (VoterJournal.recover scheme (mkRnd ep v)).

(** ** Runs of the specification *)

Definition reaches v (nd : VoterJournal.Node) (sent : list Vote) : Prop :=
  ∃ now ops, jrun v ops (jinit v now) [] = Some (nd, sent).

Lemma run_snoc v ops o : ∀ nd sent,
  jrun v (ops ++ [o]) nd sent =
  ('(nd, sent) ← jrun v ops nd sent;
   '(nd, out) ← jexec v o nd; Some (nd, sent ++ option_list out)).
Proof.
  induction ops as [|o' ops IH]; intros nd sent; simpl.
  - by destruct (jexec v o nd) as [[nd' out]|]; simpl.
  - destruct (jexec v o' nd) as [[nd' out]|]; simpl; [apply IH|done].
Qed.

Lemma reaches_init v now : reaches v (jinit v now) [].
Proof. by exists now, []. Qed.

Lemma reaches_exec v o nd nd' out sent :
  reaches v nd sent → jexec v o nd = Some (nd', out) → reaches v nd' (sent ++ option_list out).
Proof.
  intros (now & ops & E) Ho. exists now, (ops ++ [o]). rewrite run_snoc, E. simpl. by rewrite Ho.
Qed.

Lemma reaches_exec' v o nd nd' sent :
  reaches v nd sent → jexec v o nd = Some (nd', None) → reaches v nd' sent.
Proof. intros H Ho. pose proof (reaches_exec _ _ _ _ _ _ H Ho) as H'. by rewrite app_nil_r in H'. Qed.

(** A crash keeps what is durable and some of what follows. *)
Record survives v (J : list Artifact) (s : nat) (sent : list Vote) : Prop := {
  sv_journal : ∃ nd sent', reaches v nd sent' ∧ nd_journal nd = J;
  sv_restart keep now r : let K := take (max s keep) J in
    jrecover v now K = Some r → reaches v (jnode r K (length K)) sent;
}.

Lemma reaches_survives v r J s sent : reaches v (jnode r J s) sent → survives v J s sent.
Proof.
  intros H. split; [by eexists _, _|]. intros keep now r' K Hr. eapply (reaches_exec' v (OCrash now keep)); [done|].
  simpl. unfold VoterJournal.restart. fold K. by rewrite Hr.
Qed.

(** A crash within the event [o]. *)
Lemma exec_survives v o nd nd' out s sent :
  reaches v nd sent → jexec v o nd = Some (nd', out) → (nd_synced nd ≤ s)%nat →
  survives v (nd_journal nd') s sent.
Proof.
  intros H Ho Hs. split; [eexists _, _; split; [by eapply reaches_exec|done]|].
  intros keep now r K Hr. eapply (reaches_exec' v (OCrashIn o now (max s keep))); [done|].
  simpl. rewrite Ho. simpl. unfold VoterJournal.restart.
  replace (max (nd_synced nd) (max s keep)) with (max s keep) by lia. fold K. by rewrite Hr.
Qed.

Lemma survives_mono v J s s' sent : survives v J s sent → (s ≤ s')%nat → survives v J s' sent.
Proof.
  intros [Hj H] Hs. split; [done|]. intros keep now r. specialize (H (max s' keep) now r). simpl in *.
  replace (max s (max s' keep)) with (max s' keep) in H by lia. done.
Qed.

Lemma survives_nil v sent : survives v [] 0 sent →
  ∀ now, reaches v (jnode (Round.new scheme (mkRnd ep v) now) [] 0) sent.
Proof. intros [_ H] now. by apply (H 0%nat now). Qed.

(** ** Quiet changes of a round *)

Definition quiet_step (r r' : Round) : Prop := ∃ o, VoterJournal.quiet_round o r = Some r'.
Definition quiet : Round → Round → Prop := rtc quiet_step.

Lemma quiet_once r r' o : VoterJournal.quiet_round o r = Some r' → quiet r r'.
Proof. intros H. apply rtc_once. by exists o. Qed.

Lemma exec_quiet v o r r' J s : VoterJournal.quiet_round o r = Some r' →
  jexec v o (jnode r J s) = Some (jnode r' J s, None).
Proof. intros H. destruct o; simpl in *; by simplify_eq/=; rewrite ?H. Qed.

Lemma reaches_quiet v r r' J s sent :
  quiet r r' → reaches v (jnode r J s) sent → reaches v (jnode r' J s) sent.
Proof.
  induction 1 as [|r r1 r' [o Ho] _ IH]; [done|]. intros H. apply IH.
  eapply reaches_exec'; [done|]. by apply exec_quiet.
Qed.

(** ** Quiet changes of the state *)

Definition at_view (P : Round → Prop) v st : Prop := ∀ r, views st !! v = Some r → P r.

(** A round that no certificate or proposal reached: the votes and broadcasts of
    the actor leave it alone. *)
Record inert (r : Round) : Prop := {
  inert_proposal : sl_proposal (r_slot r) = None;
  inert_status : sl_status (r_slot r) = StNone;
  inert_notarization : r_notarization r = None;
  inert_nullification : r_nullification r = None;
  inert_finalization : r_finalization r = None;
}.

(** What a round holds is of its view. *)
Record placed v (r : Round) : Prop := {
  placed_proposal p : sl_proposal (r_slot r) = Some p → proposal_view p = v;
  placed_notarization n : r_notarization r = Some n → proposal_view (nz_proposal n) = v;
  placed_nullification n : r_nullification r = Some n → rnd_view (nlz_round n) = v;
  placed_finalization f : r_finalization r = Some f → proposal_view (fzz_proposal f) = v;
}.

(** The finalization of the round was broadcast, and so is durable. *)
Definition finished (r : Round) : Prop := is_Some (r_finalization r) → b_finalization r = true.

Lemma new_inert s rd now : inert (Round.new s rd now).
Proof. by split. Qed.
Lemma new_placed v s rd now : placed v (Round.new s rd now).
Proof. by split. Qed.
Lemma new_finished s rd now : finished (Round.new s rd now).
Proof. by intros []. Qed.

Lemma at_entry P now v st :
  P (Round.new (st_scheme st) (mkRnd (epoch st) v) now) → at_view P v st → P (VoterState.entry now st v).
Proof. unfold VoterState.entry. intros Hn H. destruct (views st !! v) eqn:E; simpl; auto. Qed.

Lemma quiet_step_finished r r' : quiet_step r r' → finished r → finished r'.
Proof.
  intros [o Ho]. unfold finished. destruct r as [????[]]; destruct o; simpl in Ho; try done;
    unfold Round.try_propose, Round.try_verify, Round.set_leader, Round.proposed, Round.verified,
      Round.set_proposal, Round.next_timeout_deadline, Slot.request_verify, Slot.mark_verified,
      Slot.update, Round.unset_certify_handle, Round.set_certify_handle in Ho;
    repeat case_match; simplify_eq/=; try done; simplify_option_eq; done.
Qed.

Lemma quiet_finished r r' : quiet r r' → finished r → finished r'.
Proof. induction 1; eauto using quiet_step_finished. Qed.

Record moves h st st' : Prop := {
  mv_scheme : st_scheme st' = st_scheme st;
  mv_namespace : st_namespace st' = st_namespace st;
  mv_epoch : epoch st' = epoch st;
  mv_activity : activity_timeout st' = activity_timeout st;
  mv_evolves v now : h ≤ v → ∃ now1, quiet (VoterState.entry now1 st v) (VoterState.entry now st' v);
  mv_inert v : v < h → at_view inert v st → at_view inert v st';
  mv_placed v : at_view (placed v) v st → at_view (placed v) v st';
  mv_finished v : at_view finished v st → at_view finished v st';
}.

#[global] Instance moves_preorder h : PreOrder (moves h).
Proof.
  split; [intros st; split; try done; intros; by eexists|].
  intros st1 st2 st3 [] []. split; try congruence; eauto.
  intros v now Hv. destruct (mv_evolves1 v now Hv) as [now1 H1].
  destruct (mv_evolves0 v now1 Hv) as [now2 H2]. exists now2. by etrans.
Qed.

Lemma entry_put now st v r : VoterState.entry now (VoterState.put st v r) v = r.
Proof. unfold VoterState.entry. simpl. unfold constant. by rewrite lookup_insert_eq. Qed.
Lemma entry_put_ne now st v w r : v ≠ w →
  VoterState.entry now (VoterState.put st v r) w = VoterState.entry now st w.
Proof. intros. unfold VoterState.entry. simpl. unfold constant. by rewrite lookup_insert_ne. Qed.

Lemma at_put (P : Round → Prop) w st v r : (w = v → P r) → at_view P w st →
  at_view P w (VoterState.put st v r).
Proof.
  intros Hr H r'. simpl. unfold constant. intros [[<- <-]|[? ?]]%lookup_insert_Some; eauto.
Qed.

Lemma moves_put h st v now r : quiet (VoterState.entry now st v) r →
  (v < h → inert (VoterState.entry now st v) → inert r) →
  (placed v (VoterState.entry now st v) → placed v r) →
  moves h st (VoterState.put st v r).
Proof.
  intros Hq Hi Hp. split; try done.
  - intros w now' Hw. destruct (decide (v = w)) as [->|Hne].
    + exists now. by rewrite entry_put.
    + exists now'. by rewrite entry_put_ne.
  - intros w Hw H. apply at_put; [|done]. intros ->. apply Hi; [done|].
    apply at_entry; [apply new_inert|done].
  - intros w H. apply at_put; [|done]. intros ->. apply Hp, at_entry; [apply new_placed|done].
  - intros w H. apply at_put; [|done]. intros ->. eapply quiet_finished; [done|].
    apply at_entry; [apply new_finished|done].
Qed.

Lemma entry_lookup now st v r : views st !! v = Some r → VoterState.entry now st v = r.
Proof. unfold VoterState.entry. by intros ->. Qed.

(** A change outside the rounds. *)
Lemma moves_fields h st st' : views st' = views st → st_scheme st' = st_scheme st →
  st_namespace st' = st_namespace st → epoch st' = epoch st →
  activity_timeout st' = activity_timeout st → moves h st st'.
Proof.
  intros Hv Hs Hn He Ha. split; try done; unfold at_view; rewrite ?Hv; try done.
  intros v now _. exists now. unfold VoterState.entry. by rewrite Hv, Hs, He.
Qed.

(** *** Slots of quiet changes *)

Lemma placed_slot v r sl : (∀ p, sl_proposal sl = Some p → proposal_view p = v) →
  placed v r → placed v (r {{ r_slot := sl }}).
Proof. destruct r. intros H []. split; done. Qed.

Lemma placed_same v r r' : r_slot r' = r_slot r → r_notarization r' = r_notarization r →
  r_nullification r' = r_nullification r → r_finalization r' = r_finalization r →
  placed v r → placed v r'.
Proof. intros E1 E2 E3 E4 []. split; rewrite ?E1, ?E2, ?E3, ?E4; done. Qed.

Lemma inert_same r r' : r_slot r' = r_slot r → r_notarization r' = r_notarization r →
  r_nullification r' = r_nullification r → r_finalization r' = r_finalization r →
  inert r → inert r'.
Proof. intros E1 E2 E3 E4 []. split; rewrite ?E1, ?E2, ?E3, ?E4; done. Qed.

Lemma update_placed sl p rec v : proposal_view p = v →
  (∀ q, sl_proposal sl = Some q → proposal_view q = v) →
  ∀ q, sl_proposal (Slot.update sl p rec).1 = Some q → proposal_view q = v.
Proof.
  destruct sl as [o stt b1 b2]. unfold Slot.update. simpl. intros Hp H q.
  repeat case_match; simpl; unfold constant; intros; simplify_eq; eauto.
Qed.

Lemma request_verify_proposal sl : sl_proposal (Slot.request_verify sl).1 = sl_proposal sl.
Proof. destruct sl. unfold Slot.request_verify. by case_match. Qed.
Lemma request_verify_status sl : sl_status (Slot.request_verify sl).1 = sl_status sl.
Proof. destruct sl. unfold Slot.request_verify. by case_match. Qed.
Lemma mark_verified_proposal sl : sl_proposal (Slot.mark_verified sl).1 = sl_proposal sl.
Proof. destruct sl. unfold Slot.mark_verified. by case_match. Qed.

Lemma set_proposal_placed r p v : proposal_view p = v → placed v r → placed v (Round.set_proposal r p).1.
Proof.
  intros Hp Hr. unfold Round.set_proposal. case_match; [done|].
  pose proof (update_placed (r_slot r) p false v Hp (placed_proposal _ _ Hr)) as Hu.
  destruct (Slot.update (r_slot r) p false) as [sl ch]; simpl in *.
  destruct ch; simpl; try by apply placed_slot.
  apply (placed_same _ (r {{ r_slot := sl }})); [by destruct r..|by apply placed_slot].
Qed.

Lemma proposed_placed r p v : proposal_view p = v → placed v r → placed v (Round.proposed r p).1.
Proof.
  intros Hp Hr. unfold Round.proposed. case_match; [done|]. simpl.
  apply (placed_same _ (r {{ r_slot := Slot.built (r_slot r) p }})); [by destruct r..|].
  apply placed_slot; [|done]. unfold Slot.built. destruct (sl_proposal (r_slot r)) eqn:E; simpl; unfold constant.
  - intros q. rewrite E. intros [= <-]. by eapply placed_proposal.
  - by intros q [= <-].
Qed.

Lemma verified_placed r v : placed v r → placed v (Round.verified r).1.
Proof.
  intros Hr. unfold Round.verified. case_match; [done|].
  pose proof (mark_verified_proposal (r_slot r)) as E. destruct (Slot.mark_verified _) as [sl ok]. simpl in E.
  assert (placed v (r {{ r_slot := sl }})) as Hs.
  { apply placed_slot; [|done]. rewrite E. by apply Hr. }
  destruct ok; [|done]. apply (placed_same _ (r {{ r_slot := sl }})); by destruct r.
Qed.

Lemma verified_inert r : inert r → inert (Round.verified r).1.
Proof.
  intros Hr. unfold Round.verified. case_match; [done|]. unfold Slot.mark_verified.
  rewrite decide_False by (rewrite (inert_status _ Hr); done). simpl.
  apply (inert_same r); by destruct r.
Qed.

Lemma try_propose_placed r v : placed v r → placed v (Round.try_propose r).1.
Proof.
  intros Hr. unfold Round.try_propose. case_match; [|done]. apply placed_slot; [|done].
  simpl. unfold constant. by apply Hr.
Qed.

Lemma try_verify_placed r v : placed v r → placed v (Round.try_verify r).1.
Proof.
  intros Hr. unfold Round.try_verify. case_match; [|done].
  pose proof (request_verify_proposal (r_slot r)) as E. destruct (Slot.request_verify _) as [sl ok].
  apply placed_slot; [|done]. simpl in E. rewrite E. by apply Hr.
Qed.

(** *** Quiet operations of the state *)

Lemma set_deadlines_moves h now st v a b : 
  moves h st (VoterState.put st v (Round.set_deadlines (VoterState.entry now st v) a b)).
Proof.
  eapply (moves_put _ _ _ now); [by apply (quiet_once _ _ (OSetDeadlines a b))|..].
  - intros _. by apply inert_same; destruct (VoterState.entry now st v).
  - by apply placed_same; destruct (VoterState.entry now st v).
Qed.

Lemma enter_view_moves h now st v : moves h st (VoterState.enter_view now st v).1.
Proof.
  unfold VoterState.enter_view. case_match; [done|]. simpl.
  etrans; [apply set_deadlines_moves|]. by apply moves_fields.
Qed.

Lemma set_leader_moves h now st v c st' :
  VoterState.set_leader now st v c = Some st' → moves h st st'.
Proof.
  unfold VoterState.set_leader. destruct (r_leader _).
  - intros [= <-]. by eapply (moves_put _ _ _ now).
  - destruct (Round.set_leader _ _) as [r|] eqn:E; simpl; [|done]. intros [= <-].
    eapply (moves_put _ _ _ now).
    + by eapply (quiet_once _ _ (OSetLeader _)).
    + intros _. unfold Round.set_leader in E. destruct (_ !! _); simpl in E; [|done]. injection E as <-.
      by apply inert_same; destruct (VoterState.entry now st v).
    + unfold Round.set_leader in E. destruct (_ !! _); simpl in E; [|done]. injection E as <-.
      by apply placed_same; destruct (VoterState.entry now st v).
Qed.

Lemma next_timeout_moves h now st : moves h st (VoterState.next_timeout_deadline now st).1.
Proof.
  unfold VoterState.next_timeout_deadline.
  set (r := VoterState.entry now st (view st)).
  destruct (Round.next_timeout_deadline r now (st_nullify_retry st)) as [r' dl] eqn:E. simpl.
  assert (r' = (Round.next_timeout_deadline r now (st_nullify_retry st)).1) as -> by by rewrite E.
  eapply (moves_put _ _ _ now); fold r.
  - by apply (quiet_once _ _ (ONextTimeout now (st_nullify_retry st))).
  - intros _. unfold Round.next_timeout_deadline. repeat case_match; simpl; try done.
    by apply inert_same; destruct r.
  - unfold Round.next_timeout_deadline. repeat case_match; simpl; try done.
    by apply placed_same; destruct r.
Qed.

(** An operation on a tracked round. *)
Lemma on_round_moves {A} h st v (f : Round → Round * option A) :
  (∀ r, views st !! v = Some r → quiet r (f r).1) →
  (∀ r, v < h → inert r → inert (f r).1) → (∀ r, placed v r → placed v (f r).1) →
  moves h st (VoterState.on_round st v f).1.
Proof.
  intros Hq Hi Hp. unfold VoterState.on_round. destruct (views st !! v) as [r|] eqn:E; [|done].
  specialize (Hq r eq_refl). specialize (Hi r). specialize (Hp r).
  destruct (f r) as [r' x]. simpl in *.
  apply (moves_put _ _ _ 0); rewrite (entry_lookup _ _ _ _ E); done.
Qed.

Lemma try_propose_moves h st st' x : h ≤ view st → VoterState.try_propose st = Some (st', x) → moves h st st'.
Proof.
  intros Hv. unfold VoterState.try_propose. case_match; [by intros [= <- <-]|].
  destruct (views st !! view st) as [r|] eqn:E; simpl; [|done].
  case_match; [by intros [= <- <-]|]. destruct (VoterState.find_parent _ _) as [[u y]| |]; [|by intros [= <- <-]|done].
  pose proof (try_propose_placed r (view st)) as Hp.
  assert (quiet r (Round.try_propose r).1) as Hq by by apply (quiet_once _ _ OTryPropose).
  destruct (Round.try_propose r) as [r' l]. intros [= <- <-]. simpl in *.
  apply (moves_put _ _ _ 0); rewrite (entry_lookup _ _ _ _ E); [done|lia|done].
Qed.

Lemma try_verify_moves h st st' x : h ≤ view st → VoterState.try_verify st = Some (st', x) → moves h st st'.
Proof.
  intros Hv. unfold VoterState.try_verify.
  destruct (views st !! view st) as [r|] eqn:E; simpl; [|by intros [= <- <-]].
  destruct (Round.should_verify r) as [[l p]|]; [|by intros [= <- <-]].
  destruct (VoterState.parent_payload st p) as [[y|]|]; simpl; [|by intros [= <- <-]|done].
  pose proof (try_verify_placed r (view st)) as Hp.
  assert (quiet r (Round.try_verify r).1) as Hq by by apply (quiet_once _ _ OTryVerify).
  destruct (Round.try_verify r) as [r' ok]. intros [= <- <-]. simpl in *.
  apply (moves_put _ _ _ 0); rewrite (entry_lookup _ _ _ _ E); [done|lia|done].
Qed.

Lemma proposed_moves h st p : h ≤ proposal_view p → moves h st (VoterState.proposed st p).1.
Proof.
  intros Hv. unfold VoterState.proposed.
  match goal with |- context [VoterState.on_round st ?v ?f] => pose proof (on_round_moves h st v f) as H end.
  destruct (VoterState.on_round _ _ _) as [st' b]. simpl in *. apply H.
  - intros r _. pose proof (quiet_once r _ (OProposed p) eq_refl) as Hq.
    by destruct (Round.proposed r p).
  - lia.
  - intros r Hr. pose proof (proposed_placed r p _ eq_refl Hr) as Hq. by destruct (Round.proposed r p).
Qed.

Lemma verified_moves h st v : moves h st (VoterState.verified st v).1.
Proof.
  unfold VoterState.verified.
  match goal with |- context [VoterState.on_round st ?v ?f] => pose proof (on_round_moves h st v f) as H end.
  destruct (VoterState.on_round _ _ _) as [st' b]. simpl in *. apply H.
  - intros r _. pose proof (quiet_once r _ OVerified eq_refl) as Hq. by destruct (Round.verified r).
  - intros r _ Hr. pose proof (verified_inert r Hr) as Hq. by destruct (Round.verified r).
  - intros r Hr. pose proof (verified_placed r v Hr) as Hq. by destruct (Round.verified r).
Qed.

Lemma set_proposal_moves h now st p : h ≤ proposal_view p →
  moves h st (VoterState.set_proposal now st (proposal_view p) p).1.
Proof.
  intros Hv. unfold VoterState.set_proposal.
  pose proof (quiet_once (VoterState.entry now st (proposal_view p)) _ (OSetProposal p) eq_refl) as Hq.
  pose proof (set_proposal_placed (VoterState.entry now st (proposal_view p)) p _ eq_refl) as Hp.
  destruct (Round.set_proposal _ _) as [r b]. simpl in *. by apply (moves_put _ _ _ now); [|lia|].
Qed.

Lemma set_certify_handle_moves h st v x : moves h st (VoterState.set_certify_handle st v x).
Proof.
  unfold VoterState.set_certify_handle. destruct (views st !! v) as [r|] eqn:E; [|done].
  apply (moves_put _ _ _ 0); rewrite (entry_lookup _ _ _ _ E).
  - by apply (quiet_once _ _ (OSetCertifyHandle x)).
  - intros _. by apply inert_same; destruct r.
  - by apply placed_same; destruct r.
Qed.

Lemma retry_certification_moves h st v : moves h st (VoterState.retry_certification st v).
Proof.
  unfold VoterState.retry_certification. destruct (views st !! v) as [r|] eqn:E; [|done].
  apply (moves_put _ _ _ 0); rewrite (entry_lookup _ _ _ _ E).
  - by apply (quiet_once _ _ OUnsetCertifyHandle).
  - intros _. by apply inert_same; destruct r.
  - by apply placed_same; destruct r.
Qed.

(** ** The simulation *)

Definition votes_in v (sent : list Vote) : list Vote := filter (λ x, vote_view x = v) sent.

Lemma votes_in_app v s1 s2 : votes_in v (s1 ++ s2) = votes_in v s1 ++ votes_in v s2.
Proof. apply filter_app. Qed.

Definition config_ok st : Prop :=
  st_scheme st = scheme ∧ st_namespace st = namespace ∧ epoch st = ep ∧ activity_timeout st = act.

(** What is durable of a section. *)
Definition durable (d : Disk) v : list Artifact := take (section d v).2 (section d v).1.

(** The disk: nothing is left below the horizon, a durable finalization
    justifies the horizon, and every item is in the section of its view. *)
Record disk_ok h (d : Disk) (sent : list Vote) : Prop := {
  d_nonneg : 0 ≤ h;
  d_past v : v < h → sections d !! v = None ∧ ∃ nd, reaches v nd (votes_in v sent);
  d_floor : h ≤ 0 ∨ ∃ v f, AFinalization f ∈ durable d v ∧ h ≤ ConsensusTypes.min_active act v;
  d_views v x : x ∈ (section d v).1 → artifact_view x = v;
}.

Definition node_at now st d v : VoterJournal.Node :=
  jnode (VoterState.entry now st v) (section d v).1 (section d v).2.

(** The state of a running actor; only in the view [dirty] a finalization may
    wait for its broadcast. *)
Record sim h (dirty : option Z) st (d : Disk) (sent : list Vote) : Prop := {
  s_config : config_ok st;
  s_horizon : h ≤ VoterState.min_active st;
  s_disk : disk_ok h d sent;
  s_view v now : h ≤ v → reaches v (node_at now st d v) (votes_in v sent);
  s_inert v : v < h → at_view inert v st;
  s_placed v : at_view (placed v) v st;
  s_finished v : dirty ≠ Some v → at_view finished v st;
}.

Record live h (dirty : option Z) (a : Actor) (d : Disk) (sent : list Vote) : Prop := {
  l_sim : sim h dirty (ac_state a) d sent;
  l_wf : VoterStateSpec.wf (ac_state a);
  l_journal : ac_journal a = true;
}.

(** A dead actor. *)
Record down h (d : Disk) (sent : list Vote) : Prop := {
  dn_disk : disk_ok h d sent;
  dn_view v : h ≤ v → (section d v).2 = length (section d v).1 ∧ survives v (section d v).1 (section d v).2 (votes_in v sent);
}.

(** What must hold of disk and votes wherever the process may die. *)
Definition crashable (d : Disk) (sent : list Vote) : Prop :=
  ∃ h, disk_ok h d sent ∧
    ∀ v, h ≤ v → survives v (section d v).1 (section d v).2 (votes_in v sent).

Lemma sim_crashable h dirty st d sent : sim h dirty st d sent → crashable d sent.
Proof.
  intros H. exists h. split; [apply H|]. intros v Hv.
  eapply reaches_survives, (s_view _ _ _ _ _ H v 0 Hv).
Qed.

Lemma live_crashable h dirty a d sent : live h dirty a d sent → crashable d sent.
Proof. intros [H _ _]. by eapply sim_crashable. Qed.

Lemma live_dirty h dirty a d sent : live h None a d sent → live h dirty a d sent.
Proof. intros [[] ? ?]. split; [|done..]. split; try done. intros v _. by apply s_finished0. Qed.

Lemma min_active_current st : VoterStateSpec.wf st → VoterState.min_active st < view st.
Proof.
  intros [_ _ _ H _ _ Ha]. unfold VoterState.min_active, ConsensusTypes.min_active, View.saturating_sub,
    saturating_sub. lia.
Qed.

Lemma live_current h dirty a d sent : live h dirty a d sent → h ≤ view (ac_state a).
Proof. intros [[] Hw _]. pose proof (min_active_current _ Hw). lia. Qed.

Lemma min_active_mono st st' : activity_timeout st' = activity_timeout st →
  last_finalized st ≤ last_finalized st' → VoterState.min_active st ≤ VoterState.min_active st'.
Proof.
  intros E H. unfold VoterState.min_active, ConsensusTypes.min_active, View.saturating_sub,
    saturating_sub. rewrite E. lia.
Qed.

Lemma config_moves h st st' : moves h st st' → config_ok st → config_ok st'.
Proof. intros [] (?&?&?&?). split_and!; congruence. Qed.

(** A quiet change of the state. *)
Lemma sim_moves h dirty st st' d sent : sim h dirty st d sent →
  moves h st st' → last_finalized st ≤ last_finalized st' → sim h dirty st' d sent.
Proof.
  intros [] Hm Hf. split; try done.
  - by eapply config_moves.
  - etrans; [done|]. apply min_active_mono; [by apply Hm|done].
  - intros v now Hv. destruct (mv_evolves _ _ _ Hm v now Hv) as [now1 Hq].
    unfold node_at. eapply reaches_quiet; [done|]. by apply s_view0.
  - intros v Hv. by eapply mv_inert; [done..|apply s_inert0].
  - intros v. by eapply mv_placed.
  - intros v Hv. eapply mv_finished; [done|]. by apply s_finished0.
Qed.

(** *** Blocks of effects in one section *)

(** The shapes of what a handler writes and sends in one view, with the journal
    of the view, its durable part and the vote that result. *)
Inductive shape v (J : list Artifact) (s : nat) : list Effect → list Artifact → nat → option Vote → Prop :=
| shape_nothing : shape v J s [] J s None
| shape_append x : artifact_view x = v → shape v J s [EAppend v x] (J ++ [x]) s None
| shape_durable x : artifact_view x = v →
    shape v J s [EAppend v x; ESync v] (J ++ [x]) (length (J ++ [x])) None
| shape_vote x y : artifact_view x = v → vote_view y = v →
    shape v J s [EAppend v x; ESync v; EVote y] (J ++ [x]) (length (J ++ [x])) (Some y)
| shape_sync : shape v J s [ESync v] J (length J) None
| shape_send y : vote_view y = v → shape v J s [EVote y] J s (Some y).

Lemma section_insert d v w J s o :
  section (mkDisk (<[v := (J, s)]> (sections d)) o) w = if decide (v = w) then (J, s) else section d w.
Proof.
  unfold section. simpl. case_decide as E; [subst; by rewrite lookup_insert_eq|by rewrite lookup_insert_ne].
Qed.

Lemma section_sync d v w o :
  section (mkDisk (alter (λ s : list Artifact * nat, (s.1, length s.1)) v (sections d)) o) w =
  if decide (v = w) then ((section d v).1, length (section d v).1) else section d w.
Proof.
  unfold section. simpl. case_decide as E; [subst; rewrite lookup_alter_eq|by rewrite lookup_alter_ne].
  by destruct (sections d !! w).
Qed.

(** What an effect in section [v] leaves alone. *)
Definition elsewhere v (d d' : Disk) : Prop :=
  ∀ w, w ≠ v → section d' w = section d w ∧ (sections d !! w = None → sections d' !! w = None).

Lemma apply_append d v x d' : apply_effect d (EAppend v x) = Some d' →
  elsewhere v d d' ∧ section d' v = ((section d v).1 ++ [x], (section d v).2).
Proof.
  intros ->%append_Some. split.
  - intros w Hw. rewrite section_insert, decide_False by done. split; [done|]. simpl.
    by rewrite lookup_insert_ne.
  - by rewrite section_insert, decide_True.
Qed.

Lemma apply_sync d v d' : apply_effect d (ESync v) = Some d' →
  elsewhere v d d' ∧ section d' v = ((section d v).1, length (section d v).1).
Proof.
  intros ->%sync_Some. split.
  - intros w Hw. rewrite section_sync, decide_False by done. split; [done|]. simpl.
    by rewrite lookup_alter_ne.
  - by rewrite section_sync, decide_True.
Qed.

Lemma elsewhere_trans v d1 d2 d3 : elsewhere v d1 d2 → elsewhere v d2 d3 → elsewhere v d1 d3.
Proof.
  intros H1 H2 w Hw. destruct (H1 w Hw) as [E1 N1], (H2 w Hw) as [E2 N2]. split; [congruence|auto].
Qed.

Lemma shape_apply v d es J s out d' :
  shape v (section d v).1 (section d v).2 es J s out → apply_effects d es = Some d' →
  elsewhere v d d' ∧ section d' v = (J, s) ∧ votes es = option_list out.
Proof.
  assert (∀ d1 e es1, apply_effects d1 (e :: es1) = Some d' →
    ∃ d2, apply_effect d1 e = Some d2 ∧ apply_effects d2 es1 = Some d') as Hinv.
  { intros d1 e es1. simpl. destruct (apply_effect d1 e); simpl; [eauto|done]. }
  destruct 1 as [|x Hx|x Hx|x y Hx Hy| |y Hy]; intros H.
  - injection H as <-. split; [by intros w|]. by destruct (section d v).
  - apply Hinv in H as (d1 & [? E]%apply_append & [= <-]). by rewrite E.
  - apply Hinv in H as (d1 & [? E]%apply_append & H'). apply Hinv in H' as (d2 & [? E']%apply_sync & [= <-]).
    rewrite E', E. split; [by eapply elsewhere_trans|done].
  - apply Hinv in H as (d1 & [? E]%apply_append & H'). apply Hinv in H' as (d2 & [? E']%apply_sync & [= <-]).
    rewrite E', E. split; [by eapply elsewhere_trans|done].
  - apply Hinv in H as (d1 & [? E]%apply_sync & [= <-]). by rewrite E.
  - injection H as <-. split; [by intros w|]. by destruct (section d v).
Qed.

Lemma survives_full v J s sent : survives v J s sent → survives v J (length J) sent.
Proof.
  intros [Hj H]. split; [done|]. intros keep now r. specialize (H (max (length J) keep) now r). simpl in *.
  rewrite !(take_ge J) in * by lia. done.
Qed.

(** Every prefix of a shape is a shape: of nothing yet, of the entry that is not
    yet durable, or of the whole. *)
Lemma shape_prefix v J s es J1 s1 out es' k :
  shape v J s es J1 s1 out → es = es' ++ k →
  ∃ J' s' out', shape v J s es' J' s' out' ∧
    ((J' = J1 ∧ s' = s1 ∧ out' = out) ∨
     (out' = None ∧ ((J' = J ∧ s' = s) ∨ (J' = J1 ∧ (s' = s ∨ s' = length J1))))).
Proof.
  intros Hs. assert (∃ J' s' out', shape v J s [] J' s' out' ∧
    (out' = None ∧ ((J' = J ∧ s' = s) ∨ (J' = J1 ∧ (s' = s ∨ s' = length J1))))) as H0.
  { eexists _, _, _. split; [constructor|auto]. }
  destruct es' as [|e1 es']; [intros _; destruct H0 as (? & ? & ? & ? & ?); eauto 10|].
  destruct Hs as [|x Hx|x Hx|x y Hx Hy| |y Hy]; try done; intros [= <- E];
    destruct es' as [|e2 es']; simplify_eq/=;
    try (destruct es' as [|e3 es']; simplify_eq/=);
    try (destruct es' as [|e4 es']; simplify_eq/=);
    eexists _, _, _; (split; [by econstructor|eauto 10]).
Qed.

Lemma shape_grows v J s es J1 s1 out :
  shape v J s es J1 s1 out → J `prefix_of` J1 ∧ take s J `prefix_of` take s1 J1 ∧
  (∀ x, x ∈ J1 → x ∈ J ∨ artifact_view x = v) ∧ (∀ y, out = Some y → vote_view y = v).
Proof.
  assert (∀ n (K L : list Artifact), take n K `prefix_of` take (length (K ++ L)) (K ++ L)) as Hp.
  { intros n K L. rewrite (take_ge (K ++ L)) by lia. etrans; [apply prefix_take|by eexists]. }
  assert (∀ (K : list Artifact) x y, artifact_view x = v → y ∈ K ++ [x] → y ∈ K ∨ artifact_view y = v)
    as Hx by set_solver.
  destruct 1 as [|x E|x E|x y E E'| |y E].
  - split_and!; [done|done|by left|done].
  - split_and!; [by eexists|rewrite take_app; by eexists|by eauto|done].
  - split_and!; [by eexists|apply Hp|by eauto|done].
  - split_and!; [by eexists|apply Hp|by eauto|by intros ? [= <-]].
  - pose proof (Hp s J []) as Hs. rewrite app_nil_r in Hs. split_and!; [done|done|by left|done].
  - split_and!; [done|done|by left|by intros ? [= <-]].
Qed.

Lemma disk_ok_step h d d' sent vs v : disk_ok h d sent → h ≤ v → elsewhere v d d' →
  (∀ x, x ∈ (section d' v).1 → x ∈ (section d v).1 ∨ artifact_view x = v) →
  durable d v `prefix_of` durable d' v → (∀ y, y ∈ vs → vote_view y = v) →
  disk_ok h d' (sent ++ vs).
Proof.
  intros [] Hv He Hx Hd Hy. split; [done|..].
  - intros w Hw. destruct (d_past0 w Hw) as [E Hr]. destruct (He w ltac:(lia)) as [_ N]. split; [auto|].
    rewrite votes_in_app. replace (votes_in w vs) with (@nil Vote); [by rewrite app_nil_r|].
    symmetry. apply elem_of_nil_inv. intros y [Hw' Hin]%list_elem_of_filter. pose proof (Hy y Hin). lia.
  - destruct d_floor0 as [|(w & f & Hf & Hm)]; [by left|right]. exists w, f. split; [|done].
    destruct (decide (w = v)) as [->|Hne].
    + destruct Hd as [K ->]. apply elem_of_app. by left.
    + unfold durable in *. by destruct (He w Hne) as [-> _].
  - intros w x. destruct (decide (w = v)) as [->|Hne].
    + intros [Hin|]%Hx; [by eapply d_views0|done].
    + destruct (He w Hne) as [-> _]. apply d_views0.
Qed.

Lemma votes_in_all v vs : (∀ y, y ∈ vs → vote_view y = v) → votes_in v vs = vs.
Proof. apply filter_id. Qed.
Lemma votes_in_none v w vs : (∀ y, y ∈ vs → vote_view y = v) → v ≠ w → votes_in w vs = [].
Proof.
  intros H Hne. apply elem_of_nil_inv. intros y [Hw Hin]%list_elem_of_filter. pose proof (H y Hin). congruence.
Qed.

(** A handler that changes one round, writes to the section of its view and
    sends votes of that view, as the event [o] of the specification does. *)
Lemma sim_block h dirty dirty' st d sent v o now r' es J' s' out :
  sim h dirty st d sent → h ≤ v →
  jexec v o (node_at now st d v) = Some (jnode r' J' s', out) →
  shape v (section d v).1 (section d v).2 (core es) J' s' out → unpruned es →
  (placed v (VoterState.entry now st v) → placed v r') →
  (dirty' ≠ Some v → finished r') → (∀ w, w ≠ v → dirty' ≠ Some w → dirty ≠ Some w) →
  (∀ es' d', crash_point es' es → es' ≠ [] → apply_effects d es' = Some d' →
     crashable d' (sent ++ votes es')) ∧
  (∀ d', apply_effects d es = Some d' → sim h dirty' (VoterState.put st v r') d' (sent ++ votes es)).
Proof.
  intros Hl Hv Ho Hs Hp Hpl Hfin Hdirty.
  set (nd := node_at now st d v) in *. pose proof (s_view _ _ _ _ _ Hl v now Hv) as Hr.
  pose proof (s_disk _ _ _ _ _ Hl) as Hd. fold nd in Hr.
  assert (∀ es' J1 s1 out1 d', shape v (section d v).1 (section d v).2 es' J1 s1 out1 →
    apply_effects d es' = Some d' →
    disk_ok h d' (sent ++ votes es') ∧ section d' v = (J1, s1) ∧ elsewhere v d d' ∧
    votes_in v (sent ++ votes es') = votes_in v sent ++ option_list out1 ∧
    ∀ w, w ≠ v → votes_in w (sent ++ votes es') = votes_in w sent) as Hstep.
  { intros es' J1 s1 out1 d' Hs1 Ha.
    destruct (shape_apply _ _ _ _ _ _ _ Hs1 Ha) as (He & Es & Ev).
    destruct (shape_grows _ _ _ _ _ _ _ Hs1) as (_ & Hdur & Hx & Hy).
    assert (∀ y, y ∈ votes es' → vote_view y = v) as Hvs.
    { rewrite Ev. intros y. destruct out1; simpl; [|by intros ?%not_elem_of_nil].
      intros ->%list_elem_of_singleton. by apply Hy. }
    split_and!; try done.
    - eapply disk_ok_step; try done; unfold durable; rewrite Es; [exact Hx|exact Hdur].
    - rewrite votes_in_app, (votes_in_all _ _ Hvs), Ev. done.
    - intros w Hne. rewrite votes_in_app, (votes_in_none v w _ Hvs) by done. by rewrite app_nil_r. }
  split.
  - intros es' d' Hcp _ Ha. destruct (crash_point_core _ _ Hcp Hp) as [k Hk].
    rewrite apply_core in Ha. rewrite votes_core.
    destruct (shape_prefix _ _ _ _ _ _ _ _ _ Hs Hk) as (J1 & s1 & out1 & Hs1 & Hcase).
    destruct (Hstep _ _ _ _ _ Hs1 Ha) as (Hd' & Es & He & Evs & Hother).
    exists h. split; [done|]. intros w Hw'. destruct (decide (w = v)) as [->|Hne].
    + rewrite Es, Evs. simpl.
      destruct Hcase as [(-> & -> & ->)|(-> & [[-> ->]|[-> [->| ->]]])]; simpl; rewrite ?app_nil_r.
      * eapply reaches_survives, (reaches_exec v o); [exact Hr|exact Ho].
      * eapply reaches_survives. exact Hr.
      * exact (exec_survives v o nd _ _ _ _ Hr Ho (le_n _)).
      * eapply survives_full. exact (exec_survives v o nd _ _ _ _ Hr Ho (le_n _)).
    + destruct (He w Hne) as [-> _]. rewrite Hother by done.
      exact (reaches_survives w _ _ _ _ (s_view _ _ _ _ _ Hl w 0 Hw')).
  - intros d' Ha. rewrite apply_core in Ha. rewrite votes_core.
    destruct (Hstep _ _ _ _ _ Hs Ha) as (Hd' & Es & He & Evs & Hother).
    split; try done; try apply Hl.
    + intros w now' Hw'. destruct (decide (w = v)) as [->|Hne].
      * unfold node_at. rewrite Es, Evs, entry_put. simpl.
        eapply (reaches_exec v o); [exact Hr|exact Ho].
      * unfold node_at. destruct (He w Hne) as [-> _]. rewrite Hother, entry_put_ne by done.
        exact (s_view _ _ _ _ _ Hl w now' Hw').
    + intros w Hw'. apply at_put; [lia|]. by apply Hl.
    + intros w. apply at_put; [|apply Hl]. intros ->. apply Hpl, at_entry; [apply new_placed|apply Hl].
    + intros w Hw'. destruct (decide (w = v)) as [->|Hne].
      * intros r. simpl. unfold constant. rewrite lookup_insert_eq. intros [= <-]. auto.
      * apply at_put; [done|]. apply Hl. auto.
Qed.

Lemma put_same st v r : views st !! v = Some r → VoterState.put st v r = st.
Proof. destruct st. unfold VoterState.put. simpl. unfold constant. intros H. by rewrite insert_id. Qed.

(** An operation that finds nothing to do in a round. *)
Lemma on_round_idle {A} st v (f : Round → Round * option A) :
  (∀ r, views st !! v = Some r → f r = (r, None)) → VoterState.on_round st v f = (st, None).
Proof.
  intros H. unfold VoterState.on_round. destruct (views st !! v) as [r|] eqn:E; [|done].
  rewrite (H r eq_refl). by rewrite put_same.
Qed.

End Refinement.
End VoterRefinement.
