(* ===== verification/VoterRefinementLoop.v ===== *)
(** * The event loop refines the per-view specification

    A triple for every handler of the actor: a running actor stays related to the
    specification ([live]), and wherever the process dies, what is on disk is
    ([crashable]). *)

From S2P Require Import Prelude Codec ConsensusTypes SimplexTypes SimplexEvidence VoterSlot VoterRound.
From S2P Require Import VoterJournal VoterState VoterStateSpec VoterActor VoterActorLogic VoterRefinement Fixtures.
Import VoterActor VoterActorLogic VoterRefinement.

Module VoterRefinementLoop.
Section Loop.
Context {T : Types} (scheme : Scheme) (namespace : bytes) (ep act : Z).
Implicit Types st : State.
Implicit Types v h : Z.

Notation jnode := VoterJournal.mkNode.
Notation jexec v := (VoterJournal.exec scheme namespace (mkRnd ep v)).
Notation sim := (sim scheme namespace ep act).
Notation live := (live scheme namespace ep act).
Notation crashable := (crashable scheme namespace ep act).
Notation node_at := VoterRefinement.node_at.
Notation triple P m Q := (VoterActorLogic.triple crashable P m Q).

(** ** Quiet steps *)

Lemma live_moves h dirty a a' d sent o now :
  live h dirty a d sent → VoterStateSpec.exec now o (ac_state a) = Some (ac_state a') →
  VoterStateSpec.op_ok o → moves h (ac_state a) (ac_state a') → ac_journal a' = ac_journal a →
  live h dirty a' d sent.
Proof.
  intros [Hs Hw Hj] E Ho Hm Hj'. destruct (VoterStateSpec.exec_wf now o _ _ Hw Ho E) as (Hw' & _ & Hf).
  split; [by eapply sim_moves|done|congruence].
Qed.

(** A change of the actor outside its state. *)
Lemma live_actor h dirty a a' d sent : ac_state a' = ac_state a → ac_journal a' = ac_journal a →
  live h dirty a d sent → live h dirty a' d sent.
Proof. intros E1 E2 []. split; rewrite ?E1, ?E2; done. Qed.

Lemma triple_live_modify h dirty (f : Actor → Actor) :
  (∀ a, ac_state (f a) = ac_state a) → (∀ a, ac_journal (f a) = ac_journal a) →
  triple (live h dirty) (modify f) (λ _, live h dirty).
Proof. intros H1 H2. apply triple_modify. intros a d s. by apply live_actor. Qed.

Lemma triple_live_state {A} h dirty (f : State → State * A) o now :
  (∀ st, VoterStateSpec.exec now o st = Some (f st).1) → VoterStateSpec.op_ok o →
  (∀ st, h ≤ view st → moves h st (f st).1) →
  triple (live h dirty) (on_state f) (λ _, live h dirty).
Proof.
  intros He Ho Hm. apply triple_on_state. intros a d s Hl.
  eapply (live_moves _ _ a _ _ _ o now); [done|destruct a; apply He|done| |by destruct a].
  destruct a. apply Hm. by eapply live_current.
Qed.

Lemma triple_live_state' {A} h dirty (f : State → option (State * A)) o now :
  (∀ st st' x, f st = Some (st', x) → VoterStateSpec.exec now o st = Some st') →
  VoterStateSpec.op_ok o →
  (∀ st st' x, h ≤ view st → f st = Some (st', x) → moves h st st') →
  triple (live h dirty) (on_state' f) (λ _, live h dirty).
Proof.
  intros He Ho Hm. apply triple_on_state'. intros a d s st' x Hl E.
  eapply (live_moves _ _ a _ _ _ o now); [done|destruct a; by eapply He|done| |by destruct a].
  destruct a. eapply Hm; [|done]. by eapply live_current.
Qed.

Lemma triple_live_emit h dirty e : silent e = true →
  triple (live h dirty) (emit e) (λ _, live h dirty).
Proof. intros He. apply triple_emit; [done|by apply live_crashable|done]. Qed.

Lemma triple_live_gets {A} h dirty (f : Actor → A) : triple (live h dirty) (gets f) (λ _, live h dirty).
Proof. by apply triple_gets. Qed.
Lemma triple_live_lift {A} h dirty (o : option A) : triple (live h dirty) (lift o) (λ _, live h dirty).
Proof. by apply triple_lift. Qed.
Lemma triple_live_ret {A} h dirty (x : A) : triple (live h dirty) (ret x) (λ _, live h dirty).
Proof. by apply triple_ret. Qed.

Lemma triple_live_bind {A B} h dirty (m : M A) (k : A → M B) (Q : B → assertion) :
  triple (live h dirty) m (λ _, live h dirty) → (∀ x, triple (live h dirty) (k x) Q) →
  triple (live h dirty) (bind m k) Q.
Proof. intros. by eapply triple_bind. Qed.

Lemma triple_live_when h dirty b m : triple (live h dirty) m (λ _, live h dirty) →
  triple (live h dirty) (when b m) (λ _, live h dirty).
Proof. intros H. by apply triple_when. Qed.

(** *** The top of the loop *)

Lemma set_certify_handle_live h dirty v x :
  triple (live h dirty) (update_state (λ st, VoterState.set_certify_handle st v x)) (λ _, live h dirty).
Proof.
  apply (triple_live_state _ _ _ (VoterStateSpec.SSetCertifyHandle v x) 0); [done..|].
  intros st _. apply set_certify_handle_moves.
Qed.

Ltac quiet :=
  repeat first
    [ apply triple_live_bind; [|intros]
    | apply triple_live_gets | apply triple_live_lift | apply triple_live_ret
    | by apply triple_live_emit | by apply triple_live_modify
    | apply triple_live_when
    | match goal with |- VoterActorLogic.triple _ _ (match ?x with _ => _ end) _ => destruct x end ].

Lemma certify_candidate_live h dirty v :
  triple (live h dirty) (certify_candidate v) (λ _, live h dirty).
Proof.
  unfold certify_candidate, try_certify, add_candidate, get_state. quiet. apply set_certify_handle_live.
Qed.

Lemma loop_top_live h dirty now : triple (live h dirty) (loop_top now) (λ _, live h dirty).
Proof.
  unfold loop_top, try_propose, try_verify, set_pending_propose, set_pending_verify, get_state. quiet.
  - apply (triple_live_state' _ _ _ VoterStateSpec.STryPropose now); [|done|].
    + intros st st' y E. simpl. by rewrite E.
    + intros st st' y Hv. by apply try_propose_moves.
  - apply (triple_live_state' _ _ _ VoterStateSpec.STryVerify now); [|done|].
    + intros st st' y E. simpl. by rewrite E.
    + intros st st' y Hv. by apply try_verify_moves.
  - apply triple_each. intros w. apply certify_candidate_live.
  - apply (triple_live_state _ _ _ VoterStateSpec.SNextTimeout now); [done..|].
    intros st _. apply next_timeout_moves.
Qed.

Lemma update_batcher_live h dirty now start is_active :
  triple (live h dirty) (update_batcher now start is_active) (λ _, live h dirty).
Proof.
  unfold update_batcher, get_state. quiet.
  apply (triple_live_state _ _ _ (VoterStateSpec.SExpireRound (view x)) now); [done..|].
  intros st _. apply set_deadlines_moves.
Qed.

(** ** Votes *)

(** What [handle_timeout] leaves and returns. *)
Lemma state_handle_timeout now st :
  let r := VoterState.entry now st (view st) in
  (VoterState.handle_timeout now st).1 = VoterState.put st (view st) (Round.construct_nullify r).1 ∧
  ∃ cert, (VoterState.handle_timeout now st).2 =
    match (Round.construct_nullify r).2 with
    | None => (false, None, None)
    | Some retry =>
        (retry, Nullify_sign (st_scheme st) (st_namespace st) (mkRnd (epoch st) (view st)), cert)
    end.
Proof.
  simpl. unfold VoterState.handle_timeout. destruct (Round.construct_nullify _) as [r' [retry|]]; simpl.
  - case_match; (split; [done|by eexists]).
  - split; [done|]. by exists None.
Qed.

Lemma construct_nullify_keeps v r :
  (placed v r → placed v (Round.construct_nullify r).1) ∧
  (finished r → finished (Round.construct_nullify r).1).
Proof.
  unfold Round.construct_nullify. case_match; [done|]. split.
  - by apply placed_same; destruct r.
  - by destruct r.
Qed.

Lemma construct_notarize_keeps v r :
  (placed v r → placed v (Round.construct_notarize r).1) ∧
  (finished r → finished (Round.construct_notarize r).1) ∧
  (∀ p, (Round.construct_notarize r).2 = Some p → sl_proposal (r_slot r) = Some p) ∧
  (inert r → Round.construct_notarize r = (r, None)).
Proof.
  unfold Round.construct_notarize. case_match; [split_and!; done|]. case_decide as E; [|split_and!; done].
  split_and!; [by apply placed_same; destruct r|by destruct r|done|].
  intros Hr. by rewrite (inert_status _ Hr) in E.
Qed.

Lemma construct_finalize_keeps v r :
  (placed v r → placed v (Round.construct_finalize r).1) ∧
  (finished r → finished (Round.construct_finalize r).1) ∧
  (∀ p, (Round.construct_finalize r).2 = Some p → sl_proposal (r_slot r) = Some p) ∧
  (inert r → Round.construct_finalize r = (r, None)).
Proof.
  unfold Round.construct_finalize. case_match; [split_and!; done|]. case_match; [split_and!; done|].
  case_decide as E; [|split_and!; done]. case_match; [|split_and!; done].
  split_and!; [by apply placed_same; destruct r|by destruct r|done|].
  intros Hr. by rewrite (inert_status _ Hr) in E.
Qed.

Lemma ends_block {A} h dirty dirty' st a' d sent v o now r' es J' s' out (x : A) :
  sim h dirty st d sent → h ≤ v →
  jexec v o (node_at now st d v) = Some (jnode r' J' s', out) →
  shape v (section d v).1 (section d v).2 (core es) J' s' out → unpruned es →
  (placed v (VoterState.entry now st v) → placed v r') →
  (dirty' ≠ Some v → finished r') →
  (∀ w, w ≠ v → dirty' ≠ Some w → dirty ≠ Some w) →
  moves h (VoterState.put st v r') (ac_state a') →
  last_finalized st ≤ last_finalized (ac_state a') →
  VoterStateSpec.wf (ac_state a') → ac_journal a' = true →
  ends crashable d sent (Some (x, a'), es) (λ _, live h dirty').
Proof.
  intros Hs Hv Ho Hsh Hp Hpl Hfin Hdirty Hm Hf Hw Hj.
  destruct (sim_block _ _ _ _ h dirty dirty' st d sent v o now r' es J' s' out
    Hs Hv Ho Hsh Hp Hpl Hfin Hdirty) as [Hc Hd].
  split; [done|]. intros ? ? d' [= <- <-] Ha. split; [|done..].
  eapply sim_moves; [by apply Hd|done|done].
Qed.

(** The round of a view that is not waiting for a broadcast. *)
Lemma sim_entry_finished h dirty st d sent now v (P : Round → Prop) r' :
  sim h dirty st d sent → (finished (VoterState.entry now st v) → finished r') →
  dirty ≠ Some v → finished r'.
Proof. intros Hs Hf Hd. apply Hf, at_entry; [apply new_finished|]. by eapply s_finished. Qed.

(** The effects of [handle_timeout]. *)
Lemma handle_timeout_run now a : ac_journal a = true →
  let st := ac_state a in let v := view st in
  let '(r', retry) := Round.construct_nullify (VoterState.entry now st v) in
  ∃ cert, handle_timeout now a =
    (Some (tt, a {{ ac_state := VoterState.put st v r' }}),
     match retry, Nullify_sign (st_scheme st) (st_namespace st) (mkRnd (epoch st) v) with
     | Some retry, Some n =>
         (if retry : bool then [EVote (VNullify n)]
          else [EBatcherConstructed (VNullify n); EAppend v (ANullify n); ESync v; EVote (VNullify n)])
     | _, _ => []
     end ++ certificate_of cert).
Proof.
  intros Hj st v. destruct (state_handle_timeout now st) as (E1 & cert & E2). fold v in E1, E2.
  unfold handle_timeout, bind, on_state. fold st.
  destruct (VoterState.handle_timeout now st) as [st' res]. simpl in E1, E2. subst st' res.
  destruct (Round.construct_nullify _) as [r' [retry|]]; simpl; [|by exists None].
  exists cert. unfold Nullify_sign. destruct (sign _ _ _); simpl; [|by destruct cert].
  destruct a; simpl in Hj; subst. by destruct retry, cert.
Qed.

Lemma handle_timeout_live h dirty now :
  triple (live h dirty) (handle_timeout now) (λ _, live h dirty).
Proof.
  intros a d s Hl. pose proof (live_current _ _ _ _ _ _ _ _ _ Hl) as Hv. destruct Hl as [Hs Hw Hj].
  pose proof (handle_timeout_run now a Hj) as Hrun. cbv zeta in Hrun. set (st := ac_state a) in *. set (v := view st) in *.
  destruct (VoterStateSpec.exec_wf now VoterStateSpec.SHandleTimeout st _ Hw I eq_refl) as (Hw' & _).
  rewrite (proj1 (state_handle_timeout now st)) in Hw'. fold v in Hw'.
  destruct (construct_nullify_keeps v (VoterState.entry now st v)) as [Hp Hf].
  assert (jexec v OTimeout (node_at now st d v) =
    Some (VoterJournal.handle_timeout scheme namespace (mkRnd ep v) (node_at now st d v))) as Ho by done.
  unfold VoterJournal.handle_timeout in Ho. change (nd_round (node_at now st d v)) with (VoterState.entry now st v) in Ho.
  destruct (s_config _ _ _ _ _ _ _ _ _ Hs) as (E1 & E2 & E3 & _). rewrite E1, E2, E3 in Hrun.
  destruct (Round.construct_nullify _) as [r' retry]. destruct Hrun as [cert ->]. simpl in *.
  pose proof (sim_entry_finished _ _ _ _ _ now v (λ _, True) r' Hs Hf) as Hfin.
  unfold Nullify_sign in *.
  destruct retry as [retry|]; [destruct (sign scheme namespace (SNullify (mkRnd ep v))) as [att|]; simpl in Ho;
    [destruct retry|]|];
    (eapply (ends_block _ _ _ _ _ _ _ v OTimeout now); [exact Hs|exact Hv|exact Ho| | |exact Hp|exact Hfin|done| |done|..|by destruct a];
     [rewrite core_app, core_certificate; by constructor|simpl; auto 10 with cw|by destruct a|by destruct a]).
Qed.

(** An operation on a round that leaves inert rounds alone. *)
Lemma on_round_cases {A} h dirty st d sent v (f : Round → Round * option A) :
  sim h dirty st d sent → (∀ r, inert r → f r = (r, None)) →
  VoterState.on_round st v f = (st, None) ∨
  (h ≤ v ∧ ∃ r, views st !! v = Some r ∧
     VoterState.on_round st v f = (VoterState.put st v (f r).1, (f r).2)).
Proof.
  intros Hs Hf. destruct (decide (h ≤ v)).
  - unfold VoterState.on_round. destruct (views st !! v) as [r|]; [right|by left].
    split; [done|]. exists r. by destruct (f r).
  - left. apply on_round_idle. intros r Hr. apply Hf. eapply s_inert; [done| |done]. lia.
Qed.

Lemma put_state a st : (a {{ ac_state := st }} : Actor) = 
  mkActor st (certification_candidates a) (ac_journal a) (pending_propose a) (pending_verify a)
    (certify_pool a) (next_handle a).
Proof. by destruct a. Qed.

Lemma live_same h dirty a d sent : live h dirty a d sent → live h dirty (a {{ ac_state := ac_state a }}) d sent.
Proof. apply live_actor; by destruct a. Qed.

(** What a new vote of view [v] writes and sends. *)
Definition vote_effects v (x : Artifact) (y : Vote) : list Effect :=
  [EBatcherConstructed y; EAppend v x; ESync v; EVote y].

Lemma try_broadcast_notarize_run v a r : ac_journal a = true →
  views (ac_state a) !! v = Some r → placed v r →
  let '(r', candidate) := Round.construct_notarize r in
  try_broadcast_notarize v a =
    (Some (tt, a {{ ac_state := VoterState.put (ac_state a) v r' }}),
     match p ← candidate; Notarize_sign (st_scheme (ac_state a)) (st_namespace (ac_state a)) p with
     | Some n => vote_effects v (ANotarize n) (VNotarize n)
     | None => []
     end).
Proof.
  intros Hj Er Hp. destruct (construct_notarize_keeps v r) as (_ & _ & Hc & _).
  unfold try_broadcast_notarize, bind, on_state, VoterState.construct_notarize, VoterState.on_round.
  rewrite Er. destruct (Round.construct_notarize r) as [r' [p|]]; simpl in *; [|done].
  unfold Notarize_sign. destruct (sign _ _ _) as [att|]; simpl; [|done].
  pose proof (placed_proposal _ _ Hp p (Hc p eq_refl)) as Hv.
  destruct a; simpl in Hj; subst. by destruct r'.
Qed.

Lemma try_broadcast_finalize_run v a r : ac_journal a = true →
  views (ac_state a) !! v = Some r → placed v r →
  let '(r', candidate) := Round.construct_finalize r in
  try_broadcast_finalize v a =
    (Some (tt, a {{ ac_state := VoterState.put (ac_state a) v r' }}),
     match p ← candidate; Finalize_sign (st_scheme (ac_state a)) (st_namespace (ac_state a)) p with
     | Some f => vote_effects v (AFinalize f) (VFinalize f)
     | None => []
     end).
Proof.
  intros Hj Er Hp. destruct (construct_finalize_keeps v r) as (_ & _ & Hc & _).
  unfold try_broadcast_finalize, bind, on_state, VoterState.construct_finalize, VoterState.on_round.
  rewrite Er. destruct (Round.construct_finalize r) as [r' [p|]]; simpl in *; [|done].
  unfold Finalize_sign. destruct (sign _ _ _) as [att|]; simpl; [|done].
  pose proof (placed_proposal _ _ Hp p (Hc p eq_refl)) as Hv.
  destruct a; simpl in Hj; subst. by destruct r'.
Qed.

(** A new vote is an event of the specification. *)
Lemma ends_vote h dirty a d s v r r' o x :
  live h dirty a d s → h ≤ v → views (ac_state a) !! v = Some r →
  (placed v r → placed v r') → (finished r → finished r') →
  VoterStateSpec.wf (VoterState.put (ac_state a) v r') →
  match x with Some (x, y) => artifact_view x = v ∧ vote_view y = v | None => True end →
  jexec v o (node_at 0 (ac_state a) d v) =
    Some (match x with
          | Some (x, y) => (VoterJournal.sync_journal (VoterJournal.append_journal
              (VoterJournal.set_round (node_at 0 (ac_state a) d v) r') x), Some y)
          | None => (VoterJournal.set_round (node_at 0 (ac_state a) d v) r', None)
          end) →
  ends crashable d s (Some (tt, a {{ ac_state := VoterState.put (ac_state a) v r' }}),
    match x with Some (x, y) => vote_effects v x y | None => [] end) (λ _, live h dirty).
Proof.
  intros [Hs Hw Hj] Hv Er Hp Hf Hw' Hx Ho.
  assert (VoterState.entry 0 (ac_state a) v = r) as Ee by by apply entry_lookup.
  pose proof (sim_entry_finished _ _ _ _ _ 0 v (λ _, True) r' Hs) as Hfin. rewrite Ee in Hfin.
  destruct x as [[x y]|]; (eapply (ends_block _ _ _ _ _ _ _ v o 0);
    [exact Hs|exact Hv|exact Ho| | |by rewrite Ee|by apply Hfin|done|by destruct a|by destruct a
    |by destruct a|by destruct a]).
  - destruct Hx. by apply shape_vote.
  - unfold vote_effects. auto 10 with cw.
  - by apply shape_nothing.
  - auto with cw.
Qed.

Lemma try_broadcast_notarize_live h dirty v :
  triple (live h dirty) (try_broadcast_notarize v) (λ _, live h dirty).
Proof.
  intros a d s Hl. destruct (on_round_cases h dirty _ d s v Round.construct_notarize (l_sim _ _ _ _ _ _ _ _ _ Hl))
    as [E|(Hv & r & Er & E)]; [intros r; by apply (construct_notarize_keeps 0)|..].
  { unfold try_broadcast_notarize, bind, on_state, VoterState.construct_notarize. rewrite E. simpl.
    apply ends_quiet. by apply live_same. }
  destruct Hl as [Hs Hw Hj] eqn:El. clear El.
  destruct (VoterStateSpec.exec_wf 0 (VoterStateSpec.SConstructNotarize v) (ac_state a) _ Hw I eq_refl) as (Hw' & _).
  pose proof (s_placed _ _ _ _ _ _ _ _ _ Hs v r Er) as Hpl.
  pose proof (try_broadcast_notarize_run v a r Hj Er Hpl) as Hrun.
  destruct (construct_notarize_keeps v r) as (Hp & Hf & Hc & _).
  destruct (s_config _ _ _ _ _ _ _ _ _ Hs) as (E1 & E2 & _). rewrite E1, E2 in Hrun.
  assert (jexec v OVoteNotarize (node_at 0 (ac_state a) d v) =
    Some (VoterJournal.try_broadcast_notarize scheme namespace (node_at 0 (ac_state a) d v))) as Ho by done.
  unfold VoterJournal.try_broadcast_notarize in Ho. 
  change (nd_round (node_at 0 (ac_state a) d v)) with (VoterState.entry 0 (ac_state a) v) in Ho.
  rewrite (entry_lookup _ _ _ _ Er) in Ho.
  unfold VoterState.construct_notarize in Hw'. rewrite E in Hw'. simpl in Hw'.
  destruct (Round.construct_notarize r) as [r' candidate]. rewrite Hrun. simpl in *.
  destruct (p ← candidate; Notarize_sign scheme namespace p) as [n|] eqn:En.
  - apply (ends_vote h dirty a d s v r r' OVoteNotarize (Some (ANotarize n, VNotarize n))); try done.
    destruct candidate as [p|]; simpl in En; [|done]. unfold Notarize_sign in En.
    destruct (sign _ _ _); simpl in En; [|done]. injection En as <-. simpl.
    by rewrite (placed_proposal _ _ Hpl p (Hc p eq_refl)).
  - by apply (ends_vote h dirty a d s v r r' OVoteNotarize None).
Qed.

Lemma try_broadcast_finalize_live h dirty v :
  triple (live h dirty) (try_broadcast_finalize v) (λ _, live h dirty).
Proof.
  intros a d s Hl. destruct (on_round_cases h dirty _ d s v Round.construct_finalize (l_sim _ _ _ _ _ _ _ _ _ Hl))
    as [E|(Hv & r & Er & E)]; [intros r; by apply (construct_finalize_keeps 0)|..].
  { unfold try_broadcast_finalize, bind, on_state, VoterState.construct_finalize. rewrite E. simpl.
    apply ends_quiet. by apply live_same. }
  destruct Hl as [Hs Hw Hj] eqn:El. clear El.
  destruct (VoterStateSpec.exec_wf 0 (VoterStateSpec.SConstructFinalize v) (ac_state a) _ Hw I eq_refl) as (Hw' & _).
  pose proof (s_placed _ _ _ _ _ _ _ _ _ Hs v r Er) as Hpl.
  pose proof (try_broadcast_finalize_run v a r Hj Er Hpl) as Hrun.
  destruct (construct_finalize_keeps v r) as (Hp & Hf & Hc & _).
  destruct (s_config _ _ _ _ _ _ _ _ _ Hs) as (E1 & E2 & _). rewrite E1, E2 in Hrun.
  assert (jexec v OVoteFinalize (node_at 0 (ac_state a) d v) =
    Some (VoterJournal.try_broadcast_finalize scheme namespace (node_at 0 (ac_state a) d v))) as Ho by done.
  unfold VoterJournal.try_broadcast_finalize in Ho. 
  change (nd_round (node_at 0 (ac_state a) d v)) with (VoterState.entry 0 (ac_state a) v) in Ho.
  rewrite (entry_lookup _ _ _ _ Er) in Ho.
  unfold VoterState.construct_finalize in Hw'. rewrite E in Hw'. simpl in Hw'.
  destruct (Round.construct_finalize r) as [r' candidate]. rewrite Hrun. simpl in *.
  destruct (p ← candidate; Finalize_sign scheme namespace p) as [n|] eqn:En.
  - apply (ends_vote h dirty a d s v r r' OVoteFinalize (Some (AFinalize n, VFinalize n))); try done.
    destruct candidate as [p|]; simpl in En; [|done]. unfold Finalize_sign in En.
    destruct (sign _ _ _); simpl in En; [|done]. injection En as <-. simpl.
    by rewrite (placed_proposal _ _ Hpl p (Hc p eq_refl)).
  - by apply (ends_vote h dirty a d s v r r' OVoteFinalize None).
Qed.

(** ** Certificates *)

Lemma add_recovered_placed v r p : proposal_view p = v → placed v r →
  placed v (Round.add_recovered_proposal r p).1.
Proof.
  intros Hp Hr. unfold Round.add_recovered_proposal.
  pose proof (update_placed (r_slot r) p true v Hp (placed_proposal _ _ Hr)) as Hu.
  destruct (Slot.update (r_slot r) p true) as [sl ch]. by apply placed_slot.
Qed.

Lemma clear_deadlines_placed v r : placed v r → placed v (Round.clear_deadlines r).
Proof. by apply placed_same; destruct r. Qed.

Lemma add_recovered_fields r p : let r' := (Round.add_recovered_proposal (Round.clear_deadlines r) p).1 in
  r_finalization r' = r_finalization r ∧ b_finalization r' = b_finalization r ∧
  r_notarization r' = r_notarization r ∧ r_nullification r' = r_nullification r.
Proof.
  unfold Round.add_recovered_proposal. destruct r; simpl. by destruct (Slot.update _ _ _).
Qed.

Lemma add_notarization_keeps v r n :
  (proposal_view (nz_proposal n) = v → placed v r → placed v (Round.add_notarization r n).1) ∧
  (finished r → finished (Round.add_notarization r n).1).
Proof.
  unfold Round.add_notarization. destruct (r_notarization r); [done|].
  destruct (add_recovered_fields r (nz_proposal n)) as (E1 & E2 & E3 & E4).
  pose proof (λ Hn Hr, add_recovered_placed v (Round.clear_deadlines r) (nz_proposal n) Hn
    (clear_deadlines_placed v r Hr)) as Hp.
  destruct (Round.add_recovered_proposal _ _) as [r' e]. simpl in *. split.
  - intros Hn Hr. destruct (Hp Hn Hr). destruct r'. split; simpl in *; unfold constant; try done.
    by intros ? [= <-].
  - unfold finished. destruct r'; simpl in *. by rewrite E1, E2.
Qed.

Lemma add_finalization_keeps v r f :
  (proposal_view (fzz_proposal f) = v → placed v r → placed v (Round.add_finalization r f).1) ∧
  ((Round.add_finalization r f).2.1 = false → (Round.add_finalization r f).1 = r).
Proof.
  unfold Round.add_finalization. destruct (r_finalization r); [done|].
  pose proof (λ Hn Hr, add_recovered_placed v (Round.clear_deadlines r) (fzz_proposal f) Hn
    (clear_deadlines_placed v r Hr)) as Hp.
  destruct (Round.add_recovered_proposal _ _) as [r' e]. simpl in *. split; [|done].
  intros Hn Hr. destruct (Hp Hn Hr). destruct r'. split; simpl in *; unfold constant; try done.
  by intros ? [= <-].
Qed.

Lemma add_nullification_keeps v r n :
  (rnd_view (nlz_round n) = v → placed v r → placed v (Round.add_nullification r n).1) ∧
  (finished r → finished (Round.add_nullification r n).1).
Proof.
  unfold Round.add_nullification. destruct (r_nullification r); [done|]. simpl. split.
  - intros Hn []. destruct r. split; simpl in *; unfold constant; try done. by intros ? [= <-].
  - by destruct r.
Qed.

Lemma enter_view_other now st v w : v ≠ w →
  views (VoterState.enter_view now st w).1 !! v = views st !! v.
Proof.
  intros. unfold VoterState.enter_view. case_match; [done|]. simpl. unfold constant.
  by rewrite lookup_insert_ne.
Qed.
Lemma set_leader_other now st v w c st' : v ≠ w → VoterState.set_leader now st w c = Some st' →
  views st' !! v = views st !! v.
Proof.
  intros Hne. unfold VoterState.set_leader. case_match; simpl.
  - intros [= <-]. simpl. unfold constant. by rewrite lookup_insert_ne.
  - destruct (Round.set_leader _ _); simpl; [|done]. intros [= <-]. simpl. unfold constant.
    by rewrite lookup_insert_ne.
Qed.

(** What the state does to other views before it stores a certificate. *)
Inductive prepares (now : Z) st : State → Prop :=
| prepares_nothing : prepares now st st
| prepares_finalized st1 v : prepares now st st1 → last_finalized st1 < v →
    prepares now st (st1 {{ last_finalized := v }})
| prepares_view st1 v : prepares now st st1 → prepares now st (VoterState.enter_view now st1 v).1
| prepares_leader st1 v c st2 : prepares now st st1 → VoterState.set_leader now st1 v c = Some st2 →
    prepares now st st2.

Lemma prepares_moves h now st st1 : prepares now st st1 → moves h st st1.
Proof.
  induction 1 as [|st1 v _ IH _|st1 v _ IH|st1 v c st2 _ IH E]; [done|etrans; [exact IH|]..].
  - by apply moves_fields; destruct st1.
  - apply enter_view_moves.
  - by eapply set_leader_moves.
Qed.

Lemma prepares_last_finalized now st st1 : prepares now st st1 → last_finalized st ≤ last_finalized st1.
Proof.
  induction 1 as [|st1 v _ IH Hv|st1 v _ IH|st1 v c st2 _ IH E]; [done|..].
  - destruct st1; simpl in *. unfold constant. lia.
  - by rewrite VoterStateSpec.enter_view_finalized.
  - apply VoterStateSpec.set_leader_finalized in E. by rewrite E.
Qed.

(** The state adds a certificate after it has prepared the next view. *)
Lemma add_notarization_prepares now st n st' res :
  VoterState.add_notarization now st n = Some (st', res) → ∃ st1,
    let v := proposal_view (nz_proposal n) in
    prepares now st st1 ∧ last_finalized st1 = last_finalized st ∧ views st1 !! v = views st !! v ∧
    Round.add_notarization (VoterState.entry now st1 v) n =
      ((Round.add_notarization (VoterState.entry now st1 v) n).1, res) ∧
    st' = VoterState.put st1 v (Round.add_notarization (VoterState.entry now st1 v) n).1.
Proof.
  unfold VoterState.add_notarization. destruct (View.next _) as [w|] eqn:Ew; simpl; [|done].
  apply View.next_Some in Ew as [-> _].
  destruct (VoterState.set_leader _ _ _ _) as [st1|] eqn:E; simpl; [|done].
  destruct (Round.add_notarization _ _) as [r' res'] eqn:Er. intros [= <- <-]. exists st1. rewrite Er.
  split_and!; [by eapply prepares_leader; [constructor|]|by eapply VoterStateSpec.set_leader_finalized| |done..].
  eapply set_leader_other, E. lia.
Qed.

Lemma add_nullification_prepares now st n st' res :
  VoterState.add_nullification now st n = Some (st', res) → ∃ st1,
    let v := rnd_view (nlz_round n) in
    prepares now st st1 ∧ last_finalized st1 = last_finalized st ∧ views st1 !! v = views st !! v ∧
    Round.add_nullification (VoterState.entry now st1 v) n =
      ((Round.add_nullification (VoterState.entry now st1 v) n).1, res) ∧
    st' = VoterState.put st1 v (Round.add_nullification (VoterState.entry now st1 v) n).1.
Proof.
  unfold VoterState.add_nullification. destruct (View.next _) as [w|] eqn:Ew; simpl; [|done].
  apply View.next_Some in Ew as [-> _].
  destruct (VoterState.set_leader _ _ _ _) as [st1|] eqn:E; simpl; [|done].
  destruct (Round.add_nullification _ _) as [r' res'] eqn:Er. intros [= <- <-]. exists st1. rewrite Er.
  split_and!; [by eapply prepares_leader; [apply prepares_view; constructor|]| | |done..].
  - apply VoterStateSpec.set_leader_finalized in E. by rewrite E, VoterStateSpec.enter_view_finalized.
  - rewrite (set_leader_other _ _ (rnd_view (nlz_round n)) (rnd_view (nlz_round n) + 1) _ _ ltac:(lia) E).
    apply enter_view_other. lia.
Qed.

Lemma add_finalization_prepares now st f st' res :
  VoterState.add_finalization now st f = Some (st', res) → ∃ st1,
    let v := proposal_view (fzz_proposal f) in
    prepares now st st1 ∧ views st1 !! v = views st !! v ∧
    Round.add_finalization (VoterState.entry now st1 v) f =
      ((Round.add_finalization (VoterState.entry now st1 v) f).1, res) ∧
    st' = VoterState.put st1 v (Round.add_finalization (VoterState.entry now st1 v) f).1.
Proof.
  unfold VoterState.add_finalization. set (st0 := if _ <? _ then _ else _).
  assert (prepares now st st0 ∧ views st0 = views st) as (Hm & <-).
  { subst st0. destruct (Z.ltb_spec (last_finalized st) (proposal_view (fzz_proposal f)));
      [|by split; [constructor|]].
    split; [by apply prepares_finalized; [constructor|]|by destruct st]. }
  clearbody st0. destruct (View.next _) as [w|] eqn:Ew; simpl; [|done].
  apply View.next_Some in Ew as [-> _].
  destruct (VoterState.set_leader _ _ _ _) as [st1|] eqn:E; simpl; [|done].
  destruct (Round.add_finalization _ _) as [r' res'] eqn:Er. intros [= <- <-]. exists st1. rewrite Er.
  split_and!; [by eapply prepares_leader; [by apply prepares_view|]| |done..].
  rewrite (set_leader_other _ _ (proposal_view (fzz_proposal f)) (proposal_view (fzz_proposal f) + 1) _ _
    ltac:(lia) E).
  apply enter_view_other. lia.
Qed.

(** *** The effects of the handlers *)

Definition block_of (k : option PublicKey) : list Effect :=
  match k with Some k => [EBlock k] | None => [] end.
Lemma core_block k : core (block_of k) = [].
Proof. by destruct k. Qed.
Lemma unpruned_block k : unpruned (block_of k).
Proof. destruct k; [apply unpruned_cons; [done|]|]; apply unpruned_nil. Qed.
#[local] Hint Resolve unpruned_block : cw.

Lemma handle_notarization_run now n a st' added k : ac_journal a = true →
  VoterState.add_notarization now (ac_state a) n = Some (st', (added, k)) →
  ∃ a', handle_notarization now n a =
    (Some (tt, a'), (if added then [EAppend (proposal_view (nz_proposal n)) (ANotarization n)] else [])
       ++ block_of k) ∧ ac_state a' = st' ∧ ac_journal a' = true.
Proof.
  intros Hj E. unfold handle_notarization, bind, on_state'. rewrite E.
  destruct a; simpl in Hj; subst. destruct added, k; simpl; by eexists.
Qed.

Lemma handle_nullification_run now n a st' added : ac_journal a = true →
  VoterState.add_nullification now (ac_state a) n = Some (st', added) →
  ∃ a' floor, handle_nullification now n a =
    (Some (floor, a'), if added then [EAppend (rnd_view (nlz_round n)) (ANullification n)] else [])
     ∧ ac_state a' = st' ∧ ac_journal a' = true.
Proof.
  intros Hj E. unfold handle_nullification, bind, on_state'. rewrite E.
  destruct a; simpl in Hj; subst. destruct added; simpl; by eexists _, _.
Qed.

Lemma handle_finalization_run now f a st' added k : ac_journal a = true →
  VoterState.add_finalization now (ac_state a) f = Some (st', (added, k)) →
  ∃ a', handle_finalization now f a =
    (Some (tt, a'), (if added then [EAppend (proposal_view (fzz_proposal f)) (AFinalization f)] else [])
       ++ block_of k) ∧ ac_state a' = st' ∧ ac_journal a' = true.
Proof.
  intros Hj E. unfold handle_finalization, bind, on_state'. rewrite E.
  destruct a; simpl in Hj; subst. destruct added, k; simpl; by eexists.
Qed.

Lemma ends_certificate {A} h dirty dirty' a a' d s v o st1 now r' (added : bool) x tail (y : A) :
  live h dirty a d s → h ≤ v →
  moves h (ac_state a) st1 → last_finalized (ac_state a) ≤ last_finalized st1 →
  jexec v o (node_at now st1 d v) =
    Some (let nd := VoterJournal.set_round (node_at now st1 d v) r' in
          if added then VoterJournal.append_journal nd x else nd, None) →
  artifact_view x = v →
  (placed v (VoterState.entry now st1 v) → placed v r') →
  (dirty' ≠ Some v → finished (VoterState.entry now st1 v) → finished r') →
  (∀ w, dirty' ≠ Some w → dirty ≠ Some w) →
  ac_state a' = VoterState.put st1 v r' → VoterStateSpec.wf (ac_state a') → ac_journal a' = true →
  core tail = [] → unpruned tail →
  ends crashable d s (Some (y, a'), (if added then [EAppend v x] else []) ++ tail) (λ _, live h dirty').
Proof.
  intros [Hs Hw Hj] Hv Hm Hf Ho Hx Hp Hfin Hd E Hw' Hj' Ht Hut.
  assert (sim h dirty st1 d s) as Hs1 by by eapply sim_moves.
  assert (dirty' ≠ Some v → finished r') as Hfin'.
  { intros Hdv. apply Hfin; [done|]. apply at_entry; [apply new_finished|].
    eapply s_finished; [done|auto]. }
  destruct added; (eapply (ends_block _ _ _ _ _ _ _ v o now);
    [exact Hs1|exact Hv|exact Ho| | |done|done|auto|by rewrite E|by rewrite E|done|done]).
  - rewrite core_app, Ht. by apply shape_append.
  - simpl. auto with cw.
  - rewrite core_app, Ht. by apply shape_nothing.
  - done.
Qed.

(** The specification's handlers on a round. *)
Lemma exec_notarization v r J s n r' added k : Round.add_notarization r n = (r', (added, k)) →
  jexec v (ONotarization n) (jnode r J s) =
    Some (let nd := VoterJournal.set_round (jnode r J s) r' in
          if added then VoterJournal.append_journal nd (ANotarization n) else nd, None).
Proof. intros E. simpl. unfold VoterJournal.handle_notarization. simpl. by rewrite E. Qed.
Lemma exec_nullification v r J s n r' added : Round.add_nullification r n = (r', added) →
  jexec v (ONullification n) (jnode r J s) =
    Some (let nd := VoterJournal.set_round (jnode r J s) r' in
          if added then VoterJournal.append_journal nd (ANullification n) else nd, None).
Proof. intros E. simpl. unfold VoterJournal.handle_nullification. simpl. by rewrite E. Qed.
Lemma exec_finalization v r J s f r' added k : Round.add_finalization r f = (r', (added, k)) →
  jexec v (OFinalization f) (jnode r J s) =
    Some (let nd := VoterJournal.set_round (jnode r J s) r' in
          if added then VoterJournal.append_journal nd (AFinalization f) else nd, None).
Proof. intros E. simpl. unfold VoterJournal.handle_finalization. simpl. by rewrite E. Qed.

Lemma handle_notarization_live h dirty now n : h ≤ proposal_view (nz_proposal n) →
  triple (live h dirty) (handle_notarization now n) (λ _, live h dirty).
Proof.
  intros Hv a d s Hl.
  destruct (VoterState.add_notarization now (ac_state a) n) as [[st' [added k]]|] eqn:E.
  2:{ unfold handle_notarization, bind, on_state'. rewrite E. apply ends_panic. }
  destruct (handle_notarization_run now n a st' added k (l_journal _ _ _ _ _ _ _ _ _ Hl) E)
    as (a' & -> & Ea & Hj).
  destruct (add_notarization_prepares _ _ _ _ _ E) as (st1 & Hm%(prepares_moves h) & Hf & _ & Er & Est).
  destruct (VoterStateSpec.exec_wf now (VoterStateSpec.SAddNotarization n) (ac_state a) st'
    (l_wf _ _ _ _ _ _ _ _ _ Hl) I) as (Hw & _); [by simpl; rewrite E|].
  destruct (add_notarization_keeps (proposal_view (nz_proposal n))
    (VoterState.entry now st1 (proposal_view (nz_proposal n))) n) as [Hp Hfn].
  eapply (ends_certificate h dirty dirty a a' d s (proposal_view (nz_proposal n)) (ONotarization n) st1 now
    (Round.add_notarization (VoterState.entry now st1 (proposal_view (nz_proposal n))) n).1 added); try done.
  - lia.
  - by eapply exec_notarization.
  - auto.
  - by rewrite Ea.
  - by rewrite Ea.
  - apply core_block.
  - apply unpruned_block.
Qed.

Lemma handle_nullification_live h dirty now n : h ≤ rnd_view (nlz_round n) →
  triple (live h dirty) (handle_nullification now n) (λ _, live h dirty).
Proof.
  intros Hv a d s Hl.
  destruct (VoterState.add_nullification now (ac_state a) n) as [[st' added]|] eqn:E.
  2:{ unfold handle_nullification, bind, on_state'. rewrite E. apply ends_panic. }
  destruct (handle_nullification_run now n a st' added (l_journal _ _ _ _ _ _ _ _ _ Hl) E)
    as (a' & floor & -> & Ea & Hj). rewrite <- (app_nil_r (if added then _ else _)).
  destruct (add_nullification_prepares _ _ _ _ _ E) as (st1 & Hm%(prepares_moves h) & Hf & _ & Er & Est).
  destruct (VoterStateSpec.exec_wf now (VoterStateSpec.SAddNullification n) (ac_state a) st'
    (l_wf _ _ _ _ _ _ _ _ _ Hl) I) as (Hw & _); [by simpl; rewrite E|].
  destruct (add_nullification_keeps (rnd_view (nlz_round n))
    (VoterState.entry now st1 (rnd_view (nlz_round n))) n) as [Hp Hfn].
  eapply (ends_certificate h dirty dirty a a' d s (rnd_view (nlz_round n)) (ONullification n) st1 now
    (Round.add_nullification (VoterState.entry now st1 (rnd_view (nlz_round n))) n).1 added); try done.
  - lia.
  - by eapply exec_nullification.
  - auto.
  - by rewrite Ea.
  - by rewrite Ea.
  - auto with cw.
Qed.

Lemma handle_finalization_live h now f : h ≤ proposal_view (fzz_proposal f) →
  triple (live h None) (handle_finalization now f) (λ _, live h (Some (proposal_view (fzz_proposal f)))).
Proof.
  intros Hv a d s Hl.
  pose proof (d_nonneg _ _ _ _ _ _ _ (s_disk _ _ _ _ _ _ _ _ _ (l_sim _ _ _ _ _ _ _ _ _ Hl))) as H0.
  destruct (VoterState.add_finalization now (ac_state a) f) as [[st' [added k]]|] eqn:E.
  2:{ unfold handle_finalization, bind, on_state'. rewrite E. apply ends_panic. }
  destruct (handle_finalization_run now f a st' added k (l_journal _ _ _ _ _ _ _ _ _ Hl) E)
    as (a' & -> & Ea & Hj).
  destruct (add_finalization_prepares _ _ _ _ _ E) as (st1 & Hp1 & _ & Er & Est).
  pose proof (prepares_moves h _ _ _ Hp1) as Hm. pose proof (prepares_last_finalized _ _ _ Hp1) as Hf.
  destruct (VoterStateSpec.exec_wf now (VoterStateSpec.SAddFinalization f) (ac_state a) st'
    (l_wf _ _ _ _ _ _ _ _ _ Hl)) as (Hw & _); [simpl; lia|by simpl; rewrite E|].
  destruct (add_finalization_keeps (proposal_view (fzz_proposal f))
    (VoterState.entry now st1 (proposal_view (fzz_proposal f))) f) as [Hp _].
  eapply (ends_certificate h None _ a a' d s (proposal_view (fzz_proposal f)) (OFinalization f) st1 now
    (Round.add_finalization (VoterState.entry now st1 (proposal_view (fzz_proposal f))) f).1 added); try done.
  - by eapply exec_finalization.
  - auto.
  - by rewrite Ea.
  - by rewrite Ea.
  - apply core_block.
  - apply unpruned_block.
Qed.

(** *** Certification *)

Lemma lookup_put st v r : views (VoterState.put st v r) !! v = Some r.
Proof. simpl. unfold constant. apply lookup_insert_eq. Qed.
Lemma put_put st v r r' : VoterState.put (VoterState.put st v r) v r' = VoterState.put st v r'.
Proof. destruct st. unfold VoterState.put. simpl. unfold constant. by rewrite insert_insert_eq. Qed.

Lemma round_certified_fields r b r' : Round.certified r b = Some r' →
  r_slot r' = r_slot r ∧ r_notarization r' = r_notarization r ∧
  r_nullification r' = r_nullification r ∧ r_finalization r' = r_finalization r ∧
  b_finalization r' = b_finalization r.
Proof. unfold Round.certified. destruct r; simpl. intros. by repeat case_match; simplify_eq/=. Qed.

(** What [certified] does when it does not panic. *)
Lemma certified_inv h now st v b st' res :
  VoterState.certified now st v b = Some (st', res) →
  (res = None ∧ st' = st) ∨
  ∃ r r1 n, views st !! v = Some r ∧ Round.certified r b = Some r1 ∧ r_notarization r1 = Some n ∧
    res = Some n ∧
    moves h (VoterState.put st v (if b then r1 else Round.set_deadlines r1 now now)) st' ∧
    last_finalized st' = last_finalized st ∧ epoch st' = epoch st.
Proof.
  unfold VoterState.certified. destruct (views st !! v) as [r|]; [|intros [= <- <-]; by left].
  destruct (Round.certified r b) as [r1|] eqn:E1; simpl; [|done].
  destruct (r_notarization r1) as [n|] eqn:En; simpl; [|done]. intros E. right. exists r, r1, n.
  do 3 (split; [done|]). destruct b; simpl in *.
  - destruct (View.next v) as [w|]; simpl in E; [|done]. injection E as <- <-.
    split; [done|]. pose proof (enter_view_moves h now (VoterState.put st v r1) w) as Hm.
    split; [done|]. split; [by rewrite VoterStateSpec.enter_view_finalized|]. by rewrite (mv_epoch _ _ _ Hm).
  - injection E as <- <-. split; [done|].
    unfold VoterState.expire_round. rewrite entry_put, put_put. by split_and!.
Qed.

Lemma handle_certification_live h dirty now v b :
  triple (live h dirty) (handle_certification now v b) (λ _, live h dirty).
Proof.
  intros a d s Hl. destruct Hl as [Hs Hw Hj] eqn:El. clear El.
  destruct (VoterState.certified now (ac_state a) v b) as [[st' res]|] eqn:E.
  2:{ unfold handle_certification, bind, on_state'. rewrite E. apply ends_panic. }
  destruct (VoterStateSpec.exec_wf now (VoterStateSpec.SCertified v b) (ac_state a) st' Hw I)
    as (Hw' & _); [by simpl; rewrite E|].
  destruct (certified_inv h _ _ _ _ _ _ E) as [[-> ->]|(r & r1 & n & Er & E1 & En & -> & Hm & Hf & He)].
  { unfold handle_certification, bind, on_state'. rewrite E. simpl. apply ends_quiet. by apply live_same. }
  destruct (round_certified_fields _ _ _ E1) as (F1 & F2 & F3 & F4 & F5).
  set (r' := if b then r1 else Round.set_deadlines r1 now now) in *.
  assert (r_slot r' = r_slot r ∧ r_notarization r' = r_notarization r ∧
    r_nullification r' = r_nullification r ∧ r_finalization r' = r_finalization r ∧
    b_finalization r' = b_finalization r) as (G1 & G2 & G3 & G4 & G5) by (subst r'; by destruct b, r1).
  destruct (decide (h ≤ v)) as [Hv|Hv].
  2:{ exfalso. pose proof (s_inert _ _ _ _ _ _ _ _ _ Hs v ltac:(lia) r Er) as Hi.
      pose proof (inert_notarization _ Hi). congruence. }
  destruct (s_config _ _ _ _ _ _ _ _ _ Hs) as (_ & _ & Ee & _).
  assert (∃ a', handle_certification now v b a =
    (Some (Some n, a'), [EAppend v (ACertification (mkRnd ep v) b); ESync v]) ∧
    ac_state a' = st' ∧ ac_journal a' = true) as (a' & -> & Ea & Hj').
  { unfold handle_certification, bind, on_state'. rewrite E, <- Ee, <- He. simpl.
    destruct a; simpl in Hj; subst. by eexists. }
  assert (VoterState.entry now (ac_state a) v = r) as Hent by by apply entry_lookup.
  eapply (ends_block h dirty dirty _ _ _ _ v (OCertified now b) now r'); rewrite ?Hent, ?Ea; try done.
  - simpl. unfold VoterJournal.handle_certification, VoterJournal.state_certified. simpl.
    rewrite Hent, E1. simpl. by rewrite En.
  - by apply shape_durable.
  - auto 10 with cw.
  - by apply placed_same.
  - intros Hd Hfin. rewrite G4 in Hfin. rewrite G5. by apply (s_finished _ _ _ _ _ _ _ _ _ Hs v Hd r Er).
  - by rewrite Hf.
Qed.

(** *** Broadcasts of certificates *)

Lemma broadcast_notarization_inv r n : (Round.broadcast_notarization r).2 = Some n →
  r_notarization r = Some n ∧ (Round.broadcast_notarization r).1 = r {{ b_notarization := true }}.
Proof. unfold Round.broadcast_notarization. case_match; [done|]. case_match; [|done]. by intros [= <-]. Qed.
Lemma broadcast_nullification_inv r n : (Round.broadcast_nullification r).2 = Some n →
  r_nullification r = Some n ∧ (Round.broadcast_nullification r).1 = r {{ b_nullification := true }}.
Proof. unfold Round.broadcast_nullification. case_match; [done|]. case_match; [|done]. by intros [= <-]. Qed.
Lemma broadcast_finalization_inv r n : (Round.broadcast_finalization r).2 = Some n →
  r_finalization r = Some n ∧ (Round.broadcast_finalization r).1 = r {{ b_finalization := true }}.
Proof. unfold Round.broadcast_finalization. case_match; [done|]. case_match; [|done]. by intros [= <-]. Qed.

(** A certificate the round holds already is not added again. *)
Lemma readd_notarization h now st v n st' res r :
  views st !! v = Some r → proposal_view (nz_proposal n) = v → r_notarization r = Some n →
  VoterState.add_notarization now st n = Some (st', res) → res = (false, None) ∧ moves h st st' ∧
  last_finalized st' = last_finalized st.
Proof.
  intros Er Hv Hn E. destruct (add_notarization_prepares _ _ _ _ _ E) as (st1 & Hm%(prepares_moves h) & Hf & Ev & Ea & ->).
  rewrite Hv in *. rewrite Er in Ev. rewrite (entry_lookup _ _ _ _ Ev) in *.
  unfold Round.add_notarization in *. rewrite Hn in *. simpl in *. injection Ea as <-. by rewrite put_same.
Qed.
Lemma readd_nullification h now st v n st' res r :
  views st !! v = Some r → rnd_view (nlz_round n) = v → r_nullification r = Some n →
  VoterState.add_nullification now st n = Some (st', res) → res = false ∧ moves h st st' ∧
  last_finalized st' = last_finalized st.
Proof.
  intros Er Hv Hn E. destruct (add_nullification_prepares _ _ _ _ _ E) as (st1 & Hm%(prepares_moves h) & Hf & Ev & Ea & ->).
  rewrite Hv in *. rewrite Er in Ev. rewrite (entry_lookup _ _ _ _ Ev) in *.
  unfold Round.add_nullification in *. rewrite Hn in *. simpl in *. injection Ea as <-. by rewrite put_same.
Qed.
Lemma readd_finalization h now st v f st' res r :
  views st !! v = Some r → proposal_view (fzz_proposal f) = v → r_finalization r = Some f →
  VoterState.add_finalization now st f = Some (st', res) → res = (false, None) ∧ moves h st st' ∧
  last_finalized st ≤ last_finalized st'.
Proof.
  intros Er Hv Hn E. destruct (add_finalization_prepares _ _ _ _ _ E) as (st1 & Hp1 & Ev & Ea & ->).
  pose proof (prepares_moves h _ _ _ Hp1) as Hm. pose proof (prepares_last_finalized _ _ _ Hp1) as Hf.
  rewrite Hv in *. rewrite Er in Ev. rewrite (entry_lookup _ _ _ _ Ev) in *.
  unfold Round.add_finalization in *. rewrite Hn in *. simpl in *. injection Ea as <-. by rewrite put_same.
Qed.

(** The broadcast of a certificate syncs the journal of the view. *)
Lemma ends_sync {A} h dirty dirty' a a' d s v o r r' st' front back (y : A) :
  live h dirty a d s → h ≤ v → views (ac_state a) !! v = Some r →
  jexec v o (node_at 0 (ac_state a) d v) =
    Some (VoterJournal.sync_journal (VoterJournal.set_round (node_at 0 (ac_state a) d v) r'), None) →
  (placed v r → placed v r') → (dirty' ≠ Some v → finished r → finished r') →
  (∀ w, w ≠ v → dirty' ≠ Some w → dirty ≠ Some w) →
  (dirty' ≠ Some v → dirty = Some v → finished r') →
  moves h (VoterState.put (ac_state a) v r') st' → last_finalized (ac_state a) ≤ last_finalized st' →
  ac_state a' = st' → VoterStateSpec.wf st' → ac_journal a' = true →
  core front = [] → unpruned front → core back = [] → unpruned back →
  ends crashable d s (Some (y, a'), front ++ ESync v :: back) (λ _, live h dirty').
Proof.
  intros [Hs Hw Hj] Hv Er Ho Hp Hf Hd Hf' Hm Hlf <- Hw' Hj' Hfr Hnf Hbk Hnb.
  eapply (ends_block h dirty dirty' _ _ _ _ v o 0 r'); rewrite ?(entry_lookup _ _ _ _ Er); try done.
  - rewrite core_app, core_cons, Hfr, Hbk. simpl. by apply shape_sync.
  - auto with cw.
  - intros Hdv. destruct (decide (dirty = Some v)); [auto|].
    apply Hf; [done|]. by apply (s_finished _ _ _ _ _ _ _ _ _ Hs v).
Qed.

Definition resolver_effect (skip : bool) (c : Cert) : list Effect :=
  if skip then [] else [EResolverUpdated c].
Lemma core_resolver b c : core (resolver_effect b c) = [].
Proof. by destruct b. Qed.
Lemma unpruned_resolver b c : unpruned (resolver_effect b c).
Proof. destruct b; [apply unpruned_nil|apply unpruned_cons; [done|apply unpruned_nil]]. Qed.

Lemma try_broadcast_notarization_run now v resolved a r n :
  ac_journal a = true → views (ac_state a) !! v = Some r →
  (Round.broadcast_notarization r).2 = Some n →
  let st := VoterState.put (ac_state a) v (Round.broadcast_notarization r).1 in
  let front := resolver_effect (bool_decide (resolved = RsNotarization)) (CNotarization n) in
  match VoterState.add_notarization now st n with
  | None => try_broadcast_notarization now v resolved a = (None, front)
  | Some (st', res) => res = (false, None) → ∃ a',
      try_broadcast_notarization now v resolved a =
        (Some (tt, a'), front ++ [ESync v; ECertificate (CNotarization n); EReport (AcNotarization n)]) ∧
      ac_state a' = st' ∧ ac_journal a' = true
  end.
Proof.
  intros Hj Er Hb st front. subst st.
  assert (VoterState.broadcast_notarization (ac_state a) v =
    (VoterState.put (ac_state a) v (Round.broadcast_notarization r).1, Some n)) as E.
  { unfold VoterState.broadcast_notarization, VoterState.on_round. rewrite Er.
    destruct (Round.broadcast_notarization r); simpl in *. by subst. }
  set (st1 := VoterState.put _ _ _) in *. clearbody st1. subst front.
  destruct a; simpl in Hj, E; subst.
  unfold try_broadcast_notarization, handle_notarization, bind, on_state, on_state'. simpl.
  rewrite E. simpl. unfold constant.
  destruct resolved; simpl; destruct (VoterState.add_notarization now st1 n) as [[st' res]|];
    try (intros ->; eexists); done.
Qed.

(** A certificate of view [v] is broadcast, or nothing happens. *)
Lemma broadcast_cases {X} h dirty st d sent v (f : Round → Round * option X) :
  sim h dirty st d sent → (∀ r, inert r → f r = (r, None)) → (∀ r, (f r).2 = None → (f r).1 = r) →
  VoterState.on_round st v f = (st, None) ∨
  (h ≤ v ∧ ∃ r x, views st !! v = Some r ∧ (f r).2 = Some x ∧ placed v r ∧
     VoterState.on_round st v f = (VoterState.put st v (f r).1, Some x)).
Proof.
  intros Hs Hi Hn. destruct (on_round_cases h dirty st d sent v f Hs Hi) as [|(Hv & r & Er & E)]; [by left|].
  destruct ((f r).2) as [x|] eqn:Ex; [right|left].
  - split; [done|]. exists r, x. split_and!; [done..|by apply Hs|done].
  - by rewrite E, (Hn r Ex), put_same.
Qed.

Lemma broadcast_notarization_idle r :
  (inert r → Round.broadcast_notarization r = (r, None)) ∧
  ((Round.broadcast_notarization r).2 = None → (Round.broadcast_notarization r).1 = r).
Proof.
  unfold Round.broadcast_notarization. split.
  - intros Hi. rewrite (inert_notarization _ Hi). by case_match.
  - by repeat case_match.
Qed.
Lemma broadcast_nullification_idle r :
  (inert r → Round.broadcast_nullification r = (r, None)) ∧
  ((Round.broadcast_nullification r).2 = None → (Round.broadcast_nullification r).1 = r).
Proof.
  unfold Round.broadcast_nullification. split.
  - intros Hi. rewrite (inert_nullification _ Hi). by case_match.
  - by repeat case_match.
Qed.
Lemma broadcast_finalization_idle r :
  (inert r → Round.broadcast_finalization r = (r, None)) ∧
  ((Round.broadcast_finalization r).2 = None → (Round.broadcast_finalization r).1 = r).
Proof.
  unfold Round.broadcast_finalization. split.
  - intros Hi. rewrite (inert_finalization _ Hi). by case_match.
  - by repeat case_match.
Qed.

(** The specification's broadcasts of a certificate the round holds. *)
Lemma exec_broadcast_notarization v r J s n : (Round.broadcast_notarization r).2 = Some n →
  jexec v OBroadcastNotarization (jnode r J s) = Some (VoterJournal.sync_journal
    (VoterJournal.set_round (jnode r J s) (Round.broadcast_notarization r).1), None).
Proof.
  intros Hb. destruct (broadcast_notarization_inv r n Hb) as [Hn Er].
  simpl. unfold VoterJournal.try_broadcast_notarization. simpl.
  rewrite (surjective_pairing (Round.broadcast_notarization r)), Hb. simpl.
  unfold VoterJournal.handle_notarization, Round.add_notarization. simpl. rewrite Er.
  destruct r; simpl in *. by rewrite Hn.
Qed.
Lemma exec_broadcast_nullification v r J s n : (Round.broadcast_nullification r).2 = Some n →
  jexec v OBroadcastNullification (jnode r J s) = Some (VoterJournal.sync_journal
    (VoterJournal.set_round (jnode r J s) (Round.broadcast_nullification r).1), None).
Proof.
  intros Hb. destruct (broadcast_nullification_inv r n Hb) as [Hn Er].
  simpl. unfold VoterJournal.try_broadcast_nullification. simpl.
  rewrite (surjective_pairing (Round.broadcast_nullification r)), Hb. simpl.
  unfold VoterJournal.handle_nullification, Round.add_nullification. simpl. rewrite Er.
  destruct r; simpl in *. by rewrite Hn.
Qed.
Lemma exec_broadcast_finalization v r J s n : (Round.broadcast_finalization r).2 = Some n →
  jexec v OBroadcastFinalization (jnode r J s) = Some (VoterJournal.sync_journal
    (VoterJournal.set_round (jnode r J s) (Round.broadcast_finalization r).1), None).
Proof.
  intros Hb. destruct (broadcast_finalization_inv r n Hb) as [Hn Er].
  simpl. unfold VoterJournal.try_broadcast_finalization. simpl.
  rewrite (surjective_pairing (Round.broadcast_finalization r)), Hb. simpl.
  unfold VoterJournal.handle_finalization, Round.add_finalization. simpl. rewrite Er.
  destruct r; simpl in *. by rewrite Hn.
Qed.

Lemma try_broadcast_notarization_live h dirty now v resolved :
  triple (live h dirty) (try_broadcast_notarization now v resolved) (λ _, live h dirty).
Proof.
  intros a d s Hl. destruct Hl as [Hs Hw Hj] eqn:El. clear El.
  destruct (broadcast_cases h dirty _ d s v Round.broadcast_notarization Hs) as [E|(Hv & r & n & Er & Eb & Hp & E)];
    [intros r; apply broadcast_notarization_idle..| |].
  { unfold try_broadcast_notarization, bind, on_state, VoterState.broadcast_notarization. rewrite E. simpl.
    apply ends_quiet. by apply live_same. }
  destruct (broadcast_notarization_inv r n Eb) as [Hn Er'].
  pose proof (try_broadcast_notarization_run now v resolved a r n Hj Er Eb) as Hrun. cbv zeta in Hrun.
  destruct (VoterStateSpec.exec_wf 0 (VoterStateSpec.SBroadcastNotarization v) (ac_state a) _ Hw I eq_refl) as (Hw1 & _).
  unfold VoterState.broadcast_notarization in Hw1. rewrite E in Hw1. simpl in Hw1.
  pose proof (exec_broadcast_notarization v r (section d v).1 (section d v).2 n Eb) as Ho.
  set (r' := (Round.broadcast_notarization r).1) in *.
  destruct (VoterState.add_notarization now (VoterState.put (ac_state a) v r') n) as [[st' res]|] eqn:Ea.
  2:{ rewrite Hrun. apply ends_silent; [by eapply live_crashable|apply core_resolver|apply unpruned_resolver]. }
  destruct (readd_notarization h now _ v n st' res r' (lookup_put _ _ _)
    (placed_notarization _ _ Hp n Hn) ltac:(rewrite Er'; by destruct r) Ea) as (-> & Hm & Hf).
  destruct (VoterStateSpec.exec_wf now (VoterStateSpec.SAddNotarization n) _ st' Hw1 I) as (Hw' & _);
    [by simpl; rewrite Ea|].
  destruct (Hrun eq_refl) as (a' & -> & Ea' & Hj').
  eapply (ends_sync h dirty dirty a a' d s v OBroadcastNotarization r r'); try done; auto with cw.
  - unfold node_at. by rewrite (entry_lookup _ _ _ _ Er).
  - rewrite Er'. by apply placed_same; destruct r.
  - intros _. rewrite Er'. by destruct r.
  - by rewrite Hf.
  - apply core_resolver.
  - apply unpruned_resolver.
Qed.

Lemma try_broadcast_nullification_run now v resolved a r n :
  ac_journal a = true → views (ac_state a) !! v = Some r →
  (Round.broadcast_nullification r).2 = Some n →
  let st := VoterState.put (ac_state a) v (Round.broadcast_nullification r).1 in
  let front := resolver_effect (bool_decide (resolved = RsNullification)) (CNullification n) in
  match VoterState.add_nullification now st n with
  | None => try_broadcast_nullification now v resolved a = (None, front)
  | Some (st', res) => res = false → ∃ a',
      try_broadcast_nullification now v resolved a =
        (Some (tt, a'), front ++ [ESync v; ECertificate (CNullification n); EReport (AcNullification n)]) ∧
      ac_state a' = st' ∧ ac_journal a' = true
  end.
Proof.
  intros Hj Er Hb st front. subst st.
  assert (VoterState.broadcast_nullification (ac_state a) v =
    (VoterState.put (ac_state a) v (Round.broadcast_nullification r).1, Some n)) as E.
  { unfold VoterState.broadcast_nullification, VoterState.on_round. rewrite Er.
    destruct (Round.broadcast_nullification r); simpl in *. by subst. }
  set (st1 := VoterState.put _ _ _) in *. clearbody st1. subst front.
  destruct a; simpl in Hj, E; subst.
  unfold try_broadcast_nullification, handle_nullification, bind, on_state, on_state'. simpl.
  rewrite E. simpl. unfold constant.
  destruct resolved; simpl; destruct (VoterState.add_nullification now st1 n) as [[st' res]|];
    try (intros ->; eexists); done.
Qed.

Lemma try_broadcast_nullification_live h dirty now v resolved :
  triple (live h dirty) (try_broadcast_nullification now v resolved) (λ _, live h dirty).
Proof.
  intros a d s Hl. destruct Hl as [Hs Hw Hj] eqn:El. clear El.
  destruct (broadcast_cases h dirty _ d s v Round.broadcast_nullification Hs) as [E|(Hv & r & n & Er & Eb & Hp & E)];
    [intros r; apply broadcast_nullification_idle..| |].
  { unfold try_broadcast_nullification, bind, on_state, VoterState.broadcast_nullification. rewrite E. simpl.
    apply ends_quiet. by apply live_same. }
  destruct (broadcast_nullification_inv r n Eb) as [Hn Er'].
  pose proof (try_broadcast_nullification_run now v resolved a r n Hj Er Eb) as Hrun. cbv zeta in Hrun.
  destruct (VoterStateSpec.exec_wf 0 (VoterStateSpec.SBroadcastNullification v) (ac_state a) _ Hw I eq_refl) as (Hw1 & _).
  unfold VoterState.broadcast_nullification in Hw1. rewrite E in Hw1. simpl in Hw1.
  pose proof (exec_broadcast_nullification v r (section d v).1 (section d v).2 n Eb) as Ho.
  set (r' := (Round.broadcast_nullification r).1) in *.
  destruct (VoterState.add_nullification now (VoterState.put (ac_state a) v r') n) as [[st' res]|] eqn:Ea.
  2:{ rewrite Hrun. apply ends_silent; [by eapply live_crashable|apply core_resolver|apply unpruned_resolver]. }
  destruct (readd_nullification h now _ v n st' res r' (lookup_put _ _ _)
    (placed_nullification _ _ Hp n Hn) ltac:(rewrite Er'; by destruct r) Ea) as (-> & Hm & Hf).
  destruct (VoterStateSpec.exec_wf now (VoterStateSpec.SAddNullification n) _ st' Hw1 I) as (Hw' & _);
    [by simpl; rewrite Ea|].
  destruct (Hrun eq_refl) as (a' & -> & Ea' & Hj').
  eapply (ends_sync h dirty dirty a a' d s v OBroadcastNullification r r'); try done; auto with cw.
  - unfold node_at. by rewrite (entry_lookup _ _ _ _ Er).
  - rewrite Er'. by apply placed_same; destruct r.
  - intros _. rewrite Er'. by destruct r.
  - by rewrite Hf.
  - apply core_resolver.
  - apply unpruned_resolver.
Qed.

Lemma try_broadcast_finalization_run now v resolved a r f :
  ac_journal a = true → views (ac_state a) !! v = Some r →
  (Round.broadcast_finalization r).2 = Some f →
  let st := VoterState.put (ac_state a) v (Round.broadcast_finalization r).1 in
  let front := resolver_effect (bool_decide (resolved = RsFinalization)) (CFinalization f) in
  match VoterState.add_finalization now st f with
  | None => try_broadcast_finalization now v resolved a = (None, front)
  | Some (st', res) => res = (false, None) → ∃ a',
      try_broadcast_finalization now v resolved a =
        (Some (tt, a'), front ++ [ESync v; ECertificate (CFinalization f); EReport (AcFinalization f)]) ∧
      ac_state a' = st' ∧ ac_journal a' = true
  end.
Proof.
  intros Hj Er Hb st front. subst st.
  assert (VoterState.broadcast_finalization (ac_state a) v =
    (VoterState.put (ac_state a) v (Round.broadcast_finalization r).1, Some f)) as E.
  { unfold VoterState.broadcast_finalization, VoterState.on_round. rewrite Er.
    destruct (Round.broadcast_finalization r); simpl in *. by subst. }
  set (st1 := VoterState.put _ _ _) in *. clearbody st1. subst front.
  destruct a; simpl in Hj, E; subst.
  unfold try_broadcast_finalization, handle_finalization, bind, on_state, on_state'. simpl.
  rewrite E. simpl. unfold constant.
  destruct resolved; simpl; destruct (VoterState.add_finalization now st1 f) as [[st' res]|];
    try (intros ->; eexists); done.
Qed.

(** After the broadcast no finalization waits in the view. *)
Lemma try_broadcast_finalization_live h now v resolved :
  triple (live h (Some v)) (try_broadcast_finalization now v resolved) (λ _, live h None).
Proof.
  intros a d s Hl. destruct Hl as [Hs Hw Hj] eqn:El. clear El.
  destruct (broadcast_cases h (Some v) _ d s v Round.broadcast_finalization Hs) as [E|(Hv & r & n & Er & Eb & Hp & E)];
    [intros r; apply broadcast_finalization_idle..| |].
  { unfold try_broadcast_finalization, bind, on_state, VoterState.broadcast_finalization. rewrite E. simpl.
    apply ends_quiet. apply live_same. split; [|done..]. destruct Hs. split; try done.
    intros w _ r Er. destruct (decide (w = v)) as [->|Hne]; [|by apply (s_finished0 w); [congruence|]].
    unfold VoterState.on_round in E. rewrite Er in E. intros [f Hf].
    unfold Round.broadcast_finalization in E. destruct (b_finalization r); [done|]. by rewrite Hf in E. }
  destruct (broadcast_finalization_inv r n Eb) as [Hn Er'].
  pose proof (try_broadcast_finalization_run now v resolved a r n Hj Er Eb) as Hrun. cbv zeta in Hrun.
  destruct (VoterStateSpec.exec_wf 0 (VoterStateSpec.SBroadcastFinalization v) (ac_state a) _ Hw I eq_refl) as (Hw1 & _).
  unfold VoterState.broadcast_finalization in Hw1. rewrite E in Hw1. simpl in Hw1.
  pose proof (exec_broadcast_finalization v r (section d v).1 (section d v).2 n Eb) as Ho.
  set (r' := (Round.broadcast_finalization r).1) in *.
  destruct (VoterState.add_finalization now (VoterState.put (ac_state a) v r') n) as [[st' res]|] eqn:Ea.
  2:{ rewrite Hrun. apply ends_silent; [by eapply live_crashable|apply core_resolver|apply unpruned_resolver]. }
  destruct (readd_finalization h now _ v n st' res r' (lookup_put _ _ _)
    (placed_finalization _ _ Hp n Hn) ltac:(rewrite Er'; by destruct r) Ea) as (-> & Hm & Hf).
  destruct (Hrun eq_refl) as (a' & -> & Ea' & Hj').
  destruct (VoterStateSpec.exec_wf now (VoterStateSpec.SAddFinalization n) _ st' Hw1) as (Hw' & _);
    [simpl; rewrite (placed_finalization _ _ Hp n Hn)|by simpl; rewrite Ea|].
  { pose proof (d_nonneg _ _ _ _ _ _ _ (s_disk _ _ _ _ _ _ _ _ _ Hs)). lia. }
  eapply (ends_sync h (Some v) None a a' d s v OBroadcastFinalization r r'); try done; auto with cw.
  - unfold node_at. by rewrite (entry_lookup _ _ _ _ Er).
  - rewrite Er'. by apply placed_same; destruct r.
  - intros _ _. rewrite Er'. by destruct r.
  - congruence.
  - intros _ _ _. rewrite Er'. by destruct r.
  - apply core_resolver.
  - apply unpruned_resolver.
Qed.
End Loop.
End VoterRefinementLoop.
