(* ===== verification/VoterRefinementTurn.v ===== *)
(** * Turns, starts and the refinement theorem

    A finalization that was broadcast is durable; that makes the pruning of the
    journal safe.  With it a turn of the loop, a crash and a start keep the
    simulation, and every view of a reachable node is a run of the per-view
    specification. *)

From S2P Require Import Prelude Codec ConsensusTypes SimplexTypes SimplexEvidence VoterSlot VoterRound.
From S2P Require Import VoterJournal VoterState VoterStateSpec VoterActor VoterActorLogic VoterRefinement.
From S2P Require Import VoterRefinementLoop Fixtures.
Import VoterActor VoterActorLogic VoterRefinement VoterRefinementLoop.

Module VoterRefinementTurn.
Section Turn.
Context {T : Types} (scheme : Scheme) (namespace : bytes) (ep act : Z).
Context (Hsigns : VoterJournal.signs scheme namespace).
Implicit Types st : State.
Implicit Types v h : Z.

Notation jnode := VoterJournal.mkNode.
Notation jexec v := (VoterJournal.exec scheme namespace (mkRnd ep v)).
Notation jrun v := (VoterJournal.run scheme namespace (mkRnd ep v)).
Notation jinit v := (VoterJournal.init scheme (mkRnd ep v)).
Notation jrecover v := (VoterJournal.recover scheme (mkRnd ep v)).
Notation reaches := (reaches scheme namespace ep).
Notation survives := (survives scheme namespace ep).
Notation disk_ok := (disk_ok scheme namespace ep act).
Notation sim := (sim scheme namespace ep act).
Notation live := (live scheme namespace ep act).
Notation down := (down scheme namespace ep act).
Notation crashable := (crashable scheme namespace ep act).
Notation triple P m Q := (VoterActorLogic.triple crashable P m Q).

(** ** A finalization that was broadcast is durable *)

Definition broadcast_ok (r : Round) : Prop := b_finalization r = true → is_Some (r_finalization r).

Definition final_durable (nd : VoterJournal.Node) : Prop :=
  broadcast_ok (nd_round nd) ∧
  ∀ f, b_finalization (nd_round nd) = true → r_finalization (nd_round nd) = Some f →
    AFinalization f ∈ VoterJournal.disk nd.

Lemma add_finalization_broadcast r f :
  is_Some (r_finalization (Round.add_finalization r f).1) ∧
  b_finalization (Round.add_finalization r f).1 = b_finalization r.
Proof.
  split; [apply VoterStateSpec.add_finalization_stored|].
  unfold Round.add_finalization. destruct (r_finalization r); [done|].
  destruct (add_recovered_fields r (fzz_proposal f)) as (_ & E & _).
  destruct (Round.add_recovered_proposal _ _). simpl in *. by destruct r0.
Qed.

Lemma add_notarization_final r n :
  r_finalization (Round.add_notarization r n).1 = r_finalization r ∧
  b_finalization (Round.add_notarization r n).1 = b_finalization r.
Proof.
  unfold Round.add_notarization. destruct (r_notarization r); [done|].
  destruct (add_recovered_fields r (nz_proposal n)) as (E1 & E2 & _).
  destruct (Round.add_recovered_proposal _ _). simpl in *. by destruct r0.
Qed.

Lemma add_nullification_final r n :
  r_finalization (Round.add_nullification r n).1 = r_finalization r ∧
  b_finalization (Round.add_nullification r n).1 = b_finalization r.
Proof. unfold Round.add_nullification. case_match; [done|]. by destruct r. Qed.

Lemma broadcast_ok_same r r' : r_finalization r' = r_finalization r →
  b_finalization r' = b_finalization r → broadcast_ok r → broadcast_ok r'.
Proof. unfold broadcast_ok. by intros -> ->. Qed.

Lemma recover_broadcast now J : ∀ r r', broadcast_ok r →
  VoterJournal.recover_from now r J = Some r' → broadcast_ok r'.
Proof.
  induction J as [|x J IH]; intros r r' Hr; simpl; [by intros [= <-]|].
  destruct (VoterJournal.recover_step now r x) as [r1|] eqn:E; simpl; [|done]. apply IH. clear IH.
  unfold VoterJournal.recover_step in E. destruct x as [n|n|rd b|n|n|f|f]; simpl in E.
  - case_match; [|done]. injection E as <-. by destruct r.
  - injection E as <-. apply (broadcast_ok_same (r {{ b_notarization := true }}));
      [apply add_notarization_final..|by destruct r].
  - destruct (Round.certified r b) as [r2|] eqn:E2; simpl in E; [|done].
    destruct (round_certified_fields _ _ _ E2) as (_ & _ & _ & F4 & F5).
    unfold VoterJournal.state_certified in E.
    destruct (Round.certified r2 b) as [r3|] eqn:E3; simpl in E; [|done].
    destruct (round_certified_fields _ _ _ E3) as (_ & _ & _ & G4 & G5).
    destruct (r_notarization r3); simpl in E; [|done]. injection E as <-.
    unfold broadcast_ok. destruct b, r3; simpl in *; rewrite G4, G5, F4, F5; done.
  - case_match; [|done]. injection E as <-. by destruct r.
  - injection E as <-. apply (broadcast_ok_same (r {{ b_nullification := true }}));
      [apply add_nullification_final..|by destruct r].
  - case_match; [|done]. injection E as <-. by destruct r.
  - injection E as <-. intros _. apply add_finalization_broadcast.
Qed.

(** Steps that leave the finalization alone and only add to the durable part. *)
Lemma final_durable_same nd nd' :
  r_finalization (nd_round nd') = r_finalization (nd_round nd) →
  b_finalization (nd_round nd') = b_finalization (nd_round nd) →
  VoterJournal.disk nd `prefix_of` VoterJournal.disk nd' → final_durable nd → final_durable nd'.
Proof.
  intros E1 E2 [K HK] [Hb Hf]. unfold final_durable, broadcast_ok. rewrite E1, E2, HK. split; [done|].
  intros f H1 H2. apply elem_of_app. left. auto.
Qed.

Lemma quiet_step_final r r' o : VoterJournal.quiet_round o r = Some r' →
  r_finalization r' = r_finalization r ∧ b_finalization r' = b_finalization r.
Proof.
  intros Ho. destruct r as [????[]]; destruct o; simpl in Ho; try done;
    unfold Round.try_propose, Round.try_verify, Round.set_leader, Round.proposed, Round.verified,
      Round.set_proposal, Round.next_timeout_deadline, Slot.request_verify, Slot.mark_verified,
      Slot.update, Round.unset_certify_handle, Round.set_certify_handle in Ho;
    repeat case_match; simplify_eq/=; try done; simplify_option_eq; done.
Qed.

Lemma disk_jnode r J s : VoterJournal.disk (jnode r J s) = take s J.
Proof. done. Qed.

Lemma disk_after_append J s (x : Artifact) : take s J `prefix_of` take s (J ++ [x]).
Proof. rewrite take_app. by eexists. Qed.
Lemma disk_after_sync J s (K : list Artifact) : take s J `prefix_of` take (length (J ++ K)) (J ++ K).
Proof. rewrite (take_ge (J ++ K)) by lia. etrans; [apply prefix_take|by eexists]. Qed.

(** A step of the specification that leaves the finalization alone and does not
    shrink what is durable. *)
Record keeps_final (nd nd' : VoterJournal.Node) : Prop := {
  kf_finalization : r_finalization (nd_round nd') = r_finalization (nd_round nd);
  kf_broadcast : b_finalization (nd_round nd') = b_finalization (nd_round nd);
  kf_disk : VoterJournal.disk nd `prefix_of` VoterJournal.disk nd';
}.

Lemma keeps_round nd r' : r_finalization r' = r_finalization (nd_round nd) →
  b_finalization r' = b_finalization (nd_round nd) → keeps_final nd (VoterJournal.set_round nd r').
Proof. intros. by split. Qed.
Lemma keeps_append nd nd' x : keeps_final nd nd' → keeps_final nd (VoterJournal.append_journal nd' x).
Proof. intros []. split; [done..|]. etrans; [done|]. apply disk_after_append. Qed.
Lemma keeps_sync nd nd' : keeps_final nd nd' → keeps_final nd (VoterJournal.sync_journal nd').
Proof.
  intros []. split; [done..|]. etrans; [done|]. unfold VoterJournal.disk. simpl.
  pose proof (disk_after_sync (nd_journal nd') (nd_synced nd') []) as H. by rewrite app_nil_r in H.
Qed.
#[local] Hint Resolve keeps_round keeps_append keeps_sync : cw.

Lemma handle_notarization_final nd n nd0 : keeps_final nd0 nd → keeps_final nd0 (VoterJournal.handle_notarization nd n).
Proof.
  intros [H1 H2 H3]. unfold VoterJournal.handle_notarization.
  destruct (add_notarization_final (nd_round nd) n) as [E1 E2].
  destruct (Round.add_notarization (nd_round nd) n) as [r' [[] k]]; simpl in *;
    [apply keeps_append|]; split; simpl; congruence || done.
Qed.
Lemma handle_nullification_final nd n nd0 : keeps_final nd0 nd → keeps_final nd0 (VoterJournal.handle_nullification nd n).
Proof.
  intros [H1 H2 H3]. unfold VoterJournal.handle_nullification.
  destruct (add_nullification_final (nd_round nd) n) as [E1 E2].
  destruct (Round.add_nullification (nd_round nd) n) as [r' []]; simpl in *;
    [apply keeps_append|]; split; simpl; congruence || done.
Qed.

Lemma construct_final r :
  (r_finalization (Round.construct_nullify r).1 = r_finalization r ∧
   b_finalization (Round.construct_nullify r).1 = b_finalization r) ∧
  (r_finalization (Round.construct_notarize r).1 = r_finalization r ∧
   b_finalization (Round.construct_notarize r).1 = b_finalization r) ∧
  (r_finalization (Round.construct_finalize r).1 = r_finalization r ∧
   b_finalization (Round.construct_finalize r).1 = b_finalization r) ∧
  (r_finalization (Round.broadcast_notarization r).1 = r_finalization r ∧
   b_finalization (Round.broadcast_notarization r).1 = b_finalization r) ∧
  (r_finalization (Round.broadcast_nullification r).1 = r_finalization r ∧
   b_finalization (Round.broadcast_nullification r).1 = b_finalization r).
Proof.
  unfold Round.construct_nullify, Round.construct_notarize, Round.construct_finalize,
    Round.broadcast_notarization, Round.broadcast_nullification.
  split_and!; repeat case_match; destruct r; done.
Qed.

Definition finalizing (o : Op) : bool :=
  match o with OFinalization _ | OBroadcastFinalization | OCrash _ _ | OCrashIn _ _ _ => true | _ => false end.

Lemma exec_keeps_final v o nd nd' out : jexec v o nd = Some (nd', out) → finalizing o = false →
  keeps_final nd nd'.
Proof.
  intros Ho Hf. assert (keeps_final nd nd) as Hrefl by by split.
  destruct (construct_final (nd_round nd)) as ((A1 & A2) & (B1 & B2) & (C1 & C2) & (D1 & D2) & E1 & E2).
  destruct (VoterJournal.quiet_round o (nd_round nd)) as [r'|] eqn:Eq.
  { destruct nd as [r J s]. rewrite (exec_quiet scheme namespace ep v o r r' J s Eq) in Ho. injection Ho as <- <-.
    destruct (quiet_step_final r r' o Eq). by split. }
  destruct o; try done; simpl in Ho; simpl in Eq; try (by rewrite Eq in Ho); clear Eq Hf.
  - injection Ho as <- <-. by apply handle_notarization_final.
  - injection Ho as <- <-. by apply handle_nullification_final.
  - unfold VoterJournal.handle_certification, VoterJournal.state_certified in Ho.
    destruct (Round.certified (nd_round nd) success) as [r'|] eqn:E; simpl in Ho; [|done].
    destruct (round_certified_fields _ _ _ E) as (_ & _ & _ & F1 & F2).
    destruct (r_notarization r'); simpl in Ho; [|done]. injection Ho as <- <-.
    apply keeps_sync, keeps_append, keeps_round; by destruct success, r'.
  - injection Ho as <- <-. unfold VoterJournal.try_broadcast_notarization.
    destruct (Round.broadcast_notarization _) as [r' [n|]]; simpl in *; [|auto with cw].
    apply keeps_sync, handle_notarization_final. auto with cw.
  - injection Ho as <- <-. unfold VoterJournal.try_broadcast_nullification.
    destruct (Round.broadcast_nullification _) as [r' [n|]]; simpl in *; [|auto with cw].
    apply keeps_sync, handle_nullification_final. auto with cw.
  - injection Ho as Ho. unfold VoterJournal.handle_timeout in Ho.
    destruct (Round.construct_nullify _) as [r' [[]|]]; simpl in *; repeat case_match;
      injection Ho as <- <-; auto with cw.
  - injection Ho as Ho. unfold VoterJournal.try_broadcast_notarize in Ho.
    destruct (Round.construct_notarize _) as [r' p]; simpl in *; case_match;
      injection Ho as <- <-; auto with cw.
  - injection Ho as Ho. unfold VoterJournal.try_broadcast_finalize in Ho.
    destruct (Round.construct_finalize _) as [r' p]; simpl in *; case_match;
      injection Ho as <- <-; auto with cw.
Qed.
Lemma handle_finalization_final nd f : VoterJournal.good scheme nd → final_durable nd →
  final_durable (VoterJournal.handle_finalization nd f) ∧
  (r_finalization (nd_round nd) = Some f → VoterJournal.handle_finalization nd f = nd).
Proof.
  intros Hg Hf. unfold VoterJournal.handle_finalization.
  destruct (r_finalization (nd_round nd)) as [g|] eqn:Eg.
  - unfold Round.add_finalization. rewrite Eg. destruct nd. split; [exact Hf|done].
  - destruct (add_finalization_broadcast (nd_round nd) f) as [_ Eb].
    assert (b_finalization (nd_round nd) = false) as Ebf.
    { destruct (b_finalization (nd_round nd)) eqn:E; [|done]. destruct (proj1 Hf E). congruence. }
    rewrite Ebf in Eb. destruct (Round.add_finalization _ _) as [r' [added k]]. simpl in *.
    split; [|done]. unfold final_durable, broadcast_ok. destruct added; simpl; by rewrite Eb.
Qed.

Lemma restart_final v now kept s J nd' : VoterJournal.journal_ok scheme J →
  VoterJournal.restart scheme (mkRnd ep v) now kept s J = Some nd' → final_durable nd'.
Proof.
  intros HJ. unfold VoterJournal.restart. set (K := take _ _).
  destruct (jrecover v now K) as [r|] eqn:E; simpl; [|done]. intros [= <-].
  assert (VoterJournal.journal_ok scheme K) as HK.
  { apply (VoterJournal.journal_ok_prefix scheme _ (drop (max s kept) J)). unfold K. by rewrite take_drop. }
  destruct (VoterJournal.recover_ok scheme (mkRnd ep v) now K HK) as (r' & E' & Hs).
  rewrite E in E'. injection E' as <-. split; simpl.
  - by eapply recover_broadcast, E.
  - intros f _ Hf. unfold VoterJournal.disk. simpl. rewrite firstn_all.
    by apply (VoterJournal.sync_finalization _ _ _ Hs).
Qed.

Lemma broadcast_finalization_final nd : VoterJournal.good scheme nd → final_durable nd →
  final_durable (VoterJournal.try_broadcast_finalization nd).
Proof.
  intros Hg Hf. unfold VoterJournal.try_broadcast_finalization, Round.broadcast_finalization.
  destruct (b_finalization (nd_round nd)) eqn:Eb; [by destruct nd|].
  destruct (r_finalization (nd_round nd)) as [f|] eqn:Ef; [|by destruct nd].
  unfold VoterJournal.handle_finalization, Round.add_finalization.
  assert (AFinalization f ∈ nd_journal nd) as Hin
    by by apply (VoterJournal.sync_finalization _ _ _ (proj2 (proj1 Hg))).
  destruct nd as [r J s]. simpl in *. destruct r; simpl in *. rewrite Ef. simpl.
  split; [by intros _; eexists|]. simpl. intros g _ [= <-].
  unfold VoterJournal.disk, VoterJournal.sync_journal. simpl. by rewrite firstn_all.
Qed.

Lemma exec_final v o : ∀ nd nd' out, VoterJournal.good scheme nd → final_durable nd →
  jexec v o nd = Some (nd', out) → final_durable nd'.
Proof.
  induction o; intros nd nd' out0 Hg Hf Ho;
    try (destruct (exec_keeps_final v _ nd nd' out0 Ho eq_refl); by eapply final_durable_same).
  - injection Ho as <- <-. by apply handle_finalization_final.
  - injection Ho as <- <-. by apply broadcast_finalization_final.
  - simpl in Ho. destruct (VoterJournal.restart _ _ _ _ _ _) as [nd1|] eqn:E; simpl in Ho; [|done].
    injection Ho as <- <-. eapply restart_final, E. apply Hg.
  - simpl in Ho. destruct (jexec v o nd) as [[nd1 out1]|] eqn:E1; simpl in Ho; [|done].
    destruct (VoterJournal.restart _ _ _ _ _ _) as [nd2|] eqn:E; simpl in Ho; [|done].
    injection Ho as <- <-. eapply restart_final, E.
    destruct (VoterJournal.exec_ok scheme namespace _ Hsigns o nd nd1 out1 Hg E1) as [Hg' _ _]. apply Hg'.
Qed.

Lemma reaches_good v nd sent : reaches v nd sent →
  VoterJournal.good scheme nd ∧ final_durable nd ∧
  ∀ x, x ∈ sent → VoterJournal.recorded (VoterJournal.disk nd) x.
Proof.
  intros (now & ops & E). destruct (VoterJournal.run_init scheme namespace (mkRnd ep v) Hsigns _ _ _ _ E) as [Hg Hr].
  split; [done|]. split; [|done].
  cut (∀ nd0 s0, VoterJournal.good scheme nd0 → final_durable nd0 → jrun v ops nd0 s0 = Some (nd, sent) →
    final_durable nd).
  { intros H. eapply H; [apply (VoterJournal.init_good scheme namespace (mkRnd ep v) Hsigns)|split; [done|by intros]|exact E]. }
  clear E Hg Hr. induction ops as [|o ops IH]; intros nd0 s0 Hg Hf; simpl; [by intros [= <- <-]|].
  destruct (jexec v o nd0) as [[nd1 out]|] eqn:E; simpl; [|done]. apply IH.
  - by destruct (VoterJournal.exec_ok scheme namespace _ Hsigns o nd0 nd1 out Hg E).
  - by eapply exec_final.
Qed.

(** What a process that dies in a reached node leaves can be replayed. *)
Lemma survives_journal v J s sent : survives v J s sent → VoterJournal.journal_ok scheme J.
Proof. intros [(nd & sent' & Hr & <-) _]. by destruct (reaches_good _ _ _ Hr) as ([[? _] _] & _). Qed.

(** ** Pruning *)

Lemma notify_live h now v resolved :
  triple (live h (Some v)) (notify now v resolved) (λ _, live h None).
Proof.
  unfold notify. apply triple_live_bind; [apply try_broadcast_notarize_live|intros _].
  apply triple_live_bind; [apply try_broadcast_notarization_live|intros _].
  apply triple_live_bind; [apply try_broadcast_nullification_live|intros _].
  apply triple_live_bind; [apply try_broadcast_finalize_live|intros _].
  apply try_broadcast_finalization_live.
Qed.

Lemma section_prune d m d' v : apply_effect d (EPrune m) = Some d' →
  (m ≤ v → section d' v = section d v) ∧
  (v < m → sections d' !! v = None) ∧ (sections d !! v = None → sections d' !! v = None).
Proof.
  intros [= <-]. unfold section. simpl. split_and!.
  - intros Hm. f_equal. apply option_eq. intros x. rewrite map_lookup_filter_Some. naive_solver.
  - intros Hm. apply map_lookup_filter_None. right. simpl. intros; lia.
  - intros E. apply map_lookup_filter_None. by left.
Qed.

(** The finalization that the last finalized view rests on is durable. *)
Lemma last_finalized_durable h st d sent : sim h None st d sent → VoterStateSpec.wf st →
  VoterState.min_active st ≤ 0 ∨
  ∃ f, AFinalization f ∈ durable d (last_finalized st) ∧
    VoterState.min_active st = ConsensusTypes.min_active act (last_finalized st).
Proof.
  intros Hs Hw. unfold VoterState.min_active. destruct (s_config _ _ _ _ _ _ _ _ _ Hs) as (_ & _ & _ & ->).
  destruct (VoterStateSpec.w_certificate st Hw) as [E|[f Hf]].
  - left. rewrite E. pose proof (VoterStateSpec.w_activity st Hw).
    destruct (s_config _ _ _ _ _ _ _ _ _ Hs) as (_ & _ & _ & Ea).
    unfold ConsensusTypes.min_active, View.saturating_sub, saturating_sub. lia.
  - right. exists f. split; [|done]. set (v := last_finalized st) in *.
    unfold VoterState.finalization in Hf. destruct (views st !! v) as [r|] eqn:Er; [|done]. simpl in Hf.
    assert (h ≤ v) as Hv.
    { pose proof (s_horizon _ _ _ _ _ _ _ _ _ Hs). pose proof (VoterStateSpec.w_finalized st Hw). pose proof (VoterStateSpec.w_activity st Hw).
      unfold VoterState.min_active, ConsensusTypes.min_active, View.saturating_sub, saturating_sub in *. lia. }
    pose proof (s_view _ _ _ _ _ _ _ _ _ Hs v 0 Hv) as Hr. destruct (reaches_good _ _ _ Hr) as (_ & [_ Hfd] & _).
    pose proof (s_finished _ _ _ _ _ _ _ _ _ Hs v ltac:(done) r Er) as Hb.
    unfold node_at in Hfd. rewrite (entry_lookup _ _ _ _ Er) in Hfd. simpl in Hfd. apply Hfd; [|done].
    apply Hb. by eexists.
Qed.

Lemma prune_disk h k m st d d' sent : sim h None st d sent → VoterStateSpec.wf st →
  h ≤ k → m ≤ k → k ≤ VoterState.min_active st →
  apply_effect d (EPrune m) = Some d' → (k = h ∨ k = m) →
  disk_ok k d' sent ∧ ∀ v, k ≤ v → section d' v = section d v.
Proof.
  intros Hs Hw Hk Hm Ha E Hkm. pose proof (s_disk _ _ _ _ _ _ _ _ _ Hs) as [D0 D1 D2 D3].
  assert (∀ v, k ≤ v → section d' v = section d v) as Hsec.
  { intros v Hv. apply (section_prune d m d' v E). lia. }
  split; [|done]. split.
  - lia.
  - intros v Hv. destruct (section_prune d m d' v E) as (_ & Hp & Hn). destruct (decide (v < h)) as [Hl|Hl].
    + destruct (D1 v Hl) as [? ?]. auto.
    + split; [apply Hp; destruct Hkm; lia|]. eexists. apply (s_view _ _ _ _ _ _ _ _ _ Hs v 0). lia.
  - destruct (last_finalized_durable _ _ _ _ Hs Hw) as [|(f & Hf & Em)]; [left; lia|right].
    exists (last_finalized st), f. rewrite <- Em. split; [|done]. unfold durable. rewrite Hsec; [done|].
    pose proof (VoterStateSpec.w_finalized st Hw). pose proof (VoterStateSpec.w_activity st Hw).
    unfold VoterState.min_active, ConsensusTypes.min_active, View.saturating_sub, saturating_sub in *. lia.
  - intros v x. destruct (section_prune d m d' v E) as (Hp & Hn & _). destruct (decide (m ≤ v)) as [Hl|Hl].
    + rewrite Hp by done. apply D3.
    + unfold section. rewrite Hn by lia. by intros ?%not_elem_of_nil.
Qed.

Lemma sim_prune h st d d' sent : sim h None st d sent → VoterStateSpec.wf st →
  apply_effect d (EPrune (VoterState.min_active st)) = Some d' →
  sim (VoterState.min_active st) None (VoterState.prune st).1 d' sent.
Proof.
  intros Hs Hw E. pose proof (s_horizon _ _ _ _ _ _ _ _ _ Hs) as Hh.
  destruct (VoterStateSpec.prune_correct st) as (Hviews & _).
  destruct (prune_disk h (VoterState.min_active st) _ st d d' sent Hs Hw Hh (Z.le_refl _) (Z.le_refl _) E
    (or_intror eq_refl)) as [Hd Hsec].
  assert (∀ P v, at_view P v st → at_view P v (VoterState.prune st).1) as Hat.
  { intros P v H r. rewrite Hviews. case_decide; [apply H|done]. }
  split.
  - apply Hs.
  - done.
  - done.
  - intros v now Hv. unfold node_at, VoterState.entry. rewrite Hsec, Hviews, decide_True by done.
    apply (s_view _ _ _ _ _ _ _ _ _ Hs). lia.
  - intros v Hv r. rewrite Hviews, decide_False by lia. done.
  - intros v. apply Hat, Hs.
  - intros v Hv. apply Hat. by apply Hs.
Qed.

Lemma prune_nothing st : (VoterState.prune st).2 = [] → views (VoterState.prune st).1 = views st.
Proof.
  intros E. destruct (VoterStateSpec.prune_correct st) as (Hviews & _ & _ & Hin). rewrite E in Hin.
  apply map_eq. intros v. rewrite Hviews. case_decide; [done|].
  destruct (views st !! v) eqn:Ev; [|done]. destruct (not_elem_of_nil v). apply Hin. split; [by eexists|lia].
Qed.

Lemma prune_views_live h :
  triple (live h None) prune_views (λ _ a d s, ∃ h', live h' None a d s).
Proof.
  intros a d s [Hs Hw Hj]. pose proof (VoterStateSpec.prune_wf _ Hw) as Hw'.
  pose proof (prune_nothing (ac_state a)) as Hn. pose proof (λ d', sim_prune h _ d d' s Hs Hw) as Hp.
  unfold prune_views, bind, on_state. destruct (VoterState.prune (ac_state a)) as [st removed] eqn:Ep.
  simpl in *. destruct removed as [|w removed].
  - apply ends_quiet. exists h. split; [|by destruct a|by destruct a].
    eapply sim_moves; [exact Hs| |]; destruct a; simpl in *; unfold VoterState.prune in Ep;
      injection Ep as <-; [|done]. apply moves_fields; try done. by apply Hn.
  - clear Hn. destruct a; simpl in *; subst. unfold when, emit, constant. simpl.
    assert (VoterState.min_active st = VoterState.min_active ac_state) as Em.
    { unfold VoterState.prune in Ep. by injection Ep as <-. }
    rewrite Em. pose proof (s_horizon _ _ _ _ _ _ _ _ _ Hs) as Hh.
    split; simpl; rewrite ?app_nil_r.
    + intros es d' Hc Hne Ha. apply crash_point_cons in Hc as [->|[(es' & -> & Hc)|(m & m' & [= <-] & Hm & ->)]]; [done|..].
      * apply crash_point_nil in Hc as ->. injection Ha as Ha. simpl. rewrite app_nil_r.
        exact (sim_crashable _ _ _ _ _ _ _ _ _ (Hp _ (f_equal Some Ha))).
      * simpl. rewrite app_nil_r. injection Ha as Ha.
        destruct (prune_disk h (Z.max h m') m' ac_state d d' s Hs Hw ltac:(lia) ltac:(lia) ltac:(lia))
          as [Hd Hsec]; [exact (f_equal Some Ha)|lia|].
        exists (Z.max h m'). split; [done|]. intros v Hv. rewrite Hsec by done.
        eapply reaches_survives, (s_view _ _ _ _ _ _ _ _ _ Hs v 0). lia.
    + intros [] a' d' [= <-] [= Ha]. exists (VoterState.min_active ac_state). split; [|done..]. simpl.
      exact (Hp _ (f_equal Some Ha)).
Qed.

(** ** The select *)

(** What a branch of the select leaves. *)
Definition selected h (out : Outcome) : assertion :=
  match out with
  | Notify v _ => live h (Some v)
  | Continue => live h None
  | Stop => λ _ d s, crashable d s
  end.

Lemma selected_live h out : out ≠ Stop → ∀ a d s, live h None a d s → selected h out a d s.
Proof. intros Hn a d s. destruct out; simpl; [apply live_dirty|done|done]. Qed.

Lemma triple_selected h (m : M Outcome) : triple (live h None) m (λ out a d s, out ≠ Stop ∧ live h None a d s) →
  triple (live h None) m (selected h).
Proof. intros H. eapply triple_post; [done|]. intros out a d s [Hn Hl]. by apply selected_live. Qed.

Lemma triple_outcome h (out : Outcome) : out ≠ Stop →
  triple (live h None) (ret out) (λ out a d s, out ≠ Stop ∧ live h None a d s).
Proof. intros Hn. by apply triple_ret. Qed.

Lemma sections_close d d' v : apply_effect d EClose = Some d' →
  section d' v = ((section d v).1, length (section d v).1) ∧ (sections d !! v = None → sections d' !! v = None).
Proof.
  intros [= <-]. unfold section. simpl. rewrite lookup_fmap. split; [by destruct (sections d !! v)|].
  by intros ->.
Qed.

Lemma close_crashable d d' sent : crashable d sent → apply_effect d EClose = Some d' → crashable d' sent.
Proof.
  intros (h & [D0 D1 D2 D3] & Hv) E. exists h. split; [split|].
  - done.
  - intros v Hlt. destruct (D1 v Hlt) as [? ?]. split; [|done]. by apply (sections_close d d' v E).
  - destruct D2 as [|(v & f & Hf & Hm)]; [by left|right]. exists v, f. split; [|done].
    unfold durable. rewrite (proj1 (sections_close d d' v E)). simpl. rewrite firstn_all.
    unfold durable in Hf. by eapply elem_of_take in Hf as (? & ? & _); eapply list_elem_of_lookup_2.
  - intros v x. rewrite (proj1 (sections_close d d' v E)). apply D3.
  - intros v Hle. rewrite (proj1 (sections_close d d' v E)). simpl. by apply survives_full with (section d v).2, Hv.
Qed.

Lemma shutdown_live h : triple (live h None) (emit EClose;; ret Stop) (selected h).
Proof.
  intros a d s Hl. apply live_crashable in Hl. unfold emit, bind, ret. simpl.
  assert (∀ d', apply_effects d [EClose] = Some d' → crashable d' s) as Hc.
  { intros d' E. by apply (close_crashable d). }
  split; simpl; rewrite ?app_nil_r.
  - intros es d' Hcp Hne Ha. apply crash_point_cons in Hcp as [->|[(es' & -> & Hcp)|(? & ? & ? & _)]]; [done| |done].
    apply crash_point_nil in Hcp as ->. simpl. rewrite app_nil_r. by apply Hc.
  - intros x a' d' [= <- <-] Ha. by apply Hc.
Qed.

Ltac quiet :=
  repeat first
    [ by apply triple_outcome
    | apply handle_timeout_live | apply handle_certification_live
    | by apply handle_notarization_live | by apply handle_nullification_live
    | apply triple_live_bind; [|intros]
    | apply triple_live_gets | apply triple_live_lift | apply triple_live_ret
    | by apply triple_live_emit | by apply triple_live_modify
    | apply triple_live_when
    | match goal with |- VoterActorLogic.triple _ _ (match ?x with _ => _ end) _ => destruct x end ].

Lemma proposed_live h p : triple (λ a d s, live h None a d s ∧ h ≤ proposal_view p)
  (on_state (λ st, VoterState.proposed st p)) (λ _, live h None).
Proof.
  apply triple_pure. intros Hv. apply (triple_live_state _ _ _ _ _ _ _ (VoterStateSpec.SProposed p) 0); [done..|].
  intros st _. by apply proposed_moves.
Qed.

Lemma on_proposed_live h r : triple (live h None) (on_proposed r) (selected h).
Proof.
  apply triple_selected. unfold on_proposed, set_pending_propose.
  apply triple_live_bind; [apply triple_live_gets|intros pp].
  apply triple_live_bind; [apply triple_live_lift|intros ctx].
  apply triple_live_bind; [by apply triple_live_modify|intros _]. destruct r as [d|]; [|by apply triple_outcome].
  eapply triple_bind; [apply triple_gets_eq|]. intros st.
  case_bool_decide as E; [apply triple_ret; by intros ? ? ? [? ?]|].
  eapply (triple_bind _ _ (λ _, live h None)).
  { eapply triple_conseq; [apply (proposed_live h (mkProposal (ctx_round ctx) (ctx_parent ctx).1 d))| |done].
    intros a d0 s [Hl ->]. split; [done|]. unfold proposal_view. simpl. rewrite <- E. simpl. by eapply live_current. }
  intros ok. unfold get_state. quiet.
Qed.

Lemma on_verified_live h now r : triple (live h None) (on_verified now r) (selected h).
Proof.
  apply triple_selected. unfold on_verified, set_pending_verify. quiet.
  - apply (triple_live_state _ _ _ _ _ _ _ (VoterStateSpec.SVerified (rnd_view (ctx_round x0))) 0); [done..|].
    intros st _. apply verified_moves.
Qed.

Lemma on_certified_live h now handle r : triple (live h None) (on_certified now handle r) (selected h).
Proof.
  apply triple_selected. unfold on_certified, get_state, add_candidate. quiet.
  - apply (triple_live_state _ _ _ _ _ _ _ (VoterStateSpec.SRetryCertification (rnd_view x0)) 0); [done..|].
    intros st _. apply retry_certification_moves.
Qed.

(** An interesting view is not below the horizon. *)
Lemma interesting_horizon h a d s v future : live h None a d s →
  VoterState.is_interesting (ac_state a) v future = Some true → h ≤ v.
Proof.
  intros [Hs _ _]. pose proof (s_horizon _ _ _ _ _ _ _ _ _ Hs) as Hh. unfold VoterState.is_interesting, interesting.
  unfold VoterState.min_active in Hh. destruct (Z.ltb_spec v (ConsensusTypes.min_active
    (activity_timeout (ac_state a)) (last_finalized (ac_state a)))); [done|lia].
Qed.

Lemma triple_interesting h v future (k : bool → M Outcome) (Q : Outcome → assertion) :
  (h ≤ v → triple (live h None) (k true) Q) → triple (live h None) (k false) Q →
  triple (live h None) (bind get_state (λ st, bind (lift (VoterState.is_interesting st v future)) k)) Q.
Proof.
  intros Ht Hf. eapply triple_bind; [apply triple_gets_eq|]. intros st.
  eapply (triple_bind _ _ (λ b a d s, live h None a d s ∧ (b = true → h ≤ v))).
  { apply triple_lift. intros b a d s E [Hl ->]. split; [done|]. intros ->. by eapply interesting_horizon. }
  intros [].
  - eapply triple_conseq; [apply (triple_pure (h ≤ v) (live h None)), Ht| |done].
    intros a d s [Hl Hv]. by split; [|apply Hv].
  - eapply triple_conseq; [exact Hf| |done]. by intros a d s [Hl _].
Qed.

Lemma on_proposal_live h now p : triple (live h None) (on_proposal now p) (selected h).
Proof.
  apply triple_selected. unfold on_proposal. apply triple_interesting; [|by apply triple_outcome].
  intros Hv. simpl. apply triple_live_bind; [|intros []; by apply triple_outcome].
  apply (triple_live_state _ _ _ _ _ _ _ (VoterStateSpec.SSetProposal (proposal_view p) p) now); [done..|].
  intros st _. by apply set_proposal_moves.
Qed.

Lemma on_certificate_live h now c from_resolver :
  triple (live h None) (on_certificate now c from_resolver) (selected h).
Proof.
  unfold on_certificate. apply triple_interesting.
  - intros Hv. simpl. destruct c as [n|n|f].
    + apply triple_selected. quiet.
    + apply triple_selected. unfold broadcast_certificate. quiet.
    + eapply triple_bind; [by apply handle_finalization_live|]. intros []. by apply triple_ret.
  - apply triple_selected. by apply triple_outcome.
Qed.

Lemma select_live h now ev : triple (live h None) (select now ev) (selected h).
Proof.
  destruct ev; simpl.
  - apply shutdown_live.
  - apply triple_selected. unfold get_state. quiet.
  - apply on_proposed_live.
  - apply on_verified_live.
  - apply on_certified_live.
  - apply on_proposal_live.
  - apply on_certificate_live.
Qed.

Lemma iterate_live h now ev is_active : triple (live h None) (iterate now ev is_active)
  (λ b a d s, if b : bool then ∃ h', live h' None a d s else crashable d s).
Proof.
  unfold iterate, get_state. apply triple_live_bind; [apply loop_top_live|intros _].
  apply triple_live_bind; [apply triple_live_gets|intros st].
  eapply triple_bind; [apply select_live|]. intros [v resolved| |]; simpl.
  - eapply triple_bind; [apply notify_live|]. intros []. eapply triple_bind; [apply prune_views_live|]. intros [].
    intros a d s [h' Hl]. revert a d s Hl.
    apply (triple_bind (live h' None) _ (λ _, live h' None)); [apply update_batcher_live|]. intros [].
    apply triple_ret. by exists h'.
  - apply triple_ret. by exists h.
  - by apply triple_ret.
Qed.
End Turn.
End VoterRefinementTurn.
