(* ===== verification/VoterRefinementStart.v ===== *)
(** * Starts and the refinement theorem

    A start replays the sections of the disk one after the other into the rounds
    of their views.  Up to the leader and the deadlines, which the replay of other
    views sets, a round is what the specification recovers from its own section;
    so a start turns a dead node that [down] describes into a running one that
    [live] describes.  With the turns and the crashes this gives the refinement:
    every view of a reachable node is a run of the per-view specification. *)

From S2P Require Import Prelude Codec ConsensusTypes SimplexTypes SimplexEvidence VoterSlot VoterRound.
From S2P Require Import VoterJournal VoterState VoterStateSpec VoterActor VoterActorLogic VoterRefinement.
From S2P Require Import VoterRefinementLoop VoterRefinementTurn Fixtures.
Import VoterActor VoterActorLogic VoterRefinement VoterRefinementLoop VoterRefinementTurn.

Module VoterRefinementStart.
Section Start.
Context {T : Types} (scheme : Scheme) (namespace : bytes) (ep act : Z).
Context (Hsigns : VoterJournal.signs scheme namespace).
Context (now : Z).
Implicit Types st : State.
Implicit Types v h : Z.

Notation jnode := VoterJournal.mkNode.
Notation jrecover v := (VoterJournal.recover scheme (mkRnd ep v)).
Notation reaches := (reaches scheme namespace ep).
Notation survives := (survives scheme namespace ep).
Notation disk_ok := (disk_ok scheme namespace ep act).
Notation sim := (sim scheme namespace ep act).
Notation live := (live scheme namespace ep act).
Notation down := (down scheme namespace ep act).
Notation crashable := (crashable scheme namespace ep act).
Notation config_ok := (config_ok scheme namespace ep act).
Notation recover_step := (VoterJournal.recover_step now).
Notation recover_from := (VoterJournal.recover_from now).
Notation entry := (VoterState.entry now).

(** ** Rounds up to their leader and deadlines *)

Record tweak (r r' : Round) : Prop := {
  tw_same : r' = r {{ r_leader := r_leader r'; leader_deadline := leader_deadline r';
                      advance_deadline := advance_deadline r' }};
  tw_leader : r_leader r' = r_leader r ∨ ∃ i key,
    participants (r_scheme r) !! Z.to_nat i = Some key ∧ r_leader r' = Some (mkLeader i key);
  tw_deadlines : (leader_deadline r' = leader_deadline r ∧ advance_deadline r' = advance_deadline r) ∨
    (is_Some (leader_deadline r') ∧ is_Some (advance_deadline r'));
}.

#[global] Instance tweak_preorder : PreOrder tweak.
Proof.
  split.
  - intros r. split; [by destruct r|by left..].
  - intros r1 r2 r3 [E1 L1 D1] [E2 L2 D2]. destruct r1, r2, r3; simpl in *; unfold constant in *.
    injection E1; injection E2; intros; subst. split; simpl; [done|destruct L2 as [->|?]; auto|].
    destruct D2 as [[-> ->]|?]; auto.
Qed.

Lemma tweak_deadlines r a b : tweak r (Round.set_deadlines r a b).
Proof. destruct r. split; simpl; [done|by left|right]. unfold constant. split; by eexists. Qed.

Lemma tweak_leader r i r' : Round.set_leader r i = Some r' → tweak r r'.
Proof.
  unfold Round.set_leader. destruct (_ !! _) as [key|] eqn:E; simpl; [|done]. intros [= <-].
  destruct r. split; simpl in *; [done| |by left]. right. by eexists _, _.
Qed.

(** The specification makes up for the difference. *)
Lemma tweak_quiet r r' : tweak r r' → quiet r r'.
Proof.
  intros [E Hl Hd]. set (r1 := r {{ r_leader := r_leader r' }}).
  assert (quiet r r1) as H1.
  { subst r1. destruct Hl as [El|(i & key & Hk & El)]; rewrite El; [by destruct r|].
    apply (quiet_once _ _ (OSetLeader i)). simpl. unfold Round.set_leader. by rewrite Hk. }
  destruct Hd as [[Ea Eb]|[[a Ea] [b Eb]]].
  - replace r' with r1; [done|]. rewrite E. subst r1. rewrite Ea, Eb. by destruct r, r'.
  - etrans; [exact H1|]. apply (quiet_once _ _ (OSetDeadlines a b)). simpl. unfold Round.set_deadlines.
    rewrite E, Ea, Eb. subst r1. by destruct r, r'.
Qed.

(** The replay of an artifact does not see the difference. *)
Lemma tweak_step r r1 x : tweak r r1 → option_Forall2 tweak (recover_step r x) (recover_step r1 x).
Proof.
  intros [E Hl Hd]. rewrite E. clear E. revert Hl Hd.
  generalize (r_leader r1), (leader_deadline r1), (advance_deadline r1). intros l a b Hl Hd. clear r1.
  unfold VoterJournal.recover_step. destruct r; simpl in *.
  destruct x as [n|n|rd c|n|n|f|f]; simpl; unfold Round.is_signer, VoterJournal.state_certified, Round.certified,
    Round.add_notarization, Round.add_nullification, Round.add_finalization,
    Round.add_recovered_proposal; simpl; unfold constant.
  3:{ destruct r_certified as [c'|]; [destruct (eqb c' c); simpl; [|constructor]|]; simpl; unfold constant;
      rewrite ?eqb_reflx; simpl; (destruct r_notarization; simpl; [|constructor]); destruct c;
      constructor; split; simpl; unfold constant; eauto. }
  all: try (destruct r_notarization); try (destruct r_nullification); try (destruct r_finalization);
    simpl; try destruct (Slot.update _ _ _); simpl; try (case_match; simpl; [|constructor]);
    constructor; split; simpl; unfold constant; eauto.
Qed.

(** ** States up to leaders and deadlines *)

Definition config st : Scheme * bytes * Z * Z * (Rnd → option Certificate → Z) :=
  (st_scheme st, st_namespace st, epoch st, activity_timeout st, elector st).

Record tweaks st st' : Prop := {
  tws_config : config st' = config st;
  tws_entry v : tweak (entry st v) (entry st' v);
  tws_tracked v : is_Some (views st !! v) → is_Some (views st' !! v);
}.

#[global] Instance tweaks_preorder : PreOrder tweaks.
Proof.
  split; [by split|]. intros st1 st2 st3 [] []. split; [congruence|intros v; etrans; eauto|auto].
Qed.

Lemma tweaks_put st v r : tweak (entry st v) r → tweaks st (VoterState.put st v r).
Proof.
  intros Hr. split; [done|..].
  - intros w. destruct (decide (v = w)) as [<-|Hne]; [by rewrite entry_put|by rewrite entry_put_ne].
  - intros w. simpl. unfold constant. rewrite lookup_insert_is_Some. destruct (decide (v = w)); auto.
Qed.

Lemma tweaks_fields st st' : views st' = views st → config st' = config st → tweaks st st'.
Proof.
  intros E Ec. split; [done|..]; intros v; unfold VoterState.entry; rewrite E; [|done].
  injection Ec as -> _ -> _ _. done.
Qed.

Lemma enter_view_tweaks st v : tweaks st (VoterState.enter_view now st v).1.
Proof.
  unfold VoterState.enter_view. case_match; [done|]. simpl.
  etrans; [apply tweaks_put, tweak_deadlines|by apply tweaks_fields].
Qed.

Lemma set_leader_tweaks st v c st' : VoterState.set_leader now st v c = Some st' → tweaks st st'.
Proof.
  unfold VoterState.set_leader. case_match; simpl; [intros [= <-]; by apply tweaks_put|].
  destruct (Round.set_leader _ _) eqn:E; simpl; [|done]. intros [= <-].
  by eapply tweaks_put, tweak_leader.
Qed.

Lemma prepares_tweaks st st' : prepares now st st' → tweaks st st'.
Proof.
  induction 1 as [|st1 v _ IH _|st1 v _ IH|st1 v c st2 _ IH E]; [done|etrans; [exact IH|]..].
  - by apply tweaks_fields; destruct st1.
  - apply enter_view_tweaks.
  - by eapply set_leader_tweaks.
Qed.

(** ** The replay of an artifact *)

(** What the actor does to its state when it replays an artifact. *)
Definition replay_state st (x : Artifact) : option State :=
  st ← VoterState.replay now st x;
  match x with
  | ANotarization n => fst <$> VoterState.add_notarization now st n
  | ANullification n => fst <$> VoterState.add_nullification now st n
  | AFinalization f => fst <$> VoterState.add_finalization now st f
  | ACertification r success => fst <$> VoterState.certified now st (rnd_view r) success
  | ANotarize _ | ANullify _ | AFinalize _ => Some st
  end.

(** In the view of the artifact, the round takes a step of the recovery that the
    specification describes; other rounds stay as they were. *)
Record replayed st (x : Artifact) st' : Prop := {
  rpd_config : config st' = config st;
  rpd_view : ∃ r, recover_step (entry st (artifact_view x)) x = Some r ∧
    tweak r (entry st' (artifact_view x));
  rpd_tracked : is_Some (views st' !! artifact_view x);
  rpd_other w : w ≠ artifact_view x → tweak (entry st w) (entry st' w);
  rpd_kept w : is_Some (views st !! w) → is_Some (views st' !! w);
}.

(** The round of the view, and preparations elsewhere. *)
Lemma replayed_put st x r st1 st' : let v := artifact_view x in
  tweaks (VoterState.put st v (entry st v)) st1 →
  recover_step (entry st v) x = Some r → tweaks (VoterState.put st1 v r) st' → replayed st x st'.
Proof.
  intros v [C1 T1 K1] Hr [C2 T2 K2].
  assert (∀ w, is_Some (views st1 !! w) → is_Some (views st' !! w)) as K.
  { intros w Hw. apply K2. simpl. unfold constant. rewrite lookup_insert_is_Some. destruct (decide (v = w)); auto. }
  split; fold v.
  - by rewrite C2.
  - exists r. split; [done|]. specialize (T2 v). by rewrite entry_put in T2.
  - apply K2. rewrite lookup_put. by eexists.
  - intros w Hne. specialize (T1 w). specialize (T2 w). rewrite entry_put_ne in T1, T2 by done. etrans; eauto.
  - intros w Hw. apply K, K1. simpl. unfold constant. rewrite lookup_insert_is_Some.
    destruct (decide (v = w)); auto.
Qed.

Lemma replay_state_replayed st x st' : replay_state st x = Some st' → replayed st x st'.
Proof.
  unfold replay_state, VoterState.replay. destruct (Round.replay _ _) as [r|] eqn:Er; simpl; [|done].
  set (v := artifact_view x) in *. set (st0 := VoterState.put st v r).
  assert (∀ st1, tweaks st0 st1 → tweaks (VoterState.put st v (entry st v)) (VoterState.put st1 v (entry st v))) as Hput.
  { intros st1 [C1 T1 K1]. split; [exact C1|..].
    - intros w. destruct (decide (v = w)) as [<-|Hne]; [by rewrite !entry_put|].
      rewrite !entry_put_ne by done. specialize (T1 w). unfold st0 in T1. by rewrite entry_put_ne in T1.
    - intros w. specialize (K1 w). revert K1. simpl. unfold constant. rewrite !lookup_insert_is_Some.
      destruct (decide (v = w)); intuition. }
  assert (∀ st1 r', tweaks st0 st1 → recover_step (entry st v) x = Some r' →
    tweaks (VoterState.put st1 v r') st' → replayed st x st') as Hdone.
  { intros st1 r' Ht Hs Hp. apply (replayed_put st x r' (VoterState.put st1 v (entry st v)));
      [by apply Hput|done|by rewrite put_put]. }
  assert (entry st0 v = r) as E0 by apply entry_put.
  assert (views st0 !! v = Some r) as Hl0 by apply lookup_put.
  assert (∀ st1, views st1 !! v = views st0 !! v → entry st1 v = r) as E1.
  { intros st1 E. unfold VoterState.entry. by rewrite E, Hl0. }
  destruct x as [n|n|rd b|n|n|f|f]; simpl in v; fold v.
  - intros [= <-]. apply (Hdone st0 r); [done| |unfold st0; by rewrite put_put].
    unfold VoterJournal.recover_step. by rewrite Er.
  - destruct (VoterState.add_notarization now st0 n) as [[st1 res]|] eqn:E; simpl; [|done]. intros [= <-].
    destruct (add_notarization_prepares _ _ _ _ _ E) as (st1' & Hp & _ & Ev & _ & Est).
    eapply (Hdone st1'); [by apply prepares_tweaks| |by rewrite Est].
    unfold VoterJournal.recover_step. fold v in Ev, Est |- *. rewrite Er, (E1 _ Ev). done.
  - destruct (VoterState.certified now st0 v b) as [[st1 res]|] eqn:E; simpl; [|done]. intros [= <-].
    unfold VoterState.certified in E. rewrite Hl0 in E.
    destruct (Round.certified r b) as [r1|] eqn:Ec; simpl in E; [|done].
    destruct (r_notarization r1) as [n|] eqn:En; simpl in E; [|done].
    apply (Hdone st0 (if b then r1 else Round.set_deadlines r1 now now)); [done|..].
    + unfold VoterJournal.recover_step. rewrite Er. simpl. unfold VoterJournal.state_certified.
      rewrite Ec. simpl. by rewrite En.
    + destruct b.
      * destruct (View.next v) as [w|] eqn:Ew; simpl in E; [|done]. injection E as <- _. apply enter_view_tweaks.
      * injection E as <- _. unfold VoterState.expire_round. by rewrite entry_put, put_put.
  - intros [= <-]. apply (Hdone st0 r); [done| |unfold st0; by rewrite put_put].
    unfold VoterJournal.recover_step. by rewrite Er.
  - destruct (VoterState.add_nullification now st0 n) as [[st1 res]|] eqn:E; simpl; [|done]. intros [= <-].
    destruct (add_nullification_prepares _ _ _ _ _ E) as (st1' & Hp & _ & Ev & _ & Est).
    eapply (Hdone st1'); [by apply prepares_tweaks| |by rewrite Est].
    unfold VoterJournal.recover_step. fold v in Ev, Est |- *. rewrite Er, (E1 _ Ev). done.
  - intros [= <-]. apply (Hdone st0 r); [done| |unfold st0; by rewrite put_put].
    unfold VoterJournal.recover_step. by rewrite Er.
  - destruct (VoterState.add_finalization now st0 f) as [[st1 res]|] eqn:E; simpl; [|done]. intros [= <-].
    destruct (add_finalization_prepares _ _ _ _ _ E) as (st1' & Hp & Ev & _ & Est).
    eapply (Hdone st1'); [by apply prepares_tweaks| |by rewrite Est].
    unfold VoterJournal.recover_step. fold v in Ev, Est |- *. rewrite Er, (E1 _ Ev). done.
Qed.

(** *** Well-formedness *)

Lemma recover_step_keeps v r x r' : recover_step r x = Some r' →
  (artifact_view x = v → placed v r → placed v r') ∧ (finished r → finished r').
Proof.
  unfold VoterJournal.recover_step.
  destruct x as [n|n|rd b|n|n|f|f]; simpl.
  - case_match; simpl; [|done]. intros [= <-]. split; [|by destruct r]. intros Hv Hr.
    apply (placed_same _ (r {{ r_slot := Slot.built (r_slot r) (nt_proposal n) }})); [by destruct r..|].
    apply placed_slot; [|done]. unfold Slot.built. destruct (sl_proposal (r_slot r)) eqn:E; simpl; unfold constant.
    + intros q. rewrite E. intros [= <-]. by eapply placed_proposal.
    + by intros q [= <-].
  - intros [= <-]. destruct (add_notarization_keeps v (r {{ b_notarization := true }}) n) as [H1 H2].
    split; [intros Hv Hr; apply H1; [done|]; by apply (placed_same v r); destruct r|intros Hr; apply H2; by destruct r].
  - destruct (Round.certified r b) as [r1|] eqn:E1; simpl; [|done]. unfold VoterJournal.state_certified.
    destruct (Round.certified r1 b) as [r2|] eqn:E2; simpl; [|done].
    destruct (round_certified_fields _ _ _ E1) as (A1 & A2 & A3 & A4 & A5).
    destruct (round_certified_fields _ _ _ E2) as (B1 & B2 & B3 & B4 & B5).
    destruct (r_notarization r2) eqn:En; simpl; [|done]. intros [= <-]. split.
    + intros _. apply placed_same; destruct b, r2; simpl in *; congruence.
    + unfold finished. destruct b, r2; simpl in *; by rewrite B4, B5, A4, A5.
  - case_match; simpl; [|done]. intros [= <-]. split; [|by destruct r]. intros _. by apply placed_same; destruct r.
  - intros [= <-]. destruct (add_nullification_keeps v (r {{ b_nullification := true }}) n) as [H1 H2].
    split; [intros Hv Hr; apply H1; [done|]; by apply (placed_same v r); destruct r|intros Hr; apply H2; by destruct r].
  - case_match; simpl; [|done]. intros [= <-]. split; [|by destruct r]. intros _. by apply placed_same; destruct r.
  - intros [= <-]. destruct (add_finalization_keeps v (r {{ b_finalization := true }}) f) as [H1 _]. split.
    + intros Hv Hr. apply H1; [done|]. by apply (placed_same v r); destruct r.
    + intros _ _. etrans; [apply add_finalization_broadcast|by destruct r].
Qed.

Lemma recover_from_keeps v J : ∀ r r', recover_from r J = Some r' →
  ((∀ x, x ∈ J → artifact_view x = v) → placed v r → placed v r') ∧ (finished r → finished r').
Proof.
  induction J as [|x J IH]; intros r r'; simpl; [by intros [= <-]|].
  destruct (recover_step r x) as [r1|] eqn:E; simpl; [|done]. intros H.
  destruct (recover_step_keeps v r x r1 E) as [P1 F1], (IH r1 r' H) as [P2 F2]. split; [|auto].
  intros Hv Hr. apply P2; [intros y Hy; apply Hv; by right|]. apply P1; [apply Hv; by left|done].
Qed.

Lemma tweak_keeps v r r' : tweak r r' → (placed v r → placed v r') ∧ (finished r → finished r') ∧ (inert r → inert r').
Proof.
  intros [-> _ _]. split_and!; [by apply placed_same; destruct r|by destruct r|by apply inert_same; destruct r].
Qed.

Lemma replay_certification_notarized st rd b st' : replay_state st (ACertification rd b) = Some st' →
  is_Some (r_notarization (entry st (rnd_view rd))).
Proof.
  intros E%replay_state_replayed. destruct (rpd_view _ _ _ E) as (r & Hr & _). simpl in Hr.
  unfold VoterJournal.recover_step in Hr. simpl in Hr.
  destruct (Round.certified _ _) as [r1|] eqn:E1; simpl in Hr; [|done].
  unfold VoterJournal.state_certified in Hr. destruct (Round.certified r1 b) as [r2|] eqn:E2; simpl in Hr; [|done].
  destruct (r_notarization r2) eqn:En; simpl in Hr; [|done].
  destruct (round_certified_fields _ _ _ E1) as (_ & A & _), (round_certified_fields _ _ _ E2) as (_ & B & _).
  rewrite <- A, <- B, En. by eexists.
Qed.

Lemma replay_state_wf st x st' : VoterStateSpec.wf st →
  (∀ f, x = AFinalization f → 0 ≤ proposal_view (fzz_proposal f)) → replay_state st x = Some st' →
  VoterStateSpec.wf st' ∧ last_finalized st ≤ last_finalized st' ∧
  ∀ f, x = AFinalization f → proposal_view (fzz_proposal f) ≤ last_finalized st'.
Proof.
  intros Hw Hv E. pose proof E as E'. unfold replay_state, VoterState.replay in E.
  destruct (Round.replay _ _) as [r|] eqn:Er; simpl in E; [|done].
  set (st0 := VoterState.put st (artifact_view x) r) in *.
  assert (VoterStateSpec.wf st0) as Hw0.
  { apply (VoterStateSpec.wf_le st); [done| |done]. eapply VoterStateSpec.put_entry_le, VoterStateSpec.replay_le, Er.
    intros rd b ->. by eapply replay_certification_notarized. }
  assert (∀ o, VoterStateSpec.op_ok o → VoterStateSpec.exec now o st0 = Some st' →
    VoterStateSpec.wf st' ∧ last_finalized st ≤ last_finalized st') as Ho.
  { intros o Ho Eo. destruct (VoterStateSpec.exec_wf now o st0 st' Hw0 Ho Eo) as (? & _ & ?). by split. }
  destruct x as [n|n|rd b|n|n|f|f].
  - injection E as <-. split_and!; done.
  - destruct (Ho (VoterStateSpec.SAddNotarization n)); [done|exact E|]. split_and!; done.
  - destruct (Ho (VoterStateSpec.SCertified (rnd_view rd) b)); [done|exact E|]. split_and!; done.
  - injection E as <-. split_and!; done.
  - destruct (Ho (VoterStateSpec.SAddNullification n)); [done|exact E|]. split_and!; done.
  - injection E as <-. split_and!; done.
  - destruct (Ho (VoterStateSpec.SAddFinalization f)); [by apply Hv|exact E|]. split_and!; [done|done|].
    intros ? [= <-]. destruct (VoterStateSpec.add_finalization_spec now st0 f st'
      (VoterStateSpec.w_rounds _ Hw0) E) as (_ & -> & _). lia.
Qed.

(** ** The replay of a list of artifacts *)

Context (el : Rnd → option Certificate → Z) (lt nt rt : Z) (Hact : 0 ≤ act).

Fixpoint replay_states st (l : list Artifact) : option State :=
  match l with
  | [] => Some st
  | x :: l => st ← replay_state st x; replay_states st l
  end.

Definition of_view v (J : list Artifact) : list Artifact := filter (λ x, artifact_view x = v) J.

Record replaying (J : list Artifact) st : Prop := {
  rp_wf : VoterStateSpec.wf st;
  rp_config : config st = (scheme, namespace, ep, act, el);
  rp_view v : ∃ r, recover_from (Round.new scheme (mkRnd ep v) now) (of_view v J) = Some r ∧
    tweak r (entry st v);
  rp_tracked x : x ∈ J → is_Some (views st !! artifact_view x);
  rp_finalized f : AFinalization f ∈ J → proposal_view (fzz_proposal f) ≤ last_finalized st;
}.

Lemma replaying_step J st x st' : replaying J st → 0 ≤ artifact_view x → replay_state st x = Some st' →
  replaying (J ++ [x]) st'.
Proof.
  intros [Hw Hc Hv Ht Hf] Hx E. destruct (replay_state_wf st x st' Hw ltac:(by intros f ->) E) as (Hw' & Hlf & Hlf').
  destruct (replay_state_replayed st x st' E) as [C (r1 & R & Tw) K O Kp]. split.
  - done.
  - congruence.
  - intros v. destruct (Hv v) as (r & Hr & Htw). unfold of_view. rewrite filter_app, filter_cons, filter_nil.
    destruct (decide (artifact_view x = v)) as [<-|Hne].
    + rewrite VoterJournal.recover_from_snoc. unfold of_view in Hr. rewrite Hr. simpl.
      pose proof (tweak_step _ _ x Htw) as H. rewrite R in H. inversion H as [r' ? Htw' Er'|].
      exists r'. split; [done|]. by etrans.
    + rewrite app_nil_r. exists r. split; [done|]. etrans; [done|]. by apply O.
  - intros y [Hy| ->%list_elem_of_singleton]%elem_of_app; auto.
  - intros f [Hin|Hin%list_elem_of_singleton]%elem_of_app; [|by apply Hlf']. specialize (Hf f Hin). lia.
Qed.

Lemma replaying_all l : ∀ J st st', replaying J st → (∀ x, x ∈ l → 0 ≤ artifact_view x) →
  replay_states st l = Some st' → replaying (J ++ l) st'.
Proof.
  induction l as [|x l IH]; intros J st st' HJ Hl; simpl.
  - intros [= <-]. by rewrite app_nil_r.
  - destruct (replay_state st x) as [st1|] eqn:E; simpl; [|done]. intros H.
    change (x :: l) with ([x] ++ l). rewrite app_assoc. eapply IH; [|by intros y Hy; apply Hl; right|done].
    eapply replaying_step; [done|apply Hl; left|done].
Qed.

(** ** The actor's recovery *)

Definition requests (a : Actor) : option Context_ * option Context_ := (pending_propose a, pending_verify a).

Lemma replay_artifact_run x a r es : ac_journal a = false → replay_artifact now x a = (r, es) →
  (core es = [] ∧ (r = None → replay_state (ac_state a) x = None)) ∧
  ∀ a', r = Some (tt, a') → (ac_journal a' = false ∧ requests a' = requests a) ∧
    replay_state (ac_state a) x = Some (ac_state a').
Proof.
  intros Hj. unfold replay_state, replay_artifact, update_state', bind, on_state'.
  destruct (VoterState.replay now (ac_state a) x) as [st0|]; simpl; [|by intros [= <- <-]].
  destruct a; simpl in *; subst.
  destruct x as [n|n|rd b|n|n|f|f]; unfold handle_notarization, handle_certification, handle_nullification,
    handle_finalization, bind, on_state'; simpl; unfold constant.
  - intros [= <- <-]. split; [by split|]. by intros ? [= <-].
  - destruct (VoterState.add_notarization now st0 n) as [[st1 [added k]]|]; simpl; [|by intros [= <- <-]].
    destruct added, k; simpl; intros [= <- <-]; (split; [by split|]); by intros ? [= <-].
  - destruct (VoterState.certified now st0 (rnd_view rd) b) as [[st1 [n|]]|]; simpl; [..|by intros [= <- <-]].
    + destruct b; simpl; intros [= <- <-]; (split; [by split|]); by intros ? [= <-].
    + intros [= <- <-]. split; [by split|]. by intros ? [= <-].
  - intros [= <- <-]. split; [by split|]. by intros ? [= <-].
  - destruct (VoterState.add_nullification now st0 n) as [[st1 added]|]; simpl; [|by intros [= <- <-]].
    destruct added; simpl; intros [= <- <-]; (split; [by split|]); by intros ? [= <-].
  - intros [= <- <-]. split; [by split|]. by intros ? [= <-].
  - destruct (VoterState.add_finalization now st0 f) as [[st1 [added k]]|]; simpl; [|by intros [= <- <-]].
    destruct added, k; simpl; intros [= <- <-]; (split; [by split|]); by intros ? [= <-].
Qed.

Lemma each_replay_run l : ∀ a r es, ac_journal a = false → each (replay_artifact now) l a = (r, es) →
  (core es = [] ∧ (r = None → replay_states (ac_state a) l = None)) ∧
  ∀ a', r = Some (tt, a') → (ac_journal a' = false ∧ requests a' = requests a) ∧
    replay_states (ac_state a) l = Some (ac_state a').
Proof.
  induction l as [|x l IH]; intros a r es Hj; simpl; [intros [= <- <-]; split; [by split|]; by intros ? [= <-]|].
  unfold bind. destruct (replay_artifact now x a) as [r1 es1] eqn:E1.
  destruct (replay_artifact_run x a r1 es1 Hj E1) as [[He Hn] Hr].
  destruct r1 as [[[] a1]|]; [|intros [= <- <-]; by rewrite (Hn eq_refl)]. destruct (Hr a1 eq_refl) as [[Hj1 Hq1] Hs1].
  destruct (each (replay_artifact now) l a1) as [r2 es2] eqn:E2. intros [= <- <-].
  destruct (IH a1 r2 es2 Hj1 E2) as [[He2 Hn2] Hr2]. rewrite core_app, He, He2, Hs1, <- Hq1. simpl.
  split; [by split|]. intros a' ->. by apply Hr2.
Qed.

Lemma recover_run g l a r es : ac_journal a = false → recover now g l a = (r, es) →
  (core es = [] ∧ (r = None → ∀ st1 st2, VoterState.set_genesis now (ac_state a) g = Some st1 →
      replay_states st1 l = Some st2 →
      VoterState.leader_index (VoterState.expire_round now st2 (view st2)) (view st2) = None)) ∧
  ∀ a', r = Some (tt, a') → (ac_journal a' = true ∧ requests a' = requests a) ∧
    ∃ st1 st2, VoterState.set_genesis now (ac_state a) g = Some st1 ∧ replay_states st1 l = Some st2 ∧
      ac_state a' = VoterState.expire_round now st2 (view st2).
Proof.
  intros Hj. destruct a; simpl in Hj; subst.
  unfold recover, update_state', update_state, on_state, on_state', bind. simpl.
  destruct (VoterState.set_genesis now _ g) as [st1|] eqn:Eg; simpl; [|intros [= <- <-]; split; [by split|done]].
  destruct (each _ _ _) as [r1 es1] eqn:E1. apply each_replay_run in E1 as [[He Hn] Hr]; [|done].
  destruct r1 as [[[] a1]|];
    [|intros [= <- <-]; split; [|done]; split; [done|]; intros _ ? st2 [= <-] E2; specialize (Hn eq_refl);
     simpl in Hn; unfold constant in Hn; congruence]. destruct (Hr a1 eq_refl) as [[Hj1 Hq1] Hs1]. simpl.
  destruct a1 as [st2]; simpl in *. unfold constant, requests in *. simpl in *.
  destruct (VoterState.leader_index _ _) eqn:El; simpl; intros [= <- <-]; rewrite ?core_app, He; (split; [split; [done|]|]).
  - done.
  - intros ? [= <-]. simpl. split; [by split|]. by exists st1, st2.
  - intros _ ? ? [= <-]. rewrite Hs1. by intros [= <-].
  - done.
Qed.

(** ** The order of the replay *)

Lemma of_view_concat v (f : Z → list Artifact) L : (∀ w x, x ∈ f w → artifact_view x = w) → NoDup L →
  of_view v (concat (map f L)) = if decide (v ∈ L) then f v else [].
Proof.
  intros Hf. assert (∀ w, of_view v (f w) = if decide (w = v) then f v else []) as Hone.
  { intros w. case_decide as E; [subst|].
    - unfold of_view. apply filter_id. intros x. apply Hf.
    - apply elem_of_nil_inv. intros x [E' Hx]%list_elem_of_filter. apply Hf in Hx. congruence. }
  induction 1 as [|w L Hw _ IH]; [by rewrite decide_False by apply not_elem_of_nil|]. simpl map. simpl concat.
  unfold of_view in *. rewrite filter_app, Hone, IH. destruct (decide (w = v)) as [->|Hne].
  - rewrite decide_False by done. rewrite decide_True by constructor. by rewrite app_nil_r.
  - simpl. apply decide_ext. rewrite elem_of_cons. naive_solver.
Qed.

Lemma of_view_order v d : (∀ w x, x ∈ (section d w).1 → artifact_view x = w) →
  of_view v (replay_order d) = (section d v).1.
Proof.
  intros Hd. unfold replay_order. rewrite (of_view_concat v (λ w, (section d w).1)); [|done|].
  - case_decide as E; [done|]. unfold section. destruct (sections d !! v) eqn:Ev; [|done].
    destruct E. rewrite (merge_sort_Permutation Z.le). apply elem_of_elements, elem_of_dom. by eexists.
  - rewrite (merge_sort_Permutation Z.le). apply NoDup_elements.
Qed.

Lemma in_replay_order v d x : x ∈ (section d v).1 → x ∈ replay_order d.
Proof.
  intros Hx. unfold replay_order. apply list_elem_of_In, in_concat. exists (section d v).1.
  split; [|by apply list_elem_of_In]. apply (in_map (λ w, (section d w).1)), list_elem_of_In.
  rewrite (merge_sort_Permutation Z.le). apply elem_of_elements, elem_of_dom. unfold section in Hx.
  destruct (sections d !! v); [by eexists|]. by apply not_elem_of_nil in Hx.
Qed.

Lemma replay_order_in x d : x ∈ replay_order d → ∃ v, x ∈ (section d v).1.
Proof.
  unfold replay_order. intros (J & HJ & Hx)%list_elem_of_In%in_concat.
  apply in_map_iff in HJ as (v & <- & _). exists v. by apply list_elem_of_In.
Qed.
(** ** Starts *)

Lemma replaying_sim h d sent st : down h d sent → replaying (replay_order d) st → sim h None st d sent.
Proof.
  intros [Hd Hv] [Hw Hc Hr Ht Hf]. pose proof Hd as [D0 D1 D2 D3]. injection Hc as C1 C2 C3 C4 _.
  assert (∀ v, ∃ r, recover_from (Round.new scheme (mkRnd ep v) now) (section d v).1 = Some r ∧
    tweak r (entry st v)) as Hrec.
  { intros v. destruct (Hr v) as (r & E & Htw). rewrite of_view_order in E by done. eauto. }
  assert (∀ v r, views st !! v = Some r → entry st v = r) as He by (intros; by apply entry_lookup).
  split.
  - done.
  - destruct D2 as [|(v & f & Hin & Hle)].
    + unfold VoterState.min_active, ConsensusTypes.min_active, View.saturating_sub, saturating_sub. lia.
    + assert (AFinalization f ∈ (section d v).1) as Hin'.
      { unfold durable in Hin. by eapply elem_of_take in Hin as (i & Hi & _); eapply list_elem_of_lookup_2. }
      pose proof (D3 v _ Hin') as Hv'. simpl in Hv'. pose proof (Hf f (in_replay_order v d _ Hin')) as Hlf.
      unfold VoterState.min_active. rewrite C4. unfold ConsensusTypes.min_active, View.saturating_sub, saturating_sub in *. lia.
  - done.
  - intros v now' Hle. destruct (Hv v Hle) as [Es Hs]. destruct (Hrec v) as (r & E & Htw). unfold node_at. rewrite Es.
    destruct (views st !! v) as [r1|] eqn:Ev.
    + rewrite (entry_lookup now' _ _ _ Ev). rewrite (He _ _ Ev) in Htw.
      eapply reaches_quiet; [by apply tweak_quiet|].
      pose proof (sv_restart _ _ _ _ _ _ _ Hs 0%nat now r) as H. simpl in H.
      rewrite Nat.max_0_r, Es, firstn_all in H. by apply H.
    + assert ((section d v).1 = []) as En.
      { apply elem_of_nil_inv. intros x Hx. destruct (Ht x (in_replay_order v d x Hx)) as [r1 Hr1].
        rewrite (D3 v x Hx) in Hr1. congruence. }
      rewrite Es, En in Hs. unfold VoterState.entry. rewrite Ev. simpl. rewrite En, C1, C3. by apply survives_nil.
  - intros v Hlt r Ev. destruct (Hrec v) as (r0 & E & Htw). rewrite (He _ _ Ev) in Htw.
    unfold section in E. rewrite (proj1 (D1 v Hlt)) in E. injection E as <-.
    eapply (proj2 (proj2 (tweak_keeps v _ _ Htw))), new_inert.
  - intros v r Ev. destruct (Hrec v) as (r0 & E & Htw). rewrite (He _ _ Ev) in Htw.
    eapply (proj1 (tweak_keeps v _ _ Htw)), (recover_from_keeps v _ _ _ E); [apply D3|apply new_placed].
  - intros v _ r Ev. destruct (Hrec v) as (r0 & E & Htw). rewrite (He _ _ Ev) in Htw.
    eapply (proj1 (proj2 (tweak_keeps v _ _ Htw))), (recover_from_keeps v _ _ _ E), new_finished.
Qed.

(** The state of a node that has just been built. *)
Definition fresh : State := VoterState.new scheme el namespace ep act lt nt rt.

Lemma genesis_replaying g st : VoterState.set_genesis now fresh g = Some st → replaying [] st.
Proof.
  intros E. destruct (VoterStateSpec.set_genesis_wf now _ _ _ _ _ _ _ _ _ _ Hact E) as (Hw & _ & _).
  unfold VoterState.set_genesis in E. change (View.next VoterState.GENESIS_VIEW) with (Some 1) in E. simpl in E.
  set (st0 := fresh {{ genesis := Some g }}) in E.
  assert (tweaks st0 st) as [C Te _].
  { etrans; [apply (enter_view_tweaks st0 1)|by eapply set_leader_tweaks]. }
  split; [done|by rewrite C| |by intros ? ?%not_elem_of_nil|by intros ? ?%not_elem_of_nil].
  intros v. eexists. split; [done|]. specialize (Te v).
  assert (entry st0 v = Round.new scheme (mkRnd ep v) now) as <-; [|done].
  unfold VoterState.entry. change (views st0) with (∅ : gmap Z Round). by rewrite lookup_empty.
Qed.

(** A start that returns leaves a running actor that simulates. *)
Lemma start_live h d sent g a es : down h d sent →
  recover now g (replay_order d) (new fresh) = (Some (tt, a), es) → live h None a d sent.
Proof.
  intros Hd E. destruct (recover_run g _ (new fresh) _ _ eq_refl E) as [_ Hr].
  destruct (Hr a eq_refl) as ((Hj & _) & st1 & st2 & E1 & E2 & Ea). change (ac_state (new fresh)) with fresh in E1.
  assert (replaying (replay_order d) st2) as Hrp.
  { apply (replaying_all (replay_order d) [] st1); [by eapply genesis_replaying|..|done].
    intros x Hx. destruct (replay_order_in x d Hx) as [v Hv]. rewrite (d_views _ _ _ _ _ _ _ (dn_disk _ _ _ _ _ _ _ Hd) v x Hv).
    pose proof (d_nonneg _ _ _ _ _ _ _ (dn_disk _ _ _ _ _ _ _ Hd)).
    destruct (decide (v < h)) as [Hlt|]; [|lia].
    destruct (d_past _ _ _ _ _ _ _ (dn_disk _ _ _ _ _ _ _ Hd) v Hlt) as [En _]. unfold section in Hv.
    rewrite En in Hv. by apply not_elem_of_nil in Hv. }
  pose proof (replaying_sim h d sent st2 Hd Hrp) as Hs.
  destruct (VoterStateSpec.exec_wf now (VoterStateSpec.SExpireRound (view st2)) st2 _ (rp_wf _ _ Hrp) I eq_refl) as (Hw & _).
  split; [|by rewrite Ea|done]. rewrite Ea. eapply sim_moves; [exact Hs|apply set_deadlines_moves|done].
Qed.
End Start.

(** ** The refinement *)

Section Node.
Context {T : Types} (scheme : Scheme) (namespace : bytes) (ep act : Z).
Context (Hsigns : VoterJournal.signs scheme namespace) (Hact : 0 ≤ act).
Context (el : Rnd → option Certificate → Z) (lt nt rt : Z).

Notation jrun v := (VoterJournal.run scheme namespace (mkRnd ep v)).
Notation jinit v := (VoterJournal.init scheme (mkRnd ep v)).
Notation live := (live scheme namespace ep act).
Notation down := (down scheme namespace ep act).
Notation crashable := (crashable scheme namespace ep act).

Lemma section_crash keep d v : section (crash keep d) v =
  (let items := take (max (section d v).2 (keep v)) (section d v).1 in (items, length items)).
Proof.
  unfold section, crash. simpl. rewrite map_lookup_imap.
  destruct (sections d !! v) as [[J s]|]; simpl; [done|]. by rewrite take_nil.
Qed.

Lemma crash_down keep d sent : crashable d sent → ∃ h, down h (crash keep d) sent.
Proof.
  intros (h & [D0 D1 D2 D3] & Hs). exists h. split; [split|].
  - done.
  - intros v Hv. destruct (D1 v Hv) as [En ?]. split; [|done]. simpl. by rewrite map_lookup_imap, En.
  - destruct D2 as [|(v & f & Hf & Hm)]; [by left|right]. exists v, f. split; [|done]. unfold durable in *.
    rewrite section_crash. cbv zeta. simpl. rewrite firstn_all.
    eapply VoterJournal.prefix_elem, Hf. 
    replace (take (section d v).2 (section d v).1) with
      (take (section d v).2 (take (max (section d v).2 (keep v)) (section d v).1)); [apply prefix_take|].
    rewrite take_take. f_equal. lia.
  - intros v x. rewrite section_crash. cbv zeta. simpl. intros Hx.
    apply elem_of_take in Hx as (i & Hi & _). by eapply D3, list_elem_of_lookup_2.
  - intros v Hv. rewrite section_crash. cbv zeta. simpl. split; [done|]. pose proof (Hs v Hv) as Hv'.
    pose proof (survives_journal scheme namespace ep Hsigns v _ _ _ Hv') as Hj. destruct Hv' as [_ Hr].
    set (K := take (max (section d v).2 (keep v)) (section d v).1).
    destruct (VoterJournal.recover_ok scheme (mkRnd ep v) 0 K) as (r & E & _).
    { apply (VoterJournal.journal_ok_prefix scheme _ (drop (max (section d v).2 (keep v)) (section d v).1)).
      unfold K. by rewrite take_drop. }
    by eapply reaches_survives, (Hr (keep v) 0).
Qed.

Definition node_inv (n : VoterActor.Node) : Prop :=
  match n_actor n with
  | Some a => ∃ h, live h None a (n_disk n) (n_sent n)
  | None => ∃ h, down h (n_disk n) (n_sent n)
  end.

Lemma boot_inv : node_inv boot.
Proof.
  exists 0. simpl. split.
  - split; [done| |by left|].
    + intros v Hv. split; [done|]. eexists. apply (reaches_init _ _ _ v 0).
    + intros v x Hx. by apply not_elem_of_nil in Hx.
  - intros v Hv. split; [done|]. eapply reaches_survives, (reaches_init _ _ _ v 0).
Qed.

Notation fresh := (fresh scheme namespace ep act el lt nt rt).

Lemma step_inv g l n n' : step fresh g l n n' → node_inv n → node_inv n'.
Proof.
  unfold node_inv.
  intros [now ev active n0 a a' d Ha Hi Hd|now ev active keep n0 a es d Ha Hc Hd|now n0 a es Ha Hr]; rewrite Ha;
    intros [h Hl]; simpl.
  - destruct (iterate_live scheme namespace ep act Hsigns h now ev active a (n_disk n0) (n_sent n0) Hl) as [_ H].
    exact (H true a' d Hi Hd).
  - apply crash_down. destruct (decide (es = [])) as [->|Hne].
    + injection Hd as <-. simpl. rewrite app_nil_r. by eapply live_crashable.
    + destruct (iterate_live scheme namespace ep act Hsigns h now ev active a (n_disk n0) (n_sent n0) Hl) as [H _].
      by apply (H es d).
  - exists h. by eapply start_live.
Qed.

Lemma reachable_inv g n : reachable fresh g n → node_inv n.
Proof. induction 1; [apply boot_inv|by eapply step_inv]. Qed.

(** The votes of a view are those of a run of the view. *)
Lemma reachable_inv_views g n : reachable fresh g n →
  ∀ v, ∃ now ops nd, jrun v ops (jinit v now) [] = Some (nd, votes_in v (n_sent n)).
Proof.
  intros Hr%reachable_inv v. unfold node_inv in Hr. destruct (n_actor n) as [a|]; destruct Hr as [h Hl].
  - destruct Hl as [Hs _ _]. destruct (decide (h ≤ v)) as [Hv|Hv].
    + destruct (s_view _ _ _ _ _ _ _ _ _ Hs v 0 Hv) as (now & ops & E). eauto.
    + destruct (d_past _ _ _ _ _ _ _ (s_disk _ _ _ _ _ _ _ _ _ Hs) v ltac:(lia)) as (_ & nd & now & ops & E). eauto.
  - destruct (decide (h ≤ v)) as [Hv|Hv].
    + destruct (dn_view _ _ _ _ _ _ _ Hl v Hv) as [Es Hs].
      pose proof (survives_journal scheme namespace ep Hsigns v _ _ _ Hs) as Hj.
      destruct (VoterJournal.recover_ok scheme (mkRnd ep v) 0 _ Hj) as (r & E & _).
      pose proof (sv_restart _ _ _ _ _ _ _ Hs 0%nat 0 r) as H'. rewrite Nat.max_0_r, Es, firstn_all in H'.
      destruct (H' E) as (now & ops & E'). eauto.
    + destruct (d_past _ _ _ _ _ _ _ (dn_disk _ _ _ _ _ _ _ Hl) v ltac:(lia)) as (_ & nd & now & ops & E). eauto.
Qed.

(** C2: the voter actor refines its per-view specification: whatever turns,
    crashes in the middle of a turn and restarts a node goes through, the votes
    it sent in a view are the votes of a run of the specification of that view,
    and while the node runs, the round and the journal section of every view that
    is not pruned are the ones of such a run. *)
Theorem actor_refines_view g n : reachable fresh g n →
  (∀ v, ∃ now ops nd, jrun v ops (jinit v now) [] = Some (nd, votes_in v (n_sent n))) ∧
  ∀ a v r, n_actor n = Some a → VoterState.min_active (ac_state a) ≤ v → views (ac_state a) !! v = Some r →
    ∃ now ops, jrun v ops (jinit v now) [] =
      Some (VoterJournal.mkNode r (section (n_disk n) v).1 (section (n_disk n) v).2, votes_in v (n_sent n)).
Proof.
  intros Hr. split; [by eapply reachable_inv_views|]. intros a v r Ha Hv Er. apply reachable_inv in Hr.
  unfold node_inv in Hr. rewrite Ha in Hr. destruct Hr as [h [Hs _ _]].
  pose proof (s_horizon _ _ _ _ _ _ _ _ _ Hs). pose proof (s_view _ _ _ _ _ _ _ _ _ Hs v 0 ltac:(lia)) as H'.
  unfold node_at in H'. rewrite (entry_lookup _ _ _ _ Er) in H'. exact H'.
Qed.
End Node.

(** ** Evaluation on a concrete node *)

Section Witness.
Import Fixtures.

(** The node is participant 0; the leader of a view is chosen by its number. *)
Definition demo_fresh : State :=
  fresh (scheme 0) [] 0 1 (λ r _, rnd_view r mod 4) 10 20 30.

(** A start, a proposal of the leader of view 1, its verification and the vote,
    a crash in the next turn, a second start and a timeout. *)
Definition demo_moves : list Move :=
  [MStart 0; MTurn 1 (EvProposal (mkProposal (rnd 1) 0 41)) true;
   MTurn 2 (EvVerified (Some true)) true; MCrash 3 EvTimeout true 2 0; MStart 4; MTurn 50 EvTimeout true].
Definition demo_node : VoterActor.Node := default boot (play demo_fresh 7 demo_moves boot).

Lemma demo_moves_ok : play demo_fresh 7 demo_moves boot = Some demo_node.
Proof. vm_compute. reflexivity. Qed.

Lemma demo_reachable : reachable demo_fresh 7 demo_node.
Proof. eapply play_reachable, demo_moves_ok. constructor. Qed.

Example demo_votes : map vote_view (n_sent demo_node) = [1; 1].
Proof. vm_compute. reflexivity. Qed.

Lemma actor_refines_view_witness : ∃ now ops nd,
  VoterJournal.run (scheme 0) [] (rnd 1) ops (VoterJournal.init (scheme 0) (rnd 1) now) [] =
    Some (nd, votes_in 1 (n_sent demo_node)).
Proof.
  exact (proj1 (actor_refines_view (scheme 0) [] 0 1 (sign_as_me 0 []) ltac:(lia)
    (λ r _, rnd_view r mod 4) 10 20 30 7 demo_node demo_reachable) 1).
Defined.
End Witness.
End VoterRefinementStart.
