(* ===== verification/VoterRestart.v ===== *)
(** * A node can always be started

    Whatever a crash leaves on disk, the recovery returns: no assertion of the
    replay fails and a running actor results.  The replay of each section cannot
    panic, because the section is what a run of the per-view specification
    survives a crash with; across views, every view that is entered or notarized
    has a leader. *)

From S2P Require Import Prelude Codec ConsensusTypes SimplexTypes SimplexEvidence VoterSlot VoterRound.
From S2P Require Import VoterJournal VoterState VoterStateSpec VoterActor VoterActorLogic VoterRefinement.
From S2P Require Import VoterRefinementLoop VoterRefinementTurn VoterRefinementStart Fixtures.
Import VoterActor VoterRefinement VoterRefinementLoop VoterRefinementTurn VoterRefinementStart.

Module VoterRestart.
Section Restart.
Context {T : Types} (scheme : Scheme) (namespace : bytes) (ep act : Z).
Context (now : Z) (el : Rnd → option Certificate → Z) (lt nt rt : Z).
Implicit Types st : State.
Implicit Types v : Z.

(** The elector elects participants. *)
Context (elects : ∀ rd c, is_Some (participants scheme !! Z.to_nat (el rd c))).

Notation entry := (VoterState.entry now).
Notation recover_step := (VoterJournal.recover_step now).
Notation recover_from := (VoterJournal.recover_from now).
Notation tweaks := (tweaks now).

(** ** Leaders *)

Definition has_leader st v : Prop := ∃ r, views st !! v = Some r ∧ is_Some (r_leader r).

(** The current view has a leader, and so has every view after a notarized one;
    the rounds and the elector are those of the participants. *)
Record led st : Prop := {
  ld_current : has_leader st (view st);
  ld_notarized v : is_Some (r_notarization (entry st v)) → has_leader st (v + 1);
  ld_scheme v : r_scheme (entry st v) = scheme;
  ld_elector : elector st = el;
}.

Lemma tweak_leader_Some r r' : tweak r r' → is_Some (r_leader r) → is_Some (r_leader r').
Proof. intros [_ [->|(i & key & _ & ->)] _]; [done|by eexists]. Qed.
Lemma tweak_fields r r' : tweak r r' → r_notarization r' = r_notarization r ∧ r_scheme r' = r_scheme r.
Proof. intros [-> _ _]. by destruct r. Qed.

Lemma has_leader_entry st v : has_leader st v → is_Some (r_leader (entry st v)).
Proof. intros (r & E & H). by rewrite (entry_lookup now st v r E). Qed.

Lemma has_leader_tweaks st st' v : tweaks st st' → has_leader st v → has_leader st' v.
Proof.
  intros [_ Ht Hk] H. pose proof (has_leader_entry _ _ H) as Hl. destruct H as (r & E & _).
  destruct (Hk v) as [r' E']; [by eexists|]. exists r'. split; [done|].
  specialize (Ht v). rewrite (entry_lookup now st' v r' E') in Ht. by eapply tweak_leader_Some.
Qed.

(** The parts that do not depend on the current view. *)
Lemma led_tweaks st st' : tweaks st st' → led st → has_leader st' (view st') → led st'.
Proof.
  intros Ht [H1 H2 H3 H4] Hv. pose proof Ht as [C He _]. split; [done|..].
  - intros v. destruct (tweak_fields _ _ (He v)) as [-> _]. intros Hn. by eapply has_leader_tweaks, H2.
  - intros v. by destruct (tweak_fields _ _ (He v)) as [_ ->].
  - injection C as _ _ _ _ ->. done.
Qed.

Lemma has_leader_put st w v r : has_leader st w → is_Some (r_leader r) → has_leader (VoterState.put st v r) w.
Proof.
  intros (r0 & E & Hl) Hr. unfold has_leader. simpl. unfold constant. destruct (decide (v = w)) as [->|Hne].
  - exists r. by rewrite lookup_insert_eq.
  - exists r0. by rewrite lookup_insert_ne.
Qed.

Lemma has_leader_kept st w v r : has_leader st w → (is_Some (r_leader (entry st v)) → is_Some (r_leader r)) →
  has_leader (VoterState.put st v r) w.
Proof.
  intros Hw Hr. destruct (decide (v = w)) as [->|Hne].
  - apply has_leader_put; [done|]. by apply Hr, has_leader_entry.
  - destruct Hw as (r0 & E & Hl). exists r0. simpl. unfold constant. by rewrite lookup_insert_ne.
Qed.

(** A change of a round that keeps its leader; a new notarization needs a leader
    in the next view. *)
Lemma led_put st v r : led st → (is_Some (r_leader (entry st v)) → is_Some (r_leader r)) →
  (is_Some (r_notarization r) → is_Some (r_notarization (entry st v)) ∨ has_leader st (v + 1)) →
  r_scheme r = scheme → led (VoterState.put st v r).
Proof.
  intros [H1 H2 H3 H4] Hl Hn Hs. split.
  - by apply has_leader_kept.
  - intros w. destruct (decide (v = w)) as [->|Hne].
    + rewrite entry_put. intros [?|?]%Hn; apply has_leader_kept; auto.
    + rewrite entry_put_ne by done. intros ?. apply has_leader_kept; auto.
  - intros w. destruct (decide (v = w)) as [->|Hne]; [by rewrite entry_put|by rewrite entry_put_ne].
  - done.
Qed.

Lemma set_leader_total st v c : (∀ w, r_scheme (entry st w) = scheme) → elector st = el →
  ∃ st', VoterState.set_leader now st v c = Some st' ∧ tweaks st st' ∧ has_leader st' v ∧ view st' = view st.
Proof.
  intros Hs Hel. assert (∃ st', VoterState.set_leader now st v c = Some st' ∧ has_leader st' v ∧ view st' = view st)
    as (st' & E & ? & ?); [|exists st'; split_and!; try done; by eapply set_leader_tweaks].
  unfold VoterState.set_leader. rewrite Hel. destruct (r_leader (entry st v)) as [l|] eqn:El.
  - eexists. split; [done|]. split; [|done]. exists (entry st v). rewrite El. split; [apply lookup_put|by eexists].
  - unfold Round.set_leader. rewrite Hs. destruct (elects (mkRnd (epoch st) v) c) as [key Hk].
    rewrite Hk. simpl. eexists. split; [done|]. split; [|done].
    eexists. split; [apply lookup_put|]. destruct (entry st v). by eexists.
Qed.

Lemma enter_view_cases st v : view (VoterState.enter_view now st v).1 = view st ∨ view (VoterState.enter_view now st v).1 = v.
Proof. rewrite VoterStateSpec.enter_view_view. lia. Qed.

(** Entering the view after a certificate, with its leader. *)
Lemma advance_total st v c : led st → ∃ st',
  VoterState.set_leader now (VoterState.enter_view now st v).1 v c = Some st' ∧ tweaks st st' ∧
  led st' ∧ has_leader st' v.
Proof.
  intros Hl. pose proof (enter_view_tweaks now st v) as He. pose proof He as [C Ht _].
  destruct (set_leader_total (VoterState.enter_view now st v).1 v c) as (st' & E & Ht' & Hlv & Hv').
  - intros w. destruct (tweak_fields _ _ (Ht w)) as [_ ->]. apply Hl.
  - injection C as _ _ _ _ ->. apply Hl.
  - assert (tweaks st st') as Htt by by etrans.
    exists st'. split_and!; [done..| |done]. eapply led_tweaks; [done..|]. rewrite Hv'.
    destruct (enter_view_cases st v) as [-> | ->]; [|done]. by eapply has_leader_tweaks, Hl.
Qed.

(** ** The replay of an artifact *)

(** What the certificates change of a round. *)
Lemma add_notarization_fields r n : let r' := (Round.add_notarization r n).1 in
  r_leader r' = r_leader r ∧ r_scheme r' = r_scheme r.
Proof.
  unfold Round.add_notarization, Round.add_recovered_proposal. destruct (r_notarization r); [done|].
  destruct r; simpl. by destruct (Slot.update _ _ _).
Qed.
Lemma add_nullification_fields r n : let r' := (Round.add_nullification r n).1 in
  r_leader r' = r_leader r ∧ r_scheme r' = r_scheme r ∧ r_notarization r' = r_notarization r.
Proof. unfold Round.add_nullification. destruct (r_nullification r); [done|]. by destruct r. Qed.
Lemma add_finalization_fields r f : let r' := (Round.add_finalization r f).1 in
  r_leader r' = r_leader r ∧ r_scheme r' = r_scheme r ∧ r_notarization r' = r_notarization r.
Proof.
  unfold Round.add_finalization, Round.add_recovered_proposal. destruct (r_finalization r); [done|].
  destruct r; simpl. by destruct (Slot.update _ _ _).
Qed.
Lemma certified_fields r b r' : Round.certified r b = Some r' →
  r_leader r' = r_leader r ∧ r_scheme r' = r_scheme r ∧ r_notarization r' = r_notarization r.
Proof. unfold Round.certified. destruct r; simpl. intros. by repeat case_match; simplify_eq/=. Qed.
Lemma replay_fields r x r' : Round.replay r x = Some r' →
  r_leader r' = r_leader r ∧ r_scheme r' = r_scheme r ∧ r_notarization r' = r_notarization r.
Proof.
  destruct x; simpl; try (case_match; [|done]); try (intros [= <-]; by destruct r). apply certified_fields.
Qed.

(** A change of a round that keeps leader, scheme and notarization. *)
Lemma led_same st v r : led st → r_leader r = r_leader (entry st v) → r_scheme r = r_scheme (entry st v) →
  r_notarization r = r_notarization (entry st v) → led (VoterState.put st v r).
Proof.
  intros H El Es En. apply led_put; [done|by rewrite El|rewrite En; by left|rewrite Es; apply H].
Qed.

Lemma next_total v : v + 1 < 2 ^ 64 → View.next v = Some (v + 1).
Proof. intros H. by apply View.next_Some. Qed.

Lemma add_notarization_total st n : led st → proposal_view (nz_proposal n) + 1 < 2 ^ 64 →
  ∃ st' res, VoterState.add_notarization now st n = Some (st', res) ∧ led st'.
Proof.
  intros Hl Hv. unfold VoterState.add_notarization. rewrite next_total by done. simpl.
  destruct (set_leader_total st (proposal_view (nz_proposal n) + 1) (Some (nz_certificate n)))
    as (st1 & -> & Ht & Hlv & Ev); [apply Hl..|]. simpl.
  assert (led st1) as Hl1 by (eapply led_tweaks; [done..|rewrite Ev; by eapply has_leader_tweaks, Hl]).
  destruct (add_notarization_fields (entry st1 (proposal_view (nz_proposal n))) n) as [El Es].
  destruct (Round.add_notarization _ _) as [r res]. simpl in *. eexists _, _. split; [done|].
  apply led_put; [done|by rewrite El|by right|rewrite Es; apply Hl1].
Qed.

Lemma add_nullification_total st n : led st → rnd_view (nlz_round n) + 1 < 2 ^ 64 →
  ∃ st' res, VoterState.add_nullification now st n = Some (st', res) ∧ led st'.
Proof.
  intros Hl Hv. unfold VoterState.add_nullification. rewrite next_total by done. simpl.
  destruct (advance_total st (rnd_view (nlz_round n) + 1) (Some (nlz_certificate n)) Hl) as (st1 & -> & _ & Hl1 & _).
  simpl. destruct (add_nullification_fields (entry st1 (rnd_view (nlz_round n))) n) as (El & Es & En).
  destruct (Round.add_nullification _ _) as [r res]. simpl in *. eexists _, _. split; [done|]. by apply led_same.
Qed.

Lemma add_finalization_total st f : led st → proposal_view (fzz_proposal f) + 1 < 2 ^ 64 →
  ∃ st' res, VoterState.add_finalization now st f = Some (st', res) ∧ led st'.
Proof.
  intros Hl Hv. unfold VoterState.add_finalization. set (st0 := if _ <? _ then _ else _).
  assert (led st0) as Hl0.
  { subst st0. case_match; [|done]. destruct Hl. by split. }
  clearbody st0. rewrite next_total by done. simpl.
  destruct (advance_total st0 (proposal_view (fzz_proposal f) + 1) (Some (fzz_certificate f)) Hl0)
    as (st1 & -> & _ & Hl1 & _).
  simpl. destruct (add_finalization_fields (entry st1 (proposal_view (fzz_proposal f))) f) as (El & Es & En).
  destruct (Round.add_finalization _ _) as [r res]. simpl in *. eexists _, _. split; [done|]. by apply led_same.
Qed.

Lemma certified_total st v b r r' : led st → views st !! v = Some r → v + 1 < 2 ^ 64 →
  Round.certified r b = Some r' → is_Some (r_notarization r) →
  ∃ st' res, VoterState.certified now st v b = Some (st', res) ∧ led st'.
Proof.
  intros Hl Er Hv E Hn. unfold VoterState.certified. rewrite Er, E. simpl.
  destruct (certified_fields r b r' E) as (El & Es & En). pose proof (entry_lookup now st v r Er) as Ee.
  assert (led (VoterState.put st v r')) as Hl1 by (apply led_same; rewrite ?Ee; done).
  rewrite En. destruct Hn as [n Hn]. rewrite Hn. simpl. destruct b.
  - rewrite next_total by done. simpl. eexists _, _. split; [done|].
    pose proof (enter_view_tweaks now (VoterState.put st v r') (v + 1)) as Ht.
    eapply led_tweaks; [done..|]. destruct (enter_view_cases (VoterState.put st v r') (v + 1)) as [-> | ->].
    + by eapply has_leader_tweaks, Hl1.
    + eapply has_leader_tweaks; [done|]. apply (ld_notarized _ Hl1). rewrite entry_put, En, Hn. by eexists.
  - eexists _, _. split; [done|]. unfold VoterState.expire_round. apply led_same; [done|..];
      by destruct (VoterState.entry now (VoterState.put st v r') v).
Qed.

Lemma replay_state_total st x r : led st → recover_step (entry st (artifact_view x)) x = Some r →
  artifact_view x + 1 < 2 ^ 64 → ∃ st', replay_state now st x = Some st' ∧ led st'.
Proof.
  intros Hl E Hv. unfold replay_state, VoterState.replay. unfold VoterJournal.recover_step in E.
  destruct (Round.replay _ _) as [r0|] eqn:Er; simpl in *; [|done].
  destruct (replay_fields _ _ _ Er) as (El & Es & En).
  assert (led (VoterState.put st (artifact_view x) r0)) as Hl0 by by apply led_same.
  set (st0 := VoterState.put _ _ _) in *.
  destruct x as [n|n|rd b|n|n|f|f]; simpl in *; try (by eexists).
  - destruct (add_notarization_total st0 n Hl0 Hv) as (st' & res & -> & ?). by eexists.
  - unfold VoterJournal.state_certified in E. destruct (Round.certified r0 b) as [r1|] eqn:E1; simpl in E; [|done].
    destruct (certified_fields _ _ _ E1) as (_ & _ & E2).
    destruct (r_notarization r1) as [n|] eqn:E3; simpl in E; [|done].
    destruct (certified_total st0 (rnd_view rd) b r0 r1) as (st' & res & -> & ?); [done|apply lookup_put|done..| |].
    { rewrite <- E2. by eexists. }
    by eexists.
  - destruct (add_nullification_total st0 n Hl0 Hv) as (st' & res & -> & ?). by eexists.
  - destruct (add_finalization_total st0 f Hl0 Hv) as (st' & res & -> & ?). by eexists.
Qed.

(** ** The replay of the disk *)

Notation replaying := (replaying scheme namespace ep act now el).
Notation fresh := (fresh scheme namespace ep act el lt nt rt).

Lemma recover_from_app J K : ∀ r, recover_from r (J ++ K) = (r ← recover_from r J; recover_from r K).
Proof.
  induction J as [|x J IH]; intros r; simpl; [done|]. destruct (recover_step r x); simpl; [apply IH|done].
Qed.

Lemma replay_states_total l : ∀ J st, replaying J st → led st →
  (∀ x, x ∈ l → 0 ≤ artifact_view x ∧ artifact_view x + 1 < 2 ^ 64) →
  (∀ v, is_Some (recover_from (Round.new scheme (mkRnd ep v) now) (of_view v (J ++ l)))) →
  ∃ st', replay_states now st l = Some st' ∧ led st'.
Proof.
  induction l as [|x l IH]; intros J st Hr Hl Hx Hv; simpl; [by eexists|].
  destruct (Hx x) as [H0 H1]; [constructor|]. pose proof (Hv (artifact_view x)) as [r' Hr'].
  destruct (rp_view _ _ _ _ _ _ _ _ Hr (artifact_view x)) as (r & E & Ht). unfold of_view in *.
  rewrite filter_app, filter_cons_True, recover_from_app, E in Hr' by done. simpl in Hr'.
  pose proof (tweak_step now r _ x Ht) as Ht'.
  destruct (recover_step r x) as [r1|] eqn:E1; simpl in Hr'; [|done]. inversion Ht' as [? r2 _ E2 E3|].
  destruct (replay_state_total st x r2) as (st1 & Es & Hl1); [done..|]. rewrite Es. simpl.
  apply (IH (J ++ [x])); [by eapply replaying_step|done|intros y Hy; apply Hx; by constructor|].
  intros v. rewrite <- app_assoc. apply Hv.
Qed.

Lemma genesis_total g : ∃ st, VoterState.set_genesis now fresh g = Some st ∧ led st.
Proof.
  unfold VoterState.set_genesis. change (View.next VoterState.GENESIS_VIEW) with (Some 1). simpl.
  set (st0 := (VoterRefinementStart.fresh scheme namespace ep act el lt nt rt) {{ genesis := Some g }}).
  pose proof (enter_view_tweaks now st0 1) as Ht. pose proof Ht as [C He _].
  assert (∀ w, entry st0 w = Round.new scheme (mkRnd ep w) now) as E0.
  { intros w. unfold VoterState.entry. change (views st0) with (∅ : gmap Z Round). by rewrite lookup_empty. }
  assert (∀ w, r_notarization (entry (VoterState.enter_view now st0 1).1 w) = None ∧
    r_scheme (entry (VoterState.enter_view now st0 1).1 w) = scheme) as E1.
  { intros w. specialize (He w). rewrite E0 in He. by destruct (tweak_fields _ _ He) as [-> ->]. }
  destruct (set_leader_total (VoterState.enter_view now st0 1).1 1 None) as (st' & E & Ht' & Hlv & Hv);
    [intros w; apply E1|exact (f_equal snd C)|].
  exists st'. split; [exact E|]. pose proof Ht' as [C' He' _]. split.
  - rewrite Hv. exact Hlv.
  - intros w. destruct (tweak_fields _ _ (He' w)) as [-> _]. rewrite (proj1 (E1 w)). by intros [? ?].
  - intros w. destruct (tweak_fields _ _ (He' w)) as [_ ->]. apply E1.
  - exact (eq_trans (f_equal snd C') (f_equal snd C)).
Qed.

(** C3: whatever turns, crashes in the middle of a turn and restarts a node went
    through, when it is down its recovery returns: no panic, a running actor. *)
Theorem restart_succeeds (Hsigns : VoterJournal.signs scheme namespace) (Hact : 0 ≤ act) g n :
  reachable fresh g n → n_actor n = None →
  (∀ x, x ∈ replay_order (n_disk n) → artifact_view x + 1 < 2 ^ 64) →
  ∃ a es, recover now g (replay_order (n_disk n)) (new fresh) = (Some (tt, a), es).
Proof.
  intros Hr Hn Hb. apply reachable_inv in Hr; [|done..]. unfold node_inv in Hr. rewrite Hn in Hr.
  destruct Hr as [h [Hd Hs]]. pose proof Hd as [D0 D1 _ D3].
  destruct (genesis_total g) as (st1 & E1 & Hl1).
  destruct (replay_states_total (replay_order (n_disk n)) [] st1) as (st2 & E2 & Hl2).
  - by eapply genesis_replaying.
  - done.
  - intros x Hx. split; [|by apply Hb]. destruct (replay_order_in x _ Hx) as [v Hv]. rewrite (D3 v x Hv).
    destruct (decide (v < h)) as [Hlt|]; [|lia]. unfold section in Hv. rewrite (proj1 (D1 v Hlt)) in Hv.
    by apply not_elem_of_nil in Hv.
  - intros v. simpl. rewrite of_view_order by done. destruct (decide (v < h)) as [Hlt|Hge].
    + unfold section. rewrite (proj1 (D1 v Hlt)). by eexists.
    + destruct (Hs v ltac:(lia)) as [_ Hv]. apply survives_journal in Hv; [|done].
      destruct (VoterJournal.recover_ok scheme (mkRnd ep v) now _ Hv) as (r & E & _). by exists r.
  - destruct (recover now g (replay_order (n_disk n)) (new fresh)) as [r es] eqn:E.
    destruct (recover_run now g _ (new fresh) r es eq_refl E) as [[_ Hnone] _].
    destruct r as [[[] a]|]; [eauto|]. exfalso. specialize (Hnone eq_refl st1 st2 E1 E2).
    destruct (ld_current _ Hl2) as (r & Er & l & El). unfold VoterState.leader_index, VoterState.expire_round in Hnone.
    rewrite lookup_put, (entry_lookup _ _ _ _ Er) in Hnone. simpl in Hnone. destruct r; simpl in *. by rewrite El in Hnone.
Qed.
End Restart.

Section Witness.
Import Fixtures.

Definition demo_down : VoterActor.Node :=
  default boot (play VoterRefinementStart.demo_fresh 7 (take 4 VoterRefinementStart.demo_moves) boot).

Lemma demo_down_reachable : reachable VoterRefinementStart.demo_fresh 7 demo_down.
Proof.
  apply (play_reachable _ _ (take 4 VoterRefinementStart.demo_moves) boot); [constructor|].
  vm_compute. reflexivity.
Qed.

Lemma demo_elects (rd : Rnd) (c : option (list Z)) : is_Some ([10; 11; 12; 13] !! Z.to_nat (rnd_view rd mod 4)).
Proof.
  apply lookup_lt_is_Some. simpl. pose proof (Z.mod_pos_bound (rnd_view rd) 4 ltac:(lia)). lia.
Qed.

Lemma restart_succeeds_witness : ∃ a es,
  recover 9 7 (replay_order (n_disk demo_down)) (new VoterRefinementStart.demo_fresh) = (Some (tt, a), es).
Proof.
  apply (restart_succeeds (scheme 0) [] 0 1 9 (λ r _, rnd_view r mod 4) 10 20 30 demo_elects (sign_as_me 0 [])
    ltac:(lia) 7 demo_down demo_down_reachable).
  - vm_compute. reflexivity.
  - intros x Hx. apply list_elem_of_In in Hx. revert x Hx.
    assert (forallb (λ y, artifact_view y + 1 <? 2 ^ 64) (replay_order (n_disk demo_down)) = true) as H
      by (vm_compute; reflexivity).
    rewrite forallb_forall in H. intros x Hx. by apply Z.ltb_lt, H.
Defined.
End Witness.
End VoterRestart.
