(* ===== verification/VoterJustified.v ===== *)
(** * Votes have justified parents

    A proposal is [vouched] for by the certificates delivered to a node when one
    of them is for the proposal itself, or when they justify its parent: the
    parent's view is certified or finalized (or the genesis), and every view in
    between is nullified.  The slots, certificates, requests and journal of the
    actor stay within what the delivered certificates vouch for, across crashes,
    so a node votes to notarize only proposals that are vouched for. *)

From S2P Require Import Prelude Codec ConsensusTypes SimplexTypes SimplexEvidence VoterSlot VoterRound.
From S2P Require Import VoterJournal VoterState VoterStateSpec VoterActor VoterActorLogic VoterRefinement.
From S2P Require Import VoterRefinementLoop Fixtures.
Import VoterActor VoterActorLogic.

Module VoterJustified.
Section Justified.
Context {T : Types} (R : list Cert).
Implicit Types st : State.
Implicit Types v : Z.
Implicit Types r : Round.
Implicit Types p : Proposal.

(** ** What certificates vouch for *)

Definition cert_proposal (c : Cert) : option Proposal :=
  match c with
  | CNotarization n => Some (nz_proposal n)
  | CFinalization f => Some (fzz_proposal f)
  | CNullification _ => None
  end.

(** The view [u] is a parent for a proposal of view [v]. *)
Record justified v (u : Z) : Prop := {
  ju_less : u < v;
  ju_between w : u < w < v → ∃ n, CNullification n ∈ R ∧ rnd_view (nlz_round n) = w;
  ju_parent : u = 0 ∨ ∃ c q, c ∈ R ∧ cert_proposal c = Some q ∧ proposal_view q = u;
}.

Definition vouched p : Prop :=
  (∃ c, c ∈ R ∧ cert_proposal c = Some p) ∨ justified (proposal_view p) (parent p).

(** ** Slots *)

Ltac slot_cases :=
  repeat match goal with sl : Slot |- _ => destruct sl end; simpl in *; unfold constant in *; subst;
  split; simpl; first [done | by intros ? [= <-] | by intros; eexists | by intros; eauto | idtac].

Record slot_just v (sl : Slot) : Prop := {
  sj_verified p : sl_proposal sl = Some p → sl_status sl = StVerified → vouched p;
  sj_requested p : sl_proposal sl = Some p → sl_status sl = StUnverified →
    requested_verify sl = true → vouched p;
  sj_view p : sl_proposal sl = Some p → proposal_view p = v;
  sj_filled : requested_verify sl = true → is_Some (sl_proposal sl);
}.

Lemma slot_just_new v : slot_just v Slot.new.
Proof. by split. Qed.
Lemma slot_just_building v sl : slot_just v sl → slot_just v (Slot.set_building sl).
Proof. intros []. slot_cases. Qed.

Lemma slot_just_built v sl p : proposal_view p = v → vouched p → slot_just v sl → slot_just v (Slot.built sl p).
Proof.
  intros Hv Hp []. unfold Slot.built. destruct (sl_proposal sl) eqn:E; [by split; rewrite ?E|].
  slot_cases.
Qed.

Lemma slot_just_request v sl p : sl_proposal sl = Some p → vouched p → slot_just v sl →
  slot_just v (Slot.request_verify sl).1.
Proof.
  intros E Hp Hs. unfold Slot.request_verify. case_match; [done|]. destruct Hs. rewrite E in *.
  slot_cases.
Qed.

Lemma slot_just_verified v sl : requested_verify sl = true → slot_just v sl →
  slot_just v (Slot.mark_verified sl).1.
Proof.
  intros Hr []. unfold Slot.mark_verified. case_decide; [|by split]. slot_cases.
Qed.

Lemma slot_just_update v sl p : proposal_view p = v → slot_just v sl → slot_just v (Slot.update sl p false).1.
Proof.
  intros Hv Hs. unfold Slot.update. case_decide; [done|]. destruct (sl_proposal sl) as [q|] eqn:E.
  - case_decide; [done|]. simpl. destruct Hs. slot_cases.
  - destruct Hs. rewrite E in *. slot_cases.
    intros ? _ _ Hr. by destruct (sj_filled0 Hr).
Qed.

Lemma slot_just_recovered v sl p : proposal_view p = v → vouched p → slot_just v sl →
  slot_just v (Slot.update sl p true).1.
Proof.
  intros Hv Hp Hs. unfold Slot.update. case_decide; [done|]. destruct (sl_proposal sl) as [q|] eqn:E.
  - case_decide; simpl; subst; destruct Hs; rewrite E in *; slot_cases.
  - destruct Hs. rewrite E in *. slot_cases.
Qed.

Lemma update_requested sl p b : requested_verify sl = true → requested_verify (Slot.update sl p b).1 = true.
Proof. unfold Slot.update. intros H. repeat case_match; simpl; done. Qed.
Lemma built_requested sl p : requested_verify sl = true → requested_verify (Slot.built sl p) = true.
Proof. unfold Slot.built. by case_match. Qed.
Lemma request_requested sl : requested_verify (Slot.request_verify sl).1 = true.
Proof. unfold Slot.request_verify. by case_match. Qed.
Lemma mark_requested sl : requested_verify (Slot.mark_verified sl).1 = requested_verify sl.
Proof. unfold Slot.mark_verified. by case_match. Qed.

(** ** Rounds *)

Record round_just v r : Prop := {
  rj_slot : slot_just v (r_slot r);
  rj_notarization n : r_notarization r = Some n →
    CNotarization n ∈ R ∧ proposal_view (nz_proposal n) = v ∧ Slot.agrees (r_slot r) (nz_proposal n);
  rj_nullification n : r_nullification r = Some n → CNullification n ∈ R ∧ rnd_view (nlz_round n) = v;
  rj_finalization f : r_finalization r = Some f →
    CFinalization f ∈ R ∧ proposal_view (fzz_proposal f) = v ∧ 0 ≤ v;
  rj_broadcast : b_notarization r = true → is_Some (r_notarization r);
}.

Lemma round_just_new v s rd now : round_just v (Round.new s rd now).
Proof. split; [apply slot_just_new|done..]. Qed.

(** A change of a round of view [v]. *)
Record steps v r r' : Prop := {
  sp_le : VoterStateSpec.round_ok r → VoterStateSpec.round_le r r';
  sp_just : VoterStateSpec.round_ok r → round_just v r → round_just v r';
  sp_requested : requested_verify (r_slot r) = true → requested_verify (r_slot r') = true;
}.

#[global] Instance steps_preorder v : PreOrder (steps v).
Proof.
  split; [by intros r; split|]. intros r1 r2 r3 [L1 J1 Q1] [L2 J2 Q2].
  assert (VoterStateSpec.round_ok r1 → VoterStateSpec.round_ok r2) as Hok.
  { intros H. by apply (VoterStateSpec.rl_ok _ _ (L1 H)). }
  split; [|auto|auto]. intros H. etrans; auto.
Qed.

(** A change that leaves the slot and the certificates alone. *)
Lemma steps_same v r r' : VoterStateSpec.round_le r r' → r_slot r' = r_slot r →
  r_notarization r' = r_notarization r → r_nullification r' = r_nullification r →
  r_finalization r' = r_finalization r → b_notarization r' = b_notarization r → steps v r r'.
Proof.
  intros Hle E1 E2 E3 E4 E5. split; [by intros _| |by rewrite E1].
  intros _ []. split; rewrite ?E1, ?E2, ?E3, ?E4, ?E5; done.
Qed.

(** A change of the slot. *)
Lemma steps_slot v r r' : VoterStateSpec.round_le r r' →
  (Slot.wf (r_slot r) → slot_just v (r_slot r) → slot_just v (r_slot r')) →
  (∀ p, Slot.wf (r_slot r) → Slot.agrees (r_slot r) p → Slot.agrees (r_slot r') p) →
  (requested_verify (r_slot r) = true → requested_verify (r_slot r') = true) →
  r_notarization r' = r_notarization r → r_nullification r' = r_nullification r →
  r_finalization r' = r_finalization r → b_notarization r' = b_notarization r → steps v r r'.
Proof.
  intros Hle Hs Ha Hq E2 E3 E4 E5. split; [by intros _| |done].
  intros [Hw _ _ _] []. split; rewrite ?E2, ?E3, ?E4, ?E5; [auto| |done..].
  intros n Hn. destruct (rj_notarization0 n Hn) as (? & ? & ?). auto.
Qed.

(** *** The operations of a round *)

Lemma set_deadlines_steps v r a b : steps v r (Round.set_deadlines r a b).
Proof. apply steps_same; [apply VoterStateSpec.set_deadlines_le|by destruct r..]. Qed.
Lemma set_leader_steps v r l r' : Round.set_leader r l = Some r' → steps v r r'.
Proof.
  intros E. apply steps_same; [by eapply VoterStateSpec.set_leader_le|..]; unfold Round.set_leader in E;
    destruct (_ !! _); simpl in E; simplify_eq; by destruct r.
Qed.
Lemma next_timeout_steps v r now d : steps v r (Round.next_timeout_deadline r now d).1.
Proof.
  apply steps_same; [apply VoterStateSpec.next_timeout_le|..]; unfold Round.next_timeout_deadline;
    repeat case_match; by destruct r.
Qed.
Lemma construct_nullify_steps v r : steps v r (Round.construct_nullify r).1.
Proof.
  apply steps_same; [apply VoterStateSpec.construct_nullify_le|..]; unfold Round.construct_nullify;
    case_match; by destruct r.
Qed.
Lemma construct_notarize_steps v r : steps v r (Round.construct_notarize r).1.
Proof.
  apply steps_same; [apply VoterStateSpec.construct_notarize_le|..]; unfold Round.construct_notarize;
    repeat case_match; by destruct r.
Qed.
Lemma construct_finalize_steps v r : steps v r (Round.construct_finalize r).1.
Proof.
  apply steps_same; [apply VoterStateSpec.construct_finalize_le|..]; unfold Round.construct_finalize;
    repeat case_match; by destruct r.
Qed.
Lemma broadcast_nullification_steps v r : steps v r (Round.broadcast_nullification r).1.
Proof.
  apply steps_same; [apply VoterStateSpec.broadcast_nullification_le|..];
    unfold Round.broadcast_nullification; repeat case_match; by destruct r.
Qed.
Lemma broadcast_finalization_steps v r : steps v r (Round.broadcast_finalization r).1.
Proof.
  apply steps_same; [apply VoterStateSpec.broadcast_finalization_le|..];
    unfold Round.broadcast_finalization; repeat case_match; by destruct r.
Qed.
Lemma set_certify_handle_steps v r x : steps v r (Round.set_certify_handle r x).
Proof. apply steps_same; [apply VoterStateSpec.set_certify_handle_le|by destruct r..]. Qed.
Lemma unset_certify_handle_steps v r : steps v r (Round.unset_certify_handle r).
Proof. apply steps_same; [apply VoterStateSpec.unset_certify_handle_le|by destruct r..]. Qed.
Lemma certified_steps v r b r' : is_Some (r_notarization r) → Round.certified r b = Some r' → steps v r r'.
Proof.
  intros Hn E. apply steps_same; [by eapply VoterStateSpec.certified_le|..]; unfold Round.certified in E;
    repeat case_match; simplify_eq; by destruct r.
Qed.

Lemma broadcast_notarization_steps v r : steps v r (Round.broadcast_notarization r).1.
Proof.
  split; [intros _; apply VoterStateSpec.broadcast_notarization_le|..]; unfold Round.broadcast_notarization;
    repeat case_match; try done; try (by destruct r).
  intros _ []. destruct r. split; simpl in *; unfold constant; try done; intros _; by eexists.
Qed.

Lemma try_propose_steps v r : steps v r (Round.try_propose r).1.
Proof.
  pose proof (VoterStateSpec.try_propose_le r) as Hle. unfold Round.try_propose in *.
  case_match; [|done]. simpl in *. destruct r. apply steps_slot; simpl; try done.
  intros _. apply slot_just_building.
Qed.

Lemma try_verify_steps v r p : sl_proposal (r_slot r) = Some p → vouched p → steps v r (Round.try_verify r).1.
Proof.
  intros E Hp. pose proof (VoterStateSpec.try_verify_le r) as Hle. unfold Round.try_verify in *.
  case_match; [|done]. pose proof (slot_just_request v (r_slot r) p E Hp) as Hj.
  pose proof (request_requested (r_slot r)) as Hq. pose proof (λ q, Slot.agrees_request_verify (r_slot r) q) as Ha.
  destruct (Slot.request_verify _) as [sl b]. simpl in *. destruct r. apply steps_slot; simpl; auto.
Qed.

Lemma proposed_steps v r p : proposal_view p = v → vouched p → steps v r (Round.proposed r p).1.
Proof.
  intros Hv Hp. pose proof (VoterStateSpec.proposed_le r p) as Hle. unfold Round.proposed in *.
  case_match; [done|]. destruct r. apply steps_slot; simpl in *; try done.
  - intros _. by apply slot_just_built.
  - intros q Hw. by apply Slot.agrees_built.
  - apply built_requested.
Qed.

Lemma verified_steps v r : requested_verify (r_slot r) = true → steps v r (Round.verified r).1.
Proof.
  intros Hr. pose proof (VoterStateSpec.verified_le r) as Hle. unfold Round.verified in *.
  case_match; [done|]. pose proof (slot_just_verified v (r_slot r) Hr) as Hj.
  pose proof (mark_requested (r_slot r)) as Hq. pose proof (λ q, Slot.agrees_mark_verified (r_slot r) q) as Ha.
  destruct (Slot.mark_verified _) as [sl ok]. simpl in *. destruct r.
  rewrite <- Hq in *. destruct ok; apply steps_slot; simpl in *; unfold constant in *; auto.
Qed.

Lemma set_proposal_steps v r p : proposal_view p = v → steps v r (Round.set_proposal r p).1.
Proof.
  intros Hv. pose proof (VoterStateSpec.set_proposal_le r p) as Hle. unfold Round.set_proposal in *.
  case_match; [done|]. pose proof (slot_just_update v (r_slot r) p Hv) as Hj.
  pose proof (update_requested (r_slot r) p false) as Hq.
  pose proof (λ q, Slot.agrees_update (r_slot r) q p false) as Ha.
  destruct (Slot.update _ _ _) as [sl ch]. simpl in *. destruct r.
  destruct ch; apply steps_slot; simpl in *; unfold constant in *; auto.
Qed.

(** *** Certificates *)

Lemma recovered_slot v r p : proposal_view p = v → vouched p →
  slot_just v (r_slot r) → let r' := (Round.add_recovered_proposal (Round.clear_deadlines r) p).1 in
  slot_just v (r_slot r') ∧ Slot.agrees (r_slot r') p ∧
  (∀ q, Slot.agrees (r_slot r) q → Slot.agrees (r_slot r') q) ∧
  (requested_verify (r_slot r) = true → requested_verify (r_slot r') = true).
Proof.
  intros Hv Hp Hs. unfold Round.add_recovered_proposal.
  pose proof (slot_just_recovered v (r_slot r) p Hv Hp Hs) as H1. pose proof (update_requested (r_slot r) p true) as H2.
  pose proof (λ q, Slot.agrees_update (r_slot r) q p true) as H3. pose proof (Slot.update_recovered (r_slot r) p) as H4.
  destruct r. simpl in *. destruct (Slot.update _ _ _) as [sl ch]. simpl in *. unfold constant.
  split_and!; try done. destruct H4 as [[? ?]|?]; [by left|by right].
Qed.

Lemma recovered_fields r p : let r' := (Round.add_recovered_proposal (Round.clear_deadlines r) p).1 in
  r_notarization r' = r_notarization r ∧ r_nullification r' = r_nullification r ∧
  r_finalization r' = r_finalization r ∧ b_notarization r' = b_notarization r ∧
  (requested_verify (r_slot r) = true → requested_verify (r_slot r') = true).
Proof.
  unfold Round.add_recovered_proposal. pose proof (update_requested (r_slot r) p true) as H. destruct r; simpl in *.
  by destruct (Slot.update _ _ _).
Qed.

Lemma add_notarization_steps v r n : CNotarization n ∈ R → proposal_view (nz_proposal n) = v →
  steps v r (Round.add_notarization r n).1.
Proof.
  intros Hin Hv. split.
  - intros Hok. by apply VoterStateSpec.add_notarization_le.
  - intros _ Hr. unfold Round.add_notarization. destruct (r_notarization r) eqn:En; [done|].
    assert (vouched (nz_proposal n)) as Hp by (left; by exists (CNotarization n)).
    destruct (recovered_slot v r (nz_proposal n) Hv Hp (rj_slot _ _ Hr)) as (H1 & H2 & _).
    destruct (recovered_fields r (nz_proposal n)) as (E1 & E2 & E3 & E4 & _).
    destruct (Round.add_recovered_proposal _ _) as [r' e]. simpl in *. destruct Hr, r'; simpl in *.
    rewrite <- E2 in *. rewrite <- E3 in *. split; simpl; unfold constant; first [done | by intros ? [= <-] | by eexists].
  - unfold Round.add_notarization. destruct (r_notarization r); [done|].
    destruct (recovered_fields r (nz_proposal n)) as (_ & _ & _ & _ & H).
    destruct (Round.add_recovered_proposal _ _) as [r' e]. by destruct r'.
Qed.

Lemma add_finalization_steps v r f : CFinalization f ∈ R → proposal_view (fzz_proposal f) = v → 0 ≤ v →
  steps v r (Round.add_finalization r f).1.
Proof.
  intros Hin Hv H0. split.
  - intros Hok. by apply VoterStateSpec.add_finalization_le.
  - intros _ Hr. unfold Round.add_finalization. destruct (r_finalization r) eqn:En; [done|].
    assert (vouched (fzz_proposal f)) as Hp by (left; by exists (CFinalization f)).
    destruct (recovered_slot v r (fzz_proposal f) Hv Hp (rj_slot _ _ Hr)) as (H1 & _ & H3 & _).
    destruct (recovered_fields r (fzz_proposal f)) as (E1 & E2 & E3 & E4 & _).
    destruct (Round.add_recovered_proposal _ _) as [r' e]. simpl in *. destruct Hr, r'; simpl in *.
    rewrite <- E1 in *. rewrite <- E2 in *. rewrite <- E4 in *. split; simpl; unfold constant; try done.
    + intros m Hm. destruct (rj_notarization0 m Hm) as (? & ? & ?). auto.
    + by intros ? [= <-].
  - unfold Round.add_finalization. destruct (r_finalization r); [done|].
    destruct (recovered_fields r (fzz_proposal f)) as (_ & _ & _ & _ & H).
    destruct (Round.add_recovered_proposal _ _) as [r' e]. by destruct r'.
Qed.

Lemma add_nullification_steps v r n : CNullification n ∈ R → rnd_view (nlz_round n) = v →
  steps v r (Round.add_nullification r n).1.
Proof.
  intros Hin Hv. split; [intros _; apply VoterStateSpec.add_nullification_le|..];
    unfold Round.add_nullification; case_match; try done; try (by destruct r).
  intros _ []. destruct r. split; simpl in *; unfold constant; try done. by intros ? [= <-].
Qed.

(** ** States *)

Definition rounds_just st : Prop := ∀ v r, views st !! v = Some r → round_just v r.

Record jsteps st st' : Prop := {
  js_just : VoterStateSpec.rounds_ok st → rounds_just st → VoterStateSpec.rounds_ok st' ∧ rounds_just st';
  js_requested v r : views st !! v = Some r → requested_verify (r_slot r) = true →
    ∃ r', views st' !! v = Some r' ∧ requested_verify (r_slot r') = true;
}.

#[global] Instance jsteps_preorder : PreOrder jsteps.
Proof.
  split; [intros st; split; [done|eauto]|]. intros st1 st2 st3 [J1 Q1] [J2 Q2]. split.
  - intros H1 H2. destruct (J1 H1 H2). auto.
  - intros v r Hr Hq. destruct (Q1 v r Hr Hq) as (r2 & ? & ?). eauto.
Qed.

Lemma jsteps_fields st st' : views st' = views st → jsteps st st'.
Proof. intros E. unfold VoterStateSpec.rounds_ok, rounds_just. split; unfold VoterStateSpec.rounds_ok, rounds_just; rewrite E; eauto. Qed.

Lemma jsteps_put now st v r : steps v (VoterState.entry now st v) r → jsteps st (VoterState.put st v r).
Proof.
  intros [Hle Hj Hq]. split.
  - intros Ho Hr. assert (VoterStateSpec.round_ok (VoterState.entry now st v)) as Hok.
    { eapply VoterStateSpec.from_ok; [done|apply VoterStateSpec.from_entry]. }
    assert (round_just v (VoterState.entry now st v)) as Hrj.
    { unfold VoterState.entry. destruct (views st !! v) eqn:E; [by eapply Hr|apply round_just_new]. }
    split; intros w r'; simpl; unfold constant; intros [[<- <-]|[_ Hw]]%lookup_insert_Some.
    + by apply (VoterStateSpec.rl_ok _ _ (Hle Hok)).
    + by eapply Ho.
    + auto.
    + by eapply Hr.
  - intros w r' Hw Hr'. simpl. unfold constant. destruct (decide (v = w)) as [<-|Hne].
    + rewrite lookup_insert_eq. eexists. split; [done|]. apply Hq. unfold VoterState.entry. by rewrite Hw.
    + rewrite lookup_insert_ne by done. eauto.
Qed.

Lemma jsteps_tracked st v r r' : views st !! v = Some r → steps v r r' → jsteps st (VoterState.put st v r').
Proof. intros E H. apply (jsteps_put 0). by rewrite (VoterRefinement.entry_lookup _ _ _ _ E). Qed.

Lemma on_round_jsteps {A} st v (f : Round → Round * option A) :
  (∀ r, views st !! v = Some r → steps v r (f r).1) → jsteps st (VoterState.on_round st v f).1.
Proof.
  intros H. unfold VoterState.on_round. destruct (views st !! v) as [r|] eqn:E; [|done].
  specialize (H r eq_refl). destruct (f r). by eapply jsteps_tracked.
Qed.

Lemma enter_view_jsteps now st v : jsteps st (VoterState.enter_view now st v).1.
Proof.
  unfold VoterState.enter_view. case_match; [done|]. simpl.
  etrans; [eapply (jsteps_put now), set_deadlines_steps|by apply jsteps_fields].
Qed.
Lemma set_leader_jsteps now st v c st' : VoterState.set_leader now st v c = Some st' → jsteps st st'.
Proof.
  unfold VoterState.set_leader. case_match; simpl; [intros [= <-]; by eapply (jsteps_put now)|].
  destruct (Round.set_leader _ _) eqn:E; simpl; [|done]. intros [= <-].
  by eapply (jsteps_put now), set_leader_steps.
Qed.
Lemma prepares_jsteps now st st' : VoterRefinementLoop.prepares now st st' → jsteps st st'.
Proof.
  induction 1 as [|st1 v _ IH _|st1 v _ IH|st1 v c st2 _ IH E]; [done|etrans; [exact IH|]..].
  - by apply jsteps_fields; destruct st1.
  - apply enter_view_jsteps.
  - by eapply set_leader_jsteps.
Qed.

Lemma add_notarization_jsteps now st n st' res : CNotarization n ∈ R →
  VoterState.add_notarization now st n = Some (st', res) → jsteps st st'.
Proof.
  intros Hin E. destruct (VoterRefinementLoop.add_notarization_prepares _ _ _ _ _ E)
    as (st1 & Hp%prepares_jsteps & _ & _ & _ & ->).
  etrans; [done|]. by eapply (jsteps_put now), add_notarization_steps.
Qed.
Lemma add_nullification_jsteps now st n st' res : CNullification n ∈ R →
  VoterState.add_nullification now st n = Some (st', res) → jsteps st st'.
Proof.
  intros Hin E. destruct (VoterRefinementLoop.add_nullification_prepares _ _ _ _ _ E)
    as (st1 & Hp%prepares_jsteps & _ & _ & _ & ->).
  etrans; [done|]. by eapply (jsteps_put now), add_nullification_steps.
Qed.
Lemma add_finalization_jsteps now st f st' res : CFinalization f ∈ R → 0 ≤ proposal_view (fzz_proposal f) →
  VoterState.add_finalization now st f = Some (st', res) → jsteps st st'.
Proof.
  intros Hin H0 E. destruct (VoterRefinementLoop.add_finalization_prepares _ _ _ _ _ E)
    as (st1 & Hp%prepares_jsteps & _ & _ & ->).
  etrans; [done|]. by eapply (jsteps_put now), add_finalization_steps.
Qed.

Lemma certified_jsteps now st v b st' res : VoterState.certified now st v b = Some (st', res) → jsteps st st'.
Proof.
  unfold VoterState.certified. destruct (views st !! v) as [r|] eqn:Er; [|by intros [= <- <-]].
  destruct (Round.certified r b) as [r1|] eqn:E1; simpl; [|done].
  destruct (r_notarization r1) as [n|] eqn:En; simpl; [|done].
  destruct (VoterRefinementLoop.round_certified_fields _ _ _ E1) as (_ & E & _). rewrite E in En.
  assert (jsteps st (VoterState.put st v r1)) as H1.
  { eapply jsteps_tracked; [done|]. eapply certified_steps; [by eexists|done]. }
  destruct b.
  - destruct (View.next v); simpl; [|done]. intros [= <- _]. etrans; [exact H1|apply enter_view_jsteps].
  - intros [= <- _]. unfold VoterState.expire_round.
    rewrite VoterRefinement.entry_put, VoterRefinementLoop.put_put. eapply jsteps_tracked; [done|].
    etrans; [|apply set_deadlines_steps]. by eapply certified_steps; [by eexists|].
Qed.

(** *** Parents *)

Lemma certified_parent st u d : rounds_just st → VoterStateSpec.rounds_ok st → VoterStateSpec.certified_as st u d →
  u = 0 ∨ ∃ c q, c ∈ R ∧ cert_proposal c = Some q ∧ proposal_view q = u.
Proof.
  intros Hj Ho [[-> _]|(_ & r & q & Er & Hc & _)]; [by left|right].
  destruct (Hj _ _ Er) as [_ J1 _ J3 _]. destruct Hc as [[f Hf]|Hc].
  - destruct (J3 f Hf) as (? & ? & _). by exists (CFinalization f), (fzz_proposal f).
  - destruct (VoterStateSpec.ro_certified _ (Ho _ _ Er)) as [n Hn]; [by eexists|].
    destruct (J1 n Hn) as (? & ? & _). by exists (CNotarization n), (nz_proposal n).
Qed.

Lemma nullified_between st w : rounds_just st → VoterStateSpec.nullified_at st w →
  ∃ n, CNullification n ∈ R ∧ rnd_view (nlz_round n) = w.
Proof.
  intros Hj [_ [n Hn]]. unfold VoterState.nullification in Hn. destruct (views st !! w) as [r|] eqn:E; [|done].
  exists n. by apply (rj_nullification _ _ (Hj _ _ E)).
Qed.

Lemma find_parent_justified st v u d : VoterStateSpec.wf st → rounds_just st → 1 ≤ v →
  VoterState.find_parent st v = Ok (u, d) → justified v u.
Proof.
  intros Hw Hj Hv E. pose proof (VoterStateSpec.find_parent_spec st v Hw Hv) as H. rewrite E in H.
  destruct H as (Hu & Hc & Hs). split; [lia| |].
  - intros w Hw'. by apply (nullified_between st), Hs; [|lia].
  - by eapply certified_parent; [..|done]; [|apply Hw].
Qed.

Lemma parent_payload_justified st p d : VoterStateSpec.wf st → rounds_just st → proposal_view p < 2 ^ 64 →
  VoterState.parent_payload st p = Some (Some d) → justified (proposal_view p) (parent p).
Proof.
  intros Hw Hj Hv E. destruct (VoterStateSpec.parent_payload_spec st p Hw Hv) as (o & Eo & H).
  rewrite E in Eo. injection Eo as <-. destruct (proj1 (H d) eq_refl) as (? & Hn & Hc). split; [lia| |].
  - intros w Hw'. by eapply nullified_between, Hn.
  - by eapply certified_parent; [..|done]; [|apply Hw].
Qed.

Lemma try_propose_jsteps st st' ctx : VoterStateSpec.wf st → rounds_just st →
  VoterState.try_propose st = Some (st', ctx) → jsteps st st' ∧ view st' = view st ∧
  ∀ c, ctx = Some c → rnd_view (ctx_round c) = view st ∧ justified (view st) (ctx_parent c).1.
Proof.
  intros Hw Hj. unfold VoterState.try_propose. destruct (Z.eqb_spec (view st) VoterState.GENESIS_VIEW) as [|Hv];
    [by intros [= <- <-]|]. change VoterState.GENESIS_VIEW with 0 in Hv.
  destruct (views st !! view st) as [r|] eqn:E; simpl; [|done].
  case_match; [by intros [= <- <-]|]. destruct (VoterState.find_parent _ _) as [[u d]| |] eqn:Ef; [|by intros [= <- <-]|done].
  apply find_parent_justified in Ef; [|done..|pose proof (VoterStateSpec.w_finalized _ Hw); lia].
  pose proof (try_propose_steps (view st) r) as Hs. destruct (Round.try_propose r) as [r' l].
  intros [= <- <-]. split; [by eapply jsteps_tracked|]. split; [done|].
  intros c. destruct l; simpl; [|done]. by intros [= <-].
Qed.

Lemma try_verify_jsteps st st' res : VoterStateSpec.wf st → rounds_just st →
  VoterState.try_verify st = Some (st', res) → jsteps st st' ∧ view st' = view st ∧
  ∀ c p, res = Some (c, p) → rnd_view (ctx_round c) = view st ∧
    ∃ r, views st' !! view st = Some r ∧ requested_verify (r_slot r) = true.
Proof.
  intros Hw Hj. unfold VoterState.try_verify.
  destruct (views st !! view st) as [r|] eqn:E; simpl; [|by intros [= <- <-]].
  destruct (Round.should_verify r) as [[l p]|] eqn:Es; [|by intros [= <- <-]].
  assert (sl_proposal (r_slot r) = Some p) as Ep.
  { unfold Round.should_verify in Es. destruct (Round.verify_ready r); simpl in Es; [|done].
    destruct (sl_proposal (r_slot r)); simpl in Es; [|done]. by injection Es as <- <-. }
  pose proof (sj_view _ _ (rj_slot _ _ (Hj _ _ E)) p Ep) as Hpv.
  destruct (VoterState.parent_payload st p) as [[d|]|] eqn:Epp; simpl; [|by intros [= <- <-]|done].
  apply parent_payload_justified in Epp; [|done..|rewrite Hpv; apply Hw].
  pose proof (try_verify_steps (view st) r p Ep (or_intror Epp)) as Hs.
  assert ((Round.try_verify r).2 = true → requested_verify (r_slot (Round.try_verify r).1) = true) as Hq.
  { unfold Round.try_verify. case_match; [|done]. pose proof (request_requested (r_slot r)) as Hq.
    destruct (Slot.request_verify _). destruct r. done. }
  destruct (Round.try_verify r) as [r' ok]. simpl in *. intros [= <- <-].
  split; [by eapply jsteps_tracked|]. split; [done|]. intros c q. destruct ok; [|done]. intros [= <- <-].
  split; [done|]. exists r'. split; [apply VoterRefinementLoop.lookup_put|auto].
Qed.
End Justified.
End VoterJustified.
