(* ===== verification/VoterJustifiedLoop.v ===== *)
(** * The justification invariant through the event loop

    [jinv R] holds of a running actor whose rounds, requests, journal and sent
    votes are within what the certificates [R] vouch for.  Every turn keeps it,
    crashes in the middle of a turn leave a disk and votes that a start can build
    it from again, and so every notarize vote of a reachable node is vouched for
    by the certificates delivered to the node. *)

From S2P Require Import Prelude Codec ConsensusTypes SimplexTypes SimplexEvidence VoterSlot VoterRound.
From S2P Require Import VoterJournal VoterState VoterStateSpec VoterActor VoterActorLogic VoterRefinement.
From S2P Require Import VoterRefinementLoop VoterRefinementStart VoterJustified Fixtures.
Import VoterActor VoterActorLogic VoterJustified.

Module VoterJustifiedLoop.
Section Loop.
Context {T : Types} (R : list Cert).
Implicit Types st : State.
Implicit Types v : Z.

Notation justified := (justified R).
Notation vouched := (vouched R).
Notation rounds_just := (rounds_just R).
Notation jsteps := (jsteps R).

(** ** The invariant *)

Definition artifact_just (x : Artifact) : Prop :=
  match x with
  | ANotarize n => vouched (nt_proposal n)
  | ANotarization n => CNotarization n ∈ R
  | ANullification n => CNullification n ∈ R
  | AFinalization f => CFinalization f ∈ R ∧ 0 ≤ proposal_view (fzz_proposal f)
  | ACertification _ _ | ANullify _ | AFinalize _ => True
  end.

(** A finalize vote follows a notarization certificate. *)
Definition vote_just (x : Vote) : Prop :=
  match x with
  | VNotarize n => vouched (nt_proposal n)
  | VFinalize f => ∃ n, CNotarization n ∈ R ∧ nz_proposal n = fz_proposal f
  | VNullify _ => True
  end.

Definition disk_just (d : Disk) : Prop := ∀ v x, x ∈ (section d v).1 → artifact_just x.
Definition sent_just (s : list Vote) : Prop := ∀ x, x ∈ s → vote_just x.
Definition jcrash (d : Disk) (s : list Vote) : Prop := disk_just d ∧ sent_just s.

(** The slot that a pending verification is about was requested. *)
Definition requested_ok (ctx : Context_) st : Prop :=
  rnd_view (ctx_round ctx) ≤ view st ∧
  (rnd_view (ctx_round ctx) = view st →
   ∃ r, views st !! rnd_view (ctx_round ctx) = Some r ∧ requested_verify (r_slot r) = true).

(** With [fresh], a pending verification is for the current view. *)
Record jinv (fresh : bool) (a : Actor) (d : Disk) (s : list Vote) : Prop := {
  jv_wf : VoterStateSpec.wf (ac_state a);
  jv_rounds : rounds_just (ac_state a);
  jv_propose ctx : pending_propose a = Some ctx → justified (rnd_view (ctx_round ctx)) (ctx_parent ctx).1;
  jv_verify ctx : pending_verify a = Some ctx → requested_ok ctx (ac_state a);
  jv_fresh ctx : fresh = true → pending_verify a = Some ctx → rnd_view (ctx_round ctx) = view (ac_state a);
  jv_disk : disk_just d;
  jv_sent : sent_just s;
}.

Notation triple P m Q := (VoterActorLogic.triple jcrash P m Q).

Lemma jinv_stale b a d s : jinv b a d s → jinv false a d s.
Proof. by intros []. Qed.
Lemma jinv_crash b a d s : jinv b a d s → jcrash d s.
Proof. by intros []. Qed.

Lemma requested_ok_steps ctx st st' : jsteps st st' → view st ≤ view st' →
  requested_ok ctx st → requested_ok ctx st'.
Proof.
  intros [_ Hq] Hv [Hle Hr]. split; [lia|]. intros E. destruct (Hr ltac:(lia)) as (r & Hl & Hreq). eauto.
Qed.

Lemma jinv_state b a d s now o st' : jinv b a d s → VoterStateSpec.exec now o (ac_state a) = Some st' →
  VoterStateSpec.op_ok o → jsteps (ac_state a) st' → (b = true → view st' = view (ac_state a)) →
  jinv b (a {{ ac_state := st' }}) d s.
Proof.
  intros [] E Ho Hs Hb. destruct (VoterStateSpec.exec_wf now o _ _ jv_wf0 Ho E) as (Hw & Hv & _).
  destruct a; simpl in *. split; simpl; unfold constant; try done.
  - by apply (js_just _ _ _ Hs (VoterStateSpec.w_rounds _ jv_wf0)).
  - intros ctx Hc. eapply requested_ok_steps; [done..|auto].
  - intros ctx Ht Hc. rewrite Hb by done. auto.
Qed.

(** ** Effects *)

Definition effect_just (e : Effect) : Prop :=
  match e with
  | EAppend _ x => artifact_just x
  | EVote x => vote_just x
  | _ => True
  end.

Lemma section_effect d e d' v x : apply_effect d e = Some d' → x ∈ (section d' v).1 →
  x ∈ (section d v).1 ∨ ∃ w, e = EAppend w x.
Proof.
  destruct e; simpl; try (intros [= <-]; by left).
  - intros ->%append_Some. rewrite VoterRefinement.section_insert. case_decide as Ev; [subst|by left]. simpl.
    intros [Hx| ->%list_elem_of_singleton]%elem_of_app; [by left|right; eauto].
  - intros ->%sync_Some. rewrite VoterRefinement.section_sync. case_decide; [subst|]; by left.
  - intros [= <-]. unfold section. simpl. destruct (filter _ (sections d) !! v) as [y|] eqn:E; simpl.
    + apply map_lookup_filter_Some in E as [-> _]. by left.
    + by intros ?%not_elem_of_nil.
  - intros [= <-]. unfold section. simpl. rewrite lookup_fmap. destruct (sections d !! v); by left.
Qed.

Lemma disk_just_effect d e d' : disk_just d → effect_just e → apply_effect d e = Some d' → disk_just d'.
Proof. intros Hd He E v x Hx. destruct (section_effect _ _ _ _ _ E Hx) as [H|[w ->]]; [by eapply Hd|done]. Qed.

Lemma sent_just_effect s e : sent_just s → effect_just e → sent_just (s ++ votes [e]).
Proof.
  intros Hs He x [Hx|Hx]%elem_of_app; [auto|]. destruct e; simpl in Hx; try (by apply not_elem_of_nil in Hx).
  by apply list_elem_of_singleton in Hx as ->.
Qed.

Lemma jcrash_effect d s e d' : jcrash d s → effect_just e → apply_effects d [e] = Some d' →
  jcrash d' (s ++ votes [e]).
Proof.
  intros [Hd Hs] He. change (apply_effects d [e]) with (d1 ← apply_effect d e; Some d1).
  destruct (apply_effect d e) as [d1|] eqn:E; simpl; [|done]. intros [= <-].
  split; [by eapply disk_just_effect|by apply sent_just_effect].
Qed.

Lemma triple_j_emit b e : effect_just e → triple (jinv b) (emit e) (λ _, jinv b).
Proof.
  intros He a d s Hj. pose proof (jinv_crash _ _ _ _ Hj) as Hc. unfold emit. split; simpl fst; simpl snd.
  - intros es d' Hcp Hne Ha.
    apply crash_point_cons in Hcp as [->|[(es' & -> & Hcp)|(m & m' & -> & Hm & ->)]]; [done|..].
    + apply crash_point_nil in Hcp as ->. by eapply jcrash_effect.
    + by eapply jcrash_effect.
  - intros ? ? d' [= <- <-] Ha. destruct (jcrash_effect _ _ _ _ Hc He Ha) as [H1 H2]. by destruct Hj.
Qed.

Lemma append_journal_just b v x : artifact_just x → triple (jinv b) (append_journal v x) (λ _, jinv b).
Proof.
  intros Hx. unfold append_journal. eapply triple_bind; [by apply triple_gets with (Q := λ _, jinv b)|].
  intros live. apply triple_when; [|done]. intros _. by apply triple_j_emit.
Qed.
Lemma sync_journal_just b v : triple (jinv b) (sync_journal v) (λ _, jinv b).
Proof.
  unfold sync_journal. eapply triple_bind; [by apply triple_gets with (Q := λ _, jinv b)|].
  intros live. apply triple_when; [|done]. intros _. by apply triple_j_emit.
Qed.

(** ** State operations *)

(** A state operation, with what is known of its result. *)
Lemma triple_j_state {A} b (f : State → State * A) o now (φ : A → Prop) :
  (∀ st, VoterStateSpec.exec now o st = Some (f st).1) → VoterStateSpec.op_ok o →
  (∀ st, VoterStateSpec.wf st → rounds_just st → jsteps st (f st).1 ∧ φ (f st).2) →
  (b = true → ∀ st, view (f st).1 = view st) →
  triple (jinv b) (on_state f) (λ x a d s, jinv b a d s ∧ φ x).
Proof.
  intros He Ho Hs Hb. apply triple_on_state. intros a d s Hj.
  destruct (Hs (ac_state a) (jv_wf _ _ _ _ Hj) (jv_rounds _ _ _ _ Hj)) as [H1 H2].
  split; [|done]. eapply jinv_state; [done|by apply He|done..|auto].
Qed.

Lemma triple_j_state' {A} b (f : State → option (State * A)) o now (φ : A → Prop) :
  (∀ st st' x, f st = Some (st', x) → VoterStateSpec.exec now o st = Some st') → VoterStateSpec.op_ok o →
  (∀ st st' x, VoterStateSpec.wf st → rounds_just st → f st = Some (st', x) → jsteps st st' ∧ φ x) →
  (b = true → ∀ st st' x, f st = Some (st', x) → view st' = view st) →
  triple (jinv b) (on_state' f) (λ x a d s, jinv b a d s ∧ φ x).
Proof.
  intros He Ho Hs Hb. apply triple_on_state'. intros a d s st' x Hj E.
  destruct (Hs _ _ _ (jv_wf _ _ _ _ Hj) (jv_rounds _ _ _ _ Hj) E) as [H1 H2].
  split; [|done]. eapply jinv_state; [done|by eapply He|done..|]. intros Ht. by eapply Hb.
Qed.

Lemma triple_j_pure {A B} b (φ : A → Prop) (m : M A) (k : A → M B) (Q : B → assertion) :
  triple (jinv b) m (λ x a d s, jinv b a d s ∧ φ x) → (∀ x, φ x → triple (jinv b) (k x) Q) →
  triple (jinv b) (bind m k) Q.
Proof. intros Hm Hk. eapply triple_bind; [exact Hm|]. intros x. apply triple_pure. apply Hk. Qed.

Lemma triple_j_forget {A} b (φ : A → Prop) (m : M A) :
  triple (jinv b) m (λ x a d s, jinv b a d s ∧ φ x) → triple (jinv b) m (λ _, jinv b).
Proof. intros H. eapply triple_post; [exact H|]. by intros ? ? ? ? [? _]. Qed.

Lemma triple_j_bind {A B} b (m : M A) (k : A → M B) (Q : B → assertion) :
  triple (jinv b) m (λ _, jinv b) → (∀ x, triple (jinv b) (k x) Q) → triple (jinv b) (bind m k) Q.
Proof. intros. by eapply triple_bind. Qed.
Lemma triple_j_gets {A} b (f : Actor → A) : triple (jinv b) (gets f) (λ _, jinv b).
Proof. by apply triple_gets. Qed.
Lemma triple_j_lift {A} b (o : option A) : triple (jinv b) (lift o) (λ _, jinv b).
Proof. by apply triple_lift. Qed.
Lemma triple_j_ret {A} b (x : A) : triple (jinv b) (ret x) (λ _, jinv b).
Proof. by apply triple_ret. Qed.
Lemma triple_j_when b c m : triple (jinv b) m (λ _, jinv b) → triple (jinv b) (when c m) (λ _, jinv b).
Proof. intros H. by apply triple_when. Qed.

(** A change outside the state and the requests. *)
Lemma triple_j_modify b (f : Actor → Actor) :
  (∀ a, ac_state (f a) = ac_state a) → (∀ a, pending_propose (f a) = pending_propose a) →
  (∀ a, pending_verify (f a) = pending_verify a) → triple (jinv b) (modify f) (λ _, jinv b).
Proof. intros E1 E2 E3. apply triple_modify. intros a d s []. split; rewrite ?E1, ?E2, ?E3; done. Qed.

Lemma update_state_just b (f : State → State) o now :
  (∀ st, VoterStateSpec.exec now o st = Some (f st)) → VoterStateSpec.op_ok o →
  (∀ st, VoterStateSpec.wf st → rounds_just st → jsteps st (f st)) →
  (b = true → ∀ st, view (f st) = view st) → triple (jinv b) (update_state f) (λ _, jinv b).
Proof.
  intros He Ho Hs Hb. eapply triple_post; [apply (triple_j_state b _ o now (λ _, True))|by intros ? ? ? ? [? _]];
    [done..|auto|done].
Qed.

Ltac jstep :=
  repeat first
    [ apply triple_j_ret | apply triple_j_gets | apply triple_j_lift
    | apply append_journal_just; done | apply sync_journal_just
    | apply triple_j_emit; exact I
    | by apply triple_j_modify
    | apply triple_j_bind; [|intros ?]
    | apply triple_j_when
    | match goal with |- VoterActorLogic.triple _ _ (match ?x with _ => _ end) _ => destruct x end ].

(** ** The top of the loop *)

Lemma certify_candidate_just b v : triple (jinv b) (certify_candidate v) (λ _, jinv b).
Proof.
  unfold certify_candidate, try_certify, add_candidate, get_state. jstep.
  apply (update_state_just _ _ (VoterStateSpec.SSetCertifyHandle (rnd_view r) x) 0); [done..| |].
  - intros st _ _. unfold VoterState.set_certify_handle. case_match eqn:E; [|done].
    eapply jsteps_tracked; [done|apply set_certify_handle_steps].
  - intros _ st. unfold VoterState.set_certify_handle. by case_match.
Qed.

Lemma try_propose_just : triple (jinv true) try_propose (λ p a d s, jinv true a d s ∧
  ∀ c, p = Some c → justified (rnd_view (ctx_round c)) (ctx_parent c).1).
Proof.
  unfold try_propose.
  eapply (triple_j_pure true (λ p, ∀ c, p = Some c → justified (rnd_view (ctx_round c)) (ctx_parent c).1)).
  - apply (triple_j_state' true _ VoterStateSpec.STryPropose 0); [|done|..].
    + intros st st' x E. simpl. by rewrite E.
    + intros st st' x Hw Hj E. destruct (try_propose_jsteps R st st' x Hw Hj E) as (H1 & _ & H2).
      split; [done|]. intros c ->. by destruct (H2 c eq_refl) as [-> ?].
    + intros _ st st' x. unfold VoterState.try_propose. case_match; [by intros [= <- _]|].
      destruct (views st !! view st); simpl; [|done]. case_match; [by intros [= <- _]|].
      repeat case_match; by intros [= <- _].
  - intros [c|] Hc; [|by apply triple_ret].
    eapply triple_bind; [by apply triple_j_emit|]. intros []. by apply triple_ret.
Qed.

Lemma try_verify_just : triple (jinv true) try_verify (λ p a d s, jinv true a d s ∧
  ∀ c, p = Some c → rnd_view (ctx_round c) = view (ac_state a) ∧ requested_ok c (ac_state a)).
Proof.
  unfold try_verify. eapply (triple_bind _ _ (λ p a d s, jinv true a d s ∧
    ∀ c q, p = Some (c, q) → rnd_view (ctx_round c) = view (ac_state a) ∧ requested_ok c (ac_state a))).
  - apply triple_on_state'. intros a d s st x Hj E.
    destruct (try_verify_jsteps R _ _ _ (jv_wf _ _ _ _ Hj) (jv_rounds _ _ _ _ Hj) E) as (H1 & Hv & H2).
    split.
    + eapply (jinv_state _ _ _ _ 0 VoterStateSpec.STryVerify); [done|simpl; by rewrite E|done..].
    + intros c q ->. destruct (H2 c q eq_refl) as (Hc & r & Hr & Hq). destruct a; simpl in *. unfold constant.
      split; [congruence|]. split; [lia|]. intros _. exists r. by rewrite Hc.
  - intros [[c q]|]; [|apply triple_ret; intros a d s [? _]; done].
    set (P := λ a d s, jinv true a d s ∧ rnd_view (ctx_round c) = view (ac_state a) ∧ requested_ok c (ac_state a)).
    apply (triple_conseq P) with (Q := λ p a d s, p = Some c ∧ P a d s).
    + apply (triple_bind _ _ (λ _, P)).
      * apply triple_emit; [done| |done]. intros a d s [Hj _]. by eapply jinv_crash.
      * intros []. by apply triple_ret.
    + intros a d s [Hj Hc]. split; [done|by eapply Hc].
    + intros p a d s [-> [Hj Hc]]. split; [done|]. by intros ? [= <-].
Qed.

Lemma set_pending_propose_just b p : (∀ c, p = Some c → justified (rnd_view (ctx_round c)) (ctx_parent c).1) →
  triple (jinv b) (set_pending_propose p) (λ _, jinv b).
Proof.
  intros Hp. apply triple_modify. intros a d s []. destruct a; split; simpl in *; unfold constant; done.
Qed.

Lemma drop_stale_Some v p c : drop_stale v p = Some c → p = Some c ∧ rnd_view (ctx_round c) = v.
Proof.
  unfold drop_stale. destruct p as [c'|]; simpl; [|done].
  destruct (Z.eqb_spec (rnd_view (ctx_round c')) v); [|done]. by intros [= <-].
Qed.

Lemma loop_top_just now : triple (jinv false) (loop_top now) (λ _, jinv true).
Proof.
  unfold loop_top. eapply (triple_bind _ _ (λ _, jinv true)).
  { apply triple_modify. intros a d s []. destruct a; split; simpl in *; unfold constant; try done.
    - intros c [-> _]%drop_stale_Some. auto.
    - intros c [-> _]%drop_stale_Some. auto.
    - by intros c _ [_ E]%drop_stale_Some. }
  intros _. apply triple_j_bind; [apply triple_j_gets|intros pp]. apply triple_j_bind.
  { destruct pp; [apply triple_j_ret|]. eapply triple_j_pure; [apply try_propose_just|].
    intros p Hp. by apply set_pending_propose_just. }
  intros _. apply triple_j_bind; [apply triple_j_gets|intros pv]. apply triple_j_bind.
  { destruct pv; [apply triple_j_ret|]. eapply triple_bind; [apply try_verify_just|].
    intros p. apply triple_modify. intros a d s [[] Hp]. destruct a; split; simpl in *; unfold constant; try done.
    - intros c Hc. by destruct (Hp c Hc).
    - intros c _ Hc. by destruct (Hp c Hc). }
  intros _. unfold get_state. jstep.
  - apply triple_each. intros w. apply certify_candidate_just.
  - apply (triple_j_forget true (λ _, True)).
    apply (triple_j_state true _ VoterStateSpec.SNextTimeout now (λ _, True)); [done..| |].
    + intros st _ _. split; [|done]. unfold VoterState.next_timeout_deadline.
      pose proof (next_timeout_steps R (view st) (VoterState.entry now st (view st)) now (st_nullify_retry st)) as H.
      destruct (Round.next_timeout_deadline _ _ _). by eapply jsteps_put.
    + intros _ st. unfold VoterState.next_timeout_deadline. by destruct (Round.next_timeout_deadline _ _ _).
Qed.

(** ** Votes and certificates *)

Ltac jresult := apply (triple_j_forget false (λ _, True)).

Lemma handle_timeout_just now : triple (jinv false) (handle_timeout now) (λ _, jinv false).
Proof.
  unfold handle_timeout. apply triple_j_bind.
  - jresult. apply (triple_j_state false _ VoterStateSpec.SHandleTimeout now (λ _, True)); [done..| |done].
    intros st _ _. split; [|done]. destruct (VoterRefinementLoop.state_handle_timeout now st) as [-> _].
    eapply jsteps_put, construct_nullify_steps.
  - intros [[retry n] entry]. unfold handle_nullify, broadcast_vote, broadcast_certificate. jstep.
Qed.

Lemma try_broadcast_notarize_just v : triple (jinv false) (try_broadcast_notarize v) (λ _, jinv false).
Proof.
  unfold try_broadcast_notarize.
  eapply (triple_j_pure false (λ o, ∀ n, o = Some n → vouched (nt_proposal n))).
  - apply (triple_j_state false _ (VoterStateSpec.SConstructNotarize v) 0); [done..| |done].
    intros st Hw Hj. unfold VoterState.construct_notarize.
    pose proof (on_round_jsteps R st v Round.construct_notarize (λ r _, construct_notarize_steps R v r)) as Hs.
    unfold VoterState.on_round in *. destruct (views st !! v) as [r|] eqn:E; [|by split].
    pose proof (Hj _ _ E) as [Hsl _ _ _ _]. unfold Round.construct_notarize in *.
    destruct (b_notarize r || b_nullify r); [by split|].
    destruct (decide (sl_status (r_slot r) = StVerified)) as [Ev|]; [|by split]. split; [done|]. simpl.
    destruct (sl_proposal (r_slot r)) as [p|] eqn:Ep; simpl; [|done]. unfold Notarize_sign.
    destruct (sign _ _ _); simpl; [|done]. intros n [= <-]. by apply (sj_verified _ _ _ Hsl).
  - intros [n|] Hn; [|apply triple_j_ret]. specialize (Hn n eq_refl).
    unfold handle_notarize, broadcast_vote. jstep. by apply triple_j_emit.
Qed.

Lemma try_broadcast_finalize_just v : triple (jinv false) (try_broadcast_finalize v) (λ _, jinv false).
Proof.
  unfold try_broadcast_finalize. eapply (triple_j_pure false (λ o, ∀ f, o = Some f → vote_just (VFinalize f))).
  - apply (triple_j_state false _ (VoterStateSpec.SConstructFinalize v) 0); [done..| |done].
    intros st Hw Hj. unfold VoterState.construct_finalize.
    pose proof (on_round_jsteps R st v Round.construct_finalize (λ r _, construct_finalize_steps R v r)) as Hs.
    unfold VoterState.on_round in *. destruct (views st !! v) as [r|] eqn:E; [|by split].
    pose proof (Hj _ _ E) as [_ J1 _ _ J4]. unfold Round.construct_finalize in *.
    destruct (b_finalize r || b_nullify r); [by split|].
    destruct (negb (b_notarize r) || negb (b_notarization r)) eqn:Eb; [by split|].
    destruct (decide (sl_status (r_slot r) = StVerified)) as [Ev|]; [|by split].
    destruct (Round.is_certified r); [|by split]. split; [done|]. simpl.
    apply orb_false_iff in Eb as [_ Eb]. apply negb_false_iff in Eb. destruct (J4 Eb) as [n Hn].
    destruct (J1 n Hn) as (Hin & _ & Hag).
    destruct (sl_proposal (r_slot r)) as [p|] eqn:Ep; simpl; [|done]. unfold Finalize_sign.
    destruct (sign _ _ _); simpl; [|done]. intros f [= <-]. exists n. split; [done|].
    simpl. destruct Hag as [[_ ?]|?]; congruence.
  - intros [f|] Hf; [|apply triple_j_ret]. specialize (Hf f eq_refl).
    unfold handle_finalize, broadcast_vote. jstep. by apply triple_j_emit.
Qed.

Lemma handle_notarization_just now n : CNotarization n ∈ R →
  triple (jinv false) (handle_notarization now n) (λ _, jinv false).
Proof.
  intros Hin. unfold handle_notarization, add_candidate, block_equivocator. apply triple_j_bind.
  - jresult. apply (triple_j_state' false _ (VoterStateSpec.SAddNotarization n) now (λ _, True)); [|done| |done].
    + intros st st' x E. simpl. by rewrite E.
    + intros st st' x _ _ E. split; [|done]. by eapply add_notarization_jsteps.
  - intros [added k]. jstep.
Qed.

Lemma handle_nullification_just now n : CNullification n ∈ R →
  triple (jinv false) (handle_nullification now n) (λ _, jinv false).
Proof.
  intros Hin. unfold handle_nullification, get_state. apply triple_j_bind.
  - jresult. apply (triple_j_state' false _ (VoterStateSpec.SAddNullification n) now (λ _, True)); [|done| |done].
    + intros st st' x E. simpl. by rewrite E.
    + intros st st' x _ _ E. split; [|done]. by eapply add_nullification_jsteps.
  - intros added. jstep.
Qed.

Lemma handle_finalization_just now f : CFinalization f ∈ R → 0 ≤ proposal_view (fzz_proposal f) →
  triple (jinv false) (handle_finalization now f) (λ _, jinv false).
Proof.
  intros Hin H0. unfold handle_finalization, block_equivocator. apply triple_j_bind.
  - jresult. apply (triple_j_state' false _ (VoterStateSpec.SAddFinalization f) now (λ _, True)); [|done| |done].
    + intros st st' x E. simpl. by rewrite E.
    + intros st st' x _ _ E. split; [|done]. by eapply add_finalization_jsteps.
  - intros [added k]. jstep.
Qed.

Lemma handle_certification_just now v c :
  triple (jinv false) (handle_certification now v c) (λ _, jinv false).
Proof.
  unfold handle_certification, get_state. apply triple_j_bind.
  - jresult. apply (triple_j_state' false _ (VoterStateSpec.SCertified v c) now (λ _, True)); [|done| |done].
    + intros st st' x E. simpl. by rewrite E.
    + intros st st' x _ _ E. split; [|done]. by eapply certified_jsteps.
  - intros [n|]; jstep.
Qed.

Lemma try_broadcast_notarization_just now v resolved :
  triple (jinv false) (try_broadcast_notarization now v resolved) (λ _, jinv false).
Proof.
  unfold try_broadcast_notarization.
  eapply (triple_j_pure false (λ o, ∀ n, o = Some n → CNotarization n ∈ R)).
  - apply (triple_j_state false _ (VoterStateSpec.SBroadcastNotarization v) 0); [done..| |done].
    intros st Hw Hj. split; [apply on_round_jsteps; intros r _; apply broadcast_notarization_steps|].
    unfold VoterState.broadcast_notarization, VoterState.on_round.
    destruct (views st !! v) as [r|] eqn:E; [|done]. destruct (Hj _ _ E) as [_ J1 _ _ _].
    unfold Round.broadcast_notarization. destruct (b_notarization r); [done|].
    destruct (r_notarization r) as [n|]; [|done]. intros ? [= <-]. by destruct (J1 n eq_refl).
  - intros [n|] Hn; [|apply triple_j_ret]. specialize (Hn n eq_refl).
    unfold broadcast_certificate. apply triple_j_bind; [apply triple_j_when; by apply triple_j_emit|intros _].
    apply triple_j_bind; [by apply handle_notarization_just|intros _]. jstep.
Qed.

Lemma try_broadcast_nullification_just now v resolved :
  triple (jinv false) (try_broadcast_nullification now v resolved) (λ _, jinv false).
Proof.
  unfold try_broadcast_nullification.
  eapply (triple_j_pure false (λ o, ∀ n, o = Some n → CNullification n ∈ R)).
  - apply (triple_j_state false _ (VoterStateSpec.SBroadcastNullification v) 0); [done..| |done].
    intros st Hw Hj. split; [apply on_round_jsteps; intros r _; apply broadcast_nullification_steps|].
    unfold VoterState.broadcast_nullification, VoterState.on_round.
    destruct (views st !! v) as [r|] eqn:E; [|done]. destruct (Hj _ _ E) as [_ _ J2 _ _].
    unfold Round.broadcast_nullification. destruct (b_nullification r); [done|].
    destruct (r_nullification r) as [n|]; [|done]. intros ? [= <-]. by destruct (J2 n eq_refl).
  - intros [n|] Hn; [|apply triple_j_ret]. specialize (Hn n eq_refl).
    unfold broadcast_certificate. apply triple_j_bind; [apply triple_j_when; by apply triple_j_emit|intros _].
    apply triple_j_bind; [by apply handle_nullification_just|intros floor]. jstep.
Qed.

Lemma try_broadcast_finalization_just now v resolved :
  triple (jinv false) (try_broadcast_finalization now v resolved) (λ _, jinv false).
Proof.
  unfold try_broadcast_finalization.
  eapply (triple_j_pure false (λ o, ∀ f, o = Some f → CFinalization f ∈ R ∧ 0 ≤ proposal_view (fzz_proposal f))).
  - apply (triple_j_state false _ (VoterStateSpec.SBroadcastFinalization v) 0); [done..| |done].
    intros st Hw Hj. split; [apply on_round_jsteps; intros r _; apply broadcast_finalization_steps|].
    unfold VoterState.broadcast_finalization, VoterState.on_round.
    destruct (views st !! v) as [r|] eqn:E; [|done]. destruct (Hj _ _ E) as [_ _ _ J3 _].
    unfold Round.broadcast_finalization. destruct (b_finalization r); [done|].
    destruct (r_finalization r) as [f|]; [|done]. intros ? [= <-]. destruct (J3 f eq_refl) as (? & -> & ?). done.
  - intros [f|] Hn; [|apply triple_j_ret]. destruct (Hn f eq_refl).
    unfold broadcast_certificate. apply triple_j_bind; [apply triple_j_when; by apply triple_j_emit|intros _].
    apply triple_j_bind; [by apply handle_finalization_just|intros _]. jstep.
Qed.

Lemma notify_just now v resolved : triple (jinv false) (notify now v resolved) (λ _, jinv false).
Proof.
  unfold notify. apply triple_j_bind; [apply try_broadcast_notarize_just|intros _].
  apply triple_j_bind; [apply try_broadcast_notarization_just|intros _].
  apply triple_j_bind; [apply try_broadcast_nullification_just|intros _].
  apply triple_j_bind; [apply try_broadcast_finalize_just|intros _].
  apply try_broadcast_finalization_just.
Qed.

Lemma prune_views_just : triple (jinv false) prune_views (λ _, jinv false).
Proof.
  unfold prune_views. apply triple_j_bind; [|intros removed; unfold get_state; jstep].
  apply triple_on_state. intros a d s Hj. destruct (VoterStateSpec.prune_correct (ac_state a)) as (Hv & _).
  pose proof (VoterStateSpec.prune_wf _ (jv_wf _ _ _ _ Hj)) as Hw.
  pose proof (VoterRefinement.min_active_current _ (jv_wf _ _ _ _ Hj)) as Hm.
  set (st' := (VoterState.prune (ac_state a)).1) in *.
  assert (view st' = view (ac_state a)) as Ev by done. clearbody st'.
  destruct Hj. destruct a; split; simpl in *; unfold constant; try done.
  - intros w r. rewrite Hv. case_decide; [apply jv_rounds0|done].
  - intros ctx Hc. destruct (jv_verify0 ctx Hc) as [Hle Hr]. split; [lia|]. intros E.
    rewrite Hv, decide_True by lia. apply Hr. lia.
Qed.

Lemma update_batcher_just now start active :
  triple (jinv false) (update_batcher now start active) (λ _, jinv false).
Proof.
  unfold update_batcher, get_state. jstep.
  apply (update_state_just _ _ (VoterStateSpec.SExpireRound (view x)) now); [done..| |done].
  intros st _ _. eapply jsteps_put, set_deadlines_steps.
Qed.

(** ** The select *)

Lemma on_proposed_just r : triple (jinv true) (on_proposed r) (λ _, jinv false).
Proof.
  unfold on_proposed.
  apply (triple_bind _ _ (λ pp a d s, jinv false a d s ∧
    ∀ c, pp = Some c → justified (rnd_view (ctx_round c)) (ctx_parent c).1)).
  { apply triple_gets. intros a d s Hj. split; [by eapply jinv_stale|apply Hj]. }
  intros pp. apply triple_pure. intros Hpp. eapply (triple_j_pure false (λ c, pp = Some c)).
  { apply triple_lift. by intros c a d s ->. }
  intros ctx Hctx. apply triple_j_bind; [by apply set_pending_propose_just|intros _].
  destruct r as [d|]; [|apply triple_j_ret]. unfold get_state. apply triple_j_bind; [apply triple_j_gets|intros st].
  case_bool_decide; [apply triple_j_ret|].
  apply triple_j_bind; [|intros ok; jstep]. jresult.
  apply (triple_j_state false _ (VoterStateSpec.SProposed (mkProposal (ctx_round ctx) (ctx_parent ctx).1 d)) 0
    (λ _, True)); [done..| |done].
  intros st' _ _. split; [|done]. unfold VoterState.proposed.
  match goal with |- jsteps _ (match VoterState.on_round ?st ?v ?f with _ => _ end).1 =>
    pose proof (on_round_jsteps R st v f) as H'; destruct (VoterState.on_round st v f) end.
  apply H'. intros r _.
  pose proof (proposed_steps R (rnd_view (ctx_round ctx)) r (mkProposal (ctx_round ctx) (ctx_parent ctx).1 d)
    eq_refl (or_intror (Hpp _ Hctx))) as Hs. by destruct (Round.proposed _ _).
Qed.

Lemma on_verified_just now r : triple (jinv true) (on_verified now r) (λ _, jinv false).
Proof.
  unfold on_verified, set_pending_verify.
  set (P := λ ctx a d s, jinv false a d s ∧ ∀ r, views (ac_state a) !! rnd_view (ctx_round ctx) = Some r →
    requested_verify (r_slot r) = true).
  apply (triple_bind _ _ (λ pv a d s, jinv false a d s ∧ ∀ c, pv = Some c → P c a d s)).
  { apply triple_gets. intros a d s Hj. split; [by eapply jinv_stale|]. intros c Hc.
    split; [by eapply jinv_stale|]. intros r' Hr'. pose proof (jv_fresh _ _ _ _ Hj c eq_refl Hc) as Ev.
    destruct (jv_verify _ _ _ _ Hj c Hc) as [_ H]. destruct (H Ev) as (r1 & ? & ?). congruence. }
  intros pv. apply (triple_bind _ _ P).
  { apply triple_lift. intros c a d s -> [_ H]. by apply H. }
  intros ctx. apply (triple_bind _ _ (λ _, P ctx)).
  { apply triple_modify. intros a d s [[] H]. split; [|by destruct a].
    destruct a; split; simpl in *; unfold constant; done. }
  intros _. apply (triple_bind _ _ (λ _, jinv false)); [|intros []; apply triple_j_ret].
  destruct r as [[]|].
  - eapply triple_bind with (R := λ _, jinv false); [|intros ?; apply triple_j_ret].
    apply triple_on_state. intros a d s [Hj Hq].
    eapply (jinv_state _ _ _ _ 0 (VoterStateSpec.SVerified (rnd_view (ctx_round ctx)))); try done.
    unfold VoterState.verified.
    match goal with |- context [VoterState.on_round ?st ?v ?f] =>
      pose proof (on_round_jsteps R st v f) as H'; destruct (VoterState.on_round st v f) end.
    apply H'. intros r Hr. pose proof (verified_steps R (rnd_view (ctx_round ctx)) r (Hq r Hr)) as Hs.
    by destruct (Round.verified r).
  - eapply triple_conseq; [apply (handle_timeout_just now)|by intros a d s [? _]|done].
  - apply triple_ret. by intros a d s [? _].
Qed.

Lemma on_certified_just now handle r : triple (jinv false) (on_certified now handle r) (λ _, jinv false).
Proof.
  unfold on_certified, get_state, add_candidate. apply triple_j_bind; [apply triple_j_gets|intros pool].
  apply triple_j_bind; [apply triple_j_lift|intros rd]. apply triple_j_bind; [by apply triple_j_modify|intros _].
  apply triple_j_bind; [apply triple_j_gets|intros st]. destruct (negb _); [apply triple_j_ret|].
  destruct r as [c|].
  - apply triple_j_bind; [apply handle_certification_just|intros n]. jstep.
  - apply triple_j_bind; [|intros _; jstep].
    apply (update_state_just _ _ (VoterStateSpec.SRetryCertification (rnd_view rd)) 0); [done..| |done].
    intros st' _ _. unfold VoterState.retry_certification. case_match eqn:E; [|done].
    eapply jsteps_tracked; [done|apply unset_certify_handle_steps].
Qed.

Lemma on_proposal_just now p : triple (jinv false) (on_proposal now p) (λ _, jinv false).
Proof.
  unfold on_proposal, get_state. apply triple_j_bind; [apply triple_j_gets|intros st].
  apply triple_j_bind; [apply triple_j_lift|intros b]. destruct (negb b); [apply triple_j_ret|].
  apply triple_j_bind; [|intros []; apply triple_j_ret]. jresult.
  apply (triple_j_state false _ (VoterStateSpec.SSetProposal (proposal_view p) p) now (λ _, True)); [done..| |done].
  intros st' _ _. split; [|done]. unfold VoterState.set_proposal.
  pose proof (set_proposal_steps R (proposal_view p) (VoterState.entry now st' (proposal_view p)) p eq_refl) as H.
  destruct (Round.set_proposal _ _). by eapply jsteps_put.
Qed.

Lemma on_certificate_just now c from_resolver : c ∈ R →
  triple (jinv false) (on_certificate now c from_resolver) (λ _, jinv false).
Proof.
  intros Hin. unfold on_certificate, get_state. apply triple_j_bind; [apply triple_j_gets|intros st].
  eapply (triple_j_pure false (λ b : bool, b = true → 0 ≤ cert_view c)).
  { apply triple_lift. intros b a d s E Hj. split; [done|]. intros ->. revert E.
    unfold VoterState.is_interesting, interesting, ConsensusTypes.min_active, View.saturating_sub, saturating_sub.
    case_match eqn:El; [done|]. intros _. apply Z.ltb_ge in El. lia. }
  intros b Hb. destruct b; simpl; [|apply triple_j_ret]. specialize (Hb eq_refl).
  destruct c as [n|n|f]; unfold broadcast_certificate.
  - apply triple_j_bind; [by apply handle_notarization_just|intros _; apply triple_j_ret].
  - apply triple_j_bind; [by apply handle_nullification_just|intros floor]. jstep.
  - apply triple_j_bind; [by apply handle_finalization_just|intros _; apply triple_j_ret].
Qed.

Lemma triple_stale {A} (m : M A) : triple (jinv false) m (λ _, jinv false) → triple (jinv true) m (λ _, jinv false).
Proof. intros H. eapply triple_conseq; [exact H|by intros a d s ?%jinv_stale|done]. Qed.

Lemma select_just now ev : (∀ c, c ∈ received ev → c ∈ R) →
  triple (jinv true) (select now ev) (λ _, jinv false).
Proof.
  intros Hev. destruct ev; simpl.
  - apply triple_stale, triple_j_bind; [by apply triple_j_emit|intros _; apply triple_j_ret].
  - unfold get_state. apply triple_stale, triple_j_bind; [apply handle_timeout_just|intros _]. jstep.
  - apply on_proposed_just.
  - apply on_verified_just.
  - apply triple_stale, on_certified_just.
  - apply triple_stale, on_proposal_just.
  - apply triple_stale, on_certificate_just, Hev. constructor.
Qed.

Lemma iterate_just now ev active : (∀ c, c ∈ received ev → c ∈ R) →
  triple (jinv false) (iterate now ev active) (λ _, jinv false).
Proof.
  intros Hev. unfold iterate, get_state. eapply triple_bind; [apply loop_top_just|intros []].
  apply (triple_bind _ _ (λ _, jinv true)); [by apply triple_gets|intros st].
  eapply triple_bind; [by apply select_just|]. intros [v resolved| |].
  - apply triple_j_bind; [apply notify_just|intros _]. apply triple_j_bind; [apply prune_views_just|intros _].
    apply triple_j_bind; [apply update_batcher_just|intros _]. apply triple_j_ret.
  - apply triple_j_ret.
  - apply triple_j_ret.
Qed.

(** ** Starts *)

Lemma tweak_just v r r' : VoterRefinementStart.tweak r r' → round_just R v r → round_just R v r'.
Proof. intros [-> _ _] []. by destruct r; split. Qed.

Lemma recover_step_just now v r x r' : VoterJournal.recover_step now r x = Some r' → artifact_view x = v →
  artifact_just x → VoterStateSpec.round_ok r → round_just R v r → round_just R v r'.
Proof.
  intros E Hv Hx Hok Hr. unfold VoterJournal.recover_step in E. destruct x as [n|n|rd b|n|n|f|f]; simpl in *.
  - case_match; simpl in E; [|done]. injection E as <-.
    pose proof (slot_just_built R v (r_slot r) (nt_proposal n) Hv Hx (rj_slot _ _ _ Hr)) as Hs.
    pose proof (λ q, Slot.agrees_built (r_slot r) q (nt_proposal n) (VoterStateSpec.ro_slot _ Hok)) as Ha.
    destruct Hr, r; simpl in *. split; simpl; unfold constant; try done.
    intros m Hm. destruct (rj_notarization0 m Hm) as (? & ? & ?). auto.
  - injection E as <-. pose proof (add_notarization_steps R v r n Hx Hv) as Hs.
    assert (is_Some (r_notarization (Round.add_notarization r n).1)) as Hn.
    { unfold Round.add_notarization. destruct (r_notarization r) eqn:En; [by eexists|].
      destruct (Round.add_recovered_proposal _ _) as [r' e]. destruct r'. by eexists. }
    pose proof (sp_just _ _ _ _ Hs Hok Hr) as Hj. clear Hs Hr.
    match goal with |- round_just R v ?r' =>
      assert (r' = (Round.add_notarization r n).1 {{ b_notarization := true }}) as -> end.
    { unfold Round.add_notarization, Round.add_recovered_proposal. destruct r; simpl.
      destruct r_notarization; simpl; [done|]. by destruct (Slot.update _ _ _). }
    destruct (Round.add_notarization r n).1. destruct Hj. split; simpl in *; unfold constant; done.
  - destruct (Round.certified r b) as [r1|] eqn:E1; simpl in E; [|done].
    unfold VoterJournal.state_certified in E. destruct (Round.certified r1 b) as [r2|] eqn:E2; simpl in E; [|done].
    destruct (r_notarization r2) as [n|] eqn:En; simpl in E; [|done]. injection E as <-.
    destruct (VoterRefinementLoop.round_certified_fields _ _ _ E2) as (_ & F2 & _).
    destruct (VoterRefinementLoop.round_certified_fields _ _ _ E1) as (_ & F1 & _).
    assert (steps R v r r2) as Hs.
    { etrans; [eapply certified_steps, E1|eapply certified_steps, E2]; [|]; rewrite <- ?F1, <- ?F2, En; by eexists. }
    destruct b; [by apply (sp_just _ _ _ _ Hs)|].
    by apply (sp_just _ _ _ _ (transitivity Hs (set_deadlines_steps R v r2 now now))).
  - case_match; simpl in E; [|done]. injection E as <-. destruct Hr, r. by split.
  - injection E as <-. pose proof (add_nullification_steps R v (r {{ b_nullification := true }}) n Hx Hv) as Hs.
    apply (sp_just _ _ _ _ Hs); [by destruct Hok, r|destruct Hr, r; by split].
  - case_match; simpl in E; [|done]. injection E as <-. destruct Hr, r. by split.
  - injection E as <-. destruct Hx as [Hx H0].
    pose proof (add_finalization_steps R v (r {{ b_finalization := true }}) f Hx Hv ltac:(lia)) as Hs.
    apply (sp_just _ _ _ _ Hs); [by destruct Hok, r|destruct Hr, r; by split].
Qed.

Lemma replay_state_just now st x st' : VoterRefinementStart.replay_state now st x = Some st' → artifact_just x →
  VoterStateSpec.wf st → rounds_just st → VoterStateSpec.wf st' ∧ rounds_just st'.
Proof.
  intros E Hx Hw Hj. split.
  - eapply VoterRefinementStart.replay_state_wf; [done| |done]. intros f ->. apply Hx.
  - destruct (VoterRefinementStart.replay_state_replayed now st x st' E) as [_ (r & Hr & Ht) _ Ho _].
    assert (∀ v, round_just R v (VoterState.entry now st v)) as He.
    { intros v. unfold VoterState.entry. destruct (views st !! v) eqn:Ev; [by eapply Hj|apply round_just_new]. }
    intros v r' Hv. pose proof (VoterRefinement.entry_lookup now st' v r' Hv) as <-.
    destruct (decide (v = artifact_view x)) as [->|Hne]; [|by eapply tweak_just, He; apply Ho].
    eapply tweak_just; [done|]. eapply recover_step_just; [done..| |apply He].
    eapply VoterStateSpec.from_ok; [apply Hw|apply VoterStateSpec.from_entry].
Qed.

Lemma replay_states_just now l : ∀ st st', VoterRefinementStart.replay_states now st l = Some st' →
  (∀ x, x ∈ l → artifact_just x) → VoterStateSpec.wf st → rounds_just st → VoterStateSpec.wf st' ∧ rounds_just st'.
Proof.
  induction l as [|x l IH]; intros st st'; simpl; [by intros [= <-]|].
  destruct (VoterRefinementStart.replay_state now st x) as [st1|] eqn:E; simpl; [|done]. intros H Hl Hw Hj.
  destruct (replay_state_just now st x st1 E) as [Hw1 Hj1]; [apply Hl; constructor|done..|].
  eapply IH; [done|intros y Hy; apply Hl; by constructor|done..].
Qed.

Lemma start_just scheme namespace ep act el lt nt rt now g d s a es : 0 ≤ act → jcrash d s →
  recover now g (replay_order d) (new (VoterRefinementStart.fresh scheme namespace ep act el lt nt rt)) =
    (Some (tt, a), es) → jinv false a d s.
Proof.
  intros Hact [Hd Hs] E. destruct (VoterRefinementStart.recover_run now g _ (new _) _ _ eq_refl E) as [_ Hr].
  destruct (Hr a eq_refl) as ((_ & Hq) & st1 & st2 & E1 & E2 & Ea). simpl in E1. injection Hq as Hpp Hpv.
  assert (rounds_just st1) as Hj1.
  { unfold VoterState.set_genesis in E1. destruct (View.next _) as [w|]; simpl in E1; [|done].
    apply set_leader_jsteps with (R := R) in E1. eapply js_just; [etrans; [apply enter_view_jsteps|exact E1]|..];
      intros v r; simpl; rewrite lookup_empty; done. }
  destruct (replay_states_just now _ st1 st2 E2) as [Hw2 Hj2].
  - intros x Hx. destruct (VoterRefinementStart.replay_order_in x d Hx) as [v Hv]. by eapply Hd.
  - by eapply VoterStateSpec.set_genesis_wf.
  - done.
  - destruct (VoterStateSpec.exec_wf now (VoterStateSpec.SExpireRound (view st2)) st2 _ Hw2 I eq_refl) as (Hw & _).
    split; try done.
    + by rewrite Ea.
    + rewrite Ea. assert (jsteps st2 (VoterState.expire_round now st2 (view st2))) as Hs'
        by eapply jsteps_put, set_deadlines_steps.
      by apply (js_just _ _ _ Hs' (VoterStateSpec.w_rounds _ Hw2)).
    + intros c. by rewrite Hpp.
    + intros c. by rewrite Hpv.
Qed.

Lemma crash_just keep d s : jcrash d s → jcrash (crash keep d) s.
Proof.
  intros [Hd Hs]. split; [|done]. intros v x. rewrite VoterRefinementStart.section_crash. simpl. intros Hx.
  apply elem_of_take in Hx as (i & Hi & _). by eapply Hd, list_elem_of_lookup_2.
Qed.
End Loop.

(** ** Nodes *)

Section Node.
Context {T : Types} (scheme : Scheme) (namespace : bytes) (ep act : Z) (Hact : 0 ≤ act).
Context (el : Rnd → option Certificate → Z) (lt nt rt : Z).
Implicit Types R : list Cert.

Lemma justified_mono R R' v u : R ⊆ R' → justified R v u → justified R' v u.
Proof.
  intros HR [H1 H2 H3]. split; [done|..].
  - intros w Hw. destruct (H2 w Hw) as (n & Hn & ?). exists n. auto.
  - destruct H3 as [|(c & q & ? & ?)]; [by left|right]. exists c, q. auto.
Qed.
Lemma vouched_mono R R' p : R ⊆ R' → vouched R p → vouched R' p.
Proof.
  intros HR [(c & ? & ?)|H]; [left; exists c; auto|right; by eapply justified_mono].
Qed.
Lemma vote_just_mono R R' x : R ⊆ R' → vote_just R x → vote_just R' x.
Proof. intros HR. destruct x; simpl; [by apply vouched_mono|done|]. intros (n & ? & ?). eauto. Qed.
Lemma artifact_just_mono R R' x : R ⊆ R' → artifact_just R x → artifact_just R' x.
Proof. intros HR. destruct x; simpl; try done; [by apply vouched_mono|auto..|]. intros []. auto. Qed.
Lemma round_just_mono R R' v r : R ⊆ R' → round_just R v r → round_just R' v r.
Proof.
  intros HR [[S1 S2 S3 S4] J1 J2 J3 J4]. split; [split|..]; try done.
  - intros p H1 H2. eapply vouched_mono; eauto.
  - intros p H1 H2 H3. eapply vouched_mono; eauto.
  - intros n Hn. destruct (J1 n Hn) as (? & ?). auto.
  - intros n Hn. destruct (J2 n Hn) as (? & ?). auto.
  - intros n Hn. destruct (J3 n Hn) as (? & ?). auto.
Qed.
Lemma jcrash_mono R R' d s : R ⊆ R' → jcrash R d s → jcrash R' d s.
Proof.
  intros HR [Hd Hs]. split; [intros v x Hx; eapply artifact_just_mono; eauto|intros x Hx; eapply vote_just_mono; eauto].
Qed.
Lemma jinv_mono R R' b a d s : R ⊆ R' → jinv R b a d s → jinv R' b a d s.
Proof.
  intros HR []. destruct (jcrash_mono R R' d s HR) as [Hd Hs]; [by split|]. split; try done.
  - intros v r Hr. eapply round_just_mono; eauto.
  - intros c Hc. eapply justified_mono; eauto.
Qed.

Definition node_just (n : VoterActor.Node) : Prop :=
  match n_actor n with
  | Some a => jinv (n_received n) false a (n_disk n) (n_sent n)
  | None => jcrash (n_received n) (n_disk n) (n_sent n)
  end.

Notation fresh := (VoterRefinementStart.fresh scheme namespace ep act el lt nt rt).

Lemma step_just g l n n' : step fresh g l n n' → node_just n → node_just n'.
Proof.
  unfold node_just.
  intros [now ev active n0 a a' d Ha Hi Hd|now ev active keep n0 a es d Ha Hc Hd|now n0 a es Ha Hr]; rewrite Ha;
    simpl; intros Hj.
  - apply (jinv_mono _ (received ev ++ n_received n0)) in Hj; [|set_solver].
    destruct (iterate_just (received ev ++ n_received n0) now ev active ltac:(set_solver) _ _ _ Hj) as [_ H].
    exact (H true a' d Hi Hd).
  - apply (jinv_mono _ (received ev ++ n_received n0)) in Hj; [|set_solver]. apply crash_just.
    destruct (decide (es = [])) as [->|Hne].
    + injection Hd as <-. simpl. rewrite app_nil_r. by eapply jinv_crash.
    + destruct (iterate_just (received ev ++ n_received n0) now ev active ltac:(set_solver) _ _ _ Hj) as [H _].
      by apply (H es d).
  - by eapply start_just.
Qed.

Lemma reachable_just g n : reachable fresh g n → node_just n.
Proof.
  induction 1 as [|l n n' _ IH Hs]; [|by eapply step_just].
  split; [|by intros x ?%not_elem_of_nil]. intros v x Hx. by apply not_elem_of_nil in Hx.
Qed.

Lemma sent_vouched g n : reachable fresh g n → ∀ x, x ∈ n_sent n → vote_just (n_received n) x.
Proof.
  intros Hr%reachable_just. unfold node_just in Hr. destruct (n_actor n); [apply Hr|apply Hr].
Qed.

(** C4: across turns, crashes and restarts, a node votes to notarize a proposal
    only when the certificates delivered to it vouch for the proposal: one of
    them is for the proposal itself, or its parent is the genesis or has a
    notarization or finalization certificate and all views between the parent and
    the proposal have nullification certificates.  It votes to finalize only a
    proposal that it was delivered a notarization certificate of. *)
Theorem votes_are_vouched g n : reachable fresh g n →
  (∀ x, VNotarize x ∈ n_sent n → vouched (n_received n) (nt_proposal x)) ∧
  (∀ f, VFinalize f ∈ n_sent n → ∃ c, CNotarization c ∈ n_received n ∧ nz_proposal c = fz_proposal f).
Proof.
  intros Hr. pose proof (sent_vouched g n Hr) as Hs. split; intros x Hx; exact (Hs _ Hx).
Qed.
End Node.

Section Witness.
Import Fixtures.

Lemma votes_are_vouched_witness :
  ∃ x, VNotarize x ∈ n_sent VoterRefinementStart.demo_node ∧
    vouched (n_received VoterRefinementStart.demo_node) (nt_proposal x).
Proof.
  exists (mkNotarize (mkProposal (T := types) (rnd 1) 0 41) (mkAttestation (T := types) 0 1)).
  assert (VNotarize (mkNotarize (mkProposal (T := types) (rnd 1) 0 41) (mkAttestation (T := types) 0 1))
    ∈ n_sent VoterRefinementStart.demo_node) as H by (vm_compute; constructor).
  split; [exact H|].
  exact (proj1 (votes_are_vouched (scheme 0) [] 0 1 ltac:(lia) (λ r _, rnd_view r mod 4) 10 20 30 7
    VoterRefinementStart.demo_node VoterRefinementStart.demo_reachable) _ H).
Defined.
End Witness.
End VoterJustifiedLoop.
