(* ===== verification/SimplexSafety.v ===== *)
(** * Safety of a view

    [n] participants run the voter of one view; at most [max_faults n] of them
    (utils/src/lib.rs) are faulty and may vote arbitrarily.  A certificate stands
    for [quorum n] participants that voted for its subject: a correct participant
    counted in it really sent the vote, the others may have signed anything.
    The theorems combine what one node can send across crashes with the
    intersection of quorums. *)

From S2P Require Import Prelude Codec ConsensusTypes SimplexTypes VoterSlot VoterRound VoterJournal Fixtures.

Module SimplexSafety.

(** ** Intersection of quorums *)

Section Quorums.
Context (n q : Z) (Hn : 0 < n) (Hq : quorum n = Some q).

Definition participants : gset Z := list_to_set (seqZ 0 n).

Lemma participants_size : Z.of_nat (size participants) = n.
Proof using Hn.
  unfold participants. rewrite size_list_to_set by apply NoDup_seqZ. rewrite length_seqZ. lia.
Qed.

(** Two quorums have a member outside any set of [max_faults n] participants. *)
Lemma quorums_share_correct (faulty Q1 Q2 : gset Z) :
  Z.of_nat (size faulty) ≤ max_faults n → Q1 ⊆ participants → Q2 ⊆ participants →
  q ≤ Z.of_nat (size Q1) → q ≤ Z.of_nat (size Q2) →
  ∃ i, i ∈ Q1 ∧ i ∈ Q2 ∧ i ∉ faulty.
Proof using Hn Hq.
  intros Hf H1 H2 S1 S2. pose proof (quorum_intersection n q Hn Hq) as Hint.
  assert (size (Q1 ∪ Q2) ≤ size participants)%nat as Hu by (apply subseteq_size; set_solver).
  pose proof participants_size as Hp.
  rewrite size_union_alt in Hu.
  assert (size Q2 = size (Q2 ∖ Q1) + size (Q1 ∩ Q2))%nat as Hs.
  { rewrite <- size_union by set_solver. f_equal. apply leibniz_equiv.
    intros x. destruct (decide (x ∈ Q1)); set_solver. }
  assert (size faulty < size (Q1 ∩ Q2))%nat as Hlt by lia.
  assert (¬ (Q1 ∩ Q2) ⊆ faulty) as Hns by (intros H%subseteq_size; lia).
  destruct (decide (set_Exists (λ i, i ∉ faulty) (Q1 ∩ Q2))) as [(i & Hi & Hnf)|Hne].
  - exists i. set_solver.
  - destruct Hns. intros i Hi. destruct (decide (i ∈ faulty)); [done|].
    destruct Hne. by exists i.
Qed.
End Quorums.

(** ** One view *)

Section View.
Context {T : Types} (namespace : bytes) (rnd : Rnd).
Context (n q : Z) (Hn : 0 < n) (Hq : quorum n = Some q).

(** A run of the view: every correct participant [i] signs as itself and has
    sent [sent i], by handling some events, crashes included. *)
Record Run : Type := mkRun {
  schemes : Z → Scheme;
  faulty : gset Z;
  sent : Z → list Vote;
}.

Record run_ok (x : Run) : Prop := {
  few_faulty : Z.of_nat (size (faulty x)) ≤ max_faults n;
  correct_signs i : i ∈ participants n → i ∉ faulty x →
    VoterJournal.signs (schemes x i) namespace;
  correct_runs i : i ∈ participants n → i ∉ faulty x → ∃ now ops nd,
    VoterJournal.run (schemes x i) namespace rnd ops
      (VoterJournal.init (schemes x i) rnd now) [] = Some (nd, sent x i);
}.

(** A quorum stands behind a subject. *)
Definition quorum_for (x : Run) (says : Vote → Prop) : Prop :=
  ∃ Q : gset Z, Q ⊆ participants n ∧ q ≤ Z.of_nat (size Q) ∧
    ∀ i, i ∈ Q → i ∉ faulty x → ∃ v, v ∈ sent x i ∧ says v.

Definition notarized (x : Run) (p : Proposal) : Prop :=
  quorum_for x (λ v, ∃ a, v = VNotarize (mkNotarize p a)).
Definition nullified (x : Run) : Prop := quorum_for x (λ v, ∃ y, v = VNullify y).
Definition finalized (x : Run) (p : Proposal) : Prop :=
  quorum_for x (λ v, ∃ a, v = VFinalize (mkFinalize p a)).

(** A correct participant is behind any two certificates. *)
Lemma common_voter x says1 says2 : run_ok x → quorum_for x says1 → quorum_for x says2 →
  ∃ i v1 v2, i ∈ participants n ∧ i ∉ faulty x ∧
    (v1 ∈ sent x i ∧ says1 v1) ∧ (v2 ∈ sent x i ∧ says2 v2).
Proof using Hn Hq.
  intros Hx (Q1 & Hp1 & Hs1 & Hv1) (Q2 & Hp2 & Hs2 & Hv2).
  destruct (quorums_share_correct n q Hn Hq (faulty x) Q1 Q2) as (i & H1 & H2 & Hf);
    [apply Hx|done..|].
  destruct (Hv1 i H1 Hf) as (v1 & ? & ?). destruct (Hv2 i H2 Hf) as (v2 & ? & ?).
  exists i, v1, v2. split_and!; auto.
Qed.

(** two notarization certificates of a view are for the same proposal. *)
Theorem notarizations_agree x p p' :
  run_ok x → notarized x p → notarized x p' → p = p'.
Proof using Hn Hq.
  intros Hx H1 H2.
  destruct (common_voter x _ _ Hx H1 H2) as (i & v1 & v2 & Hi & Hf & (Hs1 & a1 & ->) & (Hs2 & a2 & ->)).
  destruct (correct_runs x Hx i Hi Hf) as (now & ops & nd & Hr).
  destruct (VoterJournal.run_journal _ _ _ (correct_signs x Hx i Hi Hf) _ _ _ _ Hr) as [HJ R].
  by pose proof (VoterJournal.journal_notarize_unique _ _ HJ _ _ (R _ Hs1) (R _ Hs2)) as [= ->].
Qed.

(** A finalized proposal is the only one the view can certify. *)
Lemma finalized_unique x p p' :
  run_ok x → finalized x p → notarized x p' ∨ finalized x p' → p = p'.
Proof using Hn Hq.
  intros Hx H1 H2.
  assert (∃ i, i ∈ participants n ∧ i ∉ faulty x ∧
    (∃ a, VFinalize (mkFinalize p a) ∈ sent x i) ∧
    ((∃ a, VNotarize (mkNotarize p' a) ∈ sent x i) ∨ (∃ a, VFinalize (mkFinalize p' a) ∈ sent x i)))
    as (i & Hi & Hf & [a Ha] & Hs2).
  { destruct H2 as [H2|H2];
      destruct (common_voter x _ _ Hx H1 H2)
        as (i & v1 & v2 & Hi & Hf & (Hs1 & a1 & ->) & (Hs2 & a2 & ->)); exists i; eauto 10. }
  destruct (correct_runs x Hx i Hi Hf) as (now & ops & nd & Hr).
  destruct (VoterJournal.run_journal _ _ _ (correct_signs x Hx i Hi Hf) _ _ _ _ Hr) as [HJ R].
  destruct (VoterJournal.journal_finalize _ _ HJ _ (R _ Ha)) as ((m & Hm & Em) & _).
  simpl in Em. rewrite <- Em. destruct Hs2 as [[b Hb]|[b Hb]].
  - by rewrite (VoterJournal.journal_notarize_unique _ _ HJ _ _ Hm (R _ Hb)).
  - destruct (VoterJournal.journal_finalize _ _ HJ _ (R _ Hb)) as ((m' & Hm' & Em') & _).
    simpl in Em'. by rewrite <- Em', (VoterJournal.journal_notarize_unique _ _ HJ _ _ Hm Hm').
Qed.

Lemma finalized_excludes x p : run_ok x → finalized x p → ¬ nullified x.
Proof using Hn Hq.
  intros Hx H1 H2.
  destruct (common_voter x _ _ Hx H1 H2) as (i & v1 & v2 & Hi & Hf & (Hs1 & a1 & ->) & (Hs2 & a2 & ->)).
  destruct (correct_runs x Hx i Hi Hf) as (now & ops & nd & Hr).
  destruct (VoterJournal.run_journal _ _ _ (correct_signs x Hx i Hi Hf) _ _ _ _ Hr) as [HJ R].
  destruct (R _ Hs2) as [y R2].
  exact (VoterJournal.journal_nullify_finalize _ _ HJ _ _ R2 (R _ Hs1)).
Qed.

(** a finalized proposal is the only one a view can notarize or finalize. *)
Theorem finalization_agrees x p p' :
  run_ok x → finalized x p → notarized x p' ∨ finalized x p' → p = p'.
Proof using Hn Hq. apply finalized_unique. Qed.

(** a view is not both finalized and nullified. *)
Theorem finalized_not_nullified x p : run_ok x → finalized x p → ¬ nullified x.
Proof using Hn Hq. apply finalized_excludes. Qed.
End View.

(** ** Four participants, one of them faulty *)

Section Witness.
Import Fixtures.

Definition demo_p : Proposal := proposal 5 77.

(** Participants 0, 1 and 2 verify the proposal, vote, see the notarization,
    certify it and vote to finalize; participant 1 crashes on the way;
    participant 3 is faulty. *)
Definition demo_ops (i : Z) : list Op :=
  [OSetProposal demo_p; OTryVerify; OVerified; OVoteNotarize] ++
  (if i =? 1 then [OCrash 3 0] else []) ++
  [ONotarization (mkNotarization demo_p []); OBroadcastNotarization; OCertified 4 true; OVoteFinalize].

Definition demo_run (i : Z) : Node * list Vote :=
  default (VoterJournal.init (scheme i) (rnd 5) 0, [])
    (VoterJournal.run (scheme i) [] (rnd 5) (demo_ops i)
       (VoterJournal.init (scheme i) (rnd 5) 0) []).

Definition demo : Run := mkRun scheme {[3]} (λ i, (demo_run i).2).

Lemma demo_correct i : i ∈ participants 4 → i ∉ faulty demo → i = 0 ∨ i = 1 ∨ i = 2.
Proof.
  unfold participants. rewrite elem_of_list_to_set, elem_of_seqZ. simpl.
  rewrite elem_of_singleton. lia.
Qed.

Lemma demo_run_ok : run_ok [] (rnd 5) 4 demo.
Proof.
  split.
  - vm_compute. discriminate.
  - intros i _ _. exact (sign_as_me i []).
  - intros i Hi Hf. exists 0, (demo_ops i), (demo_run i).1.
    destruct (demo_correct i Hi Hf) as [-> |[-> | ->]]; vm_compute; reflexivity.
Qed.

Definition demo_quorum : gset Z := {[0; 1; 3]}.

Lemma demo_quorum_for says :
  (∀ i, i = 0 ∨ i = 1 → ∃ v, v ∈ sent demo i ∧ says v) → quorum_for 4 3 demo says.
Proof.
  intros H. exists demo_quorum. split_and!.
  - intros i. unfold demo_quorum, participants. rewrite elem_of_list_to_set, elem_of_seqZ.
    set_unfold. lia.
  - vm_compute. discriminate.
  - intros i Hi Hf. apply H. set_unfold. naive_solver.
Qed.

Lemma demo_notarized : notarized 4 3 demo demo_p.
Proof.
  apply demo_quorum_for. intros i Hi. exists (VNotarize (mkNotarize demo_p (mkAttestation (T := types) i (100 * i + 5)))).
  split; [|by eexists]. destruct Hi as [-> | ->]; vm_compute; constructor.
Qed.
Lemma demo_finalized : finalized 4 3 demo demo_p.
Proof.
  apply demo_quorum_for. intros i Hi. exists (VFinalize (mkFinalize demo_p (mkAttestation (T := types) i (100 * i + 5)))).
  split; [|by eexists]. destruct Hi as [-> | ->]; vm_compute; constructor; constructor.
Qed.

Lemma notarizations_agree_witness : demo_p = demo_p.
Proof.
  exact (notarizations_agree [] (rnd 5) 4 3 eq_refl eq_refl demo _ _ demo_run_ok
    demo_notarized demo_notarized).
Defined.
Lemma finalization_agrees_witness : demo_p = demo_p.
Proof.
  exact (finalization_agrees [] (rnd 5) 4 3 eq_refl eq_refl demo _ _ demo_run_ok
    demo_finalized (or_introl demo_notarized)).
Defined.
Lemma finalized_not_nullified_witness : ¬ nullified 4 3 demo.
Proof.
  exact (finalized_not_nullified [] (rnd 5) 4 3 eq_refl eq_refl demo _ demo_run_ok demo_finalized).
Defined.
End Witness.
End SimplexSafety.
