(* ===== verification/SimplexChain.v ===== *)
(** * Safety of the chain

    A network of voter actors: each correct participant runs the whole actor of
    VoterActor.v, with its journal, crashes and restarts; the events it handles
    are arbitrary, except that a certificate is delivered only after a quorum of
    participants signed its subject, where at most [max_faults n] participants are
    faulty and may sign anything.  A finalized proposal is then an ancestor of
    every proposal of its view or a later one that is notarized or finalized. *)

From S2P Require Import Prelude Codec ConsensusTypes SimplexTypes SimplexEvidence VoterSlot VoterRound.
From S2P Require Import VoterJournal VoterState VoterActor VoterRefinement VoterRefinementStart.
From S2P Require Import VoterJustified VoterJustifiedLoop SimplexSafety Fixtures.
Import VoterActor.

Module SimplexChain.
Section Chain.
Context {T : Types} (namespace : bytes) (ep act : Z) (el : Rnd → option Certificate → Z) (lt nt rt : Z).
Context (genesis : Digest) (schemes : Z → Scheme) (n q : Z) (faulty : gset Z).

(** ** The network *)

Definition Net : Type := Z → VoterActor.Node.
Implicit Types G : Net.
Implicit Types p : Proposal.

Definition initial (i : Z) : State :=
  VoterRefinementStart.fresh (schemes i) namespace ep act el lt nt rt.

Definition correct (i : Z) : Prop := i ∈ SimplexSafety.participants n ∧ i ∉ faulty.

(** A quorum whose correct members sent a vote that says so. *)
Definition quorum_for G (says : Vote → Prop) : Prop :=
  ∃ Q : gset Z, Q ⊆ SimplexSafety.participants n ∧ q ≤ Z.of_nat (size Q) ∧
    ∀ i, i ∈ Q → i ∉ faulty → ∃ v, v ∈ n_sent (G i) ∧ says v.

Definition notarized G p : Prop := quorum_for G (λ v, ∃ a, v = VNotarize (mkNotarize p a)).
Definition finalized G p : Prop := quorum_for G (λ v, ∃ a, v = VFinalize (mkFinalize p a)).
Definition nullified G (rd : Rnd) : Prop := quorum_for G (λ v, ∃ a, v = VNullify (mkNullify rd a)).

(** A certificate can be built from the votes sent so far. *)
Definition backed G (c : Cert) : Prop :=
  match c with
  | CNotarization m => notarized G (nz_proposal m)
  | CNullification m => nullified G (nlz_round m)
  | CFinalization f => finalized G (fzz_proposal f)
  end.

Definition set_node G (i : Z) (nd : VoterActor.Node) : Net := λ j, if decide (j = i) then nd else G j.

Inductive net_step G : Net → Prop :=
| net_step_node i l nd :
    correct i → step (initial i) genesis l (G i) nd →
    (∀ ev c, l = Some ev → c ∈ received ev → backed G c) →
    net_step G (set_node G i nd).

Inductive net_reachable : Net → Prop :=
| net_boot : net_reachable (λ _, boot)
| net_later G G' : net_reachable G → net_step G G' → net_reachable G'.

(** ** Ancestors *)

(** The chain of certified proposals through the views of their parents. *)
Inductive ancestor G : Proposal → Proposal → Prop :=
| ancestor_self p : ancestor G p p
| ancestor_parent p p' p'' :
    ancestor G p p' → notarized G p' → proposal_view p' = parent p'' → ancestor G p p''.

(** A proposal whose parent is certified, with the views in between nullified. *)
Record linked G p : Prop := {
  li_less : parent p < proposal_view p;
  li_between w : parent p < w < proposal_view p → ∃ rd, nullified G rd ∧ rnd_view rd = w;
  li_parent : parent p = 0 ∨ ∃ p', notarized G p' ∧ proposal_view p' = parent p;
}.

(** ** What stays *)

Lemma step_sent st g l nd nd' : step st g l nd nd' →
  (∀ x, x ∈ n_sent nd → x ∈ n_sent nd') ∧ (∀ c, c ∈ n_received nd' → c ∈ n_received nd ∨ ∃ ev, l = Some ev ∧ c ∈ received ev).
Proof.
  intros H. destruct H; simpl; split; try set_solver; intros c [?|?]%elem_of_app; eauto.
Qed.

Lemma net_step_sent G G' i x : net_step G G' → x ∈ n_sent (G i) → x ∈ n_sent (G' i).
Proof.
  intros [j l nd _ Hs _] Hx. unfold set_node. case_decide; [subst|done]. by apply (step_sent _ _ _ _ _ Hs).
Qed.

Lemma quorum_step G G' says : net_step G G' → quorum_for G says → quorum_for G' says.
Proof.
  intros Hs (Q & ? & ? & H). exists Q. split_and!; [done..|]. intros i Hi Hf.
  destruct (H i Hi Hf) as (v & ? & ?). exists v. split; [by eapply net_step_sent|done].
Qed.

Lemma backed_step G G' c : net_step G G' → backed G c → backed G' c.
Proof. intros Hs. destruct c; apply quorum_step, Hs. Qed.

Lemma linked_step G G' p : net_step G G' → linked G p → linked G' p.
Proof.
  intros Hs [H1 H2 H3]. split; [done|..].
  - intros w Hw. destruct (H2 w Hw) as (rd & Hn & ?). exists rd. split; [by eapply quorum_step|done].
  - destruct H3 as [|(p' & Hn & ?)]; [by left|right]. exists p'. split; [by eapply quorum_step|done].
Qed.

Lemma node_reachable G i : net_reachable G → reachable (initial i) genesis (G i).
Proof.
  induction 1 as [|G G' _ IH [j l nd Hj Hs _]]; [constructor|].
  unfold set_node. case_decide; [subst|done]. by eapply reachable_step.
Qed.

Lemma received_backed G i c : net_reachable G → c ∈ n_received (G i) → backed G c.
Proof.
  intros HG. revert i c. induction HG as [|G G' _ IH Hs]; intros i c; [by intros ?%not_elem_of_nil|].
  intros Hc. eapply backed_step; [done|]. destruct Hs as [j l nd Hj Hs Hb]. unfold set_node in Hc.
  case_decide; [subst|by eapply IH]. destruct (proj2 (step_sent _ _ _ _ _ Hs) c Hc) as [?|(ev & -> & ?)]; eauto.
Qed.

(** ** Certified proposals are linked *)

Context (Hact : 0 ≤ act) (Hn : 0 < n) (Hq : quorum n = Some q).
Context (few_faulty : Z.of_nat (size faulty) ≤ max_faults n).
Context (correct_signs : ∀ i, correct i → VoterJournal.signs (schemes i) namespace).

Lemma quorum_honest G says : quorum_for G says → ∃ i v, correct i ∧ v ∈ n_sent (G i) ∧ says v.
Proof.
  intros (Q & Hp & Hs & Hv).
  destruct (SimplexSafety.quorums_share_correct n q Hn Hq faulty Q Q) as (i & H1 & _ & Hf); [done..|].
  destruct (Hv i H1 Hf) as (v & ? & ?). exists i, v. split_and!; [split; auto|done..].
Qed.

Lemma node_vouched G i : net_reachable G → correct i →
  (∀ x, VNotarize x ∈ n_sent (G i) → VoterJustified.vouched (n_received (G i)) (nt_proposal x)) ∧
  (∀ f, VFinalize f ∈ n_sent (G i) → ∃ c, CNotarization c ∈ n_received (G i) ∧ nz_proposal c = fz_proposal f).
Proof.
  intros HG Hi.
  pose proof (VoterJustifiedLoop.sent_vouched (schemes i) namespace ep act Hact el lt nt rt genesis (G i)
    (node_reachable G i HG)) as H.
  split; intros x Hx; exact (H _ Hx).
Qed.

Lemma finalized_notarized G p : net_reachable G → finalized G p → notarized G p.
Proof.
  intros HG Hf. destruct (quorum_honest G _ Hf) as (i & v & Hi & Hv & a & ->).
  destruct (node_vouched G i HG Hi) as [_ H]. destruct (H _ Hv) as (c & Hc & E). simpl in E. rewrite <- E.
  exact (received_backed G i _ HG Hc).
Qed.

Lemma vote_linked G i x : net_reachable G → correct i → VNotarize x ∈ n_sent (G i) → linked G (nt_proposal x).
Proof.
  intros HG. revert i x. induction HG as [|G G' HG IH Hs]; intros i x Hi Hx; [by apply not_elem_of_nil in Hx|].
  pose proof (net_later G G' HG Hs) as HG'.
  assert (∀ c, c ∈ n_received (G' i) → backed G c) as Hb.
  { intros c. destruct Hs as [j l nd Hj Hs Hb]. unfold set_node in *. case_decide; [subst|by apply received_backed].
    intros Hc. destruct (proj2 (step_sent _ _ _ _ _ Hs) c Hc) as [?|(ev & -> & ?)]; [by eapply received_backed|eauto]. }
  assert (∀ p, notarized G p → linked G' p) as Hl.
  { intros p (j & v & Hj & Hv & a & ->)%quorum_honest. eapply linked_step; [done|]. exact (IH j _ Hj Hv). }
  assert (∀ c p, c ∈ n_received (G' i) → VoterJustified.cert_proposal c = Some p → notarized G p) as Hc.
  { intros c p Hc E. pose proof (Hb c Hc) as H. destruct c; simpl in E; [|done|]; injection E as <-; [done|].
    by apply finalized_notarized. }
  destruct (proj1 (node_vouched G' i HG' Hi) x Hx) as [(c & Hin & E)|[J1 J2 J3]]; [by eapply Hl, Hc|]. split.
  - done.
  - intros w Hw. destruct (J2 w Hw) as (m & Hm & E). exists (nlz_round m). split; [|done].
    eapply quorum_step; [done|]. exact (Hb _ Hm).
  - destruct J3 as [|(c & p & Hin & E & Ev)]; [by left|right]. exists p. split; [|done].
    eapply quorum_step; [done|]. by eapply Hc.
Qed.

Lemma notarized_linked G p : net_reachable G → notarized G p → linked G p.
Proof.
  intros HG (i & v & Hi & Hv & a & ->)%quorum_honest. exact (vote_linked G i _ HG Hi Hv).
Qed.

(** ** One view *)

(** The votes of a view are a run of the view. *)
Definition view_run G (v : Z) : SimplexSafety.Run :=
  SimplexSafety.mkRun schemes faulty (λ i, VoterRefinement.votes_in v (n_sent (G i))).

Lemma view_run_ok G v : net_reachable G → SimplexSafety.run_ok namespace (mkRnd ep v) n (view_run G v).
Proof.
  intros HG. split; [done|..].
  - intros i Hi Hf. apply correct_signs. by split.
  - intros i Hi Hf.
    destruct (VoterRefinementStart.reachable_inv_views (schemes i) namespace ep act
      (correct_signs i (conj Hi Hf)) Hact el lt nt rt genesis (G i) (node_reachable G i HG) v)
      as (now & ops & nd & E). by exists now, ops, nd.
Qed.

Lemma view_quorum G v says says' : (∀ x, says x → vote_view x = v ∧ says' x) → quorum_for G says →
  SimplexSafety.quorum_for n q (view_run G v) says'.
Proof.
  intros Hv (Q & ? & ? & H). exists Q. split_and!; [done..|]. intros i Hi Hf.
  destruct (H i Hi Hf) as (x & Hx & Hs). destruct (Hv x Hs) as [E ?]. exists x. split; [|done].
  apply list_elem_of_filter. by split.
Qed.

Lemma finalized_unique_view G p p' : net_reachable G → finalized G p → notarized G p' →
  proposal_view p' = proposal_view p → p = p'.
Proof.
  intros HG Hf Hp E.
  apply (SimplexSafety.finalized_unique namespace (mkRnd ep (proposal_view p)) n q Hn Hq
    (view_run G (proposal_view p))); [by apply view_run_ok|..].
  - eapply view_quorum, Hf. intros x [a ->]. by split; [|exists a].
  - left. eapply view_quorum, Hp. intros x [a ->]. by split; [|exists a].
Qed.

Lemma finalized_excludes_all G p rd : net_reachable G → finalized G p → rnd_view rd = proposal_view p →
  ¬ nullified G rd.
Proof.
  intros HG Hf E Hnu.
  apply (SimplexSafety.finalized_excludes namespace (mkRnd ep (proposal_view p)) n q Hn Hq
    (view_run G (proposal_view p)) p); [by apply view_run_ok|..].
  - eapply view_quorum, Hf. intros x [a ->]. by split; [|exists a].
  - eapply view_quorum, Hnu. intros x [a ->]. split; [by simpl|eauto].
Qed.

(** ** The chain *)

(** C1: in a network with at most [max_faults n] faulty participants, whatever
    the others handle and however often they crash and restart, a finalized
    proposal is an ancestor, through certified proposals and the views of their
    parents, of every proposal of the same or a later view that gets notarized or
    finalized. *)
Theorem finalized_is_ancestor G p p' : net_reachable G → 1 ≤ proposal_view p → finalized G p →
  notarized G p' ∨ finalized G p' → proposal_view p ≤ proposal_view p' → ancestor G p p'.
Proof.
  intros HG H1 Hf Hp'. assert (notarized G p') as Hnp by (destruct Hp'; [done|by apply finalized_notarized]).
  clear Hp'. remember (Z.to_nat (proposal_view p' - proposal_view p)) as k eqn:Ek. revert p' Hnp Ek.
  induction (lt_wf k) as [k _ IH]; intros p' Hp' -> Hv.
  destruct (decide (proposal_view p' = proposal_view p)) as [E|Hne].
  { rewrite (finalized_unique_view G p p') by done. constructor. }
  destruct (notarized_linked G p' HG Hp') as [L1 L2 L3].
  assert (proposal_view p ≤ parent p') as Hpar.
  { destruct (decide (proposal_view p ≤ parent p')) as [|Hlt]; [done|].
    destruct (L2 (proposal_view p) ltac:(lia)) as (rd & Hnu & E). by destruct (finalized_excludes_all G p rd HG Hf E). }
  destruct L3 as [E|(p'' & Hp'' & E)]; [lia|].
  apply ancestor_parent with p''; [|done..]. eapply IH; [|done|reflexivity|lia]. lia.
Qed.
End Chain.

(** ** Four participants, one of them faulty *)

Section Witness.
Import Fixtures.

Definition demo_leader (r : Rnd) (_ : option Certificate) : Z := rnd_view r mod 4.
Notation initial := (initial (T := types) [] 0 1 demo_leader 10 20 30 scheme).
Notation net_reachable := (net_reachable (T := types) [] 0 1 demo_leader 10 20 30 7 scheme 4 3 {[3]}).

(** Who signed a certificate: the faulty participant, and whoever sent a vote. *)
Definition vote_of (c : Cert) (x : Vote) : bool :=
  match c, x with
  | CNotarization m, VNotarize y => bool_decide (nt_proposal y = nz_proposal m)
  | CNullification m, VNullify y => bool_decide (nl_round y = nlz_round m)
  | CFinalization m, VFinalize y => bool_decide (fz_proposal y = fzz_proposal m)
  | _, _ => false
  end.
Definition signers (G : Z → VoterActor.Node) (c : Cert) : list Z :=
  List.filter (λ i, (i =? 3) || existsb (vote_of c) (n_sent (G i))) [0; 1; 2; 3].

Definition demo_play (G : Z → VoterActor.Node) (im : Z * Move) : option (Z → VoterActor.Node) :=
  let '(i, m) := im in
  let certs := match move_event m with Some ev => received ev | None => [] end in
  if bool_decide (i ∈ [0; 1; 2]) && forallb (λ c, 3 <=? Z.of_nat (length (signers G c))) certs then
    (λ nd, set_node G i nd) <$> move (initial i) 7 m (G i)
  else None.
Definition demo_net (ms : list (Z * Move)) : option (Z → VoterActor.Node) :=
  foldl (λ G im, G ← G; demo_play G im) (Some (λ _, boot)) ms.

Definition demo_p1 : Proposal := mkProposal (rnd 1) 0 41.
Definition demo_p2 : Proposal := mkProposal (rnd 2) 1 42.

(** What a participant does with a proposal of another one. *)
Definition demo_votes (i : Z) (p : Proposal) : list (Z * Move) :=
  [(i, MTurn 1 (EvProposal p) true); (i, MTurn 2 (EvVerified (Some true)) true)].
Definition demo_certify (i handle : Z) (p : Proposal) : list (Z * Move) :=
  [(i, MTurn 3 (EvCertificate (CNotarization (mkNotarization p [])) false) true);
   (i, MTurn 4 (EvCertified handle (Some true)) true)].

(** View 1 is led by participant 1 and view 2 by participant 2; participant 0
    crashes after the finalization of view 1 and starts again. *)
Definition demo_moves : list (Z * Move) :=
  [(0, MStart 0); (1, MStart 0); (2, MStart 0); (1, MTurn 1 (EvProposed (Some 41)) true)] ++
  demo_votes 0 demo_p1 ++ demo_votes 2 demo_p1 ++
  demo_certify 0 0 demo_p1 ++ demo_certify 1 0 demo_p1 ++ demo_certify 2 0 demo_p1 ++
  [(0, MCrash 5 (EvCertificate (CFinalization (mkFinalization demo_p1 [])) false) true 3 0); (0, MStart 6);
   (2, MTurn 7 (EvProposed (Some 42)) true)] ++ demo_votes 0 demo_p2 ++ demo_votes 1 demo_p2.
Definition demo : Z → VoterActor.Node := default (λ _, boot) (demo_net demo_moves).

Lemma vote_of_spec c x : vote_of c x = true →
  match c with
  | CNotarization m => ∃ a, x = VNotarize (mkNotarize (nz_proposal m) a)
  | CNullification m => ∃ a, x = VNullify (mkNullify (nlz_round m) a)
  | CFinalization m => ∃ a, x = VFinalize (mkFinalize (fzz_proposal m) a)
  end.
Proof.
  destruct c as [m|m|m], x as [y|y|y]; simpl; try done; intros H%bool_decide_eq_true; destruct y;
    simpl in *; subst; by eexists.
Qed.

Lemma signers_backed G c : 3 ≤ Z.of_nat (length (signers G c)) → backed 4 3 {[3]} G c.
Proof.
  intros Hl. assert (∀ says, (∀ x, vote_of c x = true → says x) → quorum_for 4 3 {[3]} G says) as H.
  { intros says Hs. exists (list_to_set (signers G c)). split_and!.
    - intros i. unfold signers, SimplexSafety.participants. rewrite !elem_of_list_to_set, elem_of_seqZ.
      rewrite list_elem_of_In, filter_In. simpl. lia.
    - rewrite size_list_to_set; [done|]. apply NoDup_ListNoDup, List.NoDup_filter.
      repeat constructor; simpl; lia.
    - intros i Hi Hf. unfold signers in Hi. rewrite elem_of_list_to_set, list_elem_of_In, filter_In in Hi.
      destruct Hi as [_ [E|E]%orb_true_iff]; [apply Z.eqb_eq in E; set_solver|].
      apply existsb_exists in E as (x & Hx & E). exists x. split; [by apply list_elem_of_In|auto]. }
  destruct c as [m|m|m]; apply H; intros x Hx; exact (vote_of_spec _ _ Hx).
Qed.

Lemma demo_play_step G im G' : demo_play G im = Some G' → net_step [] 0 1 demo_leader 10 20 30 7 scheme 4 3 {[3]} G G'.
Proof.
  destruct im as [i m]. simpl. case_bool_decide as Hi; simpl; [|done]. case_match eqn:Hb; [|done].
  destruct (move (initial i) 7 m (G i)) as [nd|] eqn:E; simpl; [|done]. intros [= <-].
  apply net_step_node with (move_event m); [|by apply move_step|].
  - split; [unfold SimplexSafety.participants|]; set_unfold; rewrite ?elem_of_seqZ; lia.
  - intros ev c Hl Hc. apply signers_backed. rewrite Hl, forallb_forall in Hb.
    apply Z.leb_le, Hb. by apply list_elem_of_In.
Qed.

Lemma demo_net_reachable ms G : demo_net ms = Some G → net_reachable G.
Proof.
  unfold demo_net. induction ms as [|im ms IH] using rev_ind in G |- *; simpl; [intros [= <-]; constructor|].
  rewrite foldl_app. simpl. destruct (foldl _ _ ms) as [G0|]; simpl; [|done]. intros E.
  eapply net_later; [by apply IH|by eapply demo_play_step].
Qed.

Lemma demo_ok : (if demo_net demo_moves then true else false) = true.
Proof. vm_compute. reflexivity. Qed.

Lemma demo_chain_reachable : net_reachable demo.
Proof.
  pose proof demo_ok as H. unfold demo. destruct (demo_net demo_moves) as [G|] eqn:E; [|done].
  by eapply demo_net_reachable.
Qed.

Lemma finalized_is_ancestor_witness : ancestor 4 3 {[3]} demo demo_p1 demo_p2.
Proof.
  assert (Z.of_nat (size ({[3]} : gset Z)) ≤ max_faults 4) as Hf by (vm_compute; discriminate).
  apply (finalized_is_ancestor [] 0 1 demo_leader 10 20 30 7 scheme 4 3 {[3]} ltac:(lia) ltac:(lia) eq_refl Hf
    (λ i _, sign_as_me i []) demo demo_p1 demo_p2 demo_chain_reachable).
  - vm_compute. discriminate.
  - apply (signers_backed demo (CFinalization (mkFinalization demo_p1 []))). vm_compute. discriminate.
  - left. apply (signers_backed demo (CNotarization (mkNotarization demo_p2 []))). vm_compute. discriminate.
  - vm_compute. discriminate.
Defined.
End Witness.
End SimplexChain.
