(* ===== verification/SimplexAccountability.v ===== *)
(** * What the evidence messages prove about a participant

    A [NullifyFinalize] message that verifies convicts a faulty participant: the
    voter of a correct one never signs such a pair.  A [ConflictingNotarize] or a
    [ConflictingFinalize] does not: the constructors, the readers and the
    verification accept a pair of equal votes, so one vote of a correct
    participant is enough to build one. *)

From S2P Require Import Prelude Codec ConsensusTypes SimplexTypes SimplexEvidence VoterSlot.
From S2P Require Import VoterRound VoterJournal Fixtures.

Module Accountability.
Section Accountability.
Context {T : Types} (verifier : Verifier) (namespace : bytes).

Lemma nullify_finalize_match_spec n f :
  nullify_finalize_match n f = true ↔
  nullify_signer n = finalize_signer f ∧ nl_round n = round (fz_proposal f).
Proof.
  unfold nullify_finalize_match. rewrite negb_true_iff, orb_false_iff, !negb_false_iff.
  by rewrite Z.eqb_eq, bool_decide_eq_true.
Qed.

(** The votes of participant [i] in view [rnd] that verify are among [sent]. *)
Definition unforgeable (rnd : Rnd) (i : Z) (sent : list Vote) : Prop :=
  (∀ n, nullify_verify verifier namespace n = true → nullify_signer n = i → nl_round n = rnd →
     VNullify n ∈ sent) ∧
  (∀ f, finalize_verify verifier namespace f = true → finalize_signer f = i →
     round (fz_proposal f) = rnd → VFinalize f ∈ sent).

(** C37: no [NullifyFinalize] evidence against a correct participant verifies,
    across any events and crashes of its voter, as long as its signatures
    cannot be forged. *)
Theorem nullify_finalize_sound scheme rnd i ops now nd sent e :
  VoterJournal.signs scheme namespace →
  VoterJournal.run scheme namespace rnd ops (VoterJournal.init scheme rnd now) [] = Some (nd, sent) →
  unforgeable rnd i sent →
  NullifyFinalize_new (nf_nullify e) (nf_finalize e) = Some e →
  nullify_signer (nf_nullify e) = i → nl_round (nf_nullify e) = rnd →
  nullify_finalize_verify verifier namespace e = false.
Proof.
  intros Hsig Hr [Hn Hf] Hnew Hi Hrnd. apply not_true_iff_false. intros [V1 V2]%andb_true_iff.
  unfold NullifyFinalize_new in Hnew. case_match eqn:Em; [|done].
  apply nullify_finalize_match_spec in Em as [Es Er].
  destruct (VoterJournal.run_journal _ _ _ Hsig _ _ _ _ Hr) as [HJ Hrec].
  destruct (Hrec _ (Hn _ V1 Hi Hrnd)) as [x Hx].
  pose proof (Hrec _ (Hf _ V2 ltac:(congruence) ltac:(congruence))) as Hy.
  exact (VoterJournal.journal_nullify_finalize _ _ HJ _ _ Hx Hy).
Qed.

(** one verified notarize vote is enough for [ConflictingNotarize] evidence
    that its constructor accepts and that verifies, and one finalize vote for
    [ConflictingFinalize] evidence. *)
Theorem single_vote_makes_evidence n f :
  notarize_verify verifier namespace n = true → finalize_verify verifier namespace f = true →
  (∃ e, ConflictingNotarize_new n n = Some e ∧
     conflicting_notarize_verify verifier namespace e = true) ∧
  (∃ e, ConflictingFinalize_new f f = Some e ∧
     conflicting_finalize_verify verifier namespace e = true).
Proof.
  intros Hn Hf. split.
  - exists (mkConflictingNotarize n n). unfold ConflictingNotarize_new, notarizes_match.
    rewrite Z.eqb_refl, bool_decide_true by done. split; [done|].
    unfold conflicting_notarize_verify. simpl. by rewrite Hn.
  - exists (mkConflictingFinalize f f). unfold ConflictingFinalize_new, finalizes_match.
    rewrite Z.eqb_refl, bool_decide_true by done. split; [done|].
    unfold conflicting_finalize_verify. simpl. by rewrite Hf.
Qed.
End Accountability.

Section Witness.
Import Fixtures.

(** Signatures of the fixture scheme, checked. *)
Definition demo_verifier : Verifier := mkVerifier
  (λ _ s a, signature a =? 100 * signer a + subject_view s) (λ _ _ _, true) (λ _ _, true).

(** Participant 0 times out in view 5 and signs nothing else. *)
Definition demo_nullify : Nullify := mkNullify (rnd 5) (mkAttestation (T := types) 0 5).
Definition nullify_verifier : Verifier := mkVerifier
  (λ _ s a, match s with SNullify _ => signature a =? 100 * signer a + subject_view s | _ => false end)
  (λ _ _ _, true) (λ _ _, true).
Definition demo_evidence : NullifyFinalize :=
  mkNullifyFinalize demo_nullify (mkFinalize (proposal 5 77) (mkAttestation (T := types) 0 6)).

Lemma demo_unforgeable : unforgeable nullify_verifier [] (rnd 5) 0 [VNullify demo_nullify].
Proof.
  split; [|by intros f]. intros [r [s g]] Hv Hs Hr. unfold nullify_signer in Hs.
  simpl in Hs, Hr. subst. apply Z.eqb_eq in Hv. simpl in Hv. subst. apply list_elem_of_here.
Qed.

Lemma nullify_finalize_sound_witness :
  nullify_finalize_verify nullify_verifier [] demo_evidence = false.
Proof.
  exact (nullify_finalize_sound nullify_verifier [] (scheme 0) (rnd 5) 0 [OTimeout] 0 _
    [VNullify demo_nullify] demo_evidence (sign_as_me 0 []) eq_refl demo_unforgeable
    eq_refl eq_refl eq_refl).
Defined.

Lemma single_vote_makes_evidence_witness :
  ∃ e, ConflictingNotarize_new (mkNotarize (proposal 5 77) (mkAttestation (T := types) 0 5))
         (mkNotarize (proposal 5 77) (mkAttestation 0 5)) = Some e ∧
    conflicting_notarize_verify demo_verifier [] e = true.
Proof.
  exact (proj1 (single_vote_makes_evidence demo_verifier []
    (mkNotarize (proposal 5 77) (mkAttestation (T := types) 0 5))
    (mkFinalize (proposal 5 77) (mkAttestation (T := types) 0 5)) eq_refl eq_refl)).
Defined.
End Witness.
End Accountability.
