(* ===== verification/BTreeMap.v ===== *)
(** * The standard library's ordered map

    A [BTreeMap<u64, V>] is the list of its entries in ascending order of the keys.
    The lemmas say what an operation does on a list cut at the key it is about. *)

From S2P Require Import Prelude.

Module BTreeMap.
Section Ops.
Context {V : Type}.
Implicit Types m : list (Z * V).

Fixpoint get m (k : Z) : option V :=
  match m with [] => None | (k', v) :: m => if k' =? k then Some v else get m k end.
Fixpoint insert m (k : Z) (v : V) : list (Z * V) :=
  match m with
  | [] => [(k, v)]
  | (k', v') :: m' => if k <? k' then (k, v) :: m else if k =? k' then (k, v) :: m' else (k', v') :: insert m' k v
  end.
Fixpoint remove m (k : Z) : list (Z * V) :=
  match m with [] => [] | (k', v) :: m => if k' =? k then m else (k', v) :: remove m k end.
(** [range(..=k).next_back()] *)
Definition last_upto m (k : Z) : option (Z * V) := last (filter (λ e, e.1 ≤ k) m).
(** [range(k..).next()] *)
Definition first_from m (k : Z) : option (Z * V) := head (filter (λ e, k ≤ e.1) m).
Definition first m : option (Z * V) := head m.
Definition last m : option (Z * V) := list.last m.
End Ops.

Section Facts.
Context {V : Type}.
Implicit Types m : list (Z * V).

Definition below (k : Z) m : Prop := Forall (λ e, e.1 < k) m.
Definition above (k : Z) m : Prop := Forall (λ e, k < e.1) m.

Lemma below_mono k k' m : below k m → k ≤ k' → below k' m.
Proof. intros H ?. eapply Forall_impl; [exact H|]. cbn. lia. Qed.
Lemma above_mono k k' m : above k m → k' ≤ k → above k' m.
Proof. intros H ?. eapply Forall_impl; [exact H|]. cbn. lia. Qed.

Lemma filter_upto m k : below (k + 1) m → filter (λ e, e.1 ≤ k) m = m.
Proof. intros H. apply filter_id. intros e He. unfold below in H. rewrite Forall_forall in H. specialize (H e He). cbn in H. lia. Qed.
Lemma filter_upto_nil m k : above k m → filter (λ e, e.1 ≤ k) m = [].
Proof.
  induction 1 as [|e m He _ IH]; [done|]. rewrite filter_cons_False by lia. exact IH.
Qed.
Lemma filter_from m k : above (k - 1) m → filter (λ e, k ≤ e.1) m = m.
Proof. intros H. apply filter_id. intros e He. unfold above in H. rewrite Forall_forall in H. specialize (H e He). cbn in H. lia. Qed.
Lemma filter_from_nil m k : below k m → filter (λ e, k ≤ e.1) m = [].
Proof. induction 1 as [|e m He _ IH]; [done|]. rewrite filter_cons_False by lia. exact IH. Qed.

Lemma last_upto_app l r k : below (k + 1) l → above k r → last_upto (l ++ r) k = list.last l.
Proof. intros Hl Hr. unfold last_upto. by rewrite filter_app, filter_upto, filter_upto_nil, app_nil_r. Qed.
Lemma first_from_app l r k : below k l → above (k - 1) r → first_from (l ++ r) k = head r.
Proof. intros Hl Hr. unfold first_from. by rewrite filter_app, (filter_from_nil l), (filter_from r). Qed.

Lemma insert_app l r k v : below k l → above k r → insert (l ++ r) k v = l ++ (k, v) :: r.
Proof.
  induction 1 as [|[k' v'] l Hk _ IH]; intros Hr; cbn.
  - destruct Hr as [|[k' v'] r Hk Hr]; [done|]. cbn in *. by rewrite (proj2 (Z.ltb_lt _ _)).
  - cbn in Hk. rewrite (proj2 (Z.ltb_ge _ _)), (proj2 (Z.eqb_neq _ _)) by lia. by rewrite IH.
Qed.
Lemma remove_app l r k v : below k l → remove (l ++ (k, v) :: r) k = l ++ r.
Proof.
  induction 1 as [|[k' v'] l Hk _ IH]; cbn; [by rewrite Z.eqb_refl|]. cbn in Hk. rewrite (proj2 (Z.eqb_neq _ _)) by lia. by rewrite IH.
Qed.
Lemma replace_app l r k v v' : below k l → above k r → insert (remove (l ++ (k, v) :: r) k) k v' = l ++ (k, v') :: r.
Proof. intros. by rewrite remove_app, insert_app. Qed.
Lemma get_app l r k v : below k l → get (l ++ (k, v) :: r) k = Some v.
Proof.
  induction 1 as [|[k' v'] l Hk _ IH]; cbn; [by rewrite Z.eqb_refl|]. cbn in Hk. by rewrite (proj2 (Z.eqb_neq _ _)) by lia.
Qed.

Definition ascending m : Prop := StronglySorted Z.lt m.*1.

Lemma insert_insert m k v v' : insert (insert m k v) k v' = insert m k v'.
Proof.
  induction m as [|[k0 v0] m IH]; cbn; [by rewrite Z.ltb_irrefl, Z.eqb_refl|].
  destruct (Z.ltb_spec k k0); cbn; [by rewrite Z.ltb_irrefl, Z.eqb_refl|].
  destruct (Z.eqb_spec k k0); cbn; [by rewrite Z.ltb_irrefl, Z.eqb_refl|].
  rewrite (proj2 (Z.ltb_ge _ _)), (proj2 (Z.eqb_neq _ _)) by lia. by rewrite IH.
Qed.
Lemma get_insert m k v k' : get (insert m k v) k' = if decide (k = k') then Some v else get m k'.
Proof.
  induction m as [|[k0 v0] m IH]; cbn; [by destruct (Z.eqb_spec k k'), (decide (k = k'))|].
  destruct (Z.ltb_spec k k0); [|destruct (Z.eqb_spec k k0) as [<-|]]; cbn.
  - by destruct (Z.eqb_spec k k'), (decide (k = k')).
  - by destruct (Z.eqb_spec k k'), (decide (k = k')).
  - rewrite IH. destruct (Z.eqb_spec k0 k'), (decide (k = k')); try done. lia.
Qed.
Lemma insert_keys m k v k' : k' ∈ (insert m k v).*1 ↔ k' = k ∨ k' ∈ m.*1.
Proof.
  induction m as [|[k0 v0] m IH]; cbn; [by rewrite list_elem_of_singleton, elem_of_nil; tauto|].
  destruct (Z.ltb_spec k k0); [|destruct (Z.eqb_spec k k0) as [<-|]]; cbn; rewrite ?elem_of_cons, ?IH; tauto.
Qed.
Lemma insert_ascending m k v : ascending m → ascending (insert m k v).
Proof.
  unfold ascending. induction m as [|[k0 v0] m IH]; cbn; intros H; [by repeat constructor|].
  inversion H as [|? ? Hm Hk]; subst. destruct (Z.ltb_spec k k0); [|destruct (Z.eqb_spec k k0) as [<-|]]; cbn.
  - constructor; [done|]. constructor; [done|]. eapply Forall_impl; [exact Hk|]. cbn. lia.
  - by constructor.
  - constructor; [by apply IH|]. apply Forall_forall. intros x [->|Hx]%insert_keys; [lia|].
    rewrite Forall_forall in Hk. by apply Hk.
Qed.
Lemma get_keys m k : is_Some (get m k) ↔ k ∈ m.*1.
Proof.
  induction m as [|[k0 v0] m IH]; cbn; [by rewrite elem_of_nil; split; [intros [? ?]|]|].
  rewrite elem_of_cons. destruct (Z.eqb_spec k0 k) as [->|]; [by split; eauto|]. rewrite IH. naive_solver.
Qed.
Lemma filter_ascending (P : Z * V → Prop) `{!∀ e, Decision (P e)} m : ascending m → ascending (filter P m).
Proof.
  unfold ascending. induction m as [|[k v] m IH]; intros Hs; [done|]. cbn in Hs. inversion Hs as [|? ? Hm Hk]; subst.
  rewrite filter_cons. case_decide; [|by apply IH]. cbn. constructor; [by apply IH|].
  apply Forall_forall. intros x ([k' v'] & -> & [_ Hin]%list_elem_of_filter)%list_elem_of_fmap.
  rewrite Forall_forall in Hk. apply Hk. apply list_elem_of_fmap. by exists (k', v').
Qed.

Lemma elem_of_get m k v : ascending m → (k, v) ∈ m ↔ get m k = Some v.
Proof.
  unfold ascending. induction m as [|[k0 v0] m IH]; cbn; intros Hs; [by rewrite elem_of_nil|]. inversion Hs as [|? ? Hm Hk]; subst.
  rewrite elem_of_cons. destruct (Z.eqb_spec k0 k) as [E|Hne]; [subst k0|].
  - split; [|by intros [= ->]; left]. intros [[= ->]|Hin]; [done|].
    apply (list_elem_of_fmap_2 fst) in Hin. rewrite Forall_forall in Hk. specialize (Hk _ Hin). cbn in Hk. lia.
  - rewrite <- IH by done. split; [intros [[= -> ->]|]; [done|done]|by right].
Qed.
Lemma ascending_ext m m' : ascending m → ascending m' → (∀ k, get m k = get m' k) → m = m'.
Proof.
  intros Hm Hm' E. assert (m.*1 = m'.*1) as Hk.
  { apply sorted_elements_unique; [done..|]. intros k. by rewrite <- !get_keys, E. }
  revert m' Hm' E Hk. induction m as [|[k v] m IH]; intros [|[k' v'] m'] Hm' E Hk; try done. cbn in Hk. injection Hk as -> Hk.
  unfold ascending in *. cbn in Hm, Hm'. inversion Hm as [|? ? Hs Hf]; subst. inversion Hm' as [|? ? Hs' Hf']; subst.
  pose proof (E k') as Ek. cbn in Ek. rewrite Z.eqb_refl in Ek. injection Ek as ->. f_equal. apply IH; [done..| |done].
  intros k0. specialize (E k0). cbn in E. destruct (Z.eqb_spec k' k0) as [Ek|]; [subst k0|done].
  assert (∀ l : list (Z * V), Forall (Z.lt k') l.*1 → get l k' = None) as Hn.
  { intros l Hl. apply eq_None_not_Some. intros Hin%get_keys. rewrite Forall_forall in Hl. specialize (Hl _ Hin). lia. }
  by rewrite !Hn.
Qed.

(** A map built from its entries in any order. *)
Definition insert_all m (l : list (Z * V)) : list (Z * V) := foldl (λ m e, insert m e.1 e.2) m l.
Lemma insert_all_ascending l m : ascending m → ascending (insert_all m l).
Proof. revert m. induction l as [|e l IH]; intros m Hm; [done|]. by apply IH, insert_ascending. Qed.
Lemma get_insert_all l m k : NoDup l.*1 →
  (∀ v, (k, v) ∈ l → get (insert_all m l) k = Some v) ∧ (k ∉ l.*1 → get (insert_all m l) k = get m k).
Proof.
  revert m. induction l as [|[k0 v0] l IH]; intros m Hd; [by split; [intros v ?%elem_of_nil|]|].
  cbn in Hd. apply NoDup_cons in Hd as [Hn Hd]. destruct (IH (insert m k0 v0) Hd) as [IH1 IH2].
  change (insert_all m ((k0, v0) :: l)) with (insert_all (insert m k0 v0) l). rewrite fmap_cons. split.
  - intros v [[= -> ->]|Hin]%elem_of_cons; [|by apply IH1]. rewrite IH2 by done. rewrite get_insert. by rewrite decide_True.
  - intros [? ?]%not_elem_of_cons. rewrite IH2 by done. rewrite get_insert. by rewrite decide_False.
Qed.
Lemma insert_all_permutation m l : ascending m → l ≡ₚ m → insert_all [] l = m.
Proof.
  intros Hm Hp. apply ascending_ext; [by apply insert_all_ascending; constructor|done|]. intros k.
  assert (NoDup l.*1) as Hd.
  { rewrite Hp. unfold ascending in Hm. induction Hm as [|x xs ? IH Hf]; constructor; [|done].
    intros Hin. rewrite Forall_forall in Hf. specialize (Hf _ Hin). lia. }
  destruct (get_insert_all l [] k Hd) as [H1 H2]. destruct (get m k) as [v|] eqn:E.
  - apply H1. rewrite Hp. by apply elem_of_get.
  - apply H2. rewrite Hp, <- get_keys, E. by intros [? ?].
Qed.

Lemma ascending_app l r : ascending (l ++ r) → ascending l ∧ ascending r ∧ ∀ x y, x ∈ l → y ∈ r → x.1 < y.1.
Proof.
  unfold ascending. rewrite fmap_app. intros H. apply StronglySorted_app in H as (Hlr & Hl & Hr). split_and!; [done..|].
  intros x y Hx Hy. apply Hlr; by apply list_elem_of_fmap_2.
Qed.
(** Removing what is above a key, the last entry first. *)
Lemma remove_above l r : ascending (l ++ r) → foldl remove (l ++ r) (rev r.*1) = l.
Proof.
  induction r as [|[k v] r IH] using rev_ind; intros Ha; [by rewrite app_nil_r|].
  rewrite fmap_app, rev_app_distr. cbn. rewrite app_assoc in Ha. rewrite app_assoc, (remove_app (l ++ r) [] k v), app_nil_r.
  - apply IH. by apply ascending_app in Ha as (? & _).
  - apply ascending_app in Ha as (_ & _ & H). apply Forall_forall. intros x Hx. apply (H x (k, v)); [done|]. by left.
Qed.
Lemma split_at m k : ascending m → ∃ l r, m = l ++ r ∧ below (k + 1) l ∧ above k r.
Proof.
  unfold ascending. induction m as [|[k0 v] m IH]; intros Ha; [by exists [], []; split_and!; constructor|].
  cbn in Ha. inversion Ha as [|? ? Hm Hf]; subst. destruct (Z.lt_ge_cases k k0).
  - exists [], ((k0, v) :: m). split_and!; [done|constructor|]. constructor; [done|]. apply Forall_forall. intros x Hx.
    rewrite Forall_forall in Hf. specialize (Hf x.1 ltac:(by apply list_elem_of_fmap_2)). lia.
  - destruct (IH Hm) as (l & r & -> & Hl & Hr). exists ((k0, v) :: l), r. split_and!; [done| |done]. constructor; [cbn; lia|done].
Qed.
Lemma filter_above l r k : below (k + 1) l → above k r → filter (λ e, k < e.1) (l ++ r) = r.
Proof.
  intros Hl Hr. rewrite filter_app. rewrite (filter_id _ r) by (intros x Hx; unfold above in Hr; rewrite Forall_forall in Hr; by apply Hr).
  assert (filter (λ e, k < e.1) l = []) as ->; [|done]. clear -Hl. induction Hl as [|e l He _ IH]; [done|].
  rewrite filter_cons_False by lia. exact IH.
Qed.
Lemma get_upto m k : ascending m → get (filter (λ e, e.1 ≤ k) m) k = get m k.
Proof.
  intros Hm. destruct (split_at m k Hm) as (l & r & -> & Hl & Hr). rewrite filter_app, filter_upto, filter_upto_nil, app_nil_r by done.
  clear Hm. induction Hl as [|[k0 x] l _ _ IH]; cbn; [|by rewrite IH].
  symmetry. apply eq_None_not_Some. intros (y & -> & Hy)%get_keys%list_elem_of_fmap. unfold above in Hr. rewrite Forall_forall in Hr.
  specialize (Hr y Hy). lia.
Qed.
End Facts.

(** Maps of related values. *)
Section Related.
Context {V W : Type} (R : V → W → Prop).

Definition related (m : list (Z * V)) (m' : list (Z * W)) : Prop := Forall2 (λ x y, x.1 = y.1 ∧ R x.2 y.2) m m'.

Lemma related_keys m m' : related m m' → m.*1 = m'.*1.
Proof. induction 1 as [|[k v] [k' v'] m m' [E _] _ IH]; [done|]. cbn in *. by rewrite E, IH. Qed.
Lemma related_get m m' k : related m m' →
  match get m k, get m' k with Some v, Some v' => R v v' | None, None => True | _, _ => False end.
Proof.
  induction 1 as [|[k0 v] [k0' v'] m m' [E HR] _ IH]; [done|]. cbn in *. subst k0'. by destruct (k0 =? k).
Qed.
Lemma related_insert m m' k v v' : related m m' → R v v' → related (insert m k v) (insert m' k v').
Proof.
  intros H HR. induction H as [|[k0 x] [k0' x'] m m' [E Hx] Hm IH]; cbn in *; [by repeat constructor|]. subst k0'.
  destruct (k <? k0); [|destruct (k =? k0)]; by repeat constructor.
Qed.
Lemma related_filter (P : Z → Prop) `{!∀ k, Decision (P k)} m m' : related m m' →
  related (filter (λ e, P e.1) m) (filter (λ e, P e.1) m').
Proof.
  induction 1 as [|[k v] [k' v'] m m' [E HR] _ IH]; [by constructor|]. cbn in E. subst k'. rewrite !filter_cons. cbn [fst].
  case_decide; [by constructor|done].
Qed.
End Related.
End BTreeMap.
