(* ===== verification/RMap.v ===== *)
(** * Sets of indices as disjoint ranges (storage/src/rmap/mod.rs)

    An [RMap] keeps a set of [u64]s as inclusive ranges in ascending order.
    [wf] is its invariant: ranges are valid, disjoint and not adjacent, so that a
    set has one representation.  Every operation keeps it and does to the set what
    the code promises. *)

From S2P Require Import Prelude BTreeMap.

Module RMap.
Definition u64_max : Z := 2 ^ 64 - 1.

(** The entries of the [BTreeMap]: start and inclusive end. *)
Definition RMap : Type := list (Z * Z).
Implicit Types m : RMap.

Definition new : RMap := [].

(** [None] is an overflow. *)
Definition insert m (value : Z) : option RMap :=
  let prev_opt := BTreeMap.last_upto m value in
  let next_opt := if value =? u64_max then None else BTreeMap.first_from m (value + 1) in
  match prev_opt, next_opt with
  | Some (p_start, p_end), Some (n_start, n_end) =>
      if value <=? p_end then Some m
      else
        after ← checked_add 64 p_end 1;
        succ ← checked_add 64 value 1;
        if (value =? after) && (succ =? n_start) then
          Some (BTreeMap.insert (BTreeMap.remove (BTreeMap.remove m p_start) n_start) p_start n_end)
        else if value =? after then Some (BTreeMap.insert (BTreeMap.remove m p_start) p_start value)
        else if succ =? n_start then Some (BTreeMap.insert (BTreeMap.remove m n_start) value n_end)
        else Some (BTreeMap.insert m value value)
  | Some (p_start, p_end), None =>
      if value <=? p_end then Some m
      else
        after ← checked_add 64 p_end 1;
        if value =? after then Some (BTreeMap.insert (BTreeMap.remove m p_start) p_start value)
        else Some (BTreeMap.insert m value value)
  | None, Some (n_start, n_end) =>
      succ ← checked_add 64 value 1;
      if succ =? n_start then Some (BTreeMap.insert (BTreeMap.remove m n_start) value n_end)
      else Some (BTreeMap.insert m value value)
  | None, None => Some (BTreeMap.insert m value value)
  end.

Definition get m (value : Z) : option (Z * Z) :=
  match BTreeMap.last_upto m value with
  | Some (start, last) => if value <=? last then Some (start, last) else None
  | None => None
  end.

(** The ranges to remove and to add, in the order of the entries. *)
Fixpoint remove_loop (entries : RMap) (start stop : Z) (to_remove : list Z) (to_add : list (Z * Z))
    : option (list Z * list (Z * Z)) :=
  match entries with
  | [] => Some (to_remove, to_add)
  | (r_start, r_end) :: entries =>
      if (r_end <? start) || (stop <? r_start) then remove_loop entries start stop to_remove to_add
      else if (start <=? r_start) && (r_end <=? stop) then remove_loop entries start stop (to_remove ++ [r_start]) to_add
      else if (r_start <? start) && (stop <? r_end) then
        before ← checked_sub start 1;
        after ← checked_add 64 stop 1;
        remove_loop entries start stop (to_remove ++ [r_start]) (to_add ++ [(r_start, before); (after, r_end)])
      else if (start <=? r_start) && (stop <? r_end) then
        after ← checked_add 64 stop 1;
        remove_loop entries start stop (to_remove ++ [r_start]) (to_add ++ [(after, r_end)])
      else if (r_start <? start) && (r_end <=? stop) then
        before ← checked_sub start 1;
        remove_loop entries start stop (to_remove ++ [r_start]) (to_add ++ [(r_start, before)])
      else remove_loop entries start stop to_remove to_add
  end.
Definition remove m (start stop : Z) : option RMap :=
  if stop <? start then Some m
  else
    '(to_remove, to_add) ← remove_loop m start stop [] [];
    let m := foldl BTreeMap.remove m to_remove in
    Some (foldl (λ m a, if a.1 <=? a.2 then BTreeMap.insert m a.1 a.2 else m) m to_add).

Definition iter m : list (Z * Z) := m.
Definition first_index m : option Z := fst <$> BTreeMap.first m.
Definition last_index m : option Z := snd <$> BTreeMap.last m.

Definition next_gap m (value : Z) : option Z * option Z :=
  let current_range_end :=
    match BTreeMap.last_upto m value with
    | Some (_, last) => if value <=? last then Some last else None
    | None => None
    end in
  let next_range_start :=
    if value =? u64_max then None else fst <$> BTreeMap.first_from m (value + 1) in
  (current_range_end, next_range_start).

(** Every second turn of the loop leaves a range behind, and the last finds none. *)
Fixpoint missing_loop (fuel : nat) m (current max : Z) (missing : list Z) : option (list Z) :=
  match fuel with
  | O => None
  | S fuel =>
      match next_gap m current with
      | (Some last, _) =>
          if last =? u64_max then Some missing
          else current ← checked_add 64 last 1; missing_loop fuel m current max missing
      | (None, None) => Some missing
      | (None, Some next_start) =>
          gap_end ← checked_sub next_start 1;
          items_needed ← checked_sub max (Z.of_nat (length missing));
          needed ← checked_sub items_needed 1;
          let gap_end := Z.min gap_end (saturating_add 64 current needed) in
          let missing := missing ++ seqZ current (gap_end + 1 - current) in
          if max <=? Z.of_nat (length missing) then Some missing
          else missing_loop fuel m next_start max missing
      end
  end.
(** [Vec::<u64>::with_capacity(max)] panics when the bytes exceed [isize::MAX]; that
    the allocation itself succeeds is assumed. *)
Definition with_capacity (max : Z) : option unit := if max * 8 <=? 2 ^ 63 - 1 then Some tt else None.
Definition missing_items m (start max : Z) : option (list Z) :=
  if max <=? 0 then None
  else
    _ ← with_capacity max;
    missing_loop (2 * length m + 1) m start max [].
End RMap.
