(* ===== verification/RMapProperties.v ===== *)
(** * An [RMap] is a set of indices

    [wf] is kept by every operation, the representation of a set is unique, and
    each operation is the one of sets: insertion, removal of an interval, the
    maximal interval around an index, the next gap and the missing indices. *)

From S2P Require Import Prelude BTreeMap RMap.

Module RMapProperties.
Import RMap.
Implicit Types m l : list (Z * Z).

(** [lo] is the least start of the next range. *)
Fixpoint wf_from (lo : Z) m : Prop :=
  match m with [] => True | (a, b) :: m => lo ≤ a ∧ a ≤ b < 2 ^ 64 ∧ wf_from (b + 2) m end.
Definition wf m : Prop := wf_from 0 m.

(** Membership of the set. *)
Definition elem m (x : Z) : Prop := Exists (λ r, r.1 ≤ x ≤ r.2) m.
#[export] Instance elem_dec m x : Decision (elem m x).
Proof. unfold elem. apply _. Defined.

Lemma elem_nil x : elem [] x ↔ False.
Proof. apply Exists_nil. Qed.
Lemma elem_cons a b m x : elem ((a, b) :: m) x ↔ a ≤ x ≤ b ∨ elem m x.
Proof. apply Exists_cons. Qed.
Lemma elem_app l r x : elem (l ++ r) x ↔ elem l x ∨ elem r x.
Proof. apply Exists_app. Qed.
#[local] Hint Rewrite elem_nil elem_cons elem_app : rmap.
(** Membership in two maps put together from the same parts. *)
Ltac rmap_elem :=
  let x := fresh "x" in
  intros x; autorewrite with rmap;
  repeat match goal with
  | H : forall _, _ |- _ => clear H
  | H : _ -> _ |- _ => clear H
  end; intuition lia.

(** ** The invariant on lists that are put together *)

Definition bound (lo : Z) m : Z := match last m with Some r => r.2 + 2 | None => lo end.

Lemma bound_cons lo a b m : bound lo ((a, b) :: m) = bound (b + 2) m.
Proof. unfold bound. rewrite last_cons. by destruct (last m). Qed.

Lemma wf_app lo l r : wf_from lo (l ++ r) ↔ wf_from lo l ∧ wf_from (bound lo l) r.
Proof.
  revert lo. induction l as [|[a b] l IH]; intros lo; cbn; [tauto|]. rewrite IH, bound_cons. tauto.
Qed.
Lemma wf_mono lo lo' m : wf_from lo m → lo' ≤ lo → wf_from lo' m.
Proof. destruct m as [|[a b] m]; cbn; [done|]. intuition lia. Qed.
Lemma bound_le lo m : wf_from lo m → lo ≤ bound lo m.
Proof.
  revert lo. induction m as [|[a b] m IH]; intros lo; [done|]. rewrite bound_cons. cbn. intros (? & ? & H). specialize (IH _ H). lia.
Qed.
Lemma wf_elem lo m x : wf_from lo m → elem m x → lo ≤ x < 2 ^ 64 ∧ x ≤ bound lo m - 2.
Proof.
  revert lo. induction m as [|[a b] m IH]; intros lo; cbn [wf_from]; autorewrite with rmap; [done|]. rewrite bound_cons. intros (? & ? & H) [Hx|Hx].
  - pose proof (bound_le _ _ H). lia.
  - specialize (IH _ H Hx). lia.
Qed.
Lemma wf_entry lo m a b : wf_from lo m → (a, b) ∈ m → lo ≤ a ≤ b ∧ b < 2 ^ 64.
Proof.
  revert lo. induction m as [|[a' b'] m IH]; intros lo; cbn [wf_from]; [by intros _ ?%not_elem_of_nil|].
  intros (? & ? & H) [[= -> ->]|Hin]%elem_of_cons; [lia|]. specialize (IH _ H Hin). lia.
Qed.
Lemma wf_keys lo m : wf_from lo m → BTreeMap.above (lo - 1) m ∧ BTreeMap.below (bound lo m - 1) m.
Proof.
  intros H. split; apply Forall_forall; intros [a b] Hin; cbn.
  all: pose proof (wf_entry _ _ _ _ H Hin).
  all: assert (elem m a) as He by (apply Exists_exists; exists (a, b); cbn; split; [done|lia]).
  all: apply (wf_elem _ _ _ H) in He; lia.
Qed.

(** A map cut at a key: what starts up to it and what starts above. *)
Lemma cut_at lo m v : wf_from lo m → ∃ l r, m = l ++ r ∧ BTreeMap.below (v + 1) l ∧ BTreeMap.above v r.
Proof.
  revert lo. induction m as [|[a b] m IH]; intros lo; cbn; [exists [], []; split_and!; [done|constructor..]|]. intros (? & ? & H). destruct (decide (a ≤ v)) as [Hle|Hgt].
  - destruct (IH _ H) as (l & r & -> & Hl & Hr). exists ((a, b) :: l), r. split_and!; [done| |done]. constructor; [cbn; lia|done].
  - exists [], ((a, b) :: m). split_and!; [done|constructor|]. constructor; [cbn; lia|].
    apply wf_keys in H as [H _]. eapply BTreeMap.above_mono; [exact H|lia].
Qed.

(** ** Insertion *)

Lemma succ_some v : fits 64 v → v ≠ u64_max → checked_add 64 v 1 = Some (v + 1).
Proof. unfold fits, u64_max, checked_add. intros [? ?] ?. by rewrite (proj2 (Z.ltb_lt _ _)) by lia. Qed.

(** A range that takes the place of what was between two parts of the map. *)
Lemma wf_between l a b r : wf_from 0 l → bound 0 l ≤ a → a ≤ b < 2 ^ 64 → wf_from (b + 2) r → wf (l ++ (a, b) :: r).
Proof. intros. apply wf_app. cbn. split_and!; try done; lia. Qed.

(** What insertion is to achieve. *)
Definition inserts m (v : Z) (m' : option RMap) : Prop :=
  ∃ n, m' = Some n ∧ wf n ∧ ∀ x, elem n x ↔ x = v ∨ elem m x.

Lemma inserts_between m v l a b r : wf_from 0 l → bound 0 l ≤ a → a ≤ b < 2 ^ 64 → wf_from (b + 2) r →
  (∀ x, elem l x ∨ a ≤ x ≤ b ∨ elem r x ↔ x = v ∨ elem m x) → inserts m v (Some (l ++ (a, b) :: r)).
Proof.
  intros H1 H2 H3 H4 H5. eexists. split; [done|]. split; [by apply wf_between|]. intros x. autorewrite with rmap. apply H5.
Qed.

(** No range starts at the index or before. *)
Lemma insert_first r v : wf r → fits 64 v → BTreeMap.above v r → inserts r v (
  match head r with
  | Some (n_start, n_end) =>
      succ ← checked_add 64 v 1;
      if succ =? n_start then Some (BTreeMap.insert (BTreeMap.remove r n_start) v n_end) else Some (BTreeMap.insert r v v)
  | None => Some (BTreeMap.insert r v v)
  end).
Proof.
  unfold fits. intros Hwr Hv Hr. destruct r as [|[ns ne] r]; cbn [head].
  - apply (inserts_between _ _ []); cbn; try done; try lia. rmap_elem.
  - cbn in Hwr. destruct Hwr as (? & ? & Hwr). apply Forall_cons in Hr as [Hns Hr]. cbn in Hns.
    rewrite succ_some by (unfold fits, u64_max; lia). cbn [mbind option_bind]. destruct (Z.eqb_spec (v + 1) ns) as [<-|Hne].
    + cbn [BTreeMap.remove]. pose proof (wf_keys _ _ Hwr) as [Hkr _].
      rewrite Z.eqb_refl, (BTreeMap.insert_app [] r v ne : _ → _ → BTreeMap.insert r v ne = _)
        by (constructor || (eapply BTreeMap.above_mono; [exact Hkr|lia])).
      apply (inserts_between _ _ []); cbn; try done; try lia. rmap_elem.
    + rewrite (BTreeMap.insert_app [] ((ns, ne) :: r) v v : _ → _ → BTreeMap.insert ((ns, ne) :: r) v v = _) by (constructor; done).
      apply (inserts_between _ _ []); cbn; try done; try lia; [|rmap_elem]. split_and!; done || lia.
Qed.

(** The index follows the range that starts last before it. *)
Section After.
Context (l : list (Z * Z)) (ps pe : Z) (r : list (Z * Z)) (v : Z).
Context (Hwl' : wf_from 0 l) (Hps : bound 0 l ≤ ps) (Hpe : ps ≤ pe) (Hout : pe < v) (Hv : v < 2 ^ 64).
Context (Hwr : wf_from (pe + 2) r) (Hr : BTreeMap.above v r).
Notation m := (l ++ (ps, pe) :: r).

Lemma after_below : BTreeMap.below ps l ∧ BTreeMap.below v (l ++ [(ps, pe)]) ∧ BTreeMap.above ps r.
Proof.
  pose proof (wf_keys _ _ Hwl') as [_ H]. split_and!; [eapply BTreeMap.below_mono; [exact H|lia]| |eapply BTreeMap.above_mono; [exact Hr|lia]].
  apply Forall_app. split; [eapply BTreeMap.below_mono; [exact H|lia]|]. constructor; [cbn; lia|constructor].
Qed.
Lemma after_wf : wf_from 0 (l ++ [(ps, pe)]) ∧ bound 0 (l ++ [(ps, pe)]) = pe + 2.
Proof. split; [apply wf_app; split; [done|cbn; lia]|unfold bound; by rewrite last_snoc]. Qed.

Lemma after_replace x : BTreeMap.insert (BTreeMap.remove m ps) ps x = l ++ (ps, x) :: r.
Proof. destruct after_below as (? & ? & ?). by apply BTreeMap.replace_app. Qed.
Lemma after_isolated : BTreeMap.insert m v v = (l ++ [(ps, pe)]) ++ (v, v) :: r.
Proof. destruct after_below as (? & ? & ?). change ((ps, pe) :: r) with ([(ps, pe)] ++ r). rewrite app_assoc. by apply BTreeMap.insert_app. Qed.

Lemma after_succ : checked_add 64 pe 1 = Some (pe + 1).
Proof. pose proof (bound_le _ _ Hwl'). apply succ_some; unfold fits, u64_max; lia. Qed.

Lemma insert_last : r = [] → inserts m v (
  after ← checked_add 64 pe 1;
  if v =? after then Some (BTreeMap.insert (BTreeMap.remove m ps) ps v) else Some (BTreeMap.insert m v v)).
Proof.
  intros Hr0. pose proof after_wf as [Hwl Eb]. rewrite after_succ, after_replace, after_isolated. cbn [mbind option_bind].
  destruct (Z.eqb_spec v (pe + 1)); apply inserts_between; rewrite ?Eb; subst r; try done; try lia; rmap_elem.
Qed.

Lemma insert_between ns ne r' : r = (ns, ne) :: r' → inserts m v (
  after ← checked_add 64 pe 1;
  succ ← checked_add 64 v 1;
  if (v =? after) && (succ =? ns) then Some (BTreeMap.insert (BTreeMap.remove (BTreeMap.remove m ps) ns) ps ne)
  else if v =? after then Some (BTreeMap.insert (BTreeMap.remove m ps) ps v)
  else if succ =? ns then Some (BTreeMap.insert (BTreeMap.remove m ns) v ne)
  else Some (BTreeMap.insert m v v)).
Proof.
  intros Er. pose proof after_wf as [Hwl Eb]. pose proof after_below as (Hlp & Hlv & Hrp). pose proof (bound_le _ _ Hwl') as Hb.
  rewrite after_succ, after_replace, after_isolated. subst r. cbn in Hwr. destruct Hwr as (? & ? & Hwr').
  apply Forall_cons in Hr as [Hns Hr']. cbn in Hns. pose proof (wf_keys _ _ Hwr') as [Hkr _].
  rewrite succ_some by (unfold fits, u64_max; lia). cbn [mbind option_bind].
  assert (BTreeMap.remove (l ++ (ps, pe) :: (ns, ne) :: r') ps = l ++ (ns, ne) :: r') as -> by by apply BTreeMap.remove_app.
  assert (BTreeMap.remove (l ++ (ps, pe) :: (ns, ne) :: r') ns = (l ++ [(ps, pe)]) ++ r') as ->.
  { change ((ps, pe) :: (ns, ne) :: r') with ([(ps, pe)] ++ (ns, ne) :: r'). rewrite app_assoc.
    apply BTreeMap.remove_app. eapply BTreeMap.below_mono; [exact Hlv|lia]. }
  destruct (Z.eqb_spec v (pe + 1)) as [Ev|Hne], (Z.eqb_spec (v + 1) ns) as [Hn|Hn]; cbn [andb].
  - rewrite BTreeMap.remove_app by (eapply BTreeMap.below_mono; [exact Hlp|lia]).
    rewrite BTreeMap.insert_app; [|done|eapply BTreeMap.above_mono; [exact Hkr|lia]].
    apply inserts_between; try done; try lia. rmap_elem.
  - apply inserts_between; try done; try lia; [|rmap_elem]. cbn. split_and!; done || lia.
  - rewrite BTreeMap.insert_app; [|done|eapply BTreeMap.above_mono; [exact Hkr|lia]].
    apply inserts_between; rewrite ?Eb; try done; try lia. rmap_elem.
  - apply inserts_between; rewrite ?Eb; try done; try lia; [|rmap_elem]. cbn. split_and!; done || lia.
Qed.
End After.

Lemma insert_ok m v : wf m → fits 64 v → inserts m v (insert m v).
Proof.
  intros Hm Hv. destruct (cut_at 0 m v Hm) as (l & r & -> & Hl & Hr). pose proof Hm as [Hwl Hwr]%wf_app.
  assert ((if v =? u64_max then None else BTreeMap.first_from (l ++ r) (v + 1)) = head r) as En.
  { destruct (Z.eqb_spec v u64_max) as [->|?]; [|apply BTreeMap.first_from_app; [done|eapply BTreeMap.above_mono; [exact Hr|lia]]].
    destruct Hr as [|[a b] r Ha _]; [done|]. cbn in *. unfold u64_max in *. lia. }
  unfold insert. rewrite En, BTreeMap.last_upto_app by done. clear En. destruct l as [|[ps pe] l _] using rev_ind.
  - cbn [last app]. pose proof (insert_first r v Hm Hv Hr) as H. by destruct (head r) as [[ns ne]|].
  - rewrite last_snoc. apply wf_app in Hwl as [Hwl (Hps & Hpe & _)]. replace (bound 0 (l ++ [(ps, pe)])) with (pe + 2) in Hwr
      by (unfold bound; by rewrite last_snoc). rewrite <- app_assoc in *. cbn [app] in *.
    pose proof (insert_last l ps pe r v) as Hlast. pose proof (insert_between l ps pe r v) as Hbetween. unfold fits in Hv.
    assert (v ≤ pe → inserts (l ++ (ps, pe) :: r) v (Some (l ++ (ps, pe) :: r))) as Hsame.
    { intros Hle. apply Forall_app in Hl as [_ [Hpv _]%Forall_cons]. cbn in Hpv. apply inserts_between; try done. rmap_elem. }
    destruct r as [|[ns ne] r]; cbn [head]; destruct (Z.leb_spec v pe); auto.
    + apply Hlast; try done; lia.
    + eapply (Hbetween Hwl Hps); try done; lia.
Qed.

(** ** Removal *)

Lemma wf_split lo l a b r : wf_from lo (l ++ (a, b) :: r) → BTreeMap.below a l ∧ BTreeMap.above a r ∧ a ≤ b.
Proof.
  intros [Hl Hr]%wf_app. apply wf_keys in Hl as [_ Hl]. cbn in Hr. destruct Hr as (? & ? & Hr). apply wf_keys in Hr as [Hr _].
  split_and!; [eapply BTreeMap.below_mono; [exact Hl|lia]|eapply BTreeMap.above_mono; [exact Hr|lia]|lia].
Qed.

Lemma foldl_remove l mid r : wf (l ++ mid ++ r) → foldl BTreeMap.remove (l ++ mid ++ r) mid.*1 = l ++ r.
Proof.
  revert l. induction mid as [|[a b] mid IH]; intros l Hw; [done|]. cbn in *. apply wf_split in Hw as Hs. rewrite BTreeMap.remove_app by apply Hs.
  apply IH. apply wf_app in Hw as [Hl Hw]. apply wf_app. split; [done|]. cbn in Hw. eapply wf_mono; [apply Hw|lia].
Qed.
Lemma foldl_insert l mid r : wf (l ++ mid ++ r) →
  foldl (λ m a, if a.1 <=? a.2 then BTreeMap.insert m a.1 a.2 else m) (l ++ r) mid = l ++ mid ++ r.
Proof.
  revert l. induction mid as [|[a b] mid IH]; intros l Hw; [done|]. cbn in *. apply wf_split in Hw as Hs. destruct Hs as (Hl & Hr & Hab).
  apply Forall_app in Hr as [_ Hr]. rewrite (proj2 (Z.leb_le _ _) Hab), BTreeMap.insert_app by done.
  rewrite (cons_middle _ l r), (cons_middle _ l), !(app_assoc l) in *. by apply IH.
Qed.

(** A map cut at the first range that reaches an index. *)
Lemma cut_ends lo m v : wf_from lo m → ∃ l r, m = l ++ r ∧ Forall (λ e, e.2 < v) l ∧ Forall (λ e, v ≤ e.2) r.
Proof.
  revert lo. induction m as [|[a b] m IH]; intros lo; cbn; [exists [], []; split_and!; [done|constructor..]|]. intros (? & ? & H).
  destruct (decide (b < v)) as [Hlt|Hge].
  - destruct (IH _ H) as (l & r & -> & Hl & Hr). exists ((a, b) :: l), r. split_and!; [done|constructor; [done|exact Hl]|done].
  - exists [], ((a, b) :: m). split_and!; [done|constructor|]. constructor; [cbn; lia|]. apply Forall_forall. intros [a' b'] Hin.
    pose proof (wf_entry _ _ _ _ H Hin). cbn. lia.
Qed.

Section Remove.
Context (start stop : Z) (Hstart : 0 ≤ start ≤ stop) (Hstop : stop < 2 ^ 64).

(** What is left of a range. *)
Definition rest (e : Z * Z) : list (Z * Z) :=
  (if e.1 <? start then [(e.1, Z.min e.2 (start - 1))] else []) ++
  (if stop <? e.2 then [(Z.max e.1 (stop + 1), e.2)] else []).
Definition touched (e : Z * Z) : bool := negb ((e.2 <? start) || (stop <? e.1)).

Lemma wf_rest lo m : wf_from lo m → wf_from lo (m ≫= rest).
Proof.
  revert lo. induction m as [|[a b] m IH]; intros lo; [done|]. cbn [wf_from]. intros (Ha & Hb & H%IH).
  change (((a, b) :: m) ≫= rest) with (rest (a, b) ++ (m ≫= rest)). apply wf_app. unfold rest; cbn [fst snd].
  destruct (Z.ltb_spec a start), (Z.ltb_spec stop b); cbn; unfold bound; cbn; split_and?; try done; try lia;
    (eapply wf_mono; [exact H|lia]).
Qed.
Lemma elem_rest m x : elem (m ≫= rest) x ↔ elem m x ∧ ¬ start ≤ x ≤ stop.
Proof.
  induction m as [|[a b] m IH]; [cbn; autorewrite with rmap; tauto|]. change (((a, b) :: m) ≫= rest) with (rest (a, b) ++ (m ≫= rest)).
  autorewrite with rmap. rewrite IH. assert (elem (rest (a, b)) x ↔ a ≤ x ≤ b ∧ ¬ start ≤ x ≤ stop) as ->; [|tauto].
  unfold rest; cbn [fst snd]. destruct (Z.ltb_spec a start), (Z.ltb_spec stop b); cbn; autorewrite with rmap; intuition lia.
Qed.
Lemma rest_untouched m : (∀ e, e ∈ m → e.1 ≤ e.2 ∧ touched e = false) → m ≫= rest = m.
Proof.
  induction m as [|[a b] m IH]; intros H; [done|]. change (((a, b) :: m) ≫= rest) with (rest (a, b) ++ (m ≫= rest)).
  rewrite IH by (intros; apply H; by right). destruct (H (a, b)) as [Hab Ht]; [by left|]. unfold touched, rest in *; cbn [fst snd] in *.
  apply negb_false_iff, orb_true_iff in Ht. destruct (Z.ltb_spec a start), (Z.ltb_spec stop b), Ht as [Ht%Z.ltb_lt|Ht%Z.ltb_lt];
    try lia; cbn; repeat f_equal; lia.
Qed.

Lemma remove_loop_spec m to_remove to_add : (∀ e, e ∈ m → 0 ≤ e.1 ≤ e.2 ∧ e.2 < 2 ^ 64) →
  remove_loop m start stop to_remove to_add =
    Some (to_remove ++ (filter (λ e, touched e = true) m).*1, to_add ++ (filter (λ e, touched e = true) m ≫= rest)).
Proof.
  revert to_remove to_add. induction m as [|[a b] m IH]; intros to_remove to_add Hm; [cbn; by rewrite !app_nil_r|].
  pose proof (Hm (a, b) ltac:(by left)) as Hab. cbn in Hab. assert (∀ e, e ∈ m → 0 ≤ e.1 ≤ e.2 ∧ e.2 < 2 ^ 64) as Hm' by (intros; apply Hm; by right).
  cbn [remove_loop]. destruct (touched (a, b)) eqn:Et.
  2: { rewrite filter_cons_False by (by rewrite Et). apply negb_false_iff in Et. cbn [fst snd] in Et. rewrite Et. by apply IH. }
  rewrite filter_cons_True by done. apply negb_true_iff in Et. cbn [fst snd] in Et. rewrite Et.
  apply orb_false_iff in Et as [?%Z.ltb_ge ?%Z.ltb_ge]. rewrite fmap_cons.
  change (((a, b) :: filter (λ e, touched e = true) m) ≫= rest) with (rest (a, b) ++ (filter (λ e, touched e = true) m ≫= rest)).
  assert (rest (a, b) = (if a <? start then [(a, Z.min b (start - 1))] else []) ++
    (if stop <? b then [(Z.max a (stop + 1), b)] else [])) as -> by done.
  assert (a < start → checked_sub start 1 = Some (start - 1)) as Hbefore by (intros; unfold checked_sub; by rewrite (proj2 (Z.leb_le _ _)) by lia).
  assert (stop < b → checked_add 64 stop 1 = Some (stop + 1)) as Hafter by (intros; unfold checked_add; by rewrite (proj2 (Z.ltb_lt _ _)) by lia).
  destruct (Z.leb_spec start a), (Z.leb_spec b stop), (Z.ltb_spec a start), (Z.ltb_spec stop b); try lia; cbn [andb];
    rewrite ?Hbefore, ?Hafter by done; cbn [mbind option_bind]; rewrite IH, <- !app_assoc by done; cbn; repeat f_equal; lia.
Qed.

(** The ranges that are touched lie next to each other. *)
Lemma cut_touched m : wf m → ∃ l mid r, m = l ++ mid ++ r ∧
  (∀ e, e ∈ l ++ r → touched e = false) ∧ (∀ e, e ∈ mid → touched e = true).
Proof.
  intros Hm. destruct (cut_at 0 m stop Hm) as (x & r & -> & Hx & Hr). pose proof Hm as [Hwx _]%wf_app.
  destruct (cut_ends 0 x start Hwx) as (l & mid & -> & Hl & Hmid). exists l, mid, r. apply Forall_app in Hx as [_ Hx].
  unfold touched. rewrite Forall_forall in Hl, Hmid, Hx. unfold BTreeMap.above in Hr. rewrite Forall_forall in Hr.
  split; [by rewrite app_assoc|]. split; intros e He.
  - apply negb_false_iff, orb_true_iff. apply elem_of_app in He as [He|He]; [left; apply Z.ltb_lt, Hl|right; apply Z.ltb_lt, Hr]; done.
  - specialize (Hx e He). specialize (Hmid e He). cbn in Hx. apply negb_true_iff, orb_false_iff. rewrite !Z.ltb_ge. lia.
Qed.

Lemma filter_touched l mid r : (∀ e, e ∈ l ++ r → touched e = false) → (∀ e, e ∈ mid → touched e = true) →
  filter (λ e, touched e = true) (l ++ mid ++ r) = mid.
Proof.
  intros Hn Ht. rewrite !filter_app, (filter_id _ mid) by done.
  assert (∀ k, (∀ e, e ∈ k → touched e = false) → filter (λ e, touched e = true) k = []) as Hnil.
  { induction k as [|e k IH]; intros Hk; [done|]. rewrite filter_cons_False; [apply IH; intros; apply Hk; by right|].
    rewrite (Hk e) by (by left). done. }
  rewrite !Hnil, app_nil_r; [done|intros; apply Hn, elem_of_app; by right|intros; apply Hn, elem_of_app; by left].
Qed.

Lemma remove_ok m : wf m → ∃ m', remove m start stop = Some m' ∧ wf m' ∧ ∀ x, elem m' x ↔ elem m x ∧ ¬ start ≤ x ≤ stop.
Proof.
  intros Hm. exists (m ≫= rest). split; [|split; [by apply wf_rest|apply elem_rest]]. pose proof (wf_rest 0 m Hm) as Hw.
  unfold remove. rewrite (proj2 (Z.ltb_ge _ _)) by lia. rewrite remove_loop_spec by (intros [a b] He; apply (wf_entry _ _ _ _ Hm He)).
  destruct (cut_touched m Hm) as (l & mid & r & -> & Hn & Ht). rewrite filter_touched by done. cbn [mbind option_bind app].
  rewrite foldl_remove by done. rewrite !bind_app in *.
  assert (∀ e, e ∈ l ++ mid ++ r → e.1 ≤ e.2) as Hle by (intros [a b] He; apply (wf_entry _ _ _ _ Hm) in He as [[_ H] _]; exact H).
  rewrite (rest_untouched l), (rest_untouched r) in *; [by rewrite foldl_insert| | | |]; intros e He; (split; [apply Hle|apply Hn]); set_solver.
Qed.
End Remove.

(** ** One representation for a set *)

Lemma wf_unique lo m m' : wf_from lo m → wf_from lo m' → (∀ x, elem m x ↔ elem m' x) → m = m'.
Proof.
  revert lo m'. induction m as [|[a b] m IH]; intros lo m' Hm Hm' He.
  { destruct m' as [|[a' b'] m']; [done|]. cbn in Hm'. specialize (He a'). autorewrite with rmap in He. intuition lia. }
  destruct m' as [|[a' b'] m'].
  { cbn in Hm. specialize (He a). autorewrite with rmap in He. intuition lia. }
  cbn in Hm, Hm'. destruct Hm as (? & ? & Hm), Hm' as (? & ? & Hm').
  assert (∀ x, elem m x → b + 2 ≤ x) as Hlo by (intros x Hx; apply (wf_elem _ _ _ Hm Hx)).
  assert (∀ x, elem m' x → b' + 2 ≤ x) as Hhi by (intros x Hx; apply (wf_elem _ _ _ Hm' Hx)).
  assert (∀ x, (a ≤ x ≤ b ∨ elem m x) ↔ (a' ≤ x ≤ b' ∨ elem m' x)) as He' by (intros x; specialize (He x); by autorewrite with rmap in He).
  assert (∀ x, a ≤ x ≤ b → a' ≤ x ≤ b' ∨ b' + 2 ≤ x) as G1 by (intros x Hx; destruct (proj1 (He' x) (or_introl Hx)); auto).
  assert (∀ x, a' ≤ x ≤ b' → a ≤ x ≤ b ∨ b + 2 ≤ x) as G2 by (intros x Hx; destruct (proj2 (He' x) (or_introl Hx)); auto).
  assert (a = a') as <- by (pose proof (G1 a); pose proof (G2 a'); lia).
  assert (b = b') as <- by (pose proof (G1 (b' + 1)); pose proof (G2 (b + 1)); lia).
  f_equal. apply (IH (b + 2)); [done..|]. intros x. specialize (He' x). split; intros Hx.
  - pose proof (Hlo x Hx). destruct (proj1 He' (or_intror Hx)); [lia|done].
  - pose proof (Hhi x Hx). destruct (proj2 He' (or_intror Hx)); [lia|done].
Qed.

(** ** Looking up *)

(** The range that starts last up to an index, and the first that starts after. *)
Lemma around m v : wf m → fits 64 v → ∃ l r, m = l ++ r ∧ BTreeMap.last_upto m v = last l ∧
  (if v =? u64_max then None else BTreeMap.first_from m (v + 1)) = head r ∧ wf_from 0 l ∧ wf_from (bound 0 l) r ∧
  BTreeMap.below (v + 1) l ∧ BTreeMap.above v r.
Proof.
  intros Hm Hv. destruct (cut_at 0 m v Hm) as (l & r & -> & Hl & Hr). pose proof Hm as [Hwl Hwr]%wf_app. exists l, r.
  split_and!; try done; [by apply BTreeMap.last_upto_app|].
  destruct (Z.eqb_spec v u64_max) as [->|?]; [|apply BTreeMap.first_from_app; [done|eapply BTreeMap.above_mono; [exact Hr|lia]]].
  destruct r as [|[a b] r]; [done|]. apply Forall_cons in Hr as [Ha _]. cbn in *. unfold u64_max in *. lia.
Qed.

Lemma above_elem v r x : BTreeMap.above v r → elem r x → v < x.
Proof. intros H (e & He & Hx)%Exists_exists. unfold BTreeMap.above in H. rewrite Forall_forall in H. specialize (H e He). cbn in H. lia. Qed.

(** An interval of the set that cannot be extended. *)
Definition maximal m (a b : Z) : Prop := (∀ x, a ≤ x ≤ b → elem m x) ∧ ¬ elem m (a - 1) ∧ ¬ elem m (b + 1).

Lemma entry_maximal l a b r : wf (l ++ (a, b) :: r) → maximal (l ++ (a, b) :: r) a b.
Proof.
  intros [Hl Hr]%wf_app. cbn in Hr. destruct Hr as (? & ? & Hr).
  assert (∀ x, elem l x → x ≤ a - 2) as Hlo by (intros x Hx; apply (wf_elem _ _ _ Hl) in Hx; lia).
  assert (∀ x, elem r x → b + 2 ≤ x) as Hhi by (intros x Hx; apply (wf_elem _ _ _ Hr Hx)).
  split_and!; intros *; autorewrite with rmap; [tauto|..]; intros [Hx%Hlo|[?|Hx%Hhi]]; lia.
Qed.

Lemma get_ok m v : wf m → fits 64 v →
  match get m v with Some (a, b) => a ≤ v ≤ b ∧ maximal m a b | None => ¬ elem m v end.
Proof.
  intros Hm Hv. destruct (around m v Hm Hv) as (l & r & -> & El & _ & Hl & Hr & Hbl & Har). unfold get. rewrite El.
  destruct l as [|[a b] l _] using rev_ind; [cbn; intros Hx%(above_elem v); [lia|done]|]. rewrite last_snoc.
  apply Forall_app in Hbl as [_ [Ha _]%Forall_cons]. cbn in Ha. rewrite <- app_assoc in Hm |- *. cbn [app] in *.
  destruct (Z.leb_spec v b).
  - split; [lia|]. by apply entry_maximal.
  - pose proof (entry_maximal _ _ _ _ Hm). apply wf_app in Hl as [Hl (? & _)]. autorewrite with rmap. intros [Hx|[?|Hx]].
    + apply (wf_elem _ _ _ Hl) in Hx. lia.
    + lia.
    + apply (above_elem v) in Hx; [lia|done].
Qed.

Lemma next_gap_gap l r v : wf (l ++ r) → fits 64 v → Forall (λ e, e.2 < v) l → BTreeMap.above v r →
  next_gap (l ++ r) v = (None, fst <$> head r).
Proof.
  intros Hm Hv Hl Hr. assert (BTreeMap.below (v + 1) l) as Hbl.
  { apply wf_app in Hm as [Hm _]. unfold BTreeMap.below. rewrite Forall_forall in Hl |- *. intros [a b] Hin. specialize (Hl _ Hin).
    apply (wf_entry _ _ _ _ Hm) in Hin. cbn in *. lia. }
  unfold next_gap. rewrite BTreeMap.last_upto_app by done. f_equal.
  - destruct l as [|[a b] l _] using rev_ind; [done|]. rewrite last_snoc. apply Forall_app in Hl as [_ [Hb _]%Forall_cons]. cbn in Hb.
    by rewrite (proj2 (Z.leb_gt _ _)) by lia.
  - destruct (Z.eqb_spec v u64_max) as [->|?].
    + destruct r as [|[a b] r]; [done|]. apply Forall_cons in Hr as [Ha _]. apply wf_app in Hm as [_ (? & ? & _)]. cbn in *. unfold u64_max in *. lia.
    + rewrite BTreeMap.first_from_app; [done|done|eapply BTreeMap.above_mono; [exact Hr|lia]].
Qed.
Lemma next_gap_range l a b r v : wf (l ++ (a, b) :: r) → a ≤ v ≤ b → (next_gap (l ++ (a, b) :: r) v).1 = Some b.
Proof.
  intros Hm Hv. pose proof (wf_split _ _ _ _ _ Hm) as (Hl & _ & _). apply wf_app in Hm as [_ (_ & _ & Hr)]. apply wf_keys in Hr as [Hr _].
  unfold next_gap. rewrite (cons_middle _ l), app_assoc, BTreeMap.last_upto_app.
  - cbn. rewrite last_snoc. by rewrite (proj2 (Z.leb_le _ _)) by lia.
  - apply Forall_app. split; [eapply BTreeMap.below_mono; [exact Hl|lia]|constructor; [cbn; lia|constructor]].
  - eapply BTreeMap.above_mono; [exact Hr|lia].
Qed.

(** ** Missing indices *)

(** The indices from [cur] on between the ranges. *)
Fixpoint gaps (cur : Z) m : list Z :=
  match m with [] => [] | (a, b) :: m => seqZ cur (a - cur) ++ gaps (b + 1) m end.

Lemma elem_gaps lo m cur x : wf_from lo m → match m with [] => True | (_, b) :: _ => cur ≤ b + 1 end →
  x ∈ gaps cur m ↔ cur ≤ x ∧ ¬ elem m x ∧ ∃ y, elem m y ∧ x < y.
Proof.
  revert lo cur. induction m as [|[a b] m IH]; intros lo cur Hw Hc; cbn [gaps].
  - rewrite elem_of_nil. split; [done|]. intros (_ & _ & y & Hy & _). by apply elem_nil in Hy.
  - cbn in Hw. destruct Hw as (? & ? & Hw). assert (∀ y, elem m y → b + 2 ≤ y) as Hhi by (intros y Hy; apply (wf_elem _ _ _ Hw Hy)).
    rewrite elem_of_app, elem_of_seqZ, (IH (b + 2)); [|done|destruct m as [|[a' b'] m]; [done|cbn in Hw; lia]].
    autorewrite with rmap. split.
    + intros [Hx|(Hx & Hn & y & Hy & Hlt)].
      * split_and!; [lia|intros [?|?%Hhi]; lia|]. exists b. autorewrite with rmap. split; [left; lia|lia].
      * split_and!; [lia|intros [?|?]; [lia|done]|]. exists y. autorewrite with rmap. auto.
    + intros (Hx & Hn & y & Hy & Hlt). autorewrite with rmap in Hy. destruct (decide (x < a)); [left; lia|]. right.
      split_and!; [lia|tauto|]. exists y. split; [|done]. destruct Hy as [?|?]; [lia|done].
Qed.
Lemma gaps_sorted lo m cur : wf_from lo m → match m with [] => True | (_, b) :: _ => cur ≤ b + 1 end → StronglySorted Z.lt (gaps cur m).
Proof.
  revert lo cur. induction m as [|[a b] m IH]; intros lo cur Hw Hc; [constructor|]. cbn in Hw |- *. destruct Hw as (? & ? & Hw).
  assert (match m with [] => True | (_, b') :: _ => b + 1 ≤ b' + 1 end) as Hc' by (destruct m as [|[a' b'] m]; [done|cbn in Hw; lia]).
  apply StronglySorted_app_2; [|apply seqZ_sorted|by apply (IH (b + 2))].
  intros x y Hx%elem_of_seqZ [Hy _]%(elem_gaps (b + 2)); [lia|done..].
Qed.

(** The turns the loop takes: two for every range ahead, one less within a range. *)
Definition turns (cur : Z) m : nat :=
  (2 * length m + match m with (a, _) :: _ => if (a <=? cur)%Z then 0 else 1 | [] => 1 end)%nat.

Lemma missing_loop_spec fuel m l r cur max missing : m = l ++ r → wf m → fits 64 cur → Forall (λ e, e.2 < cur) l →
  Forall (λ e, cur ≤ e.2) r → Z.of_nat (length missing) < max → (turns cur r ≤ fuel)%nat →
  missing_loop fuel m cur max missing = Some (missing ++ take (Z.to_nat (max - Z.of_nat (length missing))) (gaps cur r)).
Proof.
  revert l r cur missing. induction fuel as [|fuel IH]; intros l r cur missing -> Hm Hcur Hl Hr Hlen Hfuel.
  { destruct r as [|[a b] r]; cbn in Hfuel; lia. }
  cbn [missing_loop]. destruct r as [|[a b] r].
  - rewrite next_gap_gap by (done || constructor). change (gaps cur []) with (@nil Z).
    change (fst <$> head (@nil (Z * Z))) with (@None Z). cbv beta iota. by rewrite take_nil, app_nil_r.
  - pose proof (wf_split _ _ _ _ _ Hm) as (_ & Hra & Hab). apply Forall_cons in Hr as [Hb Hr]. cbn [snd] in Hb.
    pose proof Hm as [_ (_ & Hb64 & Hwr)]%wf_app. cbn [gaps]. unfold turns in Hfuel. cbn [length] in Hfuel.
    revert Hfuel. destruct (Z.leb_spec a cur) as [Ha|Ha]; intros Hfuel.
    + pose proof (next_gap_range l a b r cur Hm (conj Ha Hb)) as Hn. destruct (next_gap _ cur) as [? n]. cbn in Hn. subst.
      assert (seqZ cur (a - cur) = []) as -> by (apply seqZ_nil; lia). cbn [app]. destruct (Z.eqb_spec b u64_max) as [->|Hmax].
      * destruct r as [|[a' b'] r]; [cbn [gaps]; by rewrite take_nil, app_nil_r|]. cbn in Hwr. unfold u64_max in *. lia.
      * rewrite succ_some by (unfold fits in *; lia || done). cbn [mbind option_bind].
        rewrite (IH (l ++ [(a, b)]) r); [done|by rewrite <- app_assoc|done|unfold fits, u64_max in *; lia| | |done|].
        -- apply Forall_app. split; [|constructor; [cbn; lia|constructor]]. eapply Forall_impl; [exact Hl|]. cbn. lia.
        -- apply Forall_forall. intros [a' b'] Hin. pose proof (wf_entry _ _ _ _ Hwr Hin). cbn. lia.
        -- unfold turns. destruct r as [|[a' b'] r]; [lia|]. destruct (a' <=? b + 1); cbn in Hfuel |- *; lia.
    + rewrite next_gap_gap by (done || (constructor; [cbn; lia|eapply BTreeMap.above_mono; [exact Hra|lia]])).
      cbn [head fmap option_fmap option_map fst]. unfold fits in Hcur. set (len := Z.of_nat (length missing)) in *.
      unfold checked_sub. rewrite !(proj2 (Z.leb_le _ _)) by lia. cbn [mbind option_bind].
      rewrite (proj2 (Z.leb_le 1 (max - len))) by lia. cbn [mbind option_bind].
      set (k := Z.to_nat (max - len)). set (s := seqZ cur (a - cur)). assert (length s = Z.to_nat (a - cur)) as Hs by apply length_seqZ.
      assert (seqZ cur (Z.min (a - 1) (saturating_add 64 cur (max - len - 1)) + 1 - cur) = take k s) as ->.
      { unfold s, k, saturating_add. rewrite take_seqZ. f_equal. lia. }
      rewrite length_app, length_take. destruct (Z.leb_spec max (Z.of_nat (length missing + k `min` length s))) as [Hfull|Hmore].
      * by rewrite take_app_le by lia.
      * rewrite (take_ge s) in * by lia. rewrite take_app_ge by lia.
        rewrite (IH l ((a, b) :: r)); [|done|done|unfold fits; lia| | |rewrite length_app; lia|].
        -- cbn [gaps]. rewrite (seqZ_nil a) by lia. cbn [app]. rewrite <- app_assoc. do 4 f_equal. rewrite length_app. lia.
        -- eapply Forall_impl; [exact Hl|]. cbn. lia.
        -- constructor; [cbn; lia|]. apply Forall_forall. intros [a' b'] Hin. pose proof (wf_entry _ _ _ _ Hwr Hin). cbn. lia.
        -- unfold turns. cbn [length]. rewrite Z.leb_refl. lia.
Qed.

(** ** The theorems *)

Inductive op : Type := OInsert (v : Z) | ORemove (start stop : Z).
Definition op_ok (o : op) : Prop :=
  match o with OInsert v => fits 64 v | ORemove a b => fits 64 a ∧ fits 64 b end.
Fixpoint run m (ops : list op) : option (list (Z * Z)) :=
  match ops with
  | [] => Some m
  | OInsert v :: ops => m ← insert m v; run m ops
  | ORemove a b :: ops => m ← remove m a b; run m ops
  end.
(** The set that a history of operations leaves of a set. *)
Fixpoint member (S : Z → Prop) (ops : list op) : Z → Prop :=
  match ops with
  | [] => S
  | OInsert v :: ops => member (λ x, x = v ∨ S x) ops
  | ORemove a b :: ops => member (λ x, S x ∧ ¬ a ≤ x ≤ b) ops
  end.

Lemma member_iff S S' ops : (∀ x, S x ↔ S' x) → ∀ x, member S ops x ↔ member S' ops x.
Proof.
  revert S S'. induction ops as [|[v|a b] ops IH]; intros S S' H; cbn [member]; [done|apply IH..]; intros x; by rewrite H.
Qed.

Lemma run_ops_ok ops m : wf m → Forall op_ok ops → ∃ m', run m ops = Some m' ∧ wf m' ∧ ∀ x, elem m' x ↔ member (elem m) ops x.
Proof.
  intros Hm Hops. revert m Hm. induction Hops as [|[v|a b] ops Ho _ IH]; intros m Hm; [by exists m|..]; cbn [run member].
  - destruct (insert_ok m v Hm Ho) as (n & -> & Hn & He). destruct (IH n Hn) as (m' & ? & ? & Hx). exists m'. split_and!; [done..|].
    intros x. rewrite Hx. by apply member_iff.
  - assert (∃ n, remove m a b = Some n ∧ wf n ∧ ∀ x, elem n x ↔ elem m x ∧ ¬ a ≤ x ≤ b) as (n & -> & Hn & He).
    { destruct (decide (a ≤ b)); [apply remove_ok; unfold op_ok, fits in Ho; lia || done|]. exists m. unfold remove.
      rewrite (proj2 (Z.ltb_lt _ _)) by lia. split_and!; [done..|]. intros x. intuition lia. }
    destruct (IH n Hn) as (m' & ? & ? & Hx). exists m'. split_and!; [done..|]. intros x. rewrite Hx. by apply member_iff.
Qed.

(** C34: after any history of insertions and removals of intervals the ranges are
    valid, ascending, disjoint and not adjacent, they hold exactly the indices that
    the operations leave in the set, and every other history that leaves the same
    set ends in the same ranges. *)
Theorem ranges_are_canonical ops : Forall op_ok ops →
  ∃ m, run new ops = Some m ∧ wf m ∧ (∀ x, elem m x ↔ member (λ _, False) ops x) ∧
    ∀ ops', Forall op_ok ops' → (∀ x, member (λ _, False) ops' x ↔ member (λ _, False) ops x) → run new ops' = Some m.
Proof.
  intros Ho. destruct (run_ops_ok ops new I Ho) as (m & E & Hm & He). exists m.
  assert (∀ ops x, member (elem new) ops x ↔ member (λ _, False) ops x) as Hnew by (intros; apply member_iff, elem_nil).
  split_and!; [done..|intros x; by rewrite He, Hnew|]. intros ops' Ho' Hs. destruct (run_ops_ok ops' new I Ho') as (m' & E' & Hm' & He').
  rewrite E'. f_equal. apply (wf_unique 0); [done..|]. intros x. by rewrite He, He', !Hnew, Hs.
Qed.

(** The start of the first range after an index. *)
Definition starts_next m (v : Z) (n : option Z) : Prop :=
  match n with
  | Some s => v < s ∧ elem m s ∧ ¬ elem m (s - 1) ∧ ∀ x, v < x < s → elem m x → elem m (x - 1)
  | None => ∀ x, v < x → elem m x → elem m (x - 1)
  end.


(** the range found for an index is the largest interval of the set around it,
    and there is one exactly for the indices of the set; the next gap reports the
    end of that interval and the start of the first one after the index; the first
    and the last index are the least and the greatest. *)
Theorem queries_correct m v : wf m → fits 64 v →
  match get m v with Some (a, b) => a ≤ v ≤ b ∧ maximal m a b | None => ¬ elem m v end ∧
  (next_gap m v).1 = snd <$> get m v ∧ starts_next m v (next_gap m v).2 ∧
  match first_index m, last_index m with
  | Some a, Some b => elem m a ∧ elem m b ∧ ∀ x, elem m x → a ≤ x ≤ b
  | None, None => ∀ x, ¬ elem m x
  | _, _ => False
  end.
Proof.
  intros Hm Hv. split; [by apply get_ok|]. split.
  { unfold next_gap, get. destruct (BTreeMap.last_upto m v) as [[a b]|]; [|done]. cbn. by destruct (v <=? b). }
  split.
  - destruct (around m v Hm Hv) as (l & r & Em & _ & En & Hl & Hr & Hbl & Har). unfold next_gap. cbn [snd].
    assert ((if v =? u64_max then None else fst <$> BTreeMap.first_from m (v + 1)) = fst <$> head r) as ->.
    { rewrite <- En. by destruct (v =? u64_max). }
    assert (∀ x, v < x → elem l x → elem l (x - 1)) as Hlow.
    { intros x Hx ([a b] & Hin & Hab)%Exists_exists. unfold BTreeMap.below in Hbl. rewrite Forall_forall in Hbl. specialize (Hbl _ Hin). cbn in *.
      apply Exists_exists. exists (a, b). split; [done|cbn; lia]. }
    subst m. destruct r as [|[a b] r]; cbn [head fmap option_fmap option_map fst].
    + intros x Hx. rewrite !app_nil_r. by apply Hlow.
    + apply Forall_cons in Har as [Ha Har]. cbn in Ha. pose proof (entry_maximal _ _ _ _ Hm) as (Hin & Hn & _).
      pose proof Hm as [_ (_ & ? & Hwr)]%wf_app. split_and!; [done|apply Hin; lia|done|]. intros x Hx. autorewrite with rmap.
      intros [?|[?|Hx'%(wf_elem _ _ _ Hwr)]]; [|lia..]. left. apply Hlow; [lia|done].
  - unfold first_index, last_index, BTreeMap.first, BTreeMap.last. destruct m as [|[a b] m] using rev_ind; [by intros x ?%elem_nil|].
    clear IHm. rewrite last_snoc. assert (∃ a0 b0 m0, m ++ [(a, b)] = (a0, b0) :: m0) as (a0 & b0 & m0 & E) by (destruct m as [|[??] ?]; eauto).
    cbn [fmap option_fmap option_map snd]. assert (fst <$> head (m ++ [(a, b)]) = Some a0) as -> by by rewrite E.
    pose proof Hm as [Hl (_ & ? & _)]%wf_app. split_and!.
    + rewrite E in Hm |- *. cbn in Hm. autorewrite with rmap. left; lia.
    + autorewrite with rmap. right; left; lia.
    + intros x Hx. pose proof (wf_elem _ _ _ Hm Hx) as [_ Hub]. unfold bound in Hub. rewrite last_snoc in Hub. cbn in Hub.
      rewrite E in Hm, Hx. cbn in Hm. destruct Hm as (? & ? & Hm). autorewrite with rmap in Hx. destruct Hx as [?|Hx%(wf_elem _ _ _ Hm)]; lia.
Qed.

(** C35: the search for missing indices ends after at most two turns for every range
    and one more, without an overflow; it returns the first [max] of the indices
    from [start] on that are missing below the greatest of the set, ascending.  It
    panics if [max] is 0 and if the vector for [max] indices would exceed [isize::MAX]
    bytes, and in no other case. *)
Theorem missing_items_correct m start max : wf m → fits 64 start → fits 64 max →
  ∃ found : list Z, missing_items m start max =
    (if (0 <? max) && (8 * max <? 2 ^ 63) then Some (take (Z.to_nat max) found) else None) ∧ StronglySorted Z.lt found ∧
    ∀ x, x ∈ found ↔ start ≤ x ∧ ¬ elem m x ∧ ∃ y, elem m y ∧ x < y.
Proof.
  intros Hm Hs Hmax. destruct (cut_ends 0 m start Hm) as (l & r & -> & Hl & Hr). exists (gaps start r).
  pose proof Hm as [Hwl Hwr]%wf_app.
  assert (match r with [] => True | (_, b) :: _ => start ≤ b + 1 end) as Hc
    by (destruct r as [|[a b] r]; [done|]; apply Forall_cons in Hr as [Hb _]; cbn in Hb; lia).
  split_and!; [|by eapply gaps_sorted|].
  - unfold missing_items, with_capacity. destruct Hmax as [Hmax _]. destruct (Z.ltb_spec 0 max) as [Hpos|]; [|by rewrite (proj2 (Z.leb_le _ _)) by lia].
    rewrite (proj2 (Z.leb_gt _ _)) by lia. cbn [andb]. destruct (Z.ltb_spec (8 * max) (2 ^ 63)); [|by rewrite (proj2 (Z.leb_gt _ _)) by lia].
    rewrite (proj2 (Z.leb_le (max * 8) _)) by lia. cbn [mbind option_bind].
    rewrite (missing_loop_spec _ _ l r); [by rewrite Z.sub_0_r|done..| |].
    + cbn [length]. lia.
    + rewrite length_app. unfold turns. destruct r as [|[a b] r]; [lia|]. destruct (a <=? start); cbn [length]; lia.
  - intros x. rewrite (elem_gaps (bound 0 l)) by done.
    assert (∀ y, start ≤ y → elem (l ++ r) y ↔ elem r y) as He.
    { intros y Hy. autorewrite with rmap. split; [|by right]. intros [([a b] & Hin & Hab)%Exists_exists|?]; [|done].
      rewrite Forall_forall in Hl. specialize (Hl _ Hin). cbn in *. lia. }
    split; intros (Hx & Hn & y & Hy & Hlt); (split_and!; [done|rewrite ?He in * by done; done|exists y; split; [apply He; [lia|done]|done]]).
Qed.

Lemma ranges_are_canonical_witness : ∃ m,
  run new [OInsert 1; OInsert 3; OInsert 2; ORemove 2 2; OInsert (2 ^ 64 - 1)] = Some m ∧ m = [(1, 1); (3, 3); (2 ^ 64 - 1, 2 ^ 64 - 1)].
Proof.
  destruct (ranges_are_canonical [OInsert 1; OInsert 3; OInsert 2; ORemove 2 2; OInsert (2 ^ 64 - 1)]) as (m & E & _);
    [repeat constructor; vm_compute; done|]. exists m. split; [exact E|]. vm_compute in E. by injection E as <-.
Defined.
Lemma queries_correct_witness : get [(1, 3); (6, 7)] 2 = Some (1, 3) ∧ maximal [(1, 3); (6, 7)] 1 3.
Proof.
  split; [done|]. apply (queries_correct [(1, 3); (6, 7)] 2); [cbn; lia|done].
Defined.
Lemma missing_items_correct_witness : missing_items [(1, 2); (5, 6); (10, 10)] 0 (2 ^ 60) = None ∧
  ∃ l : list Z, missing_items [(1, 2); (5, 6); (10, 10)] 0 5 = Some (take 5 l) ∧ take 5 l = [0; 3; 4; 7; 8].
Proof.
  split; [vm_compute; reflexivity|].
  destruct (missing_items_correct [(1, 2); (5, 6); (10, 10)] 0 5) as (l & E & _); [cbn; lia|done|done|]. exists l.
  assert (((0 <? 5) && (8 * 5 <? 2 ^ 63)) = true) as Hc by reflexivity. rewrite Hc in E.
  split; [exact E|]. change (Z.to_nat 5) with 5%nat in E. assert (Some (take 5 l) = Some [0; 3; 4; 7; 8]) as H by (rewrite <- E; vm_compute; done).
  by injection H.
Defined.
End RMapProperties.
