(* ===== verification/Blob.v ===== *)
(** * Blobs (runtime/src/storage/memory.rs)

    A blob of the runtime's storage: its bytes and those that are on disk, in the
    in-memory implementation those of its partition.  Reads and writes see the
    bytes, [sync] puts them on disk.  [read_at], [write_at] and [append] are what the
    buffered blobs of the runtime offer, and [Reader] what its buffered reader does,
    without their buffers; [Buffered] has those, and BufferedRefinement.v and
    BufferedReader.v relate the two. *)

From S2P Require Import Prelude Codec.

(** The errors of the runtime that depend on the data. *)
Inductive RError : Type :=
| InsufficientLength
| OffsetOverflow
| ReadFailed.
Notation rresult := (outcome RError).

Module Blob.
Record Blob : Type := mkBlob { content : bytes; stored : bytes }.
Implicit Types b : Blob.

Definition empty : Blob := mkBlob [] [].
Definition size b : Z := Z.of_nat (length (content b)).
(** [n] bytes from [offset] on. *)
Definition slice (c : bytes) (offset n : Z) : bytes := take (Z.to_nat n) (drop (Z.to_nat offset) c).
(** [Vec::resize] with zeros. *)
Definition vec_resize (c : bytes) (n : Z) : bytes :=
  take (Z.to_nat n) c ++ replicate (Z.to_nat n - length c) (byte.of_Z 0).
(** [copy_from_slice] into the range from [offset] on. *)
Definition overwrite (c : bytes) (offset : Z) (buf : bytes) : bytes :=
  take (Z.to_nat offset) c ++ buf ++ drop (Z.to_nat offset + length buf) c.

(** The blob of the in-memory storage; an offset that overflows a [usize] panics. *)
Definition memory_read_at b (n offset : Z) : rresult bytes :=
  match checked_add 64 offset n with
  | None => Panic
  | Some stop => if size b <? stop then Err InsufficientLength else Ok (slice (content b) offset n)
  end.
Definition memory_write_at b (buf : bytes) (offset : Z) : rresult Blob :=
  match checked_add 64 offset (Z.of_nat (length buf)) with
  | None => Panic
  | Some required =>
      let c := if size b <? required then vec_resize (content b) required else content b in
      Ok (mkBlob (overwrite c offset buf) (stored b))
  end.
Definition resize b (n : Z) : Blob := mkBlob (vec_resize (content b) n) (stored b).
Definition sync b : Blob := mkBlob (content b) (content b).

(** What the buffered blobs offer: the same, and an error where an offset overflows. *)
Definition read_at b (n offset : Z) : rresult bytes :=
  match checked_add 64 offset n with
  | None => Err OffsetOverflow
  | Some _ => memory_read_at b n offset
  end.
Definition write_at b (buf : bytes) (offset : Z) : rresult Blob :=
  match checked_add 64 offset (Z.of_nat (length buf)) with
  | None => Err OffsetOverflow
  | Some _ => memory_write_at b buf offset
  end.
Definition append b (buf : bytes) : rresult Blob :=
  match checked_add 64 (size b) (Z.of_nat (length buf)) with
  | None => Err OffsetOverflow
  | Some _ => Ok (mkBlob (content b ++ buf) (stored b))
  end.

(** ** Facts on parts of bytes *)

Notation len l := (Z.of_nat (length l)).

Lemma slice_length c o n : 0 ≤ o → 0 ≤ n → o + n ≤ len c → len (slice c o n) = n.
Proof. intros. unfold slice. rewrite length_take, length_drop. lia. Qed.
Lemma slice_whole c n : n = len c → slice c 0 n = c.
Proof. intros ->. unfold slice. by rewrite Nat2Z.id, drop_0, firstn_all. Qed.
Lemma slice_nil c o n : n ≤ 0 → slice c o n = [].
Proof. intros. unfold slice. by replace (Z.to_nat n) with 0%nat by lia. Qed.
Lemma slice_slice c o n o' n' : 0 ≤ o → 0 ≤ o' → 0 ≤ n' → o' + n' ≤ n → slice (slice c o n) o' n' = slice c (o + o') n'.
Proof.
  intros. unfold slice. rewrite skipn_firstn_comm, take_take, drop_drop. f_equal; [lia|]. f_equal. lia.
Qed.
Lemma slice_split c o n m : 0 ≤ o → 0 ≤ n → 0 ≤ m → slice c o (n + m) = slice c o n ++ slice c (o + n) m.
Proof.
  intros. unfold slice. rewrite !Z2Nat.inj_add, <- drop_drop by lia. set (d := drop (Z.to_nat o) c).
  rewrite <- (take_drop (Z.to_nat n) (take (Z.to_nat n + Z.to_nat m) d)), take_take, Nat.min_l by lia.
  by rewrite skipn_firstn_comm, Nat.add_comm, Nat.add_sub.
Qed.
Lemma slice_app_l l r o n : 0 ≤ o → 0 ≤ n → o + n ≤ len l → slice (l ++ r) o n = slice l o n.
Proof.
  intros. unfold slice. rewrite drop_app_le by lia. apply take_app_le. rewrite length_drop. lia.
Qed.
Lemma slice_app_r l r o n : len l ≤ o → slice (l ++ r) o n = slice r (o - len l) n.
Proof. intros. unfold slice. rewrite drop_app_ge by lia. do 2 f_equal. lia. Qed.
Lemma slice_prefix l c o n : l `prefix_of` c → 0 ≤ o → 0 ≤ n → o + n ≤ len l → slice c o n = slice l o n.
Proof. intros [r ->] ???. by apply slice_app_l. Qed.
Lemma take_slice c n : take n c = slice c 0 (Z.of_nat n).
Proof. unfold slice. by rewrite drop_0, Nat2Z.id. Qed.
Lemma take_slice' c n : 0 ≤ n → take (Z.to_nat n) c = slice c 0 n.
Proof. intros. by rewrite take_slice, Z2Nat.id. Qed.
Lemma drop_slice c n : drop n c = slice c (Z.of_nat n) (len c - Z.of_nat n).
Proof. unfold slice. rewrite Nat2Z.id. symmetry. apply take_ge. rewrite length_drop. lia. Qed.

Lemma read_at_cases b n o : read_at b n o =
  if o + n <? 2 ^ 64 then if size b <? o + n then Err InsufficientLength else Ok (slice (content b) o n) else Err OffsetOverflow.
Proof. unfold read_at, memory_read_at, checked_add. by destruct (o + n <? 2 ^ 64). Qed.
Lemma memory_read_at_Ok b n o : 0 ≤ o → 0 ≤ n → o + n ≤ size b → size b < 2 ^ 64 → memory_read_at b n o = Ok (slice (content b) o n).
Proof. intros. unfold memory_read_at, checked_add. by rewrite (proj2 (Z.ltb_lt _ _)), (proj2 (Z.ltb_ge _ _)) by lia. Qed.
Lemma read_at_Ok b n o : 0 ≤ o → 0 ≤ n → o + n ≤ size b → size b < 2 ^ 64 → read_at b n o = Ok (slice (content b) o n).
Proof. intros. unfold read_at, checked_add. rewrite (proj2 (Z.ltb_lt _ _)) by lia. by apply memory_read_at_Ok. Qed.
Lemma memory_write_at_end b buf : size b + len buf < 2 ^ 64 → memory_write_at b buf (size b) = Ok (mkBlob (content b ++ buf) (stored b)).
Proof.
  intros H. unfold memory_write_at, checked_add. rewrite (proj2 (Z.ltb_lt _ _)) by done. do 2 f_equal. unfold overwrite, size in *. rewrite Nat2Z.id.
  destruct (Z.ltb_spec (len (content b)) (len (content b) + len buf)) as [Hlt|Hge].
  - unfold vec_resize. rewrite (take_ge (content b)) by lia. rewrite take_app_length. f_equal.
    rewrite drop_ge; [by rewrite app_nil_r|]. rewrite length_app, length_replicate. lia.
  - destruct buf; [|cbn in *; lia]. cbn [length app]. by rewrite firstn_all, Nat.add_0_r, drop_all.
Qed.
Lemma vec_resize_shrink c n : n ≤ len c → vec_resize c n = take (Z.to_nat n) c.
Proof. intros. unfold vec_resize. replace (Z.to_nat n - length c)%nat with 0%nat by lia. by rewrite app_nil_r. Qed.
End Blob.

(** What the buffered reader does. *)
Module Reader.
Record Reader : Type := mkReader { blob : Blob.Blob; blob_size : Z; position : Z }.
Implicit Types r : Reader.

Definition new (b : Blob.Blob) (blob_size : Z) : Reader := mkReader b blob_size 0.
Definition blob_remaining r : Z := saturating_sub (blob_size r) (position r).
Definition read_exact r (n : Z) : rresult (bytes * Reader) :=
  if blob_remaining r <? n then Err InsufficientLength
  else
    let? buf := Blob.read_at (blob r) n (position r) in
    Ok (buf, mkReader (blob r) (blob_size r) (position r + n)).
Definition seek_to r (position : Z) : rresult Reader :=
  if blob_size r <? position then Err InsufficientLength else Ok (mkReader (blob r) (blob_size r) position).
(** The blob is synced too. *)
Definition resize r (len : Z) : Blob.Blob := Blob.sync (Blob.resize (blob r) len).
End Reader.
