(* ===== verification/Buffered.v ===== *)
(** * Buffered blobs (runtime/src/utils/buffer)

    [Tip] is the buffer at the end of a blob (tip.rs), [Pool] the cache of pages
    with the clock replacement policy (pool.rs), [Append] an append-only blob with
    both (append.rs), [Write] a blob with a write buffer (write.rs) and [Read] a
    buffered reader (read.rs).  One task uses them at a time: locks, and the table of
    page fetches that other tasks wait for, are left out. *)

From S2P Require Import Prelude Codec Blob.

Module Tip.
Record Buffer : Type := mkBuffer { data : bytes; offset : Z; capacity : Z }.
Implicit Types b : Buffer.

Definition new (size capacity : Z) : Buffer := mkBuffer [] size capacity.
Definition size b : Z := offset b + Z.of_nat (length (data b)).
Definition is_empty b : bool := match data b with [] => true | _ => false end.

Definition resize b (len : Z) : option (bytes * Z) * Buffer :=
  if is_empty b then (None, mkBuffer (data b) len (capacity b))
  else if size b <=? len then (Some (data b, offset b), mkBuffer [] len (capacity b))
  else if offset b <=? len then (None, mkBuffer (take (Z.to_nat (len - offset b)) (data b)) (offset b) (capacity b))
  else (None, mkBuffer [] len (capacity b)).

Definition take b : option (bytes * Z) * Buffer :=
  if is_empty b then (None, b) else (Some (data b, offset b), mkBuffer [] (size b) (capacity b)).

(** How many bytes of the [n] at [at_] are missing, at the front, and the others. *)
Definition extract b (n at_ : Z) : option (Z * bytes) :=
  end_offset ← checked_add 64 at_ n;
  if negb (end_offset <=? size b) then None
  else if end_offset <=? offset b then Some (n, [])
  else
    let '(start, remaining) := if at_ <? offset b then (0, offset b - at_) else (at_ - offset b, 0) in
    let stop := start + n - remaining in
    if negb (stop <=? Z.of_nat (length (data b))) then None
    else Some (remaining, Blob.slice (data b) start (stop - start)).

Definition merge b (d : bytes) (at_ : Z) : option (bool * Buffer) :=
  end_offset ← checked_add 64 at_ (Z.of_nat (length d));
  can_merge_into_buffer ←
    (if offset b <=? at_ then limit ← checked_add 64 (offset b) (capacity b); Some (end_offset <=? limit) else Some false);
  if negb can_merge_into_buffer then Some (false, b)
  else
    let start := at_ - offset b in
    let stop := start + Z.of_nat (length d) in
    let expanded := if Z.of_nat (length (data b)) <? stop then Blob.vec_resize (data b) stop else data b in
    Some (true, mkBuffer (Blob.overwrite expanded start d) (offset b) (capacity b)).

Definition append b (d : bytes) : bool * Buffer :=
  let data := data b ++ d in
  (capacity b <? Z.of_nat (length data), mkBuffer data (offset b) (capacity b)).
End Tip.

Module Pool.
Record CacheEntry : Type := mkEntry { key : Z * Z; referenced : bool; data : bytes }.
Record Pool : Type := mkPool { index : gmap (Z * Z) nat; cache : list CacheEntry; clock : nat; capacity : nat }.
Implicit Types p : Pool.

Definition new (capacity : nat) : option Pool := if (0 <? capacity)%nat then Some (mkPool ∅ [] 0 capacity) else None.
Definition offset_to_page (page_size offset : Z) : Z * Z := (offset / page_size, offset mod page_size).

Definition set_entry p (i : nat) (e : CacheEntry) : Pool := mkPool (index p) (<[i := e]> (cache p)) (clock p) (capacity p).

(** Up to [n] bytes, none if the page is not cached. *)
Definition read_at p (page_size blob_id n offset : Z) : option (bytes * Pool) :=
  let '(page_num, offset_in_page) := offset_to_page page_size offset in
  match index p !! (blob_id, page_num) with
  | None => Some ([], p)
  | Some page_index =>
      page ← cache p !! page_index;
      if decide (key page = (blob_id, page_num)) then
        let bytes_to_copy := Z.min n (page_size - offset_in_page) in
        Some (Blob.slice (data page) offset_in_page bytes_to_copy,
              set_entry p page_index (mkEntry (key page) true (data page)))
      else None
  end.

(** The hand of the clock clears what it passes, so it stops within two rounds. *)
Fixpoint find_victim (fuel : nat) p : option Pool :=
  match fuel with
  | O => None
  | S fuel =>
      page ← cache p !! clock p;
      if referenced page then
        let p := set_entry p (clock p) (mkEntry (key page) false (data page)) in
        find_victim fuel (mkPool (index p) (cache p) ((clock p + 1) mod length (cache p)) (capacity p))
      else Some p
  end.

Definition cache_page p (page_size blob_id : Z) (page : bytes) (page_num : Z) : option Pool :=
  if negb (Z.of_nat (length page) =? page_size) then None
  else
    let key_ := (blob_id, page_num) in
    match index p !! key_ with
    | Some i =>
        entry ← cache p !! i;
        if decide (key entry = key_) then Some (set_entry p i (mkEntry key_ true page)) else None
    | None =>
        if (length (cache p) <? capacity p)%nat then
          Some (mkPool (<[key_ := length (cache p)]> (index p)) (cache p ++ [mkEntry key_ true page]) (clock p) (capacity p))
        else
          p ← find_victim (2 * length (cache p) + 1) p;
          entry ← cache p !! clock p;
          _ ← index p !! key entry;
          Some (mkPool (<[key_ := clock p]> (delete (key entry) (index p))) (<[clock p := mkEntry key_ true page]> (cache p))
                  ((clock p + 1) mod length (cache p)) (capacity p))
    end.

(** Unless it was cached since, the page is read from the blob, cached, and what is
    asked for of it returned. *)
Definition read_after_page_fault p (page_size : Z) (b : Blob.Blob) (blob_id n offset : Z) : rresult (bytes * Pool) :=
  let '(page_num, offset_in_page) := offset_to_page page_size offset in
  let? (got, p) := expect (read_at p page_size blob_id n offset) in
  match got with _ :: _ => Ok (got, p) | [] =>
  match Blob.memory_read_at b page_size (page_num * page_size) with
  | Ok page_buf =>
      let? p := expect (cache_page p page_size blob_id page_buf page_num) in
      let bytes_to_copy := Z.min n (page_size - offset_in_page) in
      Ok (Blob.slice page_buf offset_in_page bytes_to_copy, p)
  | Err _ => Err ReadFailed
  | Panic => Panic
  end
  end.

(** A page at a time; every turn reads at least a byte. *)
Fixpoint read_loop (fuel : nat) p (page_size : Z) (b : Blob.Blob) (blob_id n offset : Z) (acc : bytes) : rresult (bytes * Pool) :=
  match fuel with
  | O => Panic
  | S fuel =>
      if n <=? 0 then Ok (acc, p)
      else
        let? (got, p) := expect (read_at p page_size blob_id n offset) in
        let? (got, p) := match got with [] => read_after_page_fault p page_size b blob_id n offset | _ => Ok (got, p) end in
        let count := Z.of_nat (length got) in
        read_loop fuel p page_size b blob_id (n - count) (offset + count) (acc ++ got)
  end.
Definition read p (page_size : Z) (b : Blob.Blob) (blob_id n offset : Z) : rresult (bytes * Pool) :=
  read_loop (S (Z.to_nat n)) p page_size b blob_id n offset [].

(** The pages of [buf]; the length of what does not fill one is returned. *)
Fixpoint cache_loop (fuel : nat) p (page_size blob_id : Z) (buf : bytes) (page_num : Z) : option (Z * Pool) :=
  match fuel with
  | O => None
  | S fuel =>
      if page_size <=? Z.of_nat (length buf) then
        p ← cache_page p page_size blob_id (list.take (Z.to_nat page_size) buf) page_num;
        let buf := drop (Z.to_nat page_size) buf in
        match checked_add 64 page_num 1 with
        | Some next => cache_loop fuel p page_size blob_id buf next
        | None => Some (Z.of_nat (length buf), p)
        end
      else Some (Z.of_nat (length buf), p)
  end.
Definition cache_pages p (page_size blob_id : Z) (buf : bytes) (offset : Z) : option (Z * Pool) :=
  let '(page_num, offset_in_page) := offset_to_page page_size offset in
  if offset_in_page =? 0 then cache_loop (S (length buf)) p page_size blob_id buf page_num else None.
End Pool.

(** The blob, the buffer with the size of the blob, and the pool shared with others. *)
Module Append.
Record Append : Type := mkAppend {
  blob : Blob.Blob; id : Z; buffer : Tip.Buffer; blob_size : Z; page_size : Z; pool : Pool.Pool }.
Implicit Types a : Append.

(** The bytes of the last page that is not full, appended to an empty buffer. *)
Definition load_leftover (b : Blob.Blob) (size page_size : Z) (buffer : Tip.Buffer) : rresult Tip.Buffer :=
  let leftover_size := size mod page_size in
  if leftover_size =? 0 then Ok buffer
  else
    let? page_buf := Blob.memory_read_at b leftover_size (size - leftover_size) in
    let '(over, buffer) := Tip.append buffer page_buf in
    if over : bool then Panic else Ok buffer.

Definition new (b : Blob.Blob) (size buffer_size page_size id : Z) (pool : Pool.Pool) : rresult Append :=
  let buffer_size := Z.max buffer_size (page_size * 2) in
  let leftover_size := size mod page_size in
  let? buffer := load_leftover b size page_size (Tip.new (size - leftover_size) buffer_size) in
  Ok (mkAppend b id buffer size page_size pool).

Definition size a : Z := Tip.size (buffer a).

Definition flush a : rresult Append :=
  match Tip.take (buffer a) with
  | (None, _) => Ok a
  | (Some (buf, offset), buffer) =>
      let? (remaining, pool) := expect (Pool.cache_pages (pool a) (page_size a) (id a) buf offset) in
      let? buffer :=
        if remaining =? 0 then Ok buffer
        else
          let? offset := expect (checked_sub (Tip.offset buffer) remaining) in
          Ok (Tip.mkBuffer (Tip.data buffer ++ drop (length buf - Z.to_nat remaining) buf) offset (Tip.capacity buffer)) in
      let new_data_start := Z.to_nat (saturating_sub (blob_size a) offset) in
      if (length buf <=? new_data_start)%nat then Ok (mkAppend (blob a) (id a) buffer (blob_size a) (page_size a) pool)
      else
        let buf := drop new_data_start buf in
        let? b := Blob.memory_write_at (blob a) buf (blob_size a) in
        Ok (mkAppend b (id a) buffer (blob_size a + Z.of_nat (length buf)) (page_size a) pool)
  end.

Definition append a (buf : bytes) : rresult Append :=
  match checked_add 64 (Tip.size (buffer a)) (Z.of_nat (length buf)) with
  | None => Err OffsetOverflow
  | Some _ =>
      let '(over, buffer) := Tip.append (buffer a) buf in
      let a := mkAppend (blob a) (id a) buffer (blob_size a) (page_size a) (pool a) in
      if over : bool then flush a else Ok a
  end.

Definition read_at a (n offset : Z) : rresult (bytes * Append) :=
  match checked_add 64 offset n with
  | None => Err OffsetOverflow
  | Some end_offset =>
      if Tip.size (buffer a) <? end_offset then Err InsufficientLength
      else
        let? (remaining, tip) := expect (Tip.extract (buffer a) n offset) in
        if remaining =? 0 then Ok (tip, a)
        else
          let? (front, pool) := Pool.read (pool a) (page_size a) (blob a) (id a) remaining offset in
          Ok (front ++ tip, mkAppend (blob a) (id a) (buffer a) (blob_size a) (page_size a) pool)
  end.

Definition sync a : rresult Append :=
  let? a := flush a in
  Ok (mkAppend (Blob.sync (blob a)) (id a) (buffer a) (blob_size a) (page_size a) (pool a)).

Definition resize a (size : Z) : rresult Append :=
  let? a := flush a in
  let b := Blob.resize (blob a) size in
  let leftover_size := size mod page_size a in
  let? buffer := load_leftover b size (page_size a) (Tip.mkBuffer [] (size - leftover_size) (Tip.capacity (buffer a))) in
  Ok (mkAppend b (id a) buffer size (page_size a) (pool a)).
End Append.

Module Write.
Record Write : Type := mkWrite { blob : Blob.Blob; buffer : Tip.Buffer }.
Implicit Types w : Write.

Definition new (b : Blob.Blob) (size capacity : Z) : Write := mkWrite b (Tip.new size capacity).
Definition size w : Z := Tip.size (buffer w).

Definition read_at w (n offset : Z) : rresult bytes :=
  match checked_add 64 offset n with
  | None => Err OffsetOverflow
  | Some end_offset =>
      if Tip.size (buffer w) <? end_offset then Err InsufficientLength
      else
        let? (remaining, tip) := expect (Tip.extract (buffer w) n offset) in
        if remaining =? 0 then Ok tip
        else let? blob_part := Blob.memory_read_at (blob w) remaining offset in Ok (blob_part ++ tip)
  end.

Definition write_at w (buf : bytes) (offset : Z) : rresult Write :=
  match checked_add 64 offset (Z.of_nat (length buf)) with
  | None => Err OffsetOverflow
  | Some end_offset =>
      let? (merged, buffer) := expect (Tip.merge (buffer w) buf offset) in
      if merged : bool then Ok (mkWrite (blob w) buffer)
      else
        let direct w :=
          let? b := Blob.memory_write_at (blob w) buf offset in
          let t := Write.buffer w in
          Ok (mkWrite b (Tip.mkBuffer (Tip.data t) (Z.max (Tip.offset t) end_offset) (Tip.capacity t))) in
        if Tip.offset buffer <? end_offset then
          match Tip.take buffer with
          | (Some (old_buf, old_offset), buffer) =>
              let? b := Blob.memory_write_at (blob w) old_buf old_offset in
              let? (merged, buffer) := expect (Tip.merge buffer buf offset) in
              if merged : bool then Ok (mkWrite b buffer) else direct (mkWrite b buffer)
          | (None, buffer) => direct (mkWrite (blob w) buffer)
          end
        else direct (mkWrite (blob w) buffer)
  end.

Definition resize w (len : Z) : rresult Write :=
  let '(flushed, buffer) := Tip.resize (buffer w) len in
  let? b := match flushed with Some (buf, offset) => Blob.memory_write_at (blob w) buf offset | None => Ok (blob w) end in
  Ok (mkWrite (Blob.resize b len) buffer).

Definition sync w : rresult Write :=
  let '(flushed, buffer) := Tip.take (buffer w) in
  let? b := match flushed with Some (buf, offset) => Blob.memory_write_at (blob w) buf offset | None => Ok (blob w) end in
  Ok (mkWrite (Blob.sync b) buffer).
End Write.

(** What the reader uses of a [Blob]: its reads, which may change what it caches. *)
Class Readable (B : Type) := readable_at : B → Z → Z → rresult (bytes * B).
#[export] Instance blob_readable : Readable Blob.Blob := λ b n offset, let? got := Blob.memory_read_at b n offset in Ok (got, b).
#[export] Instance append_readable : Readable Append.Append := Append.read_at.
#[export] Instance write_readable : Readable Write.Write := λ w n offset, let? got := Write.read_at w n offset in Ok (got, w).

Module Read.
Section Ops.
Context `{Readable B}.

Record Read : Type := mkRead {
  blob : B; buffer : bytes; blob_position : Z; blob_size : Z;
  buffer_position : Z; buffer_valid_len : Z; buffer_size : Z }.
Implicit Types r : Read.

Definition new (b : B) (blob_size buffer_size : Z) : Read :=
  mkRead b (replicate (Z.to_nat buffer_size) (byte.of_Z 0)) 0 blob_size 0 0 buffer_size.
Definition buffer_remaining r : Z := buffer_valid_len r - buffer_position r.
Definition blob_remaining r : Z := saturating_sub (blob_size r) (blob_position r + buffer_position r).

(** The calls return what became of the reader on an error too: it can be used
    afterwards.  A failed read of a whole buffer has lost the buffer. *)
Definition refill r : rresult unit * Read :=
  let r := mkRead (blob r) (buffer r) (blob_position r + buffer_position r) (blob_size r) 0 0 (buffer_size r) in
  let blob_remaining := saturating_sub (blob_size r) (blob_position r) in
  if blob_remaining =? 0 then (Err InsufficientLength, r)
  else
    let bytes_to_read := Z.min (buffer_size r) blob_remaining in
    match readable_at (blob r) bytes_to_read (blob_position r) with
    | Ok (got, b) =>
        let buffer := if bytes_to_read <? buffer_size r then Blob.overwrite (buffer r) 0 got else got in
        (Ok tt, mkRead b buffer (blob_position r) (blob_size r) 0 bytes_to_read (buffer_size r))
    | Err e => (Err e, if bytes_to_read <? buffer_size r then r else mkRead (blob r) [] (blob_position r) (blob_size r) 0 0 (buffer_size r))
    | Panic => (Panic, r)
    end.

Fixpoint read_exact_loop (fuel : nat) r (size : Z) (acc : bytes) : rresult bytes * Read :=
  match fuel with
  | O => (Panic, r)
  | S fuel =>
      if size <=? 0 then (Ok acc, r)
      else
        match (if buffer_valid_len r <=? buffer_position r then refill r else (Ok tt, r)) with
        | (Ok _, r) =>
            let bytes_to_copy := Z.min size (buffer_remaining r) in
            let got := Blob.slice (buffer r) (buffer_position r) bytes_to_copy in
            read_exact_loop fuel
              (mkRead (blob r) (buffer r) (blob_position r) (blob_size r) (buffer_position r + bytes_to_copy) (buffer_valid_len r) (buffer_size r))
              (size - bytes_to_copy) (acc ++ got)
        | (Err e, r) => (Err e, r)
        | (Panic, r) => (Panic, r)
        end
  end.
(** Every turn of the loop copies a byte.  An overflow of the sum is a panic. *)
Definition read_exact r (size : Z) : rresult bytes * Read :=
  if 2 ^ 64 <=? buffer_remaining r + blob_remaining r then (Panic, r)
  else if buffer_remaining r + blob_remaining r <? size then (Err InsufficientLength, r)
  else read_exact_loop (S (Z.to_nat size)) r size [].

Definition position r : Z := blob_position r + buffer_position r.

Definition seek_to r (position : Z) : rresult unit * Read :=
  if blob_size r <? position then (Err InsufficientLength, r)
  else
    let buffer_start := blob_position r in
    let buffer_end := blob_position r + buffer_valid_len r in
    if (buffer_start <=? position) && (position <? buffer_end)
    then (Ok tt, mkRead (blob r) (buffer r) (blob_position r) (blob_size r) (position - blob_position r) (buffer_valid_len r) (buffer_size r))
    else (Ok tt, mkRead (blob r) (buffer r) position (blob_size r) 0 0 (buffer_size r)).
End Ops.
End Read.
