(* ===== verification/BufferedPool.v ===== *)
(** * The page cache

    The pool never serves a page other than the last one cached under its key, the
    hand of the clock always finds a victim, and a read through the pool returns
    the bytes of the blob as long as the cached pages agree with it. *)

From S2P Require Import Prelude Codec Blob Buffered.

Module BufferedPool.
Import Pool.
Notation len l := (Z.of_nat (length l)).

Definition cached (p : Pool) (k : Z * Z) : option bytes := i ← index p !! k; data <$> cache p !! i.

Section Facts.
Context (ps : Z) (Hps : 0 < ps).
Implicit Types p : Pool.

Record pool_ok p : Prop := {
  po_index k i : index p !! k = Some i ↔ ∃ e, cache p !! i = Some e ∧ key e = k;
  po_room : (length (cache p) ≤ capacity p)%nat;
  po_capacity : (0 < capacity p)%nat;
  po_clock : (clock p < Nat.max 1 (length (cache p)))%nat;
  po_pages i e : cache p !! i = Some e → len (data e) = ps;
}.

Lemma cached_key p i e : pool_ok p → cache p !! i = Some e → cached p (key e) = Some (data e).
Proof. intros H E. unfold cached. rewrite (proj2 (po_index p H (key e) i)) by by exists e. cbn. by rewrite E. Qed.
Lemma cached_length p k d : pool_ok p → cached p k = Some d → len d = ps.
Proof.
  intros H. unfold cached. destruct (index p !! k) as [i|]; [|done]. cbn. destruct (cache p !! i) as [e|] eqn:E; [|done].
  intros [= <-]. by eapply po_pages.
Qed.

(** Replacing the entry of a key. *)
Lemma set_entry_ok p i e e' : pool_ok p → cache p !! i = Some e → key e' = key e → len (data e') = ps →
  pool_ok (set_entry p i e') ∧ ∀ k, cached (set_entry p i e') k = if decide (k = key e) then Some (data e') else cached p k.
Proof.
  intros H E Ek Hl. pose proof (lookup_lt_Some _ _ _ E) as Hi. split.
  - split; cbn; rewrite ?length_insert; try apply H.
    + intros k j. rewrite (po_index p H). split; intros (x & Ex & <-).
      * destruct (decide (i = j)) as [<-|Hne].
        { exists e'. rewrite list_lookup_insert_eq by done. rewrite E in Ex. by injection Ex as <-. }
        { exists x. by rewrite list_lookup_insert_ne. }
      * destruct (decide (i = j)) as [<-|Hne].
        { rewrite list_lookup_insert_eq in Ex by done. injection Ex as <-. exists e. by rewrite Ek. }
        { rewrite list_lookup_insert_ne in Ex by done. by exists x. }
    + intros j x Hx. apply list_lookup_insert_Some in Hx as [(<- & <- & _)|[_ Hx]]; [done|by eapply po_pages].
  - intros k. unfold cached. cbn. case_decide as Hk.
    + subst k. rewrite (proj2 (po_index p H (key e) i)) by by exists e. cbn. by rewrite list_lookup_insert_eq.
    + destruct (index p !! k) as [j|] eqn:Ej; [|done]. cbn. rewrite list_lookup_insert_ne; [done|].
      intros <-. apply (po_index p H) in Ej as (x & Ex & Exk). rewrite E in Ex. injection Ex as <-. done.
Qed.
Lemma set_flag_ok p i e r : pool_ok p → cache p !! i = Some e →
  pool_ok (set_entry p i (mkEntry (key e) r (data e))) ∧ ∀ k, cached (set_entry p i (mkEntry (key e) r (data e))) k = cached p k.
Proof.
  intros H E. destruct (set_entry_ok p i e (mkEntry (key e) r (data e)) H E) as [H1 H2]; [done|cbn; by eapply po_pages|].
  split; [done|]. intros k. rewrite H2. case_decide as Hk; [|done]. subst k. cbn. symmetry. by eapply cached_key.
Qed.

Lemma pool_read_at p id n off : pool_ok p → ∃ p',
  read_at p ps id n off = Some (match cached p (id, off / ps) with
    | Some d => Blob.slice d (off mod ps) (Z.min n (ps - off mod ps)) | None => [] end, p') ∧ pool_ok p' ∧ ∀ k, cached p' k = cached p k.
Proof.
  intros H. unfold read_at, offset_to_page, cached at 1. destruct (index p !! (id, off / ps)) as [i|] eqn:Ei; cbn; [|by exists p].
  pose proof Ei as (e & Ee & Ek)%(po_index p H). rewrite Ee. cbn. rewrite decide_True by done.
  destruct (set_flag_ok p i e true H Ee). eauto.
Qed.

(** The hand clears a reference bit in every turn but the last. *)
Definition referenced_count (l : list CacheEntry) : nat := length (filter (λ e, referenced e = true) l).
Lemma count_clear l i e k d : l !! i = Some e → referenced e = true →
  referenced_count l = S (referenced_count (<[i := mkEntry k false d]> l)).
Proof.
  intros E Hr. pose proof (lookup_lt_Some _ _ _ E) as Hi. rewrite insert_take_drop by done. unfold referenced_count.
  rewrite <- (take_drop_middle l i e E) at 1. rewrite !filter_app, !length_app, filter_cons_True, filter_cons_False by done. cbn. lia.
Qed.
Lemma find_victim_ok fuel : ∀ p, pool_ok p → (0 < length (cache p))%nat → (referenced_count (cache p) < fuel)%nat → ∃ p' e,
  find_victim fuel p = Some p' ∧ pool_ok p' ∧ (∀ k, cached p' k = cached p k) ∧ cache p' !! clock p' = Some e ∧
  length (cache p') = length (cache p) ∧ capacity p' = capacity p ∧ index p' = index p.
Proof.
  induction fuel as [|fuel IH]; intros p H Hn Hf; [lia|]. cbn [find_victim]. pose proof (po_clock p H) as Hc.
  destruct (lookup_lt_is_Some_2 (cache p) (clock p)) as [e Ee]; [lia|]. rewrite Ee. cbn. destruct (referenced e) eqn:Er; [|by exists p, e].
  destruct (set_flag_ok p (clock p) e false H Ee) as [H1 H2].
  edestruct (IH (mkPool (index p) (<[clock p := mkEntry (key e) false (data e)]> (cache p))
    ((clock p + 1) mod length (<[clock p := mkEntry (key e) false (data e)]> (cache p))) (capacity p))) as (p' & e' & E & H' & Hk & He & Hl & Hcap & Hi).
  - destruct H1 as [A B C D F]. split; [exact A|exact B|exact C| |exact F]. cbn [clock cache]. rewrite length_insert.
    pose proof (Nat.mod_upper_bound (clock p + 1) (length (cache p)) ltac:(lia)). lia.
  - cbn. by rewrite length_insert.
  - cbn [cache]. rewrite (count_clear (cache p) (clock p) e (key e) (data e) Ee Er) in Hf. lia.
  - exists p', e'. cbn in *. rewrite length_insert in Hl. split_and!; [exact E|done| |done..]. intros k. rewrite Hk. apply H2.
Qed.
Lemma count_length l : (referenced_count l ≤ length l)%nat.
Proof. apply length_filter. Qed.

(** What is cached after a page was: the page, and some of what was there. *)
Definition caches p p' (k0 : Z * Z) (page : bytes) : Prop :=
  pool_ok p' ∧ ∀ k d, cached p' k = Some d → if decide (k = k0) then d = page else cached p k = Some d.

Lemma fresh_key p k : pool_ok p → index p !! k = None → ∀ j e, cache p !! j = Some e → key e ≠ k.
Proof. intros H Ek j e Ee <-. assert (index p !! key e = Some j) as Ej by (apply (po_index p H); eauto). by rewrite Ek in Ej. Qed.
Lemma same_key p i j e x : pool_ok p → cache p !! i = Some e → cache p !! j = Some x → key x = key e → j = i.
Proof.
  intros H Ee Ex Ek. assert (index p !! key e = Some j) as Ej by (apply (po_index p H); eauto).
  rewrite (proj2 (po_index p H (key e) i)) in Ej by by exists e. by injection Ej.
Qed.

Lemma push_page_ok p k page : pool_ok p → index p !! k = None → (length (cache p) < capacity p)%nat → len page = ps →
  caches p (mkPool (<[k := length (cache p)]> (index p)) (cache p ++ [mkEntry k true page]) (clock p) (capacity p)) k page.
Proof.
  intros H Ek Hlt Hl. split.
  - split; cbn; rewrite ?length_app; cbn; try apply H; [|lia|pose proof (po_clock p H); lia|].
    + intros k' i. rewrite lookup_insert_Some, (po_index p H). split.
      * intros [[<- <-]|[Hne (e & Ee & Hk)]].
        { exists (mkEntry k true page). by rewrite lookup_app_r, Nat.sub_diag by lia. }
        { exists e. split; [|done]. by apply lookup_app_l_Some. }
      * intros (e & Ee & Hk). apply lookup_app_Some in Ee as [Ee|[Hi Ee]].
        { right. split; [|by exists e]. rewrite <- Hk. intros E. by apply (fresh_key p k H Ek i e). }
        { left. apply list_lookup_singleton_Some in Ee as [E0 <-]. split; [done|lia]. }
    + intros i e [Ee|[_ Ee]]%lookup_app_Some; [by eapply po_pages|]. apply list_lookup_singleton_Some in Ee as [_ <-]. done.
  - intros k' d. unfold cached. cbn. case_decide as Hk.
    + subst k'. rewrite lookup_insert_eq. cbn. rewrite lookup_app_r, Nat.sub_diag by lia. by intros [= <-].
    + rewrite lookup_insert_ne by done. destruct (index p !! k') as [i|] eqn:E; [|done]. cbn.
      apply (po_index p H) in E as (e & Ee & _). by rewrite lookup_app_l, Ee by by eapply lookup_lt_Some.
Qed.

Lemma replace_page_ok p i e k page clk : pool_ok p → cache p !! i = Some e → index p !! k = None → len page = ps → (clk < length (cache p))%nat →
  caches p (mkPool (<[k := i]> (delete (key e) (index p))) (<[i := mkEntry k true page]> (cache p)) clk (capacity p)) k page.
Proof.
  intros H Ee Ek Hl Hclk. pose proof (lookup_lt_Some _ _ _ Ee) as Hi. split.
  - split; cbn; rewrite ?length_insert; try apply H; [|lia|].
    + intros k' j. rewrite lookup_insert_Some, lookup_delete_Some, (po_index p H). split.
      * intros [[<- <-]|(Hne & Hke & x & Ex & Exk)].
        { exists (mkEntry k true page). by rewrite list_lookup_insert_eq. }
        { exists x. split; [|done]. rewrite list_lookup_insert_ne; [done|]. intros <-. rewrite Ee in Ex. by injection Ex as <-. }
      * intros (x & [(<- & <- & _)|[Hne Ex]]%list_lookup_insert_Some & <-); [by left|]. right.
        split; [intros E0; by apply (fresh_key p k H Ek j x)|]. split; [|by exists x]. intros E0. apply Hne. symmetry. by eapply same_key.
    + intros j x [(<- & <- & _)|[_ Ex]]%list_lookup_insert_Some; [done|by eapply po_pages].
  - intros k' d. unfold cached at 1. cbn [index cache]. case_decide as Hk.
    + subst k'. rewrite lookup_insert_eq. cbn. rewrite list_lookup_insert_eq by done. by intros [= <-].
    + rewrite lookup_insert_ne by done. destruct (decide (key e = k')) as [<-|Hke]; [by rewrite lookup_delete_eq|].
      rewrite lookup_delete_ne by done. unfold cached. destruct (index p !! k') as [j|] eqn:Ej; [|done]. cbn.
      apply (po_index p H) in Ej as (x & Ex & <-). rewrite list_lookup_insert_ne; [done|]. intros <-. rewrite Ee in Ex. by injection Ex as <-.
Qed.

Lemma cache_page_ok p id page num : pool_ok p → len page = ps → ∃ p', cache_page p ps id page num = Some p' ∧ caches p p' (id, num) page.
Proof.
  intros H Hl. unfold cache_page. rewrite (proj2 (Z.eqb_eq _ _)) by done. cbn [negb]. destruct (index p !! (id, num)) as [i|] eqn:Ei.
  - pose proof Ei as (e & Ee & Ek)%(po_index p H). rewrite Ee. cbn. rewrite decide_True by done.
    destruct (set_entry_ok p i e (mkEntry (id, num) true page) H Ee) as [H1 H2]; [done..|]. eexists. split; [done|]. split; [done|].
    intros k d. rewrite H2, Ek. case_decide; [by intros [= <-]|done].
  - destruct (Nat.ltb_spec (length (cache p)) (capacity p)) as [Hlt|Hge]; [eexists; split; [done|by apply push_page_ok]|].
    pose proof (po_capacity p H). pose proof (count_length (cache p)).
    destruct (find_victim_ok (2 * length (cache p) + 1) p H ltac:(lia) ltac:(lia)) as (p' & e & E & H' & Hk & Ee & Hlen & Hcap & Hi).
    rewrite E. cbn. rewrite Ee. cbn. rewrite (proj2 (po_index p' H' (key e) (clock p'))) by by exists e. cbn. pose proof (lookup_lt_Some _ _ _ Ee).
    destruct (replace_page_ok p' (clock p') e (id, num) page ((clock p' + 1) mod length (cache p'))) as [HA HB]; [done|done|by rewrite Hi|done| |].
    { apply Nat.mod_upper_bound. lia. }
    eexists. split; [done|]. split; [done|]. intros k d Hd. specialize (HB k d Hd). by rewrite Hk in HB.
Qed.

(** ** Whole ranges *)

Lemma cache_loop_ok fuel : ∀ p id buf num, pool_ok p → (length buf < fuel)%nat → 0 ≤ num → num * ps + len buf < 2 ^ 64 →
  ∃ p', cache_loop fuel p ps id buf num = Some (len buf mod ps, p') ∧ pool_ok p' ∧
  ∀ k d, cached p' k = Some d →
    (k.1 = id ∧ num ≤ k.2 < num + len buf / ps ∧ d = Blob.slice buf ((k.2 - num) * ps) ps) ∨
    (¬ (k.1 = id ∧ num ≤ k.2 < num + len buf / ps) ∧ cached p k = Some d).
Proof.
  induction fuel as [|fuel IH]; intros p id buf num H Hf Hn Hb; [lia|]. cbn [cache_loop]. destruct (Z.leb_spec ps (len buf)) as [Hle|Hlt].
  - pose proof (length_drop buf (Z.to_nat ps)) as Hd. set (rest := drop (Z.to_nat ps) buf) in *.
    assert (len rest = len buf - ps) as Hrest by lia.
    destruct (cache_page_ok p id (list.take (Z.to_nat ps) buf) num H) as (p1 & E1 & H1 & Hc1); [rewrite length_take; lia|].
    rewrite E1. cbn. unfold checked_add. rewrite (proj2 (Z.ltb_lt _ _)) by nia.
    destruct (IH p1 id rest (num + 1) H1) as (p2 & E2 & H2 & Hc2); [lia|lia|nia|].
    assert (len rest mod ps = len buf mod ps ∧ len rest / ps = len buf / ps - 1) as [Em Ed].
    { rewrite Hrest. replace (len buf - ps) with (len buf + (-1) * ps) by lia. rewrite Z.mod_add, Z.div_add by lia. lia. }
    rewrite E2, Em. eexists. split; [done|]. split; [done|]. intros k d Hk. pose proof (Z.div_le_lower_bound (len buf) ps 1 ltac:(lia) ltac:(lia)).
    destruct (Hc2 k d Hk) as [(Ek & Hr & ->)|[Hno Hk1]].
    + left. split_and!; [done|lia|lia|]. unfold rest. rewrite Blob.drop_slice, Z2Nat.id by lia. rewrite Blob.slice_slice; [f_equal; lia|lia|nia|lia|].
      rewrite Ed in Hr. pose proof (Z.mul_div_le (len buf) ps ltac:(lia)). nia.
    + specialize (Hc1 k d Hk1). case_decide as Ekk.
      * subst k d. left. cbn. split_and!; [done|lia|lia|]. rewrite Z.sub_diag, Z.mul_0_l. apply Blob.take_slice'. lia.
      * right. split; [|done]. intros (Ek & Hr). destruct (decide (k.2 = num)); [apply Ekk; destruct k; cbn in *; congruence|]. apply Hno. lia.
  - rewrite Z.mod_small, Z.div_small by lia. exists p. split_and!; [done..|]. intros k d Hk. right. split; [lia|done].
Qed.

(** The cached pages below [o] are those of [c]. *)
Definition agrees p (id : Z) (c : bytes) (o : Z) : Prop :=
  ∀ n d, 0 ≤ n → cached p (id, n) = Some d → (n + 1) * ps ≤ o → d = Blob.slice c (n * ps) ps.

Lemma read_loop_ok fuel b id o : o mod ps = 0 → o ≤ Blob.size b < 2 ^ 64 → ∀ p n off acc,
  pool_ok p → agrees p id (Blob.content b) o → 0 ≤ n → 0 ≤ off → off + n ≤ o → n < Z.of_nat fuel →
  ∃ p', read_loop fuel p ps b id n off acc = Ok (acc ++ Blob.slice (Blob.content b) off n, p') ∧ pool_ok p' ∧ agrees p' id (Blob.content b) o.
Proof.
  intros Ho Hs. induction fuel as [|fuel IH]; intros p n off acc H Ha Hn Hoff Hle Hf; [lia|]. cbn [read_loop]. destruct (Z.leb_spec n 0) as [?|Hpos].
  - rewrite Blob.slice_nil, app_nil_r by lia. eauto.
  - set (q := off / ps). set (i := off mod ps). pose proof (Z.div_mod off ps ltac:(lia)) as Hqi. pose proof (Z.mod_pos_bound off ps Hps) as Hi. fold q i in Hqi, Hi.
    assert (0 ≤ q) as Hq by (apply Z.div_pos; lia).
    assert ((q + 1) * ps ≤ o) as Hpage.
    { pose proof (Z.div_mod o ps ltac:(lia)) as Hdo. rewrite Ho in Hdo. assert (q < o / ps); [|nia]. apply Z.div_lt_upper_bound; nia. }
    set (m := Z.min n (ps - i)).
    assert (Blob.slice (Blob.slice (Blob.content b) (q * ps) ps) i m = Blob.slice (Blob.content b) off m) as Eslice.
    { rewrite Blob.slice_slice by (unfold m; nia). f_equal. lia. }
    assert (len (Blob.slice (Blob.content b) off m) = m) as Hlen.
    { apply Blob.slice_length; [lia|unfold m; lia|]. unfold Blob.size in Hs. unfold m. lia. }
    assert (∃ got p1 p2, Pool.read_at p ps id n off = Some (got, p1) ∧
      match got with [] => read_after_page_fault p1 ps b id n off | _ => Ok (got, p1) end = Ok (Blob.slice (Blob.content b) off m, p2) ∧
      pool_ok p2 ∧ agrees p2 id (Blob.content b) o) as (got & p1 & p2 & E1 & E2 & H2 & Ha2).
    { destruct (pool_read_at p id n off H) as (p1 & E1 & H1 & Hk1). fold q i m in E1.
      assert (agrees p1 id (Blob.content b) o) as Ha1 by (intros k d Hk; rewrite Hk1; by apply Ha).
      destruct (cached p (id, q)) as [d|] eqn:Ed.
      - rewrite (Ha q d Hq Ed Hpage) in E1. rewrite Eslice in E1. eexists _, p1, p1. split; [done|]. split; [|done].
        destruct (Blob.slice (Blob.content b) off m) eqn:Es; [cbn in Hlen; unfold m in Hlen; lia|done].
      - destruct (pool_read_at p1 id n off H1) as (p0 & E0 & H0 & Hk0). fold q i m in E0. rewrite Hk1, Ed in E0.
        exists [], p1. unfold read_after_page_fault, offset_to_page. fold q i. rewrite E0. cbn [expect obind].
        rewrite Blob.memory_read_at_Ok by nia. destruct (cache_page_ok p0 id (Blob.slice (Blob.content b) (q * ps) ps) q H0) as (p2 & E2 & H2 & Hc2).
        { apply Blob.slice_length; [nia|lia|unfold Blob.size in Hs; nia]. }
        exists p2. rewrite E2. cbn [expect obind]. fold m. rewrite Eslice. split_and!; [done..|]. intros k d Hk Hd Hkle.
        specialize (Hc2 _ _ Hd). case_decide as Ek; [injection Ek as ->; done|]. rewrite Hk0 in Hc2. by apply Ha1. }
    rewrite E1. cbn [expect obind]. rewrite E2. cbn [obind]. rewrite Hlen.
    assert (0 < m) by (unfold m; lia).
    destruct (IH p2 (n - m) (off + m) (acc ++ Blob.slice (Blob.content b) off m) H2 Ha2) as (p3 & E3 & H3 & Ha3); try (unfold m in *; lia).
    rewrite E3. eexists. split; [|done]. f_equal. f_equal. rewrite <- app_assoc, <- Blob.slice_split by (unfold m in *; lia). do 2 f_equal. lia.
Qed.
End Facts.
End BufferedPool.
