(* ===== verification/BufferedProperties.v ===== *)
(** * Buffered blobs implement blobs

    A blob behind an append buffer and a page cache, a blob behind a write buffer and
    a buffered reader do what a plain blob and a plain reader do. *)

From S2P Require Import Prelude Codec Blob Buffered BufferedPool.

Module BufferedProperties.
Import BufferedPool.
Notation len l := (Z.of_nat (length l)).

(** ** Append-only blobs *)

Section AppendOnly.
Import Append.
Implicit Types (a : Append) (b : Blob.Blob).

(** [a] holds what the plain blob [b] holds. *)
Record implements a b : Prop := {
  im_page : 0 < page_size a;
  im_pool : pool_ok (page_size a) (pool a);
  im_aligned : Tip.offset (buffer a) mod page_size a = 0;
  im_offset : 0 ≤ Tip.offset (buffer a) ≤ blob_size a;
  im_size : blob_size a = Blob.size (blob a);
  im_capacity : page_size a * 2 ≤ Tip.capacity (buffer a);
  im_content : Blob.content b = take (Z.to_nat (Tip.offset (buffer a))) (Blob.content (blob a)) ++ Tip.data (buffer a);
  im_prefix : Blob.content (blob a) `prefix_of` Blob.content b;
  im_stored : Blob.stored (blob a) = Blob.stored b;
  im_agrees : agrees (page_size a) (pool a) (id a) (Blob.content b) (Tip.offset (buffer a));
}.

Lemma implements_size a b : implements a b → Tip.size (buffer a) = Blob.size b.
Proof.
  intros H. destruct H as [_ _ _ Ho Hs _ Hc _ _ _]. unfold Tip.size, Blob.size in *. rewrite Hc, length_app, length_take. lia.
Qed.
Lemma size_le a b : implements a b → Blob.size (blob a) ≤ Blob.size b.
Proof. intros H. destruct (im_prefix a b H) as [r E]. unfold Blob.size. rewrite E, length_app. lia. Qed.

(** Everything is in the blob, and the buffer holds its last page if that is not full. *)
Definition flushed a b : Prop := Blob.content (blob a) = Blob.content b ∧ Tip.offset (buffer a) = Blob.size b - Blob.size b mod page_size a.

Lemma mod_block o n ps : 0 < ps → o mod ps = 0 → (o + n) mod ps = n mod ps.
Proof. intros. rewrite Z.add_mod, H0, Z.add_0_l, Z.mod_mod by lia. done. Qed.

Lemma flush_pages a b : implements a b → Blob.size b < 2 ^ 64 → ∃ pool',
  Pool.cache_pages (pool a) (page_size a) (id a) (Tip.data (buffer a)) (Tip.offset (buffer a)) = Some (len (Tip.data (buffer a)) mod page_size a, pool') ∧
  pool_ok (page_size a) pool' ∧ agrees (page_size a) pool' (id a) (Blob.content b) (Blob.size b).
Proof.
  intros H Hb. pose proof (implements_size a b H) as Hsz. destruct H as [Hps Hpool Hal Ho Hs Hcap Hc Hp Hst Hag].
  set (ps := page_size a) in *. set (o := Tip.offset (buffer a)) in *. set (d := Tip.data (buffer a)) in *. unfold Tip.size in Hsz. fold o d in Hsz.
  pose proof (Z.div_mod o ps ltac:(lia)) as Hdiv. rewrite Hal in Hdiv.
  unfold Pool.cache_pages, Pool.offset_to_page. rewrite Hal. cbn [Z.eqb].
  destruct (cache_loop_ok ps Hps (S (length d)) (pool a) (id a) d (o / ps) Hpool ltac:(lia) ltac:(apply Z.div_pos; lia) ltac:(lia)) as (p' & E & H' & Hk).
  exists p'. split_and!; [done..|]. intros n page Hn Hd Hle. destruct (Hk _ _ Hd) as [(_ & Hr & ->)|[Hno Hold]]; cbn in *.
  - rewrite Hc. rewrite Blob.slice_app_r by (rewrite length_take; unfold Blob.size in *; nia). f_equal. rewrite length_take. unfold Blob.size in *. nia.
  - destruct (Z.lt_ge_cases n (o / ps)) as [Hlt|Hge]; [apply (Hag n page Hn Hold); nia|]. exfalso. apply Hno. split; [done|]. split; [done|].
    assert (n - o / ps < len d / ps); [|lia]. pose proof (Z.mul_succ_div_gt (len d) ps Hps). nia.
Qed.

(** What the blob lacks is the end of the buffer. *)
Lemma unwritten a b r : implements a b → Blob.content b = Blob.content (blob a) ++ r →
  drop (Z.to_nat (blob_size a - Tip.offset (buffer a))) (Tip.data (buffer a)) = r ∧ len r = Blob.size b - blob_size a.
Proof.
  intros H Hr. pose proof H as [_ _ _ Ho Hs _ Hc _ _ _]. split; [|unfold Blob.size in *; rewrite Hr, length_app in *; lia].
  assert (drop (Z.to_nat (blob_size a)) (Blob.content b) = r) as <- by (rewrite Hr, Hs; unfold Blob.size; by rewrite Nat2Z.id, drop_app_length).
  rewrite Hc, drop_app_ge; rewrite length_take; [|unfold Blob.size in *; lia]. f_equal. unfold Blob.size in *. lia.
Qed.

(** The buffer keeps what does not fill a page. *)
Lemma rebuffer_ok a rem : 0 ≤ rem ≤ len (Tip.data (buffer a)) → 0 ≤ Tip.offset (buffer a) →
  let t := Tip.mkBuffer [] (Tip.size (buffer a)) (Tip.capacity (buffer a)) in
  (if rem =? 0 then Ok t
   else let? offset := expect (checked_sub (Tip.offset t) rem) in
        Ok (Tip.mkBuffer (Tip.data t ++ drop (length (Tip.data (buffer a)) - Z.to_nat rem) (Tip.data (buffer a))) offset (Tip.capacity t)))
  = Ok (Tip.mkBuffer (drop (length (Tip.data (buffer a)) - Z.to_nat rem) (Tip.data (buffer a))) (Tip.size (buffer a) - rem) (Tip.capacity (buffer a))) :> rresult _.
Proof.
  intros Hrem Ho. cbn zeta. destruct (Z.eqb_spec rem 0) as [->|E0].
  - by rewrite Nat.sub_0_r, drop_all, Z.sub_0_r.
  - unfold checked_sub, Tip.size. cbn [Tip.offset Tip.data Tip.capacity]. by rewrite (proj2 (Z.leb_le _ _)) by lia.
Qed.

(** An append buffer after its pages were cached and its new bytes written. *)
Definition flushed_append a b (p : Pool.Pool) : Append :=
  let rem := len (Tip.data (buffer a)) mod page_size a in
  mkAppend (Blob.mkBlob (Blob.content b) (Blob.stored (blob a))) (id a)
    (Tip.mkBuffer (drop (length (Tip.data (buffer a)) - Z.to_nat rem) (Tip.data (buffer a))) (Blob.size b - rem) (Tip.capacity (buffer a)))
    (Blob.size b) (page_size a) p.

Lemma flushed_append_ok a b p : implements a b → pool_ok (page_size a) p →
  agrees (page_size a) p (id a) (Blob.content b) (Blob.size b) → implements (flushed_append a b p) b ∧ flushed (flushed_append a b p) b.
Proof.
  intros H Hpool' Hag'. pose proof (implements_size a b H) as Hsz. unfold Tip.size in Hsz. pose proof H as [Hps Hpool Hal Ho Hs Hcap Hc Hp Hst Hag].
  unfold flushed_append, flushed. set (ps := page_size a) in *. set (o := Tip.offset (buffer a)) in *. set (d := Tip.data (buffer a)) in *. set (rem := len d mod ps).
  pose proof (Z.mod_pos_bound (len d) ps Hps) as Hrem. fold rem in Hrem.
  pose proof (Z.mod_le (len d) ps ltac:(lia) Hps) as Hreml. fold rem in Hreml.
  assert (Blob.size b - rem = Blob.size b - Blob.size b mod ps) as Eo by (rewrite <- Hsz, (mod_block o (len d) ps) by done; done).
  split; [|by split].
  split; cbn [page_size pool buffer blob_size blob id Tip.offset Tip.data Tip.capacity Blob.content Blob.stored]; try done.
  - rewrite Eo, (Z.mod_eq (Blob.size b) ps) by lia. replace (Blob.size b - (Blob.size b - ps * (Blob.size b / ps))) with ((Blob.size b / ps) * ps) by lia. by apply Z.mod_mul; lia.
  - lia.
  - rewrite Hc at 1 2. fold d. rewrite take_app_ge; rewrite length_take; [|unfold Blob.size in *; lia]. rewrite <- app_assoc. f_equal.
    rewrite <- (take_drop (length d - Z.to_nat rem) d) at 1. f_equal. f_equal. unfold Blob.size in *. lia.
  - intros n page Hn Hd Hle. apply Hag'; [done..|lia].
Qed.

Lemma flush_ok a b : implements a b → Blob.size b < 2 ^ 64 → ∃ a', flush a = Ok a' ∧ implements a' b ∧ flushed a' b ∧
  page_size a' = page_size a ∧ id a' = id a.
Proof.
  intros H Hb. pose proof (implements_size a b H) as Hsz. destruct (flush_pages a b H Hb) as (pool' & Ep & Hpool' & Hag').
  pose proof H as [Hps Hpool Hal Ho Hs Hcap Hc Hp Hst Hag]. unfold flush, Tip.take, Tip.is_empty.
  destruct Hp as [r Hr]. destruct (unwritten a b r H Hr) as [Edrop Hlr].
  destruct (Tip.data (buffer a)) as [|x l] eqn:Ed.
  - exists a. rewrite drop_nil in Edrop. rewrite <- Edrop, app_nil_r in Hr. unfold Tip.size in Hsz. rewrite Ed in Hsz. cbn in Hsz.
    split_and!; [done|done| |done|done]. split; [done|]. replace (Blob.size b) with (Tip.offset (buffer a)) by lia. lia.
  - rewrite <- Ed in *. clear x l Ed. unfold Tip.size in Hsz. rewrite Ep. cbn [expect obind].
    pose proof (Z.mod_pos_bound (len (Tip.data (buffer a))) _ Hps). pose proof (Z.mod_le (len (Tip.data (buffer a))) _ ltac:(lia) Hps).
    rewrite (rebuffer_ok a) by lia. cbn [obind]. unfold saturating_sub. rewrite Z.max_r by lia.
    exists (flushed_append a b pool'). destruct (flushed_append_ok a b pool' H Hpool' Hag') as [Hi Hfl]. split; [|done].
    unfold flushed_append. rewrite <- Hsz. fold (Tip.size (buffer a)).
    destruct (Nat.leb_spec (length (Tip.data (buffer a))) (Z.to_nat (blob_size a - Tip.offset (buffer a)))) as [Hle|Hgt].
    + rewrite drop_ge in Edrop by done. rewrite <- Edrop, app_nil_r in Hr. rewrite <- Edrop in Hlr. cbn in Hlr. do 2 f_equal; [|unfold Tip.size; lia].
      rewrite Hr. by destruct (blob a).
    + rewrite Edrop, Hs, Blob.memory_write_at_end by lia. cbn [obind]. rewrite <- Hr, <- Hs, Hlr. do 2 f_equal. unfold Tip.size. lia.
Qed.

Lemma append_blob_ok a b buf : implements a b → Blob.size b < 2 ^ 64 →
  match append a buf, Blob.append b buf with
  | Ok a', Ok b' => implements a' b' ∧ Blob.size b' < 2 ^ 64
  | Err e, Err e' => e = e'
  | _, _ => False
  end.
Proof.
  intros H Hb. pose proof (implements_size a b H) as Hsz. unfold append, Blob.append. rewrite Hsz. unfold checked_add.
  destruct (Z.ltb_spec (Blob.size b + len buf) (2 ^ 64)) as [Hlt|Hge]; [|done]. unfold Tip.append.
  set (a1 := mkAppend (blob a) (id a) (Tip.mkBuffer (Tip.data (buffer a) ++ buf) (Tip.offset (buffer a)) (Tip.capacity (buffer a))) (blob_size a) (page_size a) (pool a)).
  set (b1 := Blob.mkBlob (Blob.content b ++ buf) (Blob.stored b)).
  assert (Blob.size b1 < 2 ^ 64) as Hb1 by (unfold Blob.size, b1 in *; cbn; rewrite length_app; lia).
  assert (implements a1 b1) as H1.
  { destruct H. split; cbn [a1 b1 page_size pool buffer blob_size blob id Tip.offset Tip.data Tip.capacity Blob.content Blob.stored]; try done.
    - by rewrite app_assoc, <- im_content0.
    - by apply prefix_app_r.
    - intros n page Hn Hd Hle. rewrite (im_agrees0 n page Hn Hd Hle). symmetry. apply Blob.slice_app_l; [nia|lia|].
      unfold Tip.size, Blob.size in *. nia. }
  destruct (_ <? _); [|done]. destruct (flush_ok a1 b1 H1 Hb1) as (a2 & -> & H2 & _). done.
Qed.

Lemma extract_ok buf n off : 0 ≤ n → 0 ≤ off → 0 ≤ Tip.offset buf → off + n ≤ Tip.size buf < 2 ^ 64 → ∃ rem tip,
  Tip.extract buf n off = Some (rem, tip) ∧ 0 ≤ rem ≤ n ∧ (0 < rem → off + rem ≤ Tip.offset buf) ∧
  ∀ front, len front = Tip.offset buf → Blob.slice (front ++ Tip.data buf) off n = Blob.slice front off rem ++ tip.
Proof.
  intros Hn Hoff Ho Hs. unfold Tip.extract, checked_add. rewrite (proj2 (Z.ltb_lt (off + n) _)) by lia. cbn [mbind option_bind]. rewrite (proj2 (Z.leb_le (off + n) (Tip.size buf))) by lia. cbn [negb].
  unfold Tip.size in Hs. destruct (Z.leb_spec (off + n) (Tip.offset buf)) as [Hle|Hgt].
  - exists n, []. split_and!; [done|lia|lia|lia|]. intros front Hf. rewrite app_nil_r. apply Blob.slice_app_l; lia.
  - destruct (Z.ltb_spec off (Tip.offset buf)) as [Hlt|Hge]; cbv beta iota zeta; rewrite (proj2 (Z.leb_le _ _)) by lia; cbn [negb]; eexists _, _; (split; [done|]); (split; [lia|]); (split; [lia|]); intros front Hf.
    + replace n with ((Tip.offset buf - off) + (n - (Tip.offset buf - off))) at 1 by lia. rewrite Blob.slice_split by lia. f_equal; [apply Blob.slice_app_l; lia|].
      rewrite Blob.slice_app_r by lia. f_equal; lia.
    + rewrite Blob.slice_app_r by lia. rewrite (Blob.slice_nil front) by lia. cbn. f_equal; lia.
Qed.

Lemma read_blob_ok a b n off : implements a b → Blob.size b < 2 ^ 64 → 0 ≤ n → 0 ≤ off →
  match read_at a n off, Blob.read_at b n off with
  | Ok (got, a'), Ok got' => got = got' ∧ implements a' b ∧ page_size a' = page_size a ∧ id a' = id a
  | Err e, Err e' => e = e'
  | _, _ => False
  end.
Proof.
  intros H Hb Hn Hoff. pose proof (implements_size a b H) as Hsz. rewrite Blob.read_at_cases. unfold read_at, checked_add. rewrite Hsz.
  destruct (Z.ltb_spec (off + n) (2 ^ 64)) as [Hlt|Hge]; [|done]. destruct (Z.ltb_spec (Blob.size b) (off + n)) as [Hs|Hs]; [done|].
  pose proof (im_offset a b H) as Ho. pose proof (im_size a b H) as Hbs. pose proof (size_le a b H) as Hle.
  destruct (extract_ok (buffer a) n off Hn Hoff ltac:(lia) ltac:(lia)) as (rem & tip & E & Hr & Hrl & Hsl). rewrite E. cbn [expect obind].
  assert (len (take (Z.to_nat (Tip.offset (buffer a))) (Blob.content (blob a))) = Tip.offset (buffer a)) as Hf.
  { rewrite length_take. unfold Blob.size in *. lia. }
  specialize (Hsl _ Hf). rewrite <- (im_content a b H) in Hsl. rewrite Hsl. destruct (Z.eqb_spec rem 0) as [->|Hne].
  - by rewrite (Blob.slice_nil _ off 0) by lia.
  - assert (agrees (page_size a) (pool a) (id a) (Blob.content (blob a)) (Tip.offset (buffer a))) as Hag.
    { intros k d Hk Hd Hkle. rewrite (im_agrees a b H k d Hk Hd Hkle). pose proof (im_page a b H). apply Blob.slice_prefix; [apply (im_prefix a b H)|nia|lia|unfold Blob.size in *; nia]. }
    unfold Pool.read. pose proof (im_page a b H).
    destruct (read_loop_ok (page_size a) (im_page a b H) (S (Z.to_nat rem)) (blob a) (id a) (Tip.offset (buffer a)) (im_aligned a b H) ltac:(lia) (pool a) rem off []
      (im_pool a b H) Hag ltac:(lia) Hoff (Hrl ltac:(lia)) ltac:(lia)) as (p' & -> & Hp' & Hag').
    cbn [obind app]. split.
    + f_equal. rewrite Blob.take_slice', Blob.slice_slice by lia. f_equal. 
    + split; [|done]. destruct H. split; cbn [page_size pool buffer blob_size blob id]; try done.
      intros k d Hk Hd Hkle. rewrite (Hag' k d Hk Hd Hkle). symmetry. apply Blob.slice_prefix; [done|nia|lia|unfold Blob.size in *; nia].
Qed.

Lemma sync_blob_ok a b : implements a b → Blob.size b < 2 ^ 64 → ∃ a', sync a = Ok a' ∧ implements a' (Blob.sync b).
Proof.
  intros H Hb. unfold sync. destruct (flush_ok a b H Hb) as (a1 & -> & H1 & [Hc _] & _). cbn [obind]. eexists. split; [done|].
  destruct H1. split; cbn [page_size pool buffer blob_size blob id Blob.content Blob.stored Blob.sync]; done.
Qed.

Lemma load_leftover_ok b size ps t : 0 < ps → 0 ≤ size ≤ Blob.size b → Blob.size b < 2 ^ 64 → Tip.data t = [] → ps * 2 ≤ Tip.capacity t →
  load_leftover b size ps t = Ok (Tip.mkBuffer (Blob.slice (Blob.content b) (size - size mod ps) (size mod ps)) (Tip.offset t) (Tip.capacity t)).
Proof.
  intros Hps Hs Hb Ht Hcap. unfold load_leftover. pose proof (Z.mod_pos_bound size ps Hps). pose proof (Z.mod_le size ps ltac:(lia) Hps).
  destruct (Z.eqb_spec (size mod ps) 0) as [E|E].
  - rewrite E, Blob.slice_nil by lia. destruct t; cbn in *. by subst.
  - rewrite Blob.memory_read_at_Ok by lia. cbn [obind]. unfold Tip.append. rewrite Ht. cbn [app].
    rewrite Blob.slice_length by (unfold Blob.size in *; lia). by rewrite (proj2 (Z.ltb_ge _ _)) by lia.
Qed.

(** A blob opened with its leftover in the buffer. *)
Lemma loaded_ok b size ps i cap p : 0 < ps → size = Blob.size b → ps * 2 ≤ cap → pool_ok ps p →
  agrees ps p i (Blob.content b) (size - size mod ps) →
  implements (mkAppend b i (Tip.mkBuffer (Blob.slice (Blob.content b) (size - size mod ps) (size mod ps)) (size - size mod ps) cap) size ps p) b.
Proof.
  intros Hps -> Hcap Hpool Hag. pose proof (Z.mod_pos_bound (Blob.size b) ps Hps). pose proof (Z.mod_le (Blob.size b) ps ltac:(unfold Blob.size; lia) Hps).
  split; cbn [page_size pool buffer blob_size blob id Tip.offset Tip.data Tip.capacity]; try done.
  - rewrite (Z.mod_eq (Blob.size b) ps) by lia. replace (Blob.size b - (Blob.size b - ps * (Blob.size b / ps))) with ((Blob.size b / ps) * ps) by lia. by apply Z.mod_mul; lia.
  - lia.
  - rewrite <- (take_drop (Z.to_nat (Blob.size b - Blob.size b mod ps)) (Blob.content b)) at 1. f_equal. rewrite Blob.drop_slice. unfold Blob.size in *. f_equal; lia.
Qed.

(** What the journal asks for: the blob does not grow. *)
Lemma resize_blob_ok a b n : implements a b → Blob.size b < 2 ^ 64 → 0 ≤ n ≤ Blob.size b → ∃ a', resize a n = Ok a' ∧ implements a' (Blob.resize b n).
Proof.
  intros H Hb Hn. unfold resize. destruct (flush_ok a b H Hb) as (a1 & -> & H1 & [Hc Ho] & _). cbn [obind].
  assert (Blob.resize (blob a1) n = Blob.resize b n) as Er by (unfold Blob.resize; by rewrite Hc, (im_stored a1 b H1)). rewrite Er.
  assert (Blob.content (Blob.resize b n) = take (Z.to_nat n) (Blob.content b)) as Ec by (apply Blob.vec_resize_shrink, Hn).
  assert (Blob.size (Blob.resize b n) = n) as Es by (unfold Blob.size in *; rewrite Ec, length_take; lia).
  rewrite load_leftover_ok; [|apply (im_page a1 b H1)|lia|lia|done|apply (im_capacity a1 b H1)]. cbn [obind Tip.offset Tip.capacity].
  eexists. split; [done|]. pose proof (im_page a1 b H1) as Hps. apply loaded_ok; [done|done|apply (im_capacity a1 b H1)|apply (im_pool a1 b H1)|].
  intros k d Hk Hd Hle. assert (n - n mod page_size a1 ≤ Blob.size b - Blob.size b mod page_size a1) as Hmono.
  { rewrite !Z.mod_eq by lia. pose proof (Z.div_le_mono n (Blob.size b) (page_size a1) Hps ltac:(lia)). nia. }
  rewrite (im_agrees a1 b H1 k d Hk Hd) by lia. rewrite Ec, Blob.take_slice', Blob.slice_slice by (pose proof (Z.mod_pos_bound n (page_size a1) Hps); nia). done.
Qed.

(** Pages that other blobs cache. *)
Lemma foreign_ok a b id' page num : implements a b → id' ≠ id a → len page = page_size a → ∃ pool',
  Pool.cache_page (pool a) (page_size a) id' page num = Some pool' ∧
  implements (mkAppend (blob a) (id a) (buffer a) (blob_size a) (page_size a) pool') b.
Proof.
  intros H Hid Hl. destruct (cache_page_ok (page_size a) (pool a) id' page num (im_pool a b H) Hl) as (p' & E & H' & Hk). exists p'. split; [done|].
  destruct H. split; cbn [page_size pool buffer blob_size blob id]; try done. intros k d Hkn Hd Hle. specialize (Hk _ _ Hd). case_decide as Ek; [congruence|]. by apply im_agrees0.
Qed.
End AppendOnly.

(** ** Blobs with a write buffer *)

Section WriteBuffer.
Import Write.
Implicit Types (w : Write) (b : Blob.Blob).

Record backs w b : Prop := {
  bk_offset : 0 ≤ Tip.offset (buffer w) ≤ Blob.size (blob w);
  bk_size : Blob.size (blob w) ≤ Blob.size b;
  bk_capacity : Tip.capacity (buffer w) < 2 ^ 63;
  bk_content : Blob.content b = take (Z.to_nat (Tip.offset (buffer w))) (Blob.content (blob w)) ++ Tip.data (buffer w);
  bk_stored : Blob.stored (blob w) = Blob.stored b;
}.
Lemma backs_size w b : backs w b → Tip.size (buffer w) = Blob.size b.
Proof. intros [Ho _ _ Hc _]. unfold Tip.size, Blob.size in *. rewrite Hc, length_app, length_take. lia. Qed.

Lemma front_length w b : backs w b → len (take (Z.to_nat (Tip.offset (buffer w))) (Blob.content (blob w))) = Tip.offset (buffer w).
Proof. intros H. pose proof (bk_offset w b H). unfold Blob.size in *. rewrite length_take. lia. Qed.

Lemma buffered_read_ok w b n off : backs w b → Blob.size b < 2 ^ 64 → 0 ≤ n → 0 ≤ off → read_at w n off = Blob.read_at b n off.
Proof.
  intros H Hb Hn Hoff. pose proof (backs_size w b H) as Hsz. rewrite Blob.read_at_cases. unfold read_at, checked_add. rewrite Hsz.
  destruct (Z.ltb_spec (off + n) (2 ^ 64)) as [Hlt|Hge]; [|done]. destruct (Z.ltb_spec (Blob.size b) (off + n)) as [Hs|Hs]; [done|].
  pose proof (bk_offset w b H) as Ho. pose proof (bk_size w b H).
  destruct (extract_ok (buffer w) n off Hn Hoff ltac:(lia) ltac:(lia)) as (rem & tip & E & Hr & Hrl & Hsl). rewrite E. cbn [expect obind].
  specialize (Hsl _ (front_length w b H)). rewrite <- (bk_content w b H) in Hsl. rewrite Hsl. destruct (Z.eqb_spec rem 0) as [->|Hne].
  - by rewrite (Blob.slice_nil _ off 0) by lia.
  - rewrite Blob.memory_read_at_Ok by lia. cbn [obind]. by rewrite Blob.take_slice', Blob.slice_slice by lia.
Qed.

(** The buffer of a blob that needs no flush is empty. *)
Lemma flushed_content w b : backs w b → Tip.data (buffer w) = [] → Blob.content (blob w) = Blob.content b ∧ Tip.offset (buffer w) = Blob.size b.
Proof.
  intros H Ed. pose proof (backs_size w b H) as Hs. unfold Tip.size in Hs. rewrite Ed in Hs. cbn in Hs. destruct H as [Ho Hp _ Hc _].
  rewrite Ed, app_nil_r in Hc. split; [|lia]. rewrite Hc. symmetry. apply take_ge. unfold Blob.size in *. lia.
Qed.
Lemma flush_write w b d o : backs w b → Blob.size b < 2 ^ 64 → Tip.data (buffer w) = d → Tip.offset (buffer w) = o →
  Blob.memory_write_at (blob w) d o = Ok (Blob.mkBlob (Blob.content b) (Blob.stored b)).
Proof.
  intros H Hb Ed Eo. pose proof (backs_size w b H) as Hs. unfold Tip.size in Hs. destruct H as [Ho Hp _ Hc Hst].
  rewrite Ed, Eo in *. unfold Blob.memory_write_at, checked_add. rewrite (proj2 (Z.ltb_lt _ _)) by lia. do 2 f_equal; [|done].
  rewrite Hc. unfold Blob.overwrite. unfold Blob.size in Hp, Ho, Hb, Hs |- *. destruct (Z.ltb_spec (len (Blob.content (blob w))) (o + len d)).
  - unfold Blob.vec_resize. rewrite (take_ge (Blob.content (blob w))) by lia. rewrite take_app_le by lia. f_equal.
    rewrite drop_ge; [by rewrite app_nil_r|]. rewrite length_app, length_replicate. lia.
  - rewrite drop_ge; [by rewrite app_nil_r|]. lia.
Qed.

Lemma overwrite_back l d off buf : len l ≤ off → Blob.overwrite (l ++ d) off buf = l ++ Blob.overwrite d (off - len l) buf.
Proof.
  intros. unfold Blob.overwrite. rewrite take_app_ge, drop_app_ge by lia. rewrite <- !app_assoc. do 2 f_equal; [f_equal; lia|]. f_equal. f_equal. lia.
Qed.
Lemma overwrite_front l d off buf : 0 ≤ off → off + len buf ≤ len l → Blob.overwrite (l ++ d) off buf = Blob.overwrite l off buf ++ d.
Proof. intros. unfold Blob.overwrite. rewrite take_app_le, drop_app_le by lia. by rewrite <- !app_assoc. Qed.
Lemma overwrite_length c off buf : 0 ≤ off → off + len buf ≤ len c → length (Blob.overwrite c off buf) = length c.
Proof. intros. unfold Blob.overwrite. rewrite !length_app, length_take, length_drop. lia. Qed.
Lemma overwrite_take c off buf n : 0 ≤ off → off + len buf ≤ n → n ≤ len c →
  Blob.overwrite (take (Z.to_nat n) c) off buf = take (Z.to_nat n) (Blob.overwrite c off buf).
Proof.
  intros. rewrite <- (take_drop (Z.to_nat n) c) at 2. rewrite overwrite_front by (rewrite ?length_take; lia). symmetry. apply take_app_length'.
  rewrite overwrite_length by (rewrite ?length_take; lia). rewrite length_take. lia.
Qed.
Lemma resize_back l d n : len l + len d ≤ n → Blob.vec_resize (l ++ d) n = l ++ Blob.vec_resize d (n - len l).
Proof.
  intros. unfold Blob.vec_resize. rewrite !take_ge by (rewrite ?length_app; lia). rewrite <- app_assoc. do 3 f_equal. rewrite length_app. lia.
Qed.

(** The plain blob after a write. *)
Definition written b (buf : bytes) (off : Z) : Blob.Blob :=
  let c := if Blob.size b <? off + len buf then Blob.vec_resize (Blob.content b) (off + len buf) else Blob.content b in
  Blob.mkBlob (Blob.overwrite c off buf) (Blob.stored b).
Lemma memory_write_at_Ok b buf off : off + len buf < 2 ^ 64 → Blob.memory_write_at b buf off = Ok (written b buf off).
Proof. intros. unfold Blob.memory_write_at, checked_add. by rewrite (proj2 (Z.ltb_lt _ _)) by done. Qed.
Lemma vec_resize_length c n : len c ≤ n → len (Blob.vec_resize c n) = n.
Proof. intros. unfold Blob.vec_resize. rewrite length_app, length_take, length_replicate. lia. Qed.
Lemma written_size b buf off : 0 ≤ off → Blob.size (written b buf off) = Z.max (Blob.size b) (off + len buf).
Proof.
  intros. unfold written, Blob.size. cbn [Blob.content]. destruct (Z.ltb_spec (len (Blob.content b)) (off + len buf)).
  - rewrite overwrite_length; [|done|]; rewrite vec_resize_length; lia.
  - rewrite overwrite_length; lia.
Qed.

Lemma merge_ok w b buf off : backs w b → Blob.size b < 2 ^ 63 → 0 ≤ off → off + len buf < 2 ^ 63 → ∃ merged t,
  Tip.merge (buffer w) buf off = Some (merged, t) ∧ if merged : bool then backs (mkWrite (blob w) t) (written b buf off) else t = buffer w.
Proof.
  intros H Hb Hoff Hend. pose proof (front_length w b H) as Hf. pose proof (backs_size w b H) as Hsz. pose proof H as [Ho Hp Hcap Hc Hst].
  unfold Tip.merge, checked_add. rewrite (proj2 (Z.ltb_lt (off + len buf) _)) by lia. cbn [mbind option_bind].
  rewrite (proj2 (Z.ltb_lt (Tip.offset (buffer w) + _) _)) by lia. cbn [mbind option_bind].
  destruct (Z.leb_spec (Tip.offset (buffer w)) off) as [Hle|Hgt]; cbn [andb negb]; [|by eexists _, _].
  destruct (Z.leb_spec (off + len buf) (Tip.offset (buffer w) + Tip.capacity (buffer w))) as [Hcl|Hcg]; cbn [negb]; [|by eexists _, _].
  eexists _, _. split; [done|]. cbn beta iota. pose proof (written_size b buf off Hoff) as Hws.
  split; cbn [blob buffer Tip.offset Tip.data Tip.capacity]; [done|lia|done| |done].
  unfold written. cbn [Blob.content]. unfold Tip.size in Hsz. set (l := take _ (Blob.content (blob w))) in *. set (d := Tip.data (buffer w)) in *.
  rewrite <- Hsz, Hc. destruct (Z.ltb_spec (Tip.offset (buffer w) + len d) (off + len buf)) as [Hlt|Hge].
  - rewrite (proj2 (Z.ltb_lt (len d) _)) by lia. rewrite resize_back, overwrite_back by lia. do 2 f_equal; [f_equal; lia|lia].
  - rewrite (proj2 (Z.ltb_ge (len d) _)) by lia. rewrite overwrite_back by lia. do 2 f_equal. lia.
Qed.

(** A direct write past what is buffered, when nothing is. *)
Lemma direct_ok w b buf off : backs w b → Tip.data (buffer w) = [] → 0 ≤ off → off + len buf < 2 ^ 63 → Blob.size b < 2 ^ 63 →
  Blob.memory_write_at (blob w) buf off = Ok (written b buf off) ∧
  backs (mkWrite (written b buf off) (Tip.mkBuffer [] (Z.max (Tip.offset (buffer w)) (off + len buf)) (Tip.capacity (buffer w)))) (written b buf off).
Proof.
  intros H Ed Hoff Hend Hb. destruct (flushed_content w b H Ed) as [Ec Eo]. split.
  - rewrite memory_write_at_Ok by lia. unfold written, Blob.size. by rewrite Ec, (bk_stored w b H).
  - pose proof (written_size b buf off Hoff) as Hws. rewrite Eo, <- Hws. split; cbn [blob buffer Tip.offset Tip.data Tip.capacity]; [unfold Blob.size; lia|lia|apply H| |done].
    rewrite app_nil_r. symmetry. apply take_ge. unfold Blob.size. lia.
Qed.
(** A direct write in front of what is buffered. *)
Lemma front_ok w b buf off : backs w b → 0 ≤ off → off + len buf ≤ Tip.offset (buffer w) → Blob.size b < 2 ^ 63 → ∃ phys,
  Blob.memory_write_at (blob w) buf off = Ok phys ∧ backs (mkWrite phys (buffer w)) (written b buf off).
Proof.
  intros H Hoff Hend Hb. pose proof (front_length w b H) as Hf. pose proof H as [Ho Hp Hcap Hc Hst]. eexists. split; [by apply memory_write_at_Ok; lia|].
  pose proof (written_size b buf off Hoff) as Hws. pose proof (written_size (blob w) buf off Hoff) as Hws'.
  split; cbn [blob buffer]; [lia|lia|done| |done]. unfold written. cbn [Blob.content]. rewrite !(proj2 (Z.ltb_ge _ _)) by lia.
  rewrite Hc, overwrite_front by lia. f_equal. apply overwrite_take; unfold Blob.size in *; lia.
Qed.

Lemma buffered_write_ok w b buf off : backs w b → Blob.size b < 2 ^ 63 → 0 ≤ off → off + len buf < 2 ^ 63 →
  ∃ w', write_at w buf off = Ok w' ∧ backs w' (written b buf off).
Proof.
  intros H Hb Hoff Hend. unfold write_at, checked_add. rewrite (proj2 (Z.ltb_lt _ _)) by lia.
  destruct (merge_ok w b buf off H Hb Hoff Hend) as ([] & t & -> & Hm); cbn [expect obind]; [by eexists|]. subst t.
  destruct (Z.ltb_spec (Tip.offset (buffer w)) (off + len buf)) as [Hlt|Hge].
  - unfold Tip.take, Tip.is_empty. destruct (Tip.data (buffer w)) as [|x d] eqn:Ed.
    + destruct (direct_ok w b buf off H Ed Hoff Hend Hb) as [E H']. cbn [blob buffer]. rewrite E. cbn [obind]. eexists. split; [done|]. by rewrite Ed.
    + rewrite (flush_write w b _ _ H) by (done || lia). cbn [obind]. set (b' := Blob.mkBlob (Blob.content b) (Blob.stored b)).
      set (t := Tip.mkBuffer [] (Tip.size (buffer w)) (Tip.capacity (buffer w))).
      assert (backs (mkWrite b' t) b) as H1.
      { pose proof (backs_size w b H) as Hsz. split; cbn [blob buffer t Tip.offset Tip.data Tip.capacity]; [rewrite Hsz; unfold b', Blob.size; cbn; lia|done|apply H| |done].
        rewrite app_nil_r, Hsz. symmetry. apply take_ge. unfold b', Blob.size. cbn. lia. }
      destruct (merge_ok (mkWrite b' t) b buf off H1 Hb Hoff Hend) as ([] & t' & E & Hm); cbn [blob buffer] in E, Hm; rewrite E; cbn [expect obind]; [by eexists|]. subst t'.
      destruct (direct_ok (mkWrite b' t) b buf off H1 eq_refl Hoff Hend Hb) as [E' H']. cbn [blob buffer] in E' |- *. rewrite E'. cbn [obind]. by eexists.
  - destruct (front_ok w b buf off H Hoff Hge Hb) as (phys & E & H'). cbn [blob buffer]. rewrite E. cbn [obind]. eexists. split; [done|].
    rewrite Z.max_l by lia. by destruct (buffer w).
Qed.

Lemma buffered_sync_ok w b : backs w b → Blob.size b < 2 ^ 63 → ∃ w', sync w = Ok w' ∧ backs w' (Blob.sync b).
Proof.
  intros H Hb. unfold sync, Tip.take, Tip.is_empty. pose proof (backs_size w b H) as Hsz. destruct (Tip.data (buffer w)) as [|x d] eqn:Ed; cbn [obind].
  - destruct (flushed_content w b H Ed) as [Ec Eo]. eexists. split; [done|].
    split; cbn [blob buffer Blob.sync Blob.content Blob.stored]; [apply H|apply H|apply H|apply (bk_content w b H)|done].
  - rewrite (flush_write w b _ _ H) by (done || lia). cbn [obind]. eexists. split; [done|]. unfold Blob.size in *.
    split; cbn [blob buffer Blob.sync Blob.content Blob.stored Tip.offset Tip.data Tip.capacity]; unfold Blob.size; cbn [Blob.content Blob.sync]; [lia|lia|apply H| |done].
    rewrite app_nil_r, Hsz. symmetry. apply take_ge. lia.
Qed.

(** A synced blob is under its buffer as it is. *)
Lemma buffered_sync_blob w b : backs w b → Blob.size b < 2 ^ 63 → ∃ w', sync w = Ok w' ∧ blob w' = Blob.sync b.
Proof.
  intros H Hb. unfold sync, Tip.take, Tip.is_empty. destruct (Tip.data (buffer w)) as [|x d] eqn:Ed; cbn [obind].
  - destruct (flushed_content w b H Ed) as [Ec _]. eexists. split; [done|]. cbn. unfold Blob.sync. by rewrite Ec.
  - rewrite (flush_write w b _ _ H) by (done || lia). cbn [obind]. by eexists.
Qed.

Lemma buffered_resize_ok w b n : backs w b → Blob.size b < 2 ^ 63 → 0 ≤ n → ∃ w', resize w n = Ok w' ∧ backs w' (Blob.resize b n).
Proof.
  intros H Hb Hn. pose proof (backs_size w b H) as Hsz. pose proof (front_length w b H) as Hf. unfold resize, Tip.resize, Tip.is_empty.
  assert (∀ phys, Blob.content phys = Blob.content b → Blob.stored phys = Blob.stored b →
    backs (mkWrite (Blob.resize phys n) (Tip.mkBuffer [] n (Tip.capacity (buffer w)))) (Blob.resize b n)) as Hfull.
  { intros phys E1 E2. unfold Blob.resize. rewrite E1, E2. assert (len (Blob.vec_resize (Blob.content b) n) = n) as Hl.
    { unfold Blob.vec_resize. rewrite length_app, length_take, length_replicate. lia. }
    split; cbn [blob buffer Tip.offset Tip.data Tip.capacity]; unfold Blob.size; cbn [Blob.content Blob.stored]; [lia|lia|apply H| |done].
    rewrite app_nil_r. symmetry. apply take_ge. lia. }
  destruct (Tip.data (buffer w)) as [|x d] eqn:Ed; cbn [obind].
  - eexists. split; [done|]. apply Hfull; [by apply flushed_content|apply H].
  - destruct (Z.leb_spec (Tip.size (buffer w)) n) as [Hle|Hgt]; [|destruct (Z.leb_spec (Tip.offset (buffer w)) n) as [Hlo|Hhi]].
    + rewrite (flush_write w b _ _ H) by (done || lia). cbn [obind]. eexists. split; [done|]. by apply Hfull.
    + cbn [obind]. eexists. split; [done|]. destruct H as [Ho Hp Hcap Hc Hst]. rewrite Ed in Hc. unfold Blob.size, Tip.size in *.
      assert (len (Blob.vec_resize (Blob.content (blob w)) n) = n) as Hl by (unfold Blob.vec_resize; rewrite length_app, length_take, length_replicate; lia).
      assert (Blob.vec_resize (Blob.content b) n = take (Z.to_nat n) (Blob.content b)) as Eb by (apply Blob.vec_resize_shrink; lia).
      split; cbn [blob buffer Tip.offset Tip.data Tip.capacity]; unfold Blob.resize, Blob.size; cbn [Blob.content Blob.stored]; [lia|rewrite Eb, length_take; lia|done| |done].
      rewrite Eb, Hc, take_app_ge by lia. f_equal; [|f_equal; lia]. unfold Blob.vec_resize.
      rewrite take_app_le by (rewrite length_take; lia). rewrite take_take. f_equal. lia.
    + cbn [obind]. eexists. split; [done|]. destruct H as [Ho Hp Hcap Hc Hst]. rewrite Ed in Hc. unfold Blob.size, Tip.size in *.
      assert (Blob.vec_resize (Blob.content b) n = take (Z.to_nat n) (Blob.content b)) as Eb by (apply Blob.vec_resize_shrink; lia).
      assert (Blob.vec_resize (Blob.content (blob w)) n = take (Z.to_nat n) (Blob.content (blob w))) as Ep by (apply Blob.vec_resize_shrink; lia).
      assert (take (Z.to_nat n) (Blob.content b) = take (Z.to_nat n) (Blob.content (blob w))) as Eq.
      { rewrite Hc, take_app_le by lia. rewrite take_take. f_equal. lia. }
      split; cbn [blob buffer Tip.offset Tip.data Tip.capacity]; unfold Blob.resize, Blob.size; cbn [Blob.content Blob.stored]; rewrite ?Eb, ?Ep, ?Eq; [rewrite length_take; lia|lia|done| |done].
      rewrite app_nil_r, take_take. f_equal. lia.
Qed.
End WriteBuffer.
End BufferedProperties.
