(* ===== verification/BufferedRefinement.v ===== *)
(** * What the buffered blobs promise

    Sequences of operations on a buffered blob have the results they have on a plain
    blob; the buffered reader, over any blob whose reads give its bytes, has the
    results of the plain reader. *)

From S2P Require Import Prelude Codec Blob Buffered BufferedPool BufferedProperties.

Module BufferedRefinement.
Import BufferedPool BufferedProperties.
Notation len l := (Z.of_nat (length l)).

(** ** Sequences of operations *)

(** An operation of a blob, or of another user of its pool, who caches a page. *)
Inductive Op : Type :=
| OAppend (buf : bytes)
| OWrite (buf : bytes) (offset : Z)
| ORead (n offset : Z)
| OSync
| OResize (n : Z)
| OCache (id : Z) (page : bytes) (page_num : Z).

(** The bytes that are read, and the blob after; an error leaves it as it was. *)
Definition silent {S} (m : rresult S) : rresult (bytes * S) := let? s := m in Ok ([], s).
Definition turn {S} (step : S → Op → rresult (bytes * S)) (s : S) (op : Op) : rresult bytes * S :=
  match step s op with
  | Ok (got, s') => (Ok got, s')
  | Err e => (Err e, s)
  | Panic => (Panic, s)
  end.
Fixpoint run {S} (step : S → Op → rresult (bytes * S)) (s : S) (ops : list Op) : list (rresult bytes) * S :=
  match ops with
  | [] => ([], s)
  | op :: ops => let '(r, s1) := turn step s op in let '(rs, s2) := run step s1 ops in (r :: rs, s2)
  end.

Definition plain (b : Blob.Blob) (op : Op) : rresult (bytes * Blob.Blob) :=
  match op with
  | OAppend buf => silent (Blob.append b buf)
  | OWrite buf offset => silent (Blob.write_at b buf offset)
  | ORead n offset => let? got := Blob.read_at b n offset in Ok (got, b)
  | OSync => Ok ([], Blob.sync b)
  | OResize n => Ok ([], Blob.resize b n)
  | OCache _ _ _ => Ok ([], b)
  end.
(** [Append::write_at] is unimplemented. *)
Definition appending (a : Append.Append) (op : Op) : rresult (bytes * Append.Append) :=
  match op with
  | OAppend buf => silent (Append.append a buf)
  | OWrite _ _ => Panic
  | ORead n offset => Append.read_at a n offset
  | OSync => silent (Append.sync a)
  | OResize n => silent (Append.resize a n)
  | OCache id page page_num =>
      let? p := expect (Pool.cache_page (Append.pool a) (Append.page_size a) id page page_num) in
      Ok ([], Append.mkAppend (Append.blob a) (Append.id a) (Append.buffer a) (Append.blob_size a) (Append.page_size a) p)
  end.
(** A blob with a write buffer has no [append] and uses no pool. *)
Definition writing (w : Write.Write) (op : Op) : rresult (bytes * Write.Write) :=
  match op with
  | OAppend _ => Panic
  | OWrite buf offset => silent (Write.write_at w buf offset)
  | ORead n offset => let? got := Write.read_at w n offset in Ok (got, w)
  | OSync => silent (Write.sync w)
  | OResize n => silent (Write.resize w n)
  | OCache _ _ _ => Ok ([], w)
  end.

(** What a client may do: an append-only blob does not grow by [resize], and the
    others who use the pool have other ids. *)
Definition may_append (id page_size : Z) (b : Blob.Blob) (op : Op) : Prop :=
  match op with
  | OAppend _ | OSync => True
  | OWrite _ _ => False
  | ORead n offset => 0 ≤ n ∧ 0 ≤ offset
  | OResize n => 0 ≤ n ≤ Blob.size b
  | OCache id' page _ => id' ≠ id ∧ len page = page_size
  end.
(** Offsets stay below 2^63: the buffer adds its capacity to them. *)
Definition may_write (b : Blob.Blob) (op : Op) : Prop :=
  match op with
  | OAppend _ => False
  | OWrite buf offset => 0 ≤ offset ∧ offset + len buf < 2 ^ 63
  | ORead n offset => 0 ≤ n ∧ 0 ≤ offset
  | OResize n => 0 ≤ n < 2 ^ 63
  | OSync | OCache _ _ _ => True
  end.
Fixpoint allowed (may : Blob.Blob → Op → Prop) (b : Blob.Blob) (ops : list Op) : Prop :=
  match ops with
  | [] => True
  | op :: ops => may b op ∧ allowed may (turn plain b op).2 ops
  end.

(** A relation that every allowed turn keeps, with equal results, is kept by runs. *)
Lemma run_simulates {S} (step : S → Op → rresult (bytes * S)) (may : Blob.Blob → Op → Prop) (R : S → Blob.Blob → Prop) :
  (∀ s b op, R s b → may b op → (turn step s op).1 = (turn plain b op).1 ∧ R (turn step s op).2 (turn plain b op).2) →
  ∀ ops s b, R s b → allowed may b ops → (run step s ops).1 = (run plain b ops).1 ∧ R (run step s ops).2 (run plain b ops).2.
Proof.
  intros Hturn. induction ops as [|op ops IH]; intros s b HR Hall; [done|]. destruct Hall as [Hm Hall]. cbn [run].
  destruct (Hturn s b op HR Hm) as [Er HR']. destruct (turn step s op) as [r s1], (turn plain b op) as [r' b1]. cbn [fst snd] in *. subst r'.
  destruct (IH s1 b1 HR' Hall) as [Ers HR2]. destruct (run step s1 ops), (run plain b1 ops). cbn [fst snd] in *. by subst.
Qed.

(** ** Append-only blobs *)

Definition tracks (id ps : Z) (a : Append.Append) (b : Blob.Blob) : Prop :=
  implements a b ∧ Blob.size b < 2 ^ 64 ∧ Append.id a = id ∧ Append.page_size a = ps.

Lemma flush_keeps a a' : Append.flush a = Ok a' → Append.id a' = Append.id a ∧ Append.page_size a' = Append.page_size a.
Proof. unfold Append.flush. intros H. repeat (case_match; simplify_eq/=; try done); inv_ok; repeat (case_match; simplify_eq/=); inv_ok; done. Qed.
Lemma appending_keeps a op got a' : appending a op = Ok (got, a') → Append.id a' = Append.id a ∧ Append.page_size a' = Append.page_size a.
Proof.
  destruct op; cbn [appending]; unfold silent, Append.append, Append.read_at, Append.sync, Append.resize; intros H;
    repeat (case_match; simplify_eq/=; inv_ok); inv_ok; simplify_eq/=; try done;
    match goal with E : Append.flush _ = Ok _ |- _ => apply flush_keeps in E; by cbn in * end.
Qed.

Lemma append_turn id ps a b op : tracks id ps a b → may_append id ps b op →
  (turn appending a op).1 = (turn plain b op).1 ∧ tracks id ps (turn appending a op).2 (turn plain b op).2.
Proof.
  intros (H & Hb & Hid & Hps) Hm. pose proof (appending_keeps a op) as Hk.
  assert (match appending a op, plain b op with
    | Ok (got, a'), Ok (got', b') => got = got' ∧ implements a' b' ∧ Blob.size b' < 2 ^ 64
    | Err e, Err e' => e = e' | _, _ => False end) as Hs.
  2:{ unfold turn. destruct (appending a op) as [[got a']| |], (plain b op) as [[got' b']| |]; try done.
      - destruct Hs as (-> & H' & Hb'). destruct (Hk got' a' eq_refl). cbn [fst snd]. unfold tracks. split_and!; congruence || done.
      - by subst. }
  clear Hk. destruct op; cbn [appending plain may_append] in *; unfold silent.
  - pose proof (append_blob_ok a b buf H Hb) as Ha. destruct (Append.append a buf), (Blob.append b buf); cbn [obind]; naive_solver.
  - done.
  - pose proof (read_blob_ok a b n offset H Hb (proj1 Hm) (proj2 Hm)) as Ha. destruct (Append.read_at a n offset) as [[]| |], (Blob.read_at b n offset); cbn [obind]; naive_solver.
  - destruct (sync_blob_ok a b H Hb) as (a' & -> & H'). cbn [obind]. done.
  - destruct (resize_blob_ok a b n H Hb Hm) as (a' & -> & H'). cbn [obind]. split_and!; [done..|].
    unfold Blob.size, Blob.resize in *. cbn. rewrite Blob.vec_resize_shrink by lia. rewrite length_take. lia.
  - destruct Hm as [Hid' Hl]. destruct (foreign_ok a b id0 page page_num H ltac:(congruence) ltac:(congruence)) as (p' & -> & H'). done.
Qed.

(** No page of [id] is cached. *)
Definition uncached (p : Pool.Pool) (id : Z) : Prop := ∀ n, cached p (id, n) = None.

Lemma pool_new_ok ps n p : Pool.new n = Some p → pool_ok ps p ∧ ∀ id, uncached p id.
Proof.
  unfold Pool.new. destruct (Nat.ltb_spec 0 n); [|done]. intros [= <-]. split.
  - split; cbn; [|lia|done|lia|by intros i e; rewrite lookup_nil].
    intros k i. rewrite lookup_empty. split; [done|]. by intros (e & Ee & _).
  - done.
Qed.

(** C8: An append-only blob over a blob of any size, with a page cache that other
    blobs use too, is a plain blob to who uses it: after any sequence of appends,
    reads, syncs, resizes that do not grow it, and pages that others cache, every
    result (bytes, errors) is what the plain blob has given; what is under the buffer
    is a prefix of the plain blob, and the same bytes are on disk. *)
Theorem append_refines_blob b buffer_size ps id pool ops :
  0 < ps → pool_ok ps pool → uncached pool id → Blob.size b < 2 ^ 64 → allowed (may_append id ps) b ops →
  ∃ a, Append.new b (Blob.size b) buffer_size ps id pool = Ok a ∧
    let '(results, a') := run appending a ops in
    let '(results', b') := run plain b ops in
    results = results' ∧ Append.size a' = Blob.size b' ∧
    Blob.content (Append.blob a') `prefix_of` Blob.content b' ∧ Blob.stored (Append.blob a') = Blob.stored b'.
Proof.
  intros Hps Hpool Hun Hb Hall. set (cap := Z.max buffer_size (ps * 2)).
  exists (Append.mkAppend b id (Tip.mkBuffer (Blob.slice (Blob.content b) (Blob.size b - Blob.size b mod ps) (Blob.size b mod ps)) (Blob.size b - Blob.size b mod ps) cap) (Blob.size b) ps pool).
  split.
  { unfold Append.new. rewrite load_leftover_ok by (done || (unfold Tip.new; cbn; unfold Blob.size in *; lia)). done. }
  assert (tracks id ps (Append.mkAppend b id (Tip.mkBuffer (Blob.slice (Blob.content b) (Blob.size b - Blob.size b mod ps) (Blob.size b mod ps)) (Blob.size b - Blob.size b mod ps) cap) (Blob.size b) ps pool) b) as Ht.
  { split; [|done]. apply loaded_ok; [done|done|lia|done|]. intros n d _ Hc _. by rewrite Hun in Hc. }
  destruct (run_simulates appending (may_append id ps) (tracks id ps) (append_turn id ps) ops _ b Ht Hall) as [Er (Hi & _)].
  destruct (run appending _ ops) as [rs a'], (run plain b ops) as [rs' b']. cbn [fst snd] in *.
  split; [done|]. split; [by apply implements_size|]. split; apply Hi.
Qed.
(** The condition on [resize] is needed: a blob that shrinks and grows back gives its
    old pages out of the cache, where the plain blob has zeros. *)
Definition stale_ops : list Op := [OAppend (byte.of_Z <$> [1; 2; 3; 4; 5; 6; 7; 8]); OSync; OResize 2; OResize 8; ORead 8 0].
Lemma regrown_reads_stale : ∃ a, Append.new Blob.empty 0 8 4 0 (Pool.mkPool ∅ [] 0 2) = Ok a ∧
  last (run appending a stale_ops).1 = Some (Ok (byte.of_Z <$> [1; 2; 3; 4; 5; 6; 7; 8])) ∧
  last (run plain Blob.empty stale_ops).1 = Some (Ok (byte.of_Z <$> [1; 2; 0; 0; 0; 0; 0; 0])).
Proof. eexists. split; [vm_compute; reflexivity|]. split; vm_compute; reflexivity. Qed.

(** Appends across pages, a page of another blob, a resize into a page and a read that
    the cache, the blob and the buffer serve. *)
Lemma append_refines_blob_witness :
  let b := Blob.mkBlob (byte.of_Z <$> [1; 2; 3; 4; 5; 6]) [] in
  let pool := Pool.mkPool ∅ [] 0 2 in
  let ops := [OAppend (byte.of_Z <$> [7; 8; 9; 10; 11]); ORead 9 1; OCache 7 (byte.of_Z <$> [0; 0; 0; 0]) 0; OSync; OResize 9;
    OAppend (byte.of_Z <$> [12; 13]); ORead 11 0; ORead 12 0] in
  last (run plain b ops).1 = Some (Err InsufficientLength) ∧
  ∃ a, Append.new b (Blob.size b) 1 4 0 pool = Ok a ∧
    let '(results, a') := run appending a ops in
    let '(results', b') := run plain b ops in
    results = results' ∧ Append.size a' = Blob.size b' ∧
    Blob.content (Append.blob a') `prefix_of` Blob.content b' ∧ Blob.stored (Append.blob a') = Blob.stored b'.
Proof.
  intros b pool ops. split; [vm_compute; reflexivity|]. apply (append_refines_blob b 1 4 0 pool ops).
  - reflexivity.
  - by apply (pool_new_ok 4 2).
  - by apply (pool_new_ok 4 2).
  - reflexivity.
  - vm_compute. repeat split; intros; discriminate.
Defined.

(** ** Blobs with a write buffer *)

Definition shadows (w : Write.Write) (b : Blob.Blob) : Prop := backs w b ∧ Blob.size b < 2 ^ 63.

Lemma write_turn w b op : shadows w b → may_write b op →
  (turn writing w op).1 = (turn plain b op).1 ∧ shadows (turn writing w op).2 (turn plain b op).2.
Proof.
  intros [H Hb] Hm. unfold turn. destruct op; cbn [writing plain may_write] in *; unfold silent.
  - done.
  - destruct Hm as [Ho He]. destruct (buffered_write_ok w b buf offset H Hb Ho He) as (w' & -> & H').
    unfold Blob.write_at, checked_add. rewrite (proj2 (Z.ltb_lt _ _)) by lia. rewrite memory_write_at_Ok by lia. cbn [obind fst snd]. split; [done|]. split; [done|]. rewrite written_size by done. lia.
  - rewrite (buffered_read_ok w b n offset H) by lia. destruct (Blob.read_at b n offset); done.
  - destruct (buffered_sync_ok w b H Hb) as (w' & -> & H'). done.
  - destruct (buffered_resize_ok w b n H Hb ltac:(lia)) as (w' & -> & H'). cbn [obind fst snd]. split; [done|]. split; [done|].
    unfold Blob.size, Blob.resize, Blob.vec_resize in *. cbn. rewrite length_app, length_take, length_replicate. lia.
  - done.
Qed.

(** C9: A blob with a write buffer is a plain blob to who uses it: after any sequence
    of writes anywhere, reads, syncs and resizes both ways, every result is what the
    plain blob has given, and the same bytes are on disk; after a [sync] the blob
    under the buffer is the plain blob. *)
Theorem write_equals_blob b capacity ops :
  Blob.size b < 2 ^ 63 → capacity < 2 ^ 63 → allowed may_write b ops →
  let '(results, w') := run writing (Write.new b (Blob.size b) capacity) ops in
  let '(results', b') := run plain b ops in
  results = results' ∧ Write.size w' = Blob.size b' ∧ Blob.stored (Write.blob w') = Blob.stored b' ∧
  ∃ w'', Write.sync w' = Ok w'' ∧ Write.blob w'' = Blob.sync b'.
Proof.
  intros Hb Hcap Hall. assert (shadows (Write.new b (Blob.size b) capacity) b) as Hs.
  { split; [|done]. split; cbn; [unfold Blob.size; lia|done|done| |done]. rewrite app_nil_r. symmetry. apply take_ge. unfold Blob.size. lia. }
  destruct (run_simulates writing may_write shadows write_turn ops _ b Hs Hall) as [Er [H Hb']].
  destruct (run writing _ ops) as [rs w'], (run plain b ops) as [rs' b']. cbn [fst snd] in *.
  split_and!; [done|by apply backs_size|apply H|]. by apply buffered_sync_blob.
Qed.

(** A write that is buffered, one that does not fit, one in front of the buffer. *)
Lemma write_equals_blob_witness :
  let b := Blob.mkBlob (byte.of_Z <$> [1; 2; 3]) (byte.of_Z <$> [1; 2; 3]) in
  let ops := [OWrite (byte.of_Z <$> [4; 5]) 3; OWrite (byte.of_Z <$> [6; 7; 8; 9; 10]) 6; ORead 11 0; OWrite (byte.of_Z <$> [9]) 1; OResize 9; OSync; ORead 10 0] in
  last (run plain b ops).1 = Some (Err InsufficientLength) ∧
  let '(results, w') := run writing (Write.new b (Blob.size b) 4) ops in
  let '(results', b') := run plain b ops in
  results = results' ∧ Write.size w' = Blob.size b' ∧ Blob.stored (Write.blob w') = Blob.stored b' ∧
  ∃ w'', Write.sync w' = Ok w'' ∧ Write.blob w'' = Blob.sync b'.
Proof.
  intros b ops. split; [vm_compute; reflexivity|]. apply (write_equals_blob b 4 ops).
  - reflexivity.
  - reflexivity.
  - vm_compute. repeat split; intros; discriminate.
Defined.
End BufferedRefinement.
