(* ===== verification/BufferedReader.v ===== *)
(** * The buffered reader reads what the plain reader reads

    [ReadLaws] is what a blob promises to the reader: its reads give its bytes and
    keep it in its invariant.  Plain blobs, append-only blobs and blobs with a write
    buffer keep the promise. *)

From S2P Require Import Prelude Codec Blob Buffered BufferedPool BufferedProperties.

Module BufferedReader.
Notation len l := (Z.of_nat (length l)).

(** [holds x b]: to who reads it, [x] is the plain blob [b]. *)
Class ReadLaws (B : Type) `{Readable B} := {
  holds : B → Blob.Blob → Prop;
  holds_size x b : holds x b → Blob.size b < 2 ^ 64;
  holds_read x b n offset : holds x b → 0 ≤ n → 0 ≤ offset → offset + n ≤ Blob.size b →
    ∃ x', readable_at x n offset = Ok (Blob.slice (Blob.content b) offset n, x') ∧ holds x' b;
}.

#[export] Program Instance blob_laws : ReadLaws Blob.Blob := {| holds x b := x = b ∧ Blob.size b < 2 ^ 64 |}.
Next Obligation. by intros x b [_ H]. Qed.
Next Obligation.
  intros x b n offset [-> Hb] Hn Ho Hle. exists b. unfold readable_at, blob_readable. by rewrite Blob.memory_read_at_Ok by lia.
Qed.
#[export] Program Instance append_laws : ReadLaws Append.Append := {| holds a b := BufferedProperties.implements a b ∧ Blob.size b < 2 ^ 64 |}.
Next Obligation. by intros a b [_ H]. Qed.
Next Obligation.
  intros a b n offset [H Hb] Hn Ho Hle. pose proof (BufferedProperties.read_blob_ok a b n offset H Hb Hn Ho) as Hr.
  rewrite Blob.read_at_Ok in Hr by lia. unfold readable_at, append_readable. destruct (Append.read_at a n offset) as [[got a']| |]; [|done..].
  destruct Hr as (-> & H' & _). by exists a'.
Qed.
#[export] Program Instance write_laws : ReadLaws Write.Write := {| holds w b := BufferedProperties.backs w b ∧ Blob.size b < 2 ^ 64 |}.
Next Obligation. by intros w b [_ H]. Qed.
Next Obligation.
  intros w b n offset [H Hb] Hn Ho Hle. exists w. unfold readable_at, write_readable. rewrite (BufferedProperties.buffered_read_ok w b n offset H Hb Hn Ho).
  by rewrite Blob.read_at_Ok by lia.
Qed.

Section Reader.
Context `{ReadLaws B}.
Import Read.
Implicit Types (r : Read (B := B)) (s : Reader.Reader).

(** The buffer holds the bytes from [blob_position] on; the reader is within them or
    at their end. *)
Record reads r s : Prop := {
  rd_holds : holds (blob r) (Reader.blob s);
  rd_size : blob_size r = Reader.blob_size s;
  rd_end : Reader.blob_size s ≤ Blob.size (Reader.blob s);
  rd_small : Reader.blob_size s < 2 ^ 63;
  rd_position : Reader.position s = blob_position r + buffer_position r;
  rd_within : 0 ≤ blob_position r ∧ 0 ≤ buffer_position r ≤ buffer_valid_len r;
  rd_valid : blob_position r + buffer_valid_len r ≤ blob_size r;
  rd_capacity : 0 < buffer_size r ∧ buffer_valid_len r ≤ buffer_size r ∧ len (buffer r) = buffer_size r;
  rd_buffer : Blob.slice (buffer r) 0 (buffer_valid_len r) = Blob.slice (Blob.content (Reader.blob s)) (blob_position r) (buffer_valid_len r);
}.

Definition moved s (n : Z) : Reader.Reader := Reader.mkReader (Reader.blob s) (Reader.blob_size s) (Reader.position s + n).

(** The reader at the end, where a failed read leaves it. *)
Definition at_end s : Reader.Reader := Reader.mkReader (Reader.blob s) (Reader.blob_size s) (Reader.blob_size s).

Lemma refill_end r s : reads r s → Reader.position s = Reader.blob_size s → ∃ r', refill r = (Err InsufficientLength, r') ∧ reads r' s.
Proof.
  intros Hr Hp. destruct Hr as [Hh Hs He Hsm Hpos Hw Hv Hcap Hb]. unfold refill, saturating_sub. cbn [blob_size blob_position].
  rewrite Hs, <- Hpos, Hp, Z.sub_diag. eexists. split; [done|].
  split; cbn [blob blob_size blob_position buffer_position buffer_valid_len buffer_size buffer]; try done; try lia.
Qed.
Lemma refill_ok r s : reads r s → Reader.position s < Reader.blob_size s → ∃ r', refill r = (Ok tt, r') ∧ reads r' s ∧ buffer_position r' < buffer_valid_len r'.
Proof.
  intros Hr Hp. destruct Hr as [Hh Hs He Hsm Hpos Hw Hv Hcap Hb]. unfold refill, saturating_sub. cbn [blob buffer blob_position blob_size buffer_size].
  rewrite <- Hpos, Hs, Z.max_r by lia.
  set (rem := Reader.blob_size s - Reader.position s). rewrite (proj2 (Z.eqb_neq rem 0)) by lia.
  destruct (holds_read (blob r) (Reader.blob s) (Z.min (buffer_size r) rem) (Reader.position s) Hh) as (x' & -> & Hh'); [lia..|].
  assert (len (Blob.slice (Blob.content (Reader.blob s)) (Reader.position s) (Z.min (buffer_size r) rem)) = Z.min (buffer_size r) rem) as Hl
    by (apply Blob.slice_length; unfold Blob.size in *; lia).
  eexists. split; [done|]. split; [|cbn; lia].
  split; cbn [blob blob_size blob_position buffer_position buffer_valid_len buffer_size buffer]; try done; try lia.
  - split_and!; [lia|lia|]. case_tests; [rewrite BufferedProperties.overwrite_length|]; lia.
  - case_tests; [|apply Blob.slice_whole; lia]. unfold Blob.overwrite. rewrite Z2Nat.inj_0, take_0. cbn [app].
    rewrite Blob.slice_app_l by lia. apply Blob.slice_whole. lia.
Qed.

Lemma exact_loop_ok fuel : ∀ r s n acc, reads r s → 0 ≤ n → n < Z.of_nat fuel →
  match read_exact_loop fuel r n acc with
  | (Ok got, r') => n ≤ Reader.blob_size s - Reader.position s ∧ got = acc ++ Blob.slice (Blob.content (Reader.blob s)) (Reader.position s) n ∧ reads r' (moved s n)
  | (Err e, r') => e = InsufficientLength ∧ Reader.blob_size s - Reader.position s < n ∧ reads r' (at_end s)
  | (Panic, _) => False
  end.
Proof.
  induction fuel as [|fuel IH]; intros r s n acc Hr Hn Hf; [lia|]. cbn [read_exact_loop]. pose proof (rd_valid r s Hr). pose proof (rd_within r s Hr).
  pose proof (rd_position r s Hr) as Hpos. pose proof (rd_size r s Hr) as Hsz. destruct (Z.leb_spec n 0) as [Hz|Hpos'].
  - replace n with 0 by lia. rewrite Blob.slice_nil, app_nil_r by lia. split_and!; [lia|done|]. unfold moved. rewrite Z.add_0_r. by destruct s.
  - assert ((Reader.position s = Reader.blob_size s ∧ buffer_valid_len r <= buffer_position r) ∨
      ∃ r1, (if buffer_valid_len r <=? buffer_position r then refill r else (Ok tt, r)) = (Ok tt, r1) ∧ reads r1 s ∧ buffer_position r1 < buffer_valid_len r1) as [[Ee Hle]|(r1 & -> & Hr1 & Hlt)].
    { destruct (Z.leb_spec (buffer_valid_len r) (buffer_position r)); [|right; by exists r].
      destruct (Z.eq_dec (Reader.position s) (Reader.blob_size s)); [by left|]. right. apply refill_ok; [done|lia]. }
    { rewrite (proj2 (Z.leb_le _ _)) by done. destruct (refill_end r s Hr Ee) as (r' & -> & Hr'). split; [done|]. split; [lia|].
      replace (at_end s) with s; [done|]. clear -Ee; destruct s as [bb sz p]; unfold at_end; cbn in Ee |- *; by rewrite Ee. }
    unfold buffer_remaining. set (k := Z.min n (buffer_valid_len r1 - buffer_position r1)).
    destruct Hr1 as [Hh Hs He Hsm Hp1 Hw Hv Hcap Hb].
    assert (Blob.slice (buffer r1) (buffer_position r1) k = Blob.slice (Blob.content (Reader.blob s)) (Reader.position s) k) as ->.
    { rewrite Hp1, <- (Blob.slice_slice _ (blob_position r1) (buffer_valid_len r1)), <- Hb, Blob.slice_slice by lia. by rewrite Z.add_0_l. }
    set (r2 := mkRead _ _ _ _ _ _ _). assert (reads r2 (moved s k)) as Hr2
      by (split; unfold moved; cbn [r2 Reader.blob Reader.blob_size Reader.position blob blob_size blob_position buffer_position buffer_valid_len buffer_size buffer]; done || lia).
    pose proof (IH r2 (moved s k) (n - k) (acc ++ Blob.slice (Blob.content (Reader.blob s)) (Reader.position s) k) Hr2 ltac:(lia) ltac:(lia)) as Hl.
    unfold moved in Hl. cbn [Reader.blob Reader.blob_size Reader.position] in Hl. destruct (read_exact_loop _ _ _ _) as [[got|e|] r']; [| |done].
    + destruct Hl as (Hn' & -> & Hr'). split; [lia|]. split; [|by replace (Reader.position s + k + (n - k)) with (Reader.position s + n) in Hr' by lia].
      rewrite <- app_assoc, <- Blob.slice_split by lia. do 2 f_equal. lia.
    + destruct Hl as (? & ? & ?). split; [done|]. split; [lia|done].
Qed.

(** One call of the reader: what it returns and the reader afterwards. *)
Inductive Call : Type := ReadExact (n : Z) | SeekTo (position : Z).
Definition buffered r (c : Call) : rresult bytes * Read :=
  match c with
  | ReadExact n => read_exact r n
  | SeekTo position => let '(x, r) := seek_to r position in (let? _ := x in Ok [], r)
  end.

(** The same of the plain reader.  Where it fails it stays where it is, and a read
    with a buffer of [capacity] bytes that fails can also end at the end of the blob:
    the bytes that are left are then fewer than asked for, but not once those in the
    buffer are counted twice. *)
Inductive plain (capacity : Z) : Reader.Reader → Call → rresult bytes → Reader.Reader → Prop :=
| plain_read s n got s' : Reader.read_exact s n = Ok (got, s') → plain capacity s (ReadExact n) (Ok got) s'
| plain_read_fails s n e : Reader.read_exact s n = Err e → plain capacity s (ReadExact n) (Err e) s
| plain_read_ends s n e : Reader.read_exact s n = Err e →
    n ≤ Reader.blob_remaining s + Z.min capacity (Reader.blob_remaining s) → plain capacity s (ReadExact n) (Err e) (at_end s)
| plain_seek s p s' : Reader.seek_to s p = Ok s' → plain capacity s (SeekTo p) (Ok []) s'
| plain_seek_fails s p e : Reader.seek_to s p = Err e → plain capacity s (SeekTo p) (Err e) s.

Definition natural (c : Call) : Prop := match c with ReadExact n => 0 ≤ n | SeekTo p => 0 ≤ p end.

Lemma read_call_ok r s n : reads r s → 0 ≤ n → ∃ s', plain (buffer_size r) s (ReadExact n) (read_exact r n).1 s' ∧ reads (read_exact r n).2 s'.
Proof.
  intros Hr Hn. pose proof (rd_position r s Hr) as Hpos. pose proof (rd_size r s Hr) as Hsz. pose proof (rd_within r s Hr). pose proof (rd_valid r s Hr).
  pose proof (rd_end r s Hr). pose proof (rd_capacity r s Hr) as (? & ? & _).
  assert (Reader.blob_remaining s = Reader.blob_size s - Reader.position s) as Hrem by (unfold Reader.blob_remaining, saturating_sub; lia).
  assert (Reader.read_exact s n = if Reader.blob_remaining s <? n then Err InsufficientLength
    else Ok (Blob.slice (Blob.content (Reader.blob s)) (Reader.position s) n, moved s n)) as Hplain.
  { unfold Reader.read_exact. case_tests; [done|]. rewrite Blob.read_at_Ok by (pose proof (holds_size _ _ (rd_holds r s Hr)); lia). done. }
  unfold read_exact. replace (blob_remaining r) with (Reader.blob_remaining s) by (unfold blob_remaining, saturating_sub; lia). unfold buffer_remaining.
  pose proof (rd_small r s Hr). rewrite (proj2 (Z.leb_gt _ _)) by lia.
  destruct (Z.ltb_spec (buffer_valid_len r - buffer_position r + Reader.blob_remaining s) n) as [Hlt|Hge].
  { exists s. cbn [fst snd]. split; [|done]. constructor. rewrite Hplain, (proj2 (Z.ltb_lt _ _)) by lia. done. }
  pose proof (exact_loop_ok (S (Z.to_nat n)) r s n [] Hr Hn ltac:(lia)) as Hl. destruct (read_exact_loop _ _ _ _) as [[got|e|] r']; cbn [fst snd]; [| |done].
  - destruct Hl as (Hle & -> & Hr'). exists (moved s n). split; [|done]. constructor. by rewrite Hplain, (proj2 (Z.ltb_ge _ _)) by lia.
  - destruct Hl as (-> & Hlt & Hr'). exists (at_end s). split; [|done]. constructor; [by rewrite Hplain, (proj2 (Z.ltb_lt _ _)) by lia|lia].
Qed.
Lemma seek_call_ok r s p : reads r s → 0 ≤ p → ∃ s', plain (buffer_size r) s (SeekTo p) (buffered r (SeekTo p)).1 s' ∧ reads (buffered r (SeekTo p)).2 s'.
Proof.
  intros Hr Hp. pose proof (rd_size r s Hr) as Hsz. cbn [buffered]. unfold seek_to. rewrite Hsz. destruct (Z.ltb_spec (Reader.blob_size s) p) as [Hlt|Hge].
  { exists s. split; [|done]. constructor. unfold Reader.seek_to. by rewrite (proj2 (Z.ltb_lt _ _)) by done. }
  destruct Hr as [Hh Hs He Hsm Hp1 Hw Hv Hcap Hb]. exists (Reader.mkReader (Reader.blob s) (Reader.blob_size s) p).
  destruct (Z.leb_spec (blob_position r) p), (Z.ltb_spec p (blob_position r + buffer_valid_len r)); cbn [andb obind fst snd];
    (split; [constructor; unfold Reader.seek_to; by rewrite (proj2 (Z.ltb_ge _ _)) by done|]);
    (split; cbn [Reader.blob Reader.blob_size Reader.position blob blob_size blob_position buffer_position buffer_valid_len buffer_size buffer]; done || lia).
Qed.
Lemma refill_capacity r : buffer_size (refill r).2 = buffer_size r.
Proof. unfold refill. repeat case_match; done. Qed.
Lemma exact_loop_capacity fuel : ∀ r n acc, buffer_size (read_exact_loop fuel r n acc).2 = buffer_size r.
Proof.
  induction fuel as [|fuel IH]; intros r n acc; cbn [read_exact_loop]; [done|]. case_match; [done|].
  assert (buffer_size (if buffer_valid_len r <=? buffer_position r then refill r else (Ok tt, r)).2 = buffer_size r) as E by (case_match; [apply refill_capacity|done]).
  destruct (if buffer_valid_len r <=? buffer_position r then refill r else (Ok tt, r)) as [[[]|e|] r']; cbn [snd] in *; [|done..]. by rewrite IH.
Qed.
Lemma buffered_capacity r c : buffer_size (buffered r c).2 = buffer_size r.
Proof.
  destruct c as [n|p]; cbn [buffered].
  - unfold read_exact. do 2 (case_match; [done|]). apply exact_loop_capacity.
  - unfold seek_to. repeat case_match; by simplify_eq.
Qed.

Lemma new_reads (x : B) (b : Blob.Blob) size cap : holds x b → 0 ≤ size ≤ Blob.size b → size < 2 ^ 63 → 0 < cap → reads (new x size cap) (Reader.new b size).
Proof.
  intros Hh Hs Hsm Hcap. split; cbn [new Reader.new Reader.blob Reader.blob_size Reader.position blob blob_size blob_position buffer_position buffer_valid_len buffer_size buffer]; try done; try lia.
  rewrite length_replicate. lia.
Qed.

(** What the calls return, each with the position after it; a reader can be used
    after an error. *)
Fixpoint results r (calls : list Call) : list (rresult bytes * Z) :=
  match calls with
  | [] => []
  | c :: calls => let '(x, r) := buffered r c in (x, position r) :: results r calls
  end.
Inductive plain_results (capacity : Z) : Reader.Reader → list Call → list (rresult bytes * Z) → Prop :=
| plain_nil s : plain_results capacity s [] []
| plain_cons s c x s' calls xs : plain capacity s c x s' → plain_results capacity s' calls xs →
    plain_results capacity s (c :: calls) ((x, Reader.position s') :: xs).

(** C10: Over any blob of less than 2^63 bytes whose reads give its bytes, whatever the size of its buffer, the
    buffered reader does what the plain reader does, through any calls and after any
    errors: the same bytes and positions for every [read_exact] and [seek_to] that
    succeeds, inside the buffer or out of it, and the same errors where the blob ends.
    A seek that fails leaves the position alone.  So does a [read_exact] that fails,
    except where its quick check passes because the bytes in the buffer are counted
    twice: then the reader is at the end of the blob.  The sum of this check does not overflow. *)
Theorem buffered_reader_reads (x : B) b size capacity calls :
  holds x b → 0 ≤ size ≤ Blob.size b → size < 2 ^ 63 → 0 < capacity → Forall natural calls →
  plain_results capacity (Reader.new b size) calls (results (new x size capacity) calls).
Proof.
  intros Hh Hs Hsm Hcap Hall. pose proof (new_reads x b size capacity Hh Hs Hsm Hcap) as Hr. change capacity with (buffer_size (new x size capacity)) at 1.
  revert Hr. generalize (new x size capacity) (Reader.new b size). induction Hall as [|c calls Hc _ IH]; intros r s Hr; cbn [results]; [constructor|].
  assert (∃ s', plain (buffer_size r) s c (buffered r c).1 s' ∧ reads (buffered r c).2 s') as (s' & Hp & Hr').
  { destruct c; [by apply read_call_ok|by apply seek_call_ok]. }
  pose proof (buffered_capacity r c) as E. destruct (buffered r c) as [y r']; cbn [fst snd] in *. unfold position. rewrite <- (rd_position r' s' Hr').
  econstructor; [done|]. rewrite <- E. by apply IH.
Qed.
End Reader.

(** A reader of seven bytes through a buffer of three, used on after two errors: the
    first moves it to the end, the second leaves it. *)
Lemma buffered_reader_reads_witness :
  let b := Blob.mkBlob (byte.of_Z <$> [1; 2; 3; 4; 5; 6; 7]) [] in
  let calls := [ReadExact 4; ReadExact 5; SeekTo 3; ReadExact 2; SeekTo 8; SeekTo 1; ReadExact 6; ReadExact 1] in
  snd <$> results (Read.new b 7 3) calls = [4; 7; 3; 5; 5; 1; 7; 7] ∧
  plain_results 3 (Reader.new b 7) calls (results (Read.new b 7 3) calls).
Proof.
  intros b calls. split; [vm_compute; reflexivity|]. apply (buffered_reader_reads b b 7 3 calls).
  - split; [reflexivity|reflexivity].
  - vm_compute. split; intros; discriminate.
  - reflexivity.
  - reflexivity.
  - repeat constructor; vm_compute; intros; discriminate.
Defined.

(** The quick check of [read_exact] counts what is in the buffer twice: it passes
    with four bytes left where six are asked for. *)
Lemma quick_check_counts_twice : ∃ r,
  Read.read_exact (Read.new (Blob.mkBlob (byte.of_Z <$> [1; 2; 3; 4; 5]) []) 5 4) 1 = (Ok [byte.of_Z 1], r) ∧
  Read.blob_size r - Read.position r = 4 ∧ (Read.buffer_remaining r + Read.blob_remaining r <? 6) = false ∧ Read.position (Read.read_exact r 6).2 = 5.
Proof. eexists. split; [vm_compute; reflexivity|]. split_and!; reflexivity. Qed.
End BufferedReader.
