(* ===== verification/Journal.v ===== *)
(** * The segmented journal (storage/src/journal/segmented/variable.rs)

    An append-only log in sections, one blob each, on which the simplex voter keeps
    its artifacts.  An item is its size, its bytes and a checksum, and starts at a
    multiple of 16 bytes.  A blob is its bytes with those that are known to be on
    disk; reads and writes see the bytes, a crash may lose what was not synced.
    The checksum and the compression are parameters; input and output errors of the
    runtime, other than a read past the end, are left out. *)

From S2P Require Import Prelude Codec Varint CodecTypes BTreeMap Blob.
Import CodecTypes.

(** [journal::Error] and the runtime errors it wraps. *)
Inductive JournalError : Type :=
| JCodec (e : Codec.Error)
| JRuntime (e : RError)
| JChecksumMismatch (expected actual : Z)
| JItemTooLarge (size : Z)
| JAlreadyPruned (section : Z)
| JSectionOutOfRange (section : Z)
| JInvalidBlobName (name : bytes)
| JOffsetOverflow
| JCompressionFailed
| JDecompressionFailed.

Notation jresult := (outcome JournalError).

(** The [?] on a call of the runtime. *)
Definition runtime {A} (r : rresult A) : jresult A :=
  match r with Ok x => Ok x | Err e => Err (JRuntime e) | Panic => Panic end.

(** [RError] of a failed decode. *)
Definition jcodec {A} (r : Codec.result A) : jresult A :=
  match r with Ok x => Ok x | Err e => Err (JCodec e) | Panic => Panic end.

Module Journal.
Definition ITEM_ALIGNMENT : Z := 16.
Definition MIN_ITEM_SIZE : Z := 5.

Definition compute_next_offset (offset : Z) : jresult Z :=
  let overage := offset mod ITEM_ALIGNMENT in
  let? offset := if overage =? 0 then Ok offset else expect (checked_add 64 offset (ITEM_ALIGNMENT - overage)) in
  let offset := offset / ITEM_ALIGNMENT in
  if fitsb 32 offset then Ok offset else Err JOffsetOverflow.

(** [UInt::<u32>::read] of the first bytes of an item: the size and what is left. *)
Definition read_size (varint_buf : bytes) : jresult (Z * bytes) := jcodec (read_cfg (Varint.UInt 4) tt varint_buf).

Section Ops.
Context {V VCfg : Type} (codec : codec V VCfg) (codec_config : VCfg).
Context (crc32 : bytes → Z) (compress : Z → bytes → option bytes) (decode_all : bytes → option bytes).
(** The configured compression level. *)
Context (compression : option Z).

Record Journal : Type := mkJournal { blobs : list (Z * Blob.Blob); oldest_retained_section : Z }.
Implicit Types j : Journal.
Implicit Types b : Blob.Blob.

(** The blobs of the partition by name. *)
Fixpoint init_loop (stored : list (bytes * Blob.Blob)) (blobs : list (Z * Blob.Blob)) : jresult (list (Z * Blob.Blob)) :=
  match stored with
  | [] => Ok blobs
  | (name, blob) :: stored =>
      if (length name =? 8)%nat then init_loop stored (BTreeMap.insert blobs (get_be name) blob)
      else Err (JInvalidBlobName name)
  end.
Definition init (stored : list (bytes * Blob.Blob)) : jresult Journal :=
  let? blobs := init_loop stored [] in Ok (mkJournal blobs 0).

Definition prune_guard j (section : Z) : jresult unit :=
  if section <? oldest_retained_section j then Err (JAlreadyPruned (oldest_retained_section j)) else Ok tt.

(** Decompression, if it is configured, and decoding of the bytes of an item. *)
Definition decode_item (item : bytes) : jresult V :=
  match compression with
  | Some _ =>
      match decode_all item with
      | None => Err JDecompressionFailed
      | Some decompressed => jcodec (decode_cfg codec decompressed codec_config)
      end
  | None => jcodec (decode_cfg codec item codec_config)
  end.

(** The bytes of an item and the checksum behind them, if they match. *)
Definition checked_item (varint buf : bytes) (size : Z) : jresult bytes :=
  let item := take (Z.to_nat size) buf in
  let checksum := crc32 (varint ++ item) in
  let stored_checksum := get_be (drop (Z.to_nat size) buf) in
  if checksum =? stored_checksum then Ok item else Err (JChecksumMismatch stored_checksum checksum).

Definition read b (offset : Z) : jresult (Z * Z * V) :=
  let offset := offset * ITEM_ALIGNMENT in
  let? varint_buf := runtime (Blob.read_at b MIN_ITEM_SIZE offset) in
  let? (size, remaining) := read_size varint_buf in
  let varint_len := MIN_ITEM_SIZE - Z.of_nat (length remaining) in
  match checked_add 64 offset varint_len with
  | None => Err JOffsetOverflow
  | Some offset =>
      let buf_size := size + 4 in
      let? buf := runtime (Blob.read_at b buf_size offset) in
      match checked_add 64 offset buf_size with
      | None => Err JOffsetOverflow
      | Some offset =>
          let? item := checked_item (take (Z.to_nat varint_len) varint_buf) buf size in
          let? aligned_offset := compute_next_offset offset in
          let? item := decode_item item in
          Ok (aligned_offset, size, item)
      end
  end.

(** The next offset, the end of the item, its size and the item. *)
Definition read_buffered (r : Reader.Reader) (offset : Z) : jresult (Z * Z * Z * V * Reader.Reader) :=
  let file_offset := offset * ITEM_ALIGNMENT in
  let? r := if Reader.position r =? file_offset then Ok r else runtime (Reader.seek_to r file_offset) in
  let? (varint_buf, r) := runtime (Reader.read_exact r MIN_ITEM_SIZE) in
  let? (size, remaining) := read_size varint_buf in
  let varint_len := MIN_ITEM_SIZE - Z.of_nat (length remaining) in
  let buf_size := size + 4 in
  let already_read := MIN_ITEM_SIZE - varint_len in
  let buf := remaining in
  let? (buf, r) :=
    if already_read <? buf_size then
      let? (more, r) := runtime (Reader.read_exact r (buf_size - already_read)) in Ok (buf ++ more, r)
    else Ok (buf, r) in
  let? item := checked_item (take (Z.to_nat varint_len) varint_buf) buf size in
  let? item := decode_item item in
  let current_pos := Reader.position r in
  let? aligned_offset := compute_next_offset current_pos in
  Ok (aligned_offset, current_pos, size, item, r).

(** How the replay of a section ends: at the end of the blob, at the first item
    that is not whole, with the size the blob is cut to, or with an error. *)
Inductive Ending : Type :=
| Complete
| Truncate (new_size : Z)
| Failed (e : JournalError).

(** The stream of a section: each item with its offset and size.  Offsets grow, so
    the length of the blob is enough fuel. *)
Fixpoint replay_loop (fuel : nat) (r : Reader.Reader) (offset max_offset valid_size : Z)
    : option (list (Z * Z * V) * Ending) :=
  match fuel with
  | O => None
  | S fuel =>
      if max_offset <=? offset then Some ([], Complete)
      else
        match read_buffered r offset with
        | Ok (next_offset, next_valid_size, size, item, r) =>
            '(items, e) ← replay_loop fuel r next_offset max_offset next_valid_size;
            Some ((offset, size, item) :: items, e)
        | Err (JChecksumMismatch _ _) | Err (JRuntime InsufficientLength) => Some ([], Truncate valid_size)
        | Err e => Some ([], Failed e)
        | Panic => None
        end
  end.
Definition replay_section b (offset max_offset : Z) : option (list (Z * Z * V) * Ending) :=
  let r := Reader.new b (Blob.size b) in
  let fuel := S (length (Blob.content b)) in
  if offset =? 0 then replay_loop fuel r 0 max_offset 0
  else
    match runtime (Reader.seek_to r (offset * ITEM_ALIGNMENT)) with
    | Ok r => replay_loop fuel r offset max_offset 0
    | Err e => Some ([], Failed e)
    | Panic => None
    end.

(** The stream read up to its end or its first error: the items with their section,
    the error, and the blobs, those that ended early cut. *)
Fixpoint replay_blobs (entries : list (Z * Blob.Blob)) (start_section offset : Z)
    : option (list (Z * Z * Z * V) * option JournalError * list (Z * Blob.Blob)) :=
  match entries with
  | [] => Some ([], None, [])
  | (section, b) :: entries =>
      if section <? start_section then
        '(items, e, blobs) ← replay_blobs entries start_section offset; Some (items, e, (section, b) :: blobs)
      else
        match compute_next_offset (Blob.size b) with
        | Ok max_offset =>
            '(items, e) ← replay_section b (if section =? start_section then offset else 0) max_offset;
            let items := (λ '(o, size, item), (section, o, size, item)) <$> items in
            match e with
            | Failed e => Some (items, Some e, (section, b) :: entries)
            | Complete =>
                '(items', e', blobs) ← replay_blobs entries start_section offset;
                Some (items ++ items', e', (section, b) :: blobs)
            | Truncate n =>
                '(items', e', blobs) ← replay_blobs entries start_section offset;
                Some (items ++ items', e', (section, Reader.resize (Reader.new b (Blob.size b)) n) :: blobs)
            end
        | _ => None
        end
  end.
(** The sizes of the blobs are checked before the stream starts. *)
Fixpoint check_sizes (entries : list (Z * Blob.Blob)) (start_section : Z) : jresult unit :=
  match entries with
  | [] => Ok tt
  | (section, b) :: entries =>
      if section <? start_section then check_sizes entries start_section
      else let? _ := compute_next_offset (Blob.size b) in check_sizes entries start_section
  end.
Definition replay j (start_section offset : Z) : jresult (list (Z * Z * Z * V) * option JournalError * Journal) :=
  let? _ := check_sizes (blobs j) start_section in
  let? (items, e, blobs) := expect (replay_blobs (blobs j) start_section offset) in
  Ok (items, e, mkJournal blobs (oldest_retained_section j)).

(** The bytes of an item. *)
Definition encode_item (item : V) : jresult bytes :=
  let? encoded := expect (encode codec item) in
  match compression with
  | Some level => match compress level encoded with Some c => Ok c | None => Err JCompressionFailed end
  | None => Ok encoded
  end.

(** The size, the bytes and the checksum. *)
Definition entry_bytes (encoded : bytes) : option bytes :=
  varint ← write (Varint.UInt 4) (Z.of_nat (length encoded));
  Some (varint ++ encoded ++ put_be 4 (crc32 (varint ++ encoded))).

(** The offset and the size of the item, and the journal; an error leaves a section
    open that was not before. *)
Definition append j (section : Z) (item : V) : jresult (Z * Z) * Journal :=
  match prune_guard j section with
  | Ok _ =>
      match encode_item item with
      | Ok encoded =>
          let item_len := Z.of_nat (length encoded) in
          if negb (fitsb 32 item_len) then (Err (JItemTooLarge item_len), j)
          else
            let b := default Blob.empty (BTreeMap.get (blobs j) section) in
            let j := mkJournal (BTreeMap.insert (blobs j) section b) (oldest_retained_section j) in
            let cursor := Blob.size b in
            let written :=
              let? offset := compute_next_offset cursor in
              let? padding := expect (checked_sub (offset * ITEM_ALIGNMENT) cursor) in
              let? entry := expect (entry_bytes encoded) in
              let? size_len := expect (encode_size (Varint.UInt 4) item_len) in
              if negb (Z.of_nat (length entry) =? size_len + item_len + 4) then Panic
              else
                let? b := runtime (Blob.append b (replicate (Z.to_nat padding) (byte.of_Z 0) ++ entry)) in
                Ok (offset, b) in
            match written with
            | Ok (offset, b) => (Ok (offset, item_len), mkJournal (BTreeMap.insert (blobs j) section b) (oldest_retained_section j))
            | Err e => (Err e, j)
            | Panic => (Panic, j)
            end
      | Err e => (Err e, j)
      | Panic => (Panic, j)
      end
  | Err e => (Err e, j)
  | Panic => (Panic, j)
  end.

Definition get j (section offset : Z) : jresult V :=
  let? _ := prune_guard j section in
  match BTreeMap.get (blobs j) section with
  | None => Err (JSectionOutOfRange section)
  | Some b => let? (_, _, item) := read b offset in Ok item
  end.

Definition size j (section : Z) : jresult Z :=
  let? _ := prune_guard j section in
  Ok (match BTreeMap.get (blobs j) section with Some b => Blob.size b | None => 0 end).

Definition rewind_section j (section size : Z) : jresult Journal :=
  let? _ := prune_guard j section in
  match BTreeMap.get (blobs j) section with
  | None => Ok j
  | Some b =>
      if Blob.size b <=? size then Ok j
      else Ok (mkJournal (BTreeMap.insert (blobs j) section (Blob.resize b size)) (oldest_retained_section j))
  end.
(** Later sections are removed, the last first. *)
Definition rewind j (section size : Z) : jresult Journal :=
  let? _ := prune_guard j section in
  let trailing := fst <$> filter (λ e, section < e.1) (blobs j) in
  rewind_section (mkJournal (foldl BTreeMap.remove (blobs j) (rev trailing)) (oldest_retained_section j)) section size.
Definition rewind_to_offset j (section offset : Z) : jresult Journal := rewind j section (offset * ITEM_ALIGNMENT).

Definition sync j (section : Z) : jresult Journal :=
  let? _ := prune_guard j section in
  match BTreeMap.get (blobs j) section with
  | None => Ok j
  | Some b => Ok (mkJournal (BTreeMap.insert (blobs j) section (Blob.sync b)) (oldest_retained_section j))
  end.

(** The sections that are not pruned, and whether one was. *)
Fixpoint prune_loop (entries : list (Z * Blob.Blob)) (min : Z) (pruned : bool) : list (Z * Blob.Blob) * bool :=
  match entries with
  | (section, b) :: rest => if min <=? section then (entries, pruned) else prune_loop rest min true
  | [] => ([], pruned)
  end.
Definition prune j (min : Z) : Journal * bool :=
  let '(blobs, pruned) := prune_loop (blobs j) min false in
  (mkJournal blobs (if pruned then min else oldest_retained_section j), pruned).

(** What is on disk after the journal was closed. *)
Definition close j : list (Z * Blob.Blob) := (λ e, (e.1, Blob.sync e.2)) <$> blobs j.
Definition oldest_section j : option Z := fst <$> BTreeMap.first (blobs j).
Definition destroy j : list (Z * Blob.Blob) := foldl BTreeMap.remove (blobs j) (blobs j).*1.
End Ops.
End Journal.
