(* ===== verification/JournalLayout.v ===== *)
(** * The layout of a section

    The bytes of a section are its items, each preceded by the zeros that align it.
    Reading a whole item gives it back; reading what is left of one after a crash is
    reported as a read past the end. *)

From S2P Require Import Prelude Codec Varint CodecTypes BTreeMap Blob Journal.
Import CodecTypes.

Module JournalLayout.
Import Journal.
Notation len l := (Z.of_nat (length l)).
Notation zeros n := (replicate (Z.to_nat n) (byte.of_Z 0)).

(** ** Offsets *)

Definition aligned (n : Z) : Z := (n + 15) / 16 * 16.

Lemma aligned_bounds n : n ≤ aligned n < n + 16.
Proof. unfold aligned. pose proof (Z.div_mod (n + 15) 16). pose proof (Z.mod_pos_bound (n + 15) 16). lia. Qed.
Lemma aligned_id n : aligned (n * 16) = n * 16.
Proof. unfold aligned. rewrite Z.div_add_l by lia. change (15 / 16) with 0. lia. Qed.
Lemma aligned_mult n : aligned n = aligned n / 16 * 16.
Proof. unfold aligned. by rewrite Z.div_mul by lia. Qed.
Lemma aligned_mono n m : n ≤ m → aligned n ≤ aligned m.
Proof. intros. unfold aligned. pose proof (Z.div_le_mono (n + 15) (m + 15) 16). lia. Qed.
Lemma aligned_between n m : n ≤ m ≤ aligned n → aligned m = aligned n.
Proof.
  intros H. apply Z.le_antisymm; [|apply aligned_mono, H]. pose proof (aligned_mono m _ (proj2 H)) as Hm.
  by rewrite (aligned_mult n), aligned_id, <- aligned_mult in Hm.
Qed.
Lemma aligned_div n : aligned n / 16 = (n + 15) / 16.
Proof. unfold aligned. by rewrite Z.div_mul by lia. Qed.

Lemma aligned_next p k : 0 < k → aligned p / 16 < aligned (aligned p + k) / 16.
Proof.
  intros. rewrite (aligned_div (aligned p + k)). replace (aligned p + k + 15) with (aligned p + (k + 15)) by lia.
  rewrite (aligned_mult p), Z.div_mul, Z.div_add_l by lia. pose proof (Z.div_le_lower_bound (k + 15) 16 1). lia.
Qed.

(** The sizes for which every offset fits. *)
Definition roomy (n : Z) : Prop := 0 ≤ n ≤ (2 ^ 32 - 1) * 16.

Lemma next_offset_spec n : 0 ≤ n < 2 ^ 63 →
  compute_next_offset n = if fitsb 32 (aligned n / 16) then Ok (aligned n / 16) else Err JOffsetOverflow.
Proof.
  intros Hn. unfold compute_next_offset, ITEM_ALIGNMENT. rewrite aligned_div.
  pose proof (Z.div_mod n 16 ltac:(lia)) as Hd. pose proof (Z.mod_pos_bound n 16 ltac:(lia)).
  destruct (Z.eqb_spec (n mod 16) 0) as [E|E]; cbn [obind].
  - assert ((n + 15) / 16 = n / 16) as ->; [|done]. symmetry. apply (Z.div_unique _ _ _ 15); lia.
  - unfold checked_add. rewrite (proj2 (Z.ltb_lt _ _)) by lia. cbn [expect obind].
    assert ((n + (16 - n mod 16)) / 16 = (n + 15) / 16) as ->; [|done].
    replace (n + (16 - n mod 16)) with ((n / 16 + 1) * 16) by lia. rewrite Z.div_mul by lia.
    apply (Z.div_unique _ _ _ (n mod 16 - 1)); lia.
Qed.
Lemma next_offset_roomy n : roomy n → compute_next_offset n = Ok (aligned n / 16).
Proof.
  intros H. unfold roomy in H. rewrite next_offset_spec by lia.
  assert (fitsb 32 (aligned n / 16) = true) as ->; [|done].
  apply fitsb_spec. unfold fits. rewrite aligned_div. split; [by apply Z.div_pos; lia|].
  apply Z.div_lt_upper_bound; lia.
Qed.

(** ** Slices and reads *)

Lemma slice_app (pre x post : bytes) p n : p = len pre → n = len x → Blob.slice (pre ++ x ++ post) p n = x.
Proof. intros -> ->. unfold Blob.slice. rewrite !Nat2Z.id, drop_app_length. apply take_app_length. Qed.

Lemma read_at_app b (pre x post : bytes) n p : Blob.content b = pre ++ x ++ post → p = len pre → n = len x →
  Blob.size b < 2 ^ 63 → runtime (Blob.read_at b n p) = Ok x.
Proof.
  intros E -> -> Hs. rewrite Blob.read_at_cases. unfold Blob.size in *. rewrite E, !length_app in *.
  rewrite (proj2 (Z.ltb_lt _ _)), (proj2 (Z.ltb_ge _ _)) by lia. cbn [runtime]. f_equal. by apply slice_app.
Qed.
(** A reader at a position. *)
Definition reader (b : Blob.Blob) (p : Z) : Reader.Reader := Reader.mkReader b (Blob.size b) p.

Lemma read_exact_app b (pre x post : bytes) n p : Blob.content b = pre ++ x ++ post → p = len pre → n = len x →
  Blob.size b < 2 ^ 63 → runtime (Reader.read_exact (reader b p) n) = Ok (x, reader b (p + n)).
Proof.
  intros E Hp Hn Hs. unfold Reader.read_exact, Reader.blob_remaining, saturating_sub. cbn [Reader.blob reader Reader.blob_size Reader.position].
  rewrite (proj2 (Z.ltb_ge _ _)).
  - pose proof (read_at_app b pre x post n p E Hp Hn Hs) as H. by destruct (Blob.read_at b n p); [injection H as ->|..].
  - unfold Blob.size in *. rewrite E, !length_app. lia.
Qed.
Lemma read_exact_short b n p : 0 < n → Blob.size b < p + n → runtime (Reader.read_exact (reader b p) n) = Err (JRuntime InsufficientLength).
Proof.
  intros. unfold Reader.read_exact, Reader.blob_remaining, saturating_sub. cbn [reader Reader.blob Reader.blob_size Reader.position].
  by rewrite (proj2 (Z.ltb_lt _ _)) by lia.
Qed.
Lemma seek_reader b p q : 0 ≤ q ≤ Blob.size b → runtime (Reader.seek_to (reader b p) q) = Ok (reader b q).
Proof. intros. unfold Reader.seek_to. cbn. by rewrite (proj2 (Z.ltb_ge _ _)) by lia. Qed.

(** ** Items *)

Lemma size_bytes s vb : write (Varint.UInt 4) s = Some vb → fits 32 s → 1 ≤ len vb ≤ 5.
Proof.
  intros E Hs. cbn [write Varint.UInt] in E. rewrite (Varint.write_length s (proj1 Hs) 4 vb E).
  pose proof (Varint.size_bound 4 s ltac:(lia) Hs) as Hb. change (div_ceil (4 * 8) 7) with 5 in Hb.
  unfold Varint.size in *. lia.
Qed.
Lemma read_size_app s vb rest : write (Varint.UInt 4) s = Some vb → fits 32 s → read_size (vb ++ rest) = Ok (s, rest).
Proof.
  intros E Hs. unfold read_size. pose proof (Varint.UInt_lawful 4 ltac:(lia)) as HL.
  assert (read_cfg (Varint.UInt 4) tt (vb ++ rest) = Ok (s, rest)) as ->; [|done].
  pose proof (codec_roundtrip (c := Varint.UInt 4) (Lawful := Varint.UInt_lawful 4 ltac:(lia)) tt s vb rest) as R. by apply R.
Qed.

(** What the journal relies on: a checksum is a [u32], and what was compressed can
    be decompressed. *)
Class Storable (crc32 : bytes → Z) (compress : Z → bytes → option bytes) (decode_all : bytes → option bytes) : Prop := {
  crc32_fits b : fits 32 (crc32 b);
  decode_compress level b c : compress level b = Some c → decode_all c = Some b;
}.

Section Items.
Context {V VCfg : Type} (codec : codec V VCfg) `{!Lawful codec} (codec_config : VCfg).
Context (crc32 : bytes → Z) (compress : Z → bytes → option bytes) (decode_all : bytes → option bytes).
Context `{!Storable crc32 compress decode_all} (compression : option Z).
Notation encode_item := (encode_item codec compress compression).
Notation decode_item := (decode_item codec codec_config decode_all compression).
Notation read := (read codec codec_config crc32 decode_all compression).
Notation read_buffered := (read_buffered codec codec_config crc32 decode_all compression).

(** The bytes of an item [v] whose encoding has [size] bytes. *)
Definition entry (v : V) (size : Z) (e : bytes) : Prop :=
  admits codec codec_config v ∧
  ∃ encoded, encode_item v = Ok encoded ∧ size = len encoded ∧ fits 32 size ∧ entry_bytes crc32 encoded = Some e.

Lemma decode_encode_item v encoded : admits codec codec_config v → encode_item v = Ok encoded → decode_item encoded = Ok v.
Proof.
  intros Ha E. unfold Journal.encode_item, Journal.decode_item in *. apply obind_Ok in E as (b & Eb & E).
  destruct (encode codec v) as [b'|] eqn:Ee; [|done]. injection Eb as ->.
  pose proof (decode_encode codec _ _ _ Ha Ee) as Hd. destruct compression as [level|].
  - destruct (compress level b) as [c|] eqn:Ec; [|done]. injection E as <-. by rewrite (decode_compress level b c Ec), Hd.
  - injection E as <-. by rewrite Hd.
Qed.

(** The size in front, and the bytes with the checksum behind it. *)
Lemma entry_parts v size e : entry v size e → ∃ vb body encoded,
  e = vb ++ body ∧ 1 ≤ len vb ≤ 5 ∧ len body = size + 4 ∧ 0 ≤ size < 2 ^ 32 ∧
  (∀ rest, read_size (vb ++ rest) = Ok (size, rest)) ∧ checked_item crc32 vb body size = Ok encoded ∧ decode_item encoded = Ok v.
Proof.
  intros (Ha & encoded & E & -> & Hf & Eb). unfold entry_bytes in Eb.
  destruct (write (Varint.UInt 4) (len encoded)) as [vb|] eqn:Ev; [|done]. injection Eb as <-.
  exists vb, (encoded ++ put_be 4 (crc32 (vb ++ encoded))), encoded. split; [done|].
  split; [by eapply size_bytes|]. split; [rewrite length_app, length_put_be; lia|]. split; [done|]. split_and!.
  - intros rest. by apply read_size_app.
  - unfold checked_item. rewrite Nat2Z.id, take_app_length, drop_app_length, get_put_be.
    rewrite Z.mod_small by apply crc32_fits. by rewrite Z.eqb_refl.
  - by apply decode_encode_item.
Qed.
Lemma entry_length v size e : entry v size e → 5 ≤ len e ∧ len e ≤ size + 9.
Proof. intros (vb & body & enc & -> & ? & ? & ? & _)%entry_parts. rewrite length_app. lia. Qed.

(** The first bytes of an item, the rest of it and what they are read as. *)
Lemma entry_split v size e : entry v size e → ∃ vb r body encoded,
  e = (vb ++ take r body) ++ drop r body ∧ (vb ++ take r body ++ drop r body) = e ∧
  len (vb ++ take r body) = 5 ∧ len (take r body) = 5 - len vb ∧ len (drop r body) = size + 4 - (5 - len vb) ∧
  read_size (vb ++ take r body) = Ok (size, take r body) ∧ (r ≤ length body)%nat ∧ len body = size + 4 ∧
  checked_item crc32 vb body size = Ok encoded ∧ decode_item encoded = Ok v ∧ 0 ≤ size < 2 ^ 32.
Proof.
  intros (vb & body & enc & -> & ? & ? & ? & Hr & ? & ?)%entry_parts.
  exists vb, (5 - length vb)%nat, body, enc. rewrite <- !app_assoc, take_drop, length_app, length_take, length_drop.
  split_and!; try done; lia.
Qed.

Lemma read_entry b pre v size e post offset : Blob.content b = pre ++ e ++ post → len pre = offset * 16 →
  entry v size e → Blob.size b < 2 ^ 63 →
  read b offset = (let? next := compute_next_offset (len pre + len e) in Ok (next, size, v)).
Proof.
  intros Eb Hp He Hs. destruct (entry_split v size e He) as (vb & r & body & enc & E1 & E2 & L1 & L2 & L3 & Hr & Hrb & Lb & Hc & Hd & Hz).
  assert (len e = len vb + (size + 4)) as Le by (rewrite <- E2, app_assoc, length_app; rewrite !length_app in L1; rewrite length_app; lia).
  assert (len pre + len e < 2 ^ 63) as Hle by (unfold Blob.size in Hs; rewrite Eb, !length_app in Hs; lia).
  unfold Journal.read, MIN_ITEM_SIZE, ITEM_ALIGNMENT.
  rewrite (read_at_app b pre (vb ++ take r body) (drop r body ++ post)); [|by rewrite Eb, E1, <- !app_assoc|done..].
  cbn [obind]. rewrite Hr. cbn [obind]. unfold checked_add. rewrite L2, (proj2 (Z.ltb_lt _ _)) by lia.
  rewrite (read_at_app b (pre ++ vb) body post).
  - cbn [obind]. rewrite (proj2 (Z.ltb_lt _ _)) by lia.
    replace (Z.to_nat (5 - (5 - len vb))) with (length vb) by lia. rewrite take_app_length, Hc. cbn [obind].
    rewrite <- Hp. replace (len pre + (5 - (5 - len vb)) + (size + 4)) with (len pre + len e) by lia.
    by rewrite Hd; destruct (compute_next_offset _).
  - by rewrite Eb, <- E2, take_drop, <- !app_assoc.
  - rewrite length_app. lia.
  - lia.
  - done.
Qed.

Lemma read_buffered_entry b pre v size e post offset pos : Blob.content b = pre ++ e ++ post → len pre = offset * 16 →
  entry v size e → Blob.size b < 2 ^ 63 →
  read_buffered (reader b pos) offset =
    (let? next := compute_next_offset (len pre + len e) in Ok (next, len pre + len e, size, v, reader b (len pre + len e))).
Proof.
  intros Eb Hp He Hs. destruct (entry_split v size e He) as (vb & r & body & enc & E1 & E2 & L1 & L2 & L3 & Hr & Hrb & Lb & Hc & Hd & Hz).
  assert (len e = len vb + (size + 4)) as Le by (rewrite <- E2, app_assoc, length_app; rewrite !length_app in L1; rewrite length_app; lia).
  assert (len pre + len e ≤ Blob.size b) as Hle by (unfold Blob.size; rewrite Eb, !length_app; lia).
  unfold Journal.read_buffered, MIN_ITEM_SIZE, ITEM_ALIGNMENT. rewrite <- Hp.
  assert ((if Reader.position (reader b pos) =? len pre then Ok (reader b pos) else runtime (Reader.seek_to (reader b pos) (len pre)))
    = Ok (reader b (len pre))) as ->.
  { cbn [Reader.position reader]. destruct (Z.eqb_spec pos (len pre)) as [->|]; [done|]. apply seek_reader. lia. }
  cbn [obind]. rewrite (read_exact_app b pre (vb ++ take r body) (drop r body ++ post)); [|by rewrite Eb, E1, <- !app_assoc|done..].
  cbn [obind]. rewrite Hr. cbn [obind]. rewrite L2.
  replace (5 - (5 - (5 - len vb))) with (5 - len vb) by lia.
  match goal with |- obind ?m _ = _ => assert (m = Ok (body, reader b (len pre + len e))) as -> end.
  { destruct (Z.ltb_spec (5 - len vb) (size + 4)).
    - rewrite (read_exact_app b (pre ++ vb ++ take r body) (drop r body) post).
      + cbn [obind]. rewrite take_drop. f_equal. f_equal. f_equal. lia.
      + by rewrite Eb, E1, <- !app_assoc.
      + rewrite length_app. lia.
      + lia.
      + done.
    - assert (length (drop r body) = 0%nat) as E0%length_zero_iff_nil by lia.
      rewrite <- (take_drop r body) at 2. rewrite E0, app_nil_r. f_equal. f_equal. f_equal. lia. }
  cbn [obind]. replace (Z.to_nat (5 - (5 - len vb))) with (length vb) by lia. rewrite take_app_length, Hc.
  cbn [obind]. rewrite Hd. cbn [obind Reader.position reader]. by destruct (compute_next_offset _).
Qed.

(** A torn item: reading it hits the end of the blob. *)
Lemma read_buffered_torn b pre v size e part rest offset pos : Blob.content b = pre ++ part → len pre = offset * 16 →
  entry v size e → e = part ++ rest → rest ≠ [] → Blob.size b < 2 ^ 63 →
  read_buffered (reader b pos) offset = Err (JRuntime InsufficientLength).
Proof.
  intros Eb Hp He Ee Hrest Hs. destruct (entry_split v size e He) as (vb & r & body & enc & E1 & E2 & L1 & L2 & L3 & Hr & Hrb & Lb & Hc & Hd & Hz).
  assert (len e = len vb + (size + 4)) as Le by (rewrite <- E2, app_assoc, length_app; rewrite !length_app in L1; rewrite length_app; lia).
  assert (Blob.size b = len pre + len part) as Hb by (unfold Blob.size; rewrite Eb, !length_app; lia).
  assert (len part < len e) as Hlt by (rewrite Ee, length_app; destruct rest; [done|cbn [length]; lia]).
  unfold Journal.read_buffered, MIN_ITEM_SIZE, ITEM_ALIGNMENT. rewrite <- Hp.
  assert ((if Reader.position (reader b pos) =? len pre then Ok (reader b pos) else runtime (Reader.seek_to (reader b pos) (len pre)))
    = Ok (reader b (len pre))) as ->.
  { cbn [Reader.position reader]. destruct (Z.eqb_spec pos (len pre)) as [->|]; [done|]. apply seek_reader. lia. }
  cbn [obind]. destruct (Z.lt_ge_cases (len part) 5) as [H5|H5].
  - by rewrite read_exact_short by lia.
  - assert (take 5 part = vb ++ take r body) as E5.
    { assert (take 5 e = vb ++ take r body) as <- by (rewrite E1; apply take_app_length'; lia).
      rewrite Ee. symmetry. apply take_app_le. lia. }
    rewrite (read_exact_app b pre (take 5 part) (drop 5 part)); [|by rewrite Eb, take_drop|done|rewrite E5; lia|done].
    cbn [obind]. rewrite E5, Hr. cbn [obind]. rewrite L2. rewrite (proj2 (Z.ltb_lt _ _)) by lia.
    by rewrite read_exact_short by lia.
Qed.

Lemma entry_det v size e size' e' : entry v size e → entry v size' e' → size = size' ∧ e = e'.
Proof. intros (_ & x & E & -> & _ & Ee) (_ & x' & E' & -> & _ & Ee'). rewrite E in E'. injection E' as <-. rewrite Ee in Ee'. by injection Ee'. Qed.

(** ** The items of a section *)

(** An item with its offset and its size. *)
Definition item : Type := Z * Z * V.
Definition value (i : item) : V := i.2.

(** The bytes behind position [p] that hold the items. *)
Inductive layout : Z → list item → bytes → Prop :=
| layout_nil p : layout p [] []
| layout_cons p v size e items rest :
    entry v size e → layout (aligned p + len e) items rest →
    layout p ((aligned p / 16, size, v) :: items) (zeros (aligned p - p) ++ e ++ rest).

Lemma len_zeros p : len (zeros (aligned p - p)) = aligned p - p.
Proof. rewrite length_replicate. pose proof (aligned_bounds p). lia. Qed.

Lemma layout_snoc p items c v size e : layout p items c → entry v size e →
  layout p (items ++ [(aligned (p + len c) / 16, size, v)]) (c ++ zeros (aligned (p + len c) - (p + len c)) ++ e).
Proof.
  intros H He. induction H as [p|p v0 s0 e0 items rest He0 _ IH].
  - cbn [length app]. rewrite !Z.add_0_r. pose proof (layout_cons p v size e [] [] He (layout_nil _)) as H. by rewrite app_nil_r in H.
  - rewrite !length_app, !Nat2Z.inj_add, len_zeros. rewrite <- !app_assoc. cbn [app].
    replace (p + (aligned p - p + (len e0 + len rest))) with (aligned p + len e0 + len rest) by lia. by constructor.
Qed.

Lemma layout_count p items c : layout p items c → (5 * length items ≤ length c)%nat.
Proof.
  induction 1 as [|p v s e items rest He _ IH]; [done|]. pose proof (entry_length v s e He). rewrite !length_app. cbn [length]. lia.
Qed.

Lemma layout_det p items c c' : layout p items c → layout p items c' → c = c'.
Proof.
  intros H. revert c'. induction H as [p|p v s e items rest He _ IH]; intros c'; inversion 1; subst; [done|].
  match goal with He' : entry v _ ?e' |- _ => destruct (entry_det v _ _ _ _ He He') as [_ <-] end. f_equal. f_equal. by apply IH.
Qed.

(** Where an item lies. *)
Lemma layout_lookup p items c o s v : layout p items c → (o, s, v) ∈ items →
  ∃ c1 e c2, c = c1 ++ e ++ c2 ∧ entry v s e ∧ p + len c1 = o * 16.
Proof.
  induction 1 as [|p v' s' e items rest He _ IH]; [by intros ?%elem_of_nil|]. intros [[= -> -> ->]|Hin]%elem_of_cons.
  - exists (zeros (aligned p - p)), e, rest. split_and!; [done..|]. rewrite len_zeros, <- aligned_mult. lia.
  - destruct (IH Hin) as (c1 & e' & c2 & -> & He' & Hc). exists (zeros (aligned p - p) ++ e ++ c1), e', c2.
    split_and!; [by rewrite <- !app_assoc|done|]. rewrite !length_app, !Nat2Z.inj_add, len_zeros. lia.
Qed.

(** The bytes of the last items. *)
Lemma layout_suffix p i1 i2 c : layout p (i1 ++ i2) c → ∃ c1 c2, c = c1 ++ c2 ∧ layout p i1 c1 ∧ layout (p + len c1) i2 c2.
Proof.
  revert p c. induction i1 as [|i i1 IH]; intros p c H; cbn in H.
  - exists [], c. split; [done|]. split; [constructor|]. cbn. by rewrite Z.add_0_r.
  - inversion H as [|? v s e ? rest He Hr]; subst. destruct (IH _ _ Hr) as (c1 & c2 & -> & H1 & H2).
    exists (zeros (aligned p - p) ++ e ++ c1), c2. split; [by rewrite <- !app_assoc|]. split; [by constructor|].
    rewrite !length_app, !Nat2Z.inj_add, len_zeros. by replace (p + (aligned p - p + (len e + len c1))) with (aligned p + len e + len c1) by lia.
Qed.

(** What is behind the last whole item, [q] bytes into the section: nothing but
    zeros of the alignment, or, if [broken], the first bytes of an item too. *)
Inductive tail (q : Z) : bool → bytes → Prop :=
| tail_zeros k : 0 ≤ k → q + k ≤ aligned q → tail q false (zeros k)
| tail_broken v size e part rest : entry v size e → e = part ++ rest → part ≠ [] → rest ≠ [] →
    tail q true (zeros (aligned q - q) ++ part).

Lemma take_zeros n m : ∃ k, 0 ≤ k ∧ k ≤ Z.max 0 m ∧ take n (zeros m) = zeros k.
Proof. exists (Z.of_nat (n `min` Z.to_nat m)). rewrite take_replicate. split_and!; [lia..|]. f_equal. lia. Qed.

(** What is left of a section is some of its items and a tail; the items that were
    whole in a part that is left are among them. *)
Lemma layout_cut p items c z n m cs : layout p items c → tail (p + len c) false z →
  (m ≤ length items)%nat → layout p (take m items) cs → (length cs ≤ n)%nat →
  ∃ m' c' broken t, (m ≤ m' ≤ length items)%nat ∧ take n (c ++ z) = c' ++ t ∧ layout p (take m' items) c' ∧ tail (p + len c') broken t.
Proof.
  intros H. revert m n cs. induction H as [p|p v s e items rest He Hrest IH]; intros m n cs Hz Hm Hcs Hn.
  - exists 0%nat, [], false, (take n z). cbn in Hm. split_and!; [lia|done|done|constructor|].
    inversion Hz as [k Hk Hle|]; subst. destruct (take_zeros n k) as (k' & ? & ? & ->). constructor; [done|]. cbn in *. lia.
  - rewrite <- !app_assoc. rewrite !length_app, !Nat2Z.inj_add, len_zeros in Hz.
    replace (p + (aligned p - p + (len e + len rest))) with (aligned p + len e + len rest) in Hz by lia.
    destruct (decide (length (zeros (aligned p - p)) + length e ≤ n)%nat) as [Hge|Hlt].
    + assert (∃ cs', layout (aligned p + len e) (take (pred m) items) cs' ∧ (length cs' ≤ n - length (zeros (aligned p - p)) - length e)%nat) as (cs' & Hl' & Hn').
      { destruct m as [|m]; [exists []; split; [constructor|cbn; lia]|]. cbn in Hcs. inversion Hcs as [|? ? ? e' ? rest' He' Hr' ]; subst.
        destruct (entry_det v _ _ _ _ He He') as [_ <-]. exists rest'. split; [done|]. rewrite !length_app in Hn. lia. }
      destruct (IH (pred m) _ cs' Hz ltac:(cbn in Hm; lia) Hl' Hn') as (m' & c' & br & t & Hm' & E & Hl & Ht).
      exists (S m'), (zeros (aligned p - p) ++ e ++ c'), br, t. cbn [length take]. split_and!; [lia..| |by constructor|].
      * rewrite !take_app_ge by lia. by rewrite E, <- !app_assoc.
      * rewrite !length_app, !Nat2Z.inj_add, len_zeros.
        by replace (p + (aligned p - p + (len e + len c'))) with (aligned p + len e + len c') by lia.
    + assert (m = 0%nat) as ->.
      { destruct m as [|m]; [done|]. cbn in Hcs. inversion Hcs as [|? ? ? e' ? rest' He' Hr' ]; subst.
        destruct (entry_det v _ _ _ _ He He') as [_ <-]. rewrite !length_app in Hn. lia. }
      destruct (decide (n ≤ length (zeros (aligned p - p)))%nat) as [Hle|Hgt].
      * exists 0%nat, [], false, (take n (zeros (aligned p - p))). split_and!; [lia|lia| |constructor|].
        { rewrite take_app_le by done. done. }
        { destruct (take_zeros n (aligned p - p)) as (k' & ? & ? & ->). constructor; [done|]. pose proof (aligned_bounds p). cbn [length]. rewrite Z.add_0_r. lia. }
      * exists 0%nat, [], true, (zeros (aligned p - p) ++ take (n - length (zeros (aligned p - p))) e). split_and!; [lia|lia| |constructor|].
        { rewrite take_app_ge by lia. by rewrite take_app_le by lia. }
        { cbn [length]. rewrite Z.add_0_r. eapply tail_broken; [exact He|symmetry; apply take_drop| |].
          - intros E%(f_equal length). rewrite length_take in E. cbn in E. lia.
          - intros E%(f_equal length). rewrite length_drop in E. cbn in E. lia. }
Qed.

(** ** Replaying a section *)

Notation replay_loop := (replay_loop codec codec_config crc32 decode_all compression).
Notation replay_section := (replay_section codec codec_config crc32 decode_all compression).

(** The section is cut behind the last whole item if what follows is broken; the
    position is only known after an item was read, it is [vs] before. *)
Definition ending (broken : bool) (items : list item) (vs q : Z) : Ending :=
  if broken then Truncate (match items with [] => vs | _ => q end) else Complete.

Lemma replay_loop_layout p items c : layout p items c → ∀ b pre t broken pos vs fuel,
  Blob.content b = pre ++ c ++ t → len pre = p → tail (p + len c) broken t → roomy (Blob.size b) → (length items < fuel)%nat →
  replay_loop fuel (reader b pos) (aligned p / 16) (aligned (Blob.size b) / 16) vs = Some (items, ending broken items vs (p + len c)).
Proof.
  induction 1 as [p|p v s e items rest He Hrest IH]; intros b pre t broken pos vs fuel Eb Hp Ht Hroom Hf; (destruct fuel as [|fuel]; [lia|]); cbn [Journal.replay_loop].
  - assert (Blob.size b = p + len t) as Hs by (unfold Blob.size; rewrite Eb, !length_app; cbn; lia). rewrite !aligned_div. cbn [length] in Ht. rewrite Z.add_0_r in Ht.
    destruct Ht as [k Hk Hle|v s e part rest He Ee Hpart Hrest].
    + rewrite length_replicate in Hs. rewrite (proj2 (Z.leb_le _ _)); [done|]. rewrite Hs, <- !aligned_div.
      replace (p + Z.of_nat (Z.to_nat k)) with (p + k) by lia. by rewrite (aligned_between p (p + k)) by lia.
    + rewrite length_app, Nat2Z.inj_add, len_zeros in Hs. pose proof (aligned_bounds p).
      assert (0 < len part) by (destruct part; [done|cbn; lia]).
      rewrite (proj2 (Z.leb_gt _ _)).
      * rewrite (read_buffered_torn b (pre ++ zeros (aligned p - p)) v s e part rest); [done| | |done..|unfold roomy in Hroom; lia].
        { by rewrite Eb, <- app_assoc. } { rewrite <- aligned_div, <- aligned_mult, length_app, Nat2Z.inj_add, len_zeros. lia. }
      * rewrite Hs, <- !aligned_div. replace (p + (aligned p - p + len part)) with (aligned p + len part) by lia. by apply aligned_next.
  - pose proof (entry_length v s e He) as [Hlen _]. pose proof (aligned_bounds p) as Hb.
    assert (Blob.size b = aligned p + (len e + len rest + len t)) as Hs.
    { unfold Blob.size. rewrite Eb, !length_app, !Nat2Z.inj_add, len_zeros. lia. }
    rewrite (proj2 (Z.leb_gt _ _)).
    + rewrite (read_buffered_entry b (pre ++ zeros (aligned p - p)) v s e (rest ++ t)).
      * rewrite length_app, Nat2Z.inj_add, len_zeros, Hp. replace (p + (aligned p - p) + len e) with (aligned p + len e) by lia.
        rewrite next_offset_roomy by (unfold roomy in *; lia). cbn [obind].
        rewrite (IH b (pre ++ zeros (aligned p - p) ++ e) t broken).
        { cbn [mbind option_bind]. f_equal. f_equal. unfold ending. rewrite !length_app, !Nat2Z.inj_add, len_zeros.
          replace (p + (aligned p - p + (len e + len rest))) with (aligned p + len e + len rest) by lia.
          destruct broken, items; try done. by rewrite (layout_det _ [] rest [] Hrest (layout_nil _)), Z.add_0_r. }
        { by rewrite Eb, <- !app_assoc. }
        { rewrite !length_app, !Nat2Z.inj_add, len_zeros. lia. }
        { rewrite !length_app, !Nat2Z.inj_add, len_zeros in Ht.
          by replace (p + (aligned p - p + (len e + len rest))) with (aligned p + len e + len rest) in Ht by lia. }
        { done. } { cbn in Hf. lia. }
      * by rewrite Eb, <- !app_assoc.
      * rewrite length_app, Nat2Z.inj_add, len_zeros, Hp, <- aligned_mult. lia.
      * done.
      * unfold roomy in Hroom. lia.
    + rewrite Hs. apply aligned_next. lia.
Qed.

(** A section replayed from the item behind the first [len c1] bytes on. *)
Lemma replay_section_layout b c1 items c2 t broken offset : Blob.content b = c1 ++ c2 ++ t →
  layout (len c1) items c2 → tail (len c1 + len c2) broken t → roomy (Blob.size b) →
  offset = aligned (len c1) / 16 → aligned (len c1) ≤ Blob.size b →
  replay_section b offset (aligned (Blob.size b) / 16) = Some (items, ending broken items 0 (len c1 + len c2)).
Proof.
  intros Eb Hl Ht Hr -> Hs. unfold Journal.replay_section. pose proof (layout_count _ _ _ Hl) as Hc.
  assert (length items < S (length (Blob.content b)))%nat as Hf by (rewrite Eb, !length_app; lia).
  destruct (Z.eqb_spec (aligned (len c1) / 16) 0) as [E|E].
  - rewrite <- E at 1. by eapply replay_loop_layout.
  - unfold ITEM_ALIGNMENT. rewrite <- aligned_mult. pose proof (aligned_bounds (len c1)).
    change (Reader.new b (Blob.size b)) with (reader b 0). rewrite seek_reader by lia. by eapply replay_loop_layout.
Qed.

(** From the start, the cut is where the last whole item ends. *)
Lemma replay_whole_section b items c t broken : Blob.content b = c ++ t →
  layout 0 items c → tail (len c) broken t → roomy (Blob.size b) →
  replay_section b 0 (aligned (Blob.size b) / 16) = Some (items, if broken then Truncate (len c) else Complete).
Proof.
  intros Eb Hl Ht Hr. rewrite (replay_section_layout b [] items c t broken); [|done..| |].
  - cbn [length]. unfold ending. destruct broken, items; try done. by rewrite (layout_det _ [] c [] Hl (layout_nil _)).
  - done.
  - change (aligned (len [])) with 0. unfold roomy in Hr. lia.
Qed.
End Items.
End JournalLayout.
