(* ===== verification/JournalLog.v ===== *)
(** * The journal as a log

    What a journal holds: the items of every section with their offsets and how
    many of them are known to be on disk.  Every operation does to that log what
    its documentation says, and a crash loses nothing that was synced. *)

From S2P Require Import Prelude Codec Varint CodecTypes BTreeMap Blob Journal JournalLayout.

Module JournalLog.
Import Journal JournalLayout.
Notation len l := (Z.of_nat (length l)).
Notation zeros n := (replicate (Z.to_nat n) (byte.of_Z 0)).

Section Log.
Context {V VCfg : Type} (codec : codec V VCfg) `{!Lawful codec} (codec_config : VCfg).
Context (crc32 : bytes → Z) (compress : Z → bytes → option bytes) (decode_all : bytes → option bytes).
Context `{!Storable crc32 compress decode_all} (compression : option Z).
Notation encode_item := (encode_item codec compress compression).
Notation entry := (entry codec codec_config crc32 compress compression).
Notation layout := (layout codec codec_config crc32 compress compression).
Notation tail := (tail codec codec_config crc32 compress compression).
Notation append := (append codec crc32 compress compression).
Notation get := (get codec codec_config crc32 decode_all compression).
Notation replay := (replay codec codec_config crc32 decode_all compression).
Notation replay_blobs := (replay_blobs codec codec_config crc32 decode_all compression).
Notation item := (item (V := V)).

(** The items of a section, and how many of them are synced. *)
Definition Section_ : Type := list item * nat.
Notation Log := (list (Z * Section_)).
Implicit Types L : Log.

Record section_ok (b : Blob.Blob) (s : Section_) : Prop := {
  so_content : ∃ c z, Blob.content b = c ++ z ∧ layout 0 s.1 c ∧ tail (len c) false z;
  so_stored : ∃ cs, layout 0 (take s.2 s.1) cs ∧ cs `prefix_of` Blob.stored b;
  so_synced : (s.2 ≤ length s.1)%nat;
  so_prefix : Blob.stored b `prefix_of` Blob.content b;
  so_room : roomy (Blob.size b);
}.

Record holds (j : Journal) L : Prop := {
  h_related : BTreeMap.related section_ok (blobs j) L;
  h_ascending : BTreeMap.ascending L;
  h_fits : Forall (fits 64) L.*1;
}.

Definition section L (v : Z) : Section_ := default ([], 0%nat) (BTreeMap.get L v).

(** The items of all sections with the section they are in. *)
Definition placed (v : Z) (i : item) : Z * Z * Z * V := (v, i.1.1, i.1.2, i.2).
Definition listing L : list (Z * Z * Z * V) := concat ((λ x : Z * Section_, placed x.1 <$> x.2.1) <$> L).

Lemma empty_ok : section_ok Blob.empty ([], 0%nat).
Proof.
  split; cbn; [|exists []; split; [constructor|done]|lia|done|unfold roomy, Blob.size; cbn; lia].
  exists [], []. split_and!; [done|constructor|]. apply (tail_zeros _ _ _ _ _ 0 0); [lia|]. change (aligned 0) with 0. lia.
Qed.

Lemma section_rel j L v : holds j L → section_ok (default Blob.empty (BTreeMap.get (blobs j) v)) (section L v).
Proof.
  intros H. unfold section. pose proof (BTreeMap.related_get _ _ _ v (h_related _ _ H)) as Hr.
  destruct (BTreeMap.get (blobs j) v), (BTreeMap.get L v); try done. apply empty_ok.
Qed.

Lemma holds_insert j L v b s : holds j L → fits 64 v → section_ok b s →
  holds (mkJournal (BTreeMap.insert (blobs j) v b) (oldest_retained_section j)) (BTreeMap.insert L v s).
Proof.
  intros [H1 H2 H3] Hv Hb. split; cbn [blobs].
  - by apply BTreeMap.related_insert.
  - by apply BTreeMap.insert_ascending.
  - apply Forall_forall. intros k [->|Hk]%BTreeMap.insert_keys; [done|]. rewrite Forall_forall in H3. by apply H3.
Qed.

Lemma prune_guard_Ok j v : oldest_retained_section j ≤ v → prune_guard j v = Ok tt.
Proof. intros. unfold prune_guard. by rewrite (proj2 (Z.ltb_ge _ _)) by lia. Qed.
Lemma prune_guard_Err j v : v < oldest_retained_section j → prune_guard j v = Err (JAlreadyPruned (oldest_retained_section j)).
Proof. intros. unfold prune_guard. by rewrite (proj2 (Z.ltb_lt _ _)) by lia. Qed.

(** ** Appending *)

(** An item that can be stored, and a section with room for it. *)
Definition storable (a : V) (encoded : bytes) : Prop :=
  admits codec codec_config a ∧ encode_item a = Ok encoded ∧ fits 32 (len encoded).
Definition room j (v : Z) (encoded : bytes) : Prop :=
  roomy (Blob.size (default Blob.empty (BTreeMap.get (blobs j) v)) + len encoded + 25).

Lemma entry_exists a encoded : storable a encoded → ∃ e vb : bytes, entry_bytes crc32 encoded = Some e ∧ entry a (len encoded) e ∧
  encode_size (Varint.UInt 4) (len encoded) = Some (len vb) ∧ len e = len vb + len encoded + 4.
Proof.
  intros (Ha & E & Hf). destruct (Varint.write_total (len encoded)) as [vb Ev].
  exists (vb ++ encoded ++ CodecTypes.put_be 4 (crc32 (vb ++ encoded))), vb.
  assert (entry_bytes crc32 encoded = Some (vb ++ encoded ++ CodecTypes.put_be 4 (crc32 (vb ++ encoded)))) as Ee.
  { unfold entry_bytes. cbn [write Varint.UInt]. by rewrite Ev. }
  split_and!; [done|by split; [|exists encoded]| |].
  - cbn. f_equal. symmetry. by apply Varint.write_length; [apply Hf|].
  - rewrite !length_app, CodecTypes.length_put_be. lia.
Qed.

(** The bytes an append leaves. *)
Lemma content_append b s a size e : section_ok b s → entry a size e → ∃ c,
  Blob.content b ++ zeros (aligned (Blob.size b) - Blob.size b) ++ e = c ∧
  layout 0 (s.1 ++ [(aligned (Blob.size b) / 16, size, a)]) c.
Proof.
  intros [(c & z & E & Hl & Hz) _ _ _ _] He. eexists. split; [done|].
  inversion Hz as [k Hk Hle|]; subst z. assert (Blob.size b = len c + k) as Hs.
  { unfold Blob.size. rewrite E, length_app, length_replicate. lia. }
  rewrite E, Hs, (aligned_between (len c) (len c + k)) by lia. rewrite <- app_assoc, (app_assoc (zeros k)), <- replicate_add.
  replace (Z.to_nat k + Z.to_nat (aligned (len c) - (len c + k)))%nat with (Z.to_nat (aligned (len c) - len c)) by lia.
  exact (layout_snoc codec codec_config crc32 compress compression 0 s.1 c a size e Hl He).
Qed.

Lemma append_ok j L v a encoded : holds j L → fits 64 v → oldest_retained_section j ≤ v → storable a encoded → room j v encoded →
  let size := Blob.size (default Blob.empty (BTreeMap.get (blobs j) v)) in
  ∃ j', append j v a = (Ok (aligned size / 16, len encoded), j') ∧ oldest_retained_section j' = oldest_retained_section j ∧
    holds j' (BTreeMap.insert L v ((section L v).1 ++ [(aligned size / 16, len encoded, a)], (section L v).2)).
Proof.
  intros Hj Hv Ho Hst Hroom size. pose proof (section_rel j L v Hj) as Hs. destruct (entry_exists a encoded Hst) as (e & vb & Ee & He & Esz & Hlen).
  pose proof (entry_length codec codec_config crc32 compress decode_all compression _ _ _ He) as Hle. destruct Hst as (_ & Een & Hf). unfold room in Hroom. fold size in Hroom.
  unfold Journal.append. rewrite prune_guard_Ok by done. rewrite Een, (proj2 (fitsb_spec _ _)) by done. cbn [negb].
  set (b := default _ _) in *. unfold roomy in Hroom. pose proof (so_room _ _ Hs) as Hr. fold size in Hr. unfold roomy in Hr.
  pose proof (aligned_bounds size) as Hal. fold size. rewrite next_offset_roomy by (unfold roomy; lia). cbn [obind]. unfold ITEM_ALIGNMENT, checked_sub.
  rewrite <- aligned_mult, (proj2 (Z.leb_le _ _)) by lia. cbn [expect obind]. rewrite Ee. cbn [expect obind]. rewrite Esz. cbn [expect obind].
  rewrite Hlen, Z.eqb_refl. cbn [negb]. unfold Blob.append, checked_add. fold size.
  rewrite (proj2 (Z.ltb_lt _ _)) by (rewrite length_app, length_replicate; lia). cbn [runtime obind].
  eexists. split; [done|]. split; [done|]. cbn [blobs oldest_retained_section].
  rewrite BTreeMap.insert_insert. apply holds_insert; [done..|].
  destruct (content_append b (section L v) a (len encoded) e Hs He) as (c & Ec & Hl). fold size in Ec, Hl.
  destruct Hs as [_ (cs & Hcs & Hp) Hsy Hpre _]. split; cbn [Blob.content Blob.stored fst snd].
  - exists c, []. rewrite app_nil_r. split_and!; [done..|]. apply (tail_zeros _ _ _ _ _ _ 0); [lia|]. pose proof (aligned_bounds (len c)). lia.
  - exists cs. by rewrite take_app_le by done.
  - rewrite length_app. lia.
  - by apply prefix_app_r.
  - unfold Blob.size, roomy in *. cbn [Blob.content]. rewrite !length_app, length_replicate. unfold size, Blob.size in *. lia.
Qed.

(** ** The other operations *)

Definition synced (s : Section_) : Section_ := (s.1, length s.1).

Lemma sync_section b s : section_ok b s → section_ok (Blob.sync b) (synced s).
Proof.
  intros [(c & z & E & Hl & Hz) _ _ _ Hr]. split; cbn; [by exists c, z| |done|done|done].
  exists c. rewrite firstn_all, E. split; [done|]. by apply prefix_app_r.
Qed.

Definition log_sync L (v : Z) : Log := match BTreeMap.get L v with Some s => BTreeMap.insert L v (synced s) | None => L end.
Definition log_prune L (min : Z) : Log := filter (λ e, min ≤ e.1) L.
Definition log_close L : Log := (λ e, (e.1, synced e.2)) <$> L.

Lemma sync_ok j L v : holds j L → fits 64 v → oldest_retained_section j ≤ v →
  ∃ j', sync j v = Ok j' ∧ oldest_retained_section j' = oldest_retained_section j ∧ holds j' (log_sync L v).
Proof.
  intros Hj Hv Ho. unfold sync, log_sync. rewrite prune_guard_Ok by done. cbn [obind].
  pose proof (BTreeMap.related_get _ _ _ v (h_related _ _ Hj)) as Hr.
  destruct (BTreeMap.get (blobs j) v) as [b|], (BTreeMap.get L v) as [s|]; try done; (eexists; split_and!; [done..|]); [|done].
  apply holds_insert; [done..|]. by apply sync_section.
Qed.

Lemma prune_loop_filter (l : list (Z * Blob.Blob)) min pruned : BTreeMap.ascending l →
  prune_loop l min pruned = (filter (λ e, min ≤ e.1) l, pruned || existsb (λ e, e.1 <? min) l).
Proof.
  revert pruned. induction l as [|[k b] l IH]; intros pruned Hs; [by rewrite orb_false_r|]. cbn [prune_loop]. cbn in Hs.
  inversion Hs as [|? ? Hl Hk]; subst. destruct (Z.leb_spec min k).
  - assert (∀ e, e ∈ (k, b) :: l → min ≤ e.1) as Hall.
    { intros e [->|He]%elem_of_cons; [done|]. rewrite Forall_forall in Hk.
      specialize (Hk e.1 ltac:(by apply list_elem_of_fmap_2)). lia. }
    rewrite filter_id by done. f_equal.
    assert (existsb (λ e, e.1 <? min) ((k, b) :: l) = false) as ->; [|by rewrite orb_false_r].
    apply not_true_is_false. intros (e & He & Hlt%Z.ltb_lt)%existsb_exists. specialize (Hall e ltac:(by apply list_elem_of_In)). lia.
  - rewrite filter_cons_False by (cbn; lia). rewrite IH by done. f_equal. cbn. rewrite (proj2 (Z.ltb_lt _ _)) by lia. by rewrite orb_true_r.
Qed.
Lemma log_prune_ok j L min : holds j L →
  holds (prune j min).1 (log_prune L min) ∧
  (prune j min).2 = existsb (λ e, e.1 <? min) (blobs j) ∧
  oldest_retained_section (prune j min).1 = if existsb (λ k, k <? min) L.*1 then min else oldest_retained_section j.
Proof.
  intros [H1 H2 H3]. pose proof (BTreeMap.related_keys _ _ _ H1) as Hk. unfold prune.
  rewrite prune_loop_filter by (unfold BTreeMap.ascending; by rewrite Hk). cbn [orb fst snd oldest_retained_section].
  split_and!; [|done|].
  - split; cbn [blobs].
    + by apply (BTreeMap.related_filter _ (λ k, min ≤ k)).
    + by apply BTreeMap.filter_ascending.
    + apply Forall_forall. intros k (e & -> & [_ He]%list_elem_of_filter)%list_elem_of_fmap.
      rewrite Forall_forall in H3. apply H3. by apply list_elem_of_fmap_2.
  - rewrite <- Hk. assert (∀ l : list (Z * Blob.Blob), existsb (λ k, k <? min) l.*1 = existsb (λ e, e.1 <? min) l) as ->; [|done].
    intros l. induction l as [|e l IH]; [done|]. cbn. by rewrite IH.
Qed.

Lemma get_item j L v o s a : holds j L → oldest_retained_section j ≤ v → (o, s, a) ∈ (section L v).1 → get j v o = Ok a.
Proof.
  intros Hj Ho Hin. unfold Journal.get. rewrite prune_guard_Ok by done. cbn [obind].
  pose proof (BTreeMap.related_get _ _ _ v (h_related _ _ Hj)) as Hr. unfold section in Hin.
  destruct (BTreeMap.get (blobs j) v) as [b|], (BTreeMap.get L v) as [sec|]; try done; [|by apply elem_of_nil in Hin].
  destruct Hr as [(c & z & E & Hl & _) _ _ _ Hroom]. destruct (layout_lookup codec codec_config crc32 compress compression _ _ _ _ _ _ Hl Hin) as (c1 & e & c2 & -> & He & Hp).
  unfold roomy in Hroom. assert (len c1 + len e ≤ Blob.size b) by (unfold Blob.size; rewrite E, !length_app; lia).
  rewrite (read_entry codec codec_config crc32 compress decode_all compression b c1 a s e (c2 ++ z)); [|by rewrite E, <- !app_assoc|lia|done|lia].
  by rewrite next_offset_roomy by (unfold roomy; lia).
Qed.

(** ** Rewinding *)

(** The section [v] cut to the items [i1], which are synced, and no later section. *)
Definition log_rewind L (v : Z) (i1 : list item) : Log := BTreeMap.insert (filter (λ e, e.1 ≤ v) L) v (i1, length i1).

Lemma rewind_section_ok b i1 o s a i2 n : section_ok b (i1 ++ (o, s, a) :: i2, n) →
  o * 16 < Blob.size b ∧ section_ok (Blob.sync (Blob.resize b (o * 16))) (i1, length i1).
Proof.
  intros [(c & z & E & Hl & _) _ _ _ Hr]. destruct (layout_suffix codec codec_config crc32 compress compression _ _ _ _ Hl) as (c1 & c2 & -> & H1 & H2).
  inversion H2 as [|? ? ? e ? rest He]; subst. clear H2 Hl. change (0 + len c1) with (len c1) in *. rewrite <- aligned_mult.
  pose proof (entry_length codec codec_config crc32 compress decode_all compression _ _ _ He). pose proof (aligned_bounds (len c1)) as Hal.
  assert (aligned (len c1) < Blob.size b) as Hlt by (unfold Blob.size; rewrite E, !length_app, length_replicate; lia). split; [done|].
  assert (take (Z.to_nat (aligned (len c1))) (Blob.content b) = c1 ++ zeros (aligned (len c1) - len c1)) as Et.
  { rewrite E, <- !app_assoc, (app_assoc c1). apply take_app_length'. rewrite length_app, length_replicate. lia. }
  unfold Blob.sync, Blob.resize, Blob.vec_resize. unfold Blob.size in Hlt. rewrite Et. replace (Z.to_nat (aligned (len c1)) - length (Blob.content b))%nat with 0%nat by lia.
  cbn [replicate]. rewrite app_nil_r. split; cbn [Blob.content Blob.stored fst snd].
  - exists c1, (zeros (aligned (len c1) - len c1)). split_and!; [done..|]. constructor; lia.
  - exists c1. rewrite firstn_all. split; [done|]. by apply prefix_app_r.
  - done.
  - done.
  - unfold roomy, Blob.size in *. cbn [Blob.content]. rewrite length_app, length_replicate. lia.
Qed.

Lemma rewind_ok j L v i1 o s a i2 n : holds j L → fits 64 v → oldest_retained_section j ≤ v → BTreeMap.get L v = Some (i1 ++ (o, s, a) :: i2, n) →
  ∃ j1 j2, rewind_to_offset j v o = Ok j1 ∧ sync j1 v = Ok j2 ∧ oldest_retained_section j2 = oldest_retained_section j ∧ holds j2 (log_rewind L v i1).
Proof.
  intros [H1 H2 H3] Hv Ho E. unfold rewind_to_offset, rewind, ITEM_ALIGNMENT. rewrite prune_guard_Ok by done. cbn [obind].
  assert (BTreeMap.ascending (blobs j)) as Hb by (unfold BTreeMap.ascending; by rewrite (BTreeMap.related_keys _ _ _ H1)).
  assert (foldl BTreeMap.remove (blobs j) (rev (filter (λ e, v < e.1) (blobs j)).*1) = filter (λ e, e.1 ≤ v) (blobs j)) as ->.
  { destruct (BTreeMap.split_at (blobs j) v Hb) as (l & r & El & Hl & Hr). rewrite El in Hb |- *. rewrite BTreeMap.filter_above, BTreeMap.remove_above by done.
    by rewrite filter_app, BTreeMap.filter_upto, BTreeMap.filter_upto_nil, app_nil_r. }
  pose proof (BTreeMap.related_filter _ (λ k, k ≤ v) _ _ H1) as Hf. cbn beta in Hf.
  assert (BTreeMap.get (filter (λ e, e.1 ≤ v) L) v = BTreeMap.get L v) as Eg by by apply BTreeMap.get_upto.
  pose proof (BTreeMap.related_get _ _ _ v Hf) as Hg. rewrite Eg, E in Hg. destruct (BTreeMap.get (filter (λ e, e.1 ≤ v) (blobs j)) v) as [b|] eqn:Eb; [|done].
  destruct (rewind_section_ok b i1 o s a i2 n Hg) as [Hlt Hs]. unfold rewind_section. rewrite prune_guard_Ok by done. cbn [obind blobs oldest_retained_section]. rewrite Eb.
  rewrite (proj2 (Z.leb_gt _ _)) by done. eexists _, _. split; [done|]. unfold sync. rewrite prune_guard_Ok by done. cbn [obind blobs oldest_retained_section].
  rewrite BTreeMap.get_insert, decide_True by done. split; [done|]. split; [done|]. rewrite BTreeMap.insert_insert.
  apply (holds_insert (mkJournal (filter (λ e, e.1 ≤ v) (blobs j)) (oldest_retained_section j))); [|done|done]. split; [done|by apply BTreeMap.filter_ascending|].
  apply Forall_forall. intros k (e & -> & [_ He]%list_elem_of_filter)%list_elem_of_fmap. rewrite Forall_forall in H3. apply H3. by apply list_elem_of_fmap_2.
Qed.
End Log.
End JournalLog.
