(* ===== verification/JournalRecovery.v ===== *)
(** * Replay and recovery of the journal

    What the replay yields from any item on, and what a process that starts after
    a crash finds: of every section the synced items and some of those behind. *)

From S2P Require Import Prelude Codec Varint CodecTypes BTreeMap Blob Journal JournalLayout JournalLog.

Module JournalRecovery.
Import Journal JournalLayout JournalLog.
Notation len l := (Z.of_nat (length l)).

Section Recovery.
Context {V VCfg : Type} (codec : codec V VCfg) `{!Lawful codec} (codec_config : VCfg).
Context (crc32 : bytes → Z) (compress : Z → bytes → option bytes) (decode_all : bytes → option bytes).
Context `{!Storable crc32 compress decode_all} (compression : option Z).
Notation layout := (layout codec codec_config crc32 compress compression).
Notation tail := (tail codec codec_config crc32 compress compression).
Notation section_ok := (section_ok codec codec_config crc32 compress compression).
Notation holds := (holds codec codec_config crc32 compress compression).
Notation replay := (replay codec codec_config crc32 decode_all compression).
Notation replay_blobs := (replay_blobs codec codec_config crc32 decode_all compression).
Notation item := (item (V := V)).
Notation Log := (list (Z * Section_ (V := V))).
Implicit Types L : Log.

(** The bytes of a section that can be replayed. *)
Definition readable (b : Blob.Blob) (items : list item) (c : bytes) (broken : bool) : Prop :=
  ∃ t, Blob.content b = c ++ t ∧ layout 0 items c ∧ tail (len c) broken t ∧ roomy (Blob.size b).

Lemma section_readable b s : section_ok b s → ∃ c, readable b s.1 c false.
Proof. intros [(c & z & E & Hl & Hz) _ _ _ Hr]. by exists c, z. Qed.

(** ** Replay *)

Definition repair (b : Blob.Blob) (c : bytes) (broken : bool) : Blob.Blob :=
  if broken then Blob.sync (Blob.resize b (len c)) else b.

Lemma map_placed v (items : list item) : (λ '(o, size, item), (v, o, size, item)) <$> items = placed v <$> items.
Proof. apply list_fmap_ext. by intros _ [[o s] x] _. Qed.

Lemma replay_blobs_whole v b items c broken rest start offset : readable b items c broken → start ≤ v → (offset = 0 ∨ start ≠ v) →
  replay_blobs ((v, b) :: rest) start offset =
    ('(items', e, blobs) ← replay_blobs rest start offset; Some ((placed v <$> items) ++ items', e, (v, repair b c broken) :: blobs)).
Proof.
  intros (t & E & Hl & Ht & Hr) Hv Ho. cbn [Journal.replay_blobs]. rewrite (proj2 (Z.ltb_ge _ _)) by lia. rewrite next_offset_roomy by done.
  assert ((if v =? start then offset else 0) = 0) as -> by (destruct (Z.eqb_spec v start), Ho; lia).
  rewrite (replay_whole_section codec codec_config crc32 compress decode_all compression b items c t broken) by done.
  cbn [mbind option_bind]. rewrite map_placed. destruct broken; by destruct (replay_blobs rest start offset) as [[[? ?] ?]|].
Qed.
Lemma replay_blobs_skip v b rest start offset : v < start →
  replay_blobs ((v, b) :: rest) start offset = ('(items, e, blobs) ← replay_blobs rest start offset; Some (items, e, (v, b) :: blobs)).
Proof. intros. cbn [Journal.replay_blobs]. by rewrite (proj2 (Z.ltb_lt _ _)) by lia. Qed.

Lemma replay_blobs_from v b i1 i2 n rest offset : section_ok b (i1 ++ i2, n) →
  match i2 with i :: _ => offset = i.1.1 | [] => i1 = [] ∧ offset = 0 end →
  replay_blobs ((v, b) :: rest) v offset =
    ('(items', e, blobs) ← replay_blobs rest v offset; Some ((placed v <$> i2) ++ items', e, (v, b) :: blobs)).
Proof.
  intros [(c & z & E & Hl & Hz) _ _ _ Hr] Ho. cbn [fst] in Hl. destruct (layout_suffix codec codec_config crc32 compress compression _ _ _ _ Hl) as (c1 & c2 & -> & H1 & H2).
  cbn [Journal.replay_blobs]. rewrite Z.ltb_irrefl, next_offset_roomy, Z.eqb_refl by done. rewrite <- app_assoc in E.
  rewrite (replay_section_layout codec codec_config crc32 compress decode_all compression b c1 i2 c2 z false offset); [|done|exact H2|by rewrite length_app, Nat2Z.inj_add in Hz|done| |].
  - cbn [mbind option_bind ending]. rewrite map_placed. by destruct (replay_blobs rest v offset) as [[[? ?] ?]|].
  - destruct i2 as [|[[o s] a] i2]; [|by inversion H2; subst]. destruct Ho as [-> ->].
    rewrite (layout_det codec codec_config crc32 compress compression _ _ _ _ H1 (layout_nil _ _ _ _ _ _)). done.
  - destruct i2 as [|[[o s] a] i2].
    + destruct Ho as [-> ->]. rewrite (layout_det codec codec_config crc32 compress compression _ _ _ _ H1 (layout_nil _ _ _ _ _ _)).
      change (aligned (len [])) with 0. unfold roomy in Hr. lia.
    + inversion H2 as [|? ? ? e ? rest' He]; subst. unfold Blob.size. rewrite E, !length_app, !Nat2Z.inj_add, len_zeros. change (0 + len c1) with (len c1). lia.
Qed.

Lemma check_sizes_Ok (entries : list (Z * Blob.Blob)) start : Forall (λ e, roomy (Blob.size e.2)) entries → check_sizes entries start = Ok tt.
Proof.
  induction 1 as [|[v b] entries Hr _ IH]; [done|]. cbn in *. destruct (v <? start); [done|]. by rewrite next_offset_roomy by done.
Qed.

Lemma replay_blobs_intact (entries : list (Z * Blob.Blob)) L start offset : BTreeMap.related section_ok entries L →
  Forall (λ k, start ≤ k ∧ (offset = 0 ∨ start ≠ k)) L.*1 → replay_blobs entries start offset = Some (listing L, None, entries).
Proof.
  induction 1 as [|[v b] [v' s] entries L [E Hb] _ IH]; [done|]. cbn in E, Hb. subst v'. rewrite fmap_cons. intros [[Hv Ho] Hk]%Forall_cons. cbn [fst] in Hv, Ho.
  destruct (section_readable b s Hb) as [c Hc]. rewrite (replay_blobs_whole v b s.1 c false) by done. by rewrite IH.
Qed.

Lemma holds_room j L : holds j L → Forall (λ e, roomy (Blob.size e.2)) (blobs j).
Proof. intros [H _ _]. induction H as [|? ? ? ? [_ Hb] _ IH]; constructor; [by eapply so_room|done]. Qed.

Lemma replay_ok j L : holds j L → replay j 0 0 = Ok (listing L, None, j).
Proof.
  intros Hj. unfold Journal.replay. rewrite check_sizes_Ok by by eapply holds_room. cbn [obind].
  rewrite (replay_blobs_intact _ L); [by destruct j|apply Hj|]. eapply Forall_impl; [apply Hj|]. unfold fits. lia.
Qed.

(** The sections behind [v]. *)
Definition later L (v : Z) : Log := filter (λ e, v < e.1) L.
Lemma later_cons L v k s : k ≤ v → later ((k, s) :: L) v = later L v.
Proof. intros. apply filter_cons_False. cbn. lia. Qed.
Lemma later_all L v : Forall (λ k, v < k) L.*1 → later L v = L.
Proof. intros H. apply filter_id. intros x Hx. rewrite Forall_forall in H. apply H. by apply list_elem_of_fmap_2. Qed.

Lemma replay_from j L v i1 i2 n offset : holds j L → BTreeMap.get L v = Some (i1 ++ i2, n) →
  match i2 with i :: _ => offset = i.1.1 | [] => i1 = [] ∧ offset = 0 end →
  replay j v offset = Ok ((placed v <$> i2) ++ listing (later L v), None, j).
Proof.
  intros Hj HL Ho. unfold Journal.replay. rewrite check_sizes_Ok by by eapply holds_room. cbn [obind].
  destruct Hj as [Hr Ha _]. enough (replay_blobs (blobs j) v offset = Some ((placed v <$> i2) ++ listing (later L v), None, blobs j)) as ->
    by by destruct j.
  induction Hr as [|[k b] [k' s] entries L [E Hb] Hr IH]; [done|]. cbn in E, Hb. subst k'. unfold BTreeMap.ascending in Ha. cbn in Ha. inversion Ha as [|? ? Hs Hf]; subst.
  cbn in HL. destruct (Z.eqb_spec k v) as [->|Hne].
  - injection HL as ->. rewrite (replay_blobs_from v b i1 i2 n) by done. rewrite later_cons by lia. rewrite later_all by done.
    rewrite (replay_blobs_intact entries L); [done|done|]. eapply Forall_impl; [exact Hf|]. cbn. lia.
  - assert (k < v) as Hlt.
    { rewrite Forall_forall in Hf. apply Hf, BTreeMap.get_keys. by exists (i1 ++ i2, n). }
    rewrite replay_blobs_skip by done. rewrite later_cons by lia. by rewrite IH.
Qed.

(** ** Recovery *)

(** What a crash leaves of a blob: what was on disk and any part of what was
    written since, in order. *)
Definition survives (b b' : Blob.Blob) : Prop :=
  Blob.stored b `prefix_of` Blob.content b' ∧ Blob.content b' `prefix_of` Blob.content b ∧ Blob.stored b' = Blob.content b'.
(** The partition the next process finds, in any order. *)
Definition crashed (before : list (Z * Blob.Blob)) (found : list (bytes * Blob.Blob)) : Prop :=
  ∃ after, BTreeMap.related survives before after ∧ found ≡ₚ (λ e, (CodecTypes.put_be 8 e.1, e.2)) <$> after.

(** A log of which a crash kept the synced items and some of the others. *)
Definition kept (s s' : Section_ (V := V)) : Prop := ∃ m, (s.2 ≤ m ≤ length s.1)%nat ∧ s' = (take m s.1, m).

Lemma survives_readable b s b' : section_ok b s → survives b b' →
  ∃ s' c broken, kept s s' ∧ readable b' s'.1 c broken ∧ length s'.1 = s'.2.
Proof.
  intros [(c & z & E & Hl & Hz) (cs & Hcs & Hp) Hn _ Hr] (H1 & [rest H2] & _).
  assert (Blob.content b' = take (length (Blob.content b')) (c ++ z)) as E' by (rewrite <- E, H2; by rewrite take_app_length).
  destruct (layout_cut codec codec_config crc32 compress compression 0 s.1 c z (length (Blob.content b')) s.2 cs Hl Hz Hn Hcs) as (m & c' & br & t & Hm & Ec & Hl' & Ht).
  { apply prefix_length in H1, Hp. lia. }
  exists (take m s.1, m), c', br. split; [by exists m|]. split.
  - exists t. split_and!; [by rewrite E', Ec|done|done|]. unfold roomy, Blob.size in *. rewrite H2, length_app in Hr. lia.
  - cbn. rewrite length_take. lia.
Qed.

Lemma repair_ok b items c broken : readable b items c broken → Blob.stored b = Blob.content b →
  section_ok (repair b c broken) (items, length items).
Proof.
  intros (t & E & Hl & Ht & Hr) Es. unfold repair. destruct broken.
  - assert (take (Z.to_nat (len c)) (Blob.content b) ++ replicate (Z.to_nat (len c) - length (Blob.content b)) (byte.of_Z 0) = c) as Ec.
    { rewrite Nat2Z.id, E, take_app_length, length_app. replace (length c - (length c + length t))%nat with 0%nat by lia. by rewrite app_nil_r. }
    unfold Blob.sync, Blob.resize, Blob.vec_resize. split; cbn [Blob.content Blob.stored fst snd]; rewrite ?Ec; [|exists c; by rewrite firstn_all|lia|done|].
    + exists c, []. rewrite app_nil_r. split_and!; [done..|]. apply (tail_zeros _ _ _ _ _ _ 0); [lia|]. pose proof (aligned_bounds (len c)). lia.
    + unfold roomy, Blob.size in *. cbn [Blob.content]. rewrite E, length_app in Hr. lia.
  - split; cbn [fst snd]; [by exists c, t| |lia|by rewrite Es|done]. exists c. rewrite firstn_all, Es, E. split; [done|]. by apply prefix_app_r.
Qed.

(** The replay of the blobs a crash left. *)
Lemma replay_blobs_crashed (before after : list (Z * Blob.Blob)) L : BTreeMap.related section_ok before L → BTreeMap.related survives before after →
  Forall (λ k, 0 ≤ k) L.*1 →
  ∃ L' blobs, replay_blobs after 0 0 = Some (listing L', None, blobs) ∧ BTreeMap.related section_ok blobs L' ∧
    BTreeMap.related kept L L' ∧ Forall (λ e, roomy (Blob.size e.2)) after.
Proof.
  intros H. revert after. induction H as [|[v b] [v' s] before L [E Hb] _ IH]; intros after Ha Hk.
  - inversion Ha; subst. exists [], []. split_and!; by try constructor.
  - cbn in E, Hb. subst v'. inversion Ha as [|? [v' b'] ? after' [E Hsv] Ha']; subst. cbn in E, Hsv. subst v'.
    rewrite fmap_cons in Hk. apply Forall_cons in Hk as [Hv Hk]. cbn in Hv. destruct (IH after' Ha' Hk) as (L' & bl & Er & Hbl & Hkept & Hroom).
    destruct (survives_readable b s b' Hb Hsv) as ([items n] & c & br & Hs' & Hread & Hlen). cbn [fst snd] in *. subst n.
    exists ((v, (items, length items)) :: L'), ((v, repair b' c br) :: bl). split_and!.
    + rewrite (replay_blobs_whole v b' items c br) by (try done; by left). by rewrite Er.
    + constructor; [|done]. split; [done|]. apply repair_ok; [done|apply Hsv].
    + by constructor.
    + constructor; [|done]. by destruct Hread as (? & _ & _ & _ & ?).
Qed.

(** The blobs opened from their names. *)
Lemma init_loop_spec l acc : Forall (fits 64) l.*1 →
  init_loop ((λ e : Z * Blob.Blob, (CodecTypes.put_be 8 e.1, e.2)) <$> l) acc = Ok (BTreeMap.insert_all acc l).
Proof.
  revert acc. induction l as [|[v b] l IH]; intros acc; cbn; [done|]. intros [Hv Hl]%Forall_cons.
  rewrite CodecTypes.length_put_be. cbn. rewrite CodecTypes.get_put_be, Z.mod_small by apply Hv. by apply IH.
Qed.
Lemma init_crashed before found : BTreeMap.ascending before → Forall (fits 64) before.*1 → crashed before found →
  ∃ after, BTreeMap.related survives before after ∧ init found = Ok (mkJournal after 0).
Proof.
  intros Hb Hf (after & Ha & Hp). exists after. split; [done|]. pose proof (BTreeMap.related_keys _ _ _ Ha) as Hk.
  apply Permutation_sym, Permutation_map_inv in Hp as (l & -> & Hp) || apply Permutation_map_inv in Hp as (l & -> & Hp).
  unfold init. change (map ?f l) with (f <$> l). rewrite init_loop_spec.
  - cbn [obind]. rewrite (BTreeMap.insert_all_permutation after l); [done| |by rewrite Hp]. unfold BTreeMap.ascending. by rewrite <- Hk.
  - rewrite <- Hp, <- Hk. done.
Qed.

Lemma kept_fits L L' : BTreeMap.related kept L L' → BTreeMap.ascending L → Forall (fits 64) L.*1 → BTreeMap.ascending L' ∧ Forall (fits 64) L'.*1.
Proof. intros H Ha Hf. unfold BTreeMap.ascending. by rewrite <- (BTreeMap.related_keys _ _ _ H). Qed.

(** The next process replays the synced items and some of the others, after which
    the journal is in order again. *)
Lemma log_restart_ok j L found : holds j L → crashed (blobs j) found → ∃ j0 L' j',
  init found = Ok j0 ∧ replay j0 0 0 = Ok (listing L', None, j') ∧ holds j' L' ∧ BTreeMap.related kept L L' ∧ oldest_retained_section j' = 0.
Proof.
  intros [H1 H2 H3] Hc. pose proof (BTreeMap.related_keys _ _ _ H1) as Hk.
  destruct (init_crashed (blobs j) found) as (after & Ha & E); [unfold BTreeMap.ascending; by rewrite Hk|by rewrite Hk|done|].
  destruct (replay_blobs_crashed _ _ L H1 Ha) as (L' & bl & Er & Hbl & Hkept & Hroom); [eapply Forall_impl; [exact H3|unfold fits; lia]|].
  destruct (kept_fits L L' Hkept H2 H3) as [H2' H3'].
  exists (mkJournal after 0), L', (mkJournal bl 0). split_and!; [done| |by split|done|done].
  unfold Journal.replay. cbn [blobs]. rewrite check_sizes_Ok by done. cbn [obind]. by rewrite Er.
Qed.

(** After [close] nothing is lost. *)
Lemma close_ok j L : holds j L → BTreeMap.related section_ok (close j) (log_close L).
Proof.
  intros [H _ _]. unfold close, log_close. induction H as [|[v b] [v' s] bl L [E Hb] _ IH]; [constructor|]. constructor; [|done].
  split; [done|]. by apply sync_section.
Qed.
Lemma close_holds j L : holds j L → holds (mkJournal (close j) (oldest_retained_section j)) (log_close L).
Proof.
  intros H. assert ((log_close L).*1 = L.*1) as E by (unfold log_close; rewrite <- list_fmap_compose; by apply list_fmap_ext).
  destruct H as [H1 H2 H3]. split; [by apply close_ok|unfold BTreeMap.ascending; by rewrite E|by rewrite E].
Qed.
End Recovery.
End JournalRecovery.
