(* ===== verification/JournalProperties.v ===== *)
(** * The guarantees of the journal

    A journal that was used in any way, crashes included, reads back what it was
    given, and keeps what was synced.  Last, the behaviour of a replay from the end
    of a section that a crash left torn. *)

From S2P Require Import Prelude Codec Varint CodecTypes BTreeMap Blob Journal JournalLayout JournalLog JournalRecovery.

Module JournalProperties.
Import Journal JournalLayout JournalLog JournalRecovery.
Notation len l := (Z.of_nat (length l)).

Section Spec.
Context {V VCfg : Type} (codec : codec V VCfg) `{!Lawful codec} (codec_config : VCfg).
Context (crc32 : bytes → Z) (compress : Z → bytes → option bytes) (decode_all : bytes → option bytes).
Context `{!Storable crc32 compress decode_all} (compression : option Z).
Notation holds := (holds codec codec_config crc32 compress compression).
Notation append := (append codec crc32 compress compression).
Notation get := (get codec codec_config crc32 decode_all compression).
Notation replay := (replay codec codec_config crc32 decode_all compression).
Notation storable := (storable codec codec_config compress compression).
Notation entry := (entry codec codec_config crc32 compress compression).
Notation layout := (layout codec codec_config crc32 compress compression).
Notation readable := (readable codec codec_config crc32 compress compression).
Notation Log := (list (Z * Section_ (V := V))).
Implicit Types L : Log.

(** The journals of a program that respects the size of a section and syncs what it
    rewinds, with the items it appended, the offsets and sizes it was told, and how
    many of them it synced.  Closing syncs every section; after a crash the log is
    what the replay returned. *)
Inductive reached : Journal → Log → Prop :=
| reached_empty : reached (mkJournal [] 0) []
| reached_append j L v a encoded o s j' : reached j L → fits 64 v → storable a encoded → room j v encoded →
    append j v a = (Ok (o, s), j') → reached j' (BTreeMap.insert L v ((section L v).1 ++ [(o, s, a)], (section L v).2))
| reached_sync j L v j' : reached j L → fits 64 v → sync j v = Ok j' → reached j' (log_sync L v)
| reached_prune j L min : reached j L → reached (prune j min).1 (log_prune L min)
| reached_rewind j L v i1 o s a i2 n j1 j' : reached j L → fits 64 v → BTreeMap.get L v = Some (i1 ++ (o, s, a) :: i2, n) →
    rewind_to_offset j v o = Ok j1 → sync j1 v = Ok j' → reached j' (log_rewind L v i1)
| reached_close j L : reached j L → reached (mkJournal (close j) (oldest_retained_section j)) (log_close L)
| reached_crash j L found j0 L' j' : reached j L → crashed (blobs j) found → init found = Ok j0 →
    BTreeMap.related kept L L' → replay j0 0 0 = Ok (listing L', None, j') → reached j' L'.

(** The replay determines the log. *)
Lemma listing_above L k : Forall (λ k', k < k') L.*1 → filter (λ i : Z * Z * Z * V, i.1.1.1 = k) (listing L) = [].
Proof.
  induction L as [|[k' s] L IH]; intros H; [done|]. rewrite fmap_cons in H. apply Forall_cons in H as [Hk H]. cbn in Hk.
  change (listing ((k', s) :: L)) with ((placed k' <$> s.1) ++ listing L). rewrite filter_app, IH, app_nil_r by done.
  clear IH. induction s.1 as [|i l IHl]; [done|]. rewrite fmap_cons, filter_cons_False; [done|]. cbn. lia.
Qed.
Lemma listing_section k (l : list (Z * Z * V)) : filter (λ i : Z * Z * Z * V, i.1.1.1 = k) (placed k <$> l) = placed k <$> l.
Proof. apply filter_id. by intros i (x & -> & _)%list_elem_of_fmap. Qed.
Lemma placed_inj k : Inj (=) (=) (placed (V := V) k).
Proof. intros [[o s] a] [[o' s'] a']. unfold placed. cbn. congruence. Qed.

Lemma listing_inj L1 L2 : L1.*1 = L2.*1 → BTreeMap.ascending L1 → (∀ x, x ∈ L1 → length x.2.1 = x.2.2) → (∀ x, x ∈ L2 → length x.2.1 = x.2.2) →
  listing L1 = listing L2 → L1 = L2.
Proof.
  revert L2. induction L1 as [|[k s1] L1 IH]; intros [|[k' s2] L2] Hk Ha H1 H2 E; try done. cbn in Hk. injection Hk as <- Hk.
  unfold BTreeMap.ascending in Ha. cbn in Ha. inversion Ha as [|? ? Hs Hf]; subst.
  change ((placed k <$> s1.1) ++ listing L1 = (placed k <$> s2.1) ++ listing L2) in E.
  assert (placed k <$> s1.1 = placed k <$> s2.1) as Es.
  { pose proof (f_equal (filter (λ i : Z * Z * Z * V, i.1.1.1 = k)) E) as E'. rewrite !filter_app, !listing_section, !listing_above, !app_nil_r in E' by first [exact Hf|rewrite <- Hk; exact Hf].
    done. }
  pose proof (H1 _ (list_elem_of_here _ _)) as L1'. pose proof (H2 _ (list_elem_of_here _ _)) as L2'. cbn in L1', L2'.
  destruct s1 as [i1 n1], s2 as [i2 n2]; cbn in *. pose proof (placed_inj k). apply (list_fmap_eq_inj (placed k)) in Es; [|done]. subst.
  f_equal. apply app_inv_head in E. apply IH; [done..| | |done]; intros x Hx; [apply H1|apply H2]; by right.
Qed.

Lemma reached_holds j L : reached j L → holds j L.
Proof.
  induction 1 as [|j L v a encoded o s j' _ IH Hv Hst Hroom E|j L v j' _ IH Hv E|j L min _ IH|j L v i1 o s a i2 n j1 j' _ IH Hv EL E1 E2|j L _ IH|j L found j0 L' j' _ IH Hc Ei Hk Er].
  - split; [constructor|by constructor|by constructor].
  - destruct (Z.lt_ge_cases v (oldest_retained_section j)) as [Hlt|Hge].
    { unfold Journal.append in E. by rewrite prune_guard_Err in E. }
    destruct (append_ok codec codec_config crc32 compress decode_all compression j L v a encoded IH Hv Hge Hst Hroom) as (j1 & E1 & _ & H1).
    rewrite E1 in E. by injection E as <- <- <-.
  - destruct (Z.lt_ge_cases v (oldest_retained_section j)) as [Hlt|Hge].
    { unfold sync in E. by rewrite prune_guard_Err in E. }
    destruct (sync_ok codec codec_config crc32 compress compression j L v IH Hv Hge) as (j1 & E1 & _ & H1). rewrite E1 in E. by injection E as <-.
  - by apply log_prune_ok.
  - destruct (Z.lt_ge_cases v (oldest_retained_section j)) as [Hlt|Hge].
    { unfold rewind_to_offset, rewind in E1. by rewrite prune_guard_Err in E1. }
    destruct (rewind_ok codec codec_config crc32 compress decode_all compression j L v i1 o s a i2 n IH Hv Hge EL) as (j3 & j4 & E3 & E4 & _ & H).
    rewrite E1 in E3. injection E3 as <-. rewrite E2 in E4. by injection E4 as <-.
  - by apply close_holds.
  - destruct (log_restart_ok codec codec_config crc32 compress decode_all compression j L found IH Hc) as (j1 & L1 & j2 & E1 & E2 & H2 & Hk1 & _).
    rewrite Ei in E1. injection E1 as <-. rewrite Er in E2. injection E2 as El <-.
    assert (∀ L1 : Log, BTreeMap.related kept L L1 → ∀ x, x ∈ L1 → length x.2.1 = x.2.2) as Hlen.
    { clear. induction 1 as [|[k s] [k' s'] L L1 [E (m & Hm & Es)] _ IH]; [by intros x ?%elem_of_nil|]. intros x [->|Hx]%elem_of_cons; [|by apply IH].
      cbn in *. subst s'. cbn. rewrite length_take. lia. }
    rewrite (listing_inj L' L1); [done| |apply (kept_fits L L' Hk (h_ascending _ _ _ _ _ _ _ IH) (h_fits _ _ _ _ _ _ _ IH))|by apply Hlen..|done].
    by rewrite <- (BTreeMap.related_keys _ _ _ Hk), <- (BTreeMap.related_keys _ _ _ Hk1).
Qed.

(** C7: a journal gives back what it was given.  After any appends, syncs, prunings,
    rewinds and crashes an item that can be stored can be appended to any section that has
    room and was not pruned; every item of the log is read at its offset, and the
    errors are the documented ones; rewinding to an item and syncing leaves exactly the
    items before it; and the replay from the start, or from any
    item, returns every item from there on in order and changes nothing. *)
Theorem journal_reads_back j L : reached j L →
  (∀ v a encoded, fits 64 v → storable a encoded → room j v encoded →
    if v <? oldest_retained_section j then append j v a = (Err (JAlreadyPruned (oldest_retained_section j)), j)
    else ∃ o j', append j v a = (Ok (o, len encoded), j')) ∧
  (∀ v i1 o s a i2 n, fits 64 v → BTreeMap.get L v = Some (i1 ++ (o, s, a) :: i2, n) → oldest_retained_section j ≤ v →
    ∃ j1 j', rewind_to_offset j v o = Ok j1 ∧ sync j1 v = Ok j' ∧ reached j' (log_rewind L v i1)) ∧
  (∀ v o, if v <? oldest_retained_section j then get j v o = Err (JAlreadyPruned (oldest_retained_section j))
    else match BTreeMap.get L v with
      | None => get j v o = Err (JSectionOutOfRange v)
      | Some s => ∀ size a, (o, size, a) ∈ s.1 → get j v o = Ok a
      end) ∧
  replay j 0 0 = Ok (listing L, None, j) ∧
  (∀ v i1 o s a i2 n, BTreeMap.get L v = Some (i1 ++ (o, s, a) :: i2, n) →
    replay j v o = Ok ((placed v <$> (o, s, a) :: i2) ++ listing (later L v), None, j)).
Proof.
  intros Hr. pose proof (reached_holds j L Hr) as Hj. split_and!.
  - intros v a encoded Hv Hst Hroom. destruct (Z.ltb_spec v (oldest_retained_section j)) as [Hlt|Hge].
    + unfold Journal.append. by rewrite prune_guard_Err.
    + destruct (append_ok codec codec_config crc32 compress decode_all compression j L v a encoded Hj Hv Hge Hst Hroom) as (j1 & E1 & _). eauto.
  - intros v i1 o s a i2 n Hv EL Hge.
    destruct (rewind_ok codec codec_config crc32 compress decode_all compression j L v i1 o s a i2 n Hj Hv Hge EL) as (j1 & j2 & E1 & E2 & _).
    exists j1, j2. split_and!; [done..|]. by eapply reached_rewind.
  - intros v o. destruct (Z.ltb_spec v (oldest_retained_section j)) as [Hlt|Hge].
    + unfold Journal.get. by rewrite prune_guard_Err.
    + destruct (BTreeMap.get L v) as [s|] eqn:E.
      * intros size a Hin. eapply (get_item codec codec_config crc32 compress decode_all compression); [exact Hj|done|]. unfold section. rewrite E. exact Hin.
      * unfold Journal.get. rewrite prune_guard_Ok by done. cbn [obind]. pose proof (BTreeMap.related_get _ _ _ v (h_related _ _ _ _ _ _ _ Hj)) as Hg.
        rewrite E in Hg. by destruct (BTreeMap.get (blobs j) v).
  - by apply (replay_ok codec codec_config crc32 compress decode_all compression).
  - intros v i1 o s a i2 n E. by apply (replay_from codec codec_config crc32 compress decode_all compression j L v i1 ((o, s, a) :: i2) n).
Qed.

(** C6: a crash loses nothing that was synced.  Whatever prefix of the unsynced bytes
    of every blob survives, and in whatever order the blobs are found, the next
    process opens the journal; its replay returns, of every section, all the
    synced items and some of those behind, without an error, and the journal can be
    used again. *)
Theorem journal_recovers j L found : reached j L → crashed (blobs j) found → ∃ j0 L' j',
  init found = Ok j0 ∧ replay j0 0 0 = Ok (listing L', None, j') ∧ BTreeMap.related kept L L' ∧ reached j' L'.
Proof.
  intros Hr Hc. destruct (log_restart_ok codec codec_config crc32 compress decode_all compression j L found (reached_holds j L Hr) Hc) as (j0 & L' & j' & E1 & E2 & _ & Hk & _).
  exists j0, L', j'. split_and!; [done..|]. by eapply reached_crash.
Qed.

(** C36: a replay that starts behind the last whole item of a section erases the
    section if a crash left part of an item there: the blob is cut to no bytes at
    all, and not to the end of the last valid item, where the replay from the start
    of the section cuts it. *)
Theorem torn_section_erased v b old items c : readable b items c true → items ≠ [] →
  replay (mkJournal [(v, b)] old) v 0 = Ok (placed v <$> items, None, mkJournal [(v, Blob.sync (Blob.mkBlob c []))] old) ∧
  replay (mkJournal [(v, b)] old) v (aligned (len c) / 16) = Ok ([], None, mkJournal [(v, Blob.empty)] old).
Proof.
  intros Hread Hne. pose proof Hread as (t & E & Hl & Ht & Hr). unfold Journal.replay. cbn [blobs].
  rewrite check_sizes_Ok by by constructor. cbn [obind]. assert (0 < len c) as Hc.
  { pose proof (layout_count codec codec_config crc32 compress decode_all compression _ _ _ Hl). destruct items; [done|]. cbn in *. lia. }
  split.
  - rewrite (replay_blobs_whole codec codec_config crc32 compress decode_all compression v b items c true) by (try done; by left).
    cbn [Journal.replay_blobs mbind option_bind expect obind]. rewrite app_nil_r. unfold repair, Blob.sync, Blob.resize, Blob.vec_resize. cbn [Blob.content].
    rewrite Nat2Z.id, E, take_app_length, length_app. replace (length c - (length c + length t))%nat with 0%nat by lia. by rewrite app_nil_r.
  - cbn [Journal.replay_blobs]. rewrite Z.ltb_irrefl, next_offset_roomy, Z.eqb_refl by done.
    assert (len c + len t = Blob.size b) as Hs by (unfold Blob.size; rewrite E, length_app; lia).
    rewrite (replay_section_layout codec codec_config crc32 compress decode_all compression b c [] [] t true); [done|done|constructor| |done|done|].
    + cbn [length]. by rewrite Z.add_0_r.
    + pose proof (aligned_bounds (len c)). inversion Ht; subst. rewrite length_app, length_replicate in Hs. lia.
Qed.
End Spec.

(** ** Evaluation on a concrete journal *)

Section Demo.
Definition demo_codec : codec Z unit := CodecTypes.unsigned 1.
#[local] Instance demo_lawful : Lawful demo_codec := CodecTypes.unsigned_lawful 1.
Definition demo_crc (b : bytes) : Z := CodecTypes.get_be b mod 2 ^ 32.
Definition demo_compress (level : Z) (b : bytes) : option bytes := Some (rev b).
Definition demo_decompress (b : bytes) : option bytes := Some (rev b).
#[global] Instance demo_storable : Storable demo_crc demo_compress demo_decompress.
Proof.
  split; [intros b; apply Z.mod_pos_bound; lia|]. unfold demo_compress, demo_decompress. intros level b c [= <-]. by rewrite rev_involutive.
Qed.
Notation demo_append := (append demo_codec demo_crc demo_compress (Some 3)).
Notation demo_replay := (replay demo_codec tt demo_crc demo_decompress (Some 3)).
Notation demo_reached := (reached demo_codec tt demo_crc demo_compress demo_decompress (Some 3)).
Notation byte n := (byte.of_Z n).

(** Item 7 of section 2 is synced, item 8 is not, and a crash loses half of it. *)
Definition demo1 : Journal := (demo_append (mkJournal [] 0) 2 7).2.
Definition demo2 : Journal := default demo1 (match sync demo1 2 with Ok j => Some j | _ => None end).
Definition demo3 : Journal := (demo_append demo2 2 8).2.
Definition demo_log : list (Z * Section_) := [(2, ([(0, 1, 7); (1, 1, 8)], 1%nat))].
Definition demo_left : bytes := take 20 (Blob.content (default Blob.empty (BTreeMap.get (blobs demo3) 2))).
Definition demo_found : list (bytes * Blob.Blob) := [(CodecTypes.put_be 8 2, Blob.mkBlob demo_left demo_left)].

Lemma demo_fits a : fits 8 a → storable demo_codec tt demo_compress (Some 3) a [byte a].
Proof. intros H. split; [exact H|]. split; [reflexivity|]. split; cbn; lia. Qed.

Lemma demo3_reached : demo_reached demo3 demo_log.
Proof.
  assert (demo_reached demo1 [(2, ([(0, 1, 7)], 0%nat))]) as H1.
  { refine (reached_append demo_codec tt demo_crc demo_compress demo_decompress (Some 3) (mkJournal [] 0) [] 2 7 [byte 7] 0 1 demo1 (reached_empty _ _ _ _ _ _) _ (demo_fits 7 _) _ _);
      [done|done|split; vm_compute; done|vm_compute; reflexivity]. }
  assert (demo_reached demo2 [(2, ([(0, 1, 7)], 1%nat))]) as H2.
  { refine (reached_sync demo_codec tt demo_crc demo_compress demo_decompress (Some 3) demo1 _ 2 demo2 H1 _ _); [done|vm_compute; reflexivity]. }
  refine (reached_append demo_codec tt demo_crc demo_compress demo_decompress (Some 3) demo2 _ 2 8 [byte 8] 1 1 demo3 H2 _ (demo_fits 8 _) _ _);
    [done|done|split; vm_compute; done|vm_compute; reflexivity].
Qed.

Lemma journal_reads_back_witness :
  demo_replay demo3 0 0 = Ok ([(2, 0, 1, 7); (2, 1, 1, 8)], None, demo3) ∧
  get demo_codec tt demo_crc demo_decompress (Some 3) demo3 2 1 = Ok 8 ∧
  demo_replay demo3 2 1 = Ok ([(2, 1, 1, 8)], None, demo3).
Proof.
  destruct (journal_reads_back demo_codec tt demo_crc demo_compress demo_decompress (Some 3) demo3 demo_log demo3_reached) as (_ & _ & Hg & Hr & Hf).
  split; [exact Hr|]. split; [|exact (Hf 2 [(0, 1, 7)] 1 1 8 [] 1%nat eq_refl)].
  specialize (Hg 2 1). cbn [Z.ltb] in Hg. apply (Hg 1). right. left.
Defined.

Lemma demo_crashed : crashed (blobs demo3) demo_found.
Proof.
  exists [(2, Blob.mkBlob demo_left demo_left)]. split; [|done]. constructor; [|constructor]. split; [done|]. unfold survives.
  split; [|split; [|done]].
  - exists (drop 6 demo_left). vm_compute. reflexivity.
  - exists (drop 20 (Blob.content (default Blob.empty (BTreeMap.get (blobs demo3) 2)))). vm_compute. reflexivity.
Qed.
Lemma journal_recovers_witness : ∃ j0 L' j', init demo_found = Ok j0 ∧ demo_replay j0 0 0 = Ok (listing L', None, j') ∧
  BTreeMap.related kept demo_log L' ∧ demo_reached j' L'.
Proof. exact (journal_recovers demo_codec tt demo_crc demo_compress demo_decompress (Some 3) demo3 demo_log demo_found demo3_reached demo_crashed). Defined.
(** In this crash one item is left. *)
Example demo_recovered :
  (let? j := init demo_found in let? (items, e, _) := demo_replay j 0 0 in Ok (items, e)) = Ok ([(2, 0, 1, 7)], None).
Proof. vm_compute. reflexivity. Qed.

Definition demo_entry (a : Z) : bytes := default [] (entry_bytes demo_crc [byte a]).
Lemma demo_entry_ok a : fits 8 a → entry demo_codec tt demo_crc demo_compress (Some 3) a 1 (demo_entry a).
Proof. intros H. split; [exact H|]. exists [byte a]. split; [reflexivity|]. split; [done|]. split; [done|reflexivity]. Qed.
Lemma demo_readable : readable demo_codec tt demo_crc demo_compress (Some 3) (Blob.mkBlob demo_left demo_left) [(0, 1, 7)] (demo_entry 7) true.
Proof.
  exists (drop 6 demo_left). split; [vm_compute; reflexivity|]. split.
  { exact (layout_cons demo_codec tt demo_crc demo_compress (Some 3) 0 7 1 (demo_entry 7) [] [] (demo_entry_ok 7 ltac:(done)) (layout_nil _ _ _ _ _ _)). }
  split; [|split; vm_compute; done].
  exact (tail_broken demo_codec tt demo_crc demo_compress (Some 3) 6 8 1 (demo_entry 8) (take 4 (demo_entry 8)) (drop 4 (demo_entry 8))
    (demo_entry_ok 8 ltac:(done)) eq_refl ltac:(done) ltac:(done)).
Qed.
Lemma torn_section_erased_witness :
  demo_replay (mkJournal [(2, Blob.mkBlob demo_left demo_left)] 0) 2 1 = Ok ([], None, mkJournal [(2, Blob.empty)] 0).
Proof.
  exact (proj2 (torn_section_erased demo_codec tt demo_crc demo_compress demo_decompress (Some 3) 2 (Blob.mkBlob demo_left demo_left) 0
    [(0, 1, 7)] (demo_entry 7) demo_readable ltac:(done))).
Defined.
End Demo.
End JournalProperties.
