(* ===== verification/JournalDisk.v ===== *)
(** * The journal of the voter

    The voter's model keeps its journal as [VoterActor.Disk]: lists of artifacts,
    prefixes of which survive a crash.  Here the segmented journal, with artifacts
    encoded by their codec, is shown to implement it down to the bytes. *)

From S2P Require Import Prelude Codec Varint CodecTypes CodecRecords ConsensusTypes SimplexTypes Fixtures VoterActor BTreeMap Blob Journal JournalLayout JournalLog JournalRecovery JournalProperties.

Import CodecRecords SimplexCodec.

Module JournalDisk.
Import Journal JournalLayout JournalLog JournalRecovery.
Notation len l := (Z.of_nat (length l)).
Notation Disk := VoterActor.Disk.

Section Refinement.
Context {T : Types} {CCfg : Type} (artifact : codec Artifact CCfg) `{!Lawful artifact} (cfg : CCfg).
Context (crc32 : bytes → Z) (compress : Z → bytes → option bytes) (decode_all : bytes → option bytes).
Context `{!Storable crc32 compress decode_all} (compression : option Z).
Notation holds := (holds artifact cfg crc32 compress compression).
Notation append := (append artifact crc32 compress compression).
Notation replay := (replay artifact cfg crc32 decode_all compression).
Notation storable := (storable artifact cfg compress compression).
Notation Section_ := (Section_ (V := Artifact)).
Notation Log := (list (Z * Section_)).
Implicit Types (L : Log) (j : Journal) (d : Disk).

(** An effect of the voter on the journal; [None] is a failed [expect]. *)
Definition perform j (e : Effect) : option Journal :=
  match e with
  | EAppend v a => match append j v a with (Ok _, j) => Some j | _ => None end
  | ESync v => match sync j v with Ok j => Some j | _ => None end
  | EPrune min => Some (prune j min).1
  | EClose => Some (mkJournal (close j) (oldest_retained_section j))
  | _ => Some j
  end.

(** Artifacts can be encoded, views are [u64]s and sections do not outgrow their
    offsets (64 GiB). *)
Definition fitting j (e : Effect) : Prop :=
  match e with
  | EAppend v a => fits 64 v ∧ ∃ encoded, storable a encoded ∧ room j v encoded
  | ESync v => fits 64 v
  | _ => True
  end.

(** What a journal does over the lives of a voter: effects, and the artifacts a new
    process replays after a crash. *)
Inductive bytes_run : Journal → list (Effect + list Artifact) → Journal → Prop :=
| bytes_nil j : bytes_run j [] j
| bytes_effect j obs j1 e j2 : bytes_run j obs j1 → fitting j1 e → perform j1 e = Some j2 → bytes_run j (obs ++ [inl e]) j2
| bytes_restart j obs j1 found j0 items j2 : bytes_run j obs j1 → crashed (blobs j1) found → init found = Ok j0 →
    replay j0 0 0 = Ok (items, None, j2) → bytes_run j (obs ++ [inr (snd <$> items)]) j2.
Inductive disk_run : Disk → list (Effect + list Artifact) → Disk → Prop :=
| disk_nil d : disk_run d [] d
| disk_effect d obs d1 e d2 : disk_run d obs d1 → VoterActor.apply_effect d1 e = Some d2 → disk_run d (obs ++ [inl e]) d2
| disk_restart d obs d1 keep : disk_run d obs d1 →
    disk_run d (obs ++ [inr (VoterActor.replay_order (VoterActor.crash keep d1))]) (VoterActor.crash keep d1).

(** The artifacts of a log. *)
Definition artifacts (s : Section_) : list Artifact * nat := (snd <$> s.1, s.2).
Definition same L d : Prop := ∀ v, VoterActor.sections d !! v = artifacts <$> BTreeMap.get L v.
Definition implements j d : Prop := ∃ L, holds j L ∧ same L d ∧ VoterActor.oldest d = oldest_retained_section j.

Lemma same_section L d v : same L d → VoterActor.section d v = artifacts (section L v).
Proof. intros H. unfold VoterActor.section, section. rewrite H. by destruct (BTreeMap.get L v). Qed.

Lemma get_map {A B} (f : Z → A → B) (m : list (Z * A)) k : BTreeMap.get ((λ e : Z * A, (e.1, f e.1 e.2)) <$> m) k = f k <$> BTreeMap.get m k.
Proof. induction m as [|[k0 a] m IH]; [done|]. cbn. destruct (Z.eqb_spec k0 k) as [->|]; [done|exact IH]. Qed.
Lemma get_filter L (P : Z → Prop) `{!∀ k, Decision (P k)} k : BTreeMap.get (filter (λ e : Z * Section_, P e.1) L) k = if decide (P k) then BTreeMap.get L k else None.
Proof.
  induction L as [|[k0 s] L IH]; [by destruct (decide (P k))|]. rewrite filter_cons. cbn. destruct (decide (P k0)); cbn; rewrite IH.
  - destruct (Z.eqb_spec k0 k) as [->|]; [by rewrite decide_True|done].
  - destruct (Z.eqb_spec k0 k) as [->|]; [by case_decide|done].
Qed.

Lemma same_insert L d v s items n : same L d → artifacts s = (items, n) →
  same (BTreeMap.insert L v s) (VoterActor.mkDisk (<[v := (items, n)]> (VoterActor.sections d)) (VoterActor.oldest d)).
Proof.
  intros H E k. cbn. rewrite BTreeMap.get_insert. destruct (decide (v = k)) as [->|Hne].
  - rewrite lookup_insert_eq. by rewrite <- E.
  - by rewrite lookup_insert_ne.
Qed.

Lemma append_implements j d v a : implements j d → fitting j (EAppend v a) →
  match perform j (EAppend v a), VoterActor.append d v a with Some j', Some d' => implements j' d' | None, None => True | _, _ => False end.
Proof.
  intros (L & Hj & Hs & Ho) (Hv & encoded & Hst & Hroom). cbn. unfold VoterActor.append, VoterActor.prune_guard. rewrite Ho.
  destruct (Z.ltb_spec v (oldest_retained_section j)) as [Hlt|Hge]; cbn.
  - unfold Journal.append. by rewrite prune_guard_Err.
  - destruct (append_ok artifact cfg crc32 compress decode_all compression j L v a encoded Hj Hv Hge Hst Hroom) as (j' & -> & Eo & H).
    rewrite (same_section L d v Hs). cbn. eexists. split; [exact H|]. split; [|by rewrite Eo].
    rewrite <- Ho. apply same_insert; [done|]. unfold artifacts. cbn. by rewrite fmap_app.
Qed.
Lemma sync_implements j d v : implements j d → fits 64 v →
  match perform j (ESync v), VoterActor.sync d v with Some j', Some d' => implements j' d' | None, None => True | _, _ => False end.
Proof.
  intros (L & Hj & Hs & Ho) Hv. cbn. unfold VoterActor.sync, VoterActor.prune_guard. rewrite Ho.
  destruct (Z.ltb_spec v (oldest_retained_section j)) as [Hlt|Hge]; cbn.
  - unfold sync. by rewrite prune_guard_Err.
  - destruct (sync_ok artifact cfg crc32 compress compression j L v Hj Hv Hge) as (j' & -> & Eo & H).
    eexists. split; [exact H|]. split; [|by rewrite Eo]. intros k. cbn. unfold log_sync. pose proof (Hs v) as Ev.
    destruct (BTreeMap.get L v) as [s|] eqn:E; destruct (decide (v = k)) as [->|Hne].
    + rewrite lookup_alter_eq, Ev, BTreeMap.get_insert, decide_True by done. cbn. unfold artifacts. cbn. by rewrite length_fmap.
    + rewrite lookup_alter_ne, BTreeMap.get_insert, decide_False by done. apply Hs.
    + by rewrite lookup_alter_eq, Ev, E.
    + rewrite lookup_alter_ne by done. apply Hs.
Qed.
Lemma prune_implements j d min : implements j d → implements (prune j min).1 (VoterActor.prune d min).
Proof.
  intros (L & Hj & Hs & Ho). destruct (log_prune_ok artifact cfg crc32 compress compression j L min Hj) as (H & _ & Eo).
  eexists. split; [exact H|]. split.
  - intros k. cbn. unfold log_prune. rewrite (get_filter L (λ k, min ≤ k)), map_lookup_filter, Hs.
    destruct (BTreeMap.get L k) as [s|]; cbn; [|by case_decide]. unfold guard. by case_decide.
  - cbn. rewrite Eo, Ho. assert (existsb (λ k, k <? min) L.*1 = bool_decide (map_Exists (λ v _, v < min) (VoterActor.sections d))) as ->.
    + apply eq_bool_prop_intro. rewrite bool_decide_spec, map_Exists_lookup. rewrite Is_true_true, existsb_exists. setoid_rewrite Z.ltb_lt.
      setoid_rewrite <- list_elem_of_In. setoid_rewrite <- BTreeMap.get_keys. setoid_rewrite Hs. split.
      * intros (k & [s Es] & Hk). exists k, (artifacts s). by rewrite Es.
      * intros (k & x & E & Hk). exists k. split; [|done]. destruct (BTreeMap.get L k); [by eexists|done].
    + by case_bool_decide.
Qed.
Lemma close_implements j d : implements j d → implements (mkJournal (close j) (oldest_retained_section j)) (VoterActor.close d).
Proof.
  intros (L & Hj & Hs & Ho). exists (log_close L). split; [by apply close_holds|]. split; [|done]. intros k. cbn.
  rewrite lookup_fmap, Hs. unfold log_close. rewrite (get_map (λ _ s, synced s)). destruct (BTreeMap.get L k) as [s|]; [|done]. cbn.
  unfold artifacts. cbn. by rewrite length_fmap.
Qed.

Lemma effect_implements j d e : implements j d → fitting j e →
  match perform j e, VoterActor.apply_effect d e with Some j', Some d' => implements j' d' | None, None => True | _, _ => False end.
Proof.
  intros H Hf. destruct e; try exact H; [by apply append_implements|by apply sync_implements|by apply prune_implements|by apply close_implements].
Qed.

(** ** Replay and restart *)

Lemma merge_sort_ascending (l : list Z) : NoDup l → StronglySorted Z.lt (merge_sort Z.le l).
Proof.
  intros Hd. rewrite <- (merge_sort_Permutation Z.le l) in Hd. pose proof (StronglySorted_merge_sort Z.le l) as Hs.
  induction Hs as [|x xs Hs IH Hf]; [constructor|]. apply NoDup_cons in Hd as [Hx Hd]. constructor; [by apply IH|].
  rewrite Forall_forall in Hf |- *. intros y Hy. specialize (Hf y Hy). assert (x ≠ y) by (by intros ->). lia.
Qed.
Lemma replay_order_listing L d : same L d → BTreeMap.ascending L → VoterActor.replay_order d = snd <$> listing L.
Proof.
  intros Hs Ha. unfold VoterActor.replay_order.
  assert (merge_sort Z.le (elements (dom (VoterActor.sections d))) = L.*1) as ->.
  { apply sorted_elements_unique; [apply merge_sort_ascending, NoDup_elements|done|]. intros k.
    rewrite merge_sort_Permutation, elem_of_elements, elem_of_dom, Hs, fmap_is_Some. apply BTreeMap.get_keys. }
  assert (∀ x, x ∈ L → (VoterActor.section d x.1).1 = snd <$> x.2.1) as H.
  { intros [k s] Hx. apply BTreeMap.elem_of_get in Hx; [|done]. cbn [fst snd]. rewrite (same_section L d k Hs). exact (f_equal (λ o, snd <$> (default ([], 0%nat) o).1) Hx). }
  clear Hs Ha. induction L as [|[k s] L IH]; [done|]. cbn [map concat fmap list_fmap fst].
  change (listing ((k, s) :: L)) with ((placed k <$> s.1) ++ listing L). rewrite fmap_app. f_equal.
  - pose proof (H (k, s) (list_elem_of_here _ _)) as Hk. cbn [fst snd] in Hk. rewrite Hk, <- list_fmap_compose. by apply list_fmap_ext.
  - apply IH. intros x Hx. apply H. by right.
Qed.

Lemma restart_implements j d found : implements j d → crashed (blobs j) found → ∃ keep j0 items j',
  init found = Ok j0 ∧ replay j0 0 0 = Ok (items, None, j') ∧
  snd <$> items = VoterActor.replay_order (VoterActor.crash keep d) ∧ implements j' (VoterActor.crash keep d).
Proof.
  intros (L & Hj & Hs & Ho) Hc.
  destruct (log_restart_ok artifact cfg crc32 compress decode_all compression j L found Hj Hc) as (j0 & L' & j' & E1 & E2 & Hj' & Hk & Eo).
  set (keep := λ k, match BTreeMap.get L' k with Some s => s.2 | None => 0%nat end).
  assert (same L' (VoterActor.crash keep d)) as Hs'.
  { intros k. cbn. rewrite map_lookup_imap, Hs. pose proof (BTreeMap.related_get _ _ _ k Hk) as Hr. unfold keep.
    destruct (BTreeMap.get L k) as [s|], (BTreeMap.get L' k) as [s'|]; try done. destruct Hr as (m & Hm & ->). cbn.
    rewrite Nat.max_r by lia. unfold artifacts. cbn. rewrite <- fmap_take, length_fmap, length_take. by rewrite Nat.min_l by exact (proj2 Hm). }
  exists keep, j0, (listing L'), j'. split_and!; [done..| |by exists L'].
  symmetry. apply replay_order_listing; [done|apply Hj'].
Qed.

Lemma run_implements obs : ∀ j d j', implements j d → bytes_run j obs j' → ∃ d', disk_run d obs d' ∧ implements j' d'.
Proof.
  intros j d j' H Hr. induction Hr as [j|j obs j1 e j2 _ IH Hf E|j obs j1 found j0 items j2 _ IH Hc Ei Er].
  - exists d. by split; [constructor|].
  - destruct (IH H) as (d1 & Hd & H1). pose proof (effect_implements j1 d1 e H1 Hf) as He. rewrite E in He.
    destruct (VoterActor.apply_effect d1 e) as [d2|] eqn:E'; [|done]. exists d2. split; [by eapply disk_effect|done].
  - destruct (IH H) as (d1 & Hd & H1). destruct (restart_implements j1 d1 found H1 Hc) as (keep & j3 & items' & j4 & E1 & E2 & E3 & H2).
    rewrite Ei in E1. injection E1 as <-. rewrite Er in E2. injection E2 as <- <-.
    exists (VoterActor.crash keep d1). split; [|done]. rewrite E3. by apply disk_restart.
Qed.

Lemma empty_implements : implements (mkJournal [] 0) (VoterActor.mkDisk ∅ 0).
Proof. exists []. split; [by split; constructor|]. done. Qed.

(** C5: the segmented journal implements the disk of the voter's model.  Whatever
    the voter does to its journal and however often it dies, with any part of the
    unsynced bytes of every section lost, what its restarts replay is what the
    abstract disk allows; an effect fails on the bytes exactly when it fails on the
    disk; and after any crash the journal can be opened and replayed without an
    error. *)
Theorem journal_refines_disk obs j : bytes_run (mkJournal [] 0) obs j →
  ∃ d, disk_run (VoterActor.mkDisk ∅ 0) obs d ∧
    (∀ e, fitting j e → is_Some (perform j e) ↔ is_Some (VoterActor.apply_effect d e)) ∧
    ∀ found, crashed (blobs j) found → ∃ j0 items j', init found = Ok j0 ∧ replay j0 0 0 = Ok (items, None, j').
Proof.
  intros Hr. destruct (run_implements obs _ _ j empty_implements Hr) as (d & Hd & H). exists d. split_and!; [done| |].
  - intros e Hf. pose proof (effect_implements j d e H Hf) as He. destruct (perform j e), (VoterActor.apply_effect d e); try done.
  - intros found Hc. destruct (restart_implements j d found H Hc) as (_ & j0 & items & j' & E1 & E2 & _). eauto.
Qed.
End Refinement.

(** ** A concrete run *)

Section Demo.
#[local] Existing Instance Fixtures.types.
#[local] Instance u64_lawful : Lawful (Varint.UInt 8) := Varint.UInt_lawful 8 eq_refl.
Definition demo_certificates : codec Certificate (RangeCfg * unit) := CodecTypes.vec (Varint.UInt 8).
#[local] Instance demo_certificates_lawful : Lawful demo_certificates := CodecTypes.vec_lawful _.
Definition demo_signatures : codec Signature unit := Varint.UInt 8.
#[local] Instance demo_signatures_lawful : Lawful demo_signatures := u64_lawful.
Definition demo_digests : codec Digest unit := Varint.UInt 8.
#[local] Instance demo_digests_lawful : Lawful demo_digests := u64_lawful.
Definition demo_artifacts : codec Artifact (RangeCfg * unit) := SimplexCodec.artifact_codec demo_digests demo_signatures demo_certificates.
#[local] Instance demo_artifacts_lawful : Lawful demo_artifacts.
Proof. unfold demo_artifacts, SimplexCodec.artifact_codec. apply _. Defined.
Definition demo_cfg : RangeCfg * unit := (RangeCfg.from_range_to_inclusive 4, tt).
Notation demo_perform := (perform demo_artifacts JournalProperties.demo_crc JournalProperties.demo_compress None).

(** The certification of view 5 is journaled and synced, then the node dies. *)
Definition demo_artifact : Artifact := ACertification (Fixtures.rnd 5) true.
Definition demo_bytes : bytes := default [] (encode demo_artifacts demo_artifact).
Definition demo1 : Journal := default (mkJournal [] 0) (demo_perform (mkJournal [] 0) (EAppend 5 demo_artifact)).
Definition demo2 : Journal := default demo1 (demo_perform demo1 (ESync 5)).
Definition demo_found : list (bytes * Blob.Blob) := (λ e, (CodecTypes.put_be 8 e.1, e.2)) <$> blobs demo2.

Lemma demo_storable : storable demo_artifacts demo_cfg JournalProperties.demo_compress None demo_artifact demo_bytes.
Proof.
  assert (decode_cfg demo_artifacts demo_bytes demo_cfg = Ok demo_artifact) as E by (vm_compute; reflexivity).
  destruct (encode_decode demo_artifacts demo_cfg demo_artifact demo_bytes E) as [Ha _]. split; [exact Ha|]. split; [vm_compute; reflexivity|]. split; vm_compute; done.
Qed.
Lemma demo_bytes_run : bytes_run demo_artifacts demo_cfg JournalProperties.demo_crc JournalProperties.demo_compress JournalProperties.demo_decompress None
  (mkJournal [] 0) [inl (EAppend 5 demo_artifact); inl (ESync 5); inr [demo_artifact]] demo2.
Proof.
  refine (bytes_restart demo_artifacts demo_cfg _ _ _ None (mkJournal [] 0) [inl (EAppend 5 demo_artifact); inl (ESync 5)] demo2 demo_found demo2
    [(5, 0, Z.of_nat (length demo_bytes), demo_artifact)] demo2 _ _ _ _).
  - refine (bytes_effect demo_artifacts demo_cfg _ _ _ None (mkJournal [] 0) [inl (EAppend 5 demo_artifact)] demo1 (ESync 5) demo2 _ _ _); [|done|vm_compute; reflexivity].
    refine (bytes_effect demo_artifacts demo_cfg _ _ _ None (mkJournal [] 0) [] (mkJournal [] 0) (EAppend 5 demo_artifact) demo1 (bytes_nil _ _ _ _ _ _ _) _ _); [|vm_compute; reflexivity].
    split; [done|]. exists demo_bytes. split; [exact demo_storable|split; vm_compute; done].
  - exists (blobs demo2). split; [|done]. constructor; [|constructor]. split; [done|]. unfold survives. split_and!; done.
  - vm_compute. reflexivity.
  - vm_compute. reflexivity.
Qed.
Lemma journal_refines_disk_witness : ∃ d, disk_run (VoterActor.mkDisk ∅ 0) [inl (EAppend 5 demo_artifact); inl (ESync 5); inr [demo_artifact]] d.
Proof.
  destruct (journal_refines_disk demo_artifacts demo_cfg JournalProperties.demo_crc JournalProperties.demo_compress JournalProperties.demo_decompress None
    _ demo2 demo_bytes_run) as (d & Hd & _). exists d. exact Hd.
Defined.
End Demo.
End JournalDisk.
