(* ===== verification/MmrPosition.v ===== *)
(** * Positions and locations of a Merkle Mountain Range
      (storage/src/mmr/position.rs, storage/src/mmr/location.rs)

    A [Location] numbers the leaves of the range and a [Position] numbers its
    nodes; both wrap a [u64], here the [Z] they wrap.  [None] is a panic (an
    arithmetic overflow or a failed [expect]).

    The range of [n] leaves has [mmr_size n] nodes, and the leaf [n] is added at
    position [mmr_size n].  The references for the layout of the trees are in
    [MmrIterator]. *)

From S2P Require Import Prelude.

Module Mmr.

(** ** Operations *)

Definition MAX_POSITION : Z := 0x7FFFFFFFFFFFFFFE.
Definition MAX_LOCATION : Z := 0x3FFFFFFFFFFFFFFF.

Fixpoint pos_ones (p : positive) : Z :=
  match p with
  | xH => 1
  | xO p => pos_ones p
  | xI p => 1 + pos_ones p
  end.
(** [u64::count_ones]. *)
Definition count_ones (z : Z) : Z := match z with Zpos p => pos_ones p | _ => 0 end.

Fixpoint pos_trailing_ones (p : positive) : Z :=
  match p with
  | xH => 1
  | xO _ => 0
  | xI p => 1 + pos_trailing_ones p
  end.
(** [u64::trailing_ones]. *)
Definition trailing_ones (z : Z) : Z := match z with Zpos p => pos_trailing_ones p | _ => 0 end.

(** [u64::MAX >> z.leading_zeros()]. *)
Definition start_mask (z : Z) : Z := Z.shiftr (2 ^ 64 - 1) (leading_zeros 64 z).

Module Position.
Definition checked_add (pos rhs : Z) : option Z :=
  match Prelude.checked_add 64 pos rhs with
  | Some value => if value <=? MAX_POSITION then Some value else None
  | None => None
  end.
Definition checked_sub (pos rhs : Z) : option Z := Prelude.checked_sub pos rhs.
Definition saturating_add (pos rhs : Z) : Z :=
  let result := Prelude.saturating_add 64 pos rhs in
  if MAX_POSITION <? result then MAX_POSITION else result.
Definition saturating_sub (pos rhs : Z) : Z := Prelude.saturating_sub pos rhs.

(** The search for peaks; [two_h] is [2^(height+1)] of the node at [node_pos].
    The height decreases every second step, so 128 steps are enough; the fuel is 200. *)
Fixpoint size_loop (fuel : nat) (size two_h node_pos : Z) : option bool :=
  match fuel with
  | O => None
  | S fuel =>
      if two_h <=? 1 then Some true
      else if node_pos <? size then
        if two_h =? 2 then Some (node_pos =? size - 1)
        else
          node_pos ← Prelude.checked_add 64 node_pos (two_h - 1);
          if node_pos <? size then Some false else size_loop fuel size two_h node_pos
      else
        let two_h := Z.shiftr two_h 1 in
        node_pos ← Prelude.checked_sub node_pos two_h;
        size_loop fuel size two_h node_pos
  end.
Definition is_mmr_size (size : Z) : option bool :=
  if size =? 0 then Some true
  else if leading_zeros 64 size =? 0 then Some false
  else
    let start := start_mask size in
    node_pos ← Prelude.checked_sub start 1;
    size_loop 200 size (Z.shiftl 1 (trailing_ones start)) node_pos.

Inductive Error : Type := LocationOverflow (loc : Z).

Definition try_from_location (loc : Z) : outcome Error Z :=
  if MAX_LOCATION <? loc then Err (LocationOverflow loc)
  else
    let? double := expect (checked_mul 64 loc 2) in
    expect (Prelude.checked_sub double (count_ones loc)).
End Position.

Module Location.
Definition new (loc : Z) : option Z := if MAX_LOCATION <? loc then None else Some loc.
Definition is_valid (loc : Z) : bool := loc <=? MAX_LOCATION.
Definition checked_add (loc rhs : Z) : option Z :=
  match Prelude.checked_add 64 loc rhs with
  | Some value => if value <=? MAX_LOCATION then Some value else None
  | None => None
  end.
Definition checked_sub (loc rhs : Z) : option Z := Prelude.checked_sub loc rhs.
Definition saturating_add (loc rhs : Z) : Z :=
  let result := Prelude.saturating_add 64 loc rhs in
  if MAX_LOCATION <? result then MAX_LOCATION else result.
Definition saturating_sub (loc rhs : Z) : Z := Prelude.saturating_sub loc rhs.

Inductive LocationError : Type := NonLeaf (pos : Z) | Overflow (pos : Z).

(** The descent from the root of the perfect tree over [pos]; the height
    decreases, so [64] steps are enough. *)
Fixpoint descend (fuel : nat) (pos two_h cur_node leaf_loc_floor : Z) : outcome LocationError Z :=
  match fuel with
  | O => Panic
  | S fuel =>
      if two_h <=? 1 then Ok leaf_loc_floor
      else if cur_node =? pos then Err (NonLeaf pos)
      else
        let? left_pos := expect (Prelude.checked_sub cur_node two_h) in
        let two_h := Z.shiftr two_h 1 in
        if left_pos <? pos then
          let? floor := expect (Prelude.checked_add 64 leaf_loc_floor two_h) in
          let? cur_node := expect (Prelude.checked_sub cur_node 1) in
          descend fuel pos two_h cur_node floor
        else descend fuel pos two_h left_pos leaf_loc_floor
  end.
Definition try_from_position (pos : Z) : outcome LocationError Z :=
  if MAX_POSITION <? pos then Err (Overflow pos)
  else if pos =? 0 then Ok 0
  else
    let start := start_mask (pos + 1) in
    let height := trailing_ones start in
    if height =? 0 then Err (NonLeaf pos)
    else
      let? cur_node := expect (Prelude.checked_sub start 1) in
      descend 64 pos (Z.shiftl 1 (height - 1)) cur_node 0.
End Location.

(** ** The size of a range *)

Definition mmr_size (n : Z) : Z := 2 * n - count_ones n.

Lemma count_ones_double z b : 0 ≤ z → 0 ≤ b ≤ 1 → count_ones (2 * z + b) = count_ones z + b.
Proof.
  intros Hz Hb. assert (b = 0 ∨ b = 1) as [-> | ->] by lia; (destruct z as [|p|p]; [done| |lia]).
  - change (pos_ones p = pos_ones p + 0). lia.
  - change (1 + pos_ones p = pos_ones p + 1). lia.
Qed.

Lemma count_ones_nonneg z : 0 ≤ count_ones z.
Proof. destruct z as [|p|]; cbn [count_ones]; try lia. induction p; cbn [pos_ones]; lia. Qed.

Lemma half_bit z : 0 ≤ z → ∃ y b, z = 2 * y + b ∧ 0 ≤ y ∧ 0 ≤ b ≤ 1.
Proof.
  intros. exists (z / 2), (z mod 2). pose proof (Z.div_mod z 2 ltac:(lia)).
  pose proof (Z.mod_pos_bound z 2 ltac:(lia)). pose proof (Z.div_pos z 2 ltac:(lia) ltac:(lia)). lia.
Qed.

(** A high bit above the others counts once. *)
Lemma count_ones_high h k : 0 ≤ h → 0 ≤ k < 2 ^ h → count_ones (2 ^ h + k) = 1 + count_ones k.
Proof.
  intros Hh. revert k. pattern h. apply natlike_ind; [|clear h Hh|done].
  - intros k Hk. assert (k = 0) as -> by lia. done.
  - intros h Hh IH k Hk. rewrite Z.pow_succ_r in * by lia.
    destruct (half_bit k) as (y & b & -> & Hy & Hb); [lia|].
    replace (2 * 2 ^ h + (2 * y + b)) with (2 * (2 ^ h + y) + b) by lia.
    rewrite !count_ones_double, IH by lia. lia.
Qed.

Lemma count_ones_le z : 0 ≤ z → count_ones z ≤ z.
Proof.
  destruct z as [|p|]; cbn [count_ones]; try lia. intros _. induction p; cbn [pos_ones]; lia.
Qed.

Lemma mmr_size_high h k : 0 ≤ h → 0 ≤ k < 2 ^ h →
  mmr_size (2 ^ h + k) = 2 ^ (h + 1) - 1 + mmr_size k.
Proof.
  intros. unfold mmr_size. rewrite count_ones_high by lia. rewrite Z.pow_add_r by lia. lia.
Qed.

Lemma mmr_size_pow h : 0 ≤ h → mmr_size (2 ^ h) = 2 ^ (h + 1) - 1.
Proof.
  intros. rewrite <- (Z.add_0_r (2 ^ h)), mmr_size_high by (pose proof (Z.pow_pos_nonneg 2 h); lia).
  unfold mmr_size. simpl. lia.
Qed.

(** Split a number below [2^(h+1)] at its bit [h]. *)
Lemma split_high h n : 0 ≤ h → 0 ≤ n < 2 ^ (h + 1) →
  (0 ≤ n < 2 ^ h) ∨ ∃ k, n = 2 ^ h + k ∧ 0 ≤ k < 2 ^ h.
Proof.
  intros Hh. rewrite Z.pow_add_r by lia. intros Hn. destruct (decide (n < 2 ^ h)); [left; lia|].
  right. exists (n - 2 ^ h). lia.
Qed.

(** The nodes of a range with fewer than [2^h] leaves: the largest such range
      lacks [h] nodes for the root of a perfect tree to follow. *)
Lemma mmr_size_bound h n : 0 ≤ h → 0 ≤ n < 2 ^ h → 0 ≤ mmr_size n ≤ 2 ^ (h + 1) - 2 - h.
Proof.
  intros Hh. revert n. pattern h. apply natlike_ind; [|clear h Hh|done].
  - intros n Hn. assert (n = 0) as -> by lia. unfold mmr_size. simpl. lia.
  - intros h Hh IH n Hn. rewrite <- Z.add_1_r in *.
    destruct (split_high h n Hh Hn) as [H|(k & -> & H)].
    + specialize (IH n H). pose proof (Z.pow_pos_nonneg 2 (h + 1)).
      rewrite (Z.pow_add_r 2 (h + 1) 1) by lia. rewrite (Z.pow_add_r 2 h 1) in * by lia.
      pose proof (Z.pow_gt_lin_r 2 h). lia.
    + rewrite mmr_size_high by lia. specialize (IH k H).
      rewrite (Z.pow_add_r 2 (h + 1) 1) by lia. lia.
Qed.

(** A larger range has more nodes. *)
Lemma mmr_size_lt h n m : 0 ≤ h → 0 ≤ n → n < m → m < 2 ^ h → mmr_size n < mmr_size m.
Proof.
  intros Hh. revert n m. pattern h. apply natlike_ind; [|clear h Hh|done].
  - intros n m ? ? ?. lia.
  - intros h Hh IH n m Hn Hlt Hm. rewrite <- Z.add_1_r in *.
    destruct (split_high h n Hh ltac:(lia)) as [H|(k & -> & H)];
      destruct (split_high h m Hh ltac:(lia)) as [H'|(k' & -> & H')].
    + apply IH; lia.
    + rewrite mmr_size_high by lia. pose proof (mmr_size_bound h n Hh H).
      pose proof (mmr_size_bound h k' Hh H'). lia.
    + lia.
    + rewrite !mmr_size_high by lia. specialize (IH k k'). lia.
Qed.

Lemma mmr_size_strict n m : 0 ≤ n → n < m → mmr_size n < mmr_size m.
Proof.
  intros Hn Hlt. apply (mmr_size_lt m); [lia..|].
  apply Z.pow_gt_lin_r; lia.
Qed.

Lemma mmr_size_mono n m : 0 ≤ n → 0 ≤ m → n ≤ m ↔ mmr_size n ≤ mmr_size m.
Proof.
  intros Hn Hm. destruct (Z.lt_trichotomy n m) as [H|[->|H]]; [..|].
  - pose proof (mmr_size_strict n m Hn H). lia.
  - lia.
  - pose proof (mmr_size_strict m n Hm H). lia.
Qed.

Lemma mmr_size_inj n m : 0 ≤ n → 0 ≤ m → mmr_size n = mmr_size m → n = m.
Proof.
  intros Hn Hm E. pose proof (mmr_size_mono n m Hn Hm). pose proof (mmr_size_mono m n Hm Hn). lia.
Qed.

Lemma mmr_size_nonneg n : 0 ≤ n → 0 ≤ mmr_size n.
Proof. intros. apply (mmr_size_mono 0 n); lia. Qed.

(** ** Masks *)

Lemma start_mask_spec z : 0 < z < 2 ^ 64 → start_mask z = 2 ^ bit_length z - 1.
Proof.
  intros Hz. unfold start_mask, leading_zeros.
  assert (0 ≤ bit_length z ≤ 64) as Hb.
  { split; [apply bit_length_nonneg; lia|]. apply bit_length_le; lia. }
  rewrite Z.shiftr_div_pow2 by lia.
  replace (2 ^ 64) with (2 ^ bit_length z * 2 ^ (64 - bit_length z))
    by (rewrite <- Z.pow_add_r by lia; f_equal; lia).
  pose proof (Z.pow_pos_nonneg 2 (64 - bit_length z) ltac:(lia) ltac:(lia)).
  symmetry. apply Z.div_unique_pos with (r := 2 ^ (64 - bit_length z) - 1); lia.
Qed.

Lemma trailing_ones_mask k : 0 ≤ k → trailing_ones (2 ^ k - 1) = k.
Proof.
  intros Hk. pattern k. apply natlike_ind; [done|clear k Hk|done].
  intros k Hk IH. rewrite Z.pow_succ_r by lia.
  destruct (Z.eq_dec k 0) as [->|Hne]; [done|].
  pose proof (Z.pow_gt_1 2 k ltac:(lia)) as [Hgt _].
  replace (2 * 2 ^ k - 1) with (2 * (2 ^ k - 1) + 1) by lia.
  destruct (2 ^ k - 1) as [|p|p] eqn:E; [lia| |lia].
  change (1 + trailing_ones (Zpos p) = Z.succ k). rewrite IH. lia.
Qed.

(** ** Leaves of a perfect tree *)

Lemma pow_succ h : 0 ≤ h → 2 ^ (h + 1) = 2 * 2 ^ h.
Proof. intros. rewrite Z.pow_add_r by lia. lia. Qed.

Lemma shiftr_pow h : 1 ≤ h → Z.shiftr (2 ^ h) 1 = 2 ^ (h - 1).
Proof.
  intros. rewrite Z.shiftr_div_pow2 by lia. replace h with (h - 1 + 1) at 1 by lia.
  rewrite pow_succ by lia. change (2 ^ 1) with 2. rewrite Z.mul_comm, Z.div_mul; lia.
Qed.

(** No leaf of a tree of height [h + 1] is its root, and a leaf is in the left
    or in the right subtree. *)
Lemma leaf_not_root h k : 0 ≤ h → 0 ≤ k < 2 ^ (h + 1) → mmr_size k < 2 * (2 * 2 ^ h) - 2.
Proof.
  intros Hh Hk. pose proof (mmr_size_bound (h + 1) k ltac:(lia) Hk) as Hbd.
  rewrite !pow_succ in Hbd by lia. lia.
Qed.

Lemma leaf_side h k : 0 ≤ h → 0 ≤ k < 2 ^ (h + 1) →
  (k < 2 ^ h ∧ mmr_size k ≤ 2 * 2 ^ h - 2) ∨
  (0 ≤ k - 2 ^ h < 2 ^ h ∧ mmr_size k = 2 * 2 ^ h - 1 + mmr_size (k - 2 ^ h) ∧
   0 ≤ mmr_size (k - 2 ^ h)).
Proof.
  intros Hh Hk. destruct (split_high h k Hh Hk) as [H'|(k' & -> & H')].
  - left. pose proof (mmr_size_bound h k Hh H'). rewrite pow_succ in * by lia. lia.
  - right. replace (2 ^ h + k' - 2 ^ h) with k' by lia. split; [lia|].
    rewrite mmr_size_high, pow_succ by lia. split; [done|]. apply mmr_size_nonneg. lia.
Qed.

Definition leaf_of (pos base floor h : Z) (r : outcome Location.LocationError Z) : Prop :=
  match r with
  | Ok loc => ∃ k, loc = floor + k ∧ 0 ≤ k < 2 ^ h ∧ pos = base + mmr_size k
  | Err e => e = Location.NonLeaf pos ∧ ∀ k, 0 ≤ k < 2 ^ h → pos ≠ base + mmr_size k
  | Panic => False
  end.

(** The descent through the tree of height [h] whose first node is [base]. *)
Lemma descend_spec h : 0 ≤ h → ∀ fuel base pos floor,
  h < Z.of_nat fuel → 0 ≤ base → 0 ≤ floor → floor + 2 ^ h ≤ 2 ^ 62 →
  base ≤ pos ≤ base + 2 ^ (h + 1) - 2 →
  leaf_of pos base floor h (Location.descend fuel pos (2 ^ h) (base + 2 ^ (h + 1) - 2) floor).
Proof.
  intros Hh. pattern h. apply natlike_ind; [|clear h Hh|done].
  - intros fuel base pos floor Hf Hb Hfl Hlim Hp. destruct fuel as [|fuel]; [lia|]. simpl.
    exists 0. unfold mmr_size. simpl in *. split; [lia|]. split; [lia|]. lia.
  - intros h Hh IH fuel base pos floor Hf Hb Hfl Hlim Hp. rewrite <- Z.add_1_r in *.
    destruct fuel as [|fuel]; [lia|]. cbn [Location.descend].
    pose proof (Z.pow_pos_nonneg 2 h ltac:(lia) Hh) as Hpos.
    rewrite !pow_succ in * by lia.
    destruct (Z.leb_spec (2 * 2 ^ h) 1); [lia|].
    destruct (Z.eqb_spec (base + 2 * (2 * 2 ^ h) - 2) pos) as [<-|Hne].
    { split; [done|]. intros k Hk. pose proof (leaf_not_root h k Hh Hk). lia. }
    unfold checked_sub. destruct (Z.leb_spec (2 * 2 ^ h) (base + 2 * (2 * 2 ^ h) - 2)); [|lia].
    simpl expect. cbn [obind].
    replace (Z.shiftr (2 * 2 ^ h) 1) with (2 ^ h)
      by (rewrite <- pow_succ by lia; rewrite shiftr_pow by lia; f_equal; lia).
    destruct (Z.ltb_spec (base + 2 * (2 * 2 ^ h) - 2 - 2 * 2 ^ h) pos) as [Hright|Hleft].
    + unfold checked_add. destruct (Z.ltb_spec (floor + 2 ^ h) (2 ^ 64)); [|lia]. simpl expect. cbn [obind].
      destruct (Z.leb_spec 1 (base + 2 * (2 * 2 ^ h) - 2)); [|lia]. simpl expect. cbn [obind].
      specialize (IH fuel (base + 2 * 2 ^ h - 1) pos (floor + 2 ^ h)).
      replace (base + 2 * 2 ^ h - 1 + 2 * 2 ^ h - 2) with (base + 2 * (2 * 2 ^ h) - 2 - 1) in IH by lia.
      specialize (IH ltac:(lia) ltac:(lia) ltac:(lia) ltac:(lia) ltac:(lia)).
      destruct (Location.descend _ _ _ _ _) as [loc|e|]; [|..|done].
      * destruct IH as (k & -> & Hk & E). exists (2 ^ h + k).
        rewrite mmr_size_high, !pow_succ by lia. split_and!; lia.
      * destruct IH as [-> Hn]. split; [done|]. intros k Hk.
        destruct (leaf_side h k Hh Hk) as [[? ?]|(? & -> & ?)]; [lia|]. specialize (Hn (k - 2 ^ h)). lia.
    + specialize (IH fuel base pos floor).
      replace (base + 2 * (2 * 2 ^ h) - 2 - 2 * 2 ^ h) with (base + 2 * 2 ^ h - 2) by lia.
      specialize (IH ltac:(lia) ltac:(lia) ltac:(lia) ltac:(lia) ltac:(lia)).
      destruct (Location.descend _ _ _ _ _) as [loc|e|]; [|..|done].
      * destruct IH as (k & -> & Hk & E). exists k. rewrite pow_succ by lia. split_and!; lia.
      * destruct IH as [-> Hn]. split; [done|]. intros k Hk.
        destruct (leaf_side h k Hh Hk) as [[? ?]|(? & -> & ?)]; [apply Hn; lia|lia].
Qed.

Lemma pow_2_62 : 2 ^ 62 = MAX_LOCATION + 1.
Proof. reflexivity. Qed.

Lemma bit_length_unique z k : 0 ≤ k → 2 ^ k ≤ z < 2 ^ (k + 1) → bit_length z = k + 1.
Proof.
  intros Hk Hz. pose proof (Z.pow_pos_nonneg 2 k ltac:(lia) Hk).
  pose proof (proj2 (bit_length_le (k + 1) z ltac:(lia) ltac:(lia)) ltac:(lia)).
  assert (¬ bit_length z ≤ k) as Hn; [|lia].
  intros H'. apply bit_length_le in H'; lia.
Qed.

(** Conversion of a position on the tree over it. *)
Lemma try_from_position_spec pos : 0 ≤ pos →
  match Location.try_from_position pos with
  | Ok loc => 0 ≤ loc ≤ MAX_LOCATION ∧ pos = mmr_size loc
  | Err e =>
      (MAX_POSITION < pos ∧ e = Location.Overflow pos) ∨
      (pos ≤ MAX_POSITION ∧ e = Location.NonLeaf pos ∧ ∀ loc, 0 ≤ loc → pos ≠ mmr_size loc)
  | Panic => False
  end.
Proof.
  intros Hp. unfold Location.try_from_position.
  destruct (Z.ltb_spec MAX_POSITION pos); [by left|].
  destruct (Z.eqb_spec pos 0) as [->|Hne]; [done|].
  unfold MAX_POSITION, MAX_LOCATION in *.
  rewrite start_mask_spec by lia. set (b := bit_length (pos + 1)).
  assert (2 ^ (b - 1) ≤ pos + 1 < 2 ^ b) as Hb by (apply bit_length_bounds; lia).
  assert (2 ≤ b ≤ 63) as Hb'.
  { split.
    - assert (¬ b ≤ 1); [|lia]. intros Hle. apply bit_length_le in Hle; lia.
    - apply bit_length_le; lia. }
  clearbody b. rewrite trailing_ones_mask by lia. destruct (Z.eqb_spec b 0); [lia|].
  pose proof (Z.pow_gt_1 2 b ltac:(lia)) as [Hgt _].
  unfold checked_sub. destruct (Z.leb_spec 1 (2 ^ b - 1)); [|lia]. simpl expect. cbn [obind].
  rewrite Z.shiftl_1_l.
  assert (2 ^ (b - 1) ≤ 2 ^ 62) by (apply Z.pow_le_mono_r; lia).
  pose proof (descend_spec (b - 1) ltac:(lia) 64 0 pos 0) as Hd.
  replace (b - 1 + 1) with b in Hd by lia. replace (0 + 2 ^ b - 2) with (2 ^ b - 1 - 1) in Hd by lia.
  specialize (Hd ltac:(lia) ltac:(lia) ltac:(lia) ltac:(lia) ltac:(lia)).
  destruct (Location.descend _ _ _ _ _) as [loc|e|]; [|..|done].
  - destruct Hd as (k & -> & Hk & ->). split; [lia|done].
  - destruct Hd as [-> Hn]. right. split; [lia|]. split; [done|]. intros loc Hloc E.
    destruct (decide (loc < 2 ^ (b - 1))) as [|Hge]; [apply (Hn loc); lia|].
    pose proof (proj1 (mmr_size_mono (2 ^ (b - 1)) loc ltac:(lia) Hloc) ltac:(lia)) as Hm.
    rewrite mmr_size_pow in Hm by lia. replace (b - 1 + 1) with b in Hm by lia. lia.
Qed.

Lemma try_from_location_spec loc : 0 ≤ loc ≤ MAX_LOCATION →
  Position.try_from_location loc = Ok (mmr_size loc).
Proof.
  intros Hl. unfold Position.try_from_location, MAX_LOCATION in *.
  destruct (Z.ltb_spec 0x3FFFFFFFFFFFFFFF loc); [lia|].
  unfold checked_mul, checked_sub. destruct (Z.ltb_spec (loc * 2) (2 ^ 64)); [|lia].
  simpl expect. cbn [obind]. pose proof (count_ones_le loc ltac:(lia)).
  destruct (Z.leb_spec (count_ones loc) (loc * 2)); [|lia]. simpl. f_equal. unfold mmr_size. lia.
Qed.

Lemma mmr_size_max loc : 0 ≤ loc ≤ MAX_LOCATION → 0 ≤ mmr_size loc ≤ MAX_POSITION.
Proof.
  intros Hl. pose proof (mmr_size_bound 62 loc ltac:(lia)) as H.
  unfold MAX_LOCATION, MAX_POSITION in *. specialize (H ltac:(lia)). lia.
Qed.

(** ** Valid sizes *)

(** A node beyond the range: the search goes on with its left child. *)
Lemma size_loop_descend fuel base r h : 0 ≤ h → 0 ≤ base → 0 < base + r →
  r ≤ 2 ^ (h + 1) - 2 →
  Position.size_loop (S fuel) (base + r) (2 ^ (h + 1)) (base + 2 ^ (h + 1) - 2) =
  Position.size_loop fuel (base + r) (2 ^ h) (base + 2 ^ h - 2).
Proof.
  intros Hh Hb Hs Hr. cbn [Position.size_loop].
  pose proof (Z.pow_pos_nonneg 2 h ltac:(lia) Hh). rewrite pow_succ in * by lia.
  destruct (Z.leb_spec (2 * 2 ^ h) 1); [lia|].
  destruct (Z.ltb_spec (base + 2 * 2 ^ h - 2) (base + r)); [lia|].
  replace (Z.shiftr (2 * 2 ^ h) 1) with (2 ^ h)
    by (rewrite <- pow_succ by lia; rewrite shiftr_pow by lia; f_equal; lia).
  unfold checked_sub. destruct (Z.leb_spec (2 ^ h) (base + 2 * 2 ^ h - 2)).
  - simpl. f_equal. lia.
  - exfalso. assert (base = 0 ∧ 2 ^ h < 2) as [-> ?] by lia. lia.
Qed.

Definition is_size_below (h r : Z) : Prop := ∃ n, 0 ≤ n < 2 ^ h ∧ r = mmr_size n.

Lemma is_size_split h r : 0 ≤ h →
  is_size_below (h + 1) r ↔
  is_size_below h r ∨ is_size_below h (r - (2 ^ (h + 1) - 1)).
Proof.
  intros Hh. split.
  - intros (n & Hn & ->). destruct (split_high h n Hh Hn) as [H|(k & -> & H)].
    + left. by exists n.
    + right. exists k. split; [done|]. rewrite mmr_size_high by lia. lia.
  - intros [(n & Hn & ->)|(n & Hn & E)].
    + exists n. rewrite pow_succ by lia. lia.
    + exists (2 ^ h + n). rewrite mmr_size_high, pow_succ in * by lia. lia.
Qed.

Lemma is_size_range h r : 0 ≤ h → is_size_below h r → 0 ≤ r ≤ 2 ^ (h + 1) - 2 - h.
Proof. intros Hh (n & Hn & ->). by apply mmr_size_bound. Qed.

Lemma is_size_zero r : is_size_below 0 r ↔ r = 0.
Proof.
  split; [intros (n & Hn & ->)|intros ->; by exists 0].
  assert (n = 0) as -> by lia. done.
Qed.

(** The search in the tree of height [h] that would start at [base]. *)
Lemma size_loop_spec h : 0 ≤ h → ∀ fuel base r,
  2 * h + 3 ≤ Z.of_nat fuel → 0 ≤ base → 0 ≤ r → 0 < base + r < 2 ^ 63 → h ≤ 62 →
  ∃ b, Position.size_loop fuel (base + r) (2 ^ (h + 1)) (base + 2 ^ (h + 1) - 2) = Some b ∧
    (b = true ↔ is_size_below (h + 1) r).
Proof.
  intros Hh. pattern h. apply natlike_ind; [|clear h Hh|done].
  - intros fuel base r Hf Hb Hr Hs _. destruct fuel as [|[|fuel]]; [lia..|].
    change (2 ^ (0 + 1)) with 2.
    destruct (decide (r ≤ 0)) as [Hle|Hgt].
    + pose proof (size_loop_descend (S fuel) base r 0) as E. change (2 ^ (0 + 1)) with 2 in E.
      rewrite E by lia. change (2 ^ 0) with 1. exists true. split; [done|].
      rewrite is_size_split, !is_size_zero by lia. lia.
    + cbn [Position.size_loop]. simpl (2 <=? 1). simpl (2 =? 2).
      destruct (Z.ltb_spec (base + 2 - 2) (base + r)); [|lia]. eexists. split; [done|].
      rewrite Z.eqb_eq, is_size_split, !is_size_zero by lia. lia.
  - intros h Hh IH fuel base r Hf Hb Hr Hs Hlim. rewrite <- !Z.add_1_r in *.
    destruct fuel as [|fuel]; [lia|].
    pose proof (Z.pow_pos_nonneg 2 h ltac:(lia) Hh) as Hpow.
    destruct (decide (r ≤ 2 ^ (h + 1 + 1) - 2)) as [Hle|Hgt].
    + rewrite size_loop_descend by lia.
      destruct (IH fuel base r) as (b & -> & Hb'); [lia..|]. exists b. split; [done|].
      rewrite Hb', (is_size_split (h + 1)) by lia. split; [by left|]. intros [?|H']; [done|].
      apply is_size_range in H'; [|lia]. lia.
    + assert (2 ^ (h + 1 + 1) ≤ 2 ^ 63) by (apply Z.pow_le_mono_r; lia).
      cbn [Position.size_loop]. rewrite (pow_succ (h + 1)) in * by lia.
      destruct (Z.leb_spec (2 * 2 ^ (h + 1)) 1); [rewrite pow_succ in *; lia|].
      destruct (Z.ltb_spec (base + 2 * 2 ^ (h + 1) - 2) (base + r)); [|lia].
      destruct (Z.eqb_spec (2 * 2 ^ (h + 1)) 2); [rewrite pow_succ in *; lia|].
      unfold checked_add. destruct (Z.ltb_spec (base + 2 * 2 ^ (h + 1) - 2 + (2 * 2 ^ (h + 1) - 1)) (2 ^ 64)); [|lia].
      cbn [mbind option_bind]. set (base' := base + 2 * 2 ^ (h + 1) - 1). set (r' := r - (2 * 2 ^ (h + 1) - 1)).
      replace (base + 2 * 2 ^ (h + 1) - 2 + (2 * 2 ^ (h + 1) - 1)) with (base' + 2 * 2 ^ (h + 1) - 2) by lia.
      replace (base + r) with (base' + r') by lia.
      destruct (Z.ltb_spec (base' + 2 * 2 ^ (h + 1) - 2) (base' + r')) as [Hlt|Hge].
      * exists false. split; [done|]. rewrite (is_size_split (h + 1)) by lia. split; [done|]. intros [H'|H'];
          apply is_size_range in H'; try lia; rewrite pow_succ in H'; lia.
      * destruct fuel as [|fuel]; [lia|].
        rewrite <- (pow_succ (h + 1)) by lia. rewrite size_loop_descend;
          [|lia|lia|lia|rewrite pow_succ by lia; lia].
        destruct (IH fuel base' r') as (b & -> & Hb'); [lia..|]. exists b. split; [done|].
        rewrite Hb', (is_size_split (h + 1)), (pow_succ (h + 1)) by lia. split; [by right|]. intros [H'|?]; [|done].
        apply is_size_range in H'; [|lia]. rewrite pow_succ in H' by lia. lia.
Qed.

Lemma mmr_size_62 : mmr_size (2 ^ 62) = 2 ^ 63 - 1.
Proof. reflexivity. Qed.

(** Sizes below [2^m] come from fewer than [2^m] leaves. *)
Lemma is_size_below_bits m s : 0 ≤ m → s < 2 ^ m →
  (∃ n, 0 ≤ n ∧ s = mmr_size n) → is_size_below m s.
Proof.
  intros Hm Hs (n & Hn & ->). exists n. split; [|done]. split; [done|].
  destruct (decide (n < 2 ^ m)) as [|Hge]; [done|].
  pose proof (Z.pow_pos_nonneg 2 m ltac:(lia) Hm).
  pose proof (proj1 (mmr_size_mono (2 ^ m) n ltac:(lia) Hn) ltac:(lia)) as H'.
  rewrite mmr_size_pow, pow_succ in H' by lia. lia.
Qed.

Lemma is_mmr_size_spec size : 0 ≤ size < 2 ^ 64 →
  ∃ b, Position.is_mmr_size size = Some b ∧
    (b = true ↔ ∃ n, 0 ≤ n ≤ 2 ^ 62 ∧ size = mmr_size n).
Proof.
  intros Hs. unfold Position.is_mmr_size. destruct (Z.eqb_spec size 0) as [->|Hne].
  { exists true. split; [done|]. split; [|done]. intros _. exists 0. done. }
  unfold leading_zeros at 1. destruct (Z.eqb_spec (64 - bit_length size) 0) as [H64|H64].
  { exists false. split; [done|]. split; [done|]. intros (n & Hn & ->).
    pose proof (bit_length_bounds (mmr_size n) ltac:(lia)) as Hb.
    replace (bit_length (mmr_size n) - 1) with 63 in Hb by lia.
    pose proof (proj1 (mmr_size_mono n (2 ^ 62) ltac:(lia) ltac:(lia)) ltac:(lia)) as Hm.
    rewrite mmr_size_62 in Hm. lia. }
  rewrite start_mask_spec by lia.
  pose proof (bit_length_bounds size ltac:(lia)) as Hb.
  pose proof (bit_length_nonneg size ltac:(lia)).
  assert (bit_length size ≤ 63) by (assert (bit_length size ≤ 64) by (apply bit_length_le; lia); lia).
  assert (1 ≤ bit_length size) as H1 by (assert (¬ bit_length size ≤ 0); [|lia];
    intros H'; apply bit_length_le in H'; simpl in H'; lia).
  set (m := bit_length size) in *. clearbody m.
  assert (2 ^ m ≤ 2 ^ 63) by (apply Z.pow_le_mono_r; lia).
  pose proof (Z.pow_gt_1 2 m ltac:(lia)) as [Hgt _].
  unfold checked_sub. destruct (Z.leb_spec 1 (2 ^ m - 1)); [|lia]. cbn [mbind option_bind].
  rewrite trailing_ones_mask, Z.shiftl_1_l by lia.
  destruct (size_loop_spec (m - 1) ltac:(lia) 200 0 size) as (b & E & Hiff); [lia..|].
  replace (m - 1 + 1) with m in * by lia.
  replace (0 + 2 ^ m - 2) with (2 ^ m - 1 - 1) in E by lia.
  exists b. split; [exact E|]. rewrite Hiff. split.
  - intros (n & Hn & ->). exists n. split; [|done].
    destruct (decide (n ≤ 2 ^ 62)) as [|Hn']; [lia|].
    pose proof (mmr_size_strict (2 ^ 62) n ltac:(lia) ltac:(lia)) as Hm.
    rewrite mmr_size_62 in Hm. lia.
  - intros (n & Hn & ->). apply is_size_below_bits; [lia..|]. exists n. lia.
Qed.

(** ** Properties *)

(** a position converts to a location exactly when it is the position that
    location converts to; every other position is rejected, and no conversion
    panics. *)
Theorem location_position_roundtrip pos loc : fits 64 pos → fits 64 loc →
  Location.try_from_position pos ≠ Panic ∧ Position.try_from_location loc ≠ Panic ∧
  (Location.try_from_position pos = Ok loc ↔ Position.try_from_location loc = Ok pos).
Proof.
  unfold fits. intros Hp Hl. pose proof (try_from_position_spec pos ltac:(lia)) as H.
  assert (Position.try_from_location loc = Ok (mmr_size loc) ∧ loc ≤ MAX_LOCATION ∨
          Position.try_from_location loc = Err (Position.LocationOverflow loc) ∧ MAX_LOCATION < loc)
    as [[E Hle]|[E Hgt]].
  { destruct (Z.ltb_spec MAX_LOCATION loc) as [Hlt|Hle].
    - right. unfold Position.try_from_location. by rewrite (proj2 (Z.ltb_lt _ _) Hlt).
    - left. rewrite try_from_location_spec by lia. done. }
  - pose proof (mmr_size_max loc ltac:(lia)). rewrite E.
    destruct (Location.try_from_position pos) as [l|e|]; [|..|done];
      (split; [done|]); (split; [done|]).
    + destruct H as [Hb ->]. split; [by intros [= ->]|]. intros [= H']. f_equal.
      symmetry. by apply mmr_size_inj; [lia..|].
    + split; [done|]. intros [= <-]. destruct H as [[? ?]|(_ & _ & H)]; [lia|].
      destruct (H loc); [lia|done].
  - rewrite E. destruct (Location.try_from_position pos) as [l|e|]; [|..|done];
      (split; [done|]); (split; [done|]); (split; [|done]); [|done].
    intros [= ->]. lia.
Qed.

Lemma location_position_roundtrip_witness :
  Location.try_from_position 8 = Ok 5 ↔ Position.try_from_location 5 = Ok 8.
Proof.
  apply (location_position_roundtrip 8 5); split; vm_compute; discriminate || reflexivity.
Defined.

Example location_5 : Position.try_from_location 5 = Ok 8 ∧ Location.try_from_position 8 = Ok 5 ∧
  Location.try_from_position 9 = Err (Location.NonLeaf 9).
Proof. vm_compute. done. Qed.

(** a size is accepted exactly when it is the number of nodes of a range of
    at most [2^62] leaves, and the check never overflows. *)
Theorem is_mmr_size_correct size : fits 64 size →
  ∃ b, Position.is_mmr_size size = Some b ∧
    (b = true ↔ ∃ n, 0 ≤ n ≤ 2 ^ 62 ∧ size = mmr_size n).
Proof. exact (is_mmr_size_spec size). Qed.

Lemma is_mmr_size_correct_witness :
  ∃ b, Position.is_mmr_size 19 = Some b ∧ (b = true ↔ ∃ n, 0 ≤ n ≤ 2 ^ 62 ∧ 19 = mmr_size n).
Proof. apply (is_mmr_size_correct 19). split; vm_compute; discriminate || reflexivity. Defined.

Example sizes : Position.is_mmr_size 19 = Some true ∧ Position.is_mmr_size 20 = Some false.
Proof. vm_compute. done. Qed.
End Mmr.
