(* ===== verification/MmrIterator.v ===== *)
(** * Traversals of a Merkle Mountain Range (storage/src/mmr/iterator.rs)

    The iterators are records with a [next] function; [collect] drains one.
    [None] is a panic.  [peaks_below] and [path_to] are the references: the
    peaks of a range, from the bits of its number of leaves, and the path from
    the root of a perfect tree to a leaf, from the bits of the leaf's index. *)

From S2P Require Import Prelude MmrPosition.
Import Mmr.

Module MmrIterator.

(** ** Operations *)

Fixpoint pos_trailing_zeros (p : positive) : Z :=
  match p with
  | xO p => 1 + pos_trailing_zeros p
  | _ => 0
  end.
(** [u64::trailing_zeros] of a number that is not zero. *)
Definition trailing_zeros (z : Z) : Z := match z with Zpos p => pos_trailing_zeros p | _ => 64 end.

Record PeakIterator : Type := mkPeaks { pi_size : Z; pi_node_pos : Z; pi_two_h : Z }.

Module Peaks.
Definition new (size : Z) : option PeakIterator :=
  if size =? 0 then Some (mkPeaks 0 0 0)
  else
    let start := start_mask size in
    if start =? 2 ^ 64 - 1 then None
    else
      node_pos ← checked_sub start 1;
      Some (mkPeaks size node_pos (Z.shiftl 1 (trailing_ones start))).

(** The height decreases every round of the loop, so [fuel] above it is
    enough. *)
Fixpoint next (fuel : nat) (it : PeakIterator) : option (option (Z * Z) * PeakIterator) :=
  match fuel with
  | O => None
  | S fuel =>
      let '(mkPeaks size node_pos two_h) := it in
      if two_h <=? 1 then Some (None, it)
      else if node_pos <? size then
        height ← checked_sub (trailing_zeros two_h) 1;
        sibling ← checked_add 64 node_pos (two_h - 1);
        if size <=? sibling then Some (Some (node_pos, height), mkPeaks size sibling two_h)
        else None
      else
        let two_h := Z.shiftr two_h 1 in
        node_pos ← checked_sub node_pos two_h;
        next fuel (mkPeaks size node_pos two_h)
  end.

Fixpoint collect (fuel : nat) (it : PeakIterator) : option (list (Z * Z)) :=
  match fuel with
  | O => None
  | S fuel =>
      '(item, it) ← next 65 it;
      match item with
      | None => Some []
      | Some x => rest ← collect fuel it; Some (x :: rest)
      end
  end.

(** All peaks of a range of [size] nodes: at most one per height. *)
Definition peaks (size : Z) : option (list (Z * Z)) := it ← new size; collect 65 it.

Definition last_leaf_pos (size : Z) : option Z :=
  if size =? 0 then Some 0
  else
    l ← peaks size;
    '(pos, height) ← last l;
    Position.checked_sub pos height.

(** The binary search of [to_nearest_size]; the interval halves. *)
Fixpoint search (fuel : nat) (size low high : Z) : option Z :=
  match fuel with
  | O => None
  | S fuel =>
      if low <? high then
        sum ← checked_add 64 low high;
        let mid := div_ceil sum 2 in
        double ← checked_mul 64 2 mid;
        mmr_size ← checked_sub double (count_ones mid);
        if mmr_size <=? size then search fuel size mid high
        else (high ← checked_sub mid 1; search fuel size low high)
      else Some low
  end.
Definition to_nearest_size (size : Z) : option Z :=
  if MAX_POSITION <? size then None
  else if size =? 0 then Some size
  else
    low ← search 65 size 0 size;
    double ← checked_mul 64 2 low;
    checked_sub double (count_ones low).
End Peaks.

Definition u32_max : Z := 2 ^ 32 - 1.

(** The loop of [nodes_needing_parents]. *)
Fixpoint needing_loop (items : list (Z * Z)) (peaks : list Z) (last_height : Z) : option (list Z * Z) :=
  match items with
  | [] => Some (peaks, last_height)
  | (peak_pos, height) :: items =>
      if (0 <? last_height) && (height <? last_height) then
        let peaks := if height =? last_height - 1 then peaks else [] in
        needing_loop items (peaks ++ [peak_pos]) height
      else None
  end.
Definition nodes_needing_parents (size : Z) : option (list Z) :=
  items ← Peaks.peaks size;
  '(peaks, last_height) ← needing_loop items [] u32_max;
  Some (if last_height =? 0 then peaks else []).

Fixpoint height_loop (fuel : nat) (pos size : Z) : option Z :=
  match fuel with
  | O => None
  | S fuel =>
      if size =? 0 then Some (wrap 32 pos)
      else height_loop fuel (if size <=? pos then pos - size else pos) (Z.shiftr size 1)
  end.
Definition pos_to_height (pos : Z) : option Z :=
  if pos =? 0 then Some 0 else height_loop 65 pos (start_mask pos).

Record PathIterator : Type := mkPath { pt_leaf_pos : Z; pt_node_pos : Z; pt_two_h : Z }.

Module Path.
Definition new (leaf_pos peak_pos height : Z) : PathIterator :=
  mkPath leaf_pos peak_pos (Z.shiftl 1 height).
Definition next (it : PathIterator) : option (option (Z * Z) * PathIterator) :=
  let '(mkPath leaf_pos node_pos two_h) := it in
  if two_h <=? 1 then Some (None, it)
  else
    left_pos ← checked_sub node_pos two_h;
    right_pos ← checked_sub node_pos 1;
    let two_h := Z.shiftr two_h 1 in
    if left_pos <? leaf_pos then
      Some (Some (node_pos, left_pos), mkPath leaf_pos right_pos two_h)
    else Some (Some (node_pos, right_pos), mkPath leaf_pos left_pos two_h).
Fixpoint collect (fuel : nat) (it : PathIterator) : option (list (Z * Z)) :=
  match fuel with
  | O => None
  | S fuel =>
      '(item, it) ← next it;
      match item with
      | None => Some []
      | Some x => rest ← collect fuel it; Some (x :: rest)
      end
  end.
Definition path (leaf_pos peak_pos height : Z) : option (list (Z * Z)) :=
  collect 65 (new leaf_pos peak_pos height).
End Path.

Definition nodes_to_pin (start_pos : Z) : option (list Z) :=
  size ← Peaks.to_nearest_size start_pos;
  items ← Peaks.peaks size;
  Some items.*1.

Example peaks_19 : Peaks.peaks 19 = Some [(14, 3); (17, 1); (18, 0)].
Proof. vm_compute. done. Qed.
Example path_3 : Path.path 3 6 2 = Some [(6, 2); (5, 4)].
Proof. vm_compute. done. Qed.

(** ** Peaks *)

(** The peaks of [n < 2^h] leaves whose first node is at [base]: a perfect tree
    for every bit of [n], the highest first. *)
Fixpoint peaks_below (h : nat) (base n : Z) : list (Z * Z) :=
  match h with
  | O => []
  | S h =>
      let k := Z.of_nat h in
      if 2 ^ k <=? n
      then (base + 2 ^ (k + 1) - 2, k) :: peaks_below h (base + 2 ^ (k + 1) - 1) (n - 2 ^ k)
      else peaks_below h base n
  end.

(** The iterator is at the node of height [h - 1] that would follow the [base]
    nodes before it, with [n] leaves left. *)
Record at_node (it : PeakIterator) (h : nat) (base n : Z) : Prop := {
  an_it : it = mkPeaks (base + mmr_size n) (base + 2 ^ Z.of_nat h - 2) (2 ^ Z.of_nat h);
  an_base : 0 ≤ base;
  an_leaves : 0 ≤ n < 2 ^ Z.of_nat h;
  an_size : 0 < base + mmr_size n < 2 ^ 63;
  an_height : (h ≤ 63)%nat;
}.

Lemma trailing_zeros_pow k : 0 ≤ k → trailing_zeros (2 ^ k) = k.
Proof.
  intros Hk. pattern k. apply natlike_ind; [done|clear k Hk|done].
  intros k Hk IH. rewrite Z.pow_succ_r by lia.
  pose proof (Z.pow_pos_nonneg 2 k ltac:(lia) Hk). destruct (2 ^ k) as [|p|p]; [lia| |lia].
  change (1 + trailing_zeros (Zpos p) = Z.succ k). rewrite IH. lia.
Qed.

Lemma at_peak it h base n : at_node it (S h) base n → 2 ^ Z.of_nat h ≤ n →
  at_node (mkPeaks (base + mmr_size n) (base + 2 ^ Z.of_nat (S h) - 2 + (2 ^ Z.of_nat (S h) - 1))
             (2 ^ Z.of_nat (S h)))
    (S h) (base + 2 ^ Z.of_nat (S h) - 1) (n - 2 ^ Z.of_nat h) ∧
  n - 2 ^ Z.of_nat h < 2 ^ Z.of_nat h ∧
  mmr_size n = 2 ^ Z.of_nat (S h) - 1 + mmr_size (n - 2 ^ Z.of_nat h).
Proof.
  intros [-> Hb Hn Hs Hh] Hge. rewrite Nat2Z.inj_succ, <- Z.add_1_r in *.
  rewrite (pow_succ (Z.of_nat h)) in * by lia.
  assert (mmr_size n = 2 * 2 ^ Z.of_nat h - 1 + mmr_size (n - 2 ^ Z.of_nat h)) as E.
  { rewrite <- pow_succ, <- mmr_size_high by lia. f_equal. lia. }
  split; [|lia]. split; rewrite ?Nat2Z.inj_succ, <- ?Z.add_1_r, ?pow_succ by lia; try lia.
  f_equal; lia.
Qed.

Lemma peak_beyond h n : 0 ≤ n < 2 ^ Z.of_nat h → mmr_size n ≤ 2 ^ Z.of_nat (S h) - 2.
Proof.
  intros Hn. pose proof (mmr_size_bound (Z.of_nat h) n ltac:(lia) Hn).
  rewrite Nat2Z.inj_succ, <- Z.add_1_r. lia.
Qed.

Lemma next_spec h : ∀ it base n fuel, at_node it h base n → (h < fuel)%nat →
  match peaks_below h base n with
  | [] => ∃ it', Peaks.next fuel it = Some (None, it')
  | x :: rest => ∃ it' h' base' n', Peaks.next fuel it = Some (Some x, it') ∧
      at_node it' h' base' n' ∧ peaks_below h' base' n' = rest
  end.
Proof.
  induction h as [|h IH]; intros it base n fuel Ha Hf; (destruct fuel as [|fuel]; [lia|]).
  { rewrite (an_it _ _ _ _ Ha). simpl. by eexists. }
  rewrite (an_it _ _ _ _ Ha). cbn [peaks_below Peaks.next].
  pose proof (Z.pow_gt_1 2 (Z.of_nat (S h)) ltac:(lia)) as [Hgt _]. specialize (Hgt ltac:(lia)).
  destruct (Z.leb_spec (2 ^ Z.of_nat (S h)) 1); [lia|].
  replace (Z.of_nat h + 1) with (Z.of_nat (S h)) by lia.
  destruct (Z.leb_spec (2 ^ Z.of_nat h) n) as [Hge|Hlt].
  - destruct (at_peak _ _ _ _ Ha Hge) as (Ha' & Hlt' & E). destruct Ha.
    pose proof (mmr_size_nonneg (n - 2 ^ Z.of_nat h) ltac:(lia)).
    pose proof (peak_beyond h (n - 2 ^ Z.of_nat h) ltac:(lia)).
    assert (2 ^ Z.of_nat (S h) ≤ 2 ^ 63) by (apply Z.pow_le_mono_r; lia).
    destruct (Z.ltb_spec (base + 2 ^ Z.of_nat (S h) - 2) (base + mmr_size n)); [|lia].
    rewrite trailing_zeros_pow by lia. unfold checked_sub, checked_add.
    destruct (Z.leb_spec 1 (Z.of_nat (S h))); [|lia]. cbn [mbind option_bind].
    destruct (Z.ltb_spec (base + 2 ^ Z.of_nat (S h) - 2 + (2 ^ Z.of_nat (S h) - 1)) (2 ^ 64)); [|lia].
    cbn [mbind option_bind].
    destruct (Z.leb_spec (base + mmr_size n) (base + 2 ^ Z.of_nat (S h) - 2 + (2 ^ Z.of_nat (S h) - 1)));
      [|lia].
    eexists _, (S h), _, _. split; [do 4 f_equal; lia|]. split; [exact Ha'|]. cbn [peaks_below].
    destruct (Z.leb_spec (2 ^ Z.of_nat h) (n - 2 ^ Z.of_nat h)); [lia|done].
  - destruct Ha. pose proof (peak_beyond h n ltac:(lia)).
    destruct (Z.ltb_spec (base + 2 ^ Z.of_nat (S h) - 2) (base + mmr_size n)); [lia|].
    rewrite shiftr_pow by lia. replace (Z.of_nat (S h) - 1) with (Z.of_nat h) by lia.
    assert (2 ^ Z.of_nat (S h) = 2 * 2 ^ Z.of_nat h) as E
      by (rewrite Nat2Z.inj_succ, Z.pow_succ_r by lia; done).
    unfold checked_sub. destruct (Z.leb_spec (2 ^ Z.of_nat h) (base + 2 ^ Z.of_nat (S h) - 2)).
    + cbn [mbind option_bind]. apply IH; [|lia]. split; [|lia..]. f_equal; lia.
    + exfalso. assert (n = 0) as -> by lia. unfold mmr_size in an_size0. simpl in an_size0. lia.
Qed.

Lemma peaks_below_length h base n : (length (peaks_below h base n) ≤ h)%nat.
Proof.
  revert base n. induction h as [|h IH]; intros base n; simpl; [lia|].
  case_match; simpl; [specialize (IH (base + 2 ^ (Z.of_nat h + 1) - 1) (n - 2 ^ Z.of_nat h)); lia|].
  specialize (IH base n). lia.
Qed.

Lemma collect_spec fuel : ∀ it h base n,
  at_node it h base n → (length (peaks_below h base n) < fuel)%nat →
  Peaks.collect fuel it = Some (peaks_below h base n).
Proof.
  induction fuel as [|fuel IH]; intros it h base n Ha Hl; [lia|]. cbn [Peaks.collect].
  pose proof (next_spec h it base n 65 Ha ltac:(pose proof (an_height _ _ _ _ Ha); lia)) as Hn.
  destruct (peaks_below h base n) as [|x rest].
  - destruct Hn as (it' & ->). done.
  - destruct Hn as (it' & h' & base' & n' & -> & Ha' & <-). cbn [mbind option_bind].
    rewrite (IH _ _ _ _ Ha') by (simpl in Hl; lia). done.
Qed.

(** The number of bits of the leaf count bounds the heights. *)
Lemma peaks_below_more h h' base n : (h ≤ h')%nat → 0 ≤ n < 2 ^ Z.of_nat h →
  peaks_below h' base n = peaks_below h base n.
Proof.
  intros Hle Hn. induction Hle as [|h' Hle IH]; [done|]. cbn [peaks_below].
  destruct (Z.leb_spec (2 ^ Z.of_nat h') n) as [Hge|]; [|done]. exfalso.
  assert (2 ^ Z.of_nat h ≤ 2 ^ Z.of_nat h') by (apply Z.pow_le_mono_r; lia). lia.
Qed.

Lemma mmr_size_pos n : 0 < n → n ≤ mmr_size n.
Proof. intros. unfold mmr_size. pose proof (count_ones_le n). lia. Qed.

Lemma new_at_node n : 0 < n ≤ 2 ^ 62 → ∃ it h,
  Peaks.new (mmr_size n) = Some it ∧ at_node it h 0 n.
Proof.
  intros Hn. pose proof (mmr_size_pos n ltac:(lia)).
  assert (mmr_size n ≤ 2 ^ 63 - 1) as Hmax.
  { rewrite <- mmr_size_62.
    exact (proj1 (mmr_size_mono n (2 ^ 62) ltac:(lia) ltac:(lia)) ltac:(lia)). }
  unfold Peaks.new. destruct (Z.eqb_spec (mmr_size n) 0); [lia|].
  rewrite start_mask_spec by lia.
  pose proof (bit_length_bounds (mmr_size n) ltac:(lia)) as Hb.
  assert (bit_length (mmr_size n) ≤ 63) by (apply bit_length_le; lia).
  assert (1 ≤ bit_length (mmr_size n)) by (assert (¬ bit_length (mmr_size n) ≤ 0); [|lia];
    intros H'; apply bit_length_le in H'; simpl in H'; lia).
  set (m := bit_length (mmr_size n)) in *. clearbody m.
  assert (2 ^ m ≤ 2 ^ 63) by (apply Z.pow_le_mono_r; lia).
  destruct (Z.eqb_spec (2 ^ m - 1) (2 ^ 64 - 1)); [lia|].
  rewrite trailing_ones_mask, Z.shiftl_1_l by lia.
  unfold checked_sub. destruct (Z.leb_spec 1 (2 ^ m - 1)); [|lia]. cbn [mbind option_bind].
  eexists _, (Z.to_nat m). split; [done|]. split; rewrite ?Z2Nat.id by lia; try lia.
  f_equal; lia.
Qed.

Lemma peaks_spec n : 0 ≤ n ≤ 2 ^ 62 → Peaks.peaks (mmr_size n) = Some (peaks_below 63 0 n).
Proof.
  intros Hn. unfold Peaks.peaks. destruct (decide (n = 0)) as [->|Hne].
  { vm_compute. reflexivity. }
  destruct (new_at_node n ltac:(lia)) as (it & h & -> & Ha). cbn [mbind option_bind].
  rewrite (collect_spec 65 it h 0 n Ha)
    by (pose proof (peaks_below_length h 0 n); destruct Ha; lia).
  f_equal. symmetry. destruct Ha. by apply peaks_below_more.
Qed.

(** ** The last leaf *)

Lemma count_ones_mask k : 0 ≤ k → count_ones (2 ^ k - 1) = k.
Proof.
  intros Hk. pattern k. apply natlike_ind; [done|clear k Hk|done].
  intros k Hk IH. rewrite Z.pow_succ_r by lia. pose proof (Z.pow_pos_nonneg 2 k ltac:(lia) Hk).
  replace (2 * 2 ^ k - 1) with (2 * (2 ^ k - 1) + 1) by lia.
  rewrite count_ones_double, IH by lia. lia.
Qed.

Lemma last_peak h : ∀ base n, 0 < n < 2 ^ Z.of_nat h →
  ∃ pos k, last (peaks_below h base n) = Some (pos, k) ∧ pos - k = base + mmr_size (n - 1) ∧ 0 ≤ k.
Proof.
  induction h as [|h IH]; intros base n Hn; [simpl in Hn; lia|]. cbn [peaks_below].
  rewrite Nat2Z.inj_succ, Z.pow_succ_r in Hn by lia.
  pose proof (Z.pow_pos_nonneg 2 (Z.of_nat h) ltac:(lia) ltac:(lia)).
  destruct (Z.leb_spec (2 ^ Z.of_nat h) n) as [Hge|Hlt]; [|apply IH; lia].
  destruct (decide (n = 2 ^ Z.of_nat h)) as [->|Hne].
  - eexists _, (Z.of_nat h). rewrite Z.sub_diag. rewrite (peaks_below_more 0 h) by (simpl; lia). simpl.
    split; [done|]. unfold mmr_size. rewrite count_ones_mask, pow_succ by lia. lia.
  - destruct (IH (base + 2 ^ (Z.of_nat h + 1) - 1) (n - 2 ^ Z.of_nat h) ltac:(lia))
      as (pos & k & Hl & E & Hk).
    exists pos, k. split; [|split; [|done]].
    + destruct (peaks_below h _ _); [done|exact Hl].
    + rewrite E. replace (n - 1) with (2 ^ Z.of_nat h + (n - 2 ^ Z.of_nat h - 1)) by lia.
      rewrite mmr_size_high by lia. lia.
Qed.

Lemma last_leaf_of_peaks size l pos k : size ≠ 0 → Peaks.peaks size = Some l →
  last l = Some (pos, k) → k ≤ pos → Peaks.last_leaf_pos size = Some (pos - k).
Proof.
  intros Hs E Hl Hk. unfold Peaks.last_leaf_pos. destruct (Z.eqb_spec size 0); [done|].
  rewrite E. cbn [mbind option_bind]. rewrite Hl. cbn [mbind option_bind].
  unfold Position.checked_sub, checked_sub. destruct (Z.leb_spec k pos); [done|lia].
Qed.

Lemma last_leaf_pos_spec n : 0 < n ≤ 2 ^ 62 →
  Peaks.last_leaf_pos (mmr_size n) = Some (mmr_size (n - 1)).
Proof.
  intros Hn. pose proof (mmr_size_pos n ltac:(lia)).
  pose proof (mmr_size_nonneg (n - 1) ltac:(lia)).
  assert (0 < n < 2 ^ Z.of_nat 63) as Hn' by (change (Z.of_nat 63) with 63; lia).
  destruct (last_peak 63 0 n Hn') as (pos & k & Hl & E & Hk).
  rewrite (last_leaf_of_peaks (mmr_size n) (peaks_below 63 0 n) pos k ltac:(lia)
    (peaks_spec n ltac:(lia)) Hl ltac:(lia)).
  f_equal. lia.
Qed.

(** ** The nearest size *)

Lemma search_spec fuel : ∀ size low high,
  0 ≤ low ≤ high → high < 2 ^ 63 → high - low < 2 ^ (Z.of_nat fuel - 1) → (1 ≤ fuel)%nat →
  mmr_size low ≤ size < mmr_size (high + 1) →
  ∃ n, Peaks.search fuel size low high = Some n ∧ 0 ≤ n ≤ high ∧
    mmr_size n ≤ size < mmr_size (n + 1).
Proof.
  induction fuel as [|fuel IH]; intros size low high Hl Hh Hd Hf Hs; [lia|]. cbn [Peaks.search].
  destruct (Z.ltb_spec low high) as [Hlt|Hge]; [|exists low; assert (high = low) as -> by lia; split; [done|lia]].
  assert (1 ≤ fuel)%nat as Hf'.
  { destruct fuel; [|lia]. simpl in Hd. lia. }
  replace (Z.of_nat (S fuel) - 1) with (Z.of_nat fuel - 1 + 1) in Hd by lia. rewrite pow_succ in Hd by lia.
  unfold checked_add. destruct (Z.ltb_spec (low + high) (2 ^ 64)); [|lia]. cbn [mbind option_bind].
  unfold div_ceil. set (mid := (low + high + 2 - 1) / 2).
  assert (low < mid ≤ high ∧ mid - 1 - low < 2 ^ (Z.of_nat fuel - 1) ∧ high - mid < 2 ^ (Z.of_nat fuel - 1))
    as (Hm & Hd1 & Hd2).
  { pose proof (Z.div_mod (low + high + 2 - 1) 2 ltac:(lia)).
    pose proof (Z.mod_pos_bound (low + high + 2 - 1) 2 ltac:(lia)). subst mid. lia. }
  clearbody mid. unfold checked_mul. destruct (Z.ltb_spec (2 * mid) (2 ^ 64)); [|lia].
  cbn [mbind option_bind]. pose proof (count_ones_le mid ltac:(lia)).
  unfold checked_sub. destruct (Z.leb_spec (count_ones mid) (2 * mid)); [|lia]. cbn [mbind option_bind].
  change (2 * mid - count_ones mid) with (mmr_size mid).
  destruct (Z.leb_spec (mmr_size mid) size).
  - by apply IH; [lia..| |lia].
  - destruct (Z.leb_spec 1 mid); [|lia]. cbn [mbind option_bind].
    destruct (IH size low (mid - 1)) as (n & -> & Hn & Hs'); [lia..| |].
    { replace (mid - 1 + 1) with mid by lia. lia. }
    exists n. split; [done|lia].
Qed.

Lemma to_nearest_size_spec size : 0 ≤ size ≤ MAX_POSITION →
  ∃ n, 0 ≤ n ∧ Peaks.to_nearest_size size = Some (mmr_size n) ∧ mmr_size n ≤ size < mmr_size (n + 1).
Proof.
  unfold MAX_POSITION. intros Hs. unfold Peaks.to_nearest_size, MAX_POSITION.
  destruct (Z.ltb_spec 0x7FFFFFFFFFFFFFFE size); [lia|].
  destruct (Z.eqb_spec size 0) as [->|Hne].
  { exists 0. split; [done|]. split; [done|]. vm_compute. split; [discriminate|done]. }
  destruct (search_spec 65 size 0 size) as (n & -> & Hn & Hs'); [lia|lia|simpl; lia|lia|..].
  { pose proof (mmr_size_pos (size + 1) ltac:(lia)). unfold mmr_size at 1. simpl. lia. }
  exists n. split; [lia|]. cbn [mbind option_bind]. unfold checked_mul, checked_sub.
  destruct (Z.ltb_spec (2 * n) (2 ^ 64)); [|lia]. cbn [mbind option_bind].
  pose proof (count_ones_le n ltac:(lia)). destruct (Z.leb_spec (count_ones n) (2 * n)); [|lia]. done.
Qed.

(** ** Heights *)

(** [tree_node h k pos]: in the post-order numbering of the perfect tree of
    height [h], node [pos] has height [k]. *)
Inductive tree_node : Z → Z → Z → Prop :=
| node_root h : 0 ≤ h → tree_node h h (2 ^ (h + 1) - 2)
| node_left h k pos : tree_node h k pos → tree_node (h + 1) k pos
| node_right h k pos : tree_node h k pos → tree_node (h + 1) k (2 ^ (h + 1) - 1 + pos).

Lemma tree_node_bounds h k pos : tree_node h k pos → 0 ≤ k ≤ h ∧ 0 ≤ pos ≤ 2 ^ (h + 1) - 2.
Proof.
  induction 1 as [h Hh|h k pos _ IH|h k pos _ IH].
  - pose proof (Z.pow_gt_1 2 (h + 1) ltac:(lia)) as [Hgt _]. lia.
  - rewrite (pow_succ (h + 1)) by lia. lia.
  - rewrite (pow_succ (h + 1)) by lia. lia.
Qed.

(** Every position below the root of the tree is one of its nodes. *)
Lemma tree_node_total h : 0 ≤ h → ∀ pos, 0 ≤ pos ≤ 2 ^ (h + 1) - 2 → ∃ k, tree_node h k pos.
Proof.
  intros Hh. pattern h. apply natlike_ind; [|clear h Hh|done].
  - intros pos Hp. simpl in Hp. assert (pos = 0) as -> by lia. exists 0. by apply (node_root 0).
  - intros h Hh IH pos Hp. rewrite <- Z.add_1_r in *. rewrite pow_succ in Hp by lia.
    destruct (decide (pos = 2 ^ (h + 1 + 1) - 2)) as [->|Hne].
    { exists (h + 1). apply node_root. lia. }
    rewrite (pow_succ (h + 1)) in Hne by lia.
    destruct (decide (pos ≤ 2 ^ (h + 1) - 2)) as [Hle|Hgt].
    + destruct (IH pos) as [k Hk]; [lia|]. exists k. by apply node_left.
    + destruct (IH (pos - (2 ^ (h + 1) - 1))) as [k Hk]; [lia|]. exists k.
      replace pos with (2 ^ (h + 1) - 1 + (pos - (2 ^ (h + 1) - 1))) by lia. by apply node_right.
Qed.

Lemma tree_node_shrink h k pos : tree_node (h + 1) k pos → 0 ≤ h → pos ≤ 2 ^ (h + 1) - 2 →
  tree_node h k pos.
Proof.
  intros Ht Hh Hp. remember (h + 1) as h1 eqn:E1. destruct Ht as [h' Hh'|h' k pos Ht|h' k pos Ht]; subst.
  - exfalso. rewrite (pow_succ (h + 1)) in Hp by lia.
    pose proof (Z.pow_pos_nonneg 2 (h + 1)). lia.
  - by assert (h' = h) as -> by lia.
  - exfalso. assert (h' = h) as -> by lia. apply tree_node_bounds in Ht. lia.
Qed.

Lemma shiftr_mask k : 0 ≤ k → Z.shiftr (2 ^ (k + 1) - 1) 1 = 2 ^ k - 1.
Proof.
  intros. rewrite Z.shiftr_div_pow2, pow_succ by lia. change (2 ^ 1) with 2.
  symmetry. apply Z.div_unique_pos with (r := 1); lia.
Qed.

(** From the root every step goes to the first node of the right subtree and
    one further. *)
Lemma height_loop_root j : 0 ≤ j → ∀ fuel d, 0 ≤ d → j + d < 2 ^ 32 → j < Z.of_nat fuel →
  height_loop fuel (2 ^ (j + 1) - 2 + d) (2 ^ j - 1) = Some (j + d).
Proof.
  intros Hj. pattern j. apply natlike_ind; [|clear j Hj|done].
  - intros fuel d Hd Hlim Hf. destruct fuel as [|fuel]; [lia|]. simpl. f_equal.
    unfold wrap. rewrite Z.mod_small; lia.
  - intros j Hj IH fuel d Hd Hlim Hf. rewrite <- Z.add_1_r in *.
    destruct fuel as [|fuel]; [lia|]. cbn [height_loop].
    pose proof (Z.pow_pos_nonneg 2 j ltac:(lia) Hj). rewrite shiftr_mask by lia.
    rewrite (pow_succ (j + 1)) by lia.
    destruct (Z.eqb_spec (2 ^ (j + 1) - 1) 0); [rewrite pow_succ in *; lia|].
    destruct (Z.leb_spec (2 ^ (j + 1) - 1) (2 * 2 ^ (j + 1) - 2 + d)); [|rewrite pow_succ in *; lia].
    replace (2 * 2 ^ (j + 1) - 2 + d - (2 ^ (j + 1) - 1)) with (2 ^ (j + 1) - 2 + (d + 1)) by lia.
    rewrite IH by lia. f_equal. lia.
Qed.

Lemma height_loop_spec h k pos : tree_node h k pos → h < 2 ^ 32 → ∀ fuel, h < Z.of_nat fuel →
  height_loop fuel pos (2 ^ h - 1) = Some k.
Proof.
  induction 1 as [h Hh|h k pos Ht IH|h k pos Ht IH]; intros Hlim fuel Hf.
  - replace (2 ^ (h + 1) - 2) with (2 ^ (h + 1) - 2 + 0) by lia.
    rewrite height_loop_root by lia. f_equal. lia.
  - apply tree_node_bounds in Ht. destruct fuel as [|fuel]; [lia|]. cbn [height_loop].
    pose proof (Z.pow_gt_1 2 (h + 1) ltac:(lia)) as [Hgt _]. specialize (Hgt ltac:(lia)).
    destruct (Z.eqb_spec (2 ^ (h + 1) - 1) 0); [lia|].
    destruct (Z.leb_spec (2 ^ (h + 1) - 1) pos); [lia|]. rewrite shiftr_mask by lia. apply IH; lia.
  - apply tree_node_bounds in Ht. destruct fuel as [|fuel]; [lia|]. cbn [height_loop].
    pose proof (Z.pow_gt_1 2 (h + 1) ltac:(lia)) as [Hgt _]. specialize (Hgt ltac:(lia)).
    destruct (Z.eqb_spec (2 ^ (h + 1) - 1) 0); [lia|].
    destruct (Z.leb_spec (2 ^ (h + 1) - 1) (2 ^ (h + 1) - 1 + pos)); [|lia].
    rewrite shiftr_mask by lia. replace (2 ^ (h + 1) - 1 + pos - (2 ^ (h + 1) - 1)) with pos by lia.
    apply IH; lia.
Qed.

(** A node keeps its height in every larger tree, so the tree can be the one the
    code starts from. *)
Lemma tree_node_at h m k pos : 0 ≤ m ≤ h → tree_node h k pos → pos ≤ 2 ^ (m + 1) - 2 → tree_node m k pos.
Proof.
  intros Hm Ht Hp. replace h with (m + (h - m)) in Ht by lia.
  revert Ht. pattern (h - m). apply natlike_ind; [by rewrite Z.add_0_r| |lia].
  intros d Hd IH Ht. apply IH. replace (m + Z.succ d) with (m + d + 1) in Ht by lia.
  apply tree_node_shrink; [done|lia|].
  assert (2 ^ (m + 1) ≤ 2 ^ (m + d + 1)) by (apply Z.pow_le_mono_r; lia). lia.
Qed.

Lemma pos_to_height_spec h k pos : tree_node h k pos → 0 < h ≤ 63 → pos_to_height pos = Some k.
Proof.
  intros Ht Hh. pose proof (tree_node_bounds _ _ _ Ht) as [Hk Hp].
  assert (2 ^ (h + 1) ≤ 2 ^ 64) by (apply Z.pow_le_mono_r; lia).
  unfold pos_to_height. destruct (Z.eqb_spec pos 0) as [->|Hne].
  { apply (tree_node_at h 0) in Ht; [|lia|done]. apply tree_node_bounds in Ht. f_equal. lia. }
  rewrite start_mask_spec by lia.
  pose proof (bit_length_bounds pos ltac:(lia)) as Hb.
  assert (bit_length pos ≤ 64) by (apply bit_length_le; lia).
  assert (0 < bit_length pos) by (assert (¬ bit_length pos ≤ 0); [|lia];
    intros H'; apply bit_length_le in H'; simpl in H'; lia).
  destruct (decide (bit_length pos ≤ h)) as [Hle|Hgt].
  - apply height_loop_spec; [|lia..]. apply (tree_node_at h); [lia|done|]. rewrite pow_succ by lia. lia.
  - apply height_loop_spec; [|lia..].
    assert (bit_length pos ≤ h + 1) by (apply bit_length_le; lia).
    replace (bit_length pos) with (h + 1) by lia. by apply node_left.
Qed.

(** ** Paths *)

(** The path from the root of the tree of height [h] at [base] to its leaf [k]:
    at every inner node, the node and the child that is not on the path. *)
Fixpoint path_to (h : nat) (base k : Z) : list (Z * Z) :=
  match h with
  | O => []
  | S h =>
      let half := 2 ^ Z.of_nat h in
      let root := base + 4 * half - 2 in
      let left := base + 2 * half - 2 in
      let right := root - 1 in
      if half <=? k then (root, left) :: path_to h (base + 2 * half - 1) (k - half)
      else (root, right) :: path_to h base k
  end.

Lemma path_to_length h base k : length (path_to h base k) = h.
Proof.
  revert base k. induction h as [|h IH]; intros base k; simpl; [done|].
  case_match; simpl; by rewrite IH.
Qed.

Lemma path_collect h : ∀ fuel base k,
  (h < fuel)%nat → 0 ≤ base → 0 ≤ k < 2 ^ Z.of_nat h →
  Path.collect fuel (mkPath (base + mmr_size k) (base + 2 * 2 ^ Z.of_nat h - 2) (2 ^ Z.of_nat h)) =
  Some (path_to h base k).
Proof.
  induction h as [|h IH]; intros fuel base k Hf Hb Hk; (destruct fuel as [|fuel]; [lia|]); [done|].
  cbn [Path.collect Path.next path_to].
  rewrite Nat2Z.inj_succ, Z.pow_succ_r in * by lia.
  pose proof (Z.pow_pos_nonneg 2 (Z.of_nat h) ltac:(lia) ltac:(lia)).
  pose proof (leaf_side (Z.of_nat h) k ltac:(lia)) as Hside. rewrite pow_succ in Hside by lia.
  specialize (Hside ltac:(lia)).
  destruct (Z.leb_spec (2 * 2 ^ Z.of_nat h) 1); [lia|].
  unfold checked_sub. destruct (Z.leb_spec (2 * 2 ^ Z.of_nat h) (base + 2 * (2 * 2 ^ Z.of_nat h) - 2)); [|lia].
  cbn [mbind option_bind]. destruct (Z.leb_spec 1 (base + 2 * (2 * 2 ^ Z.of_nat h) - 2)); [|lia].
  cbn [mbind option_bind].
  replace (Z.shiftr (2 * 2 ^ Z.of_nat h) 1) with (2 ^ Z.of_nat h)
    by (rewrite <- pow_succ by lia; rewrite shiftr_pow by lia; f_equal; lia).
  destruct (Z.ltb_spec (base + 2 * (2 * 2 ^ Z.of_nat h) - 2 - 2 * 2 ^ Z.of_nat h) (base + mmr_size k));
    destruct (Z.leb_spec (2 ^ Z.of_nat h) k); try lia; cbn [mbind option_bind].
  - specialize (IH fuel (base + 2 * 2 ^ Z.of_nat h - 1) (k - 2 ^ Z.of_nat h)).
    replace (base + 2 * 2 ^ Z.of_nat h - 1 + 2 * 2 ^ Z.of_nat h - 2)
      with (base + 2 * (2 * 2 ^ Z.of_nat h) - 2 - 1) in IH by lia.
    replace (base + 2 * 2 ^ Z.of_nat h - 1 + mmr_size (k - 2 ^ Z.of_nat h))
      with (base + mmr_size k) in IH by lia.
    rewrite IH by lia. cbn [mbind option_bind]. do 3 f_equal; lia.
  - specialize (IH fuel base k).
    replace (base + 2 * 2 ^ Z.of_nat h - 2)
      with (base + 2 * (2 * 2 ^ Z.of_nat h) - 2 - 2 * 2 ^ Z.of_nat h) in IH by lia.
    rewrite IH by lia. cbn [mbind option_bind]. do 3 f_equal; lia.
Qed.

(** ** Peaks that get a parent *)

Lemma trailing_ones_odd z : 0 ≤ z → trailing_ones (2 * z + 1) = 1 + trailing_ones z.
Proof. destruct z; [done|done|lia]. Qed.
Lemma trailing_ones_even z : 0 ≤ z → trailing_ones (2 * z + 0) = 0.
Proof. destruct z; [done|done|lia]. Qed.

Lemma trailing_ones_le z : 0 ≤ z → 0 ≤ trailing_ones z ≤ count_ones z.
Proof.
  destruct z as [|p|p]; cbn [trailing_ones count_ones]; try lia. intros _.
  induction p; cbn [pos_trailing_ones pos_ones]; lia.
Qed.

Lemma trailing_ones_high h k : 0 ≤ h → 0 ≤ k < 2 ^ h → k ≠ 2 ^ h - 1 →
  trailing_ones (2 ^ h + k) = trailing_ones k.
Proof.
  intros Hh. revert k. pattern h. apply natlike_ind; [|clear h Hh|done].
  - intros k Hk Hne. change (2 ^ 0) with 1 in *. lia.
  - intros h Hh IH k Hk Hne. rewrite Z.pow_succ_r in * by lia.
    destruct (half_bit k) as (y & b & -> & Hy & Hb); [lia|].
    replace (2 * 2 ^ h + (2 * y + b)) with (2 * (2 ^ h + y) + b) by lia.
    assert (b = 0 ∨ b = 1) as [-> | ->] by lia.
    + rewrite !trailing_ones_even by lia. done.
    + rewrite !trailing_ones_odd, IH by lia. done.
Qed.

Lemma count_ones_succ n : 0 ≤ n → count_ones (n + 1) = count_ones n + 1 - trailing_ones n.
Proof.
  destruct n as [|p|p]; [done| |lia]. intros _.
  induction p as [p IH|p _|]; [|change (1 + pos_ones p = pos_ones p + 1 - 0); lia|done].
  replace (Zpos p~1 + 1) with (2 * (Zpos p + 1) + 0) by lia. rewrite count_ones_double, IH by lia.
  cbn [count_ones trailing_ones pos_ones pos_trailing_ones]. lia.
Qed.

(** Adding a leaf adds it and one parent for every trailing peak. *)
Lemma mmr_size_succ n : 0 ≤ n → mmr_size (n + 1) = mmr_size n + 1 + trailing_ones n.
Proof. intros. unfold mmr_size. rewrite count_ones_succ by done. lia. Qed.

Lemma peaks_below_count h : ∀ base n, 0 ≤ n < 2 ^ Z.of_nat h →
  Z.of_nat (length (peaks_below h base n)) = count_ones n.
Proof.
  induction h as [|h IH]; intros base n Hn.
  { assert (n = 0) as -> by (simpl in Hn; lia). done. }
  cbn [peaks_below]. rewrite Nat2Z.inj_succ, Z.pow_succ_r in Hn by lia.
  destruct (Z.leb_spec (2 ^ Z.of_nat h) n); [|apply IH; lia].
  cbn [length]. rewrite Nat2Z.inj_succ, IH by lia.
  replace n with (2 ^ Z.of_nat h + (n - 2 ^ Z.of_nat h)) at 2 by lia.
  rewrite count_ones_high by lia. lia.
Qed.

(** The last [t] elements. *)
Definition suffix {A} (t : Z) (l : list A) : list A := drop (length l - Z.to_nat t) l.

Lemma suffix_cons {A} t (x : A) l : 0 ≤ t ≤ Z.of_nat (length l) → suffix t (x :: l) = suffix t l.
Proof.
  intros Ht. unfold suffix. cbn [length].
  by replace (S (length l) - Z.to_nat t)%nat with (S (length l - Z.to_nat t)) by lia.
Qed.
Lemma suffix_all {A} t (l : list A) : Z.of_nat (length l) ≤ t → suffix t l = l.
Proof. intros Ht. unfold suffix. by replace (length l - Z.to_nat t)%nat with 0%nat by lia. Qed.

Definition trailing_peaks (h : nat) (base n : Z) : list Z :=
  (suffix (trailing_ones n) (peaks_below h base n)).*1.

Lemma needing_loop_spec h : ∀ base n acc last_height,
  0 ≤ n < 2 ^ Z.of_nat h → Z.of_nat h ≤ last_height →
  ∃ acc' last', needing_loop (peaks_below h base n) acc last_height = Some (acc', last') ∧
  (if last' =? 0 then acc' else []) =
    if (n =? 2 ^ Z.of_nat h - 1) && (last_height =? Z.of_nat h)
    then acc ++ (peaks_below h base n).*1 else trailing_peaks h base n.
Proof.
  induction h as [|h IH]; intros base n acc last_height Hn Hlast.
  { assert (n = 0) as -> by (simpl in Hn; lia). exists acc, last_height. split; [done|].
    simpl. rewrite app_nil_r. done. }
  unfold trailing_peaks. cbn [peaks_below]. rewrite Nat2Z.inj_succ, Z.pow_succ_r in * by lia.
  pose proof (Z.pow_pos_nonneg 2 (Z.of_nat h) ltac:(lia) ltac:(lia)).
  destruct (Z.leb_spec (2 ^ Z.of_nat h) n) as [Hge|Hlt].
  - cbn [needing_loop]. set (p := base + 2 ^ (Z.of_nat h + 1) - 2). set (base' := base + 2 ^ (Z.of_nat h + 1) - 1).
    rewrite (proj2 (Z.ltb_lt 0 last_height)), (proj2 (Z.ltb_lt (Z.of_nat h) last_height)) by lia.
    cbn [andb].
    destruct (IH base' (n - 2 ^ Z.of_nat h)
      ((if Z.of_nat h =? last_height - 1 then acc else []) ++ [p]) (Z.of_nat h)) as (acc' & last' & -> & E);
      [lia..|]. exists acc', last'. split; [done|]. rewrite E. clear E IH. rewrite Z.eqb_refl, andb_true_r.
    pose proof (peaks_below_count h base' (n - 2 ^ Z.of_nat h) ltac:(lia)) as Hc.
    destruct (Z.eqb_spec (n - 2 ^ Z.of_nat h) (2 ^ Z.of_nat h - 1)) as [Hfull|Hpart].
    + destruct (Z.eqb_spec n (2 * 2 ^ Z.of_nat h - 1)); [|lia]. cbn [andb].
      destruct (Z.eqb_spec (Z.of_nat h) (last_height - 1)), (Z.eqb_spec last_height (Z.succ (Z.of_nat h)));
        try lia; cbn [fmap list_fmap fst]; [by rewrite <- app_assoc|].
      rewrite suffix_all; [done|]. cbn [length]. rewrite Nat2Z.inj_succ, Hc.
      replace n with (2 ^ (Z.of_nat h + 1) - 1) at 2 by (rewrite pow_succ; lia).
      rewrite Hfull, count_ones_mask, trailing_ones_mask by lia. lia.
    + destruct (Z.eqb_spec n (2 * 2 ^ Z.of_nat h - 1)); [lia|]. cbn [andb].
      assert (trailing_ones n = trailing_ones (n - 2 ^ Z.of_nat h)) as Et.
      { rewrite <- (trailing_ones_high (Z.of_nat h) (n - 2 ^ Z.of_nat h)) by lia. f_equal. lia. }
      rewrite suffix_cons; [by rewrite Et|]. rewrite Et, Hc. apply trailing_ones_le. lia.
  - destruct (IH base n acc last_height) as (acc' & last' & -> & E); [lia..|].
    exists acc', last'. split; [done|]. rewrite E.
    rewrite (proj2 (Z.eqb_neq last_height (Z.of_nat h))), andb_false_r by lia.
    by rewrite (proj2 (Z.eqb_neq n (2 * 2 ^ Z.of_nat h - 1))) by lia.
Qed.

Lemma needing_of_peaks size l peaks h : Peaks.peaks size = Some l →
  needing_loop l [] u32_max = Some (peaks, h) →
  nodes_needing_parents size = Some (if h =? 0 then peaks else []).
Proof. intros E1 E2. unfold nodes_needing_parents. rewrite E1. simpl. by rewrite E2. Qed.

Lemma pin_of_peaks pos size l : Peaks.to_nearest_size pos = Some size → Peaks.peaks size = Some l →
  nodes_to_pin pos = Some l.*1.
Proof. intros E1 E2. unfold nodes_to_pin. rewrite E1. simpl. by rewrite E2. Qed.

(** ** Properties *)

(** on a range of [n] leaves the peak iterator yields, in decreasing height
    and without a panic, the root of one perfect tree for every bit of [n], and
    the last leaf it derives is the position of leaf [n - 1]. *)
Theorem peaks_correct n : 0 < n ≤ 2 ^ 62 →
  Peaks.peaks (mmr_size n) = Some (peaks_below 63 0 n) ∧
  Peaks.last_leaf_pos (mmr_size n) = Some (mmr_size (n - 1)).
Proof. intros Hn. split; [apply peaks_spec; lia|by apply last_leaf_pos_spec]. Qed.

Lemma peaks_correct_witness : Peaks.peaks 19 = Some (peaks_below 63 0 11).
Proof. exact (proj1 (peaks_correct 11 ltac:(lia))). Defined.

(** [to_nearest_size] returns the largest valid size that is not above the
    given one, so the nodes to pin are the peaks of the largest range that ends
    before it. *)
Theorem nearest_size_correct size : 0 ≤ size ≤ MAX_POSITION →
  ∃ n, 0 ≤ n ≤ 2 ^ 62 ∧ Peaks.to_nearest_size size = Some (mmr_size n) ∧
    mmr_size n ≤ size < mmr_size (n + 1) ∧
    nodes_to_pin size = Some (peaks_below 63 0 n).*1.
Proof.
  intros Hs. destruct (to_nearest_size_spec size Hs) as (n & Hn & E & Hb).
  assert (n ≤ 2 ^ 62) as Hle.
  { destruct (decide (n ≤ 2 ^ 62)) as [|Hgt]; [done|].
    pose proof (mmr_size_strict (2 ^ 62) n ltac:(lia) ltac:(lia)) as Hm.
    rewrite mmr_size_62 in Hm. unfold MAX_POSITION in Hs. lia. }
  exists n. split; [lia|]. split; [done|]. split; [done|].
  exact (pin_of_peaks size (mmr_size n) _ E (peaks_spec n (conj Hn Hle))).
Qed.

Lemma nearest_size_correct_witness : ∃ n, 0 ≤ n ≤ 2 ^ 62 ∧ Peaks.to_nearest_size 21 = Some (mmr_size n).
Proof.
  destruct (nearest_size_correct 21 ltac:(unfold MAX_POSITION; lia)) as (n & Hn & E & _).
  exists n. split; [exact Hn|exact E].
Defined.

(** the nodes that need a parent when a leaf is added to a range of [n]
    leaves are the peaks of the trailing one bits of [n], and the range grows by
    the leaf and one parent for each of them. *)
Theorem nodes_needing_parents_correct n : 0 ≤ n ≤ 2 ^ 62 →
  nodes_needing_parents (mmr_size n) = Some (trailing_peaks 63 0 n) ∧
  Z.of_nat (length (trailing_peaks 63 0 n)) = trailing_ones n ∧
  mmr_size (n + 1) = mmr_size n + 1 + Z.of_nat (length (trailing_peaks 63 0 n)).
Proof.
  intros Hn. assert (0 ≤ n < 2 ^ Z.of_nat 63) as Hn' by (change (Z.of_nat 63) with 63; lia).
  assert (Z.of_nat (length (trailing_peaks 63 0 n)) = trailing_ones n) as Hl.
  { unfold trailing_peaks, suffix. rewrite length_fmap, length_drop.
    pose proof (peaks_below_count 63 0 n Hn'). pose proof (trailing_ones_le n ltac:(lia)). lia. }
  split; [|split; [done|rewrite Hl; apply mmr_size_succ; lia]].
  destruct (needing_loop_spec 63 0 n [] u32_max Hn') as (acc & h & E & R); [by vm_compute|].
  rewrite (needing_of_peaks _ _ _ _ (peaks_spec n Hn) E), R.
  by rewrite (proj2 (Z.eqb_neq u32_max (Z.of_nat 63))), andb_false_r by (by vm_compute).
Qed.

Lemma nodes_needing_parents_correct_witness :
  nodes_needing_parents 19 = Some (trailing_peaks 63 0 11).
Proof. exact (proj1 (nodes_needing_parents_correct 11 ltac:(lia))). Defined.

Example needing_19 : nodes_needing_parents 19 = Some [17; 18].
Proof. vm_compute. done. Qed.

(** [pos_to_height] is the height of the node in the post-order layout, for
    every position a range can have. *)
Theorem pos_to_height_correct pos : 0 ≤ pos ≤ MAX_POSITION →
  ∃ k, pos_to_height pos = Some k ∧ tree_node 62 k pos ∧
    ∀ k', tree_node 62 k' pos → k' = k.
Proof.
  unfold MAX_POSITION. intros Hp. destruct (tree_node_total 62 ltac:(lia) pos ltac:(lia)) as [k Hk].
  exists k. pose proof (pos_to_height_spec 62 k pos Hk ltac:(lia)) as E. split; [done|]. split; [done|].
  intros k' Hk'. pose proof (pos_to_height_spec 62 k' pos Hk' ltac:(lia)). congruence.
Qed.

Lemma pos_to_height_correct_witness : ∃ k, pos_to_height 13 = Some k ∧ tree_node 62 k 13.
Proof.
  destruct (pos_to_height_correct 13 ltac:(unfold MAX_POSITION; lia)) as (k & E & Ht & _).
  exists k. split; [exact E|exact Ht].
Defined.

Example height_13 : pos_to_height 13 = Some 2.
Proof. vm_compute. done. Qed.

(** the path iterator yields, for every leaf of a perfect tree, the nodes
    from the root to the leaf's parent with the sibling of the next node of the
    path: one pair per level. *)
Theorem path_correct (h : nat) base k : (h ≤ 62)%nat → 0 ≤ base → 0 ≤ k < 2 ^ Z.of_nat h →
  Path.path (base + mmr_size k) (base + 2 * 2 ^ Z.of_nat h - 2) (Z.of_nat h) = Some (path_to h base k) ∧
  length (path_to h base k) = h.
Proof.
  intros Hh Hb Hk. split; [|apply path_to_length].
  unfold Path.path, Path.new. rewrite Z.shiftl_1_l. by apply path_collect; [lia|..].
Qed.

Lemma path_correct_witness : Path.path 3 6 2 = Some (path_to 2 0 2).
Proof. exact (proj1 (path_correct 2 0 2 ltac:(lia) ltac:(lia) ltac:(simpl; lia))). Defined.
End MmrIterator.
