(* ===== verification/MmrTree.v ===== *)
(** * Hashing a Merkle Mountain Range (storage/src/mmr/hasher.rs)

    [Hasher] is the trait, [Standard] its implementation over a hash of bytes.
    The rest is the reference the other files of the range are checked against:
    where the nodes of a range lie ([node_pos]), the digest of each of them
    ([tree]) and the root of a range ([range_root]), as functions of the leaf
    digests.  A node is named by its height [h] and its first leaf [k], a
    multiple of [2^h]. *)

From S2P Require Import Prelude Codec CodecTypes MmrPosition MmrIterator.
Import CodecTypes Mmr MmrIterator.

(** ** The trait *)

Record Hasher (D : Type) : Type := mkHasher {
  leaf_digest : Z → bytes → D;
  node_digest : Z → D → D → D;
  root_digest : Z → list D → D;
  hasher_digest : bytes → D;
}.
Arguments mkHasher {D} _ _ _ _.
Arguments leaf_digest {D} _ _ _.
Arguments node_digest {D} _ _ _ _.
Arguments root_digest {D} _ _ _.
Arguments hasher_digest {D} _ _.

(** What the proofs of a range rest on. *)
Class CollisionFree {D} (H : Hasher D) : Prop := {
  leaf_inj pos e e' : leaf_digest H pos e = leaf_digest H pos e' → e = e';
  node_inj pos l r l' r' : node_digest H pos l r = node_digest H pos l' r' → l = l' ∧ r = r';
  root_inj size size' l l' : root_digest H size l = root_digest H size' l' → size = size' ∧ l = l';
}.

(** ** The standard hasher *)

Module Standard.
Section Ops.
Context {D : Type} (hash : bytes → D) (as_ref : D → bytes).

(** The bytes fed to the hasher since it was last finalized. *)
Record Standard : Type := mkStandard { fed : bytes }.
Implicit Types s : Standard.

Definition new : Standard := mkStandard [].
Definition update s (data : bytes) : Standard := mkStandard (fed s ++ data).
Definition update_with_pos s (pos : Z) : Standard := update s (put_be 8 pos).
Definition update_with_digest s (d : D) : Standard := update s (as_ref d).
Definition update_with_element s (element : bytes) : Standard := update s element.
Definition finalize s : D * Standard := (hash (fed s), new).

Definition leaf_digest s (pos : Z) (element : bytes) : D * Standard :=
  let s := update_with_pos s pos in
  let s := update_with_element s element in
  finalize s.
Definition node_digest s (pos : Z) (left right : D) : D * Standard :=
  let s := update_with_pos s pos in
  let s := update_with_digest s left in
  let s := update_with_digest s right in
  finalize s.
Definition root s (size : Z) (peak_digests : list D) : D * Standard :=
  let s := update s (put_be 8 size) in
  let s := fold_left update_with_digest peak_digests s in
  finalize s.
Definition digest s (data : bytes) : D * Standard := finalize (update s data).

(** A hasher that was just made or finalized: each call leaves it so, and its
    digest does not depend on the calls before. *)
Definition hasher : Hasher D := mkHasher
  (λ pos e, (leaf_digest new pos e).1) (λ pos l r, (node_digest new pos l r).1)
  (λ size l, (root new size l).1) (λ data, (digest new data).1).
End Ops.

End Standard.

(** ** The standard hasher binds its inputs *)

Module StandardBinding.
Section Collisions.
Context {D : Type} (hash : bytes → D) (as_ref : D → bytes) (width : nat).
Context (Has_ref : ∀ d, length (as_ref d) = width) (Has_inj : ∀ d d', as_ref d = as_ref d' → d = d').
Context (Hwidth : (0 < width)%nat).

(** Two different byte strings with the same hash. *)
Definition collide (a b : bytes) : Prop := a ≠ b ∧ hash a = hash b.

Lemma fold_update l s : Standard.fed (fold_left (Standard.update_with_digest as_ref) l s) = Standard.fed s ++ concat (as_ref <$> l).
Proof.
  revert s. induction l as [|d l IH]; intros s; simpl; [by rewrite app_nil_r|].
  rewrite IH. simpl. by rewrite <- app_assoc.
Qed.

Lemma concat_digests_inj l l' : concat (as_ref <$> l) = concat (as_ref <$> l') → l = l'.
Proof.
  revert l'. induction l as [|d l IH]; intros [|d' l'] E; simpl in E; [done|..].
  - apply (f_equal length) in E. rewrite length_app, Has_ref in E. simpl in E. lia.
  - apply (f_equal length) in E. rewrite length_app, Has_ref in E. simpl in E. lia.
  - apply app_inv_length in E as [E1 E2]; [|by rewrite !Has_ref]. by rewrite (Has_inj _ _ E1), (IH _ E2).
Qed.

Lemma put_be_inj z z' : fits 64 z → fits 64 z' → put_be 8 z = put_be 8 z' → z = z'.
Proof.
  intros Hz Hz' E. apply (f_equal get_be) in E. rewrite !get_put_be in E.
  unfold fits in *. change (Z.of_nat 8 * 8) with 64 in E. by rewrite !Z.mod_small in E by lia.
Qed.

Lemma hash_prefix_inj z z' b b' : fits 64 z → fits 64 z' →
  hash (put_be 8 z ++ b) = hash (put_be 8 z' ++ b') → z = z' ∧ b = b' ∨ collide (put_be 8 z ++ b) (put_be 8 z' ++ b').
Proof.
  intros Hz Hz' E.
  destruct (decide (put_be 8 z ++ b = put_be 8 z' ++ b')) as [E'|Hne].
  - left. apply app_inv_length in E' as [E1 E2]; [|by rewrite !length_put_be]. split; [by apply put_be_inj|done].
  - by right.
Qed.

Notation hasher := (Standard.hasher hash as_ref).

Lemma leaf_bytes pos e : leaf_digest hasher pos e = hash (put_be 8 pos ++ e).
Proof. done. Qed.
Lemma node_bytes pos l r : node_digest hasher pos l r = hash (put_be 8 pos ++ as_ref l ++ as_ref r).
Proof. change (hash ((([] ++ put_be 8 pos) ++ as_ref l) ++ as_ref r) = hash (put_be 8 pos ++ as_ref l ++ as_ref r)). by rewrite <- !app_assoc. Qed.
Lemma root_bytes size l : root_digest hasher size l = hash (put_be 8 size ++ concat (as_ref <$> l)).
Proof.
  change (hash (Standard.fed (fold_left (Standard.update_with_digest as_ref) l
    (Standard.update Standard.new (put_be 8 size)))) = hash (put_be 8 size ++ concat (as_ref <$> l))).
  by rewrite fold_update.
Qed.

(** the digests of leaves, nodes and roots bind what they are computed from,
    and a leaf is told from an inner node by its position alone: two that are
    equal have equal inputs, or the bytes hashed for the two are a collision. *)
Theorem standard_binding pos pos' : fits 64 pos → fits 64 pos' →
  (∀ e e', leaf_digest hasher pos e = leaf_digest hasher pos' e' → pos = pos' ∧ e = e' ∨
    collide (put_be 8 pos ++ e) (put_be 8 pos' ++ e')) ∧
  (∀ l r l' r', node_digest hasher pos l r = node_digest hasher pos' l' r' →
    pos = pos' ∧ l = l' ∧ r = r' ∨ collide (put_be 8 pos ++ as_ref l ++ as_ref r) (put_be 8 pos' ++ as_ref l' ++ as_ref r')) ∧
  (∀ l l', root_digest hasher pos l = root_digest hasher pos' l' → pos = pos' ∧ l = l' ∨
    collide (put_be 8 pos ++ concat (as_ref <$> l)) (put_be 8 pos' ++ concat (as_ref <$> l'))) ∧
  (∀ e l r, leaf_digest hasher pos e = node_digest hasher pos' l r →
    pos = pos' ∧ e = as_ref l ++ as_ref r ∨ collide (put_be 8 pos ++ e) (put_be 8 pos' ++ as_ref l ++ as_ref r)).
Proof.
  intros Hp Hp'. split_and!; intros *; rewrite ?node_bytes, ?root_bytes, ?leaf_bytes;
    intros [[-> E]|Hc]%hash_prefix_inj; try done; try (by right); left; (split; [done|]); try done.
  - apply app_inv_length in E as [E1 E2]; [|by rewrite !Has_ref]. by rewrite (Has_inj _ _ E1), (Has_inj _ _ E2).
  - by apply concat_digests_inj.
Qed.
End Collisions.

(** The hash keeps the last byte. *)
Definition demo_hash (b : bytes) : Byte.byte := default (byte.of_Z 0) (last b).

Lemma standard_binding_witness :
  leaf_digest (Standard.hasher demo_hash (λ d, [d])) 3 [byte.of_Z 7] =
    leaf_digest (Standard.hasher demo_hash (λ d, [d])) 4 [byte.of_Z 7] ∧ collide demo_hash (put_be 8 3 ++ [byte.of_Z 7]) (put_be 8 4 ++ [byte.of_Z 7]).
Proof.
  assert (leaf_digest (Standard.hasher demo_hash (λ d, [d])) 3 [byte.of_Z 7] =
    leaf_digest (Standard.hasher demo_hash (λ d, [d])) 4 [byte.of_Z 7]) as E by reflexivity.
  split; [exact E|].
  destruct (standard_binding demo_hash (λ d, [d]) 1 (λ _, eq_refl) (λ d d', ltac:(by intros [=])) ltac:(lia) 3 4
    ltac:(unfold fits; lia) ltac:(unfold fits; lia)) as [Hl _].
  destruct (Hl _ _ E) as [[E' _]|Hc]; [discriminate|exact Hc].
Defined.
End StandardBinding.

(** ** Where nodes lie *)

Notation pow h := (2 ^ Z.of_nat h).

Definition aligned (h : nat) (k : Z) : Prop := 0 ≤ k ∧ (pow h | k).
Definition node_pos (h : nat) (k : Z) : Z := mmr_size k + 2 * pow h - 2.

Lemma pow_pos h : 0 < pow h.
Proof. apply Z.pow_pos_nonneg; lia. Qed.
Lemma pow_S h : pow (S h) = 2 * pow h.
Proof. rewrite Nat2Z.inj_succ, Z.pow_succ_r by lia. done. Qed.

Lemma aligned_S h k : aligned (S h) k → aligned h k.
Proof. intros [Hk [a ->]]. split; [done|]. exists (2 * a). rewrite pow_S. lia. Qed.
Lemma aligned_right h k : aligned (S h) k → aligned h (k + pow h).
Proof.
  intros [Hk [a ->]]. pose proof (pow_pos h). split; [lia|]. exists (2 * a + 1). rewrite pow_S. lia.
Qed.
Lemma aligned_end h k : aligned h k → aligned h (k + pow h).
Proof. intros [Hk [a ->]]. pose proof (pow_pos h). split; [lia|]. exists (a + 1). lia. Qed.
Lemma aligned_0 k : 0 ≤ k → aligned 0 k.
Proof. intros. split; [done|]. exists k. simpl. lia. Qed.
Lemma aligned_zero h : aligned h 0.
Proof. split; [done|]. apply Z.divide_0_r. Qed.
Lemma aligned_le h h' k : (h ≤ h')%nat → aligned h' k → aligned h k.
Proof. induction 1; [done|]. intros H'. by apply IHle, aligned_S. Qed.

Lemma count_ones_add h : ∀ a r, 0 ≤ a → 0 ≤ r < pow h → count_ones (a * pow h + r) = count_ones a + count_ones r.
Proof.
  induction h as [|h IH]; intros a r Ha Hr.
  { simpl in *. assert (r = 0) as -> by lia. rewrite Z.mul_1_r, Z.add_0_r. simpl. lia. }
  rewrite pow_S in *. destruct (half_bit r) as (y & b & -> & Hy & Hb); [lia|].
  replace (a * (2 * pow h) + (2 * y + b)) with (2 * (a * pow h + y) + b) by lia.
  pose proof (pow_pos h). rewrite !count_ones_double, IH by lia. lia.
Qed.

Lemma mmr_size_add h k r : aligned h k → 0 ≤ r < pow h → mmr_size (k + r) = mmr_size k + mmr_size r.
Proof.
  intros [Hk [a ->]] Hr. pose proof (pow_pos h). assert (0 ≤ a) by nia. unfold mmr_size.
  rewrite count_ones_add by done.
  pose proof (count_ones_add h a 0 ltac:(lia) ltac:(lia)) as E. rewrite Z.add_0_r in E. rewrite E.
  change (count_ones 0) with 0. lia.
Qed.

Lemma mmr_size_mask h : mmr_size (pow h - 1) = 2 * pow h - 2 - Z.of_nat h.
Proof. unfold mmr_size. rewrite count_ones_mask by lia. lia. Qed.

(** A node comes right after its last leaf and the nodes below it. *)
Lemma node_pos_last h k : aligned h k → node_pos h k = mmr_size (k + pow h - 1) + Z.of_nat h.
Proof.
  intros Hk. pose proof (pow_pos h). unfold node_pos.
  replace (k + pow h - 1) with (k + (pow h - 1)) by lia. rewrite (mmr_size_add h), mmr_size_mask by (done || lia). lia.
Qed.

Lemma trailing_ones_aligned h : ∀ e, aligned h e → 0 < e → Z.of_nat h ≤ trailing_ones (e - 1).
Proof.
  induction h as [|h IH]; intros e [He [a Ea]] Hpos.
  { pose proof (trailing_ones_le (e - 1)). lia. }
  rewrite pow_S in Ea. pose proof (pow_pos h). assert (0 < a) by nia.
  replace (e - 1) with (2 * (a * pow h - 1) + 1) by lia. rewrite trailing_ones_odd by nia.
  assert (aligned h (a * pow h)) as Ha by (split; [nia|by exists a]). specialize (IH _ Ha). nia.
Qed.

Lemma trailing_ones_aligned_inv h : ∀ z, 0 ≤ z → Z.of_nat h ≤ trailing_ones z → aligned h (z + 1).
Proof.
  induction h as [|h IH]; intros z Hz Ht; [apply aligned_0; lia|].
  destruct (half_bit z) as (y & b & -> & Hy & Hb); [lia|]. assert (b = 0 ∨ b = 1) as [-> | ->] by lia.
  - rewrite trailing_ones_even in Ht by lia. lia.
  - rewrite trailing_ones_odd in Ht by lia. destruct (IH y Hy ltac:(lia)) as [_ [a Ea]].
    split; [lia|]. exists a. rewrite pow_S. lia.
Qed.

Lemma node_pos_bounds h k : aligned h k → mmr_size (k + pow h - 1) ≤ node_pos h k < mmr_size (k + pow h).
Proof.
  intros Hk. rewrite node_pos_last by done. pose proof (pow_pos h). pose proof (aligned_end h k Hk) as He.
  destruct Hk as [Hk _].
  pose proof (mmr_size_succ (k + pow h - 1) ltac:(lia)) as Es. replace (k + pow h - 1 + 1) with (k + pow h) in Es by lia.
  pose proof (trailing_ones_aligned h (k + pow h) He ltac:(lia)). lia.
Qed.

Lemma node_pos_nonneg h k : aligned h k → 0 ≤ node_pos h k.
Proof.
  intros Hk. pose proof (node_pos_bounds h k Hk). pose proof (pow_pos h). destruct Hk.
  pose proof (mmr_size_nonneg (k + pow h - 1) ltac:(lia)). lia.
Qed.

(** A node precedes a leaf when all its leaves do. *)
Lemma node_pos_lt h k b : aligned h k → 0 ≤ b → node_pos h k < mmr_size b ↔ k + pow h ≤ b.
Proof.
  intros Hk Hb. pose proof (node_pos_bounds h k Hk). pose proof (pow_pos h). destruct Hk as [Hk _].
  pose proof (mmr_size_mono (k + pow h) b ltac:(lia) Hb). pose proof (mmr_size_mono b (k + pow h - 1) Hb ltac:(lia)).
  lia.
Qed.
Lemma node_pos_ge h k a : aligned h k → 0 ≤ a → mmr_size a ≤ node_pos h k ↔ a < k + pow h.
Proof. intros Hk Ha. pose proof (node_pos_lt h k a Hk Ha). lia. Qed.

Lemma node_pos_left h k : node_pos h k = node_pos (S h) k - 2 * pow h.
Proof. unfold node_pos. rewrite pow_S. lia. Qed.
Lemma mmr_size_right h k : aligned (S h) k → mmr_size (k + pow h) = mmr_size k + 2 * pow h - 1.
Proof.
  intros Hk. pose proof (pow_pos h). rewrite (mmr_size_add (S h)) by (done || rewrite pow_S; lia).
  rewrite mmr_size_pow, pow_succ by lia. lia.
Qed.
Lemma node_pos_right h k : aligned (S h) k → node_pos h (k + pow h) = node_pos (S h) k - 1.
Proof. intros Hk. unfold node_pos. rewrite mmr_size_right, pow_S by done. lia. Qed.
Lemma node_pos_leaf k : node_pos 0 k = mmr_size k.
Proof. unfold node_pos. simpl. lia. Qed.

Lemma node_pos_inj h k h' k' : aligned h k → aligned h' k' → node_pos h k = node_pos h' k' → h = h' ∧ k = k'.
Proof.
  intros Hk Hk' E. pose proof (pow_pos h). pose proof (pow_pos h').
  assert (k + pow h = k' + pow h') as Ee.
  { pose proof (node_pos_bounds h k Hk). pose proof (node_pos_bounds h' k' Hk').
    pose proof (node_pos_lt h k (k' + pow h') Hk ltac:(destruct Hk'; lia)).
    pose proof (node_pos_lt h' k' (k + pow h) Hk' ltac:(destruct Hk; lia)). lia. }
  rewrite !node_pos_last, Ee in E by done. assert (h = h') as <- by lia. lia.
Qed.

(** Every position of a range is that of one of its nodes. *)
Lemma node_at n : 0 ≤ n → ∀ pos, 0 ≤ pos < mmr_size n → ∃ h k, aligned h k ∧ k + pow h ≤ n ∧ pos = node_pos h k.
Proof.
  intros Hn. pattern n. apply natlike_ind; [|clear n Hn|done]; [intros pos Hp; change (mmr_size 0) with 0 in Hp; lia|].
  intros n Hn IH pos Hp. rewrite <- Z.add_1_r in *. destruct (decide (pos < mmr_size n)) as [Hlt|Hge].
  { destruct (IH pos ltac:(lia)) as (h & k & ? & ? & ?). exists h, k. split; [done|]. split; [lia|done]. }
  rewrite mmr_size_succ in Hp by done. set (h := Z.to_nat (pos - mmr_size n)).
  assert (Z.of_nat h = pos - mmr_size n) as Hh by lia.
  pose proof (trailing_ones_aligned_inv h n Hn ltac:(lia)) as [_ [a Ea]]. pose proof (pow_pos h). assert (0 < a) by nia.
  assert (pow h ≤ n + 1) by nia.
  assert (aligned h (n + 1 - pow h)) as Hk by (split; [lia|exists (a - 1); lia]).
  exists h, (n + 1 - pow h). split; [done|]. split; [lia|]. rewrite node_pos_last by done.
  replace (n + 1 - pow h + pow h - 1) with n by lia. lia.
Qed.

(** ** Peaks *)

Fixpoint peak_nodes (h : nat) (k n : Z) : list (nat * Z) :=
  match h with
  | O => []
  | S h => if pow h <=? n then (h, k) :: peak_nodes h (k + pow h) (n - pow h) else peak_nodes h k n
  end.

Lemma peaks_below_nodes h : ∀ k n, aligned h k → 0 ≤ n < pow h →
  peaks_below h (mmr_size k) n = (λ x, (node_pos x.1 x.2, Z.of_nat x.1)) <$> peak_nodes h k n.
Proof.
  induction h as [|h IH]; intros k n Hk Hn; [done|]. cbn [peaks_below peak_nodes]. rewrite pow_S in Hn.
  pose proof (pow_pos h). rewrite pow_succ by lia.
  destruct (Z.leb_spec (pow h) n); [|apply IH; [by apply aligned_S|lia]].
  rewrite <- mmr_size_right, IH by (done || lia || by apply aligned_right). done.
Qed.

Lemma peak_nodes_spec h : ∀ k n x, aligned h k → 0 ≤ n < pow h → x ∈ peak_nodes h k n →
  aligned x.1 x.2 ∧ (x.1 < h)%nat ∧ k ≤ x.2 ∧ x.2 + pow x.1 ≤ k + n ∧ k + n < x.2 + 2 * pow x.1 ∧ aligned (S x.1) x.2.
Proof.
  induction h as [|h IH]; intros k n x Hk Hn; [by intros ?%not_elem_of_nil|]. cbn [peak_nodes]. rewrite pow_S in Hn.
  pose proof (pow_pos h). destruct (Z.leb_spec (pow h) n).
  - intros [->|Hx]%elem_of_cons; simpl.
    + split; [by apply aligned_S|]. do 4 (split; [lia|]). done.
    + destruct (IH _ (n - pow h) _ (aligned_right h k Hk) ltac:(lia) Hx) as (? & ? & ? & ? & ? & ?). split; [done|]. do 4 (split; [lia|]). done.
  - intros Hx. destruct (IH k n x (aligned_S _ _ Hk) ltac:(lia) Hx) as (? & ? & ? & ? & ? & ?). split; [done|]. do 4 (split; [lia|]). done.
Qed.

Lemma peak_nodes_cover h : ∀ k n j, 0 ≤ n < pow h → k ≤ j < k + n →
  ∃ x, x ∈ peak_nodes h k n ∧ x.2 ≤ j < x.2 + pow x.1.
Proof.
  induction h as [|h IH]; intros k n j Hn Hj; [simpl in Hn; lia|]. cbn [peak_nodes]. rewrite pow_S in Hn.
  pose proof (pow_pos h). destruct (Z.leb_spec (pow h) n); [|apply IH; lia].
  destruct (decide (j < k + pow h)).
  - exists (h, k). split; [constructor|]. simpl. lia.
  - destruct (IH (k + pow h) (n - pow h) j ltac:(lia) ltac:(lia)) as (x & Hx & ?). exists x. split; [by constructor|done].
Qed.

Lemma peaks_nodes n : 0 ≤ n ≤ 2 ^ 62 →
  Peaks.peaks (mmr_size n) = Some ((λ x, (node_pos x.1 x.2, Z.of_nat x.1)) <$> peak_nodes 63 0 n).
Proof.
  intros Hn. rewrite peaks_spec by done. rewrite <- peaks_below_nodes; [done|apply aligned_zero|].
  change (pow 63) with (2 ^ 63). lia.
Qed.

(** ** Digests *)

Section Tree.
Context {D : Type} (H : Hasher D).
Implicit Types f g : Z → D.

(** The digest of the node of height [h] whose first leaf is [k]; [f] gives the
    digest of each leaf. *)
Fixpoint tree f (h : nat) (k : Z) : D :=
  match h with
  | O => f k
  | S h => node_digest H (node_pos (S h) k) (tree f h k) (tree f h (k + pow h))
  end.

Definition range_root f (n : Z) : D :=
  root_digest H (mmr_size n) ((λ x, tree f x.1 x.2) <$> peak_nodes 63 0 n).

(** The leaf digests of a list of elements. *)
Definition leaves_of (elements : list bytes) (k : Z) : D :=
  leaf_digest H (mmr_size k) (elements !!! Z.to_nat k).

Lemma tree_ext f g h : ∀ k, (∀ j, k ≤ j < k + pow h → f j = g j) → tree f h k = tree g h k.
Proof.
  induction h as [|h IH]; intros k E; simpl; [apply E; simpl; lia|]. rewrite pow_S in E. pose proof (pow_pos h).
  f_equal; apply IH; intros j Hj; apply E; lia.
Qed.

Lemma range_root_ext f g n : 0 ≤ n ≤ 2 ^ 62 → (∀ j, 0 ≤ j < n → f j = g j) → range_root f n = range_root g n.
Proof.
  intros Hn E. unfold range_root. f_equal. apply list_fmap_ext. intros i x Hx%list_elem_of_lookup_2.
  apply (peak_nodes_spec 63 0 n x (aligned_zero _)) in Hx as (? & ? & ? & ? & ?); [|change (pow 63) with (2 ^ 63); lia].
  apply tree_ext. intros j Hj. apply E. lia.
Qed.

Context `{!CollisionFree H}.

Lemma tree_inj f g h : ∀ k, tree f h k = tree g h k → ∀ j, k ≤ j < k + pow h → f j = g j.
Proof.
  induction h as [|h IH]; intros k E j Hj.
  { assert (j = k) as -> by (simpl in Hj; lia). done. }
  simpl in E. apply node_inj in E as [E1 E2]. rewrite pow_S in Hj.
  destruct (decide (j < k + pow h)); [apply (IH k); [done|lia]|apply (IH (k + pow h)); [done|lia]].
Qed.
End Tree.

(** ** A hasher without collisions

    Digests are the terms that were hashed. *)
Module Symbolic.
Definition Dg : Type := gen_tree (list Z).

Definition hasher : Hasher Dg := mkHasher
  (λ pos e, GenLeaf (0 :: pos :: (byte.unsigned <$> e)))
  (λ pos l r, GenNode 1 [GenLeaf [pos]; l; r])
  (λ size l, GenNode 2 (GenLeaf [size] :: l))
  (λ data, GenLeaf (1 :: (byte.unsigned <$> data))).

#[export] Instance hasher_collision_free : CollisionFree hasher.
Proof.
  split; simpl.
  - intros pos e e' [= E]. revert e' E. induction e as [|x e IH]; intros [|y e'] [=]; [done|]. f_equal; [|by apply IH].
    match goal with Exy : byte.unsigned _ = byte.unsigned _ |- _ => by rewrite <- (byte.of_Z_unsigned x), <- (byte.of_Z_unsigned y), Exy end.
  - by intros pos l r l' r' [= -> ->].
  - by intros size size' l l' [= -> ->].
Qed.

(** The elements [0], [1], ... as single bytes. *)
Definition element (k : Z) : bytes := [byte.of_Z k].
Definition leaf (k : Z) : Dg := leaf_digest hasher (mmr_size k) (element k).
End Symbolic.
