(* ===== verification/MmrProof.v ===== *)
(** * Inclusion proofs (storage/src/mmr/proof.rs, storage/src/mmr/verification.rs)

    [Proof_] is the code's [Proof], with its codec; the verifier reconstructs the
    peaks of a range from a proof and the claimed elements, and the prover lists
    the nodes a proof needs.  A verifier returns [None] on a panic. *)

From S2P Require Import Prelude Codec Varint CodecTypes CodecOrdered CodecRecords Ordered.
From S2P Require Import MmrPosition MmrIterator MmrTree.
Import CodecTypes CodecOrdered CodecRecords Mmr MmrIterator.

(** The errors of mmr/mod.rs that the modelled code returns. *)
Inductive MmrError : Type :=
| InvalidProof
| RootMismatch
| ElementPruned (pos : Z)
| MissingDigest (pos : Z)
| InvalidProofLength
| InvalidSize (size : Z)
| Empty
| LocationOverflow (loc : Z)
| RangeOutOfBounds (loc : Z)
| LeafOutOfBounds (loc : Z)
| InvalidPinnedNodes.

Inductive ReconstructionError : Type :=
| MissingDigests
| ExtraDigests
| InvalidStartLoc
| InvalidEndLoc
| MissingElements
| InvalidReconstructionSize.

Definition map_err {E E' A} (f : E → E') (m : outcome E A) : outcome E' A :=
  match m with Ok a => Ok a | Err e => Err (f e) | Panic => Panic end.

(** [Position::try_from] of a location, with the error of the range. *)
Definition position_of (loc : Z) : outcome MmrError Z :=
  map_err (λ e, match e with Position.LocationOverflow l => LocationOverflow l end) (Position.try_from_location loc).

Module MmrProof.
Section Ops.
Context {D : Type} `{!EqDecision D} (H : Hasher D).

Record Proof_ : Type := mkProof { size : Z; digests : list D }.
Implicit Types p : Proof_.

Definition default_proof : Proof_ := mkProof 0 [].

(** ** The verifier *)

(** The iterators of the reconstruction: the elements and the sibling digests
    left, and the digests collected. *)
Record Walk : Type := mkWalk { elements : list bytes; siblings : list D; collected : list (Z * D) }.
Implicit Types w : Walk.

Definition next_sibling w : outcome ReconstructionError (D * Walk) :=
  match siblings w with
  | [] => Err MissingDigests
  | d :: rest => Ok (d, mkWalk (elements w) rest (collected w))
  end.
Definition collect w (l : list (Z * D)) : Walk := mkWalk (elements w) (siblings w) (collected w ++ l).

(** [two_h] halves every call, so [fuel] above the height is enough. *)
Fixpoint peak_digest_from_range (fuel : nat) (pos two_h leftmost_pos rightmost_pos : Z) w
    : outcome ReconstructionError (D * Walk) :=
  match fuel with
  | O => Panic
  | S fuel =>
      if two_h =? 0 then Panic
      else if two_h =? 1 then
        match elements w with
        | e :: rest => Ok (leaf_digest H pos e, mkWalk rest (siblings w) (collected w))
        | [] => Err MissingDigests
        end
      else
        let? left_pos := expect (checked_sub pos two_h) in
        let? sum := expect (checked_add 64 left_pos two_h) in
        let? right_pos := expect (checked_sub sum 1) in
        let descend child w := peak_digest_from_range fuel child (Z.shiftr two_h 1) leftmost_pos rightmost_pos w in
        let? (left_digest, w) :=
          if leftmost_pos <=? left_pos then let? (d, w) := descend left_pos w in Ok (Some d, w)
          else Ok (None, w) in
        let? (right_digest, w) :=
          if left_pos <? rightmost_pos then let? (d, w) := descend right_pos w in Ok (Some d, w)
          else Ok (None, w) in
        let? (left_digest, w) := match left_digest with Some d => Ok (d, w) | None => next_sibling w end in
        let? (right_digest, w) := match right_digest with Some d => Ok (d, w) | None => next_sibling w end in
        Ok (node_digest H pos left_digest right_digest, collect w [(left_pos, left_digest); (right_pos, right_digest)])
  end.

(** The loop over the peaks; [front] are the proof digests not used yet as peaks. *)
Fixpoint peak_loop (peaks : list (Z * Z)) (start_pos end_pos : Z) (front : list D) (used : nat)
    (peak_digests : list D) w : outcome ReconstructionError (list D * nat * Walk) :=
  match peaks with
  | [] => Ok (peak_digests, used, w)
  | (peak_pos, height) :: peaks =>
      let? above := expect (checked_add 64 peak_pos 2) in
      let? leftmost := expect (checked_sub above (Z.shiftl 1 (height + 1))) in
      if (start_pos <=? peak_pos) && (leftmost <=? end_pos) then
        let? (d, w) := peak_digest_from_range 65 peak_pos (Z.shiftl 1 height) start_pos end_pos w in
        peak_loop peaks start_pos end_pos front used (peak_digests ++ [d]) (collect w [(peak_pos, d)])
      else
        match front with
        | d :: front =>
            peak_loop peaks start_pos end_pos front (S used) (peak_digests ++ [d]) (collect w [(peak_pos, d)])
        | [] => Err MissingDigests
        end
  end.

(** The position of the last element. *)
Definition end_position (elements : list bytes) (start_loc start_pos : Z) : outcome ReconstructionError Z :=
  if (length elements =? 1)%nat then Ok start_pos
  else
    match Location.checked_add start_loc (Z.of_nat (length elements) - 1) with
    | None => Err InvalidEndLoc
    | Some end_loc => map_err (λ _, InvalidEndLoc) (Position.try_from_location end_loc)
    end.

Definition reconstruct_peak_digests p (elements : list bytes) (start_loc : Z)
    : outcome ReconstructionError (list D * list (Z * D)) :=
  if bool_decide (elements = []) then if start_loc =? 0 then Ok ([], []) else Err MissingElements
  else
    let? start_pos := map_err (λ _, InvalidStartLoc) (Position.try_from_location start_loc) in
    let? end_pos := end_position elements start_loc start_pos in
    if size p <=? end_pos then Err InvalidEndLoc
    else
      let? valid := expect (Position.is_mmr_size (size p)) in
      if negb valid then Err InvalidReconstructionSize
      else
        let? peaks := expect (Peaks.peaks (size p)) in
        let? (peak_digests, used, w) :=
          peak_loop peaks start_pos end_pos (digests p) 0 [] (mkWalk elements (rev (digests p)) []) in
        match w with
        | mkWalk (_ :: _) _ _ => Err ExtraDigests
        | mkWalk [] (d :: _) collected =>
            if (used =? 0)%nat then Err ExtraDigests
            else if decide (Some d = digests p !! (used - 1)%nat) then Ok (peak_digests, collected)
            else Err ExtraDigests
        | mkWalk [] [] collected => Ok (peak_digests, collected)
        end.

Definition reconstruct_root p (elements : list bytes) (start_loc : Z) : outcome ReconstructionError D :=
  let? valid := expect (Position.is_mmr_size (size p)) in
  if negb valid then Err InvalidReconstructionSize
  else
    let? (peak_digests, _) := reconstruct_peak_digests p elements start_loc in
    Ok (root_digest H (size p) peak_digests).

Definition verify_range_inclusion p (elements : list bytes) (start_loc : Z) (root : D) : option bool :=
  valid ← Position.is_mmr_size (size p);
  if negb valid then Some false
  else
    match reconstruct_root p elements start_loc with
    | Ok reconstructed => Some (bool_decide (root = reconstructed))
    | Err _ => Some false
    | Panic => None
    end.

Definition verify_element_inclusion p (element : bytes) (loc : Z) (root : D) : option bool :=
  verify_range_inclusion p [element] loc root.

Definition verify_range_inclusion_and_extract_digests p (elements : list bytes) (start_loc : Z) (root : D)
    : outcome MmrError (list (Z * D)) :=
  match reconstruct_peak_digests p elements start_loc with
  | Ok (peak_digests, collected) =>
      if decide (root_digest H (size p) peak_digests = root) then Ok collected else Err RootMismatch
  | Err _ => Err InvalidProof
  | Panic => Panic
  end.

(** ** The nodes a proof needs *)

(** The inner loop skips the mountains up to the one with the last element. *)
Fixpoint find_end (peaks : list (Z * Z)) (end_pos : Z) : option (Z * Z) * list (Z * Z) :=
  match peaks with
  | [] => (None, [])
  | peak :: rest => if end_pos <=? peak.1 then (Some peak, rest) else find_end rest end_pos
  end.

(** The mountains with the first and with the last element, and the peaks of
    those without any; after the first was found the others are all required. *)
Fixpoint scan_peaks (peaks : list (Z * Z)) (start_pos end_pos : Z) (positions : list Z)
    : option (Z * Z) * option (Z * Z) * list Z :=
  match peaks with
  | [] => (None, None, positions)
  | peak :: rest =>
      if start_pos <=? peak.1 then
        let '(end_tree, rest) := if end_pos <=? peak.1 then (Some peak, rest) else find_end rest end_pos in
        (Some peak, end_tree, positions ++ rest.*1)
      else scan_peaks rest start_pos end_pos (positions ++ [peak.1])
  end.

Definition right_sibling (x : Z * Z) : bool := x.1 =? x.2 + 1.

Definition path_siblings (start_pos end_pos : Z) (start_tree end_tree : Z * Z) : option (list (Z * Z)) :=
  left_path ← Path.path start_pos start_tree.1 start_tree.2;
  if start_pos =? end_pos then Some left_path
  else
    right_path ← Path.path end_pos end_tree.1 end_tree.2;
    let siblings :=
      filter (λ x, right_sibling x = true) right_path ++ filter (λ x, right_sibling x = false) left_path in
    Some (if start_tree.1 =? end_tree.1 then Ordered.sort_by_key (λ x : Z * Z, - x.1) siblings else siblings).

(** [start, stop) is the range of locations. *)
Definition nodes_required_for_range_proof (size start stop : Z) : outcome MmrError (list Z) :=
  let? valid := expect (Position.is_mmr_size size) in
  if negb valid then Err (InvalidSize size)
  else if stop <=? start then Err Empty
  else
    let? start_pos := position_of start in
    let? end_minus_one := expect (Location.checked_sub stop 1) in
    let? end_pos := position_of end_minus_one in
    if size <=? end_pos then Err (RangeOutOfBounds stop)
    else
      let? peaks := expect (Peaks.peaks size) in
      let '(start_tree, end_tree, positions) := scan_peaks peaks start_pos end_pos [] in
      let? start_tree := expect start_tree in
      let? end_tree := expect end_tree in
      let? siblings := expect (path_siblings start_pos end_pos start_tree end_tree) in
      Ok (positions ++ siblings.*2).

(** The fold of [nodes_required_for_multi_proof]; the set is built by the caller. *)
Fixpoint required_for_all (size : Z) (locations : list Z) : outcome MmrError (list Z) :=
  match locations with
  | [] => Ok []
  | loc :: locations =>
      if negb (Location.is_valid loc) then Err (LocationOverflow loc)
      else
        let? positions := nodes_required_for_range_proof size loc (loc + 1) in
        let? rest := required_for_all size locations in
        Ok (positions ++ rest)
  end.
Definition nodes_required_for_multi_proof (size : Z) (locations : list Z) : outcome MmrError (list Z) :=
  let? valid := expect (Position.is_mmr_size size) in
  if negb valid then Err (InvalidSize size)
  else if bool_decide (locations = []) then Err Empty
  else let? all := required_for_all size locations in Ok (Ordered.set_from_iter_dedup all).

(** ** Proofs of several elements *)

Fixpoint map_option {A B} (f : A → option B) (l : list A) : option (list B) :=
  match l with [] => Some [] | x :: l => y ← f x; l ← map_option f l; Some (y :: l) end.

(** Every element against its own proof, cut out of the shared digests; the nodes
    each needs were listed before. *)
Fixpoint verify_each (size : Z) (node_digests : gmap Z D) (elements : list (bytes * Z)) (root : D) : option bool :=
  match elements with
  | [] => Some true
  | (element, loc) :: elements =>
      match nodes_required_for_range_proof size loc (loc + 1) with
      | Ok required =>
          ds ← map_option (λ pos, node_digests !! pos) required;
          ok ← verify_element_inclusion (mkProof size ds) element loc root;
          if ok : bool then verify_each size node_digests elements root else Some false
      | _ => None
      end
  end.

Definition verify_multi_inclusion p (elements : list (bytes * Z)) (root : D) : option bool :=
  if bool_decide (elements = []) then Some ((size p =? 0) && bool_decide (root = root_digest H 0 []))
  else
    valid ← Position.is_mmr_size (size p);
    if negb valid then Some false
    else
      match required_for_all (size p) elements.*2 with
      | Panic => None
      | Err _ => Some false
      | Ok all =>
          let node_positions := Ordered.set_from_iter_dedup all in
          if negb (length node_positions =? length (digests p))%nat then Some false
          else verify_each (size p) (list_to_map (zip node_positions (digests p))) elements root
      end.

(** ** Pinned nodes *)

Fixpoint lookup_all (m : gmap Z D) (positions : list Z) : outcome MmrError (list D) :=
  match positions with
  | [] => Ok []
  | pos :: positions =>
      match m !! pos with
      | None => Err (MissingDigest pos)
      | Some d => let? rest := lookup_all m positions in Ok (d :: rest)
      end
  end.

Definition extract_pinned_nodes p (start stop : Z) : outcome MmrError (list D) :=
  let? start_pos := position_of start in
  let? pinned := expect (nodes_to_pin start_pos) in
  let? required := nodes_required_for_range_proof (size p) start stop in
  if negb (length required =? length (digests p))%nat then Err InvalidProofLength
  else if (length required <? length pinned)%nat then Panic
  else
    let skip := (length required - length pinned)%nat in
    if decide (pinned = drop skip required) then Ok (drop skip (digests p))
    else lookup_all (list_to_map (zip required (digests p))) pinned.

(** ** Generating proofs from a store (verification.rs) *)

(** [Storage]; the errors of the storage itself are left out. *)
Record Storage : Type := mkStorage { get_node : Z → option D; storage_size : Z }.

Fixpoint fetch (get : Z → option D) (positions : list Z) : outcome MmrError (list D) :=
  match positions with
  | [] => Ok []
  | pos :: positions =>
      match get pos with
      | None => Err (ElementPruned pos)
      | Some d => let? rest := fetch get positions in Ok (d :: rest)
      end
  end.

Definition historical_range_proof (mmr : Storage) (size start stop : Z) : outcome MmrError Proof_ :=
  let? positions := nodes_required_for_range_proof size start stop in
  let? digests := fetch (get_node mmr) positions in
  Ok (mkProof size digests).
Definition range_proof (mmr : Storage) (start stop : Z) : outcome MmrError Proof_ :=
  historical_range_proof mmr (storage_size mmr) start stop.
Definition multi_proof (mmr : Storage) (locations : list Z) : outcome MmrError Proof_ :=
  if bool_decide (locations = []) then Err Empty
  else
    let? positions := nodes_required_for_multi_proof (storage_size mmr) locations in
    let? digests := fetch (get_node mmr) positions in
    Ok (mkProof (storage_size mmr) digests).

(** [ProofStore]: the last digest collected for a position is kept. *)
Definition new_from_digests (size : Z) (digests : list (Z * D)) : Storage :=
  mkStorage (λ pos, (list_to_map (rev digests) : gmap Z D) !! pos) size.
Definition store_new p (elements : list bytes) (start_loc : Z) (root : D) : outcome MmrError Storage :=
  let? digests := verify_range_inclusion_and_extract_digests p elements start_loc root in
  Ok (new_from_digests (size p) digests).
End Ops.
Arguments Proof_ : clear implicits.
Arguments Storage : clear implicits.
Arguments mkStorage {D} _ _.

(** ** The codec *)

Section ProofCodec.
Context {D CD : Type} (digest : codec D CD) (cd : CD).

(** The configuration is the maximum number of digests. *)
Definition proof_codec : codec (Proof_ D) Z :=
  iso_codec (tuple2 (Varint.UInt 8) (vec digest))
    (λ x, mkProof x.1 x.2) (λ p, (size p, digests p)) (λ max_len, (tt, (RangeCfg.from_range_to_inclusive max_len, cd))).

#[export] Instance proof_lawful `{!Lawful digest} : Lawful proof_codec.
Proof.
  apply iso_lawful.
  - apply tuple2_lawful; [apply Varint.UInt_lawful; lia|apply _].
  - by intros [].
  - by intros [].
Defined.
End ProofCodec.
End MmrProof.
