(* ===== verification/MmrSoundness.v ===== *)
(** * What a verified proof shows

    The reconstruction of a peak is followed node by node ([walk_S]); elements
    that reach the digest of a node are the ones it was computed from. *)

From S2P Require Import Prelude Codec CodecTypes MmrPosition MmrIterator MmrTree MmrProof.
Import Mmr MmrIterator MmrProof.

Module MmrSoundness.
Section Walks.
Context {D : Type} `{!EqDecision D} (H : Hasher D).
Implicit Types f : Z → D.
Implicit Types w : @Walk D.
Implicit Types p : Proof_ D.

Notation walk fuel h k a b w :=
  (peak_digest_from_range H fuel (node_pos h k) (pow h) (mmr_size a) (mmr_size b) w).

(** A child that overlaps the range is descended into. *)
Definition visit (b : bool) (m : outcome ReconstructionError (D * Walk)) w : outcome ReconstructionError (option D * Walk) :=
  if b then let? (d, w) := m in Ok (Some d, w) else Ok (None, w).
Definition fill (o : option D) w : outcome ReconstructionError (D * Walk) :=
  match o with Some d => Ok (d, w) | None => next_sibling w end.

Lemma walk_S fuel h k a b w : aligned (S h) k → 0 ≤ a → 0 ≤ b → node_pos (S h) k < 2 ^ 64 →
  walk (S fuel) (S h) k a b w =
    let? (ld, w) := visit (a <? k + pow h) (walk fuel h k a b w) w in
    let? (rd, w) := visit (k + pow h <=? b) (walk fuel h (k + pow h) a b w) w in
    let? (ld, w) := fill ld w in
    let? (rd, w) := fill rd w in
    Ok (node_digest H (node_pos (S h) k) ld rd, collect w [(node_pos h k, ld); (node_pos h (k + pow h), rd)]).
Proof.
  intros Hk Ha Hb Hmax. cbn [peak_digest_from_range]. pose proof (pow_pos h). rewrite pow_S.
  destruct (Z.eqb_spec (2 * pow h) 0); [lia|]. destruct (Z.eqb_spec (2 * pow h) 1); [lia|].
  pose proof (node_pos_nonneg (S h) k Hk). pose proof (node_pos_nonneg h k (aligned_S _ _ Hk)) as Hl.
  pose proof (node_pos_left h k). pose proof (node_pos_right h k Hk). unfold checked_sub at 1.
  destruct (Z.leb_spec (2 * pow h) (node_pos (S h) k)); [|lia]. cbn [expect obind].
  unfold checked_add. destruct (Z.ltb_spec (node_pos (S h) k - 2 * pow h + 2 * pow h) (2 ^ 64)); [|lia]. cbn [expect obind].
  unfold checked_sub. destruct (Z.leb_spec 1 (node_pos (S h) k - 2 * pow h + 2 * pow h)); [|lia]. cbn [expect obind].
  replace (Z.shiftr (2 * pow h) 1) with (pow h) by (rewrite <- pow_succ, shiftr_pow by lia; f_equal; lia).
  replace (node_pos (S h) k - 2 * pow h + 2 * pow h - 1) with (node_pos h (k + pow h)) by lia.
  replace (node_pos (S h) k - 2 * pow h) with (node_pos h k) by lia.
  pose proof (node_pos_ge h k a (aligned_S _ _ Hk) Ha). pose proof (node_pos_lt h k b (aligned_S _ _ Hk) Hb).
  replace (mmr_size a <=? node_pos h k) with (a <? k + pow h)
    by (destruct (Z.ltb_spec a (k + pow h)), (Z.leb_spec (mmr_size a) (node_pos h k)); lia).
  replace (node_pos h k <? mmr_size b) with (k + pow h <=? b)
    by (destruct (Z.leb_spec (k + pow h) b), (Z.ltb_spec (node_pos h k) (mmr_size b)); lia).
  done.
Qed.

Lemma walk_0 fuel k a b w : walk (S fuel) 0 k a b w =
  match elements w with
  | e :: rest => Ok (leaf_digest H (mmr_size k) e, mkWalk rest (siblings w) (collected w))
  | [] => Err MissingDigests
  end.
Proof. cbn [peak_digest_from_range]. by rewrite node_pos_leaf. Qed.

Lemma fill_no_panic o w : fill o w ≠ Panic.
Proof. destruct o; simpl; [done|]. unfold next_sibling. by destruct (siblings w). Qed.

Lemma walk_no_panic h : ∀ fuel k a b w, (h < fuel)%nat → aligned h k → 0 ≤ a → 0 ≤ b → node_pos h k < 2 ^ 64 →
  walk fuel h k a b w ≠ Panic.
Proof.
  induction h as [|h IH]; intros [|fuel] k a b w Hf Hk Ha Hb Hmax; try lia.
  { rewrite walk_0. by destruct (elements w). }
  pose proof (pow_pos h). pose proof (node_pos_left h k). pose proof (node_pos_right h k Hk).
  rewrite walk_S by done. apply obind_no_panic.
  { unfold visit. case_match; [|done]. apply obind_no_panic; [apply IH; (done || lia || by apply aligned_S)|by intros []]. }
  intros [ld w1] _. apply obind_no_panic.
  { unfold visit. case_match; [|done]. apply obind_no_panic; [apply IH; (done || lia || by apply aligned_right)|by intros []]. }
  intros [rd w2] _. apply obind_no_panic; [apply fill_no_panic|]. intros [x w3] _.
  apply obind_no_panic; [apply fill_no_panic|]. by intros [].
Qed.

(** ** Elements and leaves *)

(** [us] are the elements of the leaves from location [s] on. *)
Definition matches f (s : Z) (us : list bytes) : Prop :=
  ∀ i e, us !! i = Some e → leaf_digest H (mmr_size (s + Z.of_nat i)) e = f (s + Z.of_nat i).

Lemma matches_app f s u1 u2 : matches f s (u1 ++ u2) ↔ matches f s u1 ∧ matches f (s + Z.of_nat (length u1)) u2.
Proof.
  unfold matches. split.
  - intros Hm. split; intros i e Hi; [apply Hm; by apply lookup_app_l_Some|].
    rewrite <- Z.add_assoc, <- Nat2Z.inj_add. apply Hm. rewrite lookup_app_r by lia.
    by replace (length u1 + i - length u1)%nat with i by lia.
  - intros [H1 H2] i e [Hi|[Hle Hi]]%lookup_app_Some; [by apply H1|]. specialize (H2 _ _ Hi).
    by replace (s + Z.of_nat (length u1) + Z.of_nat (i - length u1)) with (s + Z.of_nat i) in H2 by lia.
Qed.

Lemma matches_nil f s : matches f s [].
Proof. intros i e Hi. by rewrite lookup_nil in Hi. Qed.

(** The locations of [a..b] among the [n] from [k] on. *)
Definition overlap (k n a b : Z) : Z := Z.max 0 (Z.min b (k + n - 1) - Z.max a k + 1).

(** The elements used for [n] leaves from [k] on. *)
Definition uses (k n a b : Z) w w' (us : list bytes) : Prop :=
  elements w = us ++ elements w' ∧ Z.of_nat (length us) = overlap k n a b.

Lemma uses_app k n n' a b w w1 w2 us us' : a ≤ b → 0 ≤ n → 0 ≤ n' → uses k n a b w w1 us → uses (k + n) n' a b w1 w2 us' →
  uses k (n + n') a b w w2 (us ++ us') ∧
  ∀ f, matches f (Z.max a k) us → matches f (Z.max a (k + n)) us' → matches f (Z.max a k) (us ++ us').
Proof.
  intros Hab Hn Hn' [E1 L1] [E2 L2]. unfold overlap in *. split.
  - split; [by rewrite E1, E2, app_assoc|]. rewrite length_app. unfold overlap. lia.
  - intros f M1 M2. apply matches_app. split; [done|]. destruct us' as [|e us']; [apply matches_nil|].
    simpl in L2. replace (Z.max a k + Z.of_nat (length us)) with (Z.max a (k + n)) by lia. done.
Qed.

Lemma uses_none k n a b w : k + n ≤ a ∨ b < k → uses k n a b w w [].
Proof. intros Hd. split; [done|]. unfold overlap. simpl. lia. Qed.

Lemma fill_elements o w d w' : fill o w = Ok (d, w') → elements w' = elements w ∧ ∀ x, o = Some x → d = x.
Proof.
  destruct o as [x|]; simpl; [by intros [= <- <-]; split; [|intros ? [= <-]]|].
  unfold next_sibling. destruct (siblings w) as [|y l]; [done|]. by intros [= <- <-].
Qed.

Lemma visit_sound (t : bool) m k n a b w o w' : (t = false → k + n ≤ a ∨ b < k) →
  (∀ d w', t = true → m = Ok (d, w') → ∃ us, uses k n a b w w' us ∧ ∀ f, d = tree H f (Z.to_nat (Z.log2 n)) k → matches f (Z.max a k) us) →
  visit t m w = Ok (o, w') →
  ∃ us, uses k n a b w w' us ∧ ∀ f, (∀ d, o = Some d → d = tree H f (Z.to_nat (Z.log2 n)) k) → matches f (Z.max a k) us.
Proof.
  intros Hf Ht. destruct t; simpl.
  - intros ([d w1] & E & [= <- <-])%obind_Ok. destruct (Ht d w1 eq_refl E) as (us & Hu & Hm). exists us. split; [done|].
    intros f Hd. apply Hm. by apply Hd.
  - intros [= <- <-]. exists []. split; [by apply uses_none, Hf|]. intros f _; apply matches_nil.
Qed.

Context `{!CollisionFree H}.

(** The elements used to compute the digest of a node are those of its leaves. *)
Lemma walk_sound h : ∀ fuel k a b w d w', (h < fuel)%nat → aligned h k → 0 ≤ a ≤ b → a < k + pow h → k ≤ b →
  node_pos h k < 2 ^ 64 → walk fuel h k a b w = Ok (d, w') →
  ∃ us, uses k (pow h) a b w w' us ∧ ∀ f, d = tree H f h k → matches f (Z.max a k) us.
Proof.
  induction h as [|h IH]; intros [|fuel] k a b w d w' Hf Hk Hab Hka Hkb Hmax; try lia.
  { rewrite walk_0. destruct (elements w) as [|e rest] eqn:E; [done|]. intros [= <- <-]. exists [e]. split.
    - split; [done|]. unfold overlap. simpl in *. lia.
    - intros f Hd [|i] e' [= <-]. simpl in *. rewrite Z.add_0_r. by replace (Z.max a k) with k by lia. }
  pose proof (pow_pos h). pose proof (node_pos_left h k). pose proof (node_pos_right h k Hk).
  rewrite walk_S by first [assumption | lia]. rewrite pow_S in *.
  intros ([ld w1] & E1 & ([rd w2] & E2 & ([ld' w3] & E3 & ([rd' w4] & E4 & [= <- <-])%obind_Ok)%obind_Ok)%obind_Ok)%obind_Ok.
  assert (Z.to_nat (Z.log2 (pow h)) = h) as Hlog by (rewrite Z.log2_pow2 by lia; lia).
  apply (visit_sound _ _ k (pow h) a b) in E1 as (us1 & U1 & M1).
  2: { intros Ht. left. by apply Z.ltb_ge in Ht. }
  2: { rewrite Hlog. intros d w' Ht E. apply Z.ltb_lt in Ht. apply (IH fuel) in E; [done|lia|by apply aligned_S|lia..]. }
  apply (visit_sound _ _ (k + pow h) (pow h) a b) in E2 as (us2 & U2 & M2).
  2: { intros Ht. right. by apply Z.leb_gt in Ht. }
  2: { rewrite Hlog. intros d w' Ht E. apply Z.leb_le in Ht. apply (IH fuel) in E; [done|lia|by apply aligned_right|lia..]. }
  rewrite Hlog in *. apply fill_elements in E3 as [El3 F3], E4 as [El4 F4].
  destruct (uses_app k (pow h) (pow h) a b w w1 w2 us1 us2 ltac:(lia) ltac:(lia) ltac:(lia) U1 U2) as [[U U'] M].
  exists (us1 ++ us2). split.
  - split; [cbn; by rewrite El4, El3|]. rewrite U'. f_equal. lia.
  - intros f Hd. simpl in Hd. apply node_inj in Hd as [Hl Hr].
    apply M; [apply M1; intros x Hx; rewrite <- Hl; symmetry; by apply F3|apply M2; intros x Hx; rewrite <- Hr; symmetry; by apply F4].
Qed.

(** ** The loop over the peaks *)

Notation peak x := (node_pos x.1 x.2, Z.of_nat x.1).

Lemma peak_loop_cons h k peaks a b front used acc w : aligned h k → 0 ≤ a → 0 ≤ b → node_pos h k < 2 ^ 63 →
  peak_loop H (peak (h, k) :: peaks) (mmr_size a) (mmr_size b) front used acc w =
  if (a <? k + pow h) && (k <=? b) then
    let? (d, w) := walk 65 h k a b w in
    peak_loop H peaks (mmr_size a) (mmr_size b) front used (acc ++ [d]) (collect w [(node_pos h k, d)])
  else
    match front with
    | d :: front => peak_loop H peaks (mmr_size a) (mmr_size b) front (S used) (acc ++ [d]) (collect w [(node_pos h k, d)])
    | [] => Err MissingDigests
    end.
Proof.
  intros Hk Ha Hb Hmax. cbn [peak_loop fst snd]. unfold checked_add.
  destruct (Z.ltb_spec (node_pos h k + 2) (2 ^ 64)); [|lia]. cbn [expect obind].
  pose proof (pow_pos h). destruct (Hk) as [Hk0 _]. pose proof (mmr_size_nonneg k Hk0).
  rewrite !Z.shiftl_1_l, pow_succ by lia. unfold checked_sub.
  destruct (Z.leb_spec (2 * pow h) (node_pos h k + 2)); [|unfold node_pos in *; lia]. cbn [expect obind].
  replace (node_pos h k + 2 - 2 * pow h) with (mmr_size k) by (unfold node_pos; lia).
  pose proof (node_pos_ge h k a Hk Ha). pose proof (mmr_size_mono k b Hk0 Hb).
  replace (mmr_size a <=? node_pos h k) with (a <? k + pow h)
    by (destruct (Z.ltb_spec a (k + pow h)), (Z.leb_spec (mmr_size a) (node_pos h k)); lia).
  replace (mmr_size k <=? mmr_size b) with (k <=? b)
    by (destruct (Z.leb_spec k b), (Z.leb_spec (mmr_size k) (mmr_size b)); lia).
  done.
Qed.

(** The nodes of a range of at most [2^62] leaves fit. *)
Lemma node_fits h k n : aligned h k → k + pow h ≤ n → n ≤ 2 ^ 62 → node_pos h k < 2 ^ 63 - 1 ∧ (h < 65)%nat.
Proof.
  intros Hk Hn Hle. pose proof (node_pos_bounds h k Hk). pose proof (pow_pos h). destruct Hk as [Hk0 _].
  pose proof (mmr_size_mono (k + pow h) (2 ^ 62) ltac:(lia) ltac:(lia)) as [Hm _]. rewrite mmr_size_62 in Hm. split; [lia|].
  assert (Z.of_nat h ≤ 62); [|lia]. apply (Z.pow_le_mono_r_iff 2); lia.
Qed.

Lemma peak_loop_no_panic l : ∀ a b front used acc w, 0 ≤ a → 0 ≤ b →
  (∀ x, x ∈ l → aligned x.1 x.2 ∧ x.2 + pow x.1 ≤ 2 ^ 62) →
  peak_loop H ((λ x, peak x) <$> l) (mmr_size a) (mmr_size b) front used acc w ≠ Panic.
Proof.
  induction l as [|[h k] l IH]; intros a b front used acc w Ha Hb Hl; [done|]. cbn [fmap list_fmap].
  destruct (Hl (h, k) ltac:(constructor)) as [Hk Hle]. cbn [fst snd] in Hk, Hle.
  destruct (node_fits h k (k + pow h) Hk ltac:(lia) Hle) as [Hmax Hh]. rewrite peak_loop_cons by first [assumption | lia].
  assert (∀ x, x ∈ l → aligned x.1 x.2 ∧ x.2 + pow x.1 ≤ 2 ^ 62) as Hl' by (intros x Hx; apply Hl; by constructor).
  case_match.
  - apply obind_no_panic; [apply walk_no_panic; first [assumption | lia]|]. intros [d w1] _. by apply IH.
  - destruct front; [done|]. by apply IH.
Qed.

Lemma peak_loop_sound h : ∀ k n a b front used acc w ds used' w', aligned h k → 0 ≤ n < pow h → k + n ≤ 2 ^ 62 → 0 ≤ a ≤ b →
  peak_loop H ((λ x, peak x) <$> peak_nodes h k n) (mmr_size a) (mmr_size b) front used acc w = Ok (ds, used', w') →
  ∃ ds' us, ds = acc ++ ds' ∧ uses k n a b w w' us ∧
    ∀ f, ds' = (λ x, tree H f x.1 x.2) <$> peak_nodes h k n → matches f (Z.max a k) us.
Proof.
  induction h as [|h IH]; intros k n a b front used acc w ds used' w' Hk Hn Hmax Hab.
  { intros [= <- <- <-]. exists [], []. rewrite app_nil_r. split; [done|]. split; [|intros f _; apply matches_nil].
    simpl in Hn. assert (n = 0) as -> by lia. split; [done|]. unfold overlap. simpl. lia. }
  cbn [peak_nodes]. rewrite pow_S in Hn. pose proof (pow_pos h).
  destruct (Z.leb_spec (pow h) n) as [Hge|]; [|apply IH; [by apply aligned_S|lia..]].
  destruct (node_fits h k (k + n) (aligned_S _ _ Hk) ltac:(lia) Hmax) as [Hpos Hh].
  cbn [fmap list_fmap]. rewrite peak_loop_cons by first [by apply aligned_S | lia].
  specialize (IH (k + pow h) (n - pow h) a b).
  destruct ((a <? k + pow h) && (k <=? b)) eqn:Et.
  - apply andb_true_iff in Et as [Et1%Z.ltb_lt Et2%Z.leb_le]. intros ([d w1] & E1 & E2)%obind_Ok.
    apply walk_sound in E1 as (us1 & U1 & M1); [|lia|by apply aligned_S|lia..].
    apply IH in E2 as (ds' & us2 & -> & U2 & M2); [|by apply aligned_right|lia..].
    destruct (uses_app k (pow h) (n - pow h) a b w w1 w' us1 us2 ltac:(lia) ltac:(lia) ltac:(lia) U1 U2) as [U M].
    exists (d :: ds'), (us1 ++ us2). rewrite <- app_assoc. split; [done|].
    replace (pow h + (n - pow h)) with n in U by lia. split; [done|]. intros f [= Hd Hds].
    apply M; [by apply M1|by apply M2].
  - assert (k + pow h ≤ a ∨ b < k) as Hd.
    { apply andb_false_iff in Et as [?%Z.ltb_ge|?%Z.leb_gt]; lia. }
    destruct front as [|d front]; [done|]. intros E2.
    apply IH in E2 as (ds' & us2 & -> & U2 & M2); [|by apply aligned_right|lia..].
    destruct (uses_app k (pow h) (n - pow h) a b w w w' [] us2 ltac:(lia) ltac:(lia) ltac:(lia)
      (uses_none _ _ _ _ _ Hd) U2) as [U M].
    exists (d :: ds'), us2. rewrite <- app_assoc. split; [done|].
    replace (pow h + (n - pow h)) with n in U by lia. split; [done|]. intros f [= _ Hds].
    apply (M f); [apply matches_nil|by apply M2].
Qed.

(** ** Proofs *)

Lemma position_fits loc : 0 ≤ loc → (∃ e, Position.try_from_location loc = Err e ∧ MAX_LOCATION < loc) ∨
  Position.try_from_location loc = Ok (mmr_size loc) ∧ loc ≤ MAX_LOCATION.
Proof.
  intros Hl. destruct (Z.ltb_spec MAX_LOCATION loc) as [Hlt|Hle].
  - left. unfold Position.try_from_location. rewrite (proj2 (Z.ltb_lt _ _) Hlt). eauto.
  - right. by rewrite try_from_location_spec by lia.
Qed.

Lemma end_position_spec els a : els ≠ [] → 0 ≤ a ≤ MAX_LOCATION →
  (∃ e, end_position els a (mmr_size a) = Err e) ∨
  let b := a + Z.of_nat (length els) - 1 in end_position els a (mmr_size a) = Ok (mmr_size b) ∧ b ≤ MAX_LOCATION.
Proof.
  intros Hne Ha. unfold end_position. destruct (Nat.eqb_spec (length els) 1) as [->|Hl].
  { right. simpl. split; [do 2 f_equal; lia|lia]. }
  destruct els as [|e els]; [done|]. simpl length in *. unfold Location.checked_add, checked_add.
  destruct (_ <? _); [|by left; eexists].
  destruct (Z.leb_spec (a + (Z.of_nat (S (length els)) - 1)) MAX_LOCATION); [|by left; eexists]. right.
  destruct (position_fits (a + (Z.of_nat (S (length els)) - 1)) ltac:(lia)) as [(x & _ & ?)|[-> ?]]; [lia|].
  cbn [map_err]. split; [do 2 f_equal; lia|lia].
Qed.

(** The guards before the peaks are visited. *)
Lemma reconstruct_cases p els a : els ≠ [] → 0 ≤ a → fits 64 (size p) →
  (∃ e, reconstruct_peak_digests H p els a = Err e) ∨
  ∃ n, let b := a + Z.of_nat (length els) - 1 in
    0 ≤ n ≤ 2 ^ 62 ∧ size p = mmr_size n ∧ b < n ∧
    reconstruct_peak_digests H p els a =
      let? (peak_digests, used, w) := peak_loop H ((λ x, peak x) <$> peak_nodes 63 0 n) (mmr_size a) (mmr_size b)
        (digests p) 0 [] (mkWalk els (rev (digests p)) []) in
      match w with
      | mkWalk (_ :: _) _ _ => Err ExtraDigests
      | mkWalk [] (d :: _) collected =>
          if (used =? 0)%nat then Err ExtraDigests
          else if decide (Some d = digests p !! (used - 1)%nat) then Ok (peak_digests, collected)
          else Err ExtraDigests
      | mkWalk [] [] collected => Ok (peak_digests, collected)
      end.
Proof.
  intros Hne Ha Hs. unfold reconstruct_peak_digests. rewrite bool_decide_eq_false_2 by done.
  destruct (position_fits a Ha) as [(x & -> & _)|[-> Hle]]; [by left; eexists|]. cbn [map_err obind].
  destruct (end_position_spec els a Hne ltac:(lia)) as [[e ->]|[-> Hb]]; [by left; eexists|]. cbn [obind].
  case_match eqn:Hlt; [by left; eexists|]. apply Z.leb_gt in Hlt. unfold fits in Hs.
  destruct (is_mmr_size_spec (size p) ltac:(lia)) as (v & -> & Hv). cbn [expect obind].
  destruct v; [|by left; eexists]. destruct (proj1 Hv eq_refl) as (n & Hn & En). cbn [negb].
  right. exists n. cbv zeta. split; [done|]. split; [done|]. destruct els as [|e0 els]; [done|]. simpl length in *. split.
  - rewrite En in Hlt. set (b := a + Z.of_nat (S (length els)) - 1) in *.
    pose proof (mmr_size_mono n b ltac:(lia) ltac:(lia)). lia.
  - rewrite En, peaks_nodes by done. done.
Qed.

Lemma leaves_fit : Z.pow 2 62 < pow 63.
Proof. by vm_compute. Qed.

Lemma peak_nodes_fit n x : 0 ≤ n ≤ 2 ^ 62 → x ∈ peak_nodes 63 0 n → aligned x.1 x.2 ∧ x.2 + pow x.1 ≤ n.
Proof.
  intros Hn Hx. pose proof leaves_fit.
  destruct (peak_nodes_spec 63 0 n x (aligned_zero _) ltac:(lia) Hx) as (? & ? & ? & ? & _). split; [done|lia].
Qed.

Lemma reconstruct_no_panic p els a : 0 ≤ a → fits 64 (size p) → reconstruct_peak_digests H p els a ≠ Panic.
Proof.
  intros Ha Hs. destruct (decide (els = [])) as [->|Hne].
  { unfold reconstruct_peak_digests. rewrite bool_decide_eq_true_2 by done. by case_match. }
  destruct (reconstruct_cases p els a Hne Ha Hs) as [[e ->]|(n & Hn & _ & Hb & ->)]; [done|]. apply obind_no_panic.
  - destruct els; [done|]. simpl length in *. apply peak_loop_no_panic; [lia|lia|]. intros x Hx%peak_nodes_fit; [|done].
    split; [apply Hx|]. destruct Hx. lia.
  - intros [[ds used] [[|e0 es] [|s ss] col]] _; try done. destruct (used =? 0)%nat; [done|]. by case_decide.
Qed.

Lemma verify_no_panic p els a r : 0 ≤ a → fits 64 (size p) → ∃ b, verify_range_inclusion H p els a r = Some b.
Proof.
  intros Ha Hs. unfold verify_range_inclusion, reconstruct_root. unfold fits in Hs.
  destruct (is_mmr_size_spec (size p) ltac:(lia)) as (v & -> & _). simpl. destruct v; [|by exists false]. simpl.
  pose proof (reconstruct_no_panic p els a Ha Hs). destruct (reconstruct_peak_digests H p els a) as [[]| |]; [by eexists..|done].
Qed.

Lemma reconstruct_sound p els a ds col : els ≠ [] → 0 ≤ a → fits 64 (size p) →
  reconstruct_peak_digests H p els a = Ok (ds, col) →
  ∃ n, size p = mmr_size n ∧ 0 ≤ n ≤ 2 ^ 62 ∧ a + Z.of_nat (length els) ≤ n ∧
    ∀ f, ds = (λ x, tree H f x.1 x.2) <$> peak_nodes 63 0 n → matches f a els.
Proof.
  intros Hne Ha Hs. destruct (reconstruct_cases p els a Hne Ha Hs) as [[e ->]|(n & Hn & En & Hb & ->)]; [done|].
  intros ([[ds0 used] w] & E & Ew)%obind_Ok. exists n. split; [done|]. split; [done|]. split; [lia|].
  assert (ds0 = ds ∧ elements w = []) as [-> Hw].
  { clear -Ew. destruct w as [[|] [|] ?]; try done; [by injection Ew|].
    destruct (used =? 0)%nat; [done|]. case_decide; [|done]. by injection Ew. }
  destruct els as [|e0 els]; [done|]. pose proof leaves_fit.
  apply peak_loop_sound in E as (ds' & us & -> & [Eu _] & Hm); [|apply aligned_zero|lia|lia|simpl length in *; lia].
  intros f Hf. simpl in Eu. rewrite Hw, app_nil_r in Eu. subst us. specialize (Hm f Hf). by rewrite Z.max_l in Hm by lia.
Qed.

Lemma verify_true p els a r : verify_range_inclusion H p els a r = Some true →
  ∃ ds col, reconstruct_peak_digests H p els a = Ok (ds, col) ∧ r = root_digest H (size p) ds.
Proof.
  unfold verify_range_inclusion, reconstruct_root. destruct (Position.is_mmr_size (size p)) as [[|]|]; simpl; try done.
  destruct (reconstruct_peak_digests H p els a) as [[ds col]| |]; simpl; try done.
  intros [= Hr%bool_decide_eq_true]. by exists ds, col.
Qed.

Lemma matches_leaves E a els : 0 ≤ a → a + Z.of_nat (length els) ≤ Z.of_nat (length E) →
  matches (leaves_of H E) a els → els `prefix_of` drop (Z.to_nat a) E.
Proof.
  intros Ha Hl Hm. assert (els = take (length els) (drop (Z.to_nat a) E)) as ->; [|apply prefix_take].
  apply list_eq. intros i. destruct (decide (i < length els)%nat) as [Hi|Hge].
  - destruct (lookup_lt_is_Some_2 els i Hi) as [e He]. rewrite lookup_take_lt, lookup_drop, He by done.
    specialize (Hm i e He). unfold leaves_of in Hm. apply leaf_inj in Hm as ->.
    rewrite list_lookup_lookup_total_lt by lia. do 2 f_equal. lia.
  - rewrite !(proj2 (lookup_ge_None _ _)); [done|rewrite length_take; lia|lia].
Qed.
End Walks.

Section Theorems.
Context {D : Type} `{!EqDecision D} (H : Hasher D) `{!CollisionFree H}.
Implicit Types p : Proof_ D.

(** the root of a range commits to the number of its leaves and to the digest
    of each of them. *)
Theorem root_commits f g n m : 0 ≤ n ≤ 2 ^ 62 → 0 ≤ m ≤ 2 ^ 62 →
  range_root H f n = range_root H g m ↔ n = m ∧ ∀ j, 0 ≤ j < n → f j = g j.
Proof.
  intros Hn Hm. split; [|by intros [-> E]; apply range_root_ext].
  unfold range_root. intros [En Et]%root_inj. apply mmr_size_inj in En as <-; [|lia..]. split; [done|].
  intros j Hj. pose proof leaves_fit.
  destruct (peak_nodes_cover 63 0 n j ltac:(lia) ltac:(lia)) as ([h k] & Hx & Hjk). apply (tree_inj H f g h k); [|done].
  apply list_elem_of_lookup in Hx as [i Hi]. apply (f_equal (lookup i)) in Et. rewrite !list_lookup_fmap, Hi in Et.
  simpl in Et. by injection Et.
Qed.

(** C23: verification never panics, and what it accepts against the root of a
    range is true: the proof has the size of the range, and the elements are the
    ones that are in the range from the claimed location on.  This holds for
    every proof, however it was made. *)
Theorem range_inclusion_sound p els start E : Z.of_nat (length E) ≤ 2 ^ 62 → fits 64 (size p) → fits 64 start →
  let root := range_root H (leaves_of H E) (Z.of_nat (length E)) in
  ∃ b, verify_range_inclusion H p els start root = Some b ∧
    (b = true → size p = mmr_size (Z.of_nat (length E)) ∧ els `prefix_of` drop (Z.to_nat start) E).
Proof.
  intros HE Hs [Ha _] root. destruct (verify_no_panic H p els start root Ha Hs) as [b Hb]. exists b. split; [done|].
  intros ->. apply verify_true in Hb as (ds & col & Er & Hr).
  unfold root, range_root in Hr. apply root_inj in Hr as [Esz Eds]. split; [done|].
  destruct (decide (els = [])) as [->|Hne]; [apply prefix_nil|].
  destruct (reconstruct_sound H p els start ds col Hne Ha Hs Er) as (n & En & Hn & Hle & Hm).
  rewrite <- Esz in En. apply mmr_size_inj in En as <-; [|lia..].
  apply (matches_leaves H); [lia|done|]. by apply Hm.
Qed.
End Theorems.

#[local] Existing Instance Symbolic.hasher_collision_free.

Lemma root_commits_witness :
  range_root Symbolic.hasher Symbolic.leaf 3 = range_root Symbolic.hasher (λ k, if k <? 3 then Symbolic.leaf k else Symbolic.leaf 0) 3.
Proof.
  apply (proj2 (root_commits Symbolic.hasher Symbolic.leaf (λ k, if k <? 3 then Symbolic.leaf k else Symbolic.leaf 0) 3 3 ltac:(lia) ltac:(lia))).
  split; [reflexivity|]. intros j Hj. cbv beta. destruct (Z.ltb_spec j 3); [reflexivity|lia].
Defined.

Lemma range_inclusion_sound_witness :
  let E := [Symbolic.element 0; Symbolic.element 1; Symbolic.element 2] in
  ∃ b, verify_range_inclusion Symbolic.hasher (mkProof 4 [Symbolic.leaf 2]) [Symbolic.element 0; Symbolic.element 1] 0
      (range_root Symbolic.hasher (leaves_of Symbolic.hasher E) 3) = Some b ∧
    (b = true → [Symbolic.element 0; Symbolic.element 1] `prefix_of` E).
Proof.
  intros E. destruct (range_inclusion_sound Symbolic.hasher (mkProof 4 [Symbolic.leaf 2]) [Symbolic.element 0; Symbolic.element 1] 0 E
    ltac:(vm_compute; congruence) ltac:(unfold fits; simpl; lia) ltac:(unfold fits; lia)) as (b & E1 & E2).
  exists b. split; [exact E1|]. intros Hb. exact (proj2 (E2 Hb)).
Defined.
End MmrSoundness.
