(* ===== verification/MmrCompleteness.v ===== *)
(** * The nodes a proof needs, and that they are enough

    [sibs] are the siblings the verifier takes from a proof while it rebuilds a
    mountain, with their parents, and [outside] the mountains without elements of
    the range.  The prover lists exactly these ([nodes_required_spec]), so what it
    produces is accepted. *)

From S2P Require Import Prelude Codec CodecTypes CodecOrdered Ordered MmrPosition MmrIterator MmrTree MmrProof MmrSoundness.
Import CodecOrdered Mmr MmrIterator MmrProof MmrSoundness.

Module MmrCompleteness.

(** ** The siblings of a range *)

(** Parent position and node of each sibling, in the order the verifier takes
    them; the locations are [a..b]. *)
Fixpoint sibs (h : nat) (k a b : Z) : list (Z * (nat * Z)) :=
  match h with
  | O => []
  | S h =>
      (if a <? k + pow h then sibs h k a b else []) ++
      (if k + pow h <=? b then sibs h (k + pow h) a b else []) ++
      (if a <? k + pow h then [] else [(node_pos (S h) k, (h, k))]) ++
      (if k + pow h <=? b then [] else [(node_pos (S h) k, (h, k + pow h))])
  end.

Definition located (x : Z * (nat * Z)) : Z * Z := (x.1, node_pos x.2.1 x.2.2).

Definition overlaps (a b : Z) (x : nat * Z) : bool := (a <? x.2 + pow x.1) && (x.2 <=? b).
Definition outside (a b : Z) (l : list (nat * Z)) : list (nat * Z) := filter (λ x, overlaps a b x = false) l.
Definition all_sibs (a b : Z) (l : list (nat * Z)) : list (Z * (nat * Z)) :=
  x ← filter (λ x, overlaps a b x = true) l; sibs x.1 x.2 a b.

Lemma sibs_parent h : ∀ k a b x, aligned h k → x ∈ sibs h k a b → mmr_size k < x.1 ≤ node_pos h k.
Proof.
  induction h as [|h IH]; intros k a b x Hk Hx; [by apply not_elem_of_nil in Hx|].
  pose proof (pow_pos h). pose proof (node_pos_left h k). pose proof (node_pos_right h k Hk). pose proof (mmr_size_right h k Hk).
  assert (mmr_size k < node_pos (S h) k) by (unfold node_pos; rewrite pow_S; lia).
  cbn [sibs] in Hx. rewrite !elem_of_app in Hx. destruct Hx as [Hx|[Hx|[Hx|Hx]]]; case_match; try (by apply not_elem_of_nil in Hx).
  - apply IH in Hx; [lia|by apply aligned_S].
  - apply IH in Hx; [lia|by apply aligned_right].
  - apply list_elem_of_singleton in Hx as ->. simpl. lia.
  - apply list_elem_of_singleton in Hx as ->. simpl. lia.
Qed.

Lemma own_sibling {A B} (c1 c2 : bool) (p : A) (x1 x2 : B) y :
  y ∈ (if c1 then [] else [(p, x1)]) ++ (if c2 then [] else [(p, x2)]) → y.1 = p.
Proof. destruct c1, c2; simpl; set_solver. Qed.

Lemma fmap_rev {A B} (f : A → B) (l : list A) : f <$> rev l = rev (f <$> l).
Proof. induction l as [|x l IH]; [done|]. simpl. by rewrite fmap_app, IH. Qed.

Lemma StronglySorted_app_2 {A} (R : A → A → Prop) l1 l2 : StronglySorted R l1 → StronglySorted R l2 →
  (∀ x y, x ∈ l1 → y ∈ l2 → R x y) → StronglySorted R (l1 ++ l2).
Proof. intros H1 H2 H3. apply StronglySorted_app. naive_solver. Qed.

Lemma sibs_sorted h : ∀ k a b, aligned h k → a ≤ b → StronglySorted (λ x y, x.1 < y.1) (sibs h k a b).
Proof.
  induction h as [|h IH]; intros k a b Hk Hab; [constructor|]. cbn [sibs].
  pose proof (node_pos_right h k Hk). pose proof (node_pos_bounds h k (aligned_S _ _ Hk)) as [_ Hb].
  assert (∀ x, x ∈ (if a <? k + pow h then sibs h k a b else []) → x.1 ≤ node_pos h k) as Hl.
  { intros x Hx. case_match; [|by apply not_elem_of_nil in Hx]. by apply sibs_parent in Hx as [_ ?]; [|apply aligned_S]. }
  assert (∀ x, x ∈ (if k + pow h <=? b then sibs h (k + pow h) a b else []) →
    mmr_size (k + pow h) < x.1 < node_pos (S h) k) as Hr.
  { intros x Hx. case_match; [|by apply not_elem_of_nil in Hx]. apply sibs_parent in Hx as [? ?]; [lia|by apply aligned_right]. }
  pose proof (pow_pos h). pose proof (node_pos_left h k).
  apply StronglySorted_app_2; [clear Hl Hr; destruct (a <? _); [apply IH; [by apply aligned_S|done]|constructor]|..].
  - apply StronglySorted_app_2; [clear Hl Hr; destruct (_ <=? b); [apply IH; [by apply aligned_right|done]|constructor]|..].
    + destruct (Z.ltb_spec a (k + pow h)), (Z.leb_spec (k + pow h) b); simpl; repeat constructor. lia.
    + intros x y Hx%Hr Hy. assert (y.1 = node_pos (S h) k) as ->; [|lia].
      by apply own_sibling in Hy.
  - intros x y Hx%Hl Hy. apply elem_of_app in Hy as [Hy%Hr|Hy]; [lia|]. assert (y.1 = node_pos (S h) k) as ->; [|lia].
    by apply own_sibling in Hy.
Qed.

(** A mountain that is covered has none. *)
Lemma sibs_covered h : ∀ k a b, a ≤ k → k + pow h - 1 ≤ b → sibs h k a b = [].
Proof.
  induction h as [|h IH]; intros k a b Ha Hb; [done|]. cbn [sibs]. rewrite pow_S in Hb. pose proof (pow_pos h).
  destruct (Z.ltb_spec a (k + pow h)); [|lia]. destruct (Z.leb_spec (k + pow h) b); [|lia].
  by rewrite !IH by lia.
Qed.

(** ** The paths of the prover *)

Notation is_right x := (right_sibling x = true).
Notation is_left x := (right_sibling x = false).
Notation path h k j := (path_to h (mmr_size k) (j - k)).

Lemma path_cons h k j : aligned (S h) k → path (S h) k j =
  if k + pow h <=? j then (node_pos (S h) k, node_pos h k) :: path h (k + pow h) j
  else (node_pos (S h) k, node_pos h (k + pow h)) :: path h k j.
Proof.
  intros Hk. cbn [path_to]. rewrite mmr_size_right, node_pos_right by done. unfold node_pos. rewrite pow_S.
  replace (pow h <=? j - k) with (k + pow h <=? j) by (destruct (Z.leb_spec (pow h) (j - k)), (Z.leb_spec (k + pow h) j); lia).
  replace (j - (k + pow h)) with (j - k - pow h) by lia. replace (2 * (2 * pow h)) with (4 * pow h) by lia. done.
Qed.

Lemma sibling_left h k : right_sibling (node_pos (S h) k, node_pos h k) = false.
Proof. unfold right_sibling. simpl. pose proof (node_pos_left h k). pose proof (pow_pos h). apply Z.eqb_neq. lia. Qed.
Lemma sibling_right h k : aligned (S h) k → right_sibling (node_pos (S h) k, node_pos h (k + pow h)) = true.
Proof. intros Hk. unfold right_sibling. simpl. rewrite node_pos_right by done. apply Z.eqb_eq. lia. Qed.

(** One element: both paths. *)
Lemma path_single h : ∀ k a, aligned h k → k ≤ a < k + pow h → located <$> sibs h k a a = rev (path h k a).
Proof.
  induction h as [|h IH]; intros k a Hk Ha; [done|]. rewrite pow_S in Ha. rewrite path_cons by done. cbn [sibs].
  destruct (Z.leb_spec (k + pow h) a), (Z.ltb_spec a (k + pow h)); try lia; cbn [app].
  - rewrite ?app_nil_r, ?fmap_app, IH by ((by apply aligned_right) || lia). done.
  - rewrite fmap_app, IH by ((by apply aligned_S) || lia). done.
Qed.

(** The first mountain of a range that goes on after it. *)
Lemma path_left h : ∀ k a b, aligned h k → k ≤ a < k + pow h → k + pow h - 1 ≤ b →
  located <$> sibs h k a b = rev (filter (λ x, is_left x) (path h k a)).
Proof.
  induction h as [|h IH]; intros k a b Hk Ha Hb; [done|]. rewrite pow_S in *. rewrite path_cons by done. cbn [sibs].
  pose proof (pow_pos h). destruct (Z.leb_spec (k + pow h) b); [|lia].
  destruct (Z.leb_spec (k + pow h) a), (Z.ltb_spec a (k + pow h)); try lia; cbn [app].
  - rewrite filter_cons_True by apply sibling_left. cbn [rev].
    rewrite ?app_nil_r, ?fmap_app, IH by ((by apply aligned_right) || lia). done.
  - rewrite filter_cons_False by (by rewrite sibling_right). rewrite (sibs_covered h (k + pow h)), app_nil_r by lia.
    apply IH; [by apply aligned_S|lia..].
Qed.

(** The last mountain of a range that began before it. *)
Lemma path_right h : ∀ k a b, aligned h k → k ≤ b < k + pow h → a ≤ k →
  located <$> sibs h k a b = rev (filter (λ x, is_right x) (path h k b)).
Proof.
  induction h as [|h IH]; intros k a b Hk Hb Ha; [done|]. rewrite pow_S in *. rewrite path_cons by done. cbn [sibs].
  pose proof (pow_pos h). destruct (Z.ltb_spec a (k + pow h)); [|lia].
  destruct (Z.leb_spec (k + pow h) b); cbn [app].
  - rewrite filter_cons_False by (by rewrite sibling_left). rewrite (sibs_covered h k), app_nil_r by lia. cbn [app].
    apply IH; [by apply aligned_right|lia..].
  - rewrite filter_cons_True by (by apply sibling_right). cbn [rev].
    rewrite fmap_app, IH by ((by apply aligned_S) || lia). done.
Qed.

(** A range within one mountain: both paths contribute, in some order. *)
Lemma path_both h : ∀ k a b, aligned h k → k ≤ a → a < b → b < k + pow h →
  located <$> sibs h k a b ≡ₚ filter (λ x, is_right x) (path h k b) ++ filter (λ x, is_left x) (path h k a).
Proof.
  induction h as [|h IH]; intros k a b Hk Ha Hab Hb; [simpl in Hb; lia|]. rewrite pow_S in *. rewrite !path_cons by done. cbn [sibs].
  pose proof (pow_pos h). destruct (Z.ltb_spec a (k + pow h)), (Z.leb_spec (k + pow h) a), (Z.leb_spec (k + pow h) b); try lia; cbn [app].
  - rewrite filter_cons_False by (by rewrite sibling_left). rewrite filter_cons_False by (by rewrite sibling_right).
    rewrite ?app_nil_r, ?fmap_app, path_left, path_right by ((by apply aligned_S) || (by apply aligned_right) || lia).
    rewrite Permutation_app_comm. by rewrite <- !Permutation_rev.
  - rewrite filter_cons_True by (by apply sibling_right). rewrite filter_cons_False by (by rewrite sibling_right).
    rewrite fmap_app, IH by ((by apply aligned_S) || lia). rewrite Permutation_app_comm. done.
  - rewrite filter_cons_False by (by rewrite sibling_left). rewrite filter_cons_True by apply sibling_left.
    rewrite ?app_nil_r, ?fmap_app, IH by ((by apply aligned_right) || lia). rewrite Permutation_app_comm. cbn. by rewrite Permutation_middle.
Qed.

(** ** The nodes a range needs *)

Notation peak x := (node_pos x.1 x.2, Z.of_nat x.1).
Notation peaks_of l := ((λ x, peak x) <$> l).
Notation position x := (node_pos x.1 x.2).

Lemma outside_cons a b x l : outside a b (x :: l) = if overlaps a b x then outside a b l else x :: outside a b l.
Proof.
  unfold outside. destruct (overlaps a b x) eqn:E; [by rewrite filter_cons_False by congruence|by rewrite filter_cons_True].
Qed.
Lemma all_sibs_cons a b x l : all_sibs a b (x :: l) = (if overlaps a b x then sibs x.1 x.2 a b else []) ++ all_sibs a b l.
Proof.
  unfold all_sibs. destruct (overlaps a b x) eqn:E; [by rewrite filter_cons_True|by rewrite filter_cons_False by congruence].
Qed.

Lemma overlaps_true a b h k : a < k + pow h → k ≤ b → overlaps a b (h, k) = true.
Proof. intros. unfold overlaps. simpl. rewrite (proj2 (Z.ltb_lt _ _)), (proj2 (Z.leb_le _ _)) by lia. done. Qed.
Lemma overlaps_false a b h k : k + pow h ≤ a ∨ b < k → overlaps a b (h, k) = false.
Proof. intros. unfold overlaps. simpl. apply andb_false_iff. rewrite Z.ltb_ge, Z.leb_gt. lia. Qed.

Lemma beyond h : ∀ k n a b, 0 ≤ n < pow h → b < k →
  outside a b (peak_nodes h k n) = peak_nodes h k n ∧ all_sibs a b (peak_nodes h k n) = [].
Proof.
  induction h as [|h IH]; intros k n a b Hn Hb; [done|]. cbn [peak_nodes]. rewrite pow_S in Hn. pose proof (pow_pos h).
  destruct (Z.leb_spec (pow h) n); [|apply IH; lia]. rewrite outside_cons, all_sibs_cons, overlaps_false by lia.
  destruct (IH (k + pow h) (n - pow h) a b) as [-> ->]; [lia..|]. done.
Qed.

(** The mountain of a location. *)
Definition holds (x : nat * Z) (j : Z) : Prop := aligned x.1 x.2 ∧ x.2 ≤ j < x.2 + pow x.1.

Lemma find_end_spec h : ∀ k n a b, aligned h k → 0 ≤ n < pow h → a ≤ k ≤ b → b < k + n →
  ∃ e rest, find_end (peaks_of (peak_nodes h k n)) (mmr_size b) = (Some (peak e), peaks_of rest) ∧
    outside a b (peak_nodes h k n) = rest ∧ all_sibs a b (peak_nodes h k n) = sibs e.1 e.2 a b ∧
    holds e b ∧ k ≤ e.2 ∧ (e.1 < h)%nat.
Proof.
  induction h as [|h IH]; intros k n a b Hk Hn Hab Hb; [simpl in Hn; lia|]. cbn [peak_nodes]. rewrite pow_S in Hn.
  pose proof (pow_pos h). pose proof (aligned_S _ _ Hk) as Hk'.
  destruct (Z.leb_spec (pow h) n).
  2: { destruct (IH k n a b Hk' ltac:(lia) Hab Hb) as (e & rest & ? & ? & ? & ? & ? & ?). exists e, rest. auto 10 with lia. }
  cbn [fmap list_fmap find_end fst snd].
  rewrite outside_cons, all_sibs_cons, overlaps_true by lia. pose proof (node_pos_ge h k b Hk' ltac:(destruct Hk'; lia)).
  destruct (Z.leb_spec (mmr_size b) (node_pos h k)) as [Hle|Hgt].
  - destruct (beyond h (k + pow h) (n - pow h) a b ltac:(lia) ltac:(lia)) as [-> ->].
    exists (h, k), (peak_nodes h (k + pow h) (n - pow h)). rewrite app_nil_r. split; [done|]. split; [done|]. split; [done|].
    split; [split; [done|simpl; lia]|simpl; lia].
  - destruct (IH (k + pow h) (n - pow h) a b (aligned_right _ _ Hk)) as (e & rest & E & Eo & Es & He & Hke & Hh); [lia..|].
    exists e, rest. cbn [fst snd]. rewrite E, Eo, Es, (sibs_covered h k) by lia. split; [done|]. split; [done|]. split; [done|].
    split; [done|lia].
Qed.

Lemma scan_spec h : ∀ k n a b acc, aligned h k → 0 ≤ n < pow h → k ≤ a ≤ b → b < k + n →
  ∃ s e, scan_peaks (peaks_of (peak_nodes h k n)) (mmr_size a) (mmr_size b) acc =
      (Some (peak s), Some (peak e), acc ++ ((λ x, position x) <$> outside a b (peak_nodes h k n))) ∧
    (s.1 < h)%nat ∧ (e.1 < h)%nat ∧ holds s a ∧ holds e b ∧
    (s = e ∧ all_sibs a b (peak_nodes h k n) = sibs s.1 s.2 a b ∨
     s.2 + pow s.1 ≤ e.2 ∧ all_sibs a b (peak_nodes h k n) = sibs s.1 s.2 a b ++ sibs e.1 e.2 a b).
Proof.
  induction h as [|h IH]; intros k n a b acc Hk Hn Hab Hb; [simpl in Hn; lia|]. cbn [peak_nodes]. rewrite pow_S in Hn.
  pose proof (pow_pos h). pose proof (aligned_S _ _ Hk) as Hk'. destruct (Hk') as [Hk0 _].
  destruct (Z.leb_spec (pow h) n).
  2: { destruct (IH k n a b acc Hk' ltac:(lia) Hab Hb) as (s & e & ? & ? & ? & ?). exists s, e. auto 10 with lia. }
  cbn [fmap list_fmap scan_peaks fst snd].
  pose proof (node_pos_ge h k a Hk' ltac:(lia)). pose proof (node_pos_ge h k b Hk' ltac:(lia)).
  destruct (Z.leb_spec (mmr_size a) (node_pos h k)) as [Ha|Ha]; [|].
  - rewrite outside_cons, all_sibs_cons, overlaps_true by lia. cbn [fst snd].
    destruct (Z.leb_spec (mmr_size b) (node_pos h k)).
    + destruct (beyond h (k + pow h) (n - pow h) a b ltac:(lia) ltac:(lia)) as [-> ->]. exists (h, k), (h, k).
      rewrite <- list_fmap_compose, app_nil_r. split; [done|]. do 2 (split; [simpl; lia|]). split; [split; [done|simpl; lia]|]. split; [split; [done|simpl; lia]|].
      by left.
    + destruct (find_end_spec h (k + pow h) (n - pow h) a b (aligned_right _ _ Hk)) as (e & rest & -> & -> & -> & He & Hke & Hh); [lia..|].
      exists (h, k), e. rewrite <- list_fmap_compose. split; [done|]. do 2 (split; [simpl; lia|]). split; [split; [done|simpl; lia]|]. split; [done|].
      right. split; [simpl; lia|done].
  - rewrite outside_cons, all_sibs_cons, overlaps_false by lia.
    destruct (IH (k + pow h) (n - pow h) a b (acc ++ [node_pos h k]) (aligned_right _ _ Hk)) as (s & e & -> & Hs & He & Hc); [lia..|].
    exists s, e. rewrite <- app_assoc. split; [done|]. do 2 (split; [lia|]). done.
Qed.

Lemma path_spec h k j : (h ≤ 64)%nat → holds (h, k) j → Path.path (mmr_size j) (node_pos h k) (Z.of_nat h) = Some (path h k j).
Proof.
  intros Hh [Hk Hj]. simpl in *. destruct (Hk) as [Hk0 _]. pose proof (mmr_size_nonneg k Hk0).
  unfold Path.path, Path.new. rewrite Z.shiftl_1_l.
  replace (mmr_size j) with (mmr_size k + mmr_size (j - k)) by (rewrite <- (mmr_size_add h) by (done || lia); f_equal; lia).
  replace (node_pos h k) with (mmr_size k + 2 * pow h - 2) by done. apply path_collect; lia.
Qed.

(** The prover lists the siblings of the verifier, last first. *)
Lemma path_siblings_spec s e a b : (s.1 ≤ 64)%nat → (e.1 ≤ 64)%nat → holds s a → holds e b → a ≤ b →
  (s = e ∨ s.2 + pow s.1 ≤ e.2) →
  path_siblings (mmr_size a) (mmr_size b) (peak s) (peak e) =
    Some (rev (located <$> if decide (s = e) then sibs s.1 s.2 a b else sibs s.1 s.2 a b ++ sibs e.1 e.2 a b)).
Proof.
  destruct s as [h k], e as [h' k']. cbn [fst snd]. intros Hh Hh' Hs He Hab Hc.
  unfold path_siblings. cbn [fst snd]. rewrite (path_spec h k a), (path_spec h' k' b) by done. cbn [mbind option_bind].
  destruct Hs as [Hk Ha], He as [Hk' Hb]. cbn [fst snd] in *. destruct (Hk) as [Hk0 _].
  destruct (Z.eqb_spec (mmr_size a) (mmr_size b)) as [Eab|Nab].
  { apply mmr_size_inj in Eab as <-; [|lia..]. rewrite decide_True by (destruct Hc as [?|?]; [done|lia]).
    by rewrite path_single, rev_involutive by done. }
  assert (a < b) by (assert (a ≠ b) by (by intros ->); lia).
  destruct (decide ((h, k) = (h', k'))) as [[= <- <-]|Hne].
  - rewrite Z.eqb_refl. f_equal. apply (Ordered.sort_by_key_unique (λ x : Z * Z, - x.1)).
    + rewrite <- Permutation_rev. by apply path_both; [done|lia..].
    + pose proof (sibs_sorted h k a b Hk Hab) as Hsort. induction Hsort as [|x l Hl IH Hx]; [constructor|]. simpl.
      apply StronglySorted_app_2; [done|by repeat constructor|]. rewrite Forall_forall in Hx.
      intros y z Hy%list_elem_of_In%in_rev%list_elem_of_In ->%list_elem_of_singleton. apply list_elem_of_fmap in Hy as (y' & -> & Hy).
      specialize (Hx _ Hy). unfold Ordered.below, klt. simpl. apply Z.compare_lt_iff. lia.
  - destruct Hc as [?|Hc]; [done|]. destruct (Z.eqb_spec (node_pos h k) (node_pos h' k')) as [En|_].
    { by apply node_pos_inj in En as [-> ->]. }
    f_equal. rewrite fmap_app, rev_app_distr. pose proof (pow_pos h).
    rewrite (path_left h k a b), (path_right h' k' a b), !rev_involutive by (done || lia). done.
Qed.

Lemma nodes_required_spec n a b : 0 ≤ n ≤ 2 ^ 62 → 0 ≤ a ≤ b → b < n →
  nodes_required_for_range_proof (mmr_size n) a (b + 1) =
    Ok (((λ x, position x) <$> outside a b (peak_nodes 63 0 n)) ++
        rev ((λ x, position x.2) <$> all_sibs a b (peak_nodes 63 0 n))).
Proof.
  intros Hn Hab Hb. pose proof leaves_fit. unfold nodes_required_for_range_proof.
  assert (2 ^ 62 = MAX_LOCATION + 1) as E62 by reflexivity.
  assert (0 ≤ mmr_size n < 2 ^ 64) as Hsz.
  { pose proof (mmr_size_nonneg n ltac:(lia)). pose proof (mmr_size_mono n (2 ^ 62) ltac:(lia) ltac:(lia)) as [Hm _].
    rewrite mmr_size_62 in Hm. lia. }
  destruct (is_mmr_size_spec (mmr_size n) Hsz) as (v & -> & Hv). cbn [expect obind].
  rewrite (proj2 Hv) by (by exists n). cbn [negb]. destruct (Z.leb_spec (b + 1) a); [lia|].
  unfold position_of. rewrite (try_from_location_spec a) by lia. cbn [map_err obind].
  unfold Location.checked_sub, checked_sub. destruct (Z.leb_spec 1 (b + 1)); [|lia]. cbn [expect obind].
  replace (b + 1 - 1) with b by lia. rewrite (try_from_location_spec b) by lia. cbn [map_err obind].
  pose proof (mmr_size_strict b n ltac:(lia) Hb). destruct (Z.leb_spec (mmr_size n) (mmr_size b)); [lia|].
  rewrite peaks_nodes by done. cbn [expect obind].
  destruct (scan_spec 63 0 n a b [] (aligned_zero _) ltac:(lia) ltac:(lia) ltac:(lia)) as (s & e & -> & Hsh & Heh & Hs & He & Hc).
  cbn [expect obind].
  rewrite path_siblings_spec by (lia || done || destruct Hc as [[? _]|[? _]]; auto). cbn [expect obind app]. do 2 f_equal.
  rewrite fmap_rev, <- list_fmap_compose. f_equal. destruct Hc as [[-> ->]|[Hlt ->]].
  - by rewrite decide_True.
  - rewrite decide_False; [done|]. intros <-. pose proof (pow_pos s.1). lia.
Qed.

(** ** What the prover lists is what the verifier takes *)

Section Verifier.
Context {D : Type} `{!EqDecision D} (H : Hasher D) (f : Z → D).
Implicit Types w : @Walk D.
Implicit Types p : Proof_ D.
Implicit Types st : Storage D.

Notation walk fuel h k a b w :=
  (peak_digest_from_range H fuel (node_pos h k) (pow h) (mmr_size a) (mmr_size b) w).
Notation digest_of := (λ x : Z * (nat * Z), tree H f x.2.1 x.2.2).
Notation matches := (matches H f).

(** The nodes whose digests are collected on the way. *)
Fixpoint seen (h : nat) (k a b : Z) : list (nat * Z) :=
  match h with
  | O => []
  | S h =>
      (if a <? k + pow h then seen h k a b else []) ++
      (if k + pow h <=? b then seen h (k + pow h) a b else []) ++
      [(h, k); (h, k + pow h)]
  end.
Definition record (x : nat * Z) : Z * D := (position x, tree H f x.1 x.2).

(** The iterators hold what [n] leaves from [k] on take from them. *)
Record supply (k n a b : Z) (sb : list (Z * (nat * Z))) (l : list (nat * Z)) w w' : Prop := {
  sp_elements : ∃ us, elements w = us ++ elements w' ∧ Z.of_nat (length us) = overlap k n a b ∧ matches (Z.max a k) us;
  sp_siblings : siblings w = (digest_of <$> sb) ++ siblings w';
  sp_collected : collected w' = collected w ++ (record <$> l);
}.

Lemma supply_elements k n n' a b us : a ≤ b → 0 ≤ n → 0 ≤ n' → Z.of_nat (length us) = overlap k (n + n') a b →
  matches (Z.max a k) us → ∃ u1 u2, us = u1 ++ u2 ∧
    Z.of_nat (length u1) = overlap k n a b ∧ matches (Z.max a k) u1 ∧
    Z.of_nat (length u2) = overlap (k + n) n' a b ∧ matches (Z.max a (k + n)) u2.
Proof.
  unfold overlap. intros Hab Hn Hn' Hl Hm. set (i := Z.to_nat (Z.max 0 (Z.min b (k + n - 1) - Z.max a k + 1))).
  exists (take i us), (drop i us). rewrite <- (take_drop i us) in Hm. apply matches_app in Hm as [H1 H2].
  assert (length (take i us) = i) as Hi by (rewrite length_take; lia). rewrite Hi in *.
  split; [by rewrite take_drop|]. split; [lia|]. split; [done|]. assert (length (drop i us) = (length us - i)%nat) as Hd by apply length_drop.
  split; [lia|]. destruct (drop i us) as [|e u2] eqn:E; [apply matches_nil|]. rewrite <- E in *. simpl in Hd.
  assert (0 < length us - i)%nat by (rewrite <- Hd, E; simpl; lia).
  by replace (Z.max a (k + n)) with (Z.max a k + Z.of_nat i) by lia.
Qed.

(** A walk over two neighbours supplied together. *)
Lemma supply_app k n n' a b sb sb' l l' w w2 : a ≤ b → 0 ≤ n → 0 ≤ n' → supply k (n + n') a b (sb ++ sb') (l ++ l') w w2 →
  ∃ w1, supply k n a b sb l w w1 ∧ supply (k + n) n' a b sb' l' w1 w2.
Proof.
  intros Hab Hn Hn' [(us & Ee & Hl & Hm) Es Ec].
  destruct (supply_elements k n n' a b us Hab Hn Hn' Hl Hm) as (u1 & u2 & -> & L1 & M1 & L2 & M2).
  exists (mkWalk (u2 ++ elements w2) ((digest_of <$> sb') ++ siblings w2) (collected w ++ (record <$> l))). split.
  - split; simpl; [exists u1; by rewrite Ee, <- app_assoc| |done]. by rewrite Es, fmap_app, <- app_assoc.
  - split; simpl; [by exists u2|done|]. by rewrite Ec, fmap_app, app_assoc.
Qed.

Lemma supply_none k n a b w w' : overlap k n a b = 0 → supply k n a b [] [] w w' → w' = w.
Proof.
  intros Hd [(us & Ee & Hl & _) Es Ec]. destruct us; [|simpl in Hl; lia].
  destruct w, w'. simpl in *. rewrite app_nil_r in Ec. by subst.
Qed.

(** What is taken after the leaves. *)
Lemma supply_last k n a b sb sb' l l' w w' : supply k n a b (sb ++ sb') (l ++ l') w w' →
  ∃ w2, supply k n a b sb l w w2 ∧ elements w2 = elements w' ∧ siblings w2 = (digest_of <$> sb') ++ siblings w' ∧
    collected w' = collected w2 ++ (record <$> l').
Proof.
  intros [Ee Es Ec]. exists (mkWalk (elements w') ((digest_of <$> sb') ++ siblings w') (collected w ++ (record <$> l))).
  split; [split; simpl; [done| |done]|split; [done|]; split; [done|]]; simpl.
  - by rewrite Es, fmap_app, <- app_assoc.
  - by rewrite Ec, fmap_app, app_assoc.
Qed.

Lemma visit_supply h k a b (t : bool) fuel w w' : (t = false → k + pow h ≤ a ∨ b < k) →
  (t = true → walk fuel h k a b w = Ok (tree H f h k, w')) →
  supply k (pow h) a b (if t then sibs h k a b else []) (if t then seen h k a b else []) w w' →
  visit t (walk fuel h k a b w) w = Ok (if t then Some (tree H f h k) else None, w').
Proof.
  intros Hf Ht Hs. destruct t; simpl; [by rewrite Ht|]. specialize (Hf eq_refl).
  by rewrite (supply_none k (pow h) a b w w' ltac:(unfold overlap; lia) Hs).
Qed.

Lemma walk_complete h : ∀ fuel k a b w w', (h < fuel)%nat → aligned h k → 0 ≤ a ≤ b → a < k + pow h → k ≤ b →
  node_pos h k < 2 ^ 64 → supply k (pow h) a b (sibs h k a b) (seen h k a b) w w' →
  walk fuel h k a b w = Ok (tree H f h k, w').
Proof.
  induction h as [|h IH]; intros [|fuel] k a b w w' Hf Hk Hab Hka Hkb Hmax Hs; try lia.
  { rewrite walk_0. destruct Hs as [(us & Ee & Hl & Hm) Es Ec]. unfold overlap in Hl. simpl in Hl, Es, Ec, Hka.
    destruct us as [|e [|]]; simpl in Hl; try lia. rewrite Ee. specialize (Hm 0%nat e eq_refl). simpl in *.
    rewrite Z.add_0_r in Hm. replace (Z.max a k) with k in Hm by lia. rewrite Hm. rewrite app_nil_r in Ec.
    destruct w, w'. simpl in *. by subst. }
  pose proof (pow_pos h). pose proof (node_pos_left h k). pose proof (node_pos_right h k Hk). rewrite walk_S by first [assumption|lia].
  cbn [sibs seen] in Hs. rewrite pow_S in Hs, Hka. replace (2 * pow h) with (pow h + pow h) in Hs by lia.
  rewrite !(app_assoc (if a <? k + pow h then sibs _ _ _ _ else _)) in Hs.
  rewrite !(app_assoc (if a <? k + pow h then seen _ _ _ _ else _)) in Hs.
  apply supply_last in Hs as (w2 & Hs & E2).
  apply supply_app in Hs as (w1 & S1 & S2); [|lia..].
  rewrite (visit_supply h k a b (a <? k + pow h) fuel w w1); [|by intros ?%Z.ltb_ge; lia|intros ?%Z.ltb_lt|done].
  2: { rewrite (proj2 (Z.ltb_lt _ _)) in S1 by done. apply IH; [lia|by apply aligned_S|lia..|done]. }
  cbn [obind].
  rewrite (visit_supply h (k + pow h) a b (k + pow h <=? b) fuel w1 w2); [|by intros ?%Z.leb_gt; lia|intros ?%Z.leb_le|done].
  2: { rewrite (proj2 (Z.leb_le _ _)) in S2 by done. apply IH; [lia|by apply aligned_right|lia..|done]. }
  cbn [obind]. destruct E2 as (El & Es & Ec). destruct w2 as [els sb col], w' as [els' sb' col']. cbn [elements siblings collected] in *. subst.
  destruct (a <? k + pow h), (k + pow h <=? b); reflexivity.
Qed.

(** ** The loop over the peaks *)

Definition seen_peaks (a b : Z) (l : list (nat * Z)) : list (nat * Z) :=
  x ← l; (if overlaps a b x then seen x.1 x.2 a b else []) ++ [x].

Lemma seen_peaks_cons a b x l :
  seen_peaks a b (x :: l) = ((if overlaps a b x then seen x.1 x.2 a b else []) ++ [x]) ++ seen_peaks a b l.
Proof. done. Qed.

Lemma peak_loop_complete h : ∀ k n a b front used acc w w', aligned h k → 0 ≤ n < pow h → k + n ≤ 2 ^ 62 → 0 ≤ a ≤ b →
  let l := peak_nodes h k n in
  supply k n a b (all_sibs a b l) (seen_peaks a b l) w w' →
  peak_loop H (peaks_of l) (mmr_size a) (mmr_size b) (((λ x, tree H f x.1 x.2) <$> outside a b l) ++ front) used acc w =
    Ok (acc ++ ((λ x, tree H f x.1 x.2) <$> l), (used + length (outside a b l))%nat, w').
Proof.
  induction h as [|h IH]; intros k n a b front used acc w w' Hk Hn Hmax Hab l Hs.
  { apply supply_none in Hs as ->; [|unfold overlap; simpl in Hn; lia]. simpl. by rewrite app_nil_r, Nat.add_0_r. }
  subst l. cbn [peak_nodes] in *. rewrite pow_S in Hn. pose proof (pow_pos h). pose proof (aligned_S _ _ Hk) as Hk'.
  destruct (Z.leb_spec (pow h) n) as [Hge|]; [|apply IH; [done|lia..|done]].
  destruct (node_fits h k (k + n) Hk' ltac:(lia) Hmax) as [Hpos Hh].
  cbn [fmap list_fmap]. rewrite peak_loop_cons by first [assumption|lia].
  rewrite all_sibs_cons, seen_peaks_cons in Hs. rewrite outside_cons.
  set (l := peak_nodes h (k + pow h) (n - pow h)) in *. replace n with (pow h + (n - pow h)) in Hs by lia.
  apply supply_app in Hs as (w1 & S1 & S2); [|lia..].
  assert (∀ front used acc, peak_loop H (peaks_of l) (mmr_size a) (mmr_size b)
    (((λ x, tree H f x.1 x.2) <$> outside a b l) ++ front) used acc w1 =
    Ok (acc ++ ((λ x, tree H f x.1 x.2) <$> l), (used + length (outside a b l))%nat, w')) as Hrest.
  { intros front' used' acc'. apply IH; [by apply aligned_right|lia..|done]. }
  rewrite <- (app_nil_r (if overlaps a b (h, k) then _ else _)) in S1. apply supply_last in S1 as (w2 & S1 & E1 & E2 & E3).
  assert (collect w2 [(node_pos h k, tree H f h k)] = w1) as Ew.
  { destruct w1, w2. simpl in *. by subst. }
  unfold overlaps in *. cbn [fst snd] in *. destruct ((a <? k + pow h) && (k <=? b)) eqn:Et.
  - apply andb_true_iff in Et as [Et1%Z.ltb_lt Et2%Z.leb_le].
    rewrite (walk_complete h 65 k a b w w2) by first [assumption|lia]. cbn [obind].
    rewrite Ew, Hrest, <- app_assoc. done.
  - apply supply_none in S1 as ->.
    2: { apply andb_false_iff in Et. rewrite Z.ltb_ge, Z.leb_gt in Et. unfold overlap. lia. }
    cbn [fmap list_fmap app fst snd]. rewrite Ew, Hrest, <- app_assoc. cbn [length]. do 3 f_equal. lia.
Qed.

(** ** The proof of a range *)

Notation root n := (range_root H f n).
Notation peak_digests n := ((λ x, tree H f x.1 x.2) <$> peak_nodes 63 0 n).

(** The proof the prover makes for the locations [a..b]. *)
Definition canonical (n a b : Z) : Proof_ D :=
  let l := peak_nodes 63 0 n in
  mkProof (mmr_size n) (((λ x, tree H f x.1 x.2) <$> outside a b l) ++ rev (digest_of <$> all_sibs a b l)).

Lemma reconstruct_good p els a n : els ≠ [] → 0 ≤ a → n ≤ 2 ^ 62 → size p = mmr_size n →
  let b := a + Z.of_nat (length els) - 1 in b < n →
  end_position els a (mmr_size a) = Ok (mmr_size b) ∧
  Position.try_from_location a = Ok (mmr_size a) ∧ (size p <=? mmr_size b) = false ∧
  Position.is_mmr_size (size p) = Some true ∧ Peaks.peaks (size p) = Some (peaks_of (peak_nodes 63 0 n)).
Proof.
  intros Hne Ha Hn Hs b Hb. assert (2 ^ 62 = MAX_LOCATION + 1) as E62 by reflexivity.
  destruct els as [|e els]; [done|]. simpl length in *.
  assert (0 ≤ mmr_size n < 2 ^ 64) as Hsz.
  { pose proof (mmr_size_nonneg n ltac:(lia)). pose proof (mmr_size_mono n (2 ^ 62) ltac:(lia) ltac:(lia)) as [Hm _].
    rewrite mmr_size_62 in Hm. lia. }
  split_and!.
  - unfold end_position. cbn [length]. destruct (Nat.eqb_spec (S (length els)) 1) as [E|_].
    + do 2 f_equal. lia.
    + unfold Location.checked_add, checked_add. destruct (Z.ltb_spec (a + (Z.of_nat (S (length els)) - 1)) (2 ^ 64)); [|lia].
      destruct (Z.leb_spec (a + (Z.of_nat (S (length els)) - 1)) MAX_LOCATION); [|lia].
      rewrite try_from_location_spec by lia. cbn [map_err]. do 2 f_equal. lia.
  - rewrite try_from_location_spec by lia. done.
  - rewrite Hs. apply Z.leb_gt, mmr_size_strict; lia.
  - rewrite Hs. destruct (is_mmr_size_spec (mmr_size n) Hsz) as (v & -> & Hv). f_equal. apply Hv. exists n. lia.
  - rewrite Hs, peaks_nodes by lia. done.
Qed.

(** The proofs of [a..b] that are accepted: the digests of the mountains outside
    the range in front, those of the siblings at the end, and between them what
    the final check lets through. *)
Record accepted (p : Proof_ D) (n a b : Z) : Prop := {
  ac_size : size p = mmr_size n;
  ac_front : ((λ x, tree H f x.1 x.2) <$> outside a b (peak_nodes 63 0 n)) `prefix_of` digests p;
  ac_back : ∃ tail, rev (digests p) = (digest_of <$> all_sibs a b (peak_nodes 63 0 n)) ++ tail ∧
    (tail = [] ∨ ∃ d, head tail = Some d ∧
      last ((λ x, tree H f x.1 x.2) <$> outside a b (peak_nodes 63 0 n)) = Some d);
}.

Lemma canonical_accepted n a b : accepted (canonical n a b) n a b.
Proof.
  split; [reflexivity|by apply prefix_app_r|]. cbn [canonical digests].
  generalize (all_sibs a b (peak_nodes 63 0 n)), (outside a b (peak_nodes 63 0 n)). intros sb out.
  exists (rev ((λ x, tree H f x.1 x.2) <$> out)). rewrite rev_app_distr, rev_involutive. split; [reflexivity|].
  destruct (rev _) as [|d rest] eqn:E; [by left|right]. exists d. split; [done|].
  by rewrite <- (rev_involutive (_ <$> _)), E, <- (last_snoc d (rev rest)).
Qed.

(** The iterators of a proof of [els], and what is left of them. *)
Lemma supply_all n a els sb l ds tail : els ≠ [] → 0 ≤ a → a + Z.of_nat (length els) - 1 < n → matches a els →
  ds = (digest_of <$> sb) ++ tail →
  supply 0 n a (a + Z.of_nat (length els) - 1) sb l (mkWalk els ds []) (mkWalk [] tail (record <$> l)).
Proof.
  intros Hne Ha Hb Hm ->. assert (length els ≠ 0%nat) by (by destruct els). split; cbn [elements siblings collected].
  - exists els. rewrite app_nil_r. split; [reflexivity|]. split; [unfold overlap; lia|].
    by replace (Z.max a 0) with a by lia.
  - reflexivity.
  - reflexivity.
Qed.

Lemma reconstruct_complete p els a n : els ≠ [] → 0 ≤ a → n ≤ 2 ^ 62 →
  let b := a + Z.of_nat (length els) - 1 in b < n → accepted p n a b → matches a els →
  reconstruct_peak_digests H p els a = Ok (peak_digests n, record <$> seen_peaks a b (peak_nodes 63 0 n)).
Proof.
  intros Hne Ha Hn b Hb [Esz [front Ef] (tail & Et & Hfin)] Hm. unfold reconstruct_peak_digests. rewrite bool_decide_eq_false_2 by done.
  destruct (reconstruct_good p els a n) as (E1 & -> & E3 & E4 & E5); [done..|].
  cbn [map_err obind]. rewrite E1. cbn [obind]. rewrite E3, E4. cbn [expect obind negb]. rewrite E5. cbn [expect obind].
  clear E1 E3 E4 E5. assert (length els ≠ 0%nat) by (by destruct els). pose proof leaves_fit as Hfit.
  pose proof (supply_all n a els _ (seen_peaks a b (peak_nodes 63 0 n)) _ _ Hne Ha Hb Hm Et) as Hs.
  pose proof (peak_loop_complete 63 0 n a b front 0 [] _ _ (aligned_zero 63) ltac:(lia) ltac:(lia) ltac:(lia) Hs) as Hl.
  cbn zeta in Hl. rewrite <- Ef in Hl. fold b. rewrite Hl. clear Hl Hs Hm Hfit Et. cbn [obind app plus].
  generalize dependent (seen_peaks a b (peak_nodes 63 0 n)). generalize dependent (outside a b (peak_nodes 63 0 n)).
  generalize ((λ x, tree H f x.1 x.2) <$> peak_nodes 63 0 n). intros peaks out Ef Hfin sn.
  destruct Hfin as [->|(d & Hd & Hl)]; [reflexivity|]. destruct tail as [|d' tail]; [done|]. injection Hd as ->.
  rewrite last_lookup, length_fmap, <- Nat.sub_1_r in Hl. destruct (Nat.eqb_spec (length out) 0) as [E|Hlen].
  { destruct out; [done|discriminate E]. }
  rewrite Ef, lookup_app_l, Hl by (rewrite length_fmap; lia). by rewrite decide_True.
Qed.

Lemma accepted_verifies p els a n : els ≠ [] → 0 ≤ a → n ≤ 2 ^ 62 →
  let b := a + Z.of_nat (length els) - 1 in b < n → accepted p n a b → matches a els →
  verify_range_inclusion H p els a (root n) = Some true.
Proof.
  intros Hne Ha Hn b Hb Hac Hm. pose proof (reconstruct_complete _ els a n Hne Ha Hn Hb Hac Hm) as E. fold b in E.
  destruct (reconstruct_good p els a n Hne Ha Hn (ac_size _ _ _ _ Hac) Hb) as (_ & _ & _ & E4 & _).
  unfold verify_range_inclusion, reconstruct_root. rewrite E4. cbn [mbind option_bind expect obind negb]. rewrite E. cbn [obind].
  destruct Hac as [Esz _ _]. rewrite Esz. by rewrite bool_decide_eq_true_2.
Qed.

Lemma canonical_verifies els a n : els ≠ [] → 0 ≤ a → n ≤ 2 ^ 62 →
  let b := a + Z.of_nat (length els) - 1 in b < n → matches a els →
  verify_range_inclusion H (canonical n a b) els a (root n) = Some true.
Proof. intros Hne Ha Hn b Hb Hm. by apply accepted_verifies; [..|apply canonical_accepted|]. Qed.

(** ** Proofs from a store *)

(** A store that holds only digests of the range; it may lack some. *)
Definition faithful (n : Z) (get : Z → option D) : Prop :=
  ∀ h k d, aligned h k → k + pow h ≤ n → get (node_pos h k) = Some d → d = tree H f h k.

Definition in_range (n : Z) (x : nat * Z) : Prop := aligned x.1 x.2 ∧ x.2 + pow x.1 ≤ n.

Lemma fetch_nodes n get l : faithful n get → (∀ x, x ∈ l → in_range n x) →
  fetch get ((λ x, position x) <$> l) = Ok ((λ x, tree H f x.1 x.2) <$> l) ∨
  ∃ x, x ∈ l ∧ get (position x) = None ∧ fetch get ((λ x, position x) <$> l) = Err (ElementPruned (position x)).
Proof.
  intros Hg. induction l as [|x l IH]; intros Hl; [by left|]. cbn [fmap list_fmap fetch].
  destruct (Hl x ltac:(constructor)) as [Hx Hn].
  destruct (get (position x)) as [d|] eqn:E.
  - apply Hg in E as ->; [|done..]. destruct IH as [E|(y & Hy & Ey & E)]; [intros y Hy; apply Hl; by constructor|..].
    + left. by rewrite E.
    + right. exists y. rewrite E. split; [by constructor|done].
  - right. exists x. split; [constructor|done].
Qed.

Lemma sibs_in_range h : ∀ k a b x, aligned h k → x ∈ sibs h k a b → in_range (k + pow h) x.2 ∧ k ≤ x.2.2.
Proof using Type.
  clear H f.
  induction h as [|h IH]; intros k a b x Hk Hx; [by apply not_elem_of_nil in Hx|].
  pose proof (pow_pos h). pose proof (pow_S h). pose proof (aligned_S _ _ Hk). pose proof (aligned_right _ _ Hk).
  cbn [sibs] in Hx. rewrite !elem_of_app in Hx. destruct Hx as [Hx|[Hx|[Hx|Hx]]]; case_match; try (by apply not_elem_of_nil in Hx).
  - destruct (IH k a b x) as [[? ?] ?]; [done..|]. split; [split; [done|lia]|lia].
  - destruct (IH (k + pow h) a b x) as [[? ?] ?]; [done..|]. split; [split; [done|lia]|lia].
  - apply list_elem_of_singleton in Hx as ->. split; [split; simpl; [done|lia]|simpl; lia].
  - apply list_elem_of_singleton in Hx as ->. split; [split; simpl; [done|lia]|simpl; lia].
Qed.

(** The nodes the proof of [a..b] needs. *)
Definition needed (n a b : Z) : list (nat * Z) :=
  outside a b (peak_nodes 63 0 n) ++ rev ((all_sibs a b (peak_nodes 63 0 n)).*2).

Lemma needed_in_range n a b x : 0 ≤ n ≤ 2 ^ 62 → x ∈ needed n a b → in_range n x.
Proof using Type.
  clear H f.
  intros Hn Hx. pose proof (λ x, peak_nodes_fit n x Hn) as Hfit. revert Hx Hfit. unfold needed. generalize (peak_nodes 63 0 n).
  intros l Hx Hfit. apply elem_of_app in Hx as [Hx|Hx].
  - apply list_elem_of_filter in Hx as [_ Hx]. exact (Hfit _ Hx).
  - apply list_elem_of_In, in_rev, list_elem_of_In, list_elem_of_fmap in Hx as (y & -> & Hy).
    apply list_elem_of_bind in Hy as (z & Hy & Hz). apply list_elem_of_filter in Hz as [_ Hz].
    apply Hfit in Hz as [Hz ?]. apply sibs_in_range in Hy as [[? ?] ?]; [|exact Hz]. split; [assumption|lia].
Qed.

Lemma nodes_required_needed n a b : 0 ≤ n ≤ 2 ^ 62 → 0 ≤ a ≤ b → b < n →
  nodes_required_for_range_proof (mmr_size n) a (b + 1) = Ok ((λ x, position x) <$> needed n a b).
Proof.
  intros Hn Ha Hb. rewrite nodes_required_spec by done. unfold needed. generalize (peak_nodes 63 0 n). intros l.
  rewrite fmap_app, fmap_rev, <- list_fmap_compose. reflexivity.
Qed.

Lemma canonical_needed n a b : canonical n a b = mkProof (mmr_size n) ((λ x, tree H f x.1 x.2) <$> needed n a b).
Proof.
  unfold canonical, needed. generalize (peak_nodes 63 0 n). intros l.
  rewrite fmap_app, fmap_rev, <- list_fmap_compose. reflexivity.
Qed.

Lemma range_proof_cases st n a b : 0 ≤ n ≤ 2 ^ 62 → 0 ≤ a ≤ b → b < n → storage_size st = mmr_size n → faithful n (get_node st) →
  range_proof st a (b + 1) = Ok (canonical n a b) ∨
  ∃ x, x ∈ needed n a b ∧ get_node st (position x) = None ∧ range_proof st a (b + 1) = Err (ElementPruned (position x)).
Proof.
  intros Hn Ha Hb Hs Hg. unfold range_proof, historical_range_proof. rewrite Hs, nodes_required_needed by done. cbn [obind].
  destruct (fetch_nodes n (get_node st) (needed n a b) Hg) as [->|(x & Hx & Ex & ->)];
    [by intros x Hx; eapply needed_in_range| |].
  - left. cbn [obind]. by rewrite canonical_needed.
  - right. by exists x.
Qed.
End Verifier.
End MmrCompleteness.
