(* ===== verification/MmrStore.v ===== *)
(** * What an accepted proof lets be proved again (storage/src/mmr/verification.rs)

    The digests collected while a proof is verified are those of the nodes that
    were rebuilt, of their siblings and of the peaks ([seen_peaks]), so the
    store made of them answers for every range inside the one that was proved. *)

From S2P Require Import Prelude Codec CodecTypes CodecOrdered Ordered MmrPosition MmrIterator MmrTree MmrProof MmrSoundness.
From S2P Require Import MmrCompleteness.
Import CodecOrdered Mmr MmrIterator MmrProof MmrSoundness MmrCompleteness.

Module MmrStore.

Notation position x := (node_pos x.1 x.2).
Notation peak x := (node_pos x.1 x.2, Z.of_nat x.1).
Notation peaks_of l := ((λ x, peak x) <$> l).

(** ** The digests collected on the way *)

Section Collected.
Context {D : Type} `{!EqDecision D} (H : Hasher D) `{!CollisionFree H}.
Implicit Types f : Z → D.
Implicit Types w : @Walk D.
Implicit Types p : Proof_ D.

Notation walk fuel h k a b w :=
  (peak_digest_from_range H fuel (node_pos h k) (pow h) (mmr_size a) (mmr_size b) w).

(** What is taken from a proof, when the digest it yields is right. *)
Record taken f (sb : list (Z * (nat * Z))) (l : list (nat * Z)) w w' : Prop := {
  tk_siblings : siblings w = ((λ x, tree H f x.2.1 x.2.2) <$> sb) ++ siblings w';
  tk_collected : collected w' = collected w ++ (record H f <$> l);
}.

Lemma taken_none f w : taken f [] [] w w.
Proof. split; [done|]. by rewrite app_nil_r. Qed.
Lemma taken_app f sb sb' l l' w w1 w2 : taken f sb l w w1 → taken f sb' l' w1 w2 → taken f (sb ++ sb') (l ++ l') w w2.
Proof. intros [E1 C1] [E2 C2]. split; [by rewrite fmap_app, <- app_assoc, <- E2|by rewrite fmap_app, app_assoc, <- C1]. Qed.

Lemma visit_taken f (t : bool) m w o w' sb l (d : D) :
  (∀ d' w', t = true → m = Ok (d', w') → d' = d → taken f sb l w w') →
  visit t m w = Ok (o, w') → (∀ d', o = Some d' → d' = d) →
  taken f (if t then sb else []) (if t then l else []) w w' ∧ (o = None ↔ t = false).
Proof.
  intros Ht. destruct t; simpl.
  - intros ([d' w1] & E & [= <- <-])%obind_Ok Hd. split; [|done]. by apply (Ht d' w1); [..|apply Hd].
  - intros [= <- <-] _. split; [apply taken_none|done].
Qed.

Lemma fill_taken f (o : option D) w d w' pos h k : fill o w = Ok (d, w') →
  (∀ x, o = Some x → x = d) ∧
  (d = tree H f h k → taken f (match o with None => [(pos, (h, k))] | Some _ => [] end) [] w w').
Proof.
  destruct o as [x|]; simpl.
  - intros [= <- <-]. split; [by intros ? [= <-]|]. intros _. apply taken_none.
  - unfold next_sibling. destruct (siblings w) as [|y l] eqn:E; [done|]. intros [= <- <-]. split; [done|]. intros ->.
    split; simpl; [by rewrite E|by rewrite app_nil_r].
Qed.

Lemma walk_taken f h : ∀ fuel k a b w d w', (h < fuel)%nat → aligned h k → 0 ≤ a ≤ b →
  node_pos h k < 2 ^ 64 → walk fuel h k a b w = Ok (d, w') → d = tree H f h k →
  taken f (sibs h k a b) (seen h k a b) w w'.
Proof.
  induction h as [|h IH]; intros [|fuel] k a b w d w' Hf Hk Hab Hmax; try lia.
  { rewrite walk_0. destruct (elements w) as [|e rest] eqn:E; [done|]. intros [= <- <-] _. split; [done|]. simpl. by rewrite app_nil_r. }
  pose proof (pow_pos h). pose proof (node_pos_left h k). pose proof (node_pos_right h k Hk).
  rewrite walk_S by first [assumption | lia].
  intros ([ld w1] & E1 & ([rd w2] & E2 & ([ld' w3] & E3 & ([rd' w4] & E4 & [= <- <-])%obind_Ok)%obind_Ok)%obind_Ok)%obind_Ok Hd.
  simpl in Hd. apply node_inj in Hd as [-> ->].
  apply (fill_taken f _ _ _ _ (node_pos (S h) k) h k) in E3 as [F3 T3]. specialize (T3 eq_refl).
  apply (fill_taken f _ _ _ _ (node_pos (S h) k) h (k + pow h)) in E4 as [F4 T4]. specialize (T4 eq_refl).
  apply (visit_taken f _ _ _ _ _ (sibs h k a b) (seen h k a b) (tree H f h k)) in E1 as [T1 O1]; [|intros ? ? _ E ->|exact F3].
  2: { apply (IH fuel) in E; [done|lia|by apply aligned_S|lia..|done]. }
  apply (visit_taken f _ _ _ _ _ (sibs h (k + pow h) a b) (seen h (k + pow h) a b) (tree H f h (k + pow h))) in E2 as [T2 O2];
    [|intros ? ? _ E ->|exact F4].
  2: { apply (IH fuel) in E; [done|lia|by apply aligned_right|lia..|done]. }
  pose proof (taken_app _ _ _ _ _ _ _ _ T1 (taken_app _ _ _ _ _ _ _ _ T2 (taken_app _ _ _ _ _ _ _ _ T3 T4))) as [Es Ec].
  cbn [sibs seen]. split; [etrans; [exact Es|]; do 2 f_equal|].
  - do 2 f_equal. f_equal; [destruct ld, (a <? k + pow h)|destruct rd, (k + pow h <=? b)]; try reflexivity; naive_solver.
  - cbn [collect collected]. rewrite Ec, !fmap_app, <- !app_assoc. reflexivity.
Qed.

Lemma peak_loop_taken f h : ∀ k n a b front used acc w ds used' w', aligned h k → 0 ≤ n < pow h → k + n ≤ 2 ^ 62 → 0 ≤ a ≤ b →
  peak_loop H (peaks_of (peak_nodes h k n)) (mmr_size a) (mmr_size b) front used acc w = Ok (ds, used', w') →
  ds = acc ++ ((λ x, tree H f x.1 x.2) <$> peak_nodes h k n) →
  let out := outside a b (peak_nodes h k n) in
  taken f (all_sibs a b (peak_nodes h k n)) (seen_peaks a b (peak_nodes h k n)) w w' ∧
  ((λ x, tree H f x.1 x.2) <$> out) `prefix_of` front ∧ used' = (used + length out)%nat.
Proof.
  induction h as [|h IH]; intros k n a b front used acc w ds used' w' Hk Hn Hmax Hab.
  { intros [= <- <- <-] _. split; [apply taken_none|]. split; [apply prefix_nil|simpl; lia]. }
  cbn [peak_nodes]. rewrite pow_S in Hn. pose proof (pow_pos h).
  destruct (Z.leb_spec (pow h) n) as [Hge|]; [|apply IH; [by apply aligned_S|lia..]].
  destruct (node_fits h k (k + n) (aligned_S _ _ Hk) ltac:(lia) Hmax) as [Hpos Hh].
  cbn [fmap list_fmap]. rewrite peak_loop_cons by first [by apply aligned_S | lia].
  rewrite seen_peaks_cons, all_sibs_cons, outside_cons. cbn [fst snd].
  set (rest := peak_nodes h (k + pow h) (n - pow h)).
  assert (∀ front used d w1, peak_loop H (peaks_of rest) (mmr_size a) (mmr_size b)
    front used (acc ++ [d]) (collect w1 [(node_pos h k, d)]) = Ok (ds, used', w') →
    ds = acc ++ tree H f h k :: ((λ x, tree H f x.1 x.2) <$> rest) →
    d = tree H f h k ∧ taken f (all_sibs a b rest) ([(h, k)] ++ seen_peaks a b rest) w1 w' ∧
    ((λ x, tree H f x.1 x.2) <$> outside a b rest) `prefix_of` front ∧ used' = (used + length (outside a b rest))%nat) as Hrest.
  { intros front' used1 d w1 E Eds. pose proof E as E'.
    apply peak_loop_sound in E' as (ds' & us & Eds' & _); [|done|by apply aligned_right|lia..].
    rewrite Eds, <- app_assoc in Eds'. apply app_inv_head in Eds'. injection Eds' as Ed _. split; [done|].
    apply IH in E as (T & Hp & Hu); [|by apply aligned_right|lia..|rewrite Eds, Ed, <- app_assoc; done]. split; [|done].
    apply (taken_app f [] _ [(h, k)] _ w1 _ w') in T; [exact T|]. split; [reflexivity|]. unfold record. cbn. by rewrite Ed. }
  clearbody rest. unfold overlaps. cbn [fst snd]. destruct ((a <? k + pow h) && (k <=? b)) eqn:Et.
  - intros ([d w1] & E1 & E2)%obind_Ok Eds. apply Hrest in E2 as (-> & T & Hp & Hu); [|done]. split; [|done].
    eapply (walk_taken f) in E1; [|lia|by apply aligned_S|lia..|done].
    rewrite <- app_assoc. by eapply taken_app.
  - destruct front as [|d front]; [done|]. intros E2 Eds. apply Hrest in E2 as (-> & T & Hp & Hu); [|done]. split; [done|].
    split; [by apply prefix_cons|]. simpl. lia.
Qed.

(** What was accepted is [accepted]. *)
Lemma reconstruct_taken f p els a n ds col : els ≠ [] → 0 ≤ a → fits 64 (size p) → size p = mmr_size n → 0 ≤ n ≤ 2 ^ 62 →
  reconstruct_peak_digests H p els a = Ok (ds, col) → ds = (λ x, tree H f x.1 x.2) <$> peak_nodes 63 0 n →
  let b := a + Z.of_nat (length els) - 1 in
  col = record H f <$> seen_peaks a b (peak_nodes 63 0 n) ∧ accepted H f p n a b.
Proof.
  intros Hne Ha Hs En' Hn'. destruct (reconstruct_cases H p els a Hne Ha Hs) as [[e ->]|(n' & Hn & En & Hb & ->)]; [done|].
  rewrite En in En'. apply mmr_size_inj in En' as ->; [|lia..]. clear Hn'.
  intros ([[ds0 used] w] & E & Ew)%obind_Ok Eds. assert (length els ≠ 0%nat) by (by destruct els). pose proof leaves_fit.
  assert (ds0 = ds ∧ collected w = col ∧ (siblings w = [] ∨
    used ≠ 0%nat ∧ ∃ d, head (siblings w) = Some d ∧ digests p !! (used - 1)%nat = Some d)) as (-> & <- & Hfin).
  { clear -Ew. destruct w as [[|e0 es] [|d l] ?]; try done; [injection Ew as <- <-; auto|].
    destruct (Nat.eqb_spec used 0); [done|]. case_decide as Hd; [|done]. injection Ew as <- <-.
    split; [done|]. split; [done|]. right. split; [done|]. exists d. by split. }
  apply (peak_loop_taken f) in E as ([Es Ec] & Hpre & Hused); [|apply aligned_zero|lia|lia|lia|exact Eds].
  cbv zeta. split; [clear Eds; rewrite Ec; generalize (peak_nodes 63 0 n); reflexivity|]. split; [exact En|exact Hpre|].
  exists (siblings w). split; [exact Es|]. destruct Hfin as [Hfin|(Hu & d & Hd & Hl)]; [by left|right]. exists d. split; [exact Hd|].
  clear Es Ec Eds. revert Hpre Hused. generalize (outside a (a + Z.of_nat (length els) - 1) (peak_nodes 63 0 n)). intros out [t Et] ->.
  rewrite Et, Nat.add_0_l in Hl. simpl in Hu. rewrite lookup_app_l in Hl by (rewrite length_fmap; lia).
  by rewrite last_lookup, length_fmap, <- Nat.sub_1_r.
Qed.

(** ** The store of the digests collected *)

Lemma seen_in_range h : ∀ k a b x n, aligned h k → k + pow h ≤ n → x ∈ seen h k a b → in_range n x.
Proof.
  induction h as [|h IH]; intros k a b x n Hk Hn Hx; [by apply not_elem_of_nil in Hx|].
  pose proof (pow_pos h). rewrite pow_S in Hn. pose proof (aligned_S _ _ Hk). pose proof (aligned_right _ _ Hk).
  cbn [seen] in Hx. rewrite !elem_of_app in Hx. destruct Hx as [Hx|[Hx|Hx]].
  - destruct (a <? k + pow h); [|by apply not_elem_of_nil in Hx]. apply (IH k a b); [done|lia|done].
  - destruct (k + pow h <=? b); [|by apply not_elem_of_nil in Hx]. apply (IH (k + pow h) a b); [done|lia|done].
  - apply elem_of_cons in Hx as [->|[->|Hx%not_elem_of_nil]%elem_of_cons]; [split; [done|simpl; lia]..|done].
Qed.

(** Everything a part of the range needs was seen. *)
Lemma sibs_seen h : ∀ k a b c d x, a ≤ c → d ≤ b → x ∈ sibs h k c d → x.2 ∈ seen h k a b.
Proof.
  induction h as [|h IH]; intros k a b c d x Hac Hdb Hx; [by apply not_elem_of_nil in Hx|].
  cbn [sibs seen] in *. rewrite !elem_of_app in *. destruct Hx as [Hx|[Hx|[Hx|Hx]]].
  - destruct (Z.ltb_spec c (k + pow h)); [|by apply not_elem_of_nil in Hx]. left.
    rewrite (proj2 (Z.ltb_lt _ _)) by lia. by eapply IH.
  - destruct (Z.leb_spec (k + pow h) d); [|by apply not_elem_of_nil in Hx]. right. left.
    rewrite (proj2 (Z.leb_le _ _)) by lia. by eapply IH.
  - right. right. case_match; [by apply not_elem_of_nil in Hx|]. apply list_elem_of_singleton in Hx as ->. constructor.
  - right. right. case_match; [by apply not_elem_of_nil in Hx|]. apply list_elem_of_singleton in Hx as ->. constructor. constructor.
Qed.

Lemma seen_peaks_needed a b c d x n : a ≤ c → d ≤ b → x ∈ needed n c d → x ∈ seen_peaks a b (peak_nodes 63 0 n).
Proof.
  unfold needed. generalize (peak_nodes 63 0 n). intros l Hac Hdb Hx. apply list_elem_of_bind.
  apply elem_of_app in Hx as [Hx|Hx].
  - apply list_elem_of_filter in Hx as [_ Hx]. exists x. split; [|done]. apply elem_of_app. right. constructor.
  - apply list_elem_of_In, in_rev, list_elem_of_In, list_elem_of_fmap in Hx as (y & -> & Hy).
    apply list_elem_of_bind in Hy as (z & Hy & Hz). apply list_elem_of_filter in Hz as [Ho Hz]. exists z. split; [|done].
    apply elem_of_app. left. unfold overlaps in *. apply andb_true_iff in Ho as [Ho1%Z.ltb_lt Ho2%Z.leb_le].
    rewrite (proj2 (Z.ltb_lt _ _)), (proj2 (Z.leb_le _ _)) by lia. by eapply sibs_seen.
Qed.

Lemma seen_peaks_in_range a b n x : 0 ≤ n ≤ 2 ^ 62 → x ∈ seen_peaks a b (peak_nodes 63 0 n) → in_range n x.
Proof.
  intros Hn Hx. pose proof (λ x, peak_nodes_fit n x Hn) as Hfit. revert Hx Hfit. generalize (peak_nodes 63 0 n).
  intros l Hx Hfit. apply list_elem_of_bind in Hx as (z & Hx & Hz). apply Hfit in Hz as [Hz Hzn].
  apply elem_of_app in Hx as [Hx|Hx].
  - case_match; [|by apply not_elem_of_nil in Hx]. by eapply seen_in_range.
  - apply list_elem_of_singleton in Hx as ->. done.
Qed.

Lemma position_inj n x y : in_range n x → in_range n y → position x = position y → x = y.
Proof. destruct x as [h k], y as [h' k']. intros [Hx _] [Hy _] E. apply node_pos_inj in E as [E1 E2]; [|done..]. cbn in E1, E2. by subst. Qed.

Lemma store_lookup f n l size : (∀ x, x ∈ l → in_range n x) → ∀ pos d,
  get_node (new_from_digests size (record H f <$> l)) pos = Some d ↔
  ∃ x, x ∈ l ∧ pos = position x ∧ d = tree H f x.1 x.2.
Proof.
  intros Hl. assert (∀ pos d, get_node (new_from_digests size (record H f <$> l)) pos = Some d →
    ∃ x, x ∈ l ∧ pos = position x ∧ d = tree H f x.1 x.2) as Hfwd.
  { intros pos d E. cbn [get_node new_from_digests] in E. apply elem_of_list_to_map_2 in E.
    apply list_elem_of_In, in_rev, list_elem_of_In, list_elem_of_fmap in E as (x & [= -> ->] & Hx). by exists x. }
  intros pos d. split; [apply Hfwd|]. intros (x & Hx & -> & ->).
  destruct (get_node (new_from_digests size (record H f <$> l)) (position x)) as [d|] eqn:E.
  - apply Hfwd in E as (y & Hy & Ep & ->). by rewrite (position_inj n x y (Hl _ Hx) (Hl _ Hy) Ep).
  - cbn [get_node new_from_digests] in E. apply not_elem_of_list_to_map in E. destruct E.
    apply list_elem_of_fmap. exists (record H f x). split; [done|]. apply list_elem_of_In. rewrite <- in_rev. apply list_elem_of_In.
    by apply list_elem_of_fmap_2.
Qed.

Lemma store_faithful f n l size : (∀ x, x ∈ l → in_range n x) →
  faithful H f n (get_node (new_from_digests size (record H f <$> l))).
Proof.
  intros Hl h k d Hk Hn E. apply (store_lookup f n l size Hl) in E as (x & Hx & Ep & ->).
  apply (position_inj n (h, k) x) in Ep as <-; [done|done|by apply Hl].
Qed.

Lemma store_proves f n a b c d : 0 ≤ n ≤ 2 ^ 62 → a ≤ c → 0 ≤ c ≤ d → d ≤ b → d < n →
  range_proof (new_from_digests (mmr_size n) (record H f <$> seen_peaks a b (peak_nodes 63 0 n))) c (d + 1) = Ok (canonical H f n c d).
Proof.
  intros Hn Hac Hcd Hdb Hd. pose proof (λ x, seen_peaks_in_range a b n x Hn) as Hl.
  destruct (range_proof_cases H f (new_from_digests (mmr_size n) (record H f <$> seen_peaks a b (peak_nodes 63 0 n))) n c d)
    as [E|(x & Hx & E & _)]; [exact Hn|exact Hcd|exact Hd|reflexivity|by apply store_faithful|exact E|].
  assert (get_node (new_from_digests (mmr_size n) (record H f <$> seen_peaks a b (peak_nodes 63 0 n))) (position x) =
    Some (tree H f x.1 x.2)) as E'; [|by rewrite E in E'].
  apply (store_lookup f n _ _ Hl). exists x. split; [by eapply seen_peaks_needed|done].
Qed.
End Collected.
End MmrStore.
