(* ===== verification/MmrMulti.v ===== *)
(** * Proofs of several elements, and pinned nodes (storage/src/mmr/proof.rs)

    What the prover lists for any range of locations, errors included; how a
    store is read for it; and that the peaks of the leaves before a range are
    among the nodes its proof needs. *)

From S2P Require Import Prelude Codec CodecTypes CodecOrdered Ordered MmrPosition MmrIterator MmrTree MmrProof MmrSoundness.
From S2P Require Import MmrCompleteness MmrStore.
Import CodecOrdered Mmr MmrIterator MmrProof MmrSoundness MmrCompleteness MmrStore.

Module MmrMulti.

(** ** What the prover lists, on every input *)

(** The reference: what is refused and what is listed for [start..stop] of [n]. *)
Definition required (n start stop : Z) : outcome MmrError (list Z) :=
  if stop <=? start then Err Empty
  else if MAX_LOCATION <? start then Err (LocationOverflow start)
  else if MAX_LOCATION <? stop - 1 then Err (LocationOverflow (stop - 1))
  else if n <? stop then Err (RangeOutOfBounds stop)
  else Ok ((λ x, position x) <$> needed n start (stop - 1)).

Lemma mmr_size_valid n : 0 ≤ n ≤ 2 ^ 62 → Position.is_mmr_size (mmr_size n) = Some true ∧ fits 64 (mmr_size n).
Proof.
  intros Hn. pose proof (mmr_size_nonneg n ltac:(lia)). pose proof (mmr_size_mono n (2 ^ 62) ltac:(lia) ltac:(lia)) as [Hm _].
  rewrite mmr_size_62 in Hm. assert (0 ≤ mmr_size n < 2 ^ 64) as Hsz by lia. split; [|exact Hsz].
  destruct (is_mmr_size_spec (mmr_size n) Hsz) as (v & -> & Hv). f_equal. apply Hv. by exists n.
Qed.

Lemma position_of_spec loc : 0 ≤ loc →
  position_of loc = if MAX_LOCATION <? loc then Err (LocationOverflow loc) else Ok (mmr_size loc).
Proof.
  intros Hl. unfold position_of. destruct (Z.ltb_spec MAX_LOCATION loc) as [Hlt|Hle].
  - unfold Position.try_from_location. by rewrite (proj2 (Z.ltb_lt _ _) Hlt).
  - by rewrite try_from_location_spec by lia.
Qed.

Lemma nodes_required_total n start stop : 0 ≤ n ≤ 2 ^ 62 → 0 ≤ start →
  nodes_required_for_range_proof (mmr_size n) start stop = required n start stop.
Proof.
  intros Hn Hs. assert (2 ^ 62 = MAX_LOCATION + 1) as E62 by reflexivity. unfold required.
  destruct (decide (start < stop ∧ stop - 1 ≤ MAX_LOCATION ∧ stop ≤ n)) as [(H1 & H2 & H3)|Hno].
  { destruct (Z.leb_spec stop start), (Z.ltb_spec MAX_LOCATION start), (Z.ltb_spec MAX_LOCATION (stop - 1)), (Z.ltb_spec n stop); try lia.
    pose proof (nodes_required_needed n start (stop - 1) Hn ltac:(lia) ltac:(lia)) as E.
    by replace (stop - 1 + 1) with stop in E by lia. }
  unfold nodes_required_for_range_proof. destruct (mmr_size_valid n Hn) as [-> _]. cbn [expect obind negb].
  destruct (Z.leb_spec stop start); [done|]. rewrite position_of_spec by done.
  destruct (Z.ltb_spec MAX_LOCATION start); [done|]. cbn [obind].
  unfold Location.checked_sub, checked_sub. destruct (Z.leb_spec 1 stop); [|lia]. cbn [expect obind].
  rewrite position_of_spec by lia. destruct (Z.ltb_spec MAX_LOCATION (stop - 1)); [done|]. cbn [obind].
  destruct (Z.ltb_spec n stop); [|lia]. pose proof (mmr_size_mono n (stop - 1) ltac:(lia) ltac:(lia)) as [Hm _].
  destruct (Z.leb_spec (mmr_size n) (mmr_size (stop - 1))); [done|lia].
Qed.

Lemma nodes_required_invalid size start stop : fits 64 size → (¬ ∃ n, 0 ≤ n ≤ 2 ^ 62 ∧ size = mmr_size n) →
  nodes_required_for_range_proof size start stop = Err (InvalidSize size).
Proof.
  intros Hs Hno. unfold nodes_required_for_range_proof. destruct (is_mmr_size_spec size Hs) as (v & -> & Hv).
  destruct v; [|done]. destruct Hno. by apply Hv.
Qed.

(** ** Reading a store *)

Section Multi.
Context {D : Type} `{!EqDecision D} (H : Hasher D).
Implicit Types f : Z → D.
Implicit Types p : Proof_ D.
Implicit Types st : Storage D.

Lemma fetch_cases (get : Z → option D) l :
  (∃ ds, fetch get l = Ok ds ∧ Forall2 (λ pos d, get pos = Some d) l ds) ∨
  ∃ pos, pos ∈ l ∧ get pos = None ∧ fetch get l = Err (ElementPruned pos).
Proof.
  induction l as [|pos l IH]; [left; by exists []|]. cbn [fetch]. destruct (get pos) as [d|] eqn:E.
  - destruct IH as [(ds & -> & Hds)|(pos' & Hp & Ep & ->)].
    + left. exists (d :: ds). split; [done|]. by constructor.
    + right. exists pos'. split; [by constructor|done].
  - right. exists pos. split; [constructor|done].
Qed.

Lemma zip_lookup (get : Z → option D) l ds pos : Forall2 (λ pos d, get pos = Some d) l ds → pos ∈ l →
  (list_to_map (zip l ds) : gmap Z D) !! pos = get pos.
Proof.
  induction 1 as [|x d l ds E Hl IH]; intros Hp; [by apply not_elem_of_nil in Hp|]. simpl. destruct (decide (x = pos)) as [->|Hne].
  - by rewrite lookup_insert_eq.
  - rewrite lookup_insert_ne by done. apply IH. apply elem_of_cons in Hp as [?|?]; [by subst|done].
Qed.

Lemma zip_is_Some l (ds : list D) pos : length l = length ds → pos ∈ l → is_Some ((list_to_map (zip l ds) : gmap Z D) !! pos).
Proof.
  intros Hl Hp. apply not_eq_None_Some. intros Hx%not_elem_of_list_to_map. apply Hx. by rewrite fst_zip by lia.
Qed.

Lemma map_option_ok {A B} (g : A → option B) (d : A → B) l : (∀ x, x ∈ l → g x = Some (d x)) → map_option g l = Some (d <$> l).
Proof.
  induction l as [|x l IH]; intros E; [done|]. simpl. rewrite (E x) by constructor. simpl.
  rewrite IH by (intros y Hy; apply E; by constructor). done.
Qed.

Lemma map_option_fmap {A B C} (g : B → option C) (h : A → B) l : map_option g (h <$> l) = map_option (λ x, g (h x)) l.
Proof. induction l as [|x l IH]; [done|]. cbn. destruct (g (h x)); [|done]. cbn in *. by rewrite IH. Qed.

Lemma map_option_is_Some {A B} (g : A → option B) l : (∀ x, x ∈ l → is_Some (g x)) → ∃ ds, map_option g l = Some ds.
Proof.
  induction l as [|x l IH]; intros E; [by eexists|]. simpl. destruct (E x) as [y ->]; [constructor|]. simpl.
  destruct IH as [ds ->]; [intros z Hz; apply E; by constructor|]. by eexists.
Qed.

Lemma lookup_all_ok (m : gmap Z D) (d : nat * Z → D) l : (∀ x, x ∈ l → m !! position x = Some (d x)) →
  lookup_all m ((λ x, position x) <$> l) = Ok (d <$> l).
Proof.
  induction l as [|x l IH]; intros E; [done|]. cbn [fmap list_fmap lookup_all]. rewrite (E x) by constructor.
  change (list_fmap _ _ (λ x, position x) l) with ((λ x, position x) <$> l). rewrite IH by (intros y Hy; apply E; by constructor). done.
Qed.

(** ** Several locations *)

(** The nodes needed for each of the locations on its own. *)
Definition needed_all (n : Z) (locations : list Z) : list (nat * Z) := loc ← locations; needed n loc loc.

Lemma required_for_all_spec n locations : 0 ≤ n ≤ 2 ^ 62 → (∀ loc, loc ∈ locations → 0 ≤ loc < n) →
  required_for_all (mmr_size n) locations = Ok ((λ x, position x) <$> needed_all n locations).
Proof.
  intros Hn. assert (2 ^ 62 = MAX_LOCATION + 1) as E62 by reflexivity.
  induction locations as [|loc l IH]; intros Hl; [done|]. cbn [required_for_all].
  pose proof (Hl loc ltac:(constructor)). unfold Location.is_valid.
  destruct (Z.leb_spec loc MAX_LOCATION); [|lia]. cbn [negb]. rewrite nodes_required_needed by lia. cbn [obind].
  rewrite IH by (intros x Hx; apply Hl; by constructor). cbn [obind]. unfold needed_all. cbn [mbind list_bind]. by rewrite fmap_app.
Qed.

(** On any locations: either all are in the range or an error is returned. *)
Lemma required_for_all_cases n locations : 0 ≤ n ≤ 2 ^ 62 → (∀ loc, loc ∈ locations → 0 ≤ loc) →
  (∃ e, required_for_all (mmr_size n) locations = Err e) ∨ ∀ loc, loc ∈ locations → 0 ≤ loc < n.
Proof.
  intros Hn. assert (2 ^ 62 = MAX_LOCATION + 1) as E62 by reflexivity.
  induction locations as [|loc l IH]; intros Hl; [right; by intros ? ?%not_elem_of_nil|]. cbn [required_for_all].
  pose proof (Hl loc ltac:(constructor)). unfold Location.is_valid.
  destruct (Z.leb_spec loc MAX_LOCATION); [|by left; eexists]. cbn [negb]. rewrite nodes_required_total by done. unfold required.
  destruct (Z.leb_spec (loc + 1) loc); [lia|]. destruct (Z.ltb_spec MAX_LOCATION loc); [lia|].
  destruct (Z.ltb_spec MAX_LOCATION (loc + 1 - 1)); [lia|]. destruct (Z.ltb_spec n (loc + 1)); [by left; eexists|]. cbn [obind].
  destruct IH as [[e ->]|Hr]; [by intros x Hx; apply Hl; constructor|by left; eexists|right].
  intros x [->|Hx]%elem_of_cons; [lia|by apply Hr].
Qed.

Lemma needed_all_in_range n locations x : 0 ≤ n ≤ 2 ^ 62 → x ∈ needed_all n locations → in_range n x.
Proof. intros Hn (loc & Hx & _)%list_elem_of_bind. by eapply needed_in_range. Qed.

(** Each element against the nodes it needs. *)
Lemma verify_each_sound size (m : gmap Z D) els root : verify_each H size m els root = Some true →
  ∀ e loc, (e, loc) ∈ els → ∃ ds, verify_element_inclusion H (mkProof size ds) e loc root = Some true.
Proof.
  induction els as [|[e loc] els IH]; intros E e' loc' Hx; [by apply not_elem_of_nil in Hx|]. cbn [verify_each] in E.
  destruct (nodes_required_for_range_proof size loc (loc + 1)) as [req| |]; [|done..].
  destruct (map_option _ req) as [ds|]; [|done]. cbn [mbind option_bind] in E.
  destruct (verify_element_inclusion H (mkProof size ds) e loc root) as [[|]|] eqn:Ev; [|done..]. simpl in E.
  apply elem_of_cons in Hx as [[= -> ->]|Hx]; [by exists ds|by apply IH].
Qed.

Lemma verify_each_total n (m : gmap Z D) els root : 0 ≤ n ≤ 2 ^ 62 →
  (∀ e loc, (e, loc) ∈ els → 0 ≤ loc < n ∧ ∀ x, x ∈ needed n loc loc → is_Some (m !! position x)) →
  ∃ b, verify_each H (mmr_size n) m els root = Some b.
Proof.
  intros Hn. induction els as [|[e loc] els IH]; intros Hm; [by exists true|]. cbn [verify_each].
  destruct (Hm e loc ltac:(constructor)) as [Hl Hx]. rewrite nodes_required_needed by lia. rewrite map_option_fmap.
  destruct (map_option_is_Some _ _ Hx) as [ds ->]. cbn [mbind option_bind].
  destruct (verify_no_panic H (mkProof (mmr_size n) ds) [e] loc root ltac:(lia)) as [b E].
  { simpl. by apply mmr_size_valid. }
  unfold verify_element_inclusion. rewrite E. simpl. destruct b; [|by exists false].
  apply IH. intros e' loc' Hin. apply (Hm e'). by constructor.
Qed.

Lemma verify_each_complete f n (m : gmap Z D) els : 0 ≤ n ≤ 2 ^ 62 →
  (∀ e loc, (e, loc) ∈ els → 0 ≤ loc < n ∧ leaf_digest H (mmr_size loc) e = f loc ∧
    ∀ x, x ∈ needed n loc loc → m !! position x = Some (tree H f x.1 x.2)) →
  verify_each H (mmr_size n) m els (range_root H f n) = Some true.
Proof.
  intros Hn. induction els as [|[e loc] els IH]; intros Hm; [done|]. cbn [verify_each].
  destruct (Hm e loc ltac:(constructor)) as (Hl & He & Hx). rewrite nodes_required_needed by lia. rewrite map_option_fmap.
  rewrite (map_option_ok _ _ _ Hx). cbn [mbind option_bind]. rewrite <- canonical_needed. unfold verify_element_inclusion.
  pose proof (canonical_verifies H f [e] loc n ltac:(done) ltac:(lia) ltac:(lia)) as Ev. cbv zeta in Ev.
  replace (loc + Z.of_nat (length [e]) - 1) with loc in Ev by (cbn [length]; lia). rewrite Ev.
  - cbn [mbind option_bind]. apply IH. intros e' loc' Hin. apply (Hm e'). by constructor.
  - lia.
  - intros [|i] e' Hi; [|by destruct i]. injection Hi as <-. simpl. by rewrite Z.add_0_r.
Qed.

(** ** The nodes to pin before a range *)

Lemma pins_sibs h : ∀ k a b x, aligned h k → k ≤ a < k + pow h → a ≤ b → x ∈ peak_nodes h k (a - k) → ∃ y, y ∈ sibs h k a b ∧ y.2 = x.
Proof.
  induction h as [|h IH]; intros k a b x Hk Ha Hab Hx; [by apply not_elem_of_nil in Hx|].
  cbn [peak_nodes sibs] in *. rewrite pow_S in Ha. destruct (Z.leb_spec (pow h) (a - k)) as [Hge|Hlt].
  - rewrite (proj2 (Z.leb_le (k + pow h) b)) by lia. apply elem_of_cons in Hx as [->|Hx].
    + exists (node_pos (S h) k, (h, k)). split; [|done]. destruct (Z.ltb_spec a (k + pow h)); [lia|]. set_solver.
    + replace (a - k - pow h) with (a - (k + pow h)) in Hx by lia.
      destruct (IH (k + pow h) a b x (aligned_right _ _ Hk) ltac:(lia) Hab Hx) as (y & Hy & Ey). exists y. split; [set_solver|done].
  - destruct (IH k a b x (aligned_S _ _ Hk) ltac:(lia) Hab Hx) as (y & Hy & Ey). exists y.
    rewrite (proj2 (Z.ltb_lt a (k + pow h))) by lia. split; [set_solver|done].
Qed.

Lemma pins_peaks h : ∀ k n a b x, aligned h k → 0 ≤ n < pow h → k ≤ a ≤ b → b < k + n → x ∈ peak_nodes h k (a - k) →
  x ∈ outside a b (peak_nodes h k n) ∨ ∃ y, y ∈ all_sibs a b (peak_nodes h k n) ∧ y.2 = x.
Proof.
  induction h as [|h IH]; intros k n a b x Hk Hn Ha Hb Hx; [by apply not_elem_of_nil in Hx|].
  cbn [peak_nodes] in *. rewrite pow_S in Hn. pose proof (pow_pos h).
  destruct (Z.leb_spec (pow h) (a - k)) as [Hge|Hlt], (Z.leb_spec (pow h) n) as [Hgen|Hltn]; [|lia| |].
  - rewrite outside_cons, all_sibs_cons, overlaps_false by lia. apply elem_of_cons in Hx as [->|Hx]; [left; constructor|].
    replace (a - k - pow h) with (a - (k + pow h)) in Hx by lia.
    destruct (IH (k + pow h) (n - pow h) a b x (aligned_right _ _ Hk)) as [Ho|(y & Hy & Ey)]; [lia..|done| |].
    + left. by constructor.
    + right. by exists y.
  - rewrite all_sibs_cons, overlaps_true by lia. right.
    destruct (pins_sibs h k a b x (aligned_S _ _ Hk) ltac:(lia) ltac:(lia) Hx) as (y & Hy & Ey). exists y. split; [|done].
    apply elem_of_app. by left.
  - apply IH; [by apply aligned_S|lia..|done].
Qed.

Lemma pins_needed n a b x : 0 ≤ n ≤ 2 ^ 62 → 0 ≤ a ≤ b → b < n → x ∈ peak_nodes 63 0 a → x ∈ needed n a b.
Proof.
  intros Hn Ha Hb Hx. pose proof leaves_fit. replace a with (a - 0) in Hx by lia.
  apply (pins_peaks 63 0 n a b x (aligned_zero _) ltac:(lia) ltac:(lia) ltac:(lia)) in Hx.
  unfold needed. apply elem_of_app. destruct Hx as [Hx|(y & Hy & <-)]; [by left|right].
  apply list_elem_of_In. rewrite <- in_rev. apply list_elem_of_In. by apply list_elem_of_fmap_2.
Qed.

Lemma peak_nodes_NoDup h : ∀ k n, aligned h k → 0 ≤ n < pow h → NoDup (peak_nodes h k n).
Proof.
  induction h as [|h IH]; intros k n Hk Hn; [constructor|]. cbn [peak_nodes]. rewrite pow_S in Hn. pose proof (pow_pos h).
  pose proof (aligned_right _ _ Hk). destruct (Z.leb_spec (pow h) n); [|apply IH; [by apply aligned_S|lia]].
  constructor; [|apply IH; [done|lia]]. intros Hx. apply peak_nodes_spec in Hx as (_ & Hh & _); [simpl in Hh; lia|done|lia].
Qed.

Lemma pinned_spec a : 0 ≤ a < 2 ^ 62 → nodes_to_pin (mmr_size a) = Some ((λ x, position x) <$> peak_nodes 63 0 a).
Proof.
  intros Ha. pose proof (mmr_size_nonneg a ltac:(lia)). pose proof (mmr_size_strict a (2 ^ 62) ltac:(lia) ltac:(lia)) as Hm.
  rewrite mmr_size_62 in Hm.
  destruct (to_nearest_size_spec (mmr_size a)) as (n & Hn & E & Hb); [unfold MAX_POSITION; lia|].
  assert (n = a) as ->.
  { pose proof (mmr_size_mono (n + 1) a ltac:(lia) ltac:(lia)). pose proof (mmr_size_strict a n ltac:(lia)). lia. }
  rewrite (pin_of_peaks _ _ _ E (peaks_nodes a ltac:(lia))). f_equal. generalize (peak_nodes 63 0 a). intros l.
  by rewrite <- list_fmap_compose.
Qed.
End Multi.
End MmrMulti.
