(* ===== verification/MmrProperties.v ===== *)
(** * What inclusion proofs prove (storage/src/mmr/proof.rs, storage/src/mmr/verification.rs)

    The theorems about the prover and the verifier together, for ranges of
    elements [E] whose root is [range_root H (leaves_of H E)]. *)

From S2P Require Import Prelude Codec Varint CodecTypes CodecOrdered Ordered MmrPosition MmrIterator MmrTree MmrProof MmrSoundness.
From S2P Require Import MmrCompleteness MmrStore MmrMulti.
Import CodecTypes CodecOrdered Mmr MmrIterator MmrProof MmrSoundness MmrCompleteness MmrStore MmrMulti.

Module MmrProperties.
Section Lemmas.
Context {D : Type} `{!EqDecision D} (H : Hasher D).
Implicit Types p : Proof_ D.
Implicit Types E els : list bytes.

Lemma prefix_matches E els a : 0 ≤ a → els `prefix_of` drop (Z.to_nat a) E → matches H (leaves_of H E) a els.
Proof.
  intros Ha [tl Et] i e Hi. unfold leaves_of. do 2 f_equal.
  assert (E !! (Z.to_nat a + i)%nat = Some e) as He by (rewrite <- lookup_drop, Et; by apply lookup_app_l_Some).
  replace (Z.to_nat (a + Z.of_nat i)) with (Z.to_nat a + i)%nat by lia. symmetry. by apply list_lookup_total_correct.
Qed.

Lemma prefix_bound E els a : els ≠ [] → 0 ≤ a → els `prefix_of` drop (Z.to_nat a) E → a + Z.of_nat (length els) ≤ Z.of_nat (length E).
Proof.
  intros Hne Ha Hp%prefix_length. rewrite length_drop in Hp. assert (length els ≠ 0%nat) by (by destruct els). lia.
Qed.

(** With as many digests as are needed nothing is between the two parts. *)
Lemma accepted_canonical f p n a b : accepted H f p n a b → length (digests p) = length (needed n a b) → p = canonical H f n a b.
Proof.
  destruct p as [sz ds]. intros [Esz [front Ef] (tail & Et & _)]. unfold canonical, needed. revert Ef Et. cbn [size digests] in *. subst sz.
  generalize (outside a b (peak_nodes 63 0 n)), (all_sibs a b (peak_nodes 63 0 n)). intros out sb -> Et Hl. do 2 f_equal.
  rewrite rev_app_distr in Et. rewrite !length_app, length_rev, !length_fmap in Hl.
  apply app_inj_1 in Et as [Et _]; [|rewrite length_rev, length_fmap; lia].
  rewrite <- (rev_involutive front), Et. reflexivity.
Qed.

Lemma pinned_le n a b : 0 ≤ n ≤ 2 ^ 62 → 0 ≤ a ≤ b → b < n → (length (peak_nodes 63 0 a) ≤ length (needed n a b))%nat.
Proof.
  intros Hn Ha Hb. pose proof leaves_fit. apply submseteq_length, NoDup_submseteq.
  - apply peak_nodes_NoDup; [apply aligned_zero|lia].
  - intros x Hx. by apply pins_needed.
Qed.

Lemma fmap_inj_on {A B} (g : A → B) (l1 : list A) : ∀ l2 : list A, (∀ x y, x ∈ l1 → y ∈ l2 → g x = g y → x = y) → g <$> l1 = g <$> l2 → l1 = l2.
Proof.
  induction l1 as [|x l1 IH]; intros [|y l2] Hg E; try done. injection E as Exy E. f_equal.
  - apply Hg; [constructor..|done].
  - apply IH; [|done]. intros x' y' Hx Hy. apply Hg; by constructor.
Qed.

(** The digests of the pinned nodes, out of the proof of the range after them. *)
Lemma extract_canonical f n a b : 0 ≤ n ≤ 2 ^ 62 → 0 ≤ a ≤ b → b < n →
  extract_pinned_nodes (canonical H f n a b) a (b + 1) = Ok ((λ x, tree H f x.1 x.2) <$> peak_nodes 63 0 a).
Proof.
  intros Hn Ha Hb. assert (2 ^ 62 = MAX_LOCATION + 1) as E62 by reflexivity. pose proof (pinned_le n a b Hn Ha Hb) as Hle.
  pose proof (λ x, pins_needed n a b x Hn Ha Hb) as Hpin. pose proof (λ x, needed_in_range n a b x Hn) as Hin.
  pose proof (pinned_spec a ltac:(lia)) as Epin. pose proof (nodes_required_needed n a b Hn Ha Hb) as Ereq.
  rewrite canonical_needed. unfold extract_pinned_nodes. rewrite position_of_spec by lia.
  destruct (Z.ltb_spec MAX_LOCATION a); [lia|]. cbn [obind size digests]. rewrite Epin, Ereq. cbn [expect obind].
  clear Epin Ereq. revert Hle Hpin Hin. generalize (peak_nodes 63 0 a), (needed n a b). intros pins l Hle Hpin Hin.
  rewrite !length_fmap, Nat.eqb_refl. cbn [negb]. destruct (Nat.ltb_spec (length l) (length pins)); [lia|].
  case_decide as Ed.
  - rewrite <- fmap_drop in Ed. rewrite <- fmap_drop. do 2 f_equal.
    assert (∀ x, x ∈ drop (length l - length pins) l → x ∈ l) as Hdrop.
    { intros x Hx. rewrite <- (take_drop (length l - length pins) l). apply elem_of_app. by right. }
    revert Ed Hdrop. generalize (drop (length l - length pins) l). intros tl Ed Hdrop.
    apply fmap_inj_on in Ed as ->; [done|]. intros x y Hx Hy.
    apply (position_inj n); [by apply Hin, Hpin|by apply Hin, Hdrop].
  - apply (lookup_all_ok _ (λ x, tree H f x.1 x.2)). intros x Hx.
    pose proof (store_lookup H f n l 0 Hin) as Hst. rewrite (zip_lookup (get_node (new_from_digests 0 (record H f <$> l)))).
    + apply Hst. exists x. split; [by apply Hpin|done].
    + apply Forall2_fmap, Forall_Forall2_diag, Forall_forall. intros y Hy. apply Hst. by exists y.
    + apply (list_elem_of_fmap_2 (λ x, position x)). by apply Hpin.
Qed.

Lemma verify_reconstruct p els a r : els ≠ [] → 0 ≤ a → fits 64 (size p) →
  verify_range_inclusion H p els a r =
    match reconstruct_peak_digests H p els a with
    | Ok (ds, _) => Some (bool_decide (r = root_digest H (size p) ds))
    | _ => Some false
    end.
Proof.
  intros Hne Ha Hs. pose proof (reconstruct_no_panic H p els a Ha Hs) as Hnp. unfold verify_range_inclusion, reconstruct_root.
  destruct (is_mmr_size_spec (size p) Hs) as (v & Ev & Hv). rewrite Ev. destruct v; cbn [mbind option_bind expect obind negb].
  - by destruct (reconstruct_peak_digests H p els a) as [[ds col]| |].
  - destruct (reconstruct_cases H p els a Hne Ha Hs) as [[e ->]|(n & Hn & En & _)]; [done|].
    assert (false = true) by (apply Hv; by exists n). done.
Qed.
End Lemmas.

Section Theorems.
Context {D : Type} `{!EqDecision D} (H : Hasher D) `{!CollisionFree H}.
Implicit Types p : Proof_ D.
Implicit Types st : Storage D.
Implicit Types E els : list bytes.
Notation count E := (Z.of_nat (length E)).
Notation root E := (range_root H (leaves_of H E) (count E)).

(** C27: which proofs are accepted, exactly: for at least one element, a proof is
    accepted against the root of [E] when and only when the elements are those of
    [E] from the claimed location on and the proof has the size of [E], begins
    with the digests of the mountains outside the range, ends with those of the
    siblings on the paths, and has in between either nothing or digests of which
    the last repeats that of the last mountain outside. *)
Theorem verify_range_inclusion_iff p els start E : count E ≤ 2 ^ 62 → fits 64 (size p) → fits 64 start → els ≠ [] →
  verify_range_inclusion H p els start (root E) = Some true ↔
  els `prefix_of` drop (Z.to_nat start) E ∧ accepted H (leaves_of H E) p (count E) start (start + count els - 1).
Proof.
  intros HE Hs [Ha _] Hne. split.
  - intros (ds & col & Er & Hr)%verify_true. unfold range_root in Hr. apply root_inj in Hr as [Esz Eds].
    destruct (reconstruct_sound H p els start ds col Hne Ha Hs Er) as (n & En & Hn & Hle & Hm).
    rewrite <- Esz in En. apply mmr_size_inj in En as <-; [|lia..]. split.
    + apply (matches_leaves H); [lia|done|]. by apply Hm.
    + by apply (reconstruct_taken H (leaves_of H E) p els start (count E) ds col).
  - intros [Hp Hac]. pose proof (prefix_bound E els start Hne Ha Hp).
    apply accepted_verifies; [done|lia|lia|lia|done|]. by apply prefix_matches.
Qed.

(** C28: the prover either returns a proof, and then the verifier accepts it for
    the elements of the range; or the store misses a node the proof needs, and the
    error names it; or the range is refused with the error that [required] states
    for its bounds.  It never panics. *)
Theorem range_proof_correct st start stop E : count E ≤ 2 ^ 62 → storage_size st = mmr_size (count E) →
  faithful H (leaves_of H E) (count E) (get_node st) → 0 ≤ start →
  match range_proof st start stop with
  | Ok p => start < stop ≤ count E ∧
      verify_range_inclusion H p (take (Z.to_nat (stop - start)) (drop (Z.to_nat start) E)) start (root E) = Some true
  | Err (ElementPruned pos) =>
      start < stop ≤ count E ∧ get_node st pos = None ∧
      ∃ x, x ∈ needed (count E) start (stop - 1) ∧ pos = position x
  | Err e => required (count E) start stop = Err e
  | Panic => False
  end.
Proof.
  intros HE Hs Hg Ha. destruct (decide (start < stop ≤ count E)) as [Hr|Hno].
  - destruct (range_proof_cases H (leaves_of H E) st (count E) start (stop - 1)) as [Ep|(x & Hx & Ex & Ep)]; [lia..|exact Hs|exact Hg| |];
      replace (stop - 1 + 1) with stop in Ep by lia; rewrite Ep; [split; [exact Hr|]|by split; [|split; [|exists x]]].
    set (els := take _ _). assert (length els = Z.to_nat (stop - start)) as Hl by (unfold els; rewrite length_take, length_drop; lia).
    replace (stop - 1) with (start + count els - 1) by lia. apply canonical_verifies; [|lia|lia|lia|].
    + intros E0. rewrite E0 in Hl. simpl in Hl. lia.
    + apply prefix_matches; [done|]. apply prefix_take.
  - unfold range_proof, historical_range_proof. rewrite Hs, nodes_required_total by lia. unfold required.
    assert (2 ^ 62 = MAX_LOCATION + 1) as E62 by reflexivity.
    destruct (Z.leb_spec stop start); [done|]. destruct (Z.ltb_spec MAX_LOCATION start); [done|].
    destruct (Z.ltb_spec MAX_LOCATION (stop - 1)); [done|]. destruct (Z.ltb_spec (count E) stop); [done|lia].
Qed.

(** the store made of an accepted proof.  It is built exactly when the proof
    is accepted; then it has the size of the range and holds only digests of its
    nodes, and it yields an accepted proof of every range inside the one that was
    proved. *)
Theorem proof_store p els start E : count E ≤ 2 ^ 62 → fits 64 (size p) → fits 64 start → els ≠ [] →
  match store_new H p els start (root E) with
  | Ok st =>
      verify_range_inclusion H p els start (root E) = Some true ∧ storage_size st = mmr_size (count E) ∧
      faithful H (leaves_of H E) (count E) (get_node st) ∧
      ∀ c d, start ≤ c < d → d ≤ start + count els → ∃ q, range_proof st c d = Ok q ∧
        verify_range_inclusion H q (take (Z.to_nat (d - c)) (drop (Z.to_nat c) E)) c (root E) = Some true
  | Err _ => verify_range_inclusion H p els start (root E) = Some false
  | Panic => False
  end.
Proof.
  intros HE Hs [Ha _] Hne. pose proof (verify_reconstruct H p els start (root E) Hne Ha Hs) as Hv.
  unfold store_new, verify_range_inclusion_and_extract_digests. rewrite Hv.
  pose proof (reconstruct_no_panic H p els start Ha Hs) as Hnp.
  destruct (reconstruct_peak_digests H p els start) as [[ds col]|e|] eqn:Er; [|done..].
  destruct (decide (root_digest H (size p) ds = root E)) as [Ed|Ed]; cbn [obind]; [|f_equal; apply bool_decide_eq_false_2; intros E0; exact (Ed (eq_sym E0))].
  rewrite bool_decide_eq_true_2 by exact (eq_sym Ed). split; [done|]. unfold range_root in Ed. apply root_inj in Ed as [Esz Eds].
  destruct (reconstruct_sound H p els start ds col Hne Ha Hs Er) as (n & En & Hn & Hle & Hm).
  rewrite Esz in En. apply mmr_size_inj in En as <-; [|lia..].
  destruct (reconstruct_taken H (leaves_of H E) p els start (count E) ds col Hne Ha Hs Esz Hn Er Eds) as [-> _].
  rewrite Esz. split; [done|]. split; [apply store_faithful; intros x Hx; exact (seen_peaks_in_range _ _ _ _ Hn Hx)|].
  intros c d Hc Hd. exists (canonical H (leaves_of H E) (count E) c (d - 1)).
  pose proof (store_proves H (leaves_of H E) (count E) start (start + count els - 1) c (d - 1)) as Esp.
  replace (d - 1 + 1) with d in Esp by lia. rewrite Esp by lia. split; [done|]. clear Esp.
  set (es := take _ _). assert (length es = Z.to_nat (d - c)) as Hl by (unfold es; rewrite length_take, length_drop; lia).
  replace (d - 1) with (c + count es - 1) by lia. apply canonical_verifies; [|lia|lia|lia|].
  - intros E0. rewrite E0 in Hl. simpl in Hl. lia.
  - apply prefix_matches; [lia|]. apply prefix_take.
Qed.

(** C30: pinned nodes are taken from any accepted proof, wherever it came from:
    either it has as many digests as the range needs, and what is extracted are
    the digests of the peaks of the leaves before the range, or it is refused. *)
Theorem extract_pinned_nodes_sound p els start E : count E ≤ 2 ^ 62 → fits 64 (size p) → fits 64 start → els ≠ [] →
  verify_range_inclusion H p els start (root E) = Some true →
  extract_pinned_nodes p start (start + count els) =
    if decide (length (digests p) = length (needed (count E) start (start + count els - 1)))
    then Ok ((λ x, tree H (leaves_of H E) x.1 x.2) <$> peak_nodes 63 0 start)
    else Err InvalidProofLength.
Proof.
  intros HE Hs [Ha Ha64] Hne [Hp Hac]%verify_range_inclusion_iff; [|done..].
  pose proof (prefix_bound E els start Hne Ha Hp). assert (length els ≠ 0%nat) by (by destruct els).
  replace (start + count els) with (start + count els - 1 + 1) at 1 by lia. case_decide as Hl.
  - rewrite (accepted_canonical H _ _ _ _ _ Hac Hl). apply extract_canonical; lia.
  - assert (2 ^ 62 = MAX_LOCATION + 1) as E62 by reflexivity. destruct Hac as [Esz _ _]. unfold extract_pinned_nodes.
    rewrite position_of_spec by lia. destruct (Z.ltb_spec MAX_LOCATION start); [lia|]. cbn [obind].
    rewrite pinned_spec by lia. cbn [expect obind]. rewrite Esz, nodes_required_needed by lia. cbn [obind].
    rewrite length_fmap, (proj2 (Nat.eqb_neq _ _)) by lia. done.
Qed.

(** C29: a proof of several elements is sound: verification never panics, and what
    it accepts against the root of a range are elements of the range, each at its
    location. *)
Theorem multi_inclusion_sound p (els : list (bytes * Z)) E : count E ≤ 2 ^ 62 → fits 64 (size p) → (∀ e loc, (e, loc) ∈ els → fits 64 loc) →
  ∃ b, verify_multi_inclusion H p els (root E) = Some b ∧
    (b = true → size p = mmr_size (count E) ∧ ∀ e loc, (e, loc) ∈ els → E !! Z.to_nat loc = Some e).
Proof.
  intros HE Hs Hl. unfold verify_multi_inclusion. case_bool_decide as Hne.
  - subst els. eexists. split; [done|]. intros [Ez%Z.eqb_eq Er%bool_decide_eq_true]%andb_true_iff.
    unfold range_root in Er. apply root_inj in Er as [E0 _]. split; [by rewrite E0|]. by intros ? ? ?%not_elem_of_nil.
  - destruct (is_mmr_size_spec (size p) Hs) as (v & -> & Hv). cbn [mbind option_bind].
    destruct v; [cbn [negb]|by exists false]. destruct (proj1 Hv eq_refl) as (n & Hn & En). rewrite En.
    assert (∀ loc, loc ∈ els.*2 → 0 ≤ loc) as Hpos.
    { intros loc Hx. apply list_elem_of_fmap in Hx as ([e loc'] & -> & Hx). simpl. by apply Hl in Hx as [? _]. }
    destruct (required_for_all_cases n els.*2 Hn Hpos) as [[e ->]|Hr]; [by exists false|].
    rewrite required_for_all_spec by done. set (all := (λ x, position x) <$> needed_all n els.*2).
    destruct (Nat.eqb_spec (length (Ordered.set_from_iter_dedup all)) (length (digests p))) as [Hlen|]; [cbn [negb]|by exists false].
    destruct (verify_each_total H n (list_to_map (zip (Ordered.set_from_iter_dedup all) (digests p))) els (root E) Hn) as [b Hb].
    + intros e loc Hx. assert (loc ∈ els.*2) as Hloc by (apply list_elem_of_fmap; by exists (e, loc)). split; [by apply Hr|].
      intros x Hx'. apply zip_is_Some; [done|].
      apply Ordered.set_from_iter_dedup_spec. unfold all. apply (list_elem_of_fmap_2 (λ x, position x)).
      apply list_elem_of_bind. by exists loc.
    + exists b. split; [exact Hb|]. intros ->. pose proof (verify_each_sound H _ _ _ _ Hb) as Hall.
      assert (∀ e loc, (e, loc) ∈ els → mmr_size n = mmr_size (count E) ∧ E !! Z.to_nat loc = Some e) as Hone.
      { intros e loc Hx. destruct (Hall e loc Hx) as [ds Hv1]. destruct (Hl e loc Hx) as [Hl0 Hl1].
        assert (fits 64 (size (mkProof (mmr_size n) ds))) as Hs1 by (simpl; by rewrite <- En).
        apply verify_range_inclusion_iff in Hv1 as [Hp Hac]; [|done..]. split; [by apply ac_size in Hac|].
        destruct Hp as [tl Et]. rewrite <- (Nat.add_0_r (Z.to_nat loc)), <- lookup_drop, Et. done. }
      split; [|intros e loc Hx; by apply Hone]. destruct els as [|[e loc] els]; [done|]. apply (Hone e loc). constructor.
Qed.

(** a proof of several elements is complete: for locations of the range the
    prover either names a node the store misses and the proof needs, or returns a
    proof that is accepted for the elements at the locations, in the order in which
    they were asked for. *)
Theorem multi_proof_complete st locations E : count E ≤ 2 ^ 62 → storage_size st = mmr_size (count E) →
  faithful H (leaves_of H E) (count E) (get_node st) → locations ≠ [] → (∀ loc, loc ∈ locations → 0 ≤ loc < count E) →
  match multi_proof st locations with
  | Ok p => verify_multi_inclusion H p ((λ loc, (E !!! Z.to_nat loc, loc)) <$> locations) (root E) = Some true
  | Err (ElementPruned pos) => get_node st pos = None ∧ ∃ x, x ∈ needed_all (count E) locations ∧ pos = position x
  | _ => False
  end.
Proof.
  intros HE Hs Hg Hne Hl. unfold multi_proof. rewrite bool_decide_eq_false_2 by done.
  destruct (mmr_size_valid (count E) ltac:(lia)) as [Hv Hfit].
  unfold nodes_required_for_multi_proof. rewrite Hs, Hv, required_for_all_spec by (done || lia). cbn [expect obind negb].
  rewrite bool_decide_eq_false_2 by done. cbn [obind].
  destruct (Ordered.set_from_iter_dedup_spec ((λ x, position x) <$> needed_all (count E) locations)) as [_ Hin].
  destruct (fetch_cases (get_node st) (Ordered.set_from_iter_dedup ((λ x, position x) <$> needed_all (count E) locations)))
    as [(ds & -> & Hds)|(pos & Hp & Ep & ->)]; cbn [obind].
  - unfold verify_multi_inclusion. rewrite bool_decide_eq_false_2 by (intros E0%fmap_nil_inv; done). cbn [size digests].
    rewrite Hv. cbn [mbind option_bind negb]. rewrite <- list_fmap_compose. cbn [compose snd]. rewrite list_fmap_id.
    rewrite required_for_all_spec by (done || lia). rewrite (Forall2_length _ _ _ Hds), Nat.eqb_refl. cbn [negb].
    apply verify_each_complete; [lia|]. intros e loc Hx. apply list_elem_of_fmap in Hx as (loc' & [= -> ->] & Hx).
    pose proof (Hl _ Hx). split; [done|]. split; [done|]. intros x Hx'.
    assert (x ∈ needed_all (count E) locations) as Hall by (apply list_elem_of_bind; by exists loc').
    assert (position x ∈ (λ x, position x) <$> needed_all (count E) locations) as Hpos by by apply (list_elem_of_fmap_2 (λ x, position x)).
    apply Hin in Hpos. rewrite (zip_lookup _ _ _ _ Hds Hpos).
    apply list_elem_of_lookup in Hpos as [i Hi]. destruct (Forall2_lookup_l _ _ _ _ _ Hds Hi) as (d & _ & Ed). rewrite Ed. f_equal.
    destruct (needed_all_in_range (count E) locations x ltac:(lia) Hall) as [Hal Hn]. by apply (Hg x.1 x.2).
  - apply Hin, list_elem_of_fmap in Hp as (x & -> & Hx). split; [done|]. by exists x.
Qed.

(** C33: what the verifier accepts beyond the proof the prover makes: whenever a
    mountain lies outside the range, any digests [g] followed by a copy of the
    digest of the last such mountain may stand between the two parts of the proof.
    The check for unused digests compares a digest with the last one used, not
    their places, so proofs can be lengthened at will. *)
Theorem extra_digests_accepted els start x g E : count E ≤ 2 ^ 62 → 0 ≤ start → els ≠ [] → els `prefix_of` drop (Z.to_nat start) E →
  let b := start + count els - 1 in
  let digest := λ x, tree H (leaves_of H E) x.1 x.2 in
  let front := digest <$> outside start b (peak_nodes 63 0 (count E)) in
  let back := rev (digest <$> (all_sibs start b (peak_nodes 63 0 (count E))).*2) in
  last (outside start b (peak_nodes 63 0 (count E))) = Some x →
  digests (canonical H (leaves_of H E) (count E) start b) = front ++ back ∧
  verify_range_inclusion H (mkProof (mmr_size (count E)) (front ++ g ++ [digest x] ++ back)) els start (root E) = Some true.
Proof.
  intros HE Ha Hne Hp b digest front back Hx. pose proof (prefix_bound E els start Hne Ha Hp).
  assert (length els ≠ 0%nat) by (by destruct els). split.
  - unfold front, back. cbn [canonical digests]. by rewrite <- list_fmap_compose.
  - apply accepted_verifies; [done|lia|lia|lia| |by apply prefix_matches]. fold b. split; cbn [size digests]; [done|by apply prefix_app_r|].
    exists (rev (front ++ g ++ [digest x])). split.
    + rewrite (app_assoc g), (app_assoc front), rev_app_distr. unfold back at 1.
      by rewrite rev_involutive, <- list_fmap_compose.
    + right. exists (digest x). rewrite app_assoc, rev_app_distr. split; [done|]. fold digest.
      by rewrite fmap_last, Hx.
Qed.
End Theorems.

Section ProofCodec.
Context {D CD : Type} (digest : codec D CD) (cd : CD) `{!Lawful digest}.

(** a proof decodes exactly from its encoding, when it has at most as many
    digests as the configuration allows and its size fits: no two byte strings
    decode to the same proof. *)
Theorem proof_decode_iff max_len p buf :
  decode_cfg (proof_codec digest cd) buf max_len ≠ Panic ∧
  (decode_cfg (proof_codec digest cd) buf max_len = Ok p ↔
    fits 64 (size p) ∧ Z.of_nat (length (digests p)) ≤ max_len ∧ Forall (admits digest cd) (digests p) ∧
    encode (proof_codec digest cd) p = Some buf).
Proof.
  destruct (decode_iff (proof_codec digest cd) max_len p buf) as [H1 H2]. split; [done|]. rewrite H2. destruct p as [sz ds].
  assert (admits (proof_codec digest cd) max_len (mkProof sz ds) ↔
    fits 64 sz ∧ (fits 32 (Z.of_nat (length ds)) ∧ Z.of_nat (length ds) ≤ max_len) ∧ Forall (admits digest cd) ds) as ->.
  { cbn. unfold RangeCfg.contains. simpl. rewrite Z.gtb_ltb. destruct (Z.ltb_spec max_len (Z.of_nat (length ds))); naive_solver lia. }
  cbn [size digests]. split; [naive_solver|]. intros (Hs & Hl & Hf & E). split; [|done]. split; [done|]. split; [|done]. split; [|done].
  rewrite (encode_write (proof_codec digest cd)) in E. simpl in E. unfold tuple_write, write2 in E.
  cbn [fst snd] in E. destruct (write (Varint.UInt 8) sz); [|done]. unfold vec, vec_write, write2, usize_write in E. simpl in E.
  unfold usize_write in E. destruct (fitsb 32 (Z.of_nat (length ds))) eqn:Ef; [by apply fitsb_spec|done].
Qed.
End ProofCodec.

(** ** Witnesses

    Eleven elements: mountains over [0..7], [8..9] and [10]. *)

#[local] Existing Instance Symbolic.hasher_collision_free.

Definition demo_elements : list bytes := Symbolic.element <$> seqZ 0 11.
Definition demo_nodes : list (nat * Z) := seen_peaks 0 10 (peak_nodes 63 0 11).
Definition demo_store : Storage Symbolic.Dg :=
  new_from_digests 19 (record Symbolic.hasher (leaves_of Symbolic.hasher demo_elements) <$> demo_nodes).
Notation demo_root := (range_root Symbolic.hasher (leaves_of Symbolic.hasher demo_elements) (Z.of_nat (length demo_elements))).
Definition demo_proof (a b : Z) : Proof_ Symbolic.Dg := canonical Symbolic.hasher (leaves_of Symbolic.hasher demo_elements) 11 a b.

Lemma demo_count : Z.of_nat (length demo_elements) ≤ 2 ^ 62.
Proof. vm_compute. congruence. Qed.
Lemma demo_faithful : faithful Symbolic.hasher (leaves_of Symbolic.hasher demo_elements) 11 (get_node demo_store).
Proof. apply store_faithful. intros x Hx. exact (seen_peaks_in_range 0 10 11 x ltac:(lia) Hx). Qed.

Lemma verify_range_inclusion_iff_witness :
  [Symbolic.element 9] `prefix_of` drop 9 demo_elements ∧
  accepted Symbolic.hasher (leaves_of Symbolic.hasher demo_elements) (demo_proof 9 9) 11 9 9.
Proof.
  exact (proj1 (verify_range_inclusion_iff Symbolic.hasher (demo_proof 9 9) [Symbolic.element 9] 9 demo_elements
    demo_count ltac:(unfold fits; vm_compute; split; congruence) ltac:(unfold fits; lia) ltac:(discriminate))
    ltac:(vm_compute; reflexivity)).
Defined.

Lemma range_proof_correct_witness :
  match range_proof demo_store 3 9 with
  | Ok p => verify_range_inclusion Symbolic.hasher p (take 6 (drop 3 demo_elements)) 3 demo_root = Some true
  | _ => False
  end.
Proof.
  pose proof (range_proof_correct Symbolic.hasher demo_store 3 9 demo_elements demo_count eq_refl demo_faithful ltac:(lia)) as Hp.
  destruct (range_proof demo_store 3 9) as [p|e|] eqn:E; [exact (proj2 Hp)|vm_compute in E; discriminate|exact Hp].
Defined.

Lemma proof_store_witness :
  match store_new Symbolic.hasher (demo_proof 4 6) (take 3 (drop 4 demo_elements)) 4 demo_root with
  | Ok st => ∃ q, range_proof st 5 6 = Ok q ∧ verify_range_inclusion Symbolic.hasher q [Symbolic.element 5] 5 demo_root = Some true
  | _ => False
  end.
Proof.
  pose proof (proof_store Symbolic.hasher (demo_proof 4 6) (take 3 (drop 4 demo_elements)) 4 demo_elements
    demo_count ltac:(unfold fits; vm_compute; split; congruence) ltac:(unfold fits; lia) ltac:(discriminate)) as Hp.
  destruct (store_new _ _ _ _ _) as [st|e|] eqn:E; [|vm_compute in E; discriminate|exact Hp].
  destruct Hp as (_ & _ & _ & Hp). destruct (Hp 5 6 ltac:(lia) ltac:(vm_compute; congruence)) as (q & E1 & E2).
  exists q. split; [exact E1|exact E2].
Defined.

Lemma extract_pinned_nodes_sound_witness :
  extract_pinned_nodes (demo_proof 9 10) 9 11 =
    Ok ((λ x, tree Symbolic.hasher (leaves_of Symbolic.hasher demo_elements) x.1 x.2) <$> peak_nodes 63 0 9).
Proof.
  exact (extract_pinned_nodes_sound Symbolic.hasher (demo_proof 9 10) (drop 9 demo_elements) 9 demo_elements
    demo_count ltac:(unfold fits; vm_compute; split; congruence) ltac:(unfold fits; lia) ltac:(discriminate)
    ltac:(vm_compute; reflexivity)).
Defined.

Definition demo_multi : outcome MmrError (Proof_ Symbolic.Dg) := multi_proof demo_store [9; 2].

Lemma multi_proof_complete_witness :
  match demo_multi with
  | Ok p => verify_multi_inclusion Symbolic.hasher p [(Symbolic.element 9, 9); (Symbolic.element 2, 2)] demo_root = Some true
  | _ => False
  end.
Proof.
  pose proof (multi_proof_complete Symbolic.hasher demo_store [9; 2] demo_elements demo_count eq_refl demo_faithful
    ltac:(discriminate) ltac:(set_solver by lia)) as Hp.
  unfold demo_multi. destruct (multi_proof demo_store [9; 2]) as [p|e|] eqn:E; [exact Hp|vm_compute in E; discriminate|exact Hp].
Defined.

Lemma multi_inclusion_sound_witness :
  ∃ b, verify_multi_inclusion Symbolic.hasher (mkProof 19 []) [(Symbolic.element 8, 9)] demo_root = Some b.
Proof.
  destruct (multi_inclusion_sound Symbolic.hasher (mkProof 19 []) [(Symbolic.element 8, 9)] demo_elements demo_count
    ltac:(unfold fits; simpl; lia) ltac:(intros e loc [[= -> ->]|Hx%not_elem_of_nil]%elem_of_cons; [unfold fits; lia|done]))
    as (b & Hb & _).
  exists b. exact Hb.
Defined.

Lemma extra_digests_accepted_witness :
  verify_range_inclusion Symbolic.hasher
    (mkProof 19 (take 2 (digests (demo_proof 9 9)) ++ [Symbolic.leaf 0; Symbolic.leaf 1] ++ drop 1 (digests (demo_proof 9 9))))
    [Symbolic.element 9] 9 demo_root = Some true.
Proof.
  exact (proj2 (extra_digests_accepted Symbolic.hasher [Symbolic.element 9] 9 (0%nat, 10) [Symbolic.leaf 0; Symbolic.leaf 1]
    demo_elements demo_count ltac:(lia) ltac:(discriminate) ltac:(exists [Symbolic.element 10]; vm_compute; reflexivity)
    ltac:(vm_compute; reflexivity))).
Defined.
End MmrProperties.
