(* ===== verification/MmrMem.v ===== *)
(** * The range in memory (storage/src/mmr/mem.rs)

    [Mmr] keeps the nodes from [pruned_to_pos] on and a few pinned ones before
    it.  A range whose root was computed is [Clean]; leaves are added, popped and
    updated on a [Dirty] one, which records the inner nodes to recompute.  [None]
    is a panic; an operation that returns a [Result] and changes the range
    returns both. *)

From S2P Require Import Prelude Codec CodecTypes CodecOrdered Ordered.
From S2P Require Import MmrPosition MmrIterator MmrTree MmrProof.
Import CodecTypes CodecOrdered Mmr MmrIterator MmrProof.

(** [(Position, u32)] *)
#[export] Instance node_ord : Ord (Z * Z).
Proof.
  refine {| cmp x y := match Z.compare x.1 y.1 with Eq => Z.compare x.2 y.2 | c => c end |}.
  - intros [a b] [c d]. simpl. destruct (Z.compare_spec a c); split; try done; try (intros [=]; lia).
    + intros ->%Z.compare_eq_iff. by subst.
    + intros [= _ ->]. apply Z.compare_refl.
  - intros [a b] [c d]. simpl. rewrite (Z.compare_antisym a c). destruct (Z.compare a c); simpl; try done. apply Z.compare_antisym.
  - intros [a b] [c d] [e g]. simpl.
    destruct (Z.compare_spec a c), (Z.compare_spec c e), (Z.compare_spec a e); try done; try lia.
    rewrite !Z.compare_lt_iff. lia.
Defined.

Module MmrMem.

Record Mmr (D S : Type) : Type := mkMmr {
  nodes : list D;
  pruned_to_pos : Z;
  pinned_nodes : gmap Z D;
  state : S;
}.
Arguments mkMmr {D S} _ _ _ _.
Arguments nodes {D S} _.
Arguments pruned_to_pos {D S} _.
Arguments pinned_nodes {D S} _.
Arguments state {D S} _.

Record Clean (D : Type) : Type := mkClean { root : D }.
Arguments mkClean {D} _.
Arguments root {D} _.
(** A [BTreeSet] of position and height. *)
Record Dirty : Type := mkDirty { dirty_nodes : list (Z * Z) }.

Section Reading.
Context {D : Type}.
Notation CleanMmr := (Mmr D (Clean D)).
Notation DirtyMmr := (Mmr D Dirty).

Definition into_dirty (clean : CleanMmr) : DirtyMmr :=
  mkMmr (nodes clean) (pruned_to_pos clean) (pinned_nodes clean) (mkDirty []).

(** ** Reading *)

Section Any.
Context {S : Type}.
Implicit Types m : Mmr D S.

Definition size m : option Z := checked_add 64 (Z.of_nat (length (nodes m))) (pruned_to_pos m).
Definition leaves m : option Z :=
  size ← size m;
  match Location.try_from_position size with Ok loc => Some loc | _ => None end.
Definition last_leaf_pos m : option (option Z) :=
  size ← size m;
  if size =? 0 then Some None else pos ← Peaks.last_leaf_pos size; Some (Some pos).
Definition oldest_retained_pos m : option (option Z) :=
  size ← size m;
  Some (if pruned_to_pos m =? size then None else Some (pruned_to_pos m)).
(** All the items of [peak_iterator]. *)
Definition peak_items m : option (list (Z * Z)) := size ← size m; Peaks.peaks size.

Definition index_to_pos m (index : nat) : option Z := checked_add 64 (pruned_to_pos m) (Z.of_nat index).
Definition pos_to_index m (pos : Z) : option nat :=
  if pruned_to_pos m <=? pos then Some (Z.to_nat (pos - pruned_to_pos m)) else None.
Definition get_node_unchecked m (pos : Z) : option D :=
  if pos <? pruned_to_pos m then pinned_nodes m !! pos
  else index ← pos_to_index m pos; nodes m !! index.

Definition add_pinned_nodes m (pinned : gmap Z D) : Mmr D S :=
  mkMmr (nodes m) (pruned_to_pos m) (pinned ∪ pinned_nodes m) (state m).
(** [self.nodes.push_back(node)] *)
Definition push m (node : D) : Mmr D S := mkMmr (nodes m ++ [node]) (pruned_to_pos m) (pinned_nodes m) (state m).
(** [self.nodes[index] = digest] *)
Definition set_node m (pos : Z) (digest : D) : option (Mmr D S) :=
  index ← pos_to_index m pos;
  if (index <? length (nodes m))%nat
  then Some (mkMmr (<[index := digest]> (nodes m)) (pruned_to_pos m) (pinned_nodes m) (state m)) else None.
End Any.

(** The result of a getter of a [Clean] range; out of range is [None]. *)
Definition get_node (m : CleanMmr) (pos : Z) : option D :=
  if pos <? pruned_to_pos m then pinned_nodes m !! pos
  else nodes m !! Z.to_nat (pos - pruned_to_pos m).

End Reading.

(** ** Computing digests *)

Section Merkleize.
Context {D : Type} (H : Hasher D).
Notation CleanMmr := (Mmr D (Clean D)).
Notation DirtyMmr := (Mmr D Dirty).

Definition with_dirty (m : DirtyMmr) (l : list (Z * Z)) : DirtyMmr :=
  mkMmr (nodes m) (pruned_to_pos m) (pinned_nodes m) (mkDirty l).

(** The digest of an inner node from its children. *)
Definition compute_node (m : DirtyMmr) (pos height : Z) : option D :=
  left ← checked_sub pos (Z.shiftl 1 height);
  right ← checked_sub pos 1;
  l ← get_node_unchecked m left;
  r ← get_node_unchecked m right;
  Some (node_digest H pos l r).

Fixpoint serial_loop (m : DirtyMmr) (l : list (Z * Z)) : option DirtyMmr :=
  match l with
  | [] => Some m
  | (pos, height) :: l =>
      digest ← compute_node m pos height;
      m ← set_node m pos digest;
      serial_loop m l
  end.
Definition merkleize_serial (m : DirtyMmr) : option DirtyMmr :=
  serial_loop (with_dirty m []) (Ordered.sort_by_key snd (dirty_nodes (state m))).

(** All the digests are computed before one is written. *)
Fixpoint write_all (m : DirtyMmr) (l : list (Z * D)) : option DirtyMmr :=
  match l with [] => Some m | (pos, digest) :: l => m ← set_node m pos digest; write_all m l end.
Definition update_node_digests (m : DirtyMmr) (same_height : list Z) (height : Z) : option DirtyMmr :=
  digests ← map_option (λ pos, digest ← compute_node m pos height; Some (pos, digest)) same_height;
  write_all m digests.

(** The loop of [merkleize_parallel] at index [i] of [all]; the nodes not computed
    yet go back to the set and are computed serially. *)
Fixpoint parallel_loop (min_to_parallelize : nat) (all rest : list (Z * Z)) (i : nat) (same_height : list Z)
    (current_height : Z) (m : DirtyMmr) : option DirtyMmr :=
  match rest with
  | [] =>
      if (length same_height <? min_to_parallelize)%nat
      then merkleize_serial (with_dirty m (Ordered.set_from_iter_dedup (drop (length all - length same_height) all)))
      else update_node_digests m same_height current_height
  | (pos, height) :: rest =>
      if height =? current_height
      then parallel_loop min_to_parallelize all rest (S i) (same_height ++ [pos]) current_height m
      else if (length same_height <? min_to_parallelize)%nat
      then merkleize_serial (with_dirty m (Ordered.set_from_iter_dedup (drop (i - length same_height) all)))
      else
        m ← update_node_digests m same_height current_height;
        parallel_loop min_to_parallelize all rest (S i) [pos] (current_height + 1) m
  end.
Definition merkleize_parallel (m : DirtyMmr) (min_to_parallelize : nat) : option DirtyMmr :=
  let all := Ordered.sort_by_key snd (dirty_nodes (state m)) in
  parallel_loop min_to_parallelize all all 0 [] 1 (with_dirty m []).

Definition MIN_TO_PARALLELIZE : nat := 20.

(** [pool]: whether a thread pool is given. *)
Definition merkleize (m : DirtyMmr) (pool : bool) : option CleanMmr :=
  m ← (if pool && (MIN_TO_PARALLELIZE <=? length (dirty_nodes (state m)))%nat
       then merkleize_parallel m MIN_TO_PARALLELIZE else merkleize_serial m);
  peaks ← peak_items m;
  digests ← map_option (λ peak : Z * Z, get_node_unchecked m peak.1) peaks;
  size ← size m;
  Some (mkMmr (nodes m) (pruned_to_pos m) (pinned_nodes m) (mkClean (root_digest H size digests))).

End Merkleize.

(** ** Changing a dirty range *)

Module DirtyMmr.
Section Ops.
Context {D : Type} (H : Hasher D) (EMPTY : D).
Notation DirtyMmr := (Mmr D Dirty).

Definition new : DirtyMmr := mkMmr [] 0 ∅ (mkDirty []).

(** Every position to pin needs a digest; more digests are ignored. *)
Definition from_components (nodes : list D) (pruned_to_pos : Z) (pinned_nodes : list D) : option DirtyMmr :=
  positions ← nodes_to_pin pruned_to_pos;
  if (length pinned_nodes <? length positions)%nat then None
  else Some (mkMmr nodes pruned_to_pos (list_to_map (zip positions pinned_nodes)) (mkDirty [])).

Fixpoint add_parents (m : DirtyMmr) (needing : list Z) (height : Z) : option DirtyMmr :=
  match needing with
  | [] => Some m
  | _ :: needing =>
      new_node_pos ← size m;
      let m := push m EMPTY in
      add_parents (with_dirty m (set_insert (new_node_pos, height) (dirty_nodes (state m)))) needing (height + 1)
  end.
Definition add_leaf_digest (m : DirtyMmr) (digest : D) : option (Z * DirtyMmr) :=
  leaf_pos ← size m;
  needing ← nodes_needing_parents leaf_pos;
  m ← add_parents (push m digest) needing 1;
  Some (leaf_pos, m).
Definition add (m : DirtyMmr) (element : bytes) : option (Z * DirtyMmr) :=
  size ← size m;
  add_leaf_digest m (leaf_digest H size element).

(** The sizes between two of ranges are at most [63] apart; the fuel is 65. *)
Fixpoint pop_loop (fuel : nat) (new_size pruned_to_pos : Z) : option (outcome MmrError Z) :=
  match fuel with
  | O => None
  | S fuel =>
      if new_size <? pruned_to_pos then Some (Err (ElementPruned new_size))
      else
        valid ← Position.is_mmr_size new_size;
        if valid : bool then Some (Ok new_size)
        else new_size ← checked_sub new_size 1; pop_loop fuel new_size pruned_to_pos
  end.
Definition pop (m : DirtyMmr) : option (outcome MmrError Z * DirtyMmr) :=
  old ← size m;
  if old =? 0 then Some (Err Empty, m)
  else
    new_size ← checked_sub old 1;
    found ← pop_loop 65 new_size (pruned_to_pos m);
    match found with
    | Ok new_size =>
        num_to_drain ← checked_sub old new_size;
        keep ← checked_sub (Z.of_nat (length (nodes m))) num_to_drain;
        let m := mkMmr (take (Z.to_nat keep) (nodes m)) (pruned_to_pos m) (pinned_nodes m) (state m) in
        cutoff ← size m;
        Some (Ok cutoff, with_dirty m (filter (λ x, cmp x (cutoff, 0) = Lt) (dirty_nodes (state m))))
    | Err e => Some (Err e, m)
    | Panic => None
    end.

(** The parents of a leaf, from the bottom, until one is dirty already. *)
Fixpoint mark_path (dirty : list (Z * Z)) (path : list (Z * Z)) (height : Z) : list (Z * Z) :=
  match path with
  | [] => dirty
  | (parent_pos, _) :: path =>
      if decide ((parent_pos, height) ∈ dirty) then dirty
      else mark_path (set_insert (parent_pos, height) dirty) path (height + 1)
  end.
Fixpoint mark_peaks (peaks : list (Z * Z)) (pos : Z) (dirty : list (Z * Z)) : option (list (Z * Z)) :=
  match peaks with
  | [] => None
  | (peak_pos, height) :: peaks =>
      if peak_pos <? pos then mark_peaks peaks pos dirty
      else path ← Path.path pos peak_pos height; Some (mark_path dirty (rev path) 1)
  end.
Definition mark_dirty (m : DirtyMmr) (pos : Z) : option DirtyMmr :=
  peaks ← peak_items m;
  dirty ← mark_peaks peaks pos (dirty_nodes (state m));
  Some (with_dirty m dirty).

(** The positions of the leaves to update, all checked before one is changed. *)
Fixpoint check_updates (leaves pruned_to_pos : Z) (locations : list Z) : outcome MmrError (list Z) :=
  match locations with
  | [] => Ok []
  | loc :: locations =>
      if leaves <=? loc then Err (LeafOutOfBounds loc)
      else
        let? pos := position_of loc in
        if pos <? pruned_to_pos then Err (ElementPruned pos)
        else let? positions := check_updates leaves pruned_to_pos locations in Ok (pos :: positions)
  end.
(** A leaf and the marks above it. *)
Definition update_one (m : DirtyMmr) (pos : Z) (digest : D) : option DirtyMmr :=
  m ← set_node m pos digest; mark_dirty m pos.
Fixpoint update_loop (m : DirtyMmr) (l : list (Z * bytes)) : option DirtyMmr :=
  match l with
  | [] => Some m
  | (pos, element) :: l => m ← update_one m pos (leaf_digest H pos element); update_loop m l
  end.
(** The digests are computed first, by the threads of the pool. *)
Fixpoint update_digests (m : DirtyMmr) (digests : list (Z * D)) : option DirtyMmr :=
  match digests with [] => Some m | (pos, digest) :: l => m ← update_one m pos digest; update_digests m l end.
Definition update_leaf_parallel (m : DirtyMmr) (l : list (Z * bytes)) : option DirtyMmr :=
  update_digests m ((λ x, (x.1, leaf_digest H x.1 x.2)) <$> l).

Definition update_leaf_batched (m : DirtyMmr) (pool : bool) (updates : list (Z * bytes))
    : option (outcome MmrError unit * DirtyMmr) :=
  if bool_decide (updates = []) then Some (Ok tt, m)
  else
    leaves ← leaves m;
    match check_updates leaves (pruned_to_pos m) updates.*1 with
    | Ok positions =>
        let l := zip positions updates.*2 in
        m ← (if pool && (MIN_TO_PARALLELIZE <=? length updates)%nat then update_leaf_parallel m l else update_loop m l);
        Some (Ok tt, m)
    | Err e => Some (Err e, m)
    | Panic => None
    end.
Definition update_leaf (m : DirtyMmr) (loc : Z) (element : bytes) : option (outcome MmrError unit * DirtyMmr) :=
  update_leaf_batched m false [(loc, element)].
End Ops.
End DirtyMmr.

(** ** The operations of a clean range *)

Record Config (D : Type) : Type := mkConfig { cfg_nodes : list D; cfg_pruned_to_pos : Z; cfg_pinned_nodes : list D }.
Arguments mkConfig {D} _ _ _.
Arguments cfg_nodes {D} _.
Arguments cfg_pruned_to_pos {D} _.
Arguments cfg_pinned_nodes {D} _.

Module CleanMmr.
Section Ops.
Context {D : Type} (H : Hasher D) (EMPTY : D).
Notation CleanMmr := (Mmr D (Clean D)).

Fixpoint init_pins (positions : list Z) (pinned : list D) (acc : gmap Z D) : outcome MmrError (gmap Z D) :=
  match positions, pinned with
  | [], [] => Ok acc
  | pos :: positions, d :: pinned => init_pins positions pinned (<[pos := d]> acc)
  | _, _ => Err InvalidPinnedNodes
  end.
Definition init (config : Config D) : outcome MmrError CleanMmr :=
  match Position.checked_add (cfg_pruned_to_pos config) (Z.of_nat (length (cfg_nodes config))) with
  | None => Err (InvalidSize (2 ^ 64 - 1))
  | Some size =>
      let? valid := expect (Position.is_mmr_size size) in
      if negb valid then Err (InvalidSize size)
      else
        let? positions := expect (MmrIterator.nodes_to_pin (cfg_pruned_to_pos config)) in
        let? pinned := init_pins positions (cfg_pinned_nodes config) ∅ in
        expect (merkleize H (mkMmr (cfg_nodes config) (cfg_pruned_to_pos config) pinned (mkDirty [])) false)
  end.
Definition new : option CleanMmr := merkleize H DirtyMmr.new false.
Definition from_components (nodes : list D) (pruned_to_pos : Z) (pinned_nodes : list D) : option CleanMmr :=
  m ← DirtyMmr.from_components nodes pruned_to_pos pinned_nodes; merkleize H m false.

Definition add_leaf_digest (m : CleanMmr) (digest : D) : option (Z * CleanMmr) :=
  '(leaf_pos, m) ← DirtyMmr.add_leaf_digest EMPTY (into_dirty m) digest;
  m ← merkleize H m false;
  Some (leaf_pos, m).
Definition add (m : CleanMmr) (element : bytes) : option (Z * CleanMmr) :=
  size ← size m;
  add_leaf_digest m (leaf_digest H size element).
Definition pop (m : CleanMmr) : option (outcome MmrError Z * CleanMmr) :=
  '(result, m) ← DirtyMmr.pop (into_dirty m);
  m ← merkleize H m false;
  Some (result, m).

Definition nodes_to_pin (m : CleanMmr) (prune_pos : Z) : option (gmap Z D) :=
  positions ← MmrIterator.nodes_to_pin prune_pos;
  digests ← map_option (get_node_unchecked m) positions;
  Some (list_to_map (zip positions digests)).
Definition prune_to_pos (m : CleanMmr) (pos : Z) : option CleanMmr :=
  pinned ← nodes_to_pin m pos;
  retained_nodes ← pos_to_index m pos;
  if (length (nodes m) <? retained_nodes)%nat then None
  else Some (mkMmr (drop retained_nodes (nodes m)) pos pinned (state m)).
Definition prune_all (m : CleanMmr) : option CleanMmr :=
  if (length (nodes m) =? 0)%nat then Some m
  else pos ← index_to_pos m (length (nodes m)); prune_to_pos m pos.

Definition update_leaf (m : CleanMmr) (loc : Z) (element : bytes) : option (outcome MmrError unit * CleanMmr) :=
  '(result, m) ← DirtyMmr.update_leaf H (into_dirty m) loc element;
  m ← merkleize H m false;
  Some (result, m).

Definition range_proof (m : CleanMmr) (start stop : Z) : outcome MmrError (Proof_ D) :=
  let? leaves := expect (leaves m) in
  if leaves <=? start then Panic
  else if leaves <? stop then Panic
  else
    let? size := expect (size m) in
    let? positions := nodes_required_for_range_proof size start stop in
    let? digests := fetch (get_node m) positions in
    Ok (mkProof size digests).
Definition proof (m : CleanMmr) (loc : Z) : outcome MmrError (Proof_ D) :=
  if negb (Location.is_valid loc) then Err (LocationOverflow loc) else range_proof m loc (loc + 1).

(** [Storage] of a clean range; its size never panics on a range that is valid. *)
Definition storage (m : CleanMmr) : Storage D := mkStorage (get_node m) (default 0 (size m)).
End Ops.
End CleanMmr.

(** The root of an empty range, by the hash alone. *)
Definition empty_mmr_root {D} (hash : bytes → D) : D := hash (put_be 8 0).
End MmrMem.
