(* ===== verification/MmrMemSpec.v ===== *)
(** * What the range in memory keeps (storage/src/mmr/mem.rs)

    A range stands for its leaf digests [f] and their number [n].  [represents]
    says which of its nodes have the right digests: every retained one that is not
    dirty, and those that were pinned, which are at least the ones that a retained
    leaf, an addition or a proof can need.  [dirty_ok] says that the dirty nodes
    are what must be recomputed. *)

From S2P Require Import Prelude Codec CodecTypes CodecOrdered Ordered.
From S2P Require Import MmrPosition MmrIterator MmrTree MmrProof MmrSoundness MmrCompleteness MmrStore MmrMulti MmrMem.
Import CodecTypes CodecOrdered Mmr MmrIterator MmrProof MmrSoundness MmrMulti MmrMem.

Module MmrMemSpec.

(** ** The nodes above a leaf *)

Definition anc (i : nat) (j : Z) : Z := pow i * (j / pow i).

Lemma anc_bounds i j : anc i j ≤ j < anc i j + pow i.
Proof. unfold anc. pose proof (pow_pos i). pose proof (Z.div_mod j (pow i) ltac:(lia)). pose proof (Z.mod_pos_bound j (pow i) ltac:(lia)). lia. Qed.
Lemma anc_aligned i j : 0 ≤ j → aligned i (anc i j).
Proof.
  intros Hj. unfold anc. pose proof (pow_pos i). pose proof (Z.div_pos j (pow i) Hj ltac:(lia)).
  split; [nia|]. exists (j / pow i). lia.
Qed.

(** Two nodes are nested or disjoint. *)
Lemma nested h k h' k' : aligned h k → aligned h' k' → (h ≤ h')%nat → k < k' + pow h' → k + pow h ≤ k' + pow h'.
Proof.
  intros [Hk [a ->]] [Hk' [b ->]] Hh Hlt. pose proof (pow_pos h).
  assert (pow h' = pow h * pow (h' - h)) as E by (rewrite <- Z.pow_add_r by lia; f_equal; lia).
  rewrite E in *. pose proof (pow_pos (h' - h)). assert (a < (b + 1) * pow (h' - h)) by nia. nia.
Qed.
Lemma nested_start h k h' k' : aligned h k → aligned h' k' → (h ≤ h')%nat → k' < k + pow h → k' ≤ k.
Proof.
  intros [Hk [a ->]] [Hk' [b ->]] Hh Hlt. pose proof (pow_pos h).
  assert (pow h' = pow h * pow (h' - h)) as E by (rewrite <- Z.pow_add_r by lia; f_equal; lia).
  rewrite E in *. pose proof (pow_pos (h' - h)). assert (b * pow (h' - h) < a + 1) by nia. nia.
Qed.

Lemma anc_unique h k j : aligned h k → k ≤ j < k + pow h → anc h j = k.
Proof.
  intros Hk Hj. destruct (Hk) as [Hk0 _]. pose proof (anc_bounds h j). pose proof (anc_aligned h j ltac:(lia)) as Ha.
  pose proof (nested_start h k h (anc h j) Hk Ha ltac:(lia) ltac:(lia)).
  pose proof (nested_start h (anc h j) h k Ha Hk ltac:(lia) ltac:(lia)). lia.
Qed.
Lemma anc_S i j : 0 ≤ j → anc (S i) j ≤ anc i j ∧ anc i j + pow i ≤ anc (S i) j + pow (S i).
Proof.
  intros Hj. pose proof (anc_bounds i j). pose proof (anc_bounds (S i) j).
  pose proof (anc_aligned i j Hj) as H1. pose proof (anc_aligned (S i) j Hj) as H2. split.
  - apply (nested_start i _ (S i)); [done..|lia|lia].
  - apply (nested i _ (S i)); [done..|lia|lia].
Qed.

(** The peaks of a range are its largest nodes. *)
Lemma peak_nodes_in h k n : 0 ≤ n ≤ 2 ^ 62 → aligned (S h) k → k + pow h ≤ n → n < k + 2 * pow h → (h, k) ∈ peak_nodes 63 0 n.
Proof.
  intros Hn Hk Hle Hlt. pose proof leaves_fit. pose proof (pow_pos h). destruct (Hk) as [Hk0 _].
  destruct (peak_nodes_cover 63 0 n k ltac:(lia) ltac:(lia)) as ([h' k'] & Hx & Hc). cbn [fst snd] in Hc.
  destruct (peak_nodes_spec 63 0 n _ (aligned_zero _) ltac:(lia) Hx) as (_ & _ & _ & H1 & H2 & Hk'). cbn [fst snd] in *.
  assert (h = h') as <-; [|assert (k' = k) as <-; [|exact Hx]].
  - destruct (decide (h = h')) as [|Hne]; [done|exfalso]. destruct (decide (h < h')%nat).
    + pose proof (nested (S h) k h' k' Hk (aligned_S _ _ Hk') ltac:(lia) ltac:(lia)) as Hq. rewrite pow_S in Hq. lia.
    + pose proof (nested (S h') k' h k Hk' (aligned_S _ _ Hk) ltac:(lia) ltac:(lia)) as Hq. rewrite pow_S in Hq. lia.
  - apply Z.le_antisymm; [lia|]. apply (nested_start h k' h k (aligned_S _ _ Hk') (aligned_S _ _ Hk)); lia.
Qed.

(** [p] pins the node: it is before [p], and the range goes past [p] before the
    node gets a parent. *)
Definition pins (p : Z) (h : nat) (k : Z) : Prop := aligned (S h) k ∧ node_pos h k < p < mmr_size (k + 2 * pow h).

Lemma node_pos_succ h k : aligned (S h) k → mmr_size (k + pow h) = node_pos h k + 1.
Proof. intros Hk. rewrite mmr_size_right by done. unfold node_pos. lia. Qed.

Lemma pins_spec p : 0 ≤ p ≤ MAX_POSITION → ∃ n, 0 ≤ n ≤ 2 ^ 62 ∧
  nodes_to_pin p = Some ((λ x, node_pos x.1 x.2) <$> peak_nodes 63 0 n) ∧ mmr_size n ≤ p ∧
  ∀ h k, (h, k) ∈ peak_nodes 63 0 n ↔ pins p h k.
Proof.
  intros Hp. destruct (to_nearest_size_spec p Hp) as (n & Hn & E & Hb).
  assert (n ≤ 2 ^ 62) as Hle.
  { destruct (decide (n ≤ 2 ^ 62)) as [|Hgt]; [done|].
    pose proof (mmr_size_strict (2 ^ 62) n ltac:(lia) ltac:(lia)) as Hm. rewrite mmr_size_62 in Hm. unfold MAX_POSITION in Hp. lia. }
  exists n. split; [done|]. pose proof (pin_of_peaks _ _ _ E (peaks_nodes n ltac:(lia))) as Ep. split; [|split; [lia|]].
  { rewrite Ep. f_equal. generalize (peak_nodes 63 0 n). intros l. by rewrite <- list_fmap_compose. }
  intros h k. pose proof (pow_pos h). split.
  - intros Hx. pose proof leaves_fit.
    destruct (peak_nodes_spec 63 0 n _ (aligned_zero _) ltac:(lia) Hx) as (_ & _ & _ & H1 & H2 & Hk). cbn [fst snd] in *. destruct (Hk) as [Hk0 _].
    split; [done|]. pose proof (node_pos_succ h k Hk). pose proof (mmr_size_mono (k + pow h) n ltac:(lia) ltac:(lia)).
    pose proof (mmr_size_mono (n + 1) (k + 2 * pow h) ltac:(lia) ltac:(lia)). lia.
  - intros (Hk & H1 & H2). destruct (Hk) as [Hk0 _]. apply peak_nodes_in; [lia|done|..].
    + pose proof (node_pos_succ h k Hk). destruct (decide (k + pow h ≤ n)) as [|Hgt]; [done|].
      pose proof (mmr_size_mono (n + 1) (k + pow h) ltac:(lia) ltac:(lia)). lia.
    + destruct (decide (n < k + 2 * pow h)) as [|Hge]; [done|].
      pose proof (mmr_size_mono (k + 2 * pow h) n ltac:(lia) ltac:(lia)). lia.
Qed.

(** ** The invariant *)

Section Spec.
Context {D : Type} (H : Hasher D).
Implicit Types f : Z → D.

(** The node is to be recomputed. *)
Definition stale (l : list (Z * Z)) (h : nat) (k : Z) : Prop := (node_pos h k, Z.of_nat h) ∈ l.

Record represents {S} (m : Mmr D S) f (n : Z) (l : list (Z * Z)) : Prop := {
  rp_count : 0 ≤ n ≤ MAX_LOCATION;
  rp_pruned : 0 ≤ pruned_to_pos m;
  rp_size : Z.of_nat (length (nodes m)) + pruned_to_pos m = mmr_size n;
  rp_nodes h k d : aligned h k → pruned_to_pos m ≤ node_pos h k →
    nodes m !! Z.to_nat (node_pos h k - pruned_to_pos m) = Some d → ¬ stale l h k → d = tree H f h k;
  rp_pins h k : pins (pruned_to_pos m) h k → pinned_nodes m !! node_pos h k = Some (tree H f h k);
  rp_pinned h k d : aligned h k → node_pos h k < pruned_to_pos m →
    pinned_nodes m !! node_pos h k = Some d → d = tree H f h k;
}.

(** An inner node of the range above a retained leaf. *)
Definition dirty_node (p n : Z) (x : Z * Z) : Prop :=
  ∃ h k j, x = (node_pos (S h) k, Z.of_nat (S h)) ∧ aligned (S h) k ∧ k + pow (S h) ≤ n ∧
    k ≤ j < k + pow (S h) ∧ p ≤ mmr_size j.

Record dirty_ok (p n : Z) (l : list (Z * Z)) : Prop := {
  dk_node x : x ∈ l → dirty_node p n x;
  (** Everything above a dirty node is dirty. *)
  dk_up i j : 0 ≤ j → stale l (S i) (anc (S i) j) → anc (S (S i)) j + pow (S (S i)) ≤ n → stale l (S (S i)) (anc (S (S i)) j);
  (** Below a dirty node there is a dirty one, down to the parents of leaves. *)
  dk_down h k : stale l (S (S h)) k → aligned (S (S h)) k → ∃ k', (k' = k ∨ k' = k + pow (S h)) ∧ stale l (S h) k';
}.

Lemma represents_ext {S} (m : Mmr D S) f g n l l' : (∀ j, 0 ≤ j < n → f j = g j) → (∀ h k, stale l h k → stale l' h k) →
  represents m f n l → represents m g n l'.
Proof.
  intros Hfg Hl [Hn Hp Hs Hnd Hpi Hpd].
  assert (∀ h k, aligned h k → node_pos h k < mmr_size n → tree H f h k = tree H g h k) as Ht.
  { intros h k Hk Hlt. apply node_pos_lt in Hlt; [|done|lia]. apply tree_ext. intros j Hj. apply Hfg. destruct Hk. lia. }
  split; [done..| | |].
  - intros h k d Hk Hle Hd Hst. rewrite <- Ht; [|done|].
    + apply Hnd; [done..|]. intros Hst'. by apply Hst, Hl.
    + apply lookup_lt_Some in Hd. lia.
  - intros h k Hpk. rewrite <- Ht; [by apply Hpi|by apply aligned_S, Hpk|]. destruct Hpk as (_ & ? & _). lia.
  - intros h k d Hk Hlt Hd. rewrite <- Ht; [by apply Hpd|done|lia].
Qed.

Section Any.
Context {S : Type}.
Implicit Types m : Mmr D S.

Lemma represents_fits m f n l : represents m f n l → 0 ≤ mmr_size n ≤ MAX_POSITION ∧ n < 2 ^ 62.
Proof.
  intros [Hn Hp Hs _ _ _]. assert (2 ^ 62 = MAX_LOCATION + 1) as E62 by reflexivity.
  pose proof (mmr_size_nonneg n ltac:(lia)). pose proof (mmr_size_strict n (2 ^ 62) ltac:(lia) ltac:(lia)) as Hm.
  rewrite mmr_size_62 in Hm. unfold MAX_POSITION. lia.
Qed.

Lemma size_spec m f n l : represents m f n l → MmrMem.size m = Some (mmr_size n).
Proof.
  intros Hr. pose proof (represents_fits _ _ _ _ Hr) as [Hf _]. unfold MAX_POSITION in Hf. destruct Hr as [Hn Hp Hs _ _ _].
  unfold MmrMem.size, checked_add. rewrite Hs. by rewrite (proj2 (Z.ltb_lt _ _)) by lia.
Qed.

Lemma peak_items_spec m f n l : represents m f n l → peak_items m = Some ((λ x, (node_pos x.1 x.2, Z.of_nat x.1)) <$> peak_nodes 63 0 n).
Proof.
  intros Hr. pose proof (represents_fits _ _ _ _ Hr) as [_ Hf]. unfold peak_items. rewrite (size_spec _ _ _ _ Hr). cbn [mbind option_bind].
  apply peaks_nodes. destruct Hr. lia.
Qed.

(** A node that is retained or pinned can be read. *)
Lemma get_spec m f n l h k : represents m f n l → aligned h k → k + pow h ≤ n → ¬ stale l h k →
  pruned_to_pos m ≤ node_pos h k ∨ pins (pruned_to_pos m) h k →
  get_node_unchecked m (node_pos h k) = Some (tree H f h k).
Proof.
  intros [Hn Hp Hs Hnd Hpi Hpd] Hk Hle Hst Hav. unfold get_node_unchecked.
  destruct (Z.ltb_spec (node_pos h k) (pruned_to_pos m)) as [Hlt|Hge].
  - apply Hpi. destruct Hav; [lia|done].
  - unfold pos_to_index. rewrite (proj2 (Z.leb_le _ _)) by lia. cbn [mbind option_bind].
    destruct (nodes m !! Z.to_nat (node_pos h k - pruned_to_pos m)) as [d|] eqn:E.
    + f_equal. by apply Hnd.
    + apply lookup_ge_None in E. pose proof (pow_pos h). destruct (Hk) as [Hk0 _].
      pose proof (proj2 (node_pos_lt h k n Hk ltac:(lia)) Hle). lia.
Qed.

Lemma set_spec m f n l h k d : represents m f n l → aligned h k → k + pow h ≤ n → pruned_to_pos m ≤ node_pos h k →
  set_node m (node_pos h k) d =
    Some (mkMmr (<[Z.to_nat (node_pos h k - pruned_to_pos m) := d]> (nodes m)) (pruned_to_pos m) (pinned_nodes m) (state m)).
Proof.
  intros [Hn Hp Hs _ _ _] Hk Hle Hge. unfold set_node, pos_to_index. rewrite (proj2 (Z.leb_le _ _)) by lia. cbn [mbind option_bind].
  pose proof (proj2 (node_pos_lt h k n Hk ltac:(lia)) Hle). by rewrite (proj2 (Nat.ltb_lt _ _)) by lia.
Qed.

(** Writing the digest of a node. *)
Lemma represents_set m f g n l l' h k d : represents m f n l → aligned h k → k + pow h ≤ n → pruned_to_pos m ≤ node_pos h k →
  d = tree H g h k →
  (∀ h' k', aligned h' k' → (h', k') ≠ (h, k) → k' + pow h' ≤ n → ¬ stale l' h' k' → ¬ stale l h' k' ∧ tree H f h' k' = tree H g h' k') →
  (∀ h' k', aligned h' k' → node_pos h' k' < pruned_to_pos m → tree H f h' k' = tree H g h' k') →
  represents (mkMmr (<[Z.to_nat (node_pos h k - pruned_to_pos m) := d]> (nodes m)) (pruned_to_pos m) (pinned_nodes m) (state m)) g n l'.
Proof.
  intros [Hn Hp Hs Hnd Hpi Hpd] Hk Hle Hge -> Ht Htp. split; cbn [nodes pruned_to_pos pinned_nodes]; [done..| | | |].
  - by rewrite length_insert.
  - intros h' k' d' Hk' Hge' Hd Hst. destruct (decide ((h', k') = (h, k))) as [[= -> ->]|Hne].
    + rewrite list_lookup_insert_eq in Hd; [by injection Hd|]. apply lookup_lt_Some in Hd. by rewrite length_insert in Hd.
    + rewrite list_lookup_insert_ne in Hd.
      2: { intros E. apply Hne. assert (node_pos h k = node_pos h' k') as E' by lia. by apply node_pos_inj in E' as [-> ->]. }
      pose proof (lookup_lt_Some _ _ _ Hd). assert (k' + pow h' ≤ n) as Hr' by (apply (node_pos_lt h' k' n Hk'); lia).
      destruct (Ht h' k' Hk' Hne Hr' Hst) as [Hst' <-]. by apply Hnd.
  - intros h' k' Hpk. rewrite <- Htp; [by apply Hpi|by apply aligned_S, Hpk|apply Hpk].
  - intros h' k' d' Hk' Hlt Hd. rewrite <- Htp by done. by apply Hpd.
Qed.
End Any.

(** ** Computing digests *)

(** The children of an inner node above a retained leaf can be read. *)
Lemma children_available p h k j : aligned (S h) k → k ≤ j < k + pow (S h) → p ≤ mmr_size j →
  (p ≤ node_pos h k ∨ pins p h k) ∧ p ≤ node_pos h (k + pow h) ∧ p ≤ node_pos (S h) k.
Proof.
  intros Hk Hj Hp. rewrite pow_S in Hj. pose proof (pow_pos h). destruct (Hk) as [Hk0 _]. pose proof (aligned_right _ _ Hk) as Hr.
  pose proof (proj2 (node_pos_ge h (k + pow h) j Hr ltac:(lia)) ltac:(lia)).
  pose proof (node_pos_right h k Hk). split; [|lia].
  destruct (decide (p ≤ node_pos h k)) as [|Hlt]; [by left|right]. split; [done|]. split; [lia|].
  pose proof (mmr_size_strict j (k + 2 * pow h) ltac:(lia) ltac:(lia)). lia.
Qed.

Lemma compute_spec (m : Mmr D Dirty) f n l h k j : represents m f n l → aligned (S h) k → k + pow (S h) ≤ n →
  k ≤ j < k + pow (S h) → pruned_to_pos m ≤ mmr_size j → ¬ stale l h k → ¬ stale l h (k + pow h) →
  compute_node H m (node_pos (S h) k) (Z.of_nat (S h)) = Some (tree H f (S h) k).
Proof.
  intros Hr Hk Hle Hj Hp H1 H2. destruct (children_available _ _ _ _ Hk Hj Hp) as (Hl & Hri & _).
  pose proof (pow_pos h). pose proof (node_pos_left h k) as El. pose proof (node_pos_right h k Hk) as Er.
  pose proof (node_pos_nonneg h k (aligned_S _ _ Hk)). unfold compute_node. rewrite Z.shiftl_1_l.
  unfold checked_sub. rewrite !(proj2 (Z.leb_le _ _)) by (rewrite ?pow_S in *; lia). cbn [mbind option_bind].
  rewrite pow_S, <- El, <- Er. rewrite pow_S in Hle.
  rewrite (get_spec m f n l h k Hr (aligned_S _ _ Hk) ltac:(lia) H1 Hl). cbn [mbind option_bind].
  rewrite (get_spec m f n l h (k + pow h) Hr (aligned_right _ _ Hk) ltac:(lia) H2 ltac:(by left)). done.
Qed.

(** What is left of a range when only its nodes change. *)
Definition same_frame {S S'} (m : Mmr D S) (m' : Mmr D S') : Prop :=
  pruned_to_pos m' = pruned_to_pos m ∧ pinned_nodes m' = pinned_nodes m.

Lemma stale_app l l' h k : stale (l ++ l') h k ↔ stale l h k ∨ stale l' h k.
Proof. apply elem_of_app. Qed.

(** The digest of one of the nodes is written. *)
Lemma represents_fill (m : Mmr D Dirty) f n l l' h k : represents m f n l → aligned h k → k + pow h ≤ n → pruned_to_pos m ≤ node_pos h k →
  (∀ x, x ∈ l → x = (node_pos h k, Z.of_nat h) ∨ x ∈ l') →
  ∃ m', set_node m (node_pos h k) (tree H f h k) = Some m' ∧ represents m' f n l' ∧ same_frame m m' ∧ state m' = state m.
Proof.
  intros Hr Hk Hle Hp Hl. rewrite (set_spec m f n l h k _ Hr Hk Hle Hp). eexists. split; [done|]. split; [|done].
  apply (represents_set m f f n l l' h k _ Hr Hk Hle Hp eq_refl); [|done].
  intros h' k' Hk' Hne _ Hst. split; [|done]. intros [[= E _]|Hx]%Hl; [|done].
  apply node_pos_inj in E as [-> ->]; done.
Qed.

Lemma serial_loop_spec f n l : ∀ m, represents m f n l → (∀ x, x ∈ l → dirty_node (pruned_to_pos m) n x) →
  StronglySorted (λ x y : Z * Z, x.2 ≤ y.2) l →
  ∃ m', serial_loop H m l = Some m' ∧ represents m' f n [] ∧ same_frame m m' ∧ state m' = state m.
Proof.
  induction l as [|x l IH]; intros m Hr Hd Hs; [by exists m|].
  apply StronglySorted_inv in Hs as [Hs Hx]. rewrite Forall_forall in Hx.
  destruct (Hd x ltac:(constructor)) as (h & k & j & -> & Hk & Hle & Hj & Hp).
  assert (∀ k', ¬ stale ((node_pos (S h) k, Z.of_nat (S h)) :: l) h k') as Hnst.
  { intros k' [[= _ E]|Hin]%elem_of_cons; [lia|]. specialize (Hx _ Hin). simpl in Hx. lia. }
  cbn [serial_loop]. rewrite (compute_spec m f n _ h k j Hr Hk Hle Hj Hp (Hnst _) (Hnst _)). cbn [mbind option_bind].
  destruct (children_available _ _ _ _ Hk Hj Hp) as (_ & _ & Hpos).
  destruct (represents_fill m f n _ l (S h) k Hr Hk Hle Hpos) as (m1 & -> & Hr1 & [Ep Epi] & Est).
  { intros y [->|Hy]%elem_of_cons; [by left|by right]. }
  cbn [mbind option_bind]. destruct (IH m1 Hr1) as (m' & E & Hr' & [Ep' Epi'] & Est'); [|done|].
  - intros y Hy. rewrite Ep. apply Hd. by constructor.
  - exists m'. split; [exact E|]. split; [done|]. split; [split; congruence|congruence].
Qed.

Lemma represents_with_dirty (m : Mmr D Dirty) f n l d : represents m f n l → represents (with_dirty m d) f n l.
Proof. intros [? ? ? ? ? ?]. by split. Qed.

Lemma sorted_heights (l : list (Z * Z)) : StronglySorted (λ x y : Z * Z, x.2 ≤ y.2) (Ordered.sort_by_key snd l).
Proof.
  pose proof (Ordered.sort_by_key_sorted snd l) as Hs. induction Hs as [|x l' Hs IH Hx]; constructor; [done|].
  eapply Forall_impl; [exact Hx|]. intros y Hn. unfold Ordered.not_above, klt in Hn. simpl in Hn. rewrite Z.compare_lt_iff in Hn. lia.
Qed.

Lemma merkleize_serial_spec m f n l : represents m f n l → (∀ x, x ∈ l → dirty_node (pruned_to_pos m) n x) →
  (∀ x, x ∈ dirty_nodes (state m) ↔ x ∈ l) →
  ∃ m', merkleize_serial H m = Some m' ∧ represents m' f n [] ∧ same_frame m m' ∧ state m' = mkDirty [].
Proof.
  intros Hr Hd Hl. unfold merkleize_serial.
  assert (∀ x, x ∈ Ordered.sort_by_key snd (dirty_nodes (state m)) ↔ x ∈ l) as Hin.
  { intros x. by rewrite Ordered.sort_by_key_perm. }
  destruct (serial_loop_spec f n (Ordered.sort_by_key snd (dirty_nodes (state m))) (with_dirty m [])) as (m' & E & Hr' & Hf & Est).
  - apply represents_with_dirty. eapply represents_ext; [done| |exact Hr]. intros h k Hst. by apply Hin.
  - intros x Hx. by apply Hd, Hin.
  - apply sorted_heights.
  - exists m'. done.
Qed.

(** ** With threads *)

Definition at_height (h : Z) (l : list Z) : list (Z * Z) := (λ pos, (pos, h)) <$> l.

Lemma write_all_spec f n h (ks : list Z) l : ∀ m, represents m f n (at_height (Z.of_nat h) ((λ k, node_pos h k) <$> ks) ++ l) →
  (∀ k, k ∈ ks → aligned h k ∧ k + pow h ≤ n ∧ pruned_to_pos m ≤ node_pos h k) →
  ∃ m', write_all m ((λ k, (node_pos h k, tree H f h k)) <$> ks) = Some m' ∧ represents m' f n l ∧ same_frame m m' ∧ state m' = state m.
Proof.
  induction ks as [|k ks IH]; intros m Hr Hk; [by exists m|]. destruct (Hk k ltac:(constructor)) as (Hka & Hle & Hp).
  destruct (represents_fill m f n _ (at_height (Z.of_nat h) ((λ k, node_pos h k) <$> ks) ++ l) h k Hr Hka Hle Hp)
    as (m1 & E1 & Hr1 & [Ep Epi] & Est).
  { intros y Hy. cbn in Hy. apply elem_of_cons in Hy as [->|Hy]; [by left|by right]. }
  cbn [fmap list_fmap write_all]. rewrite E1. cbn [mbind option_bind].
  destruct (IH m1 Hr1) as (m' & E & Hr' & [Ep' Epi'] & Est').
  { intros k' Hk'. rewrite Ep. apply Hk. by constructor. }
  exists m'. split; [exact E|]. split; [done|]. split; [split; congruence|congruence].
Qed.

(** The nodes of one height. *)
Lemma heights_nodes p n h (l : list Z) : (∀ pos, pos ∈ l → dirty_node p n (pos, Z.of_nat (S h))) →
  ∃ ks : list Z, l = (λ k, node_pos (S h) k) <$> ks ∧
    ∀ k, k ∈ ks → aligned (S h) k ∧ k + pow (S h) ≤ n ∧ ∃ j, k ≤ j < k + pow (S h) ∧ p ≤ mmr_size j.
Proof.
  induction l as [|pos l IH]; intros Hl; [exists []; split; [done|by intros ? ?%not_elem_of_nil]|].
  destruct IH as (ks & -> & Hks); [intros pos' Hp; apply Hl; by constructor|].
  destruct (Hl pos ltac:(constructor)) as (h' & k & j & [= -> E] & Hk & Hle & Hj & Hp). assert (h' = h) as -> by lia.
  exists (k :: ks). split; [done|]. intros k' [->|Hk']%elem_of_cons; [|by apply Hks]. split; [done|]. split; [done|]. by exists j.
Qed.

Lemma update_node_digests_spec (m : Mmr D Dirty) f n h (same : list Z) l : represents m f n (at_height (Z.of_nat (S h)) same ++ l) →
  (∀ pos, pos ∈ same → dirty_node (pruned_to_pos m) n (pos, Z.of_nat (S h))) →
  (∀ x, x ∈ l → Z.of_nat (S h) ≤ x.2) →
  ∃ m', update_node_digests H m same (Z.of_nat (S h)) = Some m' ∧ represents m' f n l ∧ same_frame m m' ∧ state m' = state m.
Proof.
  intros Hr Hd Hl. destruct (heights_nodes _ _ _ _ Hd) as (ks & -> & Hks). unfold update_node_digests. rewrite map_option_fmap.
  assert (∀ k, ¬ stale (at_height (Z.of_nat (S h)) ((λ k, node_pos (S h) k) <$> ks) ++ l) h k) as Hnst.
  { intros k [Hx|Hx%Hl]%elem_of_app; [|simpl in Hx; lia]. apply list_elem_of_fmap in Hx as (? & [= _ ?] & _). lia. }
  rewrite (map_option_ok _ (λ k, (node_pos (S h) k, tree H f (S h) k))).
  2: { intros k Hk. destruct (Hks k Hk) as (Hka & Hle & j & Hj & Hp). by rewrite (compute_spec m f n _ h k j Hr Hka Hle Hj Hp (Hnst _) (Hnst _)). }
  cbn [mbind option_bind]. apply (write_all_spec f n (S h) ks l m Hr). intros k Hk. destruct (Hks k Hk) as (Hka & Hle & j & Hj & Hp).
  split; [done|]. split; [done|]. by destruct (children_available _ _ _ _ Hka Hj Hp) as (_ & _ & ?).
Qed.

(** What was not computed goes back to the set. *)
Lemma fall_back_spec (m : Mmr D Dirty) f n skipped rest : represents m f n rest → (∀ x, x ∈ rest → dirty_node (pruned_to_pos m) n x) →
  ∃ m', merkleize_serial H (with_dirty m (Ordered.set_from_iter_dedup (drop (length skipped) (skipped ++ rest)))) = Some m' ∧
    represents m' f n [] ∧ same_frame m m' ∧ state m' = mkDirty [].
Proof.
  intros Hr Hd. rewrite drop_app_length.
  apply (merkleize_serial_spec (with_dirty m (Ordered.set_from_iter_dedup rest)) f n rest).
  - by apply represents_with_dirty.
  - done.
  - apply Ordered.set_from_iter_dedup_spec.
Qed.

Definition steps_down (l : list (Z * Z)) : Prop := ∀ x, x ∈ l → 2 ≤ x.2 → ∃ y, y ∈ l ∧ y.2 = x.2 - 1.

Lemma parallel_loop_spec f n min all : StronglySorted (λ x y : Z * Z, x.2 ≤ y.2) all → steps_down all →
  ∀ rest i (same : list Z) h m before, all = before ++ at_height (Z.of_nat (S h)) same ++ rest → i = (length before + length same)%nat →
  represents m f n (at_height (Z.of_nat (S h)) same ++ rest) → (∀ x, x ∈ all → dirty_node (pruned_to_pos m) n x) →
  (∀ x, x ∈ before → x.2 < Z.of_nat (S h)) → (∀ x, x ∈ rest → Z.of_nat (S h) ≤ x.2) → state m = mkDirty [] →
  ∃ m', parallel_loop H min all rest i same (Z.of_nat (S h)) m = Some m' ∧ represents m' f n [] ∧ same_frame m m' ∧ state m' = mkDirty [].
Proof.
  intros Hsort Hdown. induction rest as [|[pos height] rest IH]; intros i same h m before Eall Ei Hr Hd Hb Hrest Hst; cbn [parallel_loop].
  - rewrite app_nil_r in *. destruct (Nat.ltb_spec (length same) min).
    + replace (length all - length same)%nat with (length before) by (rewrite Eall, length_app; unfold at_height; rewrite length_fmap; lia).
      rewrite Eall. apply (fall_back_spec m f n before _ Hr). intros x Hx. apply Hd. rewrite Eall. apply elem_of_app. by right.
    + destruct (update_node_digests_spec m f n h same []) as (m' & E & Hr' & Hf & Est); [by rewrite app_nil_r| |by intros ? ?%not_elem_of_nil|].
      * intros pos Hp. apply Hd. rewrite Eall. apply elem_of_app. right. by apply (list_elem_of_fmap_2 (λ pos, (pos, _))).
      * exists m'. by rewrite Est.
  - destruct (Z.eqb_spec height (Z.of_nat (S h))) as [->|Hne].
    { apply (IH (S i) (same ++ [pos]) h m before); try done.
      - rewrite Eall. unfold at_height. by rewrite fmap_app, <- app_assoc.
      - rewrite length_app. simpl. lia.
      - unfold at_height in *. by rewrite fmap_app, <- app_assoc.
      - intros x Hx. apply Hrest. by constructor. }
    destruct (Nat.ltb_spec (length same) min).
    { replace (i - length same)%nat with (length before) by lia. rewrite Eall. apply (fall_back_spec m f n before _ Hr).
      intros x Hx. apply Hd. rewrite Eall. apply elem_of_app. by right. }
    pose proof (Hrest (pos, height) ltac:(constructor)) as Hge. simpl in Hge.
    assert (∀ x, x ∈ rest → height ≤ x.2) as Hafter.
    { rewrite Eall in Hsort. apply StronglySorted_app in Hsort as (_ & _ & Hsort). apply StronglySorted_app in Hsort as (_ & _ & Hsort).
      apply StronglySorted_inv in Hsort as [_ Hsort]. rewrite Forall_forall in Hsort. done. }
    assert (height = Z.of_nat (S (S h))) as ->.
    { destruct (Hdown (pos, height)) as (y & Hy & Ey); [rewrite Eall; set_solver|simpl; lia|]. simpl in Ey. rewrite Eall in Hy.
      apply elem_of_app in Hy as [Hy|[Hy|[->|Hy]%elem_of_cons]%elem_of_app]; [specialize (Hb _ Hy); lia| |simpl in Ey; lia|specialize (Hafter _ Hy); lia].
      apply list_elem_of_fmap in Hy as (p' & -> & _). simpl in Ey. lia. }
    destruct (update_node_digests_spec m f n h same ((pos, Z.of_nat (S (S h))) :: rest)) as (m1 & -> & Hr1 & [Ep Epi] & Est); [done| | |].
    + intros pos' Hp. apply Hd. rewrite Eall. apply elem_of_app. right. apply elem_of_app. left. by apply (list_elem_of_fmap_2 (λ pos, (pos, _))).
    + intros x [->|Hx]%elem_of_cons; [simpl; lia|]. specialize (Hafter _ Hx). lia.
    + cbn [mbind option_bind]. replace (Z.of_nat (S h) + 1) with (Z.of_nat (S (S h))) by lia.
      destruct (IH (S i) [pos] (S h) m1 (before ++ at_height (Z.of_nat (S h)) same)) as (m' & E & Hr' & [Ep' Epi'] & Est'); try done.
      * rewrite Eall, <- app_assoc. done.
      * rewrite length_app. unfold at_height. rewrite length_fmap. simpl. lia.
      * intros x Hx. rewrite Ep. by apply Hd.
      * intros x [Hx|Hx]%elem_of_app; [specialize (Hb _ Hx); lia|]. apply list_elem_of_fmap in Hx as (p' & -> & _). simpl. lia.
      * by rewrite Est.
      * exists m'. split; [exact E|]. split; [done|]. split; [split; congruence|done].
Qed.

Lemma dirty_steps_down p n l : dirty_ok p n l → steps_down l.
Proof.
  intros [Hn _ Hdown] x Hx Hge. destruct (Hn x Hx) as (h & k & j & -> & Hk & Hle & Hj & Hp). simpl in Hge.
  destruct h as [|h]; [lia|]. destruct (Hdown h k Hx Hk) as (k' & Hk' & Hst). eexists. split; [exact Hst|]. simpl. lia.
Qed.

(** ** A clean range *)

Record clean_range (m : Mmr D (Clean D)) f (n : Z) : Prop := {
  cr_represents : represents m f n [];
  cr_root : root (state m) = range_root H f n;
}.

Lemma computed_spec (m : Mmr D Dirty) pool f n : represents m f n (dirty_nodes (state m)) →
  dirty_ok (pruned_to_pos m) n (dirty_nodes (state m)) →
  ∃ m', (if pool && (MIN_TO_PARALLELIZE <=? length (dirty_nodes (state m)))%nat
         then merkleize_parallel H m MIN_TO_PARALLELIZE else merkleize_serial H m) = Some m' ∧
    represents m' f n [] ∧ same_frame m m' ∧ state m' = mkDirty [].
Proof.
  intros Hr Hd. destruct (pool && _).
  - unfold merkleize_parallel. set (all := Ordered.sort_by_key snd (dirty_nodes (state m))).
    assert (∀ x, x ∈ all ↔ x ∈ dirty_nodes (state m)) as Hin by (intros x; unfold all; by rewrite Ordered.sort_by_key_perm).
    destruct (parallel_loop_spec f n MIN_TO_PARALLELIZE all (sorted_heights _)) with
      (rest := all) (i := 0%nat) (same := @nil Z) (h := 0%nat) (m := with_dirty m []) (before := @nil (Z * Z)) as (m' & E & Hr' & Hf & Est); try done.
    + intros x Hx Hge. destruct (dirty_steps_down _ _ _ Hd x (proj1 (Hin x) Hx) Hge) as (y & Hy & Ey). exists y. by rewrite Hin.
    + apply represents_with_dirty. eapply represents_ext; [done| |exact Hr]. intros h k Hst. by apply Hin.
    + intros x Hx. by apply Hd, Hin.
    + by intros ? ?%not_elem_of_nil.
    + intros x Hx. apply Hin, Hd in Hx as (h & k & j & -> & _). simpl. lia.
    + by exists m'.
  - apply (merkleize_serial_spec m f n (dirty_nodes (state m)) Hr); [apply Hd|done].
Qed.

Lemma peak_available {S} (m : Mmr D S) f n l x : represents m f n l → x ∈ peak_nodes 63 0 n →
  aligned x.1 x.2 ∧ x.2 + pow x.1 ≤ n ∧ (pruned_to_pos m ≤ node_pos x.1 x.2 ∨ pins (pruned_to_pos m) x.1 x.2).
Proof.
  intros Hr Hx. pose proof (represents_fits _ _ _ _ Hr) as [_ Hf]. destruct Hr as [Hn Hp Hs _ _ _]. pose proof leaves_fit.
  destruct (peak_nodes_spec 63 0 n x (aligned_zero _) ltac:(lia) Hx) as (Hk & _ & Hk0 & H1 & H2 & HS). split; [done|]. split; [lia|].
  destruct (decide (pruned_to_pos m ≤ node_pos x.1 x.2)) as [|Hlt]; [by left|right]. split; [done|]. split; [lia|].
  pose proof (mmr_size_strict n (x.2 + 2 * pow x.1) ltac:(lia) ltac:(lia)). lia.
Qed.

Lemma peak_digests_spec {S} (m : Mmr D S) f n : represents m f n [] →
  map_option (λ peak : Z * Z, get_node_unchecked m peak.1) ((λ x, (node_pos x.1 x.2, Z.of_nat x.1)) <$> peak_nodes 63 0 n) =
    Some ((λ x, tree H f x.1 x.2) <$> peak_nodes 63 0 n).
Proof.
  intros Hr. pose proof (λ x, peak_available m f n [] x Hr) as Hav. rewrite map_option_fmap. revert Hav. generalize (peak_nodes 63 0 n).
  intros l Hav. apply map_option_ok. intros x Hx. destruct (Hav x Hx) as (Hk & Hle & Ha). cbn [fst].
  apply (get_spec m f n []); try done. apply not_elem_of_nil.
Qed.

Lemma merkleize_steps (m m1 : Mmr D Dirty) pool peaks digests sz :
  (if pool && (MIN_TO_PARALLELIZE <=? length (dirty_nodes (state m)))%nat
   then merkleize_parallel H m MIN_TO_PARALLELIZE else merkleize_serial H m) = Some m1 →
  peak_items m1 = Some peaks → map_option (λ peak : Z * Z, get_node_unchecked m1 peak.1) peaks = Some digests →
  MmrMem.size m1 = Some sz →
  merkleize H m pool = Some (mkMmr (nodes m1) (pruned_to_pos m1) (pinned_nodes m1) (mkClean (root_digest H sz digests))).
Proof. intros E1 E2 E3 E4. unfold merkleize. rewrite E1. simpl. rewrite E2. simpl. rewrite E3. simpl. by rewrite E4. Qed.

Lemma merkleize_spec (m : Mmr D Dirty) pool f n : represents m f n (dirty_nodes (state m)) →
  dirty_ok (pruned_to_pos m) n (dirty_nodes (state m)) →
  ∃ m', merkleize H m pool = Some m' ∧ clean_range m' f n ∧ same_frame m m'.
Proof.
  intros Hr Hd. destruct (computed_spec m pool f n Hr Hd) as (m1 & E & Hr1 & Hf & _). eexists. split.
  - exact (merkleize_steps m m1 pool _ _ _ E (peak_items_spec m1 f n [] Hr1) (peak_digests_spec m1 f n Hr1) (size_spec m1 f n [] Hr1)).
  - split; [|exact Hf]. split; [by destruct Hr1|]. reflexivity.
Qed.

(** A range that is clean is determined by what it represents, what was pruned and
    what is pinned. *)
Lemma represents_unique {S S'} (m : Mmr D S) (m' : Mmr D S') f n : represents m f n [] → represents m' f n [] →
  pruned_to_pos m' = pruned_to_pos m → nodes m' = nodes m.
Proof.
  intros [Hn Hp Hs Hnd _ _] [_ _ Hs' Hnd' _ _] Ep. rewrite Ep in *.
  assert (length (nodes m') = length (nodes m)) as Hl by lia. apply list_eq_same_length with (length (nodes m)); [done..|].
  intros i d d' Hi Hd Hd'. destruct (node_at n ltac:(lia) (Z.of_nat i + pruned_to_pos m) ltac:(lia)) as (h & k & Hk & Hle & Epos).
  assert (i = Z.to_nat (node_pos h k - pruned_to_pos m)) as Ei by lia. rewrite Ei in Hd, Hd'.
  rewrite (Hnd h k d' Hk) by (done || lia || apply not_elem_of_nil). apply (Hnd' h k d Hk); [lia|done|apply not_elem_of_nil].
Qed.
End Spec.
End MmrMemSpec.
