(* ===== verification/MmrMemOps.v ===== *)
(** * The operations of the range in memory (storage/src/mmr/mem.rs)

    What each operation does to the leaves a range represents, and that it keeps
    the invariant of [MmrMemSpec]. *)

From S2P Require Import Prelude Codec CodecTypes CodecOrdered Ordered.
From S2P Require Import MmrPosition MmrIterator MmrTree MmrProof MmrSoundness MmrCompleteness MmrStore MmrMulti MmrMem MmrMemSpec.
Import CodecTypes CodecOrdered Mmr MmrIterator MmrProof MmrSoundness MmrCompleteness MmrStore MmrMulti MmrMem MmrMemSpec.

Module MmrMemOps.

Lemma elem_of_set_insert {K} `{!Ord K} (x y : K) s : x ∈ set_insert y s ↔ x = y ∨ x ∈ s.
Proof.
  induction s as [|z s IH]; simpl; [set_solver|]. destruct (cmp y z) eqn:E; [|set_solver|].
  - apply cmp_eq in E as ->. set_solver.
  - rewrite !elem_of_cons, IH. tauto.
Qed.

Section Ops.
Context {D : Type} (H : Hasher D) (EMPTY : D).
Implicit Types f : Z → D.
Notation Dirty_ := (Mmr D Dirty).
Notation Clean_ := (Mmr D (Clean D)).

Record dirty_range (m : Dirty_) f (n : Z) : Prop := {
  dr_represents : represents H m f n (dirty_nodes (state m));
  dr_ok : dirty_ok (pruned_to_pos m) n (dirty_nodes (state m));
}.

Lemma dirty_ok_nil p n : dirty_ok p n [].
Proof. split; [by intros ? ?%not_elem_of_nil|by intros i j _ ?%not_elem_of_nil|by intros h k ?%not_elem_of_nil]. Qed.

Lemma into_dirty_spec (m : Clean_) f n : clean_range H m f n → dirty_range (into_dirty m) f n.
Proof. intros [[? ? ? ? ? ?] _]. split; [by split|apply dirty_ok_nil]. Qed.

Lemma dirty_merkleize (m : Dirty_) pool f n : dirty_range m f n → ∃ m', merkleize H m pool = Some m' ∧ clean_range H m' f n ∧ same_frame m m'.
Proof. intros [Hr Hd]. by apply merkleize_spec. Qed.

Lemma new_spec f : dirty_range (@DirtyMmr.new D) f 0.
Proof.
  split; [|apply dirty_ok_nil]. split; cbn; try done.
  - intros h k (Hk & Hlt & _). pose proof (node_pos_nonneg h k (aligned_S _ _ Hk)). lia.
Qed.

(** ** Adding a leaf *)

Definition upd f (j : Z) (d : D) (i : Z) : D := if i =? j then d else f i.

Lemma upd_other f j d i : i ≠ j → upd f j d i = f i.
Proof. intros Hne. unfold upd. by rewrite (proj2 (Z.eqb_neq _ _)). Qed.
Lemma upd_same f j d : upd f j d j = d.
Proof. unfold upd. by rewrite Z.eqb_refl. Qed.

Lemma tree_upd f j d h k : ¬ k ≤ j < k + pow h → tree H (upd f j d) h k = tree H f h k.
Proof. intros Hj. apply tree_ext. intros i Hi. apply upd_other. lia. Qed.

Lemma add_parents_spec needing : ∀ (m : Dirty_) height s, Z.of_nat (length (nodes m)) + pruned_to_pos m = s →
  s + Z.of_nat (length needing) < 2 ^ 64 →
  ∃ m', DirtyMmr.add_parents EMPTY m needing height = Some m' ∧ nodes m' = nodes m ++ replicate (length needing) EMPTY ∧ same_frame m m' ∧
    ∀ x, x ∈ dirty_nodes (state m') ↔ x ∈ dirty_nodes (state m) ∨ ∃ i, (i < length needing)%nat ∧ x = (s + Z.of_nat i, height + Z.of_nat i).
Proof.
  induction needing as [|y needing IH]; intros m height s Hs Hmax.
  { exists m. simpl. rewrite app_nil_r. split; [done|]. split; [done|]. split; [done|]. intros x. split; [by left|intros [?|(i & ? & _)]; [done|lia]]. }
  cbn [DirtyMmr.add_parents length] in *. unfold MmrMem.size, checked_add. rewrite Hs, (proj2 (Z.ltb_lt _ _)) by lia. cbn [mbind option_bind].
  destruct (IH (with_dirty (push m EMPTY) (set_insert (s, height) (dirty_nodes (state (push m EMPTY))))) (height + 1) (s + 1))
    as (m' & E & En & [Ep Epi] & Hin); [cbn; rewrite length_app; cbn; lia|lia|].
  exists m'. split; [exact E|]. split; [rewrite En; cbn; by rewrite <- app_assoc|]. split; [by split|].
  intros x. rewrite Hin. cbn. rewrite elem_of_set_insert. split.
  - intros [[->|?]|(i & Hi & ->)]; [right; exists 0%nat; split; [lia|f_equal; lia]|by left|right].
    exists (S i). split; [lia|f_equal; lia].
  - intros [?|([|i] & Hi & ->)]; [by left; right|left; left; f_equal; lia|right]. exists i. split; [lia|f_equal; lia].
Qed.

(** The nodes that end with the leaf [n]. *)
Lemma last_node n h k : 0 ≤ n → aligned h k → k + pow h = n + 1 → node_pos h k = mmr_size n + Z.of_nat h ∧ Z.of_nat h ≤ trailing_ones n.
Proof.
  intros Hn Hk E. split.
  - rewrite node_pos_last by done. by replace (k + pow h - 1) with n by lia.
  - pose proof (aligned_end h k Hk) as He. rewrite E in He. pose proof (trailing_ones_aligned h (n + 1) He ltac:(lia)) as Ht.
    by replace (n + 1 - 1) with n in Ht by lia.
Qed.

Lemma last_node_inv n h : 0 ≤ n → Z.of_nat h ≤ trailing_ones n → aligned h (n + 1 - pow h).
Proof.
  intros Hn Ht. destruct (trailing_ones_aligned_inv h n Hn Ht) as [_ [a Ea]]. pose proof (pow_pos h). assert (0 < a) by nia.
  split; [nia|]. exists (a - 1). lia.
Qed.

Lemma last_node_only n h k : 0 ≤ n → aligned h k → node_pos h k = mmr_size n + Z.of_nat h → Z.of_nat h ≤ trailing_ones n → k + pow h = n + 1.
Proof.
  intros Hn Hk E Ht. pose proof (last_node_inv n h Hn Ht) as Hk'. pose proof (pow_pos h).
  destruct (last_node n h (n + 1 - pow h) Hn Hk' ltac:(lia)) as [E' _]. rewrite <- E' in E.
  apply node_pos_inj in E as [_ ->]; [lia|done..].
Qed.

Lemma add_dirty_ok p n l l' : 0 ≤ n → p ≤ mmr_size n → dirty_ok p n l →
  (∀ x, x ∈ l' ↔ x ∈ l ∨ ∃ h, (1 ≤ h)%nat ∧ Z.of_nat h ≤ trailing_ones n ∧ x = (mmr_size n + Z.of_nat h, Z.of_nat h)) →
  dirty_ok p (n + 1) l'.
Proof.
  intros Hn Hp [Hnode Hup Hdown] Hl.
  assert (∀ h k, aligned h k → (1 ≤ h)%nat → k + pow h = n + 1 → stale l' h k) as Hnew.
  { intros h k Hk Hh E. apply Hl. right. destruct (last_node n h k Hn Hk E) as [-> Ht]. by exists h. }
  split.
  - intros x [Hx|([|h] & Hh & Ht & ->)]%Hl; [|lia|].
    + destruct (Hnode x Hx) as (h & k & j & -> & Hk & Hle & Hj & Hpj). exists h, k, j. split; [done|]. split; [done|]. split; [lia|done].
    + pose proof (last_node_inv n (S h) Hn Ht) as Hk. pose proof (pow_pos (S h)). exists h, (n + 1 - pow (S h)), n.
      destruct (last_node n (S h) _ Hn Hk ltac:(lia)) as [-> _]. split; [done|]. split; [done|]. split; [lia|]. split; [lia|done].
  - intros i j Hj Hst Hle. pose proof (anc_aligned (S (S i)) j Hj) as Ha. pose proof (anc_S (S i) j Hj).
    destruct (decide (anc (S (S i)) j + pow (S (S i)) = n + 1)) as [E|Hne]; [apply Hnew; [done|lia|done]|].
    apply Hl in Hst as [Hst|(h & Hh & Ht & [= E Eh])].
    + apply Hl. left. apply Hup; [done..|lia].
    + assert (h = S i) as -> by lia. apply last_node_only in E; [|done|by apply anc_aligned|lia]. lia.
  - intros h k Hst Hk. apply Hl in Hst as [Hst|(h' & Hh & Ht & [= E Eh])].
    + destruct (Hdown h k Hst Hk) as (k' & Hk' & Hst'). exists k'. split; [done|]. apply Hl. by left.
    + assert (h' = S (S h)) as -> by lia. apply last_node_only in E; [|done|done|lia]. exists (k + pow (S h)).
      split; [by right|]. apply Hnew; [by apply aligned_right|lia|]. rewrite (pow_S (S h)) in E. lia.
Qed.

Lemma needing_count n : 0 ≤ n ≤ 2 ^ 62 → ∃ needing, nodes_needing_parents (mmr_size n) = Some needing ∧
  Z.of_nat (length needing) = trailing_ones n ∧ mmr_size (n + 1) = mmr_size n + 1 + trailing_ones n.
Proof.
  intros Hn. destruct (nodes_needing_parents_correct n Hn) as (E1 & E2 & E3). eexists. split; [exact E1|]. split; [exact E2|].
  rewrite E2 in E3. exact E3.
Qed.

Lemma add_steps (m m' : Dirty_) d s needing : MmrMem.size m = Some s → nodes_needing_parents s = Some needing →
  DirtyMmr.add_parents EMPTY (push m d) needing 1 = Some m' → DirtyMmr.add_leaf_digest EMPTY m d = Some (s, m').
Proof. intros E1 E2 E3. unfold DirtyMmr.add_leaf_digest. rewrite E1. simpl. rewrite E2. simpl. by rewrite E3. Qed.

Lemma add_spec (m : Dirty_) f n d : dirty_range m f n → n < MAX_LOCATION →
  ∃ m', DirtyMmr.add_leaf_digest EMPTY m d = Some (mmr_size n, m') ∧ dirty_range m' (upd f n d) (n + 1) ∧ same_frame m m'.
Proof.
  intros [Hr Hd] Hlt. pose proof (represents_fits _ _ _ _ _ Hr) as [Hfit Hn62]. pose proof (size_spec H _ _ _ _ Hr) as Esz.
  destruct Hr as [Hn Hp Hs Hnd Hpi Hpd]. destruct (needing_count n ltac:(lia)) as (needing & Eneed & Ht & Esucc).
  unfold MAX_POSITION in Hfit.
  pose proof (mmr_size_strict (n + 1) (2 ^ 62) ltac:(lia)) as Hm. rewrite mmr_size_62 in Hm.
  assert (2 ^ 62 = MAX_LOCATION + 1) as E62 by reflexivity.
  destruct (add_parents_spec needing (push m d) 1 (mmr_size n + 1)) as (m' & Eadd & En & [Ep Epi] & Hin); [cbn; rewrite length_app; cbn; lia|lia|].
  exists m'. split; [exact (add_steps m m' d _ needing Esz Eneed Eadd)|]. cbn in En, Ep, Epi, Hin. split; [|done].
  assert (∀ x, x ∈ dirty_nodes (state m') ↔ x ∈ dirty_nodes (state m) ∨
    ∃ h, (1 ≤ h)%nat ∧ Z.of_nat h ≤ trailing_ones n ∧ x = (mmr_size n + Z.of_nat h, Z.of_nat h)) as Hin'.
  { intros x. rewrite Hin. apply or_iff_compat_l. split.
    - intros (i & Hi & ->). exists (S i). split; [lia|]. split; [lia|f_equal; lia].
    - intros ([|h] & Hh & Hth & ->); [lia|]. exists h. split; [lia|f_equal; lia]. }
  split; [|rewrite Ep; apply (add_dirty_ok _ n (dirty_nodes (state m))); [lia|lia|done|done]].
  assert (∀ h k, aligned h k → k + pow h ≤ n → tree H (upd f n d) h k = tree H f h k) as Htree.
  { intros h k Hk Hle. apply tree_upd. lia. }
  split; rewrite ?Ep, ?Epi; [lia|done| | | |].
  - rewrite En, !length_app, length_replicate. cbn. lia.
  - intros h k d' Hk Hge Hd' Hst. destruct (decide (k + pow h ≤ n)) as [Hle|Hgt].
    + rewrite Htree by done. pose proof (proj2 (node_pos_lt h k n Hk ltac:(lia)) Hle).
      rewrite En, <- app_assoc, lookup_app_l in Hd' by lia. apply Hnd; [done..|]. intros Hst'. apply Hst, Hin'. by left.
    + apply lookup_lt_Some in Hd' as Hlen. rewrite En, !length_app, length_replicate in Hlen. cbn in Hlen.
      assert (k + pow h = n + 1) as Elast by (apply Z.le_antisymm; [|lia]; apply (node_pos_lt h k (n + 1) Hk); lia).
      destruct (last_node n h k ltac:(lia) Hk Elast) as [Epos Hth]. destruct h as [|h].
      * rewrite Epos in Hd'. simpl. cbn in Elast. rewrite En, <- app_assoc in Hd'.
        rewrite lookup_app_r in Hd' by lia. replace (Z.to_nat (mmr_size n + Z.of_nat 0 - pruned_to_pos m) - length (nodes m))%nat with 0%nat in Hd' by lia.
        injection Hd' as <-. replace k with n by lia. by rewrite upd_same.
      * destruct Hst. apply Hin'. right. exists (S h). rewrite Epos. split; [lia|done].
  - intros h k Hpk. rewrite Htree; [by apply Hpi|by apply aligned_S, Hpk|]. destruct Hpk as (Hk & Hlt' & _).
    apply (node_pos_lt h k n (aligned_S _ _ Hk)); lia.
  - intros h k d' Hk Hlt' Hd'. rewrite Htree; [by apply Hpd|done|]. apply (node_pos_lt h k n Hk); lia.
Qed.

(** ** Removing a leaf *)

Lemma trailing_small n : 0 ≤ n < 2 ^ 62 → trailing_ones n ≤ 62.
Proof.
  intros Hn. pose proof (trailing_ones_le n ltac:(lia)) as Ht. destruct (Z.leb_spec (trailing_ones n) 62) as [|Hgt]; [done|].
  pose proof (last_node_inv n 63 ltac:(lia) ltac:(lia)) as [Hk _]. change (pow 63) with (2 ^ 63) in Hk. lia.
Qed.

Lemma pop_loop_spec n p : 0 ≤ n < 2 ^ 62 → ∀ fuel s, mmr_size n ≤ s < mmr_size (n + 1) → p - 1 ≤ s → s - mmr_size n < Z.of_nat fuel →
  DirtyMmr.pop_loop fuel s p = Some (if mmr_size n <? p then Err (ElementPruned (p - 1)) else Ok (mmr_size n)).
Proof.
  intros Hn. pose proof (mmr_size_nonneg n ltac:(lia)). pose proof (mmr_size_mono (n + 1) (2 ^ 62) ltac:(lia) ltac:(lia)) as [Hm _].
  rewrite mmr_size_62 in Hm. induction fuel as [|fuel IH]; intros s Hs Hp Hf; [lia|]. cbn [DirtyMmr.pop_loop].
  destruct (Z.ltb_spec s p).
  { rewrite (proj2 (Z.ltb_lt _ _)) by lia. do 3 f_equal. lia. }
  destruct (is_mmr_size_spec s ltac:(lia)) as (v & -> & Hv). cbn [mbind option_bind]. destruct v.
  - destruct (proj1 Hv eq_refl) as (n' & Hn' & ->). assert (n' = n) as ->.
    { pose proof (mmr_size_mono n' n ltac:(lia) ltac:(lia)). pose proof (mmr_size_mono n n' ltac:(lia) ltac:(lia)).
      pose proof (mmr_size_mono (n + 1) n' ltac:(lia) ltac:(lia)). lia. }
    by rewrite (proj2 (Z.ltb_ge _ _)) by lia.
  - assert (s ≠ mmr_size n) as Hne by (intros ->; assert (false = true) by (apply Hv; exists n; lia); done).
    unfold checked_sub. rewrite (proj2 (Z.leb_le _ _)) by lia. cbn [mbind option_bind]. apply IH; lia.
Qed.

Lemma cutoff_spec (x : Z * Z) c : 0 ≤ x.2 → cmp x (c, 0) = Lt ↔ x.1 < c.
Proof. intros Hx. simpl. destruct (Z.compare_spec x.1 c); [|naive_solver|split; [done|lia]]. rewrite Z.compare_lt_iff. lia. Qed.

Lemma pop_dirty_ok p n l : 0 ≤ n → dirty_ok p (n + 1) l → dirty_ok p n (filter (λ x, cmp x (mmr_size n, 0) = Lt) l).
Proof.
  intros Hn [Hnode Hup Hdown].
  assert (∀ h k, aligned h k → stale (filter (λ x, cmp x (mmr_size n, 0) = Lt) l) h k ↔ stale l h k ∧ k + pow h ≤ n) as Hst.
  { intros h k Hk. unfold stale. rewrite list_elem_of_filter, cutoff_spec by (simpl; lia). cbn [fst]. rewrite node_pos_lt by done. tauto. }
  split.
  - intros x Hx. apply list_elem_of_filter in Hx as [Hlt Hx]. destruct (Hnode x Hx) as (h & k & j & -> & Hk & Hle & Hj & Hp).
    exists h, k, j. split; [done|]. split; [done|]. split; [|done]. apply cutoff_spec in Hlt; [|simpl; lia]. by apply node_pos_lt in Hlt.
  - intros i j Hj H1 Hle. apply Hst; [by apply anc_aligned|]. apply Hst in H1 as [H1 _]; [|by apply anc_aligned].
    split; [|done]. apply Hup; [done..|lia].
  - intros h k H1 Hk. apply Hst in H1 as [H1 Hle]; [|done]. destruct (Hdown h k H1 Hk) as (k' & Hk' & Hst'). exists k'. split; [done|].
    pose proof (pow_S (S h)). pose proof (pow_pos (S h)). apply Hst; [|split; [done|]].
    + destruct Hk' as [-> | ->]; [by apply aligned_S|by apply aligned_right].
    + destruct Hk' as [-> | ->]; lia.
Qed.

Lemma pop_spec (m : Dirty_) f n : dirty_range m f n →
  if n =? 0 then DirtyMmr.pop m = Some (Err Empty, m)
  else if mmr_size (n - 1) <? pruned_to_pos m then DirtyMmr.pop m = Some (Err (ElementPruned (pruned_to_pos m - 1)), m)
  else ∃ m', DirtyMmr.pop m = Some (Ok (mmr_size (n - 1)), m') ∧ dirty_range m' f (n - 1) ∧ same_frame m m'.
Proof.
  intros [Hr Hd]. pose proof (represents_fits _ _ _ _ _ Hr) as [Hfit Hn62]. pose proof (size_spec H _ _ _ _ Hr) as Esz.
  destruct Hr as [Hn Hp Hs Hnd Hpi Hpd]. unfold MAX_POSITION in Hfit. unfold DirtyMmr.pop. rewrite Esz. cbn [mbind option_bind].
  destruct (Z.eqb_spec n 0) as [->|Hne]; [done|]. pose proof (mmr_size_strict (n - 1) n ltac:(lia) ltac:(lia)) as Hlt.
  pose proof (mmr_size_nonneg (n - 1) ltac:(lia)). destruct (Z.eqb_spec (mmr_size n) 0); [lia|].
  unfold checked_sub. rewrite (proj2 (Z.leb_le 1 _)) by lia. cbn [mbind option_bind].
  pose proof (mmr_size_succ (n - 1) ltac:(lia)) as Esucc. replace (n - 1 + 1) with n in Esucc by lia.
  pose proof (trailing_small (n - 1) ltac:(lia)).
  rewrite (pop_loop_spec (n - 1)) by (replace (n - 1 + 1) with n by lia; lia). cbn [mbind option_bind].
  destruct (Z.ltb_spec (mmr_size (n - 1)) (pruned_to_pos m)) as [|Hge]; [done|].
  rewrite (proj2 (Z.leb_le (mmr_size (n - 1)) _)) by lia. cbn [mbind option_bind].
  rewrite (proj2 (Z.leb_le _ _)) by lia. cbn [mbind option_bind].
  set (keep := Z.to_nat (Z.of_nat (length (nodes m)) - (mmr_size n - mmr_size (n - 1)))).
  set (m1 := mkMmr (take keep (nodes m)) (pruned_to_pos m) (pinned_nodes m) (state m)).
  assert (Z.of_nat (length (nodes m1)) + pruned_to_pos m = mmr_size (n - 1)) as Es1 by (cbn; rewrite length_take; lia).
  assert (MmrMem.size m1 = Some (mmr_size (n - 1))) as Es2.
  { unfold MmrMem.size, checked_add. change (pruned_to_pos m1) with (pruned_to_pos m). by rewrite Es1, (proj2 (Z.ltb_lt _ _)) by lia. }
  fold m1. rewrite Es2. cbn [mbind option_bind]. eexists. split; [reflexivity|]. split; [|done]. split.
  - split; cbn; [lia|done|exact Es1| |done|done].
    intros h k d Hk Hle Hd' Hst. apply Hnd; [done|done| |].
    + apply lookup_take_Some in Hd' as [Hd' _]. exact Hd'.
    + intros Hst'. apply Hst, list_elem_of_filter. split; [|exact Hst'].
      apply (cutoff_spec (node_pos h k, Z.of_nat h) (mmr_size (n - 1))); [cbn [snd]; lia|]. cbn [fst].
      apply lookup_lt_Some in Hd'. change (take keep (nodes m)) with (nodes m1) in Hd'. lia.
  - apply pop_dirty_ok; [lia|]. cbn. by replace (n - 1 + 1) with n by lia.
Qed.

(** ** Changing leaves *)

Lemma path_parents h : ∀ k j, aligned h k → k ≤ j < k + pow h →
  (rev (path_to h (mmr_size k) (j - k))).*1 = (λ i, node_pos (S i) (anc (S i) j)) <$> seq 0 h.
Proof.
  induction h as [|h IH]; intros k j Hk Hj; [done|]. rewrite path_cons by done. rewrite seq_S, fmap_app. cbn [fmap list_fmap plus].
  rewrite (anc_unique (S h) k j Hk Hj). rewrite pow_S in Hj. pose proof (pow_pos h).
  destruct (Z.leb_spec (k + pow h) j); cbn [rev]; rewrite fmap_app, IH; try done; try lia; [by apply aligned_right|by apply aligned_S].
Qed.

(** The ancestors of a leaf from the height [S i] on. *)
Definition ancestor (j : Z) (i : nat) : Z * Z := (node_pos (S i) (anc (S i) j), Z.of_nat (S i)).

Lemma mark_path_spec j len : ∀ path dirty i, path.*1 = (λ i, node_pos (S i) (anc (S i) j)) <$> seq i len →
  (∀ i', (i ≤ i')%nat → (S i' < i + len)%nat → ancestor j i' ∈ dirty → ancestor j (S i') ∈ dirty) →
  ∀ x, x ∈ DirtyMmr.mark_path dirty path (Z.of_nat (S i)) ↔ x ∈ dirty ∨ ∃ i', (i ≤ i' < i + len)%nat ∧ x = ancestor j i'.
Proof.
  induction len as [|len IH]; intros [|[parent sib] path] dirty i Ep Hup x; try done.
  { simpl. split; [by left|]. intros [?|(i' & ? & _)]; [done|lia]. }
  cbn [seq fmap list_fmap fst] in Ep. injection Ep as -> Ep. cbn [DirtyMmr.mark_path]. change (node_pos (S i) (anc (S i) j), Z.of_nat (S i)) with (ancestor j i).
  case_decide as Hd.
  - split; [by left|]. intros [?|(i' & Hi & ->)]; [done|]. assert (∀ d, (i + d < i + S len)%nat → ancestor j (i + d) ∈ dirty) as Hall.
    { induction d as [|d IHd]; intros Hlt; [by rewrite Nat.add_0_r|]. rewrite Nat.add_succ_r. apply Hup; [lia|lia|]. apply IHd. lia. }
    specialize (Hall (i' - i)%nat ltac:(lia)). by replace (i + (i' - i))%nat with i' in Hall by lia.
  - replace (Z.of_nat (S i) + 1) with (Z.of_nat (S (S i))) by lia. rewrite IH; [|done|].
    + rewrite elem_of_set_insert. split.
      * intros [[->|?]|(i' & Hi & ->)]; [right; exists i; split; [lia|done]|by left|right; exists i'; split; [lia|done]].
      * intros [?|(i' & Hi & ->)]; [by left; right|]. destruct (decide (i' = i)) as [->|]; [by left; left|right]. exists i'. split; [lia|done].
    + intros i' Hge Hlt Hx. apply elem_of_set_insert in Hx as [[= _ Hx]|Hx]; [lia|]. apply elem_of_set_insert. right. apply Hup; [lia|lia|done].
Qed.

Lemma mark_peaks_spec h : ∀ k n j dirty, (h ≤ 64)%nat → aligned h k → 0 ≤ n < pow h → k ≤ j < k + n →
  ∃ x, x ∈ peak_nodes h k n ∧ x.2 ≤ j < x.2 + pow x.1 ∧
    DirtyMmr.mark_peaks ((λ x, (node_pos x.1 x.2, Z.of_nat x.1)) <$> peak_nodes h k n) (mmr_size j) dirty =
      Some (DirtyMmr.mark_path dirty (rev (path_to x.1 (mmr_size x.2) (j - x.2))) 1).
Proof.
  induction h as [|h IH]; intros k n j dirty Hh Hk Hn Hj; [simpl in Hn; lia|]. cbn [peak_nodes]. rewrite pow_S in Hn. pose proof (pow_pos h).
  pose proof (aligned_S _ _ Hk) as Hk'. destruct (Hk) as [Hk0 _].
  destruct (Z.leb_spec (pow h) n); [|by apply IH; [lia|done|lia..]].
  cbn [fmap list_fmap DirtyMmr.mark_peaks fst snd]. pose proof (node_pos_lt h k j Hk' ltac:(lia)).
  destruct (Z.ltb_spec (node_pos h k) (mmr_size j)) as [Hlt|Hge].
  - destruct (IH (k + pow h) (n - pow h) j dirty ltac:(lia) (aligned_right _ _ Hk) ltac:(lia) ltac:(lia)) as (x & Hx & Hxj & E).
    exists x. split; [by constructor|]. split; [done|exact E].
  - exists (h, k). split; [constructor|]. cbn [fst snd]. split; [lia|]. rewrite (path_spec h k j); [done|lia|split; [done|simpl; lia]].
Qed.

(** An inner node of the range above [j] is not above the peak over [j]. *)
Lemma below_peak n h k j i : 0 ≤ n ≤ 2 ^ 62 → 0 ≤ j → (h, k) ∈ peak_nodes 63 0 n → k ≤ j < k + pow h → anc i j + pow i ≤ n → (i ≤ h)%nat.
Proof.
  intros Hn Hj Hx Hkj Hle. destruct (decide (i ≤ h)%nat) as [|Hgt]; [done|exfalso]. pose proof leaves_fit.
  destruct (peak_nodes_spec 63 0 n _ (aligned_zero _) ltac:(lia) Hx) as (_ & _ & _ & _ & H2 & Hk). cbn [fst snd] in *.
  pose proof (anc_bounds i j). pose proof (nested (S h) k i (anc i j) Hk (anc_aligned i j Hj) ltac:(lia) ltac:(lia)) as Hq. rewrite pow_S in Hq. lia.
Qed.

Lemma mark_dirty_ok p n l l' j h k : 0 ≤ n ≤ 2 ^ 62 → 0 ≤ j → p ≤ mmr_size j → (h, k) ∈ peak_nodes 63 0 n → k ≤ j < k + pow h →
  dirty_ok p n l → (∀ x, x ∈ l' ↔ x ∈ l ∨ ∃ i, (0 ≤ i < 0 + h)%nat ∧ x = ancestor j i) → dirty_ok p n l'.
Proof.
  intros Hn Hj Hp Hx Hkj [Hnode Hup Hdown] Hl. pose proof leaves_fit.
  destruct (peak_nodes_spec 63 0 n _ (aligned_zero _) ltac:(lia) Hx) as (Hk & _ & _ & H1 & _ & _). cbn [fst snd] in *.
  assert (∀ i, (i ≤ h)%nat → anc i j + pow i ≤ n) as Hin.
  { intros i Hi. pose proof (anc_bounds i j). pose proof (nested i (anc i j) h k (anc_aligned i j Hj) Hk Hi ltac:(lia)). lia. }
  split.
  - intros x [Hx'|(i & Hi & ->)]%Hl; [by apply Hnode|]. exists i, (anc (S i) j), j. split; [done|]. split; [by apply anc_aligned|].
    split; [apply Hin; lia|]. split; [apply anc_bounds|done].
  - intros i j' Hj' Hst Hle. apply Hl in Hst as [Hst|(i' & Hi & [= E Ei])]; [apply Hl; left; by apply Hup|].
    assert (i' = i) as -> by lia. apply node_pos_inj in E as [_ E]; [|by apply anc_aligned..].
    assert (anc (S (S i)) j' = anc (S (S i)) j) as Ea.
    { apply anc_unique; [by apply anc_aligned|]. pose proof (anc_S (S i) j Hj). pose proof (anc_bounds (S i) j'). pose proof (anc_bounds (S (S i)) j). lia. }
    rewrite Ea in *. apply Hl. right. exists (S i). split; [|done]. pose proof (below_peak n h k j (S (S i)) Hn Hj Hx Hkj Hle). lia.
  - intros h' k' Hst Hk'. apply Hl in Hst as [Hst|(i & Hi & [= E Ei])].
    + destruct (Hdown h' k' Hst Hk') as (k'' & Hk'' & Hst'). exists k''. split; [done|]. apply Hl. by left.
    + assert (i = S h') as -> by lia. apply node_pos_inj in E as [_ ->]; [|done|by apply anc_aligned]. exists (anc (S h') j). split.
      * pose proof (anc_aligned (S h') j Hj) as Ha. pose proof (anc_aligned (S (S h')) j Hj) as Hb. pose proof (anc_bounds (S h') j) as Hab.
        pose proof (anc_bounds (S (S h')) j) as Hbb. rewrite (pow_S (S h')) in Hbb.
        destruct (decide (j < anc (S (S h')) j + pow (S h'))); [left|right].
        -- apply anc_unique; [by apply aligned_S|lia].
        -- apply anc_unique; [by apply aligned_right|lia].
      * apply Hl. right. exists h'. split; [lia|done].
Qed.

Lemma update_one_spec (m : Dirty_) f n j d : dirty_range m f n → 0 ≤ j < n → pruned_to_pos m ≤ mmr_size j →
  ∃ m', DirtyMmr.update_one m (mmr_size j) d = Some m' ∧ dirty_range m' (upd f j d) n ∧ same_frame m m'.
Proof.
  intros [Hr Hd] Hj Hp. pose proof (represents_fits _ _ _ _ _ Hr) as [_ Hn62]. pose proof leaves_fit as Hfit.
  destruct (mark_peaks_spec 63 0 n j (dirty_nodes (state m)) ltac:(lia) (aligned_zero _) ltac:(lia) ltac:(lia)) as ([h k] & Hx & Hkj & Emark).
  cbn [fst snd] in Hkj, Emark. destruct (peak_nodes_spec 63 0 n _ (aligned_zero _) ltac:(lia) Hx) as (Hk & _). cbn [fst snd] in Hk.
  set (l' := DirtyMmr.mark_path (dirty_nodes (state m)) (rev (path_to h (mmr_size k) (j - k))) 1) in *.
  assert (∀ x, x ∈ l' ↔ x ∈ dirty_nodes (state m) ∨ ∃ i, (0 ≤ i < 0 + h)%nat ∧ x = ancestor j i) as Hl'.
  { apply (mark_path_spec j h _ _ 0); [by apply path_parents|]. intros i _ Hi Hst. apply Hd; [lia|done|].
    pose proof (anc_bounds (S (S i)) j). pose proof (nested (S (S i)) _ h k (anc_aligned _ j ltac:(lia)) Hk ltac:(lia) ltac:(lia)).
    destruct (peak_nodes_spec 63 0 n _ (aligned_zero _) ltac:(lia) Hx) as (_ & _ & _ & ? & _). cbn [fst snd] in *. lia. }
  clearbody l'. pose proof (represents_set H m f (upd f j d) n _ l' 0 j d Hr) as Hset. rewrite node_pos_leaf in Hset.
  pose proof (set_spec H m f n _ 0 j d Hr) as Eset. rewrite node_pos_leaf in Eset.
  unfold DirtyMmr.update_one. rewrite Eset; [|by apply aligned_0; lia|simpl; lia|done]. cbn [mbind option_bind].
  set (m1 := mkMmr _ _ _ _) in *. assert (represents H m1 (upd f j d) n l') as Hr1.
  { apply Hset; [by apply aligned_0; lia|simpl; lia|done|cbn [tree]; by rewrite upd_same| |].
    - intros h' k' Hk' Hne Hle Hst. split; [intros Hst'; by apply Hst, Hl'; left|]. symmetry. apply tree_upd. intros Hkj'.
      pose proof (anc_unique h' k' j Hk' Hkj') as Ea. destruct h' as [|h'].
      + apply Hne. f_equal. simpl in Hkj'. lia.
      + apply Hst, Hl'. right. exists h'. unfold ancestor. rewrite Ea. split; [|done].
        rewrite <- Ea in Hle. pose proof (below_peak n h k j (S h') ltac:(lia) ltac:(lia) Hx Hkj Hle). lia.
    - intros h' k' Hk' Hlt. symmetry. apply tree_upd. pose proof (node_pos_lt h' k' j Hk' ltac:(lia)). lia. }
  unfold DirtyMmr.mark_dirty. pose proof (peak_items_spec H m1 _ _ _ Hr1) as Epeaks. 
  exists (with_dirty m1 l'). split; [|split; [|done]].
  - revert Epeaks Emark. generalize ((λ x, (node_pos x.1 x.2, Z.of_nat x.1)) <$> peak_nodes 63 0 n). intros peaks -> Emark.
    cbn [mbind option_bind]. change (dirty_nodes (state m1)) with (dirty_nodes (state m)). by rewrite Emark.
  - split; [by apply represents_with_dirty|]. by eapply mark_dirty_ok; [| | |exact Hx|exact Hkj|exact Hd|exact Hl']; [lia|lia|].
Qed.

(** The leaves after a batch of updates; the last one of a leaf counts. *)
Definition upd_all f (us : list (Z * bytes)) : Z → D := foldl (λ f x, upd f x.1 (leaf_digest H (mmr_size x.1) x.2)) f us.

Lemma update_loop_spec n us : ∀ (m : Dirty_) f, dirty_range m f n → (∀ x, x ∈ us → 0 ≤ x.1 < n ∧ pruned_to_pos m ≤ mmr_size x.1) →
  ∃ m', DirtyMmr.update_loop H m (zip (mmr_size <$> us.*1) us.*2) = Some m' ∧ dirty_range m' (upd_all f us) n ∧ same_frame m m'.
Proof.
  induction us as [|[loc e] us IH]; intros m f Hr Hus; [by exists m|]. cbn [fmap list_fmap zip zip_with fst snd DirtyMmr.update_loop].
  destruct (Hus (loc, e) ltac:(constructor)) as [Hloc Hp]. cbn [fst] in *.
  destruct (update_one_spec m f n loc (leaf_digest H (mmr_size loc) e) Hr Hloc Hp) as (m1 & -> & Hr1 & [Ep Epi]).
  cbn [mbind option_bind]. destruct (IH m1 _ Hr1) as (m' & E & Hr' & [Ep' Epi']).
  { intros x Hx. rewrite Ep. apply Hus. by constructor. }
  exists m'. split; [exact E|]. split; [exact Hr'|]. split; congruence.
Qed.

(** With threads the digests are computed first, which makes no difference. *)
Lemma update_parallel_eq l : ∀ m : Dirty_, DirtyMmr.update_leaf_parallel H m l = DirtyMmr.update_loop H m l.
Proof.
  unfold DirtyMmr.update_leaf_parallel. induction l as [|[pos e] l IH]; intros m; [done|].
  cbn [fmap list_fmap fst snd DirtyMmr.update_digests DirtyMmr.update_loop].
  destruct (DirtyMmr.update_one m pos (leaf_digest H pos e)); [|done]. apply IH.
Qed.

(** The first update that is refused. *)
Fixpoint refused (n p : Z) (locations : list Z) : option MmrError :=
  match locations with
  | [] => None
  | loc :: locations =>
      if n <=? loc then Some (LeafOutOfBounds loc)
      else if mmr_size loc <? p then Some (ElementPruned (mmr_size loc)) else refused n p locations
  end.

Lemma check_updates_spec n p locations : n ≤ MAX_LOCATION → (∀ loc, loc ∈ locations → 0 ≤ loc) →
  DirtyMmr.check_updates n p locations = match refused n p locations with Some e => Err e | None => Ok (mmr_size <$> locations) end.
Proof.
  intros Hn. induction locations as [|loc l IH]; intros Hl; [done|]. cbn [DirtyMmr.check_updates refused].
  pose proof (Hl loc ltac:(constructor)). destruct (Z.leb_spec n loc); [done|]. rewrite position_of_spec by done.
  rewrite (proj2 (Z.ltb_ge _ _)) by lia. cbn [obind]. destruct (Z.ltb_spec (mmr_size loc) p); [done|].
  rewrite IH by (intros x Hx; apply Hl; by constructor). by destruct (refused n p l).
Qed.

Lemma refused_none n p locations loc : refused n p locations = None → loc ∈ locations → loc < n ∧ p ≤ mmr_size loc.
Proof.
  induction locations as [|x l IH]; [by intros _ ?%not_elem_of_nil|]. cbn [refused].
  destruct (Z.leb_spec n x); [done|]. destruct (Z.ltb_spec (mmr_size x) p); [done|]. intros E [->|Hx]%elem_of_cons; [lia|by apply IH].
Qed.

Lemma leaves_spec {S} (m : Mmr D S) f n l : represents H m f n l → MmrMem.leaves m = Some n.
Proof.
  intros Hr. pose proof (represents_fits _ _ _ _ _ Hr) as [Hfit _]. unfold MmrMem.leaves. rewrite (size_spec H _ _ _ _ Hr). cbn [mbind option_bind].
  destruct Hr as [Hn _ _ _ _ _]. pose proof (try_from_position_spec (mmr_size n) ltac:(lia)) as Ht.
  destruct (Location.try_from_position (mmr_size n)) as [loc|e|]; [|exfalso|done].
  - destruct Ht as [Hl E]. apply mmr_size_inj in E as ->; [done|lia|lia].
  - destruct Ht as [[? _]|(_ & _ & Hno)]; [lia|]. by apply (Hno n); [lia|].
Qed.

Lemma update_batched_spec (m : Dirty_) pool f n us : dirty_range m f n → (∀ x, x ∈ us → 0 ≤ x.1) →
  match refused n (pruned_to_pos m) us.*1 with
  | Some e => DirtyMmr.update_leaf_batched H m pool us = Some (Err e, m)
  | None => ∃ m', DirtyMmr.update_leaf_batched H m pool us = Some (Ok tt, m') ∧ dirty_range m' (upd_all f us) n ∧ same_frame m m'
  end.
Proof.
  intros Hr Hus. unfold DirtyMmr.update_leaf_batched. case_bool_decide as Hne; [subst us; by exists m|].
  rewrite (leaves_spec m f n _ (dr_represents _ _ _ Hr)). cbn [mbind option_bind].
  assert (0 ≤ n ≤ MAX_LOCATION) as Hn by (destruct Hr as [[? _ _ _ _ _] _]; done).
  rewrite check_updates_spec; [|lia|intros loc Hl; apply list_elem_of_fmap in Hl as (x & -> & Hx); by apply Hus].
  destruct (refused n (pruned_to_pos m) us.*1) as [e|] eqn:Er; [done|].
  destruct (update_loop_spec n us m f Hr) as (m' & E & Hr' & Hf).
  { intros x Hx. destruct (refused_none _ _ _ x.1 Er) as [? ?]; [by apply list_elem_of_fmap_2|]. specialize (Hus x Hx). lia. }
  exists m'. split; [|done]. rewrite update_parallel_eq. destruct (pool && _); by rewrite E.
Qed.

(** ** Pruning *)

Lemma get_node_eq (m : Clean_) pos : get_node m pos = get_node_unchecked m pos.
Proof.
  unfold get_node, get_node_unchecked, pos_to_index. destruct (Z.ltb_spec pos (pruned_to_pos m)); [done|].
  by rewrite (proj2 (Z.leb_le _ _)) by lia.
Qed.

Lemma map_option_Forall2 {A B} (g : A → option B) l ds : map_option g l = Some ds → Forall2 (λ x d, g x = Some d) l ds.
Proof.
  revert ds. induction l as [|x l IH]; intros ds E; simpl in E; [by injection E as <-|].
  destruct (g x) as [d|] eqn:Ex; [|done]. simpl in E. destruct (map_option g l) as [ds'|]; [|done]. injection E as <-.
  constructor; [done|by apply IH].
Qed.

Lemma prune_out_of_range (m : Clean_) f n pos : clean_range H m f n → ¬ pruned_to_pos m ≤ pos ≤ mmr_size n → CleanMmr.prune_to_pos m pos = None.
Proof.
  intros [[Hn Hp Hs _ _ _] _] Hpos. unfold CleanMmr.prune_to_pos. destruct (CleanMmr.nodes_to_pin m pos); [|done]. cbn [mbind option_bind].
  unfold pos_to_index. destruct (Z.leb_spec (pruned_to_pos m) pos); [|done]. cbn [mbind option_bind].
  by rewrite (proj2 (Nat.ltb_lt _ _)) by lia.
Qed.

(** The nodes to pin can be read, and are pinned by their positions. *)
Lemma nodes_to_pin_ok (m : Clean_) f n pos : clean_range H m f n → pruned_to_pos m ≤ pos ≤ mmr_size n →
  ∃ pinned, CleanMmr.nodes_to_pin m pos = Some pinned ∧
    (∀ h k, pins pos h k → pinned !! node_pos h k = Some (tree H f h k)) ∧
    (∀ h k d, aligned h k → pinned !! node_pos h k = Some d → d = tree H f h k).
Proof.
  intros [Hr _] Hpos. pose proof (represents_fits _ _ _ _ _ Hr) as [Hfit _]. pose proof Hr as [Hn Hp Hs _ _ _].
  destruct (pins_spec pos ltac:(lia)) as (n0 & Hn0 & Epin & _ & Hpins).
  assert (∀ x, x ∈ peak_nodes 63 0 n0 → aligned x.1 x.2 ∧ get_node_unchecked m (node_pos x.1 x.2) = Some (tree H f x.1 x.2)) as Hget.
  { intros [h k] Hx. apply Hpins in Hx as (Hk & Hlt & Hle). cbn [fst snd]. pose proof (aligned_S _ _ Hk) as Hk'. split; [done|].
    apply (get_spec H m f n [] h k Hr Hk'); [apply (node_pos_lt h k n Hk'); lia|apply not_elem_of_nil|].
    destruct (decide (pruned_to_pos m ≤ node_pos h k)); [by left|right]. split; [done|lia]. }
  revert Epin Hpins Hget. generalize (peak_nodes 63 0 n0). intros l Epin Hpins Hget. unfold CleanMmr.nodes_to_pin. rewrite Epin.
  cbn [mbind option_bind]. rewrite map_option_fmap, (map_option_ok _ (λ x, tree H f x.1 x.2)) by (intros x Hx; by apply Hget). cbn [mbind option_bind].
  assert (Forall2 (λ pos d, get_node_unchecked m pos = Some d) ((λ x, node_pos x.1 x.2) <$> l) ((λ x, tree H f x.1 x.2) <$> l)) as Hf2.
  { apply Forall2_fmap, Forall_Forall2_diag, Forall_forall. intros x Hx. by apply Hget. }
  eexists. split; [reflexivity|]. split.
  - intros h k Hpk. apply Hpins in Hpk. rewrite (zip_lookup _ _ _ _ Hf2) by by apply (list_elem_of_fmap_2 (λ x, node_pos x.1 x.2) _ (h, k)).
    by apply (Hget (h, k)).
  - intros h k d Hk E. pose proof (elem_of_list_to_map_2 _ _ _ E) as Hz. apply elem_of_zip_l in Hz as Hl.
    rewrite (zip_lookup _ _ _ _ Hf2 Hl) in E. apply list_elem_of_fmap in Hl as ([h' k'] & Ep & Hx). cbn [fst snd] in Ep.
    destruct (Hget _ Hx) as [Hk' Eg]. cbn [fst snd] in *. rewrite Ep, Eg in E. apply node_pos_inj in Ep as [-> ->]; [|done..]. by injection E.
Qed.

Lemma prune_spec (m : Clean_) f n pos : clean_range H m f n → pruned_to_pos m ≤ pos ≤ mmr_size n →
  ∃ m', CleanMmr.prune_to_pos m pos = Some m' ∧ clean_range H m' f n ∧ pruned_to_pos m' = pos ∧ root (state m') = root (state m).
Proof.
  intros Hc Hpos. destruct (nodes_to_pin_ok m f n pos Hc Hpos) as (pinned & Epin & Hpins & Hpinned).
  destruct Hc as [[Hn Hp Hs Hnd _ _] Hroot]. unfold CleanMmr.prune_to_pos. rewrite Epin. cbn [mbind option_bind].
  unfold pos_to_index. rewrite (proj2 (Z.leb_le _ _)) by lia. cbn [mbind option_bind].
  rewrite (proj2 (Nat.ltb_ge _ _)) by lia. eexists. split; [reflexivity|]. split; [|done]. split; [|exact Hroot].
  split; cbn [nodes pruned_to_pos pinned_nodes]; [done|lia|rewrite length_drop; lia| |done|intros h k d Hk _; by apply Hpinned].
  intros h k d Hk Hle Hd _. rewrite lookup_drop in Hd. apply Hnd; [done|lia| |apply not_elem_of_nil].
  by replace (Z.to_nat (node_pos h k - pruned_to_pos m)) with (Z.to_nat (pos - pruned_to_pos m) + Z.to_nat (node_pos h k - pos))%nat by lia.
Qed.

(** ** Proofs *)

Lemma clean_faithful (m : Clean_) f n : clean_range H m f n → faithful H f n (get_node m).
Proof.
  intros [[Hn Hp Hs Hnd _ Hpd] _] h k d Hk Hle. unfold get_node.
  destruct (Z.ltb_spec (node_pos h k) (pruned_to_pos m)); [by apply Hpd|]. intros E. apply Hnd; [done|lia|done|apply not_elem_of_nil].
Qed.

Lemma sibs_side h : ∀ k a b x, aligned h k → a < k + pow h → x ∈ sibs h k a b →
  b < x.2.2 ∨ aligned (S x.2.1) x.2.2 ∧ a < x.2.2 + 2 * pow x.2.1.
Proof.
  induction h as [|h IH]; intros k a b x Hk Ha Hx; [by apply not_elem_of_nil in Hx|]. cbn [sibs] in Hx. rewrite pow_S in Ha.
  rewrite !elem_of_app in Hx. destruct Hx as [Hx|[Hx|[Hx|Hx]]].
  - destruct (Z.ltb_spec a (k + pow h)); [|by apply not_elem_of_nil in Hx]. by apply (IH k a b); [apply aligned_S|..].
  - destruct (k + pow h <=? b); [|by apply not_elem_of_nil in Hx]. apply (IH (k + pow h) a b); [by apply aligned_right|lia|done].
  - destruct (a <? k + pow h); [by apply not_elem_of_nil in Hx|]. apply list_elem_of_singleton in Hx as ->. right. split; [done|simpl; lia].
  - destruct (Z.leb_spec (k + pow h) b); [by apply not_elem_of_nil in Hx|]. apply list_elem_of_singleton in Hx as ->. left. simpl. lia.
Qed.

Lemma needed_side n a b x : 0 ≤ n ≤ 2 ^ 62 → 0 ≤ a ≤ b → b < n → x ∈ needed n a b →
  aligned x.1 x.2 ∧ x.2 + pow x.1 ≤ n ∧ (b < x.2 ∨ aligned (S x.1) x.2 ∧ a < x.2 + 2 * pow x.1).
Proof.
  intros Hn Ha Hb Hx. pose proof leaves_fit.
  assert (∀ x, x ∈ peak_nodes 63 0 n → aligned x.1 x.2 ∧ x.2 + pow x.1 ≤ n ∧ n < x.2 + 2 * pow x.1 ∧ aligned (S x.1) x.2) as Hpk.
  { intros y Hy. destruct (peak_nodes_spec 63 0 n y (aligned_zero _) ltac:(lia) Hy) as (? & _ & _ & ? & ? & ?). split; [done|]. split; [lia|]. split; [lia|done]. }
  revert Hx Hpk. unfold needed. generalize (peak_nodes 63 0 n). intros l Hx Hpk. apply elem_of_app in Hx as [Hx|Hx].
  - apply list_elem_of_filter in Hx as [_ Hx]. destruct (Hpk x Hx) as (? & ? & ? & ?). split; [done|]. split; [done|]. right. split; [done|lia].
  - apply list_elem_of_In, in_rev, list_elem_of_In, list_elem_of_fmap in Hx as (y & -> & Hy).
    apply list_elem_of_bind in Hy as (z & Hy & Hz). apply list_elem_of_filter in Hz as [Ho Hz]. destruct (Hpk z Hz) as (Hk & Hle & _ & _).
    unfold overlaps in Ho. apply andb_true_iff in Ho as [Ho%Z.ltb_lt _].
    destruct (sibs_in_range z.1 z.2 a b y Hk Hy) as [[H1 H2] H3]. split; [done|]. split; [lia|]. by apply (sibs_side z.1 z.2 a b y).
Qed.

(** Every node that the proof of a retained range needs is retained or pinned. *)
Lemma retained_needed (m : Clean_) f n a b x : clean_range H m f n → 0 ≤ a ≤ b → b < n → pruned_to_pos m ≤ mmr_size a → x ∈ needed n a b →
  get_node m (node_pos x.1 x.2) = Some (tree H f x.1 x.2).
Proof.
  intros [Hr _] Ha Hb Hp Hx. pose proof (represents_fits _ _ _ _ _ Hr) as [_ Hf].
  destruct (needed_side n a b x ltac:(lia) Ha Hb Hx) as (Hk & Hle & Hside). rewrite get_node_eq.
  apply (get_spec H m f n [] _ _ Hr Hk Hle); [apply not_elem_of_nil|].
  destruct (decide (pruned_to_pos m ≤ node_pos x.1 x.2)) as [|Hlt]; [by left|right]. destruct Hside as [Hs|[Hs1 Hs2]].
  - pose proof (proj2 (node_pos_ge _ _ a Hk ltac:(lia)) ltac:(pose proof (pow_pos x.1); lia)). lia.
  - split; [done|]. pose proof (mmr_size_strict a (x.2 + 2 * pow x.1) ltac:(lia) Hs2). lia.
Qed.
End Ops.
End MmrMemOps.
