(* ===== verification/MmrMemProperties.v ===== *)
(** * The range in memory is the range of its elements (storage/src/mmr/mem.rs)

    The abstract range is a list of elements and the position before which nodes
    may be missing; every history of operations of a [Clean] range does to it what
    the same history does to the list, with the same results and errors. *)

From S2P Require Import Prelude Codec CodecTypes CodecOrdered Ordered.
From S2P Require Import MmrPosition MmrIterator MmrTree MmrProof MmrSoundness MmrCompleteness MmrStore MmrMulti MmrProperties.
From S2P Require Import MmrMem MmrMemSpec MmrMemOps.
Import CodecTypes CodecOrdered Mmr MmrIterator MmrProof MmrSoundness MmrCompleteness MmrStore MmrMulti MmrProperties.
Import MmrMem MmrMemSpec MmrMemOps.

Module MmrMemProperties.

(** ** The abstract range *)

Record Range : Type := mkRange { elements_of : list bytes; floor_of : Z }.
Notation count E := (Z.of_nat (length E)).

Inductive op : Type :=
| Add (element : bytes)
| Pop
| Update (loc : Z) (element : bytes)
| PruneTo (pos : Z)
| PruneAll.

Definition spec_step (r : Range) (o : op) : option (outcome MmrError Z * Range) :=
  let '(mkRange E p) := r in
  match o with
  | Add e => Some (Ok (mmr_size (count E)), mkRange (E ++ [e]) p)
  | Pop =>
      if count E =? 0 then Some (Err Empty, r)
      else if mmr_size (count E - 1) <? p then Some (Err (ElementPruned (p - 1)), r)
      else Some (Ok (mmr_size (count E - 1)), mkRange (take (length E - 1) E) p)
  | Update loc e =>
      if count E <=? loc then Some (Err (LeafOutOfBounds loc), r)
      else if mmr_size loc <? p then Some (Err (ElementPruned (mmr_size loc)), r)
      else Some (Ok loc, mkRange (<[Z.to_nat loc := e]> E) p)
  | PruneTo pos => if (p <=? pos) && (pos <=? mmr_size (count E)) then Some (Ok pos, mkRange E pos) else None
  | PruneAll => Some (Ok (mmr_size (count E)), mkRange E (mmr_size (count E)))
  end.

Section Properties.
Context {D : Type} (H : Hasher D) (EMPTY : D).
Notation Dirty_ := (Mmr D Dirty).
Notation Clean_ := (Mmr D (Clean D)).
Implicit Types E : list bytes.

Definition exec (m : Clean_) (o : op) : option (outcome MmrError Z * Clean_) :=
  match o with
  | Add e => '(pos, m) ← CleanMmr.add H EMPTY m e; Some (Ok pos, m)
  | Pop => CleanMmr.pop H m
  | Update loc e => '(r, m) ← CleanMmr.update_leaf H m loc e; Some ((let? _ := r in Ok loc), m)
  | PruneTo pos => m ← CleanMmr.prune_to_pos m pos; Some (Ok pos, m)
  | PruneAll => m ← CleanMmr.prune_all m; Some (Ok (pruned_to_pos m), m)
  end.

(** The range stands for the elements. *)
Record implements (m : Clean_) (r : Range) : Prop := {
  im_clean : clean_range H m (leaves_of H (elements_of r)) (count (elements_of r));
  im_floor : pruned_to_pos m = floor_of r;
}.

Lemma clean_range_ext (m : Clean_) f g n : (∀ j, 0 ≤ j < n → f j = g j) → clean_range H m f n → clean_range H m g n.
Proof.
  intros Hfg [Hr Hroot]. pose proof (represents_fits _ _ _ _ _ Hr) as [_ Hn].
  split; [by eapply represents_ext; [exact Hfg| |exact Hr]|]. rewrite Hroot. apply range_root_ext; [destruct Hr; lia|done].
Qed.

Lemma leaves_of_app E e j : 0 ≤ j < count E + 1 →
  upd (leaves_of H E) (count E) (leaf_digest H (mmr_size (count E)) e) j = leaves_of H (E ++ [e]) j.
Proof.
  intros Hj. unfold upd, leaves_of. destruct (Z.eqb_spec j (count E)) as [->|Hne].
  - rewrite list_lookup_total_middle by lia. done.
  - rewrite lookup_total_app_l by lia. done.
Qed.
Lemma leaves_of_take E j : 0 ≤ j < count E - 1 → leaves_of H E j = leaves_of H (take (length E - 1) E) j.
Proof. intros Hj. unfold leaves_of. rewrite lookup_total_take_lt by lia. done. Qed.
Lemma leaves_of_insert E loc e j : 0 ≤ loc < count E → 0 ≤ j →
  upd (leaves_of H E) loc (leaf_digest H (mmr_size loc) e) j = leaves_of H (<[Z.to_nat loc := e]> E) j.
Proof.
  intros Hl Hj. unfold upd, leaves_of. destruct (Z.eqb_spec j loc) as [->|Hne].
  - rewrite list_lookup_total_insert_eq by lia. done.
  - rewrite list_lookup_total_insert_ne by lia. done.
Qed.

(** A change of the dirty range, computed again. *)
Lemma recompute (m : Clean_) (m1 : Dirty_) f n : dirty_range H m1 f n → same_frame (into_dirty m) m1 →
  ∃ m', merkleize H m1 false = Some m' ∧ clean_range H m' f n ∧ pruned_to_pos m' = pruned_to_pos m.
Proof. intros Hd [Ep _]. destruct (dirty_merkleize H m1 false f n Hd) as (m' & E & Hc & [Ep' _]). exists m'. split; [done|]. split; [done|]. by rewrite Ep', Ep. Qed.

Lemma same_frame_refl (m : Dirty_) : same_frame m m.
Proof. done. Qed.

Lemma exec_add m r e : implements m r → count (elements_of r) < MAX_LOCATION →
  ∃ m', exec m (Add e) = Some (Ok (mmr_size (count (elements_of r))), m') ∧ implements m' (mkRange (elements_of r ++ [e]) (floor_of r)).
Proof.
  destruct r as [E p]. intros [Hc Hp] Hlt. cbn [elements_of floor_of] in *.
  destruct (add_spec H EMPTY (into_dirty m) _ _ (leaf_digest H (mmr_size (count E)) e) (into_dirty_spec H m _ _ Hc) Hlt) as (m1 & E1 & Hd1 & Hf1).
  destruct (recompute m m1 _ _ Hd1 Hf1) as (m' & E' & Hc' & Ep'). exists m'.
  pose proof (size_spec H _ _ _ _ (cr_represents _ _ _ _ Hc)) as Esz. split.
  - unfold exec, CleanMmr.add, CleanMmr.add_leaf_digest. rewrite Esz. cbn [mbind option_bind]. rewrite E1. cbn [mbind option_bind].
    rewrite E'. done.
  - split; cbn [elements_of floor_of]; [|by rewrite Ep'].
    replace (count (E ++ [e])) with (count E + 1) by (rewrite length_app; simpl; lia). eapply clean_range_ext; [|exact Hc'].
    intros j Hj. by apply leaves_of_app.
Qed.

Lemma exec_pop m r : implements m r →
  ∃ res m' r', spec_step r Pop = Some (res, r') ∧ exec m Pop = Some (res, m') ∧ implements m' r'.
Proof.
  destruct r as [E p]. intros [Hc Hp]. cbn [elements_of floor_of] in *. cbn [spec_step].
  pose proof (into_dirty_spec H m _ _ Hc) as Hd. pose proof (pop_spec H (into_dirty m) _ _ Hd) as Hpop.
  change (pruned_to_pos (into_dirty m)) with (pruned_to_pos m) in Hpop. rewrite Hp in Hpop.
  assert (∀ res, DirtyMmr.pop (into_dirty m) = Some (res, into_dirty m) → ∃ m', exec m Pop = Some (res, m') ∧ implements m' (mkRange E p)) as Hsame.
  { intros res Eres. destruct (recompute m (into_dirty m) _ _ Hd (same_frame_refl _)) as (m' & E' & Hc' & Ep'). exists m'. split.
    - unfold exec, CleanMmr.pop. rewrite Eres. cbn [mbind option_bind]. by rewrite E'.
    - split; [done|]. by rewrite Ep'. }
  destruct (Z.eqb_spec (count E) 0).
  { destruct (Hsame _ Hpop) as (m' & ? & ?). by eexists _, m', _. }
  destruct (Z.ltb_spec (mmr_size (count E - 1)) p).
  { destruct (Hsame _ Hpop) as (m' & ? & ?). by eexists _, m', _. }
  destruct Hpop as (m1 & E1 & Hd1 & Hf1). destruct (recompute m m1 _ _ Hd1 Hf1) as (m' & E' & Hc' & Ep').
  eexists _, m', _. split; [reflexivity|]. split.
  - unfold exec, CleanMmr.pop. rewrite E1. cbn [mbind option_bind]. by rewrite E'.
  - split; cbn [elements_of floor_of]; [|by rewrite Ep'].
    replace (count (take (length E - 1) E)) with (count E - 1) by (rewrite length_take; lia). eapply clean_range_ext; [|exact Hc'].
    intros j Hj. by apply leaves_of_take.
Qed.

Lemma exec_update m r loc e : implements m r → 0 ≤ loc →
  ∃ res m' r', spec_step r (Update loc e) = Some (res, r') ∧ exec m (Update loc e) = Some (res, m') ∧ implements m' r'.
Proof.
  destruct r as [E p]. intros [Hc Hp] Hl. cbn [elements_of floor_of] in *. cbn [spec_step].
  pose proof (into_dirty_spec H m _ _ Hc) as Hd.
  pose proof (update_batched_spec H (into_dirty m) false _ _ [(loc, e)] Hd ltac:(by intros x ->%list_elem_of_singleton)) as Hup.
  change (pruned_to_pos (into_dirty m)) with (pruned_to_pos m) in Hup. rewrite Hp in Hup. cbn [fmap list_fmap fst refused] in Hup.
  assert (∀ err, DirtyMmr.update_leaf_batched H (into_dirty m) false [(loc, e)] = Some (Err err, into_dirty m) →
    ∃ m', exec m (Update loc e) = Some (Err err, m') ∧ implements m' (mkRange E p)) as Hsame.
  { intros err Eres. destruct (recompute m (into_dirty m) _ _ Hd (same_frame_refl _)) as (m' & E' & Hc' & Ep'). exists m'. split.
    - unfold exec, CleanMmr.update_leaf, DirtyMmr.update_leaf. rewrite Eres. cbn [mbind option_bind]. by rewrite E'.
    - split; [done|]. by rewrite Ep'. }
  destruct (Z.leb_spec (count E) loc).
  { destruct (Hsame _ Hup) as (m' & ? & ?). by eexists _, m', _. }
  destruct (Z.ltb_spec (mmr_size loc) p).
  { destruct (Hsame _ Hup) as (m' & ? & ?). by eexists _, m', _. }
  destruct Hup as (m1 & E1 & Hd1 & Hf1). destruct (recompute m m1 _ _ Hd1 Hf1) as (m' & E' & Hc' & Ep').
  eexists _, m', _. split; [reflexivity|]. split.
  - unfold exec, CleanMmr.update_leaf, DirtyMmr.update_leaf. rewrite E1. cbn [mbind option_bind]. by rewrite E'.
  - split; cbn [elements_of floor_of]; [|by rewrite Ep']. rewrite length_insert. eapply clean_range_ext; [|exact Hc'].
    intros j Hj. apply leaves_of_insert; lia.
Qed.

Lemma exec_prune m r pos : implements m r →
  if (floor_of r <=? pos) && (pos <=? mmr_size (count (elements_of r)))
  then ∃ m', CleanMmr.prune_to_pos m pos = Some m' ∧ implements m' (mkRange (elements_of r) pos)
  else CleanMmr.prune_to_pos m pos = None.
Proof.
  destruct r as [E p]. intros [Hc Hp]. cbn [elements_of floor_of] in *.
  destruct (Z.leb_spec p pos), (Z.leb_spec pos (mmr_size (count E))); cbn [andb]; try (apply (prune_out_of_range H m _ _ pos Hc); lia).
  destruct (prune_spec H m _ _ pos Hc ltac:(lia)) as (m' & E' & Hc' & Ep' & _). exists m'. done.
Qed.

Lemma exec_prune_all m r : implements m r →
  ∃ m', exec m PruneAll = Some (Ok (mmr_size (count (elements_of r))), m') ∧ implements m' (mkRange (elements_of r) (mmr_size (count (elements_of r)))).
Proof.
  intros Him. pose proof (exec_prune m r (mmr_size (count (elements_of r))) Him) as Hpr. destruct r as [E p]. destruct Him as [Hc Hp].
  cbn [elements_of floor_of] in *. destruct (cr_represents _ _ _ _ Hc) as [Hn Hp0 Hs _ _ _]. pose proof (represents_fits _ _ _ _ _ (cr_represents _ _ _ _ Hc)) as [Hfit _].
  unfold exec, CleanMmr.prune_all. destruct (Nat.eqb_spec (length (nodes m)) 0) as [E0|Hne].
  - exists m. cbn [mbind option_bind]. split; [do 3 f_equal; lia|]. split; [done|]. simpl. lia.
  - unfold index_to_pos, checked_add. unfold MAX_POSITION in Hfit.
    replace (pruned_to_pos m + Z.of_nat (length (nodes m))) with (mmr_size (count E)) by lia. rewrite (proj2 (Z.ltb_lt _ _)) by lia.
    cbn [mbind option_bind]. rewrite !(proj2 (Z.leb_le _ _)) in Hpr by lia. cbn [andb] in Hpr. destruct Hpr as (m' & E' & [Hc' Ep']). rewrite E'.
    exists m'. cbn [mbind option_bind elements_of floor_of] in *. split; [by rewrite Ep'|by split].
Qed.

(** ** Histories *)

Fixpoint run (m : Clean_) (ops : list op) : option (list (outcome MmrError Z) * Clean_) :=
  match ops with
  | [] => Some ([], m)
  | o :: ops => '(res, m) ← exec m o; '(results, m) ← run m ops; Some (res :: results, m)
  end.
Fixpoint spec_run (r : Range) (ops : list op) : option (list (outcome MmrError Z) * Range) :=
  match ops with
  | [] => Some ([], r)
  | o :: ops => '(res, r) ← spec_step r o; '(results, r) ← spec_run r ops; Some (res :: results, r)
  end.

Lemma exec_refines m r o : implements m r → count (elements_of r) < MAX_LOCATION → (∀ loc e, o = Update loc e → 0 ≤ loc) →
  match spec_step r o with
  | Some (res, r') => ∃ m', exec m o = Some (res, m') ∧ implements m' r' ∧ count (elements_of r') ≤ count (elements_of r) + 1
  | None => exec m o = None
  end.
Proof.
  intros Him Hlt Ho. destruct o as [e| |loc e|pos|].
  - destruct (exec_add m r e Him Hlt) as (m' & E' & Him'). destruct r as [E p]. cbn [spec_step elements_of floor_of] in *.
    exists m'. split; [done|]. split; [done|]. rewrite length_app. simpl. lia.
  - destruct (exec_pop m r Him) as (res & m' & r' & Es & E' & Him'). rewrite Es. exists m'. split; [done|]. split; [done|].
    destruct r as [E p]. cbn [spec_step] in Es. destruct (count E =? 0); [by injection Es as _ <-; simpl; lia|].
    destruct (_ <? p); injection Es as _ <-; cbn [elements_of]; [lia|]. rewrite length_take. lia.
  - destruct (exec_update m r loc e Him (Ho loc e eq_refl)) as (res & m' & r' & Es & E' & Him'). rewrite Es. exists m'. split; [done|]. split; [done|].
    destruct r as [E p]. cbn [spec_step] in Es. destruct (count E <=? loc); [by injection Es as _ <-; simpl; lia|].
    destruct (_ <? p); injection Es as _ <-; cbn [elements_of]; [lia|]. rewrite length_insert. lia.
  - pose proof (exec_prune m r pos Him) as Hpr. destruct r as [E p]. cbn [spec_step elements_of floor_of] in *.
    destruct (_ && _); [|unfold exec; by rewrite Hpr]. destruct Hpr as (m' & E' & Him'). exists m'. unfold exec. rewrite E'. split; [done|]. split; [done|cbn [elements_of]; lia].
  - destruct (exec_prune_all m r Him) as (m' & E' & Him'). destruct r as [E p]. cbn [spec_step elements_of floor_of] in *.
    exists m'. split; [done|]. split; [done|cbn [elements_of]; lia].
Qed.

Lemma run_refines ops : ∀ m r, implements m r → count (elements_of r) + Z.of_nat (length ops) ≤ MAX_LOCATION →
  (∀ loc e, Update loc e ∈ ops → 0 ≤ loc) →
  match spec_run r ops with
  | Some (results, r') => ∃ m', run m ops = Some (results, m') ∧ implements m' r'
  | None => run m ops = None
  end.
Proof.
  induction ops as [|o ops IH]; intros m r Him Hlt Ho; [by exists m|]. cbn [length] in Hlt. cbn [spec_run run].
  pose proof (exec_refines m r o Him ltac:(lia) ltac:(intros loc e ->; apply (Ho loc e); constructor)) as Hex.
  destruct (spec_step r o) as [[res r1]|]; [|by rewrite Hex]. destruct Hex as (m1 & E1 & Him1 & Hc1). rewrite E1. cbn [mbind option_bind].
  specialize (IH m1 r1 Him1 ltac:(lia) ltac:(intros loc e Hx; apply (Ho loc e); by constructor)).
  destruct (spec_run r1 ops) as [[results r']|]; cbn [mbind option_bind]; [|by rewrite IH]. destruct IH as (m' & -> & Him'). by exists m'.
Qed.

Lemma new_implements : ∃ m, CleanMmr.new H = Some m ∧ implements m (mkRange [] 0).
Proof.
  destruct (dirty_merkleize H _ false _ _ (new_spec H (leaves_of H []))) as (m & E & Hc & [Ep _]). exists m. split; [exact E|].
  split; [exact Hc|]. by rewrite Ep.
Qed.

(** C21: the range in memory refines the list of its elements.  Any history of
    additions, removals, updates and prunings of a new range returns, operation by
    operation, the positions and the errors that the list determines, and panics
    exactly when a pruning goes back or beyond the end; afterwards the root is that
    of the list. *)
Theorem mem_refines ops : Z.of_nat (length ops) ≤ MAX_LOCATION → (∀ loc e, Update loc e ∈ ops → 0 ≤ loc) →
  ∃ m0, CleanMmr.new H = Some m0 ∧
    match spec_run (mkRange [] 0) ops with
    | Some (results, r) => ∃ m, run m0 ops = Some (results, m) ∧ implements m r ∧
        root (state m) = range_root H (leaves_of H (elements_of r)) (count (elements_of r))
    | None => run m0 ops = None
    end.
Proof.
  intros Hlt Ho. destruct new_implements as (m0 & E0 & Him0). exists m0. split; [exact E0|].
  pose proof (run_refines ops m0 _ Him0 ltac:(simpl; lia) Ho) as Hrun. destruct (spec_run (mkRange [] 0) ops) as [[results r]|]; [|done].
  destruct Hrun as (m & E & Him). exists m. split; [exact E|]. split; [exact Him|]. apply Him.
Qed.

(** C31: recomputing with a thread pool gives the same range as without, nodes and
    root, whatever was added, popped or updated since the root was last computed. *)
Theorem merkleize_parallel_correct (m : Dirty_) f n : dirty_range H m f n →
  merkleize H m true = merkleize H m false ∧ ∃ m', merkleize H m false = Some m' ∧ clean_range H m' f n.
Proof.
  intros Hd. destruct (dirty_merkleize H m true f n Hd) as (m1 & E1 & [Hr1 Ho1] & [Ep1 Epi1]).
  destruct (dirty_merkleize H m false f n Hd) as (m2 & E2 & [Hr2 Ho2] & [Ep2 Epi2]). rewrite E1, E2. split; [|by exists m2].
  pose proof (represents_unique H m2 m1 f n Hr2 Hr1 ltac:(congruence)) as En.
  destruct m1 as [n1 p1 pi1 [o1]], m2 as [n2 p2 pi2 [o2]]. cbn in *. congruence.
Qed.

(** C32: a batch of updates is all or nothing: either a location is refused, the
    first one that is not a leaf or was pruned, and the range is left as it was; or
    the range, recomputed, has the root of the updated leaves, with or without
    threads. *)
Theorem update_leaf_batched_correct (m : Clean_) r us pool : implements m r → (∀ x, x ∈ us → 0 ≤ x.1) →
  match refused (count (elements_of r)) (floor_of r) us.*1 with
  | Some e => DirtyMmr.update_leaf_batched H (into_dirty m) pool us = Some (Err e, into_dirty m)
  | None =>
      let E := foldl (λ E x, <[Z.to_nat x.1 := x.2]> E) (elements_of r) us in
      ∃ m1 m', DirtyMmr.update_leaf_batched H (into_dirty m) pool us = Some (Ok tt, m1) ∧
        merkleize H m1 pool = Some m' ∧ implements m' (mkRange E (floor_of r))
  end.
Proof.
  destruct r as [E p]. intros [Hc Hp] Hus. cbn [elements_of floor_of] in *.
  pose proof (into_dirty_spec H m _ _ Hc) as Hd. pose proof (update_batched_spec H (into_dirty m) pool _ _ us Hd Hus) as Hup.
  change (pruned_to_pos (into_dirty m)) with (pruned_to_pos m) in Hup. rewrite Hp in Hup.
  destruct (refused (count E) p us.*1) as [e|] eqn:Er; [exact Hup|]. destruct Hup as (m1 & E1 & Hd1 & [Ep1 _]).
  destruct (dirty_merkleize H m1 pool _ _ Hd1) as (m' & E' & Hc' & [Ep' _]). exists m1, m'. split; [exact E1|]. split; [exact E'|].
  assert (∀ us E f, (∀ x, x ∈ us → 0 ≤ x.1 < count E) → (∀ j, 0 ≤ j < count E → f j = leaves_of H E j) →
    let E' := foldl (λ E x, <[Z.to_nat x.1 := x.2]> E) E us in
    length E' = length E ∧ ∀ j, 0 ≤ j < count E → upd_all H f us j = leaves_of H E' j) as Hall.
  { clear. induction us as [|[loc e] us IH]; intros E f Hus Hf; [done|]. cbn [foldl fst snd].
    specialize (Hus (loc, e) ltac:(constructor)) as Hl. cbn [fst] in Hl.
    destruct (IH (<[Z.to_nat loc := e]> E) (upd f loc (leaf_digest H (mmr_size loc) e))) as [H1 H2].
    - intros x Hx. rewrite length_insert. apply Hus. by constructor.
    - intros j Hj. rewrite length_insert in Hj. rewrite <- leaves_of_insert by lia. unfold upd. case_match; [done|]. by apply Hf.
    - rewrite length_insert in *. done. }
  destruct (Hall us E (leaves_of H E)) as [Hlen Hleaf]; [|done|].
  { intros x Hx. destruct (refused_none _ _ _ x.1 Er) as [? _]; [by apply list_elem_of_fmap_2|]. specialize (Hus x Hx). lia. }
  split; cbn [elements_of floor_of]; [|by rewrite Ep', Ep1]. rewrite Hlen. by eapply clean_range_ext; [exact Hleaf|].
Qed.

(** ** Rebuilding a range *)

Lemma init_pins_length positions : ∀ (ds : list D) acc, length ds ≠ length positions →
  CleanMmr.init_pins positions ds acc = Err InvalidPinnedNodes.
Proof. induction positions as [|pos positions IH]; intros [|d ds] acc Hl; try done. simpl. apply IH. simpl in Hl. lia. Qed.

Lemma init_pins_lookup (g : Z → option D) positions ds : Forall2 (λ pos d, g pos = Some d) positions ds → ∀ acc,
  ∃ pins, CleanMmr.init_pins positions ds acc = Ok pins ∧
    ∀ pos, pins !! pos = if decide (pos ∈ positions) then g pos else acc !! pos.
Proof.
  induction 1 as [|x d positions ds E Hl IH]; intros acc; [by exists acc|]. cbn [CleanMmr.init_pins].
  destruct (IH (<[x := d]> acc)) as (pins & Ei & Hp). exists pins. split; [exact Ei|]. intros pos. rewrite Hp. destruct (decide (pos = x)) as [->|Hne].
  - rewrite lookup_insert_eq, (decide_True (P := x ∈ x :: positions)) by constructor. by case_decide.
  - rewrite lookup_insert_ne by done. destruct (decide (pos ∈ positions)) as [Hin|Hin].
    + by rewrite decide_True by (by constructor).
    + rewrite decide_False; [done|]. by intros [?|?]%elem_of_cons.
Qed.

(** a range is rebuilt from its retained nodes and the digests of the nodes it
    pins: with as many digests as there are positions to pin it stands for the same
    elements and has the same root, with any other number it is refused. *)
Theorem init_correct (m : Clean_) r : implements m r →
  ∃ positions ds, nodes_to_pin (pruned_to_pos m) = Some positions ∧ map_option (get_node m) positions = Some ds ∧
    (∃ m', CleanMmr.init H (mkConfig (nodes m) (pruned_to_pos m) ds) = Ok m' ∧ implements m' r ∧ nodes m' = nodes m ∧
      root (state m') = root (state m)) ∧
    ∀ ds', length ds' ≠ length positions → CleanMmr.init H (mkConfig (nodes m) (pruned_to_pos m) ds') = Err InvalidPinnedNodes.
Proof.
  destruct r as [E p]. intros [Hc Hfl]. cbn [elements_of floor_of] in *. pose proof (cr_represents _ _ _ _ Hc) as Hr.
  pose proof (represents_fits _ _ _ _ _ Hr) as [Hfit Hn62]. pose proof Hr as [Hn Hp Hs Hnd Hpi Hpd].
  destruct (pins_spec (pruned_to_pos m) ltac:(lia)) as (n0 & Hn0 & Epin & _ & Hpins).
  assert (∀ x, x ∈ peak_nodes 63 0 n0 → aligned x.1 x.2 ∧ get_node m (node_pos x.1 x.2) = Some (tree H (leaves_of H E) x.1 x.2)) as Hget.
  { intros [h k] Hx. apply Hpins in Hx as Hpk. cbn [fst snd]. split; [by apply aligned_S, Hpk|]. unfold get_node.
    rewrite (proj2 (Z.ltb_lt _ _)) by apply Hpk. by apply Hpi. }
  revert Epin Hpins Hget. generalize (peak_nodes 63 0 n0). intros l Epin Hpins Hget.
  set (positions := (λ x, node_pos x.1 x.2) <$> l) in *. set (ds := (λ x, tree H (leaves_of H E) x.1 x.2) <$> l).
  assert (Forall2 (λ pos d, get_node m pos = Some d) positions ds) as Hf2.
  { apply Forall2_fmap, Forall_Forall2_diag, Forall_forall. intros x Hx. by apply Hget. }
  exists positions, ds. split; [exact Epin|]. split.
  { unfold positions, ds. rewrite map_option_fmap. apply map_option_ok. intros x Hx. by apply Hget. }
  assert (∀ ds', CleanMmr.init H (mkConfig (nodes m) (pruned_to_pos m) ds') =
    let? pins := CleanMmr.init_pins positions ds' ∅ in
    expect (merkleize H (mkMmr (nodes m) (pruned_to_pos m) pins (mkDirty [])) false)) as Einit.
  { intros ds'. unfold CleanMmr.init. cbn [cfg_nodes cfg_pruned_to_pos cfg_pinned_nodes]. unfold Position.checked_add, checked_add.
    replace (pruned_to_pos m + Z.of_nat (length (nodes m))) with (mmr_size (count E)) by lia. unfold MAX_POSITION in *.
    rewrite (proj2 (Z.ltb_lt _ _)), (proj2 (Z.leb_le _ _)) by lia. destruct (mmr_size_valid (count E) ltac:(lia)) as [-> _].
    cbn [expect obind negb]. by rewrite Epin. }
  split; [|intros ds' Hl; rewrite Einit, init_pins_length by done; done].
  destruct (init_pins_lookup _ _ _ Hf2 ∅) as (pins & Ei & Hlook). rewrite Einit, Ei. cbn [obind].
  destruct (dirty_merkleize H (mkMmr (nodes m) (pruned_to_pos m) pins (mkDirty [])) false (leaves_of H E) (count E)) as (m' & E' & Hc' & [Ep' Epi']).
  - split; [|apply dirty_ok_nil]. split; cbn; try done.
    + intros h k Hpk. rewrite Hlook, decide_True; [|apply (list_elem_of_fmap_2 (λ x, node_pos x.1 x.2) _ (h, k)); by apply Hpins].
      apply (Hget (h, k)). by apply Hpins.
    + intros h k d Hk Hlt Hd. rewrite Hlook in Hd. case_decide as Hin; [|by rewrite lookup_empty in Hd].
      apply list_elem_of_fmap in Hin as ([h' k'] & Epos & Hx). cbn [fst snd] in Epos. destruct (Hget _ Hx) as [Hk' Eg]. cbn [fst snd] in *.
      rewrite Epos, Eg in Hd. apply node_pos_inj in Epos as [-> ->]; [|done..]. by injection Hd.
  - rewrite E'. exists m'. split; [done|]. split; [split; [exact Hc'|by rewrite Ep']|]. split.
    + by apply (represents_unique H m m' _ _ Hr (cr_represents _ _ _ _ Hc')).
    + by rewrite (cr_root _ _ _ _ Hc), (cr_root _ _ _ _ Hc').
Qed.
End Properties.

Section Proofs.
Context {D : Type} `{!EqDecision D} (H : Hasher D).
Implicit Types r : Range.

(** C22: after any history every range of elements from the pruning position on is
    still provable: the proof is made without an error, and the verifier accepts it
    for the elements against the root of the range.  A range that ends past the
    last leaf panics. *)
Theorem retained_provable (m : Mmr D (Clean D)) r start stop : implements H m r → 0 ≤ start → floor_of r ≤ mmr_size start →
  let E := elements_of r in
  if (start <? count E) && (stop <=? count E) then
    if stop <=? start then CleanMmr.range_proof m start stop = Err Empty
    else ∃ p, CleanMmr.range_proof m start stop = Ok p ∧
      verify_range_inclusion H p (take (Z.to_nat (stop - start)) (drop (Z.to_nat start) E)) start (root (state m)) = Some true
  else CleanMmr.range_proof m start stop = Panic.
Proof.
  destruct r as [E p]. intros [Hc Hp] Ha Hf. cbn [elements_of floor_of] in *. pose proof (cr_represents _ _ _ _ Hc) as Hr.
  pose proof (represents_fits _ _ _ _ _ Hr) as [_ Hn]. unfold CleanMmr.range_proof. rewrite (leaves_spec H m _ _ _ Hr). cbn [expect obind].
  destruct (Z.ltb_spec start (count E)), (Z.leb_spec (count E) start); try lia; cbn [andb]; [|done].
  destruct (Z.leb_spec stop (count E)), (Z.ltb_spec (count E) stop); try lia; [|done].
  rewrite (size_spec H m _ _ _ Hr). cbn [expect obind]. rewrite nodes_required_total by lia. unfold required.
  destruct (Z.leb_spec stop start); [done|]. assert (2 ^ 62 = MAX_LOCATION + 1) as E62 by reflexivity.
  rewrite !(proj2 (Z.ltb_ge _ _)) by lia. cbn [obind].
  pose proof (retained_needed H m (leaves_of H E) (count E) start (stop - 1)) as Hret.
  destruct (fetch_nodes H (leaves_of H E) (count E) (get_node m) (needed (count E) start (stop - 1)) (clean_faithful H m _ _ Hc))
    as [Ef|(x & Hx & Ex & _)].
  - intros x Hx. destruct (needed_side (count E) start (stop - 1) x ltac:(lia) ltac:(lia) ltac:(lia) Hx) as (? & ? & _). done.
  - rewrite Ef. cbn [obind]. eexists. split; [reflexivity|]. rewrite <- canonical_needed, (cr_root _ _ _ _ Hc).
    set (els := take _ _). assert (length els = Z.to_nat (stop - start)) as Hl by (unfold els; rewrite length_take, length_drop; lia).
    replace (stop - 1) with (start + count els - 1) by lia. apply canonical_verifies; [|lia|lia|lia|].
    + intros E0. rewrite E0 in Hl. simpl in Hl. lia.
    + apply prefix_matches; [done|]. apply prefix_take.
  - rewrite (Hret x Hc ltac:(lia) ltac:(lia) ltac:(lia) Hx) in Ex. done.
Qed.
End Proofs.

(** The root of a new range, with the standard hasher. *)
Lemma new_root {D} (hash : bytes → D) (as_ref : D → bytes) : ∃ m, CleanMmr.new (Standard.hasher hash as_ref) = Some m ∧ root (state m) = empty_mmr_root hash.
Proof.
  destruct (new_implements (Standard.hasher hash as_ref)) as (m & E & [Hc _]). exists m. split; [exact E|]. by rewrite (cr_root _ _ _ _ Hc).
Qed.

(** ** Witnesses *)

Notation demo_hasher := Symbolic.hasher.
Definition demo_empty : Symbolic.Dg := GenLeaf [].
(** Four elements, the first two pruned; the third is changed and the fourth removed. *)
Definition demo_ops : list op :=
  [Add (Symbolic.element 0); Add (Symbolic.element 1); Add (Symbolic.element 2); Add (Symbolic.element 3); PruneTo 3;
   Update 1 (Symbolic.element 9); Update 2 (Symbolic.element 7); Pop].

Lemma mem_refines_witness :
  ∃ m0 m, CleanMmr.new demo_hasher = Some m0 ∧
    run demo_hasher demo_empty m0 demo_ops = Some ([Ok 0; Ok 1; Ok 3; Ok 4; Ok 3; Err (ElementPruned 1); Ok 2; Ok 4], m) ∧
    root (state m) = range_root demo_hasher (leaves_of demo_hasher [Symbolic.element 0; Symbolic.element 1; Symbolic.element 7]) 3.
Proof.
  destruct (mem_refines demo_hasher demo_empty demo_ops ltac:(vm_compute; congruence)) as (m0 & E0 & Hrun).
  { intros loc e Hx. unfold demo_ops in Hx. rewrite !elem_of_cons, elem_of_nil in Hx. naive_solver lia. }
  change (spec_run (mkRange [] 0) demo_ops) with
    (Some ([Ok 0; Ok 1; Ok 3; Ok 4; Ok 3; Err (ElementPruned 1); Ok 2; Ok 4] : list (outcome MmrError Z),
      mkRange [Symbolic.element 0; Symbolic.element 1; Symbolic.element 7] 3)) in Hrun.
  destruct Hrun as (m & E & _ & Hroot). exists m0, m. split; [exact E0|]. split; [exact E|exact Hroot].
Defined.

Lemma demo_range : ∃ m, implements demo_hasher m (mkRange [Symbolic.element 0; Symbolic.element 1; Symbolic.element 7] 3).
Proof.
  destruct (new_implements demo_hasher) as (m0 & E0 & Him0).
  pose proof (run_refines demo_hasher demo_empty demo_ops m0 _ Him0 ltac:(vm_compute; congruence)) as Hrun.
  destruct Hrun as (m & _ & Him); [|by exists m].
  intros loc e Hx. unfold demo_ops in Hx. rewrite !elem_of_cons, elem_of_nil in Hx. naive_solver lia.
Qed.

(** Leaves added without recomputing the root. *)
Fixpoint add_leaves (k : nat) (m : Mmr Symbolic.Dg Dirty) : option (Mmr Symbolic.Dg Dirty) :=
  match k with
  | O => Some m
  | S k => '(_, m) ← DirtyMmr.add_leaf_digest demo_empty m (GenLeaf [Z.of_nat k]); add_leaves k m
  end.
Lemma add_leaves_ok k : ∀ m f n, dirty_range demo_hasher m f n → 0 ≤ n → n + Z.of_nat k < MAX_LOCATION →
  ∃ m' f', add_leaves k m = Some m' ∧ dirty_range demo_hasher m' f' (n + Z.of_nat k).
Proof.
  induction k as [|k IH]; intros m f n Hd Hn Hk; cbn [add_leaves]; [exists m, f; by rewrite Z.add_0_r|].
  destruct (add_spec demo_hasher demo_empty m f n (GenLeaf [Z.of_nat k]) Hd ltac:(lia)) as (m1 & -> & H1 & _). cbn.
  destruct (IH m1 _ (n + 1) H1 ltac:(lia) ltac:(lia)) as (m' & f' & E & Hd'). exists m', f'. split; [exact E|].
  by replace (n + Z.of_nat (S k)) with (n + 1 + Z.of_nat k) by lia.
Qed.

(** Of 48 new leaves 46 parents are to be computed: the 24 of height 1 by the threads,
    the 22 above, too few at a height, serially. *)
Definition demo_dirty : Mmr Symbolic.Dg Dirty := default DirtyMmr.new (add_leaves 48 DirtyMmr.new).

Lemma merkleize_parallel_correct_witness :
  (MIN_TO_PARALLELIZE <= length (dirty_nodes (state demo_dirty)))%nat ∧
  length (filter (λ x : Z * Z, x.2 = 1) (dirty_nodes (state demo_dirty))) = 24%nat ∧
  merkleize demo_hasher demo_dirty true = merkleize demo_hasher demo_dirty false ∧ is_Some (merkleize demo_hasher demo_dirty true).
Proof.
  split; [vm_compute; lia|]. split; [vm_compute; reflexivity|].
  destruct (add_leaves_ok 48 DirtyMmr.new _ 0 (new_spec demo_hasher (leaves_of demo_hasher [])) ltac:(lia) ltac:(vm_compute; reflexivity)) as (m & f & E & Hd).
  replace m with demo_dirty in Hd by (unfold demo_dirty; by rewrite E).
  destruct (merkleize_parallel_correct demo_hasher demo_dirty f _ Hd) as (Heq & m' & Em & _).
  split; [exact Heq|]. rewrite Heq, Em. eexists. reflexivity.
Defined.

Lemma update_leaf_batched_correct_witness :
  ∃ m, DirtyMmr.update_leaf_batched demo_hasher (into_dirty m) true [(2, Symbolic.element 4); (3, Symbolic.element 4)] =
    Some (Err (LeafOutOfBounds 3), into_dirty m).
Proof.
  destruct demo_range as (m & Him). exists m.
  exact (update_leaf_batched_correct demo_hasher m _ [(2, Symbolic.element 4); (3, Symbolic.element 4)] true Him
    ltac:(intros x Hx; rewrite !elem_of_cons, elem_of_nil in Hx; destruct Hx as [-> | [-> | []]]; simpl; lia)).
Defined.

Lemma init_correct_witness :
  ∃ m positions ds, implements demo_hasher m (mkRange [Symbolic.element 0; Symbolic.element 1; Symbolic.element 7] 3) ∧
    nodes_to_pin (pruned_to_pos m) = Some positions ∧ map_option (get_node m) positions = Some ds.
Proof.
  destruct demo_range as (m & Him). destruct (init_correct demo_hasher m _ Him) as (positions & ds & E1 & E2 & _).
  exists m, positions, ds. split; [exact Him|]. split; [exact E1|exact E2].
Defined.

Lemma retained_provable_witness :
  ∃ m p, CleanMmr.range_proof m 2 3 = Ok p ∧
    verify_range_inclusion demo_hasher p [Symbolic.element 7] 2 (root (state m)) = Some true.
Proof.
  destruct demo_range as (m & Him).
  destruct (retained_provable demo_hasher m _ 2 3 Him ltac:(lia) ltac:(vm_compute; congruence)) as (p & E1 & E2).
  exists m, p. split; [exact E1|exact E2].
Defined.
End MmrMemProperties.
