(* ===== verification/Bmt.v ===== *)
(** * Binary Merkle Trees (storage/src/bmt/mod.rs)

    The tree is built level by level over position-hashed leaves, the last node of
    an odd level paired with itself; a proof is the list of siblings from a leaf (or
    of the pairs of nodes next to a range of leaves) up to the root.  The hash is a
    function of bytes; a hasher is passed finalized, and each use finalizes it. *)

From S2P Require Import Prelude Codec CodecTypes CodecRecords.
Import CodecTypes CodecRecords.

Module Bmt.

Definition MAX_LEVELS : Z := 255.

(** The two siblings of a range at one level. *)
Record Bounds (D : Type) : Type := mkBounds { left : option D; right : option D }.
Arguments mkBounds {D} _ _.
Arguments left {D} _.
Arguments right {D} _.

Section Ops.
Context {D : Type} `{EqDecision D} (hash : bytes → D) (as_ref : D → bytes).

Inductive Error : Type :=
| InvalidPosition (position : Z)
| InvalidProof (computed root : D)
| NoLeaves
| UnalignedProof.
Notation result := (outcome Error).

Definition leaf_digest (position : Z) (leaf : D) : D := hash (put_be 4 position ++ as_ref leaf).
Definition node_digest (l r : D) : D := hash (as_ref l ++ as_ref r).

(** ** Building *)

Record Builder : Type := mkBuilder { leaves : list D }.
Definition new : Builder := mkBuilder [].
(** [None] is the panic on a position that is no [u32]. *)
Definition add (b : Builder) (leaf : D) : option (Z * Builder) :=
  let position := Z.of_nat (length (leaves b)) in
  if fitsb 32 position then Some (position, mkBuilder (leaves b ++ [leaf_digest position leaf])) else None.

Record Tree : Type := mkTree { empty : bool; levels : list (list D) }.
Implicit Types t : Tree.

Definition is_singleton (level : list D) : bool := (length level =? 1)%nat.
(** The parents of the pairs of a level. *)
Fixpoint parents (level : list D) : list D :=
  match level with
  | [] => []
  | [a] => [node_digest a a]
  | a :: b :: rest => node_digest a b :: parents rest
  end.
(** A level has fewer nodes than the one below. *)
Fixpoint new_loop (fuel : nat) (current_level : list D) : option (list (list D)) :=
  match fuel with
  | O => None
  | S fuel =>
      if is_singleton current_level then Some [current_level]
      else rest ← new_loop fuel (parents current_level); Some (current_level :: rest)
  end.
Definition tree_new (leaves : list D) : option Tree :=
  let '(empty, leaves) := match leaves with [] => (true, [hash []]) | _ => (false, leaves) end in
  levels ← new_loop (length leaves) leaves;
  Some (mkTree empty levels).
Definition build (b : Builder) : option Tree := tree_new (leaves b).

Definition first_level t : list D := match levels t with level :: _ => level | [] => [] end.
Definition root t : option D := level ← last (levels t); head level.

(** ** Proving *)

Fixpoint proof_loop (levels : list (list D)) (index : nat) : option (list D) :=
  match levels with
  | [] => Some []
  | level :: rest =>
      if is_singleton level then Some []
      else
        let sibling_index := if Nat.even index then (index + 1)%nat else (index - 1)%nat in
        sibling ← if (sibling_index <? length level)%nat then level !! sibling_index else level !! index;
        siblings ← proof_loop rest (index / 2);
        Some (sibling :: siblings)
  end.
Definition proof t (position : Z) : result (list D) :=
  if empty t || (wrap 32 (Z.of_nat (length (first_level t))) <=? position) then Err (InvalidPosition position)
  else expect (proof_loop (levels t) (Z.to_nat position)).

Fixpoint range_loop (levels : list (list D)) (level_idx start stop : nat) : option (list (Bounds D)) :=
  match levels with
  | [] => Some []
  | level :: rest =>
      if is_singleton level then Some []
      else
        let level_start := Nat.shiftr start level_idx in
        let level_end := Nat.shiftr stop level_idx in
        l ← if Nat.odd level_start then Some <$> level !! (level_start - 1)%nat else Some None;
        r ← if Nat.even level_end then
              Some <$> (if (level_end + 1 <? length level)%nat then level !! (level_end + 1)%nat else level !! level_end)
            else Some None;
        siblings ← range_loop rest (S level_idx) start stop;
        Some (mkBounds l r :: siblings)
  end.
(** From [start] to [stop], both included. *)
Definition range_proof t (start stop : Z) : result (list (Bounds D)) :=
  if empty t && (start =? 0) && (stop =? 0) then Ok []
  else if stop <? start then Err (InvalidPosition start)
  else
    let leaf_count := wrap 32 (Z.of_nat (length (first_level t))) in
    if leaf_count <=? start then Err (InvalidPosition start)
    else if leaf_count <=? stop then Err (InvalidPosition stop)
    else expect (range_loop (levels t) 0 (Z.to_nat start) (Z.to_nat stop)).

(** ** Verifying *)

Fixpoint verify_loop (siblings : list D) (position : Z) (computed : D) : D :=
  match siblings with
  | [] => computed
  | sibling :: siblings =>
      let '(left_node, right_node) := if position mod 2 =? 0 then (computed, sibling) else (sibling, computed) in
      verify_loop siblings (position / 2) (node_digest left_node right_node)
  end.
Definition verify (siblings : list D) (leaf : D) (position : Z) (root : D) : result unit :=
  let computed := verify_loop siblings position (leaf_digest position leaf) in
  if decide (computed = root) then Ok () else Err (InvalidProof computed root).

Record Node : Type := mkNode { position : nat; digest : D }.

Fixpoint leaf_nodes (position i : Z) (leaves : list D) : option (list Node) :=
  match leaves with
  | [] => Some []
  | leaf :: leaves =>
      leaf_position ← checked_add 32 position (wrap 32 i);
      nodes ← leaf_nodes position (i + 1) leaves;
      Some (mkNode (Z.to_nat leaf_position) (leaf_digest leaf_position leaf) :: nodes)
  end.

(** The nodes in pairs; the last may have its sibling in the proof. *)
Fixpoint pair_loop (r : option D) (nodes : list Node) : result (list Node) :=
  match nodes with
  | [] => Ok []
  | node :: rest =>
      let parent_pos := (position node / 2)%nat in
      match rest with
      | next :: rest =>
          if (position next =? position node + 1)%nat then
            let? next_nodes := pair_loop r rest in
            Ok (mkNode parent_pos (node_digest (digest node) (digest next)) :: next_nodes)
          else Err UnalignedProof
      | [] =>
          match r with
          | Some r => Ok [mkNode parent_pos (node_digest (digest node) r)]
          | None => Err UnalignedProof
          end
      end
  end.
Definition verify_level (nodes : list Node) (bounds : Bounds D) : result (list Node) :=
  let? first := expect (head nodes) in
  let? final := expect (last nodes) in
  let needs_left := Nat.odd (position first) in
  let needs_right := Nat.even (position final) in
  if negb (Bool.eqb needs_left (bool_decide (is_Some (left bounds)))) then Err UnalignedProof
  else if negb (Bool.eqb needs_right (bool_decide (is_Some (right bounds)))) then Err UnalignedProof
  else
    match left bounds with
    | Some l =>
        let? next_nodes := pair_loop (right bounds) (tail nodes) in
        Ok (mkNode (position first / 2)%nat (node_digest l (digest first)) :: next_nodes)
    | None => pair_loop (right bounds) nodes
    end.
Fixpoint verify_levels (nodes : list Node) (siblings : list (Bounds D)) : result (list Node) :=
  match siblings with
  | [] => Ok nodes
  | bounds :: siblings => let? nodes := verify_level nodes bounds in verify_levels nodes siblings
  end.
Definition range_verify (siblings : list (Bounds D)) (position : Z) (leaves : list D) (root : D) : result unit :=
  if (position =? 0) && bool_decide (leaves = []) && bool_decide (length siblings = 0%nat) then
    if decide (hash [] = root) then Ok () else Err (InvalidProof (hash []) root)
  else if bool_decide (leaves = []) then Err NoLeaves
  else
    match checked_add 32 position (wrap 32 (Z.of_nat (length leaves))) with
    | None => Err (InvalidPosition position)
    | Some _ =>
        let? nodes := expect (leaf_nodes position 0 leaves) in
        let? nodes := verify_levels nodes siblings in
        match nodes with
        | [node] => if decide (digest node = root) then Ok () else Err (InvalidProof (digest node) root)
        | _ => Err UnalignedProof
        end
    end.
End Ops.
Arguments Builder : clear implicits.
Arguments Tree : clear implicits.
Arguments Node : clear implicits.
Arguments Error : clear implicits.

(** ** Codecs *)

Section Codecs.
Context {D CD : Type} (digest : codec D CD) (cd : CD).

Definition proof_codec : codec (list D) unit :=
  iso_codec (vec digest) id id (λ _, (RangeCfg.from_range_to_inclusive MAX_LEVELS, cd)).
Definition bounds_codec : codec (Bounds D) unit :=
  iso_codec (tuple2 (option_codec digest) (option_codec digest))
    (λ x, mkBounds x.1 x.2) (λ b, (left b, right b)) (λ _, (cd, cd)).
Definition range_proof_codec : codec (list (Bounds D)) unit :=
  iso_codec (vec bounds_codec) id id (λ _, (RangeCfg.from_range_to_inclusive MAX_LEVELS, tt)).

#[export] Instance bmt_proof_lawful `{!Lawful digest} : Lawful proof_codec.
Proof. apply iso_lawful; [apply _|done..]. Defined.
#[export] Instance bounds_lawful `{!Lawful digest} : Lawful bounds_codec.
Proof. apply iso_lawful; [apply _|by intros []..]. Defined.
#[export] Instance range_proof_lawful `{!Lawful digest} : Lawful range_proof_codec.
Proof. apply iso_lawful; [apply _|done..]. Defined.
End Codecs.
End Bmt.
