(* ===== verification/BmtTree.v ===== *)
(** * The levels of a Binary Merkle Tree

    What the builder makes ([levels_of]: every level the parents of the one below, up
    to a single node), the digests at its places, and the two facts that the proofs
    rest on: a digest computed from a leaf has one place in the tree ([pinned]), and a
    digest of a place has the digests of the places below as its children.  Both hold
    unless the hash maps an input of the verifier to the digest of another input of
    the builder ([clash]). *)

From S2P Require Import Prelude Codec CodecTypes Bmt.
Import CodecTypes Bmt.

Module BmtTree.
(** ** Levels *)

Section Levels.
Context {D : Type} `{EqDecision D} (hash : bytes → D) (as_ref : D → bytes).
Notation leaf_digest := (leaf_digest hash as_ref).
Notation node_digest := (node_digest hash as_ref).
Notation parents := (parents hash as_ref).
Notation new_loop := (new_loop hash as_ref).

(** Hashed leaves, or the node of an empty tree. *)
Definition hashed (leaves : list D) : list D :=
  match leaves with [] => [hash []] | _ => imap (λ i leaf, leaf_digest (Z.of_nat i) leaf) leaves end.

(** The bytes that are hashed: of a leaf, of a node, of the pairs of a level, and of a
    whole tree. *)
Definition leaf_input (position : Z) (leaf : D) : bytes := put_be 4 position ++ as_ref leaf.
Definition node_input (l r : D) : bytes := as_ref l ++ as_ref r.
Fixpoint pair_inputs (level : list D) : list bytes :=
  match level with
  | [] => []
  | [a] => [node_input a a]
  | a :: b :: rest => node_input a b :: pair_inputs rest
  end.
Definition level_inputs (level : list D) : list bytes := if is_singleton level then [] else pair_inputs level.
Definition tree_inputs (leaves : list D) (levels : list (list D)) : list bytes :=
  match leaves with [] => [[]] | _ => imap (λ i leaf, leaf_input (Z.of_nat i) leaf) leaves end ++ concat (level_inputs <$> levels).

Lemma pairs_ind (P : list D → Prop) : P [] → (∀ a, P [a]) → (∀ a b l, P l → P (a :: b :: l)) → ∀ l, P l.
Proof. intros H0 H1 H2. fix IH 1. intros [|a [|b l]]; [done|done|]. apply H2, IH. Qed.

Lemma length_parents l : length (parents l) = ((length l + 1) / 2)%nat.
Proof.
  induction l as [|a|a b l IH] using pairs_ind; [done|done|]. cbn [Bmt.parents length]. rewrite IH.
  replace (S (S (length l)) + 1)%nat with (length l + 1 + 1 * 2)%nat by lia. rewrite Nat.div_add by lia. lia.
Qed.
Lemma lookup_parents l i d : parents l !! i = Some d ↔ ∃ a, l !! (2 * i)%nat = Some a ∧ d = node_digest a (default a (l !! (2 * i + 1)%nat)).
Proof.
  revert i. induction l as [|a|a b l IH] using pairs_ind; intros i.
  - split; [done|]. by intros (a & E & _).
  - destruct i as [|i]; cbn; [split; [intros [= <-]; by exists a|by intros (? & [= <-] & ->)]|].
    replace (i + S (i + 0))%nat with (S (2 * i)) by lia. split; [done|]. by intros (? & E & _).
  - destruct i as [|i]; [cbn; split; [intros [= <-]; by exists a|by intros (? & [= <-] & ->)]|].
    cbn [Bmt.parents]. rewrite lookup_cons. cbn [Nat.eqb]. rewrite IH. replace (2 * S i)%nat with (S (S (2 * i))) by lia. done.
Qed.

Lemma lookup_pair_inputs l i a : l !! (2 * i)%nat = Some a → node_input a (default a (l !! (2 * i + 1)%nat)) ∈ pair_inputs l.
Proof.
  revert i. induction l as [|x|x y l IH] using pairs_ind; intros i.
  - done.
  - destruct i as [|i]; cbn; [intros [= <-]; by left|]. by replace (i + S (i + 0))%nat with (S (2 * i)) by lia.
  - destruct i as [|i]; [cbn; intros [= <-]; by left|]. cbn [pair_inputs]. intros E. right.
    replace (2 * S i)%nat with (S (S (2 * i))) in * by lia. by apply IH.
Qed.

Lemma leaf_hashed ls L i leaf : ls !! i = Some leaf → leaf_input (Z.of_nat i) leaf ∈ tree_inputs ls L.
Proof.
  intros E. unfold tree_inputs. apply elem_of_app. left. destruct ls as [|x ls']; [done|]. apply (list_elem_of_lookup_2 _ i). by rewrite list_lookup_imap, E.
Qed.
Lemma empty_hashed ls L : ls = [] → [] ∈ tree_inputs ls L.
Proof. intros ->. by left. Qed.

(** The levels over [l]: each the parents of the one below, until one node is left. *)
Record levels_of (l : list D) (L : list (list D)) (r : D) : Prop := {
  lv_first : L !! 0%nat = Some l;
  lv_next k l' : L !! S k = Some l' → ∃ l0, L !! k = Some l0 ∧ (1 < length l0)%nat ∧ l' = parents l0;
  lv_last : last L = Some [r];
}.

Lemma new_loop_ok fuel : ∀ l, (0 < length l ≤ fuel)%nat → ∃ L r, new_loop fuel l = Some L ∧ levels_of l L r ∧ (length L ≤ fuel)%nat.
Proof.
  induction fuel as [|fuel IH]; intros l Hl; [lia|]. cbn [Bmt.new_loop]. unfold is_singleton. destruct (Nat.eqb_spec (length l) 1) as [E|Hne].
  - destruct l as [|r [|]]; [done| |done]. exists [[r]], r. split; [done|]. split; [|simpl; lia]. split; [done|by intros k l'|done].
  - destruct (IH (parents l)) as (L & r & -> & [H1 H2 H3] & Hlen).
    { rewrite length_parents. split; [apply Nat.div_str_pos; lia|]. apply Nat.lt_succ_r, Nat.div_lt_upper_bound; lia. }
    cbn. exists (l :: L), r. split; [done|]. split; [|simpl; lia]. split; [done| |].
    + intros k l' E. change (L !! k = Some l') in E. destruct k as [|k].
      * rewrite H1 in E. injection E as <-. exists l. split; [done|]. split; [lia|done].
      * apply H2 in E as (x & Ex & ?). by exists x.
    + rewrite last_cons, H3. done.
Qed.

(** The tree of fewer than 2^32 leaves. *)
Class BuiltFrom (leaves : list D) (L : list (list D)) (r : D) : Prop := {
  built_levels : levels_of (hashed leaves) L r;
  built_small : Z.of_nat (length leaves) < 2 ^ 32;
}.

Context {ls : list D} {L : list (list D)} {r : D} `{HB : !BuiltFrom ls L r}.
Notation top := (length L - 1)%nat.

Lemma level_top : L !! top = Some [r].
Proof. pose proof (lv_last _ _ _ built_levels) as E. rewrite last_lookup in E. by replace (pred (length L)) with top in E by lia. Qed.
(** Below the top a level has several nodes. *)
Lemma level_below k : (k < top)%nat → ∃ l, L !! k = Some l ∧ (1 < length l)%nat ∧ L !! S k = Some (parents l).
Proof.
  intros Hk. destruct (lookup_lt_is_Some_2 L (S k)) as [l' E]; [lia|]. destruct (lv_next _ _ _ built_levels _ _ E) as (l & El & Hl & ->). eauto.
Qed.

(** The digest at a place. *)
Definition at_ (k i : nat) : option D := l ← L !! k; l !! i.

Lemma few_leaves : Z.of_nat (length ls) < 2 ^ 32.
Proof. apply built_small. Qed.
Lemma at_first i : at_ 0 i = hashed ls !! i.
Proof. unfold at_. by rewrite (lv_first _ _ _ built_levels). Qed.
Lemma at_parent k i d : at_ (S k) i = Some d → ∃ a b, at_ k (2 * i)%nat = Some a ∧ b = default a (at_ k (2 * i + 1)%nat) ∧
  d = node_digest a b ∧ node_input a b ∈ tree_inputs ls L.
Proof.
  unfold at_. destruct (L !! S k) as [l'|] eqn:E; [|done]. destruct (lv_next _ _ _ built_levels _ _ E) as (l & El & Hl & ->). rewrite El. cbn.
  intros (a & Ea & ->)%lookup_parents. eexists a, _. split; [done|]. split; [done|]. split; [done|].
  unfold tree_inputs. apply elem_of_app. right. apply list_elem_of_In, in_concat. exists (level_inputs l). split.
  - apply list_elem_of_In, list_elem_of_fmap. exists l. split; [done|]. by apply list_elem_of_lookup_2 in El.
  - unfold level_inputs, is_singleton. rewrite (proj2 (Nat.eqb_neq _ _)) by lia. apply list_elem_of_In. by apply lookup_pair_inputs.
Qed.
Lemma at_children k i a : (k < top)%nat → at_ k (2 * i)%nat = Some a → at_ (S k) i = Some (node_digest a (default a (at_ k (2 * i + 1)%nat))).
Proof.
  intros Hk. destruct (level_below k Hk) as (l & El & _ & E'). unfold at_. rewrite El, E'. cbn. intros Ea. apply lookup_parents. eauto.
Qed.
Lemma at_top i d : at_ top i = Some d → i = 0%nat ∧ d = r.
Proof. unfold at_. rewrite level_top. cbn. intros [-> ->]%list_lookup_singleton_Some. done. Qed.

End Levels.

(** ** The bytes that are hashed *)

(** What the trees rely on: digests have [digest_width] bytes and are told apart by
    them.  A leaf is hashed from [4 + digest_width] bytes, a node from twice
    [digest_width], an empty tree from none. *)
Class DigestBytes {D} (as_ref : D → bytes) : Type := {
  digest_width : nat;
  as_ref_length d : length (as_ref d) = digest_width;
  as_ref_inj d d' : as_ref d = as_ref d' → d = d';
  width_positive : (0 < digest_width)%nat;
  width_not_position : digest_width ≠ 4%nat;
}.

Section Places.
Context {D : Type} `{EqDecision D} (hash : bytes → D) (as_ref : D → bytes) `{HD : !DigestBytes as_ref}.
Notation leaf_digest := (leaf_digest hash as_ref).
Notation node_digest := (node_digest hash as_ref).
Notation leaf_input := (leaf_input as_ref).
Notation node_input := (node_input as_ref).

(** An input of the one list has the hash of another input of the other list. *)
Definition clash (built verified : list bytes) : Prop := ∃ a b, a ∈ built ∧ b ∈ verified ∧ a ≠ b ∧ hash a = hash b.

#[export] Instance clash_dec built verified : Decision (clash built verified).
Proof.
  refine (cast_if (decide (Exists (λ a, Exists (λ b, a ≠ b ∧ hash a = hash b) verified) built))); unfold clash.
  - abstract (match goal with H : Exists _ _ |- _ => apply Exists_exists in H as (a & Ha & (b & Hb & ?)%Exists_exists); by exists a, b end).
  - abstract (intros (a & b & Ha & Hb & ?); match goal with H : ¬ Exists _ _ |- _ => apply H end; apply Exists_exists; exists a; split; [done|]; apply Exists_exists; by exists b).
Defined.

(** [V]: the inputs of the verifier. *)
Context (V : list bytes) {ls : list D} {L : list (list D)} {r : D} `{HB : !BuiltFrom hash as_ref ls L r}.
Notation top := (length L - 1)%nat.
Notation at_ := (at_ (L := L)).
Notation built := (tree_inputs as_ref ls L).

Definition collision : Prop := clash built V.

Lemma hash_inj a b : a ∈ built → b ∈ V → hash a = hash b → a = b ∨ collision.
Proof. intros Ha Hb E. destruct (decide (a = b)); [by left|]. right. by exists a, b. Qed.
Lemma length_ne a b : a ∈ built → b ∈ V → hash a = hash b → length a ≠ length b → collision.
Proof. intros Ha Hb [->|C]%hash_inj Hl; done. Qed.
Lemma length_leaf p e : length (leaf_input p e) = (4 + digest_width)%nat.
Proof. unfold BmtTree.leaf_input. by rewrite length_app, length_put_be, as_ref_length. Qed.
Lemma length_node a b : length (node_input a b) = (digest_width + digest_width)%nat.
Proof. unfold BmtTree.node_input. by rewrite length_app, !as_ref_length. Qed.

Lemma leaf_inj p e p' e' : fits 32 p → fits 32 p' → leaf_input p e ∈ built → leaf_input p' e' ∈ V →
  leaf_digest p e = leaf_digest p' e' → p = p' ∧ e = e' ∨ collision.
Proof.
  intros Hp Hp' Hb Hv [E|C]%hash_inj; [left|by right|done|done]. apply app_inv_length in E as [E1 E2]; [|by rewrite !length_put_be].
  split; [|by apply as_ref_inj]. apply (f_equal get_be) in E1. rewrite !get_put_be in E1. unfold fits in *. change (Z.of_nat 4 * 8) with 32 in E1. by rewrite !Z.mod_small in E1 by lia.
Qed.
Lemma node_inj l r' l' r'' : node_input l r' ∈ built → node_input l' r'' ∈ V → node_digest l r' = node_digest l' r'' → l = l' ∧ r' = r'' ∨ collision.
Proof.
  intros Hb Hv [E|C]%hash_inj; [left|by right|done|done]. apply app_inv_length in E as [E1 E2]; [|by rewrite !as_ref_length].
  split; by apply as_ref_inj.
Qed.

(** ** Places of computed digests *)

(** Unless the hash collides, [d] is nowhere in the tree but at level [k], [i]. *)
Definition pinned (k i : nat) (d : D) : Prop := ∀ k' j, at_ k' j = Some d → k' = k ∧ j = i ∨ collision.

Lemma pinned_node k i a b : node_input a b ∈ V → pinned k (2 * i)%nat a ∨ pinned k (2 * i + 1)%nat b →
  (∀ j, at_ 0 j = Some (node_digest a b) → collision) → pinned (S k) i (node_digest a b).
Proof.
  intros Hv H H0 [|k'] j E; [right; by eapply H0|]. apply (at_parent hash as_ref _ _ _) in E as (a' & b' & Ea & Eb & E & Hb). symmetry in E.
  destruct (node_inj _ _ _ _ Hb Hv E) as [[-> ->]|C]; [|by right]. destruct H as [H|H].
  - destruct (H _ _ Ea) as [[-> ?]|C]; [left; split; [done|lia]|by right].
  - destruct (at_ k' (2 * j + 1)%nat) as [b'|] eqn:Eb'; cbn in Eb.
    + subst b. destruct (H _ _ Eb') as [[-> ?]|C]; [left; split; [done|lia]|by right].
    + subst b. destruct (H _ _ Ea) as [[-> ?]|C]; [lia|by right].
Qed.

Lemma at_leaf i d : at_ 0 i = Some d → (∃ leaf, ls !! i = Some leaf ∧ d = leaf_digest (Z.of_nat i) leaf) ∨ ls = [] ∧ d = hash [].
Proof.
  rewrite (at_first hash as_ref). unfold hashed. destruct ls as [|x ls']; [intros [_ ->]%list_lookup_singleton_Some; by right|].
  rewrite list_lookup_imap. intros (leaf & E & ->)%fmap_Some. left. eauto.
Qed.
Lemma leaf_at i leaf : ls !! i = Some leaf → at_ 0 i = Some (leaf_digest (Z.of_nat i) leaf).
Proof.
  intros E. rewrite (at_first hash as_ref). unfold hashed. destruct ls; [done|]. by rewrite list_lookup_imap, E.
Qed.
Lemma node_not_leaf a b j : node_input a b ∈ V → at_ 0 j = Some (node_digest a b) → collision.
Proof.
  intros Hv [(leaf & El & E)|[El E]]%at_leaf; symmetry in E.
  - eapply length_ne; [by apply leaf_hashed|exact Hv|exact E|]. rewrite length_leaf, length_node. pose proof width_not_position. lia.
  - eapply length_ne; [by apply empty_hashed|exact Hv|exact E|]. rewrite length_node. simpl. pose proof width_positive. lia.
Qed.
Lemma leaf_not_empty p e : leaf_input p e ∈ V → ls = [] → leaf_digest p e = hash [] → collision.
Proof. intros Hv El E. symmetry in E. eapply length_ne; [by apply empty_hashed|exact Hv|exact E|]. rewrite length_leaf. simpl. lia. Qed.
Lemma pinned_leaf i leaf : Z.of_nat i < 2 ^ 32 → leaf_input (Z.of_nat i) leaf ∈ V → pinned 0 i (leaf_digest (Z.of_nat i) leaf).
Proof.
  pose proof (few_leaves hash as_ref) as Hn. intros Hi Hv [|k] j E.
  - apply at_leaf in E as [(leaf' & El & E)|[El E]]; [|right; by eapply leaf_not_empty]. pose proof (lookup_lt_Some _ _ _ El). symmetry in E.
    destruct (leaf_inj (Z.of_nat j) leaf' (Z.of_nat i) leaf ltac:(unfold fits; lia) ltac:(unfold fits; lia) (leaf_hashed as_ref _ _ _ _ El) Hv E) as [[? _]|C]; [left; split; [done|lia]|by right].
  - apply (at_parent hash as_ref _ _ _) in E as (a & b & _ & _ & E & Hb). right. symmetry in E.
    eapply length_ne; [exact Hb|exact Hv|exact E|]. rewrite length_leaf, length_node. pose proof width_not_position. lia.
Qed.
Lemma pinned_parent k i a b : node_input a b ∈ V → pinned k (2 * i)%nat a ∨ pinned k (2 * i + 1)%nat b → pinned (S k) i (node_digest a b).
Proof. intros Hv H. apply pinned_node; [done|done|]. intros j. by apply node_not_leaf. Qed.
Lemma pinned_top k i : pinned k i r → k = top ∧ i = 0%nat ∨ collision.
Proof. intros H. destruct (H top 0%nat) as [[-> ->]|C]; [|by left|by right]. unfold at_. by rewrite (level_top hash as_ref). Qed.

(** The children in the tree of a node that the verifier computed. *)
Lemma children k i a b : node_input a b ∈ V → at_ (S k) i = Some (node_digest a b) →
  at_ k (2 * i)%nat = Some a ∧ b = default a (at_ k (2 * i + 1)%nat) ∨ collision.
Proof.
  intros Hv (a' & b' & Ea & Eb & E & Hb)%(at_parent hash as_ref _ _ _). symmetry in E.
  destruct (node_inj _ _ _ _ Hb Hv E) as [[-> ->]|C]; [by left|by right].
Qed.
Lemma child_left k i a b : node_input a b ∈ V → at_ (S k) i = Some (node_digest a b) → at_ k (2 * i)%nat = Some a ∨ collision.
Proof. intros Hv [[Ea _]|C]%children; [by left|by right|done]. Qed.
Lemma child_right k i a b : node_input a b ∈ V → at_ (S k) i = Some (node_digest a b) → pinned k (2 * i + 1)%nat b → at_ k (2 * i + 1)%nat = Some b ∨ collision.
Proof.
  intros Hv [[Ea Eb]|C]%children H; [|by right|done]. destruct (at_ k (2 * i + 1)%nat) as [b'|] eqn:E; cbn in Eb; [left; by subst|].
  subst b. destruct (H _ _ Ea) as [[_ ?]|C]; [lia|by right].
Qed.
(** The sibling on the right is the next node, or the node itself at the end. *)
Lemma right_sibling k i a b : node_input a b ∈ V → at_ (S k) i = Some (node_digest a b) → b = default a (at_ k (2 * i + 1)%nat) ∨ collision.
Proof. intros Hv [[_ Eb]|C]%children; [by left|by right|done]. Qed.
End Places.
End BmtTree.
