(* ===== verification/BmtProperties.v ===== *)
(** * Proofs of Binary Merkle Trees

    The verifiers accept exactly the proofs the tree makes, for exactly the leaves it
    was built from, unless an input the verifier hashes has the digest of another input
    the builder hashed; the provers return a proof or the documented error. *)

From S2P Require Import Prelude Codec CodecTypes Bmt BmtTree.
Import CodecTypes Bmt BmtTree.

Module BmtProperties.

Lemma subset_cons (x : bytes) (l W : list bytes) : x :: l ⊆ W ↔ x ∈ W ∧ l ⊆ W.
Proof. set_solver. Qed.


(** The tree of a sequence of leaves. *)
Section Built.
Context {D : Type} `{EqDecision D} (hash : bytes → D) (as_ref : D → bytes).

Fixpoint add_all (b : Builder D) (ls : list D) : option (Builder D) :=
  match ls with [] => Some b | leaf :: ls => '(_, b) ← add hash as_ref b leaf; add_all b ls end.
Definition tree_of (ls : list D) : option (Tree D) := b ← add_all new ls; build hash as_ref b.

Lemma add_all_ok ls : ∀ b, Z.of_nat (length (leaves b) + length ls) < 2 ^ 32 →
  add_all b ls = Some (mkBuilder (leaves b ++ imap (λ i leaf, leaf_digest hash as_ref (Z.of_nat (length (leaves b) + i)) leaf) ls)).
Proof.
  induction ls as [|leaf ls IH]; intros [bl] Hl; cbn in *; [by rewrite app_nil_r|].
  unfold add. cbn. assert (fitsb 32 (Z.of_nat (length bl)) = true) as -> by (apply fitsb_spec; unfold fits; lia). cbn.
  rewrite IH by (cbn; rewrite length_app; cbn; lia). cbn. f_equal. f_equal. rewrite <- app_assoc. cbn. rewrite Nat.add_0_r. do 2 f_equal.
  apply imap_ext. intros i x _. cbn. rewrite length_app. cbn. do 2 f_equal. lia.
Qed.

Lemma tree_of_ok ls : Z.of_nat (length ls) < 2 ^ 32 → ∃ L r,
  tree_of ls = Some (mkTree (bool_decide (ls = [])) L) ∧ levels_of hash as_ref (hashed hash as_ref ls) L r ∧
  root (mkTree (bool_decide (ls = [])) L) = Some r ∧ (length L ≤ S (length ls))%nat.
Proof.
  intros Hl. unfold tree_of. rewrite (add_all_ok ls new) by (cbn; lia). cbn. unfold build, tree_new. cbn.
  set (hs := imap _ ls). assert (length hs = length ls) as Eh by apply length_imap.
  assert ((match hs with [] => (true, [hash []]) | _ :: _ => (false, hs) end) = (bool_decide (ls = []), hashed hash as_ref ls)) as ->
    by (by destruct ls).
  destruct (new_loop_ok hash as_ref (length (hashed hash as_ref ls)) (hashed hash as_ref ls)) as (L & r & -> & HL & Hlen).
  { destruct ls; cbn; lia. }
  exists L, r. split; [done|]. split; [done|]. split.
  - unfold root. cbn. by rewrite (lv_last _ _ _ _ _ HL).
  - destruct ls; cbn in *; rewrite ?length_imap in Hlen; lia.
Qed.
End Built.

Section Proofs.
Context {D : Type} `{EqDecision D} (hash : bytes → D) (as_ref : D → bytes) `{HD : !DigestBytes as_ref}.
Notation leaf_digest := (leaf_digest hash as_ref).
Notation node_digest := (node_digest hash as_ref).
Notation verify_loop := (verify_loop hash as_ref).
Notation leaf_input := (leaf_input as_ref).
Notation node_input := (node_input as_ref).

(** The bytes that [verify] hashes. *)
Fixpoint climb_inputs (siblings : list D) (position : Z) (computed : D) : list bytes :=
  match siblings with
  | [] => []
  | sibling :: siblings =>
      let '(left_node, right_node) := if position mod 2 =? 0 then (computed, sibling) else (sibling, computed) in
      node_input left_node right_node :: climb_inputs siblings (position / 2) (node_digest left_node right_node)
  end.
Definition verify_inputs (siblings : list D) (leaf : D) (position : Z) : list bytes :=
  leaf_input position leaf :: climb_inputs siblings position (leaf_digest position leaf).

Section Levels.
Context (V : list bytes) {ls : list D} {L : list (list D)} {r : D} `{HB : !BuiltFrom hash as_ref ls L r}.
Notation top := (length L - 1)%nat.
Notation at_ := (at_ (L := L)).
Notation pinned := (pinned hash as_ref V (ls := ls) (L := L)).
Notation collision := (collision hash as_ref V (ls := ls) (L := L)).

Lemma below k l : L !! k = Some l → drop k L = l :: drop (S k) L.
Proof. apply drop_S. Qed.
Lemma drop_top : drop top L = [[r]].
Proof.
  pose proof (level_top hash as_ref) as E. rewrite (below _ _ E). f_equal. apply drop_ge. apply lookup_lt_Some in E. lia.
Qed.

(** ** Proofs of one leaf *)

Definition parent_of (i : nat) (c x : D) : D := if Nat.even i then node_digest c x else node_digest x c.
Definition parent_input (i : nat) (c x : D) : bytes := if Nat.even i then node_input c x else node_input x c.
Lemma even_mod i : Z.of_nat i mod 2 = if Nat.even i then 0 else 1.
Proof.
  destruct (Nat.even i) eqn:E.
  - apply Nat.even_spec in E as [m ->]. rewrite Nat2Z.inj_mul, Z.mul_comm. by apply Z.mod_mul.
  - rewrite <- Nat.negb_odd in E. apply negb_false_iff, Nat.odd_spec in E as [m ->].
    rewrite Nat2Z.inj_add, Nat2Z.inj_mul, Z.add_comm, Z.mul_comm. by rewrite Z.mod_add.
Qed.
Lemma climb_inputs_cons x s i c : climb_inputs (x :: s) (Z.of_nat i) c = parent_input i c x :: climb_inputs s (Z.of_nat (i / 2)) (parent_of i c x).
Proof. cbn [climb_inputs]. rewrite Nat2Z.inj_div, even_mod. unfold parent_of, parent_input. by destruct (Nat.even i). Qed.
Lemma verify_loop_cons x s i c : verify_loop (x :: s) (Z.of_nat i) c = verify_loop s (Z.of_nat (i / 2)) (parent_of i c x).
Proof. cbn [Bmt.verify_loop]. rewrite Nat2Z.inj_div, even_mod. unfold parent_of. by destruct (Nat.even i). Qed.
Lemma half_cases i : Nat.even i = true ∧ i = (2 * (i / 2))%nat ∨ Nat.even i = false ∧ i = (2 * (i / 2) + 1)%nat.
Proof. rewrite <- Nat.div2_div. destruct (Nat.Even_or_Odd i) as [H|H]; [left|right]; split; [by apply Nat.even_spec|by apply Nat.Even_double in H; unfold Nat.double in H; lia| |apply Nat.Odd_double in H; unfold Nat.double in H; lia].
  rewrite <- Nat.negb_odd. apply negb_false_iff. by apply Nat.odd_spec.
Qed.

Lemma pinned_parent_of k i c x : parent_input i c x ∈ V → pinned k i c → pinned (S k) (i / 2) (parent_of i c x).
Proof.
  intros Hv H. unfold parent_input in Hv. unfold parent_of. destruct (half_cases i) as [[Ev E]|[Ev E]]; rewrite Ev in *; eapply pinned_parent; try done; [left|right]; by rewrite <- E.
Qed.
Lemma climb_pinned s : ∀ k i c, climb_inputs s (Z.of_nat i) c ⊆ V → pinned k i c → pinned (k + length s) (i / 2 ^ length s)%nat (verify_loop s (Z.of_nat i) c).
Proof.
  induction s as [|x s IH]; intros k i c Hv H.
  - cbn [length Bmt.verify_loop]. by rewrite Nat.add_0_r, Nat.div_1_r.
  - rewrite climb_inputs_cons in Hv. apply subset_cons in Hv as [Hx Hv]. rewrite verify_loop_cons. cbn [length]. rewrite Nat.pow_succ_r', <- Nat.Div0.div_div, <- Nat.add_succ_comm. by apply IH, pinned_parent_of.
Qed.

(** One level of a proof made by the tree. *)
Lemma proof_loop_below k i c : (k < top)%nat → at_ k i = Some c → ∃ x,
  proof_loop (drop k L) i = (s ← proof_loop (drop (S k) L) (i / 2); Some (x :: s)) ∧ at_ (S k) (i / 2) = Some (parent_of i c x) ∧
  parent_input i c x ∈ tree_inputs as_ref ls L.
Proof.
  intros Hk Ec. destruct (level_below hash as_ref k Hk) as (l & El & Hl & _). rewrite (below _ _ El). cbn [proof_loop].
  unfold is_singleton. rewrite (proj2 (Nat.eqb_neq _ _)) by lia.
  pose proof Ec as Ec'. unfold at_ in Ec'. rewrite El in Ec'. cbn in Ec'. pose proof (lookup_lt_Some _ _ _ Ec') as Hi.
  assert (∀ j, at_ k j = l !! j) as Hat by (intros j; unfold BmtTree.at_; by rewrite El).
  unfold parent_of. destruct (half_cases i) as [[Ev E]|[Ev E]]; rewrite Ev.
  - exists (default c (l !! (i + 1)%nat)). split.
    + destruct (Nat.ltb_spec (i + 1) (length l)) as [Hlt|Hge].
      * apply lookup_lt_is_Some_2 in Hlt as [y ->]. done.
      * rewrite (lookup_ge_None_2 l (i + 1)) by done. rewrite Ec'. done.
    + assert (at_ (S k) (i / 2) = Some (node_digest c (default c (l !! (i + 1)%nat)))) as Ep.
      { rewrite <- Hat. rewrite E at 2. apply (at_children hash as_ref); [done|]. by rewrite <- E. }
      split; [done|]. unfold parent_input. rewrite Ev. destruct (at_parent hash as_ref _ _ _ Ep) as (a & b & Ea & -> & _ & Hb).
      rewrite <- E, Hat in Ea, Hb. rewrite Ec' in Ea. by injection Ea as <-.
  - destruct (lookup_lt_is_Some_2 l (i - 1)) as [x Ex]; [lia|]. exists x. split.
    + rewrite (proj2 (Nat.ltb_lt _ _)) by lia. by rewrite Ex.
    + assert (at_ (S k) (i / 2) = Some (node_digest x (default x (at_ k (2 * (i / 2) + 1)%nat)))) as ->.
      { apply (at_children hash as_ref); [done|]. rewrite Hat. by replace (2 * (i / 2))%nat with (i - 1)%nat by lia. }
      rewrite <- E, Ec. split; [done|]. unfold parent_input. rewrite Ev.
      assert (at_ (S k) (i / 2) = Some (node_digest x c)) as Ep.
      { rewrite (at_children hash as_ref k _ x); [by rewrite <- E, Ec|done|]. rewrite Hat. by replace (2 * (i / 2))%nat with (i - 1)%nat by lia. }
      destruct (at_parent hash as_ref _ _ _ Ep) as (a & b & Ea & -> & _ & Hb). rewrite <- E, Ec in Hb.
      rewrite Hat in Ea. replace (2 * (i / 2))%nat with (i - 1)%nat in Ea by lia. rewrite Ex in Ea. by injection Ea as <-.
Qed.

Lemma climb_complete m : ∀ k i c, (k + m)%nat = top → at_ k i = Some c → ∃ s,
  proof_loop (drop k L) i = Some s ∧ verify_loop s (Z.of_nat i) c = r ∧ length s = m.
Proof.
  induction m as [|m IH]; intros k i c Hk Ec.
  - replace k with top in * by lia. destruct (at_top hash as_ref i c Ec) as [-> ->]. exists []. by rewrite drop_top.
  - destruct (proof_loop_below k i c ltac:(lia) Ec) as (x & -> & Ex & _). destruct (IH (S k) (i / 2)%nat _ ltac:(lia) Ex) as (s & -> & Es & Hl).
    exists (x :: s). split; [done|]. rewrite verify_loop_cons. split; [done|]. cbn. lia.
Qed.

Lemma climb_sound s : ∀ k i c, climb_inputs s (Z.of_nat i) c ⊆ V → (k + length s)%nat = top → (i / 2 ^ length s = 0)%nat → pinned k i c → verify_loop s (Z.of_nat i) c = r →
  at_ k i = Some c ∧ proof_loop (drop k L) i = Some s ∨ collision.
Proof.
  induction s as [|x s IH]; intros k i c Hv Hk Hi Hp Er.
  - cbn [length Bmt.verify_loop] in Hk, Hi, Er. rewrite Nat.pow_0_r, Nat.div_1_r in Hi. replace k with top by lia. subst. left. rewrite drop_top. split; [|done].
    unfold at_. by rewrite (level_top hash as_ref).
  - rewrite climb_inputs_cons in Hv. apply subset_cons in Hv as [Hx Hv]. rewrite verify_loop_cons in Er. cbn [length] in Hk, Hi. rewrite Nat.pow_succ_r', <- Nat.Div0.div_div in Hi.
    destruct (IH (S k) (i / 2)%nat (parent_of i c x) Hv ltac:(lia) Hi (pinned_parent_of k i c x Hx Hp) Er) as [[Ec Es]|C]; [|by right].
    assert (at_ k i = Some c ∨ collision) as [Ei|C]; [| |by right].
    { unfold parent_of in Ec. unfold parent_input in Hx. destruct (half_cases i) as [[Ev E]|[Ev E]]; rewrite Ev in Ec, Hx.
      - rewrite E at 1. by eapply child_left.
      - rewrite E at 1. eapply child_right; [done..|]. by rewrite <- E. }
    destruct (proof_loop_below k i c ltac:(lia) Ei) as (x' & Ep & Ex' & Hb). rewrite Ep, Es. cbn. rewrite Ec in Ex'.
    assert (x = x' ∨ collision) as [->|C]; [|by left|by right]. injection Ex' as Ex'. symmetry in Ex'.
    unfold parent_of in Ex'. unfold parent_input in Hx, Hb. destruct (Nat.even i); apply (node_inj hash as_ref V _ _ _ _ Hb Hx) in Ex' as [[??]|?]; by (left + right).
Qed.

(** Fewer than 2^32 leaves have at most 33 levels. *)
Lemma level_size k : ∀ l, L !! k = Some l → (Z.of_nat (length l) - 1) * 2 ^ Z.of_nat k ≤ Z.of_nat (length (hashed hash as_ref ls)) - 1.
Proof.
  pose proof (built_levels hash as_ref (leaves := ls) (L := L) (r := r)) as HL. induction k as [|k IH]; intros l El.
  - rewrite (lv_first _ _ _ _ _ HL) in El. injection El as <-. lia.
  - destruct (lv_next _ _ _ _ _ HL _ _ El) as (l0 & El0 & Hl0 & ->). specialize (IH l0 El0).
    rewrite length_parents, Nat2Z.inj_div, Nat2Z.inj_add, (Nat2Z.inj_succ k), Z.pow_succ_r by lia.
    assert (2 * ((Z.of_nat (length l0) + Z.of_nat 1) / Z.of_nat 2) ≤ Z.of_nat (length l0) + 1) by (apply Z.mul_div_le; lia).
    assert (0 < 2 ^ Z.of_nat k) by (apply Z.pow_pos_nonneg; lia). nia.
Qed.
Lemma top_small : Z.of_nat top ≤ 32.
Proof.
  destruct (decide (Z.of_nat top ≤ 32)) as [|Hgt]; [done|]. destruct (level_below hash as_ref 32) as (l & El & Hl & _); [lia|].
  pose proof (level_size 32 l El) as Hs. pose proof (few_leaves hash as_ref) as Hn. change (Z.of_nat 32) with 32 in Hs.
  assert (length (hashed hash as_ref ls) ≤ S (length ls))%nat by (unfold hashed; destruct ls; cbn; rewrite ?length_imap; lia). nia.
Qed.

(** The digest of a leaf that verifies is that leaf. *)
Lemma leaf_in_tree i leaf : leaf_input (Z.of_nat i) leaf ∈ V → Z.of_nat i < 2 ^ 32 → at_ 0 i = Some (leaf_digest (Z.of_nat i) leaf) → ls !! i = Some leaf ∨ collision.
Proof.
  intros Hv Hi E. pose proof (few_leaves hash as_ref) as Hn. apply (at_leaf hash as_ref) in E as [(leaf' & El & E)|[El E]]; [|right; by eapply leaf_not_empty].
  symmetry in E. destruct (leaf_inj hash as_ref V (ls := ls) (L := L) (Z.of_nat i) leaf' (Z.of_nat i) leaf ltac:(unfold fits; lia) ltac:(unfold fits; lia) (leaf_hashed as_ref _ _ _ _ El) Hv E) as [[_ <-]|C]; [by left|by right].
Qed.
Lemma verify_sound s i leaf : verify_inputs s leaf (Z.of_nat i) ⊆ V → Z.of_nat i < 2 ^ 32 →
  verify_loop s (Z.of_nat i) (leaf_digest (Z.of_nat i) leaf) = r → ls !! i = Some leaf ∧ proof_loop L i = Some s ∨ collision.
Proof.
  intros [Hl Hv]%subset_cons Hi E. pose proof (pinned_leaf hash as_ref V i leaf Hi Hl) as Hp. pose proof (climb_pinned s _ _ _ Hv Hp) as Ht. rewrite E in Ht.
  destruct (pinned_top hash as_ref V _ _ Ht) as [[Hk H0]|C]; [|by right].
  destruct (climb_sound s 0 i _ Hv Hk H0 Hp E) as [[Ea Es]|C]; [|by right]. destruct (leaf_in_tree i leaf Hl Hi Ea) as [El|C]; [by left|by right].
Qed.
End Levels.
End Proofs.
End BmtProperties.
