(* ===== verification/BmtRange.v ===== *)
(** * Range proofs of Binary Merkle Trees

    The nodes of a range at a level, with the siblings a proof adds at both ends, are
    the pairs under the nodes of the range at the next level. *)

From S2P Require Import Prelude Codec CodecTypes Bmt BmtTree BmtProperties.
Import CodecTypes Bmt BmtTree BmtProperties.

Module BmtRange.
Section Proofs.
Context {D : Type} `{EqDecision D} (hash : bytes → D) (as_ref : D → bytes) `{HD : !DigestBytes as_ref}.
Notation leaf_digest := (leaf_digest hash as_ref).
Notation node_digest := (node_digest hash as_ref).
Notation pair_loop := (pair_loop hash as_ref).
Notation verify_level := (verify_level hash as_ref).
Notation verify_levels := (verify_levels hash as_ref).
Notation node_input := (node_input as_ref).

(** ** One level of the verifier *)

(** Digests from position [p] on. *)
Fixpoint nodes_at (p : nat) (ds : list D) : list (Node D) :=
  match ds with [] => [] | d :: ds => mkNode p d :: nodes_at (S p) ds end.
Fixpoint pairs (e : list D) : list D :=
  match e with a :: b :: e => node_digest a b :: pairs e | _ => [] end.
(** The nodes of a range between its siblings. *)
Definition full (b : Bounds D) (ds : list D) : list D := option_list (left b) ++ ds ++ option_list (right b).
(** The bytes that are hashed for the pairs, and on all levels. *)
Fixpoint pairs_hashed (e : list D) : list bytes :=
  match e with a :: b :: e => node_input a b :: pairs_hashed e | _ => [] end.
Fixpoint levels_inputs (ds : list D) (siblings : list (Bounds D)) : list bytes :=
  match siblings with
  | [] => []
  | b :: siblings => pairs_hashed (full b ds) ++ levels_inputs (pairs (full b ds)) siblings
  end.
Definition aligned (p : nat) (ds : list D) (b : Bounds D) : bool :=
  Bool.eqb (Nat.odd p) (bool_decide (is_Some (left b))) && Bool.eqb (Nat.even (p + length ds - 1)) (bool_decide (is_Some (right b))).

Lemma last_nodes_at ds : ∀ p, ds ≠ [] → ∃ d, last (nodes_at p ds) = Some (mkNode (p + length ds - 1) d).
Proof.
  induction ds as [|d [|d' ds] IH]; intros p H; [done| |].
  - exists d. cbn. do 2 f_equal. lia.
  - destruct (IH (S p)) as [x E]; [done|]. exists x. change (last (nodes_at p (d :: d' :: ds))) with (last (nodes_at (S p) (d' :: ds))). rewrite E. cbn. do 2 f_equal. lia.
Qed.

Lemma half_succ q : Nat.even q = true → (S (S q) / 2)%nat = S (q / 2).
Proof. intros _. replace (S (S q)) with (q + 1 * 2)%nat by lia. rewrite Nat.div_add by lia. lia. Qed.
Lemma pair_loop_ok ro : ∀ ds q, Nat.even q = true → Nat.odd (length ds) = bool_decide (is_Some ro) →
  pair_loop ro (nodes_at q ds) = Ok (nodes_at (q / 2) (pairs (ds ++ option_list ro))).
Proof.
  induction ds as [|a|a b ds IH] using pairs_ind; intros q Hq Hodd.
  - destruct ro; [done|]. done.
  - destruct ro; [done|]. done.
  - cbn [nodes_at Bmt.pair_loop position digest app pairs]. rewrite (proj2 (Nat.eqb_eq _ _)) by lia.
    rewrite IH by done. cbn [obind]. rewrite half_succ by done. done.
Qed.

Lemma verify_level_ok p ds b : ds ≠ [] →
  verify_level (nodes_at p ds) b = if aligned p ds b then Ok (nodes_at (p / 2) (pairs (full b ds))) else Err UnalignedProof.
Proof.
  intros Hds. unfold verify_level, aligned. destruct (last_nodes_at ds p Hds) as [x ->]. destruct ds as [|d ds]; [done|].
  cbn [nodes_at head expect obind position]. set (f := (p + length (d :: ds) - 1)%nat).
  destruct (Bool.eqb (Nat.odd p) _) eqn:E1; [|done]. destruct (Bool.eqb (Nat.even f) _) eqn:E2; [|done]. cbn [negb andb].
  apply eqb_prop in E1, E2. assert (f = p + length ds)%nat as Ef by (unfold f; cbn; lia). rewrite Ef, Nat.even_add in E2.
  rewrite <- !Nat.negb_odd in E2. unfold full. destruct (left b) as [l|] eqn:El; cbn [app].
  - rewrite bool_decide_true in E1 by done. rewrite E1 in E2. cbn [tail nodes_at digest].
    rewrite pair_loop_ok; [|by rewrite Nat.even_succ|by destruct (Nat.odd (length ds))].
    cbn [obind]. change (option_list (Some l)) with [l]. cbn [app pairs nodes_at]. f_equal. f_equal. apply Nat.odd_spec in E1 as [m ->].
    replace (S (2 * m + 1)) with ((m + 1) * 2)%nat by lia. replace (2 * m + 1)%nat with (1 + m * 2)%nat by lia. rewrite Nat.div_mul, Nat.div_add by lia.
    change (1 / 2)%nat with 0%nat. by rewrite Nat.add_1_r.
  - rewrite bool_decide_false in E1 by (by intros []). rewrite E1 in E2. change (mkNode p d :: nodes_at (S p) ds) with (nodes_at p (d :: ds)).
    apply pair_loop_ok; [by rewrite <- Nat.negb_odd, E1|]. cbn [length]. rewrite Nat.odd_succ, <- Nat.negb_odd. by destruct (Nat.odd (length ds)).
Qed.

Lemma lookup_pairs e : ∀ j d, pairs e !! j = Some d ↔ ∃ x y, e !! (2 * j)%nat = Some x ∧ e !! (2 * j + 1)%nat = Some y ∧ d = node_digest x y.
Proof.
  induction e as [|a|a b e IH] using pairs_ind; intros j d.
  - split; [done|]. by intros (? & ? & ? & _).
  - split; [done|]. intros (? & ? & _ & E & _). rewrite Nat.add_1_r in E. done.
  - destruct j as [|j]; [cbn; naive_solver|]. cbn [pairs]. change ((node_digest a b :: pairs e) !! S j) with (pairs e !! j). rewrite IH.
    replace (2 * S j)%nat with (S (S (2 * j))) by lia. done.
Qed.
Lemma lookup_pairs_hashed e : ∀ j x y, e !! (2 * j)%nat = Some x → e !! (2 * j + 1)%nat = Some y → node_input x y ∈ pairs_hashed e.
Proof.
  induction e as [|a|a b e IH] using pairs_ind; intros j x y Ex Ey.
  - done.
  - by rewrite Nat.add_1_r in Ey.
  - destruct j as [|j]; cbn [pairs_hashed]; [injection Ex as ->; injection Ey as ->; by left|]. right.
    replace (2 * S j)%nat with (S (S (2 * j))) in * by lia. by apply (IH j).
Qed.
Lemma length_pairs e : length (pairs e) = (length e / 2)%nat.
Proof.
  induction e as [|a|a b e IH] using pairs_ind; [done|done|]. cbn [pairs length]. rewrite IH.
  replace (S (S (length e))) with (length e + 1 * 2)%nat by lia. rewrite Nat.div_add by lia. lia.
Qed.

Lemma is_some_bool (o : option D) : bool_decide (is_Some o) = match o with Some _ => true | None => false end.
Proof. destruct o; [by apply bool_decide_true|]. apply bool_decide_false. by intros []. Qed.
(** Where the nodes of an aligned range are between its siblings. *)
Lemma aligned_spec p ds b : ds ≠ [] → aligned p ds b = true →
  length (option_list (left b)) = (p mod 2)%nat ∧ length (full b ds) = (2 * ((p + length ds - 1) / 2 - p / 2 + 1))%nat ∧
  (is_Some (right b) ↔ ((p + length ds - 1) mod 2 = 0)%nat).
Proof.
  intros Hds [E1 E2]%andb_true_iff. apply eqb_prop in E1, E2. set (f := (p + length ds - 1)%nat) in *.
  assert (∀ n, (n mod 2)%nat = if Nat.odd n then 1%nat else 0%nat) as Hm by (intros n; rewrite <- Nat.bit0_mod, Nat.bit0_odd; by destruct (Nat.odd n)).
  pose proof (Nat.div_mod_eq p 2) as Dp. pose proof (Nat.div_mod_eq f 2) as Df. rewrite (Hm p) in *. rewrite (Hm f) in *. rewrite <- (Nat.negb_odd f) in E2.
  assert (0 < length ds)%nat by (destruct ds; [done|cbn; lia]).
  unfold full. rewrite !length_app. rewrite is_some_bool in E1, E2. unfold option_list.
  destruct (left b), (right b), (Nat.odd p), (Nat.odd f); try done; cbn [option_rect length].
  all: split_and!; [done|unfold f in *; lia|rewrite is_Some_alt; split; done].
Qed.

Lemma full_inside p ds b i : ds ≠ [] → aligned p ds b = true → (i < length ds)%nat → full b ds !! (p mod 2 + i)%nat = ds !! i.
Proof.
  intros Hds Ha Hi. destruct (aligned_spec p ds b Hds Ha) as (E & _ & _). unfold full. rewrite lookup_app_r by lia. rewrite E.
  rewrite lookup_app_l by lia. f_equal. lia.
Qed.
Lemma full_cases p ds b i d : ds ≠ [] → aligned p ds b = true → full b ds !! i = Some d →
  (i = 0 ∧ p mod 2 = 1 ∧ left b = Some d)%nat ∨ (∃ j, i = p mod 2 + j ∧ j < length ds ∧ ds !! j = Some d)%nat ∨
  (i = p mod 2 + length ds ∧ right b = Some d)%nat.
Proof.
  intros Hds Ha. destruct (aligned_spec p ds b Hds Ha) as (E & _ & _). unfold full. intros [H|[Hl H]]%lookup_app_Some.
  - left. destruct (left b); [|done]. apply list_lookup_singleton_Some in H as [-> ->]. by rewrite <- E.
  - right. rewrite E in *. apply lookup_app_Some in H as [H|[Hl' H]].
    + left. exists (i - p mod 2)%nat. apply lookup_lt_Some in H as Hlt. split_and!; [lia|done|done].
    + right. destruct (right b); [|done]. apply list_lookup_singleton_Some in H as [? ->]. split; [lia|done].
Qed.

Section Levels.
Context (V : list bytes) {ls : list D} {L : list (list D)} {r : D} `{HB : !BuiltFrom hash as_ref ls L r}.
Notation top := (length L - 1)%nat.
Notation at_ := (at_ (L := L)).
Notation pinned := (pinned hash as_ref V (ls := ls) (L := L)).
Notation collision := (collision hash as_ref V (ls := ls) (L := L)).

Definition all_pinned (k p : nat) (ds : list D) : Prop := ∀ i d, ds !! i = Some d → pinned k (p + i) d.
(** Every digest is the tree's. *)
Definition placed (k p : nat) (ds : list D) : Prop := ∀ i d, ds !! i = Some d → at_ k (p + i) = Some d.
Definition placed_or (k p : nat) (ds : list D) : Prop := ∀ i d, ds !! i = Some d → at_ k (p + i) = Some d ∨ collision.

Lemma pairs_pinned k p ds b : pairs_hashed (full b ds) ⊆ V → ds ≠ [] → aligned p ds b = true → all_pinned k p ds → all_pinned (S k) (p / 2) (pairs (full b ds)).
Proof.
  intros Hv Hds Ha Hp j d (x & y & Ex & Ey & ->)%lookup_pairs. apply (pinned_parent hash as_ref V); [by eapply Hv, lookup_pairs_hashed|]. pose proof (Nat.div_mod_eq p 2) as Dp.
  assert (0 < length ds)%nat by (destruct ds; [done|cbn; lia]).
  destruct (full_cases p ds b _ _ Hds Ha Ex) as [(E & Em & _)|[(i & E & _ & Hx)|(E & _)]].
  - right. destruct (full_cases p ds b _ _ Hds Ha Ey) as [(? & _)|[(i & Ei & _ & Hy)|(? & _)]]; [lia| |lia].
    replace (2 * (p / 2 + j) + 1)%nat with (p + i)%nat by lia. by apply Hp.
  - left. replace (2 * (p / 2 + j))%nat with (p + i)%nat by lia. by apply Hp.
  - exfalso. apply lookup_lt_Some in Ey. destruct (aligned_spec p ds b Hds Ha) as (_ & El & _).
    destruct (full_cases p ds b _ _ Hds Ha Ex) as [(? & _)|[(i & ? & ? & _)|_]]; [lia|lia|].
    destruct (full b ds !! (2 * j + 1)%nat) as [y'|] eqn:Ey'; [|by apply lookup_ge_None in Ey'; lia].
    destruct (full_cases p ds b _ _ Hds Ha Ey') as [(? & _)|[(i & ? & ? & _)|(? & _)]]; lia.
Qed.

(** The pair of an element of the range. *)
Lemma pair_of p ds b i d : ds ≠ [] → aligned p ds b = true → ds !! i = Some d → ∃ x y j,
  pairs (full b ds) !! j = Some (node_digest x y) ∧ (2 * (p / 2 + j) = p + i ∧ d = x ∨ 2 * (p / 2 + j) + 1 = p + i ∧ d = y)%nat ∧
  full b ds !! (2 * j)%nat = Some x ∧ full b ds !! (2 * j + 1)%nat = Some y.
Proof.
  intros Hds Ha Ed. pose proof (lookup_lt_Some _ _ _ Ed) as Hi. pose proof (full_inside p ds b i Hds Ha Hi) as Ef. rewrite Ed in Ef.
  destruct (aligned_spec p ds b Hds Ha) as (_ & El & _). pose proof (lookup_lt_Some _ _ _ Ef) as Hlt. rewrite El in Hlt.
  set (idx := (p mod 2 + i)%nat) in *. pose proof (Nat.div_mod_eq idx 2) as Di. pose proof (Nat.mod_upper_bound idx 2 ltac:(lia)). pose proof (Nat.div_mod_eq p 2) as Dp.
  destruct (lookup_lt_is_Some_2 (full b ds) (2 * (idx / 2))) as [x Ex]; [lia|].
  destruct (lookup_lt_is_Some_2 (full b ds) (2 * (idx / 2) + 1)) as [y Ey]; [lia|].
  exists x, y, (idx / 2)%nat. split; [apply lookup_pairs; eauto 10|]. split; [|done].
  destruct (decide (idx mod 2 = 0)%nat) as [E0|E1].
  - left. split; [lia|]. replace (2 * (idx / 2))%nat with idx in Ex by lia. congruence.
  - right. split; [lia|]. replace (2 * (idx / 2) + 1)%nat with idx in Ey by lia. congruence.
Qed.

Lemma pairs_placed k p ds b : pairs_hashed (full b ds) ⊆ V → ds ≠ [] → aligned p ds b = true → all_pinned k p ds → placed_or (S k) (p / 2) (pairs (full b ds)) → placed_or k p ds.
Proof.
  intros Hv Hds Ha Hp Hpl i d Ed. destruct (pair_of p ds b i d Hds Ha Ed) as (x & y & j & Ej & Hc & Ex & Ey).
  assert (node_input x y ∈ V) as Hxy by (by eapply Hv, lookup_pairs_hashed).
  destruct (Hpl j _ Ej) as [Ea|C]; [|by right]. pose proof (Hp i d Ed) as Hpin. destruct Hc as [[E ->]|[E ->]]; rewrite <- E in *.
  - by eapply (child_left hash as_ref V).
  - by eapply (child_right hash as_ref V).
Qed.

(** ** The siblings the tree gives *)

Lemma at_below k i j d : at_ k i = Some d → (j ≤ i)%nat → is_Some (at_ k j).
Proof.
  unfold at_. destruct (L !! k) as [l|]; [|done]. cbn. intros E%lookup_lt_Some Hj. apply lookup_lt_is_Some_2. lia.
Qed.

(** The siblings of the range from [p] to [e] at level [k]. *)
Definition canonical (k p e : nat) : Bounds D :=
  mkBounds (if Nat.odd p then at_ k (p - 1) else None)
    (if Nat.even e then match at_ k (e + 1) with Some y => Some y | None => at_ k e end else None).

Lemma range_loop_below k start stop d : (k < top)%nat → (Nat.shiftr start k ≤ Nat.shiftr stop k)%nat → at_ k (Nat.shiftr stop k) = Some d →
  range_loop (drop k L) k start stop =
  (s ← range_loop (drop (S k) L) (S k) start stop; Some (canonical k (Nat.shiftr start k) (Nat.shiftr stop k) :: s)).
Proof.
  intros Hk Hle Ed. destruct (level_below hash as_ref k Hk) as (l & El & Hl & _). rewrite (below k l El). cbn [range_loop].
  unfold is_singleton. rewrite (proj2 (Nat.eqb_neq _ _)) by lia. unfold canonical.
  assert (∀ j, at_ k j = l !! j) as Hat by (intros j; unfold BmtTree.at_; by rewrite El). rewrite !Hat. rewrite Hat in Ed.
  set (p := Nat.shiftr start k) in *. set (e := Nat.shiftr stop k) in *.
  destruct (at_below k e (p - 1) d) as [x Ex]; [by rewrite Hat|lia|]. rewrite Hat in Ex. rewrite Ex, Ed.
  destruct (Nat.ltb_spec (e + 1) (length l)) as [Hlt|Hge].
  - apply lookup_lt_is_Some_2 in Hlt as [y Ey]. rewrite Ey. destruct (Nat.odd p), (Nat.even e); done.
  - rewrite (lookup_ge_None_2 l (e + 1)) by done. destruct (Nat.odd p), (Nat.even e); done.
Qed.

Lemma aligned_canonical k p ds : ds ≠ [] → placed k p ds → aligned p ds (canonical k p (p + length ds - 1)) = true.
Proof.
  intros Hds Hp. destruct (last ds) as [d|] eqn:El; [|by apply last_None in El]. rewrite last_lookup in El. apply Hp in El.
  assert (p + pred (length ds) = p + length ds - 1)%nat as E by (destruct ds; [done|cbn; lia]). rewrite E in El.
  unfold aligned, canonical. cbn [left right]. rewrite !is_some_bool. rewrite El.
  destruct (at_below k (p + length ds - 1) (p - 1) d El) as [x ->]; [destruct ds; [done|cbn; lia]|].
  destruct (Nat.odd p), (Nat.even (p + length ds - 1)); destruct (at_ k (p + length ds - 1 + 1)); reflexivity.
Qed.

Lemma pairs_complete k p ds : (k < top)%nat → ds ≠ [] → placed k p ds →
  placed (S k) (p / 2) (pairs (full (canonical k p (p + length ds - 1)) ds)).
Proof.
  intros Hk Hds Hp j d (x & y & Ex & Ey & ->)%lookup_pairs. pose proof (aligned_canonical k p ds Hds Hp) as Ha. pose proof (Nat.div_mod_eq p 2) as Dp.
  assert (0 < length ds)%nat by (destruct ds; [done|cbn; lia]). set (e := (p + length ds - 1)%nat) in *.
  assert (at_ k (2 * (p / 2 + j)) = Some x) as Hx.
  { destruct (full_cases p ds _ _ _ Hds Ha Ex) as [(E & Em & El)|[(i & E & _ & Hx)|(E & _)]].
    - cbn [canonical left] in El. destruct (Nat.odd p); [|done]. rewrite <- El. f_equal. lia.
    - apply Hp in Hx. rewrite <- Hx. f_equal. lia.
    - exfalso. destruct (full_cases p ds _ _ _ Hds Ha Ey) as [(? & _)|[(i & ? & ? & _)|(? & _)]]; lia. }
  rewrite (at_children hash as_ref k _ x Hk Hx). do 2 f_equal.
  destruct (full_cases p ds _ _ _ Hds Ha Ey) as [(E & _)|[(i & E & _ & Hy)|(E & Er)]]; [lia| |].
  - apply Hp in Hy. replace (2 * (p / 2 + j) + 1)%nat with (p + i)%nat by lia. by rewrite Hy.
  - cbn [canonical right] in Er. destruct (Nat.even e); [|done]. replace (2 * (p / 2 + j) + 1)%nat with (e + 1)%nat by lia.
    replace (2 * (p / 2 + j))%nat with e in Hx by lia. destruct (at_ k (e + 1)); [by injection Er as ->|]. rewrite Hx in Er. by injection Er as ->.
Qed.

(** The siblings of an accepted level are those of the tree. *)
Lemma bounds_canonical k p ds b : pairs_hashed (full b ds) ⊆ V → ds ≠ [] → aligned p ds b = true → placed k p ds → placed_or (S k) (p / 2) (pairs (full b ds)) →
  b = canonical k p (p + length ds - 1) ∨ collision.
Proof.
  intros Hv Hds Ha Hp Hpl. set (e := (p + length ds - 1)%nat). pose proof (Nat.div_mod_eq p 2) as Dp. pose proof (Nat.mod_upper_bound p 2 ltac:(lia)).
  assert (0 < length ds)%nat as Hlen by (destruct ds; [done|cbn; lia]).
  pose proof Ha as [E1 E2]%andb_true_iff. apply eqb_prop in E1, E2. rewrite is_some_bool in E1, E2. fold e in E2.
  assert (left b = (if Nat.odd p then at_ k (p - 1) else None) ∨ collision) as [El|C]; [| |by right].
  { rewrite E1. destruct (left b) as [x|] eqn:El; [|by left]. destruct (lookup_lt_is_Some_2 ds 0 Hlen) as [d Ed].
    destruct (pair_of p ds b 0 d Hds Ha Ed) as (x' & y' & j & Ej & Hc & Ex & Ey). apply Nat.odd_spec in E1 as [m Em].
    assert (j = 0)%nat as -> by lia. assert (node_input x' y' ∈ V) as Hxy by (by eapply Hv, lookup_pairs_hashed). unfold full in Ex. rewrite El in Ex. injection Ex as <-.
    destruct (Hpl _ _ Ej) as [Ea|C]; [|by right]. apply (child_left hash as_ref V) in Ea as [Ea|C]; [left|by right|done]. rewrite <- Ea. f_equal. lia. }
  assert (right b = (if Nat.even e then match at_ k (e + 1) with Some y => Some y | None => at_ k e end else None) ∨ collision) as [Er|C]; [| |by right].
  { rewrite E2. destruct (right b) as [y|] eqn:Er; [|by left]. destruct (lookup_lt_is_Some_2 ds (length ds - 1)) as [d Ed]; [lia|].
    destruct (pair_of p ds b _ d Hds Ha Ed) as (x & y' & j & Ej & Hc & Ex & Ey). apply Nat.even_spec in E2 as [m Em].
    assert (node_input x y' ∈ V) as Hxy by (by eapply Hv, lookup_pairs_hashed). destruct Hc as [[Hj ->]|[Hj _]]; [|unfold e in *; lia]. pose proof (Hp _ _ Ed) as Hx. rewrite <- Hj in Hx.
    destruct (full_cases p ds b _ _ Hds Ha Ey) as [(? & _)|[(i & ? & ? & _)|(_ & Ey')]]; [lia|lia|]. rewrite Er in Ey'. injection Ey' as <-.
    destruct (Hpl _ _ Ej) as [Ea|C]; [|by right]. apply (right_sibling hash as_ref V) in Ea as [->|C]; [left|by right|done].
    assert (e = 2 * (p / 2 + j))%nat as -> by (unfold e; lia). rewrite Hx. by destruct (at_ k _). }
  left. unfold canonical. fold e. rewrite <- El, <- Er. by destruct b.
Qed.

Lemma length_next p ds b : ds ≠ [] → aligned p ds b = true →
  pairs (full b ds) ≠ [] ∧ (p / 2 + length (pairs (full b ds)) - 1 = (p + length ds - 1) / 2)%nat.
Proof.
  intros Hds Ha. destruct (aligned_spec p ds b Hds Ha) as (_ & El & _).
  assert (length (pairs (full b ds)) = ((p + length ds - 1) / 2 - p / 2 + 1)%nat) as E by (rewrite length_pairs, El, Nat.mul_comm; by apply Nat.div_mul).
  assert (p / 2 ≤ (p + length ds - 1) / 2)%nat by (apply Nat.Div0.div_le_mono; destruct ds; [done|cbn; lia]).
  split; [|rewrite E; lia]. intros E0. rewrite E0 in E. cbn in E. lia.
Qed.

Lemma shift_succ n k : Nat.shiftr n (S k) = (Nat.shiftr n k / 2)%nat.
Proof. cbn [Nat.shiftr]. apply Nat.div2_div. Qed.

(** A finite choice. *)
Lemma placed_split k p ds : placed_or k p ds → placed k p ds ∨ collision.
Proof.
  revert p. induction ds as [|d ds IH]; intros p H; [by left|].
  destruct (H 0%nat d eq_refl) as [Ed|C]; [|by right]. destruct (IH (S p)) as [Hp|C]; [|left|by right].
  - intros i x Ex. specialize (H (S i) x Ex). by rewrite Nat.add_succ_r in H.
  - intros [|i] x Ex; [by injection Ex as <-|]. rewrite Nat.add_succ_r. by apply Hp.
Qed.

Lemma range_sound s start stop : ∀ k p ds node, levels_inputs ds s ⊆ V → ds ≠ [] → all_pinned k p ds → p = Nat.shiftr start k → (p + length ds - 1)%nat = Nat.shiftr stop k →
  verify_levels (nodes_at p ds) s = Ok [node] → digest node = r → placed k p ds ∧ range_loop (drop k L) k start stop = Some s ∨ collision.
Proof.
  induction s as [|b s IH]; intros k p ds node Hi Hds Hp Ep Ee Hv Hr.
  - cbn in Hv. destruct ds as [|d [|]]; [done| |done]. injection Hv as <-. cbn in Hr. subst d.
    destruct (pinned_top hash as_ref V k (p + 0) (Hp 0%nat r eq_refl)) as [[-> E0]|C]; [left|by right]. rewrite (drop_top hash as_ref). split; [|done].
    intros [|i] x Ex; [|done]. injection Ex as <-. rewrite E0. unfold BmtTree.at_. by rewrite (level_top hash as_ref).
  - cbn [Bmt.verify_levels] in Hv. rewrite verify_level_ok in Hv by done. destruct (aligned p ds b) eqn:Ha; [|done]. cbn [obind] in Hv.
    cbn [levels_inputs] in Hi. assert (pairs_hashed (full b ds) ⊆ V) as Hb by set_solver. assert (levels_inputs (pairs (full b ds)) s ⊆ V) as Hi' by set_solver.
    destruct (length_next p ds b Hds Ha) as [Hne Hl]. pose proof (pairs_pinned k p ds b Hb Hds Ha Hp) as Hp'.
    destruct (IH (S k) (p / 2)%nat _ node Hi' Hne Hp' ltac:(by rewrite shift_succ, Ep) ltac:(by rewrite Hl, shift_succ, Ee) Hv Hr) as [[Hpl Es]|C]; [|by right].
    assert (placed_or (S k) (p / 2) (pairs (full b ds))) as Hpo by (intros i x Ex; left; by apply Hpl).
    destruct (placed_split k p ds (pairs_placed k p ds b Hb Hds Ha Hp Hpo)) as [Hpk|C]; [|by right].
    destruct (bounds_canonical k p ds b Hb Hds Ha Hpk Hpo) as [Eb|C]; [left|by right]. split; [done|].
    destruct (last ds) as [d|] eqn:El; [|by apply last_None in El]. rewrite last_lookup in El. apply Hpk in El.
    assert (p + pred (length ds) = Nat.shiftr stop k)%nat as E by (rewrite <- Ee; destruct ds; [done|cbn; lia]). rewrite E in El.
    assert (k < top)%nat as Hk.
    { destruct (pairs (full b ds)) as [|x l] eqn:Ex; [done|]. specialize (Hpl 0%nat x eq_refl). unfold BmtTree.at_ in Hpl.
      destruct (L !! S k) as [l'|] eqn:EL; [|done]. apply lookup_lt_Some in EL. lia. }
    rewrite (range_loop_below k start stop d Hk); [|rewrite <- Ep, <- Ee; destruct ds; [done|cbn; lia]|done]. rewrite Es. cbn. by rewrite Eb, <- Ep, <- Ee.
Qed.

Lemma range_complete m start stop : ∀ k p ds, (k + m)%nat = top → ds ≠ [] → placed k p ds → p = Nat.shiftr start k → (p + length ds - 1)%nat = Nat.shiftr stop k →
  ∃ s, range_loop (drop k L) k start stop = Some s ∧ verify_levels (nodes_at p ds) s = Ok [mkNode 0 r] ∧ length s = m.
Proof.
  induction m as [|m IH]; intros k p ds Hk Hds Hp Ep Ee.
  - replace k with top in * by lia. exists []. rewrite (drop_top hash as_ref). split; [done|]. split; [|done]. cbn.
    destruct ds as [|d ds]; [done|]. destruct (at_top hash as_ref _ _ (Hp 0%nat d eq_refl)) as [E0 ->].
    destruct ds as [|d' ds]; [|destruct (at_top hash as_ref _ _ (Hp 1%nat d' eq_refl)) as [E1 _]; lia].
    cbn. by replace p with 0%nat by lia.
  - pose proof (aligned_canonical k p ds Hds Hp) as Ha. destruct (length_next p ds _ Hds Ha) as [Hne Hl].
    destruct (IH (S k) (p / 2)%nat _ ltac:(lia) Hne (pairs_complete k p ds ltac:(lia) Hds Hp) ltac:(by rewrite shift_succ, Ep) ltac:(by rewrite Hl, shift_succ, Ee)) as (s & Es & Ev & Hs).
    exists (canonical k p (p + length ds - 1) :: s). destruct (last ds) as [d|] eqn:El; [|by apply last_None in El]. rewrite last_lookup in El. apply Hp in El.
    assert (p + pred (length ds) = Nat.shiftr stop k)%nat as E by (rewrite <- Ee; destruct ds; [done|cbn; lia]). rewrite E in El. split.
    + rewrite (range_loop_below k start stop d ltac:(lia)); [|rewrite <- Ep, <- Ee; destruct ds; [done|cbn; lia]|done]. rewrite Es. cbn. by rewrite <- Ep, <- Ee.
    + cbn [Bmt.verify_levels length]. rewrite verify_level_ok, Ha by done. cbn [obind]. split; [done|lia].
Qed.
End Levels.
End Proofs.
End BmtRange.
