(* ===== verification/BmtTheorems.v ===== *)
(** * What the proofs of a Binary Merkle Tree are worth

    Single proofs, range proofs, and the errors of the provers. *)

From S2P Require Import Prelude Codec CodecTypes Bmt BmtTree BmtProperties BmtRange.
Import CodecTypes Bmt BmtTree BmtProperties BmtRange.

Module BmtTheorems.
Section Theorems.
Context {D : Type} `{EqDecision D} (hash : bytes → D) (as_ref : D → bytes) `{HD : !DigestBytes as_ref}.
Notation leaf_digest := (leaf_digest hash as_ref).
Notation leaf_input := (leaf_input as_ref).
Notation tree_of := (tree_of hash as_ref).
Notation len l := (Z.of_nat (length l)).

(** The tree of [ls], its levels and its root. *)
Lemma tree_of_inv ls t rt : len ls < 2 ^ 32 → tree_of ls = Some t → root t = Some rt →
  ∃ L, t = mkTree (bool_decide (ls = [])) L ∧ BuiltFrom hash as_ref ls L rt ∧ len (first_level t) = Z.max 1 (len ls).
Proof.
  intros Hl Et Er. destruct (tree_of_ok hash as_ref ls Hl) as (L & r & Et' & HL & Er' & _). rewrite Et in Et'. injection Et' as ->.
  rewrite Er in Er'. injection Er' as ->. exists L. split; [done|]. split; [by split|].
  pose proof (lv_first _ _ _ _ _ HL) as E0. unfold first_level. cbn. destruct L; [done|]. injection E0 as ->. unfold hashed. destruct ls; cbn; rewrite ?length_imap; lia.
Qed.

(** The prover of one leaf. *)
Lemma proof_cases ls t rt position : len ls < 2 ^ 32 → 0 ≤ position → tree_of ls = Some t → root t = Some rt →
  (position < len ls ∧ ∃ L s, t = mkTree false L ∧ BuiltFrom hash as_ref ls L rt ∧ proof t position = Ok s ∧ proof_loop L (Z.to_nat position) = Some s ∧ (length s ≤ 32)%nat) ∨
  len ls ≤ position ∧ proof t position = Err (InvalidPosition position).
Proof.
  intros Hl Hp Et Er. destruct (tree_of_inv ls t rt Hl Et Er) as (L & -> & HB & Hf). unfold proof. rewrite Hf. cbn [empty levels].
  rewrite wrap_small by (unfold fits; lia). destruct (decide (position < len ls)) as [Hlt|Hge].
  - left. split; [done|]. rewrite bool_decide_false by (intros ->; cbn in Hlt; lia). cbn [orb]. rewrite (proj2 (Z.leb_gt _ _)) by lia.
    destruct (lookup_lt_is_Some_2 ls (Z.to_nat position)) as [leaf El]; [lia|].
    destruct (climb_complete hash as_ref (length L - 1) 0 _ _ ltac:(lia) (leaf_at hash as_ref _ _ El)) as (s & Es & _ & Hs). rewrite drop_0 in Es.
    exists L, s. pose proof (top_small hash as_ref). split_and!; [done|done| |done|lia]. by rewrite Es.
  - right. split; [lia|]. destruct (bool_decide (ls = [])) eqn:E; [done|]. rewrite (proj2 (Z.leb_le _ _)); [done|].
    apply bool_decide_eq_false in E. destruct ls; [done|]. cbn in *. lia.
Qed.

(** C24: Proofs of a leaf are sound and complete, and there is one per position: the
    verifier accepts a proof of a leaf at a position under the root of a tree if the
    tree was built with that leaf there and gives that very proof, and only then,
    unless the verifier hashed bytes to the digest of other bytes that the builder
    hashed; these bytes can be computed, and are a collision at hand.  So a node of the tree is never taken for
    a leaf, and no position behind the last leaf can be proved although the last node
    of an odd level is paired with itself. *)
Theorem bmt_inclusion_iff ls t rt siblings leaf position :
  len ls < 2 ^ 32 → fits 32 position → tree_of ls = Some t → root t = Some rt →
  (verify hash as_ref siblings leaf position rt = Ok () → ls !! Z.to_nat position = Some leaf ∧ proof t position = Ok siblings ∨
    clash hash (tree_inputs as_ref ls (levels t)) (verify_inputs hash as_ref siblings leaf position)) ∧
  (ls !! Z.to_nat position = Some leaf ∧ proof t position = Ok siblings → verify hash as_ref siblings leaf position rt = Ok ()).
Proof.
  intros Hl [Hp0 Hp] Et Er. destruct (tree_of_inv ls t rt Hl Et Er) as (L & Etree & HB & _). unfold verify.
  assert (∃ i, position = Z.of_nat i) as [i ->] by (exists (Z.to_nat position); lia). rewrite Nat2Z.id. split.
  - destruct (decide _) as [E|]; [|done]. intros _. destruct (verify_sound hash as_ref _ siblings i leaf ltac:(done) ltac:(lia) E) as [[El Es]|C]; [left|right; by rewrite Etree].
    split; [done|]. apply lookup_lt_Some in El as Hlt.
    destruct (proof_cases ls t rt (Z.of_nat i) Hl Hp0 Et Er) as [(_ & L' & s & E' & _ & -> & Es' & _)|[? _]]; [|lia].
    rewrite Etree in E'. injection E' as _ <-. rewrite Nat2Z.id in Es'. congruence.
  - intros [El Es]. destruct (proof_cases ls t rt (Z.of_nat i) Hl Hp0 Et Er) as [(_ & L' & s & E' & _ & Es' & Ei & _)|[_ Es']]; [|congruence].
    rewrite Etree in E'. injection E' as _ <-. rewrite Nat2Z.id in Ei. rewrite Es in Es'. injection Es' as <-.
    destruct (climb_complete hash as_ref (length L - 1) 0 _ _ ltac:(lia) (leaf_at hash as_ref _ _ El)) as (s' & Es' & Ev & _). rewrite drop_0, Ei in Es'. injection Es' as <-.
    by rewrite decide_True.
Qed.

(** ** Ranges *)

(** The digests of leaves from position [p] on. *)
Fixpoint run (p : nat) (ls : list D) : list D :=
  match ls with [] => [] | leaf :: ls => leaf_digest (Z.of_nat p) leaf :: run (S p) ls end.
Fixpoint run_inputs (p : nat) (ls : list D) : list bytes :=
  match ls with [] => [] | leaf :: ls => leaf_input (Z.of_nat p) leaf :: run_inputs (S p) ls end.
(** The bytes that [range_verify] hashes. *)
Definition range_inputs (siblings : list (Bounds D)) (position : Z) (ls : list D) : list bytes :=
  match ls with
  | [] => [[]]
  | _ => run_inputs (Z.to_nat position) ls ++ levels_inputs hash as_ref (run (Z.to_nat position) ls) siblings
  end.
Lemma run_hashed ls : ∀ p i leaf, ls !! i = Some leaf → leaf_input (Z.of_nat (p + i)) leaf ∈ run_inputs p ls.
Proof.
  induction ls as [|x ls IH]; intros p [|i] leaf E; cbn in *; [done..| |].
  - injection E as ->. rewrite Nat.add_0_r. by left.
  - right. rewrite Nat.add_succ_r. by apply (IH (S p)).
Qed.
Lemma lookup_run ls : ∀ p i d, run p ls !! i = Some d ↔ ∃ leaf, ls !! i = Some leaf ∧ d = leaf_digest (Z.of_nat (p + i)) leaf.
Proof.
  induction ls as [|leaf ls IH]; intros p [|i] d; cbn; [naive_solver..| |].
  - rewrite Nat.add_0_r. naive_solver.
  - rewrite IH. by rewrite Nat.add_succ_r.
Qed.
Lemma length_run ls : ∀ p, length (run p ls) = length ls.
Proof. induction ls as [|leaf ls IH]; intros p; cbn; [done|]. by rewrite IH. Qed.
Lemma leaf_nodes_ok ls : ∀ p i, 0 ≤ i → Z.of_nat p + i + len ls ≤ 2 ^ 32 → leaf_nodes hash as_ref (Z.of_nat p) i ls = Some (nodes_at (p + Z.to_nat i) (run (p + Z.to_nat i) ls)).
Proof.
  induction ls as [|leaf ls IH]; intros p i Hi Hl; [done|]. cbn [leaf_nodes length] in *. rewrite wrap_small by (unfold fits; lia).
  unfold checked_add. rewrite (proj2 (Z.ltb_lt _ _)) by lia. cbn [mbind option_bind]. rewrite (IH p (i + 1)) by lia. cbn [mbind option_bind run nodes_at].
  replace (p + Z.to_nat (i + 1))%nat with (S (p + Z.to_nat i)) by lia. do 3 f_equal; [lia|]. f_equal. lia.
Qed.

Lemma slice_lookup (l l' : list D) p : (∀ i x, l' !! i = Some x → l !! (p + i)%nat = Some x) → take (length l') (drop p l) = l'.
Proof.
  intros H. apply list_eq. intros i. destruct (decide (i < length l')%nat) as [Hi|Hi].
  - rewrite lookup_take_lt, lookup_drop by done. apply lookup_lt_is_Some_2 in Hi as [x Ex]. rewrite Ex. by apply H.
  - rewrite lookup_take_ge by lia. symmetry. apply lookup_ge_None. lia.
Qed.
Lemma slice_lookup_inv (l l' : list D) p i x : take (length l') (drop p l) = l' → l' !! i = Some x → l !! (p + i)%nat = Some x.
Proof. intros E Ex. rewrite <- E in Ex. apply lookup_take_Some in Ex as [Ex _]. by rewrite lookup_drop in Ex. Qed.

(** The leaves of placed digests are those of the tree. *)
Lemma run_leaves V ls L rt `{!BuiltFrom hash as_ref ls L rt} p ls' : run_inputs p ls' ⊆ V → Z.of_nat p + len ls' ≤ 2 ^ 32 →
  placed (L := L) 0 p (run p ls') → take (length ls') (drop p ls) = ls' ∨ clash hash (tree_inputs as_ref ls L) V.
Proof.
  intros Hv Hp Hpl. assert ((∀ i x, ls' !! i = Some x → ls !! (p + i)%nat = Some x) ∨ clash hash (tree_inputs as_ref ls L) V) as [E|C]; [|left; by apply slice_lookup|by right].
  revert p Hv Hp Hpl. induction ls' as [|leaf ls' IH]; intros p Hv Hp Hpl; [by left|]. cbn [length] in Hp. apply subset_cons in Hv as [Hv0 Hv].
  pose proof (Hpl 0%nat _ eq_refl) as E0. rewrite Nat.add_0_r in E0. destruct (leaf_in_tree hash as_ref V p leaf Hv0 ltac:(lia) E0) as [El|C]; [|by right].
  destruct (IH (S p) Hv) as [E|C]; [lia| |left|by right].
  - intros i x Ex. specialize (Hpl (S i) x Ex). by rewrite Nat.add_succ_r in Hpl.
  - intros [|i] x Ex; [injection Ex as <-; by rewrite Nat.add_0_r|]. rewrite Nat.add_succ_r. by apply E.
Qed.

Lemma range_cases ls t rt start stop : len ls < 2 ^ 32 → 0 ≤ start → 0 ≤ stop → tree_of ls = Some t → root t = Some rt →
  (start ≤ stop < len ls ∧ ∃ L s, t = mkTree false L ∧ BuiltFrom hash as_ref ls L rt ∧ range_proof t start stop = Ok s ∧
    range_loop L 0 (Z.to_nat start) (Z.to_nat stop) = Some s ∧ (length s ≤ 32)%nat) ∨
  (ls = [] ∧ start = 0 ∧ stop = 0 ∧ range_proof t start stop = Ok []) ∨
  ((stop < start ∨ Z.max 1 (len ls) ≤ stop) ∧
    range_proof t start stop = Err (InvalidPosition (if (stop <? start) || (Z.max 1 (len ls) <=? start) then start else stop))).
Proof.
  intros Hl Hs He Et Er. destruct (tree_of_inv ls t rt Hl Et Er) as (L & -> & HB & Hf). unfold range_proof. rewrite Hf. cbn [empty levels].
  rewrite wrap_small by (unfold fits; lia). destruct (decide (start ≤ stop < len ls)) as [[Hse Hlt]|Hn].
  - left. split; [done|]. rewrite bool_decide_false by (intros ->; cbn in Hlt; lia). cbn [andb].
    rewrite (proj2 (Z.ltb_ge _ _)), !(proj2 (Z.leb_gt _ _)) by lia. set (p := Z.to_nat start). set (e := Z.to_nat stop).
    set (ds := take (e - p + 1) (drop p (hashed hash as_ref ls))).
    assert (length ds = e - p + 1)%nat as Hd.
    { unfold ds, p, e. rewrite length_take, length_drop. unfold hashed. destruct ls; cbn in *; rewrite ?length_imap; lia. }
    destruct (range_complete hash as_ref (length L - 1) p e 0 p ds ltac:(lia)) as (s & Es & _ & Hls).
    { intros E. rewrite E in Hd. cbn in Hd. lia. }
    { intros i d Ed. unfold ds in Ed. apply lookup_take_Some in Ed as [Ed _]. rewrite lookup_drop in Ed. by rewrite (at_first hash as_ref). }
    { done. } { rewrite Hd. change (Nat.shiftr e 0) with e. unfold p, e. lia. }
    rewrite drop_0 in Es. exists L, s. pose proof (top_small hash as_ref). split_and!; [done|done| |done|lia]. by rewrite Es.
  - right. destruct (decide (ls = [])) as [->|Hne].
    + cbn [bool_decide]. rewrite bool_decide_true by done. change (len []) with 0 in *. cbn [andb]. destruct (Z.eqb_spec start 0) as [->|]; [destruct (Z.eqb_spec stop 0) as [->|]; [by left|]|]; right; cbn [andb].
      * split; [lia|]. change (Z.max 1 0) with 1. rewrite (proj2 (Z.ltb_ge _ _)), (proj2 (Z.leb_gt 1 0)), (proj2 (Z.leb_le 1 stop)) by lia. done.
      * split; [lia|]. change (Z.max 1 0) with 1. rewrite (proj2 (Z.leb_le 1 start)) by lia. by destruct (stop <? start).
    + right. rewrite bool_decide_false by done. cbn [andb]. assert (0 < len ls) by (destruct ls; [done|cbn; lia]). split; [lia|].
      destruct (Z.ltb_spec stop start); [done|]. cbn [orb]. destruct (Z.leb_spec (Z.max 1 (len ls)) start); [done|].
      by rewrite (proj2 (Z.leb_le _ _)) by lia.
Qed.

(** The root of the empty tree is its own. *)
Lemma root_empty ls L rt `{!BuiltFrom hash as_ref ls L rt} : rt = hash [] → ls = [] ∨ clash hash (tree_inputs as_ref ls L) [[]].
Proof.
  intros E. assert (at_ (L := L) (length L - 1) 0 = Some rt) as Ea by (unfold at_; by rewrite (level_top hash as_ref)). rewrite E in Ea.
  assert (∀ x, x ∈ tree_inputs as_ref ls L → x ≠ [] → hash x = hash [] → clash hash (tree_inputs as_ref ls L) [[]]) as Hc
    by (intros x Hx Hne Eh; exists x, []; split_and!; [done|by left|done|done]).
  destruct (length L - 1)%nat as [|k].
  - apply (at_leaf hash as_ref) in Ea as [(leaf & El & E')|[-> _]]; [right|by left].
    apply (Hc (leaf_input (Z.of_nat 0) leaf)); [by apply leaf_hashed| |done]. intros En%(f_equal length). rewrite (length_leaf as_ref) in En. done.
  - apply (at_parent hash as_ref _ _ _) in Ea as (a & b & _ & _ & E' & Hb). right.
    apply (Hc _ Hb); [|done]. intros En%(f_equal length). rewrite (length_node as_ref) in En. pose proof width_positive. cbn in En. lia.
Qed.
Lemma empty_root L rt `{!BuiltFrom hash as_ref [] L rt} : rt = hash [].
Proof.
  assert (at_ (L := L) 0 0 = Some (hash [])) as E0 by (by rewrite (at_first hash as_ref)).
  destruct (decide (length L - 1 = 0)%nat) as [Ht|Ht].
  - rewrite <- Ht in E0 at 1. by destruct (at_top hash as_ref _ _ E0) as [_ ->].
  - destruct (level_below hash as_ref 0) as (l & El & Hl & _); [lia|]. pose proof (at_first hash as_ref 1) as E1. unfold at_ in E1. rewrite El in E1. cbn in E1.
    apply lookup_ge_None in E1. lia.
Qed.

(** C25: Proofs of a range are sound and complete, and there is one per range: the
    verifier accepts a proof of leaves from a position on if they are the leaves the
    tree was built with there and the tree gives that very proof, and only then,
    unless the verifier hashed bytes to the digest of other bytes that the builder
    hashed; no leaves at all are accepted at position 0
    for the empty tree only. *)
Theorem bmt_range_iff ls t rt siblings position ls' :
  len ls < 2 ^ 32 → len ls' < 2 ^ 32 → fits 32 position → tree_of ls = Some t → root t = Some rt →
  let included := (ls' ≠ [] ∧ take (length ls') (drop (Z.to_nat position) ls) = ls' ∧ range_proof t position (position + len ls' - 1) = Ok siblings) ∨
    (ls' = [] ∧ ls = [] ∧ position = 0 ∧ siblings = []) in
  (range_verify hash as_ref siblings position ls' rt = Ok () → included ∨
    clash hash (tree_inputs as_ref ls (levels t)) (range_inputs siblings position ls')) ∧
  (included → range_verify hash as_ref siblings position ls' rt = Ok ()).
Proof.
  intros Hl Hl' [Hp0 Hp] Et Er included. subst included. destruct (tree_of_inv ls t rt Hl Et Er) as (L & Etree & HB & _). unfold range_verify.
  destruct (decide (ls' = [])) as [->|Hne].
  - rewrite bool_decide_true by done. destruct (Z.eqb_spec position 0) as [->|Hpos], siblings as [|b s]; cbn [andb bool_decide];
      rewrite ?bool_decide_true, ?bool_decide_false by done; try (split; [done|]; intros [(? & _)|(_ & _ & ? & ?)]; done).
    split; [|intros [(? & _)|(_ & -> & _)]; [done|]].
    + destruct (decide _) as [E|]; [|done]. intros _. destruct (root_empty ls L rt) as [->|C]; [done| |right; by rewrite Etree]. left. by right.
    + pose proof (empty_root L rt). by rewrite decide_True.
  - rewrite (bool_decide_false (ls' = [])) by done. rewrite andb_false_r. cbn [andb].
    assert (0 < len ls') as Hpos by (destruct ls'; [done|cbn; lia]). rewrite wrap_small by (unfold fits; lia). unfold checked_add.
    assert (∃ p, position = Z.of_nat p) as [p ->] by (exists (Z.to_nat position); lia). rewrite Nat2Z.id.
    assert (Hds : run p ls' ≠ []) by (intros E; apply (f_equal length) in E; rewrite length_run in E; cbn in E; lia).
    pose proof (range_cases ls t rt (Z.of_nat p) (Z.of_nat p + len ls' - 1) Hl Hp0 ltac:(lia) Et Er) as Hc.
    destruct (Z.ltb_spec (Z.of_nat p + len ls') (2 ^ 32)) as [Hlt|Hge].
    2:{ split; [done|]. intros [(_ & _ & E)|(? & _)]; [|done]. destruct Hc as [[? _]|[(? & ? & ? & _)|[_ Ee]]]; [lia|lia|congruence]. }
    rewrite leaf_nodes_ok by lia. cbn [expect obind]. change (p + Z.to_nat 0)%nat with (p + 0)%nat. rewrite Nat.add_0_r.
    assert (∀ stop, Z.to_nat (Z.of_nat p + len ls' - 1) = stop → p + length (run p ls') - 1 = Nat.shiftr stop 0)%nat as Hstop by (intros ? <-; rewrite length_run; cbn; lia).
    set (V := range_inputs siblings (Z.of_nat p) ls').
    assert (V = run_inputs p ls' ++ levels_inputs hash as_ref (run p ls') siblings) as EV by (unfold V, range_inputs; rewrite Nat2Z.id; by destruct ls').
    assert (run_inputs p ls' ⊆ V ∧ levels_inputs hash as_ref (run p ls') siblings ⊆ V) as [Hrv Hlv] by (rewrite EV; split; intros x Hx; apply elem_of_app; by (left + right)).
    clearbody V.
    split.
    + destruct (verify_levels _ _ _ _) as [nodes| |] eqn:Ev; [|done..]. cbn [obind]. destruct nodes as [|node [|]]; [done| |done].
      destruct (decide _) as [Ed|]; [|done]. intros _.
      assert (all_pinned hash as_ref V (ls := ls) (L := L) 0 p (run p ls')) as Hpin.
      { intros i d (leaf & El & ->)%lookup_run. pose proof (lookup_lt_Some _ _ _ El). apply (pinned_leaf hash as_ref V); [lia|].
        by apply Hrv, run_hashed. }
      destruct (range_sound hash as_ref V siblings p (Z.to_nat (Z.of_nat p + len ls' - 1)) 0 p _ node Hlv Hds Hpin eq_refl (Hstop _ eq_refl) Ev Ed) as [[Hpl Es]|C];
        [|right; by rewrite Etree].
      destruct (run_leaves V ls L rt p ls' Hrv ltac:(lia) Hpl) as [E|C]; [left; left|right; by rewrite Etree]. split_and!; [done|done|]. rewrite drop_0 in Es.
      assert (p + length ls' ≤ length ls)%nat by (apply (f_equal length) in E; rewrite length_take, length_drop in E; lia).
      destruct Hc as [(_ & L' & s & E' & _ & -> & Es' & _)|[(-> & _)|[[?|?] _]]]; [|cbn in *; lia|lia|lia]. rewrite Etree in E'. injection E' as _ <-.
      rewrite Nat2Z.id in Es'. congruence.
    + intros [(_ & E & Ep)|(? & _)]; [|done]. assert (p + length ls' ≤ length ls)%nat by (apply (f_equal length) in E; rewrite length_take, length_drop in E; lia).
      destruct Hc as [(_ & L' & s & E' & _ & Es' & Ei & _)|[(-> & _)|[[?|?] _]]]; [|cbn in *; lia|lia|lia]. rewrite Etree in E'. injection E' as _ <-.
      rewrite Ep in Es'. injection Es' as <-. rewrite Nat2Z.id in Ei.
      assert (placed (L := L) 0 p (run p ls')) as Hpl.
      { intros i d (leaf & El & ->)%lookup_run. apply (leaf_at hash as_ref). by eapply slice_lookup_inv. }
      destruct (range_complete hash as_ref (length L - 1) p (Z.to_nat (Z.of_nat p + len ls' - 1)) 0 p _ ltac:(lia) Hds Hpl eq_refl (Hstop _ eq_refl)) as (s' & Es' & Ev & _).
      rewrite drop_0, Ei in Es'. injection Es' as <-. rewrite Ev. cbn [obind digest]. by rewrite decide_True.
Qed.

(** ** The inputs are all that is hashed *)

(** Where another hash agrees with [hash] on the listed inputs, nothing changes. *)
Lemma climb_ext h s : ∀ position c, (∀ x, x ∈ climb_inputs hash as_ref s position c → h x = hash x) →
  verify_loop h as_ref s position c = verify_loop hash as_ref s position c.
Proof.
  induction s as [|d s IH]; intros position c H; cbn in *; [done|]. destruct (position mod 2 =? 0); cbn in *;
    (unfold Bmt.node_digest in *; rewrite H by (by left); apply IH; intros x Hx; apply H; by right).
Qed.
Theorem verify_hashes_inputs h siblings leaf position rt : (∀ x, x ∈ verify_inputs hash as_ref siblings leaf position → h x = hash x) →
  verify h as_ref siblings leaf position rt = verify hash as_ref siblings leaf position rt.
Proof.
  intros H. unfold verify. assert (Bmt.leaf_digest h as_ref position leaf = leaf_digest position leaf) as -> by (apply (H (leaf_input position leaf)); by left).
  rewrite climb_ext; [done|]. intros x Hx. apply H. by right.
Qed.

Lemma pairs_ext h e : (∀ x, x ∈ pairs_hashed as_ref e → h x = hash x) → pairs h as_ref e = pairs hash as_ref e.
Proof.
  induction e as [|a|a b e IH] using pairs_ind; intros H; cbn in *; [done|done|]. f_equal; [apply H; by left|]. apply IH. intros x Hx. apply H. by right.
Qed.
Lemma levels_ext h s : ∀ p ds, ds ≠ [] → (∀ x, x ∈ levels_inputs hash as_ref ds s → h x = hash x) →
  verify_levels h as_ref (nodes_at p ds) s = verify_levels hash as_ref (nodes_at p ds) s.
Proof.
  induction s as [|b s IH]; intros p ds Hds H; [done|]. cbn [verify_levels levels_inputs] in *. rewrite !verify_level_ok by done.
  destruct (aligned p ds b) eqn:Ha; [|done]. cbn [obind]. rewrite pairs_ext by (intros x Hx; apply H, elem_of_app; by left).
  apply IH; [by eapply length_next|]. intros x Hx. apply H, elem_of_app. by right.
Qed.
Theorem range_verify_hashes_inputs h siblings position ls rt : fits 32 position → len ls < 2 ^ 32 →
  (∀ x, x ∈ range_inputs siblings position ls → h x = hash x) →
  range_verify h as_ref siblings position ls rt = range_verify hash as_ref siblings position ls rt.
Proof.
  intros [Hp0 Hp] Hl H. unfold range_verify. destruct ls as [|leaf ls]; [rewrite (H []) by (by left); done|].
  rewrite !(bool_decide_false (leaf :: ls = [])) by done. rewrite !andb_false_r. cbn [andb]. rewrite wrap_small by (unfold fits; lia).
  unfold checked_add. destruct (Z.ltb_spec (position + len (leaf :: ls)) (2 ^ 32)) as [Hlt|]; [|done].
  assert (∃ p, position = Z.of_nat p) as [p ->] by (exists (Z.to_nat position); lia). unfold range_inputs in H. rewrite Nat2Z.id in H.
  assert (leaf_nodes h as_ref (Z.of_nat p) 0 (leaf :: ls) = leaf_nodes hash as_ref (Z.of_nat p) 0 (leaf :: ls)) as ->.
  { assert (∀ ls p i, 0 ≤ i → Z.of_nat p + i + len ls ≤ 2 ^ 32 → (∀ x, x ∈ run_inputs (p + Z.to_nat i) ls → h x = hash x) →
      leaf_nodes h as_ref (Z.of_nat p) i ls = leaf_nodes hash as_ref (Z.of_nat p) i ls) as Hn.
    { clear. induction ls as [|leaf ls IH]; intros p i Hi Hl H; [done|]. cbn [leaf_nodes length run_inputs] in *. rewrite wrap_small by (unfold fits; lia).
      unfold checked_add. rewrite (proj2 (Z.ltb_lt _ _)) by lia. cbn [mbind option_bind]. rewrite IH; [|lia|lia|].
      - replace (Z.of_nat p + i) with (Z.of_nat (p + Z.to_nat i)) by lia.
        assert (Bmt.leaf_digest h as_ref (Z.of_nat (p + Z.to_nat i)) leaf = leaf_digest (Z.of_nat (p + Z.to_nat i)) leaf) as -> by (apply (H (leaf_input _ leaf)); by left).
        done.
      - intros x Hx. apply H. right. by replace (S (p + Z.to_nat i)) with (p + Z.to_nat (i + 1))%nat by lia. }
    apply Hn; [lia|lia|]. intros x Hx. apply H, elem_of_app. left. by rewrite Nat.add_0_r in Hx. }
  rewrite leaf_nodes_ok by lia. cbn [expect obind]. change (p + Z.to_nat 0)%nat with (p + 0)%nat. rewrite Nat.add_0_r.
  rewrite levels_ext; [done|done|]. intros x Hx. apply H, elem_of_app. by right.
Qed.

(** C26: The provers of the tree return: a proof of at most 32 levels for a position or
    a range within the leaves (and the empty proof for the empty tree), and the
    documented error with the position that is out of bounds otherwise; they never
    panic.  So every proof can be encoded and decoded. *)
Theorem bmt_provers_return ls position start stop :
  len ls < 2 ^ 32 → 0 ≤ position → 0 ≤ start → 0 ≤ stop → ∃ t rt, tree_of ls = Some t ∧ root t = Some rt ∧
  match proof t position with
  | Ok s => position < len ls ∧ len s ≤ 32
  | Err e => len ls ≤ position ∧ e = InvalidPosition position
  | Panic => False
  end ∧
  match range_proof t start stop with
  | Ok s => (start ≤ stop < len ls ∨ ls = [] ∧ start = 0 ∧ stop = 0) ∧ len s ≤ 32
  | Err e => (stop < start ∨ Z.max 1 (len ls) ≤ stop) ∧
      e = InvalidPosition (if (stop <? start) || (Z.max 1 (len ls) <=? start) then start else stop)
  | Panic => False
  end.
Proof.
  intros Hl Hp Hs He. destruct (tree_of_ok hash as_ref ls Hl) as (L & rt & Et & _ & Er & _). eexists _, rt. split; [done|]. split; [done|]. split.
  - destruct (proof_cases ls _ rt position Hl Hp Et Er) as [(? & L' & s & _ & _ & -> & _ & ?)|[? ->]]; [split; [done|lia]|done].
  - destruct (range_cases ls _ rt start stop Hl Hs He Et Er) as [(? & L' & s & _ & _ & -> & _ & ?)|[(? & ? & ? & ->)|[? ->]]]; [split; [by left|lia]|split; [by right|done]|done].
Qed.
End Theorems.

(** ** A tree of five leaves *)

(** Digests of two bytes; the hash is a polynomial modulo 2^16. *)
Definition toy_digest (z : Z) : Byte.byte * Byte.byte := (byte.of_Z (z / 256), byte.of_Z (z mod 256)).
Definition toy_hash (b : bytes) : Byte.byte * Byte.byte :=
  toy_digest (foldl (λ acc x, (acc * 31 + byte.unsigned x) mod 65536) 7 b).
Definition toy_ref (d : Byte.byte * Byte.byte) : bytes := [d.1; d.2].
#[export] Instance toy_bytes : DigestBytes toy_ref.
Proof. refine {| digest_width := 2 |}; [done| |lia|done]. by intros [a b] [a' b'] [= -> ->]. Defined.

Definition toy_leaves : list (Byte.byte * Byte.byte) := toy_digest <$> [10; 20; 30; 40; 50].
Definition toy_tree : Tree (Byte.byte * Byte.byte) := default (mkTree true []) (tree_of toy_hash toy_ref toy_leaves).
Definition toy_root : Byte.byte * Byte.byte := default (toy_digest 0) (root toy_tree).
(** Of the last leaf, which is paired with itself, and of the last three. *)
Definition toy_proof : list (Byte.byte * Byte.byte) := match proof toy_tree 4 with Ok s => s | _ => [] end.
Definition toy_range : list (Bounds (Byte.byte * Byte.byte)) := match range_proof toy_tree 2 4 with Ok s => s | _ => [] end.

Lemma bmt_inclusion_iff_witness :
  length toy_proof = 3%nat ∧
  ¬ clash toy_hash (tree_inputs toy_ref toy_leaves (levels toy_tree)) (verify_inputs toy_hash toy_ref toy_proof (toy_digest 50) 4) ∧
  verify toy_hash toy_ref toy_proof (toy_digest 50) 4 toy_root = Ok () ∧
  toy_leaves !! 4%nat = Some (toy_digest 50) ∧ proof toy_tree 4 = Ok toy_proof.
Proof.
  assert (verify toy_hash toy_ref toy_proof (toy_digest 50) 4 toy_root = Ok ()) as Hv by (vm_compute; reflexivity).
  assert (¬ clash toy_hash (tree_inputs toy_ref toy_leaves (levels toy_tree)) (verify_inputs toy_hash toy_ref toy_proof (toy_digest 50) 4)) as Hc
    by (apply (bool_decide_unpack _); vm_compute; exact I).
  split; [vm_compute; reflexivity|]. split; [exact Hc|]. split; [exact Hv|].
  refine (match proj1 (bmt_inclusion_iff toy_hash toy_ref toy_leaves toy_tree toy_root toy_proof (toy_digest 50) 4 _ _ _ _) Hv with
    or_introl H => H | or_intror H => False_ind _ (Hc H) end).
  all: try (split; [discriminate|reflexivity]); vm_compute; reflexivity.
Defined.

Lemma bmt_range_iff_witness :
  length toy_range = 3%nat ∧
  ¬ clash toy_hash (tree_inputs toy_ref toy_leaves (levels toy_tree)) (range_inputs toy_hash toy_ref toy_range 2 (toy_digest <$> [30; 40; 50])) ∧
  range_verify toy_hash toy_ref toy_range 2 (toy_digest <$> [30; 40; 50]) toy_root = Ok () ∧
  ((toy_digest <$> [30; 40; 50] ≠ [] ∧ take 3 (drop (Z.to_nat 2) toy_leaves) = toy_digest <$> [30; 40; 50] ∧ range_proof toy_tree 2 4 = Ok toy_range) ∨
   (toy_digest <$> [30; 40; 50] = [] ∧ toy_leaves = [] ∧ 2 = 0 ∧ toy_range = [])).
Proof.
  assert (range_verify toy_hash toy_ref toy_range 2 (toy_digest <$> [30; 40; 50]) toy_root = Ok ()) as Hv by (vm_compute; reflexivity).
  assert (¬ clash toy_hash (tree_inputs toy_ref toy_leaves (levels toy_tree)) (range_inputs toy_hash toy_ref toy_range 2 (toy_digest <$> [30; 40; 50]))) as Hc
    by (apply (bool_decide_unpack _); vm_compute; exact I).
  split; [vm_compute; reflexivity|]. split; [exact Hc|]. split; [exact Hv|].
  refine (match proj1 (bmt_range_iff toy_hash toy_ref toy_leaves toy_tree toy_root toy_range 2 (toy_digest <$> [30; 40; 50]) _ _ _ _ _) Hv with
    or_introl H => H | or_intror H => False_ind _ (Hc H) end).
  all: try (split; [discriminate|reflexivity]); vm_compute; reflexivity.
Defined.

Lemma bmt_provers_return_witness : ∃ t rt, tree_of toy_hash toy_ref toy_leaves = Some t ∧ root t = Some rt ∧
  match proof t 5 with
  | Ok s => 5 < 5 ∧ Z.of_nat (length s) ≤ 32
  | Err e => 5 ≤ 5 ∧ e = InvalidPosition 5
  | Panic => False
  end ∧
  match range_proof t 1 3 with
  | Ok s => (1 ≤ 3 < 5 ∨ toy_leaves = [] ∧ 1 = 0 ∧ 3 = 0) ∧ Z.of_nat (length s) ≤ 32
  | Err e => (3 < 1 ∨ Z.max 1 5 ≤ 3) ∧ e = InvalidPosition (if (3 <? 1) || (Z.max 1 5 <=? 1) then 1 else 3)
  | Panic => False
  end.
Proof. apply (bmt_provers_return toy_hash toy_ref toy_leaves 5 1 3); vm_compute; intros; discriminate || reflexivity. Defined.
End BmtTheorems.
