(* ===== verification/SafeTip.v ===== *)
(** * Safe tips (consensus/src/aggregation/safe_tip.rs)

    The tip every validator reported, and the [f] highest and the [n - f] lowest of
    them counted by value, so that the highest of the low ones is at hand.  The
    abstract state is the map of tips alone. *)

From S2P Require Import Prelude CodecOrdered ConsensusTypes Ordered BTreeMap.
Import CodecOrdered Ordered.

Module SafeTip.

(** ** Counted values *)

Notation heap := (list (Z * nat)).

Definition inc (m : heap) (k : Z) : heap := BTreeMap.insert m k (default 0%nat (BTreeMap.get m k) + 1)%nat.
(** [None]: the entry does not exist. *)
Definition dec (m : heap) (k : Z) : option heap :=
  match BTreeMap.get m k with
  | Some (S c) => Some (if decide (c = 0%nat) then BTreeMap.remove m k else BTreeMap.insert m k c)
  | _ => None
  end.
Definition contains_key (m : heap) (k : Z) : bool := bool_decide (is_Some (BTreeMap.get m k)).

Section Ops.
Context {K : Type} `{!Ord K, !EqDecision K, !Countable K}.

Record SafeTip : Type := mkSafeTip { tips : gmap K Z; hi : heap; lo : heap }.
Implicit Types s : SafeTip.

Definition new : SafeTip := mkSafeTip ∅ [] [].

(** [None] of an operation is a panic. *)
Definition init (validators : Set_ K) : option SafeTip :=
  if decide (validators = []) then None
  else
    let n := Z.of_nat (length validators) in
    f ← Ordered.max_faults validators;
    rest ← checked_sub n f;
    Some (mkSafeTip (list_to_map ((λ v, (v, 0)) <$> validators))
      (if 0 <? f then BTreeMap.insert [] 0 (Z.to_nat f) else [])
      (BTreeMap.insert [] 0 (Z.to_nat rest))).

(** A validator leaves: its tip becomes the default. *)
Definition remove_validator s (v : K) : option SafeTip :=
  old ← tips s !! v;
  let tips := delete v (tips s) in
  let new := 0 in
  if old =? new then Some (mkSafeTip tips (hi s) (lo s))
  else if contains_key (lo s) old then
    lo ← dec (lo s) old;
    Some (mkSafeTip tips (hi s) (inc lo new))
  else
    let stay_in_hi := match BTreeMap.last (lo s) with Some (max_lo, _) => max_lo <=? new | None => true end in
    if stay_in_hi then
      hi ← dec (hi s) old;
      Some (mkSafeTip tips (inc hi new) (lo s))
    else
      hi ← dec (hi s) old;
      let lo := inc (lo s) new in
      '(max_lo, _) ← BTreeMap.last lo;
      if new <? max_lo then
        lo ← dec lo max_lo;
        Some (mkSafeTip tips (inc hi max_lo) lo)
      else None.
Fixpoint remove_validators s (exiting : list K) : option SafeTip :=
  match exiting with
  | [] => Some s
  | v :: exiting => s ← remove_validator s v; remove_validators s exiting
  end.
(** [entry(v).or_default()] for every validator. *)
Definition add_validators (tips : gmap K Z) (validators : Set_ K) : gmap K Z :=
  foldl (λ tips v, <[v := default 0 (tips !! v)]> tips) tips validators.
(** [keys]: the tips' keys in the order the [HashMap] yields them. *)
Definition reconcile s (keys : list K) (validators : Set_ K) : option SafeTip :=
  if negb (length validators =? size (tips s))%nat then None
  else
    let exiting_vals := filter (λ v, Ordered.position validators v = None) keys in
    s ← remove_validators s exiting_vals;
    Some (mkSafeTip (add_validators (tips s) validators) (hi s) (lo s)).

Definition update s (public_key : K) (new : Z) : option (option Z * SafeTip) :=
  match tips s !! public_key with
  | None => Some (None, s)
  | Some old =>
      if new <=? old then Some (None, s)
      else
        let tips := <[public_key := new]> (tips s) in
        if contains_key (hi s) old then
          hi ← dec (hi s) old;
          Some (Some old, mkSafeTip tips (inc hi new) (lo s))
        else
          let stay_in_lo := match BTreeMap.first (hi s) with Some (min_hi, _) => new <=? min_hi | None => true end in
          if stay_in_lo then
            lo ← dec (lo s) old;
            Some (Some old, mkSafeTip tips (hi s) (inc lo new))
          else
            lo ← dec (lo s) old;
            let hi := inc (hi s) new in
            '(min_hi, _) ← BTreeMap.first hi;
            if min_hi <? new then
              hi ← dec hi min_hi;
              Some (Some old, mkSafeTip tips hi (inc lo min_hi))
            else None
  end.

Definition get s : option Z := fst <$> BTreeMap.last (lo s).
End Ops.
Arguments SafeTip K {_ _}.

(** ** Counted values as sorted lists *)

Fixpoint flat (m : heap) : list Z := match m with [] => [] | (k, c) :: m => replicate c k ++ flat m end.
Record heap_ok (m : heap) : Prop := {
  h_ascending : BTreeMap.ascending m;
  h_positive : Forall (λ e, (0 < e.2)%nat) m;
}.

Lemma flat_app m m' : flat (m ++ m') = flat m ++ flat m'.
Proof. induction m as [|[k c] m IH]; [done|]. cbn. by rewrite IH, app_assoc. Qed.
Lemma elem_of_flat m x : heap_ok m → x ∈ flat m ↔ is_Some (BTreeMap.get m x).
Proof.
  intros [_ Hp]. rewrite BTreeMap.get_keys. induction Hp as [|[k c] m Hc _ IH]; [done|]. cbn in *.
  rewrite elem_of_app, elem_of_replicate, elem_of_cons, IH. split; intros [?|?]; [left; tauto|by right| |by right]. left. split; [done|lia].
Qed.
Lemma flat_sorted m : BTreeMap.ascending m → StronglySorted Z.le (flat m).
Proof.
  unfold BTreeMap.ascending. induction m as [|[k c] m IH]; [constructor|]. cbn. intros H. inversion H as [|? ? Hm Hf]; subst.
  apply StronglySorted_app_2; [| |by apply IH].
  - intros x y [-> _]%elem_of_replicate Hy. apply Z.lt_le_incl. clear -Hf Hy. induction m as [|[k' c'] m IH]; [by apply elem_of_nil in Hy|].
    cbn in *. apply Forall_cons in Hf as [Hk Hf]. apply elem_of_app in Hy as [[-> _]%elem_of_replicate|Hy]; [done|by apply IH].
  - induction c as [|c IHc]; [constructor|]. constructor; [done|]. apply Forall_forall. intros x [-> _]%elem_of_replicate. lia.
Qed.

(** A map around a key. *)
Lemma split_cases (m : heap) k : BTreeMap.ascending m → ∃ l r, BTreeMap.below k l ∧ BTreeMap.above k r ∧
  match BTreeMap.get m k with Some c => m = l ++ (k, c) :: r | None => m = l ++ r end.
Proof.
  intros Ha. destruct (BTreeMap.split_at m k Ha) as (l & r & -> & Hl & Hr).
  assert (∀ l', BTreeMap.below k l' → BTreeMap.get (l' ++ r) k = None) as Hnone.
  { intros l' Hl'. apply eq_None_not_Some. intros (x & -> & [Hx|Hx]%elem_of_app)%BTreeMap.get_keys%list_elem_of_fmap.
    - unfold BTreeMap.below in Hl'. rewrite Forall_forall in Hl'. specialize (Hl' x Hx). lia.
    - unfold BTreeMap.above in Hr. rewrite Forall_forall in Hr. specialize (Hr x Hx). lia. }
  destruct l as [|[k0 c] l _] using rev_ind; [exists [], r; split; [constructor|]; split; [done|]; by rewrite (Hnone []) by constructor|].
  apply Forall_app in Hl as [Hl Hk]. apply Forall_cons in Hk as [Hk _]. cbn in Hk.
  apply BTreeMap.ascending_app in Ha as (Ha & _ & _). apply BTreeMap.ascending_app in Ha as (_ & _ & Hlt).
  assert (BTreeMap.below k0 l) as Hl0 by (apply Forall_forall; intros x Hx; apply (Hlt x (k0, c)); [done|by left]).
  destruct (decide (k0 = k)) as [->|Hne].
  - exists l, r. split_and!; [done..|]. rewrite <- app_assoc. cbn. by rewrite BTreeMap.get_app.
  - exists (l ++ [(k0, c)]), r. assert (BTreeMap.below k (l ++ [(k0, c)])) as Hb.
    { apply Forall_app. split; [eapply BTreeMap.below_mono; [exact Hl0|lia]|]. constructor; [cbn; lia|done]. }
    split_and!; [done..|]. by rewrite Hnone.
Qed.

Lemma drop_middle l k c r : heap_ok (l ++ (k, c) :: r) → heap_ok (l ++ r).
Proof.
  intros [Ha Hp]. apply Forall_app in Hp as [Hl [_ Hr]%Forall_cons]. split; [|by apply Forall_app].
  apply BTreeMap.ascending_app in Ha as (H1 & H2 & H3). unfold BTreeMap.ascending in *. rewrite fmap_app. inversion H2; subst.
  apply StronglySorted_app_2; [|done..]. intros x y (e & -> & He)%list_elem_of_fmap (e' & -> & He')%list_elem_of_fmap. apply H3; [done|by right].
Qed.
Lemma heap_insert_ok m k c : heap_ok m → (0 < c)%nat → heap_ok (BTreeMap.insert m k c).
Proof.
  intros H Hc. pose proof H as [Ha Hp]. split; [by apply BTreeMap.insert_ascending|]. destruct (split_cases m k Ha) as (l & r & Hl & Hr & E).
  destruct (BTreeMap.get m k) as [c'|]; subst m.
  - apply Forall_app in Hp as [Hpl [_ Hpr]%Forall_cons]. rewrite <- (BTreeMap.insert_app l r k c' Hl Hr), BTreeMap.insert_insert, BTreeMap.insert_app by done.
    apply Forall_app. split; [done|]. by constructor.
  - apply Forall_app in Hp as [Hpl Hpr]. rewrite BTreeMap.insert_app by done. apply Forall_app. split; [done|]. by constructor.
Qed.

Lemma inc_ok m k : heap_ok m → heap_ok (inc m k) ∧ flat (inc m k) ≡ₚ k :: flat m.
Proof.
  intros H. unfold inc. split; [apply heap_insert_ok; [done|lia]|]. pose proof H as [Ha _]. destruct (split_cases m k Ha) as (l & r & Hl & Hr & E).
  destruct (BTreeMap.get m k) as [c|]; subst m; cbn [default].
  - rewrite <- (BTreeMap.insert_app l r k c Hl Hr), BTreeMap.insert_insert, !BTreeMap.insert_app by done. rewrite !flat_app. cbn [flat].
    unfold id. rewrite Nat.add_1_r. cbn [replicate app]. symmetry. apply Permutation_middle.
  - rewrite BTreeMap.insert_app by done. rewrite !flat_app. cbn. symmetry. apply Permutation_middle.
Qed.
Lemma dec_ok m k : heap_ok m → contains_key m k = true → ∃ m', dec m k = Some m' ∧ heap_ok m' ∧ flat m ≡ₚ k :: flat m'.
Proof.
  intros H [c E]%bool_decide_eq_true. pose proof H as [Ha Hp]. destruct (split_cases m k Ha) as (l & r & Hl & Hr & Em). rewrite E in Em. unfold dec. rewrite E. subst m.
  assert (0 < c)%nat as Hc by (apply Forall_app in Hp as [_ [? _]%Forall_cons]; done). destruct c as [|c]; [lia|]. eexists. split; [done|].
  destruct (decide (c = 0%nat)) as [->|Hne].
  - rewrite BTreeMap.remove_app by done. split; [by eapply drop_middle|]. rewrite !flat_app. cbn. symmetry. apply Permutation_middle.
  - split; [apply heap_insert_ok; [done|lia]|]. rewrite <- (BTreeMap.insert_app l r k (S c) Hl Hr), BTreeMap.insert_insert, !BTreeMap.insert_app by done.
    rewrite !flat_app. cbn. symmetry. apply Permutation_middle.
Qed.

(** The least and the greatest value. *)
Lemma first_ok m : heap_ok m → match BTreeMap.first m with Some (k, _) => contains_key m k = true ∧ ∀ x, x ∈ flat m → k ≤ x | None => flat m = [] end.
Proof.
  intros H. pose proof H as [Ha Hp]. destruct m as [|[k c] m]; [done|]. cbn [BTreeMap.first head]. split.
  - unfold contains_key. apply bool_decide_eq_true, BTreeMap.get_keys. by left.
  - intros x Hx. assert (k ∈ flat ((k, c) :: m)) as Hk.
    { apply elem_of_flat; [done|]. apply BTreeMap.get_keys. by left. }
    pose proof (flat_sorted _ Ha) as Hs. apply Forall_cons in Hp as [Hc _]. cbn in Hc. destruct c as [|c]; [lia|]. cbn in Hx, Hs. inversion Hs as [|? ? _ Hf]; subst.
    apply elem_of_cons in Hx as [->|Hx]; [lia|]. rewrite Forall_forall in Hf. by apply Hf.
Qed.
Lemma last_ok m : heap_ok m → match BTreeMap.last m with Some (k, _) => contains_key m k = true ∧ (∀ x, x ∈ flat m → x ≤ k) ∧ last (flat m) = Some k | None => flat m = [] end.
Proof.
  intros H. pose proof H as [Ha Hp]. destruct m as [|[k c] m _] using rev_ind; [done|]. unfold BTreeMap.last. rewrite last_snoc. split.
  - unfold contains_key. apply bool_decide_eq_true, BTreeMap.get_keys. rewrite fmap_app. apply elem_of_app. right. by left.
  - assert (0 < c)%nat as Hc by (apply Forall_app in Hp as [_ [? _]%Forall_cons]; done).
    assert (last (flat (m ++ [(k, c)])) = Some k) as Hlast.
    { rewrite flat_app. cbn. rewrite app_nil_r. destruct c as [|c]; [lia|]. rewrite replicate_S_end, app_assoc. by rewrite last_snoc. }
    split; [|done]. intros x Hx. pose proof (flat_sorted _ Ha) as Hs. apply last_Some in Hlast as [l E]. rewrite E in Hs, Hx.
    apply elem_of_app in Hx as [Hx|Hx]; [|apply list_elem_of_singleton in Hx; lia]. apply StronglySorted_app in Hs as (Hlr & _ & _). apply Hlr; [done|by left].
Qed.
End SafeTip.
