(* ===== verification/SafeTipProperties.v ===== *)
(** * Safe tips are what they are said to be

    The two heaps hold the tips of all validators, split at the [f] highest; the safe
    tip is the one of rank [n - f] among the reported tips, and an honest validator
    reached it. *)

From S2P Require Import Prelude CodecOrdered ConsensusTypes Ordered BTreeMap SafeTip.
Import CodecOrdered Ordered SafeTip.

Module SafeTipProperties.

(** ** The heaps *)

(** The heaps hold [vals], the [f] highest of them in [hi]. *)
Record split_at_faults (vals : list Z) (f : nat) (hi lo : heap) : Prop := {
  sp_hi : heap_ok hi;
  sp_lo : heap_ok lo;
  sp_order x y : x ∈ flat lo → y ∈ flat hi → x ≤ y;
  sp_values : flat lo ++ flat hi ≡ₚ vals;
  sp_faults : length (flat hi) = f;
}.

Lemma split_perm vals vals' f hi lo : vals ≡ₚ vals' → split_at_faults vals f hi lo → split_at_faults vals' f hi lo.
Proof. intros E [? ? ? Hv ?]. split; [done..| |done]. by rewrite Hv. Qed.

Lemma contains_flat m x : heap_ok m → contains_key m x = true ↔ x ∈ flat m.
Proof. intros H. unfold contains_key. by rewrite bool_decide_eq_true, elem_of_flat. Qed.
Lemma other_heap old rest f hi lo : split_at_faults (old :: rest) f hi lo → (contains_key lo old = false → contains_key hi old = true) ∧ (contains_key hi old = false → contains_key lo old = true).
Proof.
  intros [Hhi Hlo _ Hv _]. assert (old ∈ flat lo ∨ old ∈ flat hi) as H by (apply elem_of_app; rewrite Hv; by left).
  rewrite <- !contains_flat in H by done. destruct (contains_key lo old), (contains_key hi old), H; done.
Qed.

(** The comparisons with an end of the other heap. *)
Lemma below_first m new : heap_ok m →
  if match BTreeMap.first m with Some (k, _) => new <=? k | None => true end then ∀ y, y ∈ flat m → new ≤ y else ∃ y, y ∈ flat m ∧ y < new.
Proof.
  intros H. pose proof (first_ok _ H) as Hf. destruct (BTreeMap.first m) as [[k c]|].
  - destruct Hf as [Hk Hf]. destruct (Z.leb_spec new k); [intros y Hy; specialize (Hf y Hy); lia|]. exists k. split; [by apply contains_flat|done].
  - intros y Hy. rewrite Hf in Hy. by apply elem_of_nil in Hy.
Qed.
Lemma above_last m new : heap_ok m →
  if match BTreeMap.last m with Some (k, _) => k <=? new | None => true end then ∀ x, x ∈ flat m → x ≤ new else ∃ x, x ∈ flat m ∧ new < x.
Proof.
  intros H. pose proof (last_ok _ H) as Hl. destruct (BTreeMap.last m) as [[k c]|].
  - destruct Hl as (Hk & Hl & _). destruct (Z.leb_spec k new); [intros x Hx; specialize (Hl x Hx); lia|]. exists k. split; [by apply contains_flat|done].
  - intros x Hx. rewrite Hl in Hx. by apply elem_of_nil in Hx.
Qed.

(** Replacing a value within a heap. *)
Lemma replace_hi old rest f hi lo new : split_at_faults (old :: rest) f hi lo → contains_key hi old = true → (∀ x, x ∈ flat lo → x ≤ new) →
  ∃ hi', dec hi old = Some hi' ∧ split_at_faults (new :: rest) f (inc hi' new) lo.
Proof.
  intros [Hhi Hlo Ho Hv Hf] Hc Hnew. destruct (dec_ok hi old Hhi Hc) as (hi' & E & Hhi' & Ep). exists hi'. split; [done|].
  destruct (inc_ok hi' new Hhi') as [Hi Ei]. split; [done|done| | |].
  - intros x y Hx Hy. rewrite Ei in Hy. apply elem_of_cons in Hy as [->|Hy]; [by apply Hnew|]. apply Ho; [done|]. rewrite Ep. by right.
  - rewrite Ei. rewrite Ep in Hv. rewrite <- !Permutation_middle in *. apply Permutation_cons_inv in Hv. by rewrite Hv.
  - rewrite Ei, <- Hf, Ep. done.
Qed.
Lemma replace_lo old rest f hi lo new : split_at_faults (old :: rest) f hi lo → contains_key lo old = true → (∀ y, y ∈ flat hi → new ≤ y) →
  ∃ lo', dec lo old = Some lo' ∧ split_at_faults (new :: rest) f hi (inc lo' new).
Proof.
  intros [Hhi Hlo Ho Hv Hf] Hc Hnew. destruct (dec_ok lo old Hlo Hc) as (lo' & E & Hlo' & Ep). exists lo'. split; [done|].
  destruct (inc_ok lo' new Hlo') as [Hi Ei]. split; [done|done| | |done].
  - intros x y Hx Hy. rewrite Ei in Hx. apply elem_of_cons in Hx as [->|Hx]; [by apply Hnew|]. apply Ho; [|done]. rewrite Ep. by right.
  - rewrite Ei. rewrite Ep in Hv. cbn in *. apply Permutation_cons_inv in Hv. by rewrite Hv.
Qed.
(** Replacing a low value by one that belongs to the high ones, and the converse. *)
Lemma move_up old rest f hi lo new : split_at_faults (old :: rest) f hi lo → contains_key lo old = true → (∃ y, y ∈ flat hi ∧ y < new) →
  ∃ lo' m c hi', dec lo old = Some lo' ∧ BTreeMap.first (inc hi new) = Some (m, c) ∧ m < new ∧ dec (inc hi new) m = Some hi' ∧
  split_at_faults (new :: rest) f hi' (inc lo' m).
Proof.
  intros [Hhi Hlo Ho Hv Hf] Hc (y0 & Hy0 & Hlt). destruct (dec_ok lo old Hlo Hc) as (lo' & E & Hlo' & Ep). destruct (inc_ok hi new Hhi) as [Hh Eh].
  pose proof (first_ok _ Hh) as Hm. destruct (BTreeMap.first (inc hi new)) as [[m c]|]; [|rewrite Hm in Eh; by apply Permutation_nil_cons in Eh].
  destruct Hm as [Hcm Hmin]. destruct (dec_ok _ m Hh Hcm) as (hi' & E' & Hhi' & Ep'). destruct (inc_ok lo' m Hlo') as [Hl El].
  assert (∀ y, y ∈ flat hi → m ≤ y) as Hmhi by (intros y Hy; apply Hmin; rewrite Eh; by right).
  exists lo', m, c, hi'. split_and!; [done|done|specialize (Hmhi y0 Hy0); lia|done|]. split; [done|done| | |].
  - intros x y Hx Hy. assert (y ∈ flat (inc hi new)) as Hy' by (rewrite Ep'; by right). rewrite El in Hx. apply elem_of_cons in Hx as [->|Hx]; [by apply Hmin|].
    assert (x ∈ flat lo) as Hx' by (rewrite Ep; by right). rewrite Eh in Hy'. apply elem_of_cons in Hy' as [->|Hy']; [specialize (Ho x y0 Hx' Hy0); lia|by apply Ho].
  - rewrite El. cbn. rewrite (Permutation_middle (flat lo') (flat hi') m), <- Ep', Eh. rewrite Ep in Hv. cbn in Hv. apply Permutation_cons_inv in Hv.
    by rewrite <- Permutation_middle, Hv.
  - rewrite Ep' in Eh. apply Permutation_length in Eh. cbn in Eh. lia.
Qed.
Lemma move_down old rest f hi lo new : split_at_faults (old :: rest) f hi lo → contains_key hi old = true → (∃ x, x ∈ flat lo ∧ new < x) →
  ∃ hi' m c lo', dec hi old = Some hi' ∧ BTreeMap.last (inc lo new) = Some (m, c) ∧ new < m ∧ dec (inc lo new) m = Some lo' ∧
  split_at_faults (new :: rest) f (inc hi' m) lo'.
Proof.
  intros [Hhi Hlo Ho Hv Hf] Hc (x0 & Hx0 & Hlt). destruct (dec_ok hi old Hhi Hc) as (hi' & E & Hhi' & Ep). destruct (inc_ok lo new Hlo) as [Hl El].
  pose proof (last_ok _ Hl) as Hm. destruct (BTreeMap.last (inc lo new)) as [[m c]|]; [|rewrite Hm in El; by apply Permutation_nil_cons in El].
  destruct Hm as (Hcm & Hmax & _). destruct (dec_ok _ m Hl Hcm) as (lo' & E' & Hlo' & Ep'). destruct (inc_ok hi' m Hhi') as [Hh Eh].
  assert (∀ x, x ∈ flat lo → x ≤ m) as Hmlo by (intros x Hx; apply Hmax; rewrite El; by right).
  exists hi', m, c, lo'. split_and!; [done|done|specialize (Hmlo x0 Hx0); lia|done|]. split; [done|done| | |].
  - intros x y Hx Hy. assert (x ∈ flat (inc lo new)) as Hx' by (rewrite Ep'; by right). rewrite Eh in Hy. apply elem_of_cons in Hy as [->|Hy]; [by apply Hmax|].
    assert (y ∈ flat hi) as Hy' by (rewrite Ep; by right). rewrite El in Hx'. apply elem_of_cons in Hx' as [->|Hx']; [specialize (Ho x0 y Hx0 Hy'); lia|by apply Ho].
  - rewrite Eh, <- Permutation_middle. change (m :: flat lo' ++ flat hi') with ((m :: flat lo') ++ flat hi'). rewrite <- Ep', El. cbn.
    rewrite Ep, <- Permutation_middle in Hv. apply Permutation_cons_inv in Hv. by rewrite Hv.
  - rewrite Eh, <- Hf, Ep. done.
Qed.

(** ** The values of a map of tips *)

Section Properties.
Context {K : Type} `{!Ord K, !EqDecision K, !Countable K}.
Implicit Types (t : gmap K Z) (s : SafeTip K) (vs : list K).

Definition values t : list Z := (map_to_list t).*2.

Lemma values_insert t v x : t !! v = None → values (<[v := x]> t) ≡ₚ x :: values t.
Proof. intros H. unfold values. by rewrite map_to_list_insert. Qed.
Lemma values_delete t v x : t !! v = Some x → values t ≡ₚ x :: values (delete v t).
Proof. intros H. unfold values. by rewrite <- (map_to_list_delete t v x H). Qed.
Lemma values_replace t v x : values (<[v := x]> t) ≡ₚ x :: values (delete v t).
Proof. rewrite <- insert_delete_eq. apply values_insert, lookup_delete_eq. Qed.
Lemma values_length t : length (values t) = size t.
Proof. unfold values. by rewrite length_fmap, length_map_to_list. Qed.
Lemma elem_of_values t x : x ∈ values t ↔ ∃ v, t !! v = Some x.
Proof.
  unfold values. rewrite list_elem_of_fmap. split.
  - intros ([v y] & -> & H). exists v. by apply elem_of_map_to_list.
  - intros [v H]. exists (v, x). split; [done|]. by apply elem_of_map_to_list.
Qed.

(** ** Operations on the heaps *)

Definition nonnegative t : Prop := map_Forall (λ _ x, 0 ≤ x) t.
(** [gone] validators have left and count as zeros. *)
Record holds (f gone : nat) s : Prop := {
  hd_split : split_at_faults (replicate gone 0 ++ values (tips s)) f (hi s) (lo s);
  hd_nonnegative : nonnegative (tips s);
}.

(** What [update] is on the tips alone. *)
Definition update_tips t (v : K) (new : Z) : option Z * gmap K Z :=
  match t !! v with
  | Some old => if new <=? old then (None, t) else (Some old, <[v := new]> t)
  | None => (None, t)
  end.

Lemma update_ok f s v new : holds f 0 s → 0 ≤ new → ∃ s', update s v new = Some ((update_tips (tips s) v new).1, s') ∧
  tips s' = (update_tips (tips s) v new).2 ∧ holds f 0 s'.
Proof.
  intros [Hs Hn] Hnew. unfold update, update_tips. destruct (tips s !! v) as [old|] eqn:E; [|by exists s].
  destruct (Z.leb_spec new old) as [Hle|Hlt]; [by exists s|]. cbn [fst snd].
  assert (nonnegative (<[v := new]> (tips s))) as Hn' by (apply map_Forall_insert_2; done).
  cbn [replicate app] in Hs. pose proof (split_perm _ _ _ _ _ (values_delete _ _ _ E) Hs) as H.
  assert (∀ hi lo, split_at_faults (new :: values (delete v (tips s))) f hi lo → holds f 0 (mkSafeTip (<[v := new]> (tips s)) hi lo)) as Hdone.
  { intros hi lo Hp. split; [|done]. eapply split_perm; [|exact Hp]. symmetry. apply values_replace. }
  destruct (contains_key (hi s) old) eqn:Eh.
  { edestruct (replace_hi _ _ _ _ _ new H Eh) as (hi' & -> & H').
    { intros x Hx. transitivity old; [|lia]. apply (sp_order _ _ _ _ H); [done|]. by apply (contains_flat _ _ (sp_hi _ _ _ _ H)). }
    eexists. split; [done|]. split; [done|]. by apply Hdone. }
  apply (other_heap _ _ _ _ _ H) in Eh. pose proof (below_first _ new (sp_hi _ _ _ _ H)) as Hf.
  destruct (match BTreeMap.first (hi s) with Some (m, _) => new <=? m | None => true end) eqn:Et.
  - destruct (replace_lo _ _ _ _ _ new H Eh) as (lo' & -> & H'); [done|]. eexists. split; [done|]. split; [done|]. by apply Hdone.
  - destruct (move_up _ _ _ _ _ new H Eh) as (lo' & m & c & hi' & -> & Efirst & Hlt' & Edec & H'); [done|].
    cbn [mbind option_bind]. rewrite Efirst. cbn [mbind option_bind]. rewrite (proj2 (Z.ltb_lt _ _) Hlt'), Edec. eexists. split; [done|]. split; [done|]. by apply Hdone.
Qed.

Lemma remove_validator_ok f gone s v old : holds f gone s → tips s !! v = Some old →
  ∃ s', remove_validator s v = Some s' ∧ tips s' = delete v (tips s) ∧ holds f (S gone) s'.
Proof.
  intros [Hs Hn] E. unfold remove_validator. rewrite E. cbn [mbind option_bind].
  assert (nonnegative (delete v (tips s))) as Hn' by (by apply map_Forall_delete). pose proof (map_Forall_lookup_1 _ _ _ _ Hn E) as Hold. cbn in Hold.
  assert (split_at_faults (old :: replicate gone 0 ++ values (delete v (tips s))) f (hi s) (lo s)) as H.
  { eapply split_perm; [|exact Hs]. rewrite (values_delete _ _ _ E). symmetry. apply Permutation_middle. }
  assert (∀ hi lo, split_at_faults (0 :: replicate gone 0 ++ values (delete v (tips s))) f hi lo → holds f (S gone) (mkSafeTip (delete v (tips s)) hi lo)) as Hdone.
  { intros hi lo Hp. by split. }
  destruct (Z.eqb_spec old 0) as [->|Hne]; [eexists; split; [done|]; split; [done|]; by apply Hdone|].
  destruct (contains_key (lo s) old) eqn:El.
  { edestruct (replace_lo _ _ _ _ _ 0 H El) as (lo' & -> & H').
    { intros y Hy. transitivity old; [lia|]. apply (sp_order _ _ _ _ H); [|done]. by apply (contains_flat _ _ (sp_lo _ _ _ _ H)). }
    eexists. split; [done|]. split; [done|]. by apply Hdone. }
  apply (other_heap _ _ _ _ _ H) in El. pose proof (above_last _ 0 (sp_lo _ _ _ _ H)) as Hl.
  destruct (match BTreeMap.last (lo s) with Some (m, _) => m <=? 0 | None => true end).
  - destruct (replace_hi _ _ _ _ _ 0 H El) as (hi' & -> & H'); [done|]. eexists. split; [done|]. split; [done|]. by apply Hdone.
  - destruct (move_down _ _ _ _ _ 0 H El) as (hi' & m & c & lo' & -> & Elast & Hlt' & Edec & H'); [done|].
    cbn [mbind option_bind]. rewrite Elast. cbn [mbind option_bind]. rewrite (proj2 (Z.ltb_lt _ _) Hlt'), Edec. eexists. split; [done|]. split; [done|]. by apply Hdone.
Qed.
Lemma remove_validators_ok f l : ∀ gone s, holds f gone s → NoDup l → (∀ v, v ∈ l → is_Some (tips s !! v)) →
  ∃ s', remove_validators s l = Some s' ∧ (∀ v, tips s' !! v = if decide (v ∈ l) then None else tips s !! v) ∧
    (length l + size (tips s') = size (tips s))%nat ∧ holds f (length l + gone) s'.
Proof.
  induction l as [|v l IH]; intros gone s H Hl Hin; cbn; [by exists s|]. apply NoDup_cons in Hl as [Hv Hl].
  destruct (Hin v) as [old E]; [by left|]. destruct (remove_validator_ok _ _ _ _ _ H E) as (s1 & -> & Et & H1). cbn.
  destruct (IH _ _ H1 Hl) as (s' & E' & Ht & Hn & H').
  { intros w Hw. rewrite Et, lookup_delete_ne by (by intros ->). apply Hin. by right. }
  exists s'. split; [done|]. rewrite <- (Nat.add_succ_r (length l) gone). split; [|split; [|done]].
  2: { rewrite Et in Hn. pose proof (values_delete _ _ _ E) as Hd. apply Permutation_length in Hd. cbn in Hd. rewrite !values_length in Hd. lia. }
  intros w. rewrite Ht, Et.
  destruct (decide (w = v)) as [->|Hne]; [rewrite lookup_delete_eq; repeat case_decide; set_solver|].
  rewrite lookup_delete_ne by done. repeat case_decide; set_solver.
Qed.

(** ** A new validator set *)

Lemma add_validators_lookup vs : ∀ t v, add_validators t vs !! v = if decide (v ∈ vs) then Some (default 0 (t !! v)) else t !! v.
Proof.
  induction vs as [|w vs IH]; intros t v; [done|]. change (add_validators t (w :: vs)) with (add_validators (<[w := default 0 (t !! w)]> t) vs).
  rewrite IH. destruct (decide (v = w)) as [->|Hne].
  - rewrite lookup_insert_eq. repeat case_decide; set_solver.
  - rewrite lookup_insert_ne by done. repeat case_decide; set_solver.
Qed.
Lemma add_validators_values vs : ∀ t, ∃ k, values (add_validators t vs) ≡ₚ replicate k 0 ++ values t.
Proof.
  induction vs as [|w vs IH]; intros t; [by exists 0%nat|]. change (add_validators t (w :: vs)) with (add_validators (<[w := default 0 (t !! w)]> t) vs).
  destruct (IH (<[w := default 0 (t !! w)]> t)) as [k Hk]. destruct (t !! w) as [x|] eqn:E; cbn in Hk.
  - exists k. by rewrite Hk, insert_id.
  - exists (S k). rewrite Hk, values_insert by done. cbn. symmetry. apply Permutation_middle.
Qed.

(** What [reconcile] is on the tips alone. *)
Definition reconcile_tips t vs : gmap K Z := list_to_map ((λ v, (v, default 0 (t !! v))) <$> vs).

Lemma list_to_map_fmap_lookup (g : K → Z) vs v : (list_to_map ((λ v, (v, g v)) <$> vs) : gmap K Z) !! v = if decide (v ∈ vs) then Some (g v) else None.
Proof.
  induction vs as [|w vs IH]; cbn; [done|]. destruct (decide (v = w)) as [->|Hne].
  - rewrite lookup_insert_eq. by rewrite decide_True by left.
  - rewrite lookup_insert_ne by done. rewrite IH. repeat case_decide; set_solver.
Qed.
Lemma size_fmap (g : K → Z) vs : NoDup vs → size (list_to_map ((λ v, (v, g v)) <$> vs) : gmap K Z) = length vs.
Proof.
  intros H. rewrite <- length_map_to_list, map_to_list_to_map; [by rewrite length_fmap|]. by rewrite <- list_fmap_compose, list_fmap_id.
Qed.

Lemma reconcile_ok f s keys vs : holds f 0 s → keys ≡ₚ (map_to_list (tips s)).*1 → ascending vs → length vs = size (tips s) →
  ∃ s', reconcile s keys vs = Some s' ∧ tips s' = reconcile_tips (tips s) vs ∧ holds f 0 s'.
Proof.
  intros H Hkeys Hvs Hsize. unfold reconcile. rewrite (proj2 (Nat.eqb_eq _ _) Hsize). cbn [negb].
  set (l := filter _ keys). assert (∀ v, v ∈ l ↔ v ∉ vs ∧ is_Some (tips s !! v)) as Hl.
  { intros v. unfold l. rewrite list_elem_of_filter, Hkeys. unfold position. rewrite binary_search_None by done.
    rewrite list_elem_of_fmap. split; (intros [? Hx]; split; [done|]).
    - destruct Hx as ([w x] & -> & ?%elem_of_map_to_list). by exists x.
    - destruct Hx as [x Hx]. exists (v, x). split; [done|]. by apply elem_of_map_to_list. }
  destruct (remove_validators_ok f l 0 s H) as (s1 & -> & Ht & Hn & [H1 _]).
  { unfold l. apply NoDup_filter. rewrite Hkeys. apply NoDup_fst_map_to_list. }
  { intros v [_ Hv]%Hl. done. }
  cbn [mbind option_bind]. assert (add_validators (tips s1) vs = reconcile_tips (tips s) vs) as Ea.
  { apply map_eq. intros v. rewrite add_validators_lookup. unfold reconcile_tips. rewrite list_to_map_fmap_lookup, Ht.
    destruct (decide (v ∈ vs)) as [Hv|Hv]; destruct (decide (v ∈ l)) as [Hvl|Hvl]; [by apply Hl in Hvl as [? _]|done|done|].
    apply eq_None_not_Some. intros Hs. by apply Hvl, Hl. }
  eexists. split; [done|]. split; [exact Ea|]. split; cbn [tips hi lo replicate app].
  - destruct (add_validators_values vs (tips s1)) as [k Hk]. eapply split_perm; [|exact H1]. rewrite Hk, Nat.add_0_r.
    replace k with (length l); [done|]. apply Permutation_length in Hk. rewrite Ea, length_app, length_replicate, !values_length in Hk. unfold reconcile_tips in Hk.
    rewrite size_fmap in Hk by (by apply ascending_nodup). lia.
  - rewrite Ea. intros v x. unfold reconcile_tips. rewrite list_to_map_fmap_lookup. case_decide; [|done]. intros [= <-].
    destruct (tips s !! v) as [x|] eqn:E; [|done]. by apply (map_Forall_lookup_1 _ _ _ _ (hd_nonnegative _ _ _ H) E).
Qed.

(** The start: every tip is zero. *)
Lemma init_ok vs : ascending vs → vs ≠ [] → fitsb 32 (Z.of_nat (length vs)) = true →
  ∃ s, init vs = Some s ∧ tips s = reconcile_tips ∅ vs ∧ holds (Z.to_nat (ConsensusTypes.max_faults (Z.of_nat (length vs)))) 0 s.
Proof.
  intros Hvs Hne Hfits. unfold init. rewrite decide_False by done. unfold Ordered.max_faults. rewrite Hfits. cbn [mbind option_bind].
  set (n := Z.of_nat (length vs)). assert (0 < n) as Hn by (destruct vs; [done|cbn in *; lia]).
  destruct (proj1 (ConsensusTypes.max_faults_spec n _ Hn) eq_refl) as [Hf1 Hf2]. set (f := ConsensusTypes.max_faults n) in *.
  unfold checked_sub. rewrite (proj2 (Z.leb_le f n)) by lia. cbn [mbind option_bind]. eexists. split; [done|]. cbn [tips].
  assert (∀ g, (list_to_map ((λ v, (v, 0)) <$> vs) : gmap K Z) = g → values g = replicate (length vs) 0) as Hv.
  { intros g <-. rewrite <- (size_fmap (λ _, 0) vs) by (by apply ascending_nodup). rewrite <- values_length. symmetry. apply replicate_as_elem_of. split; [done|].
    intros x [v Hx]%elem_of_values. rewrite list_to_map_fmap_lookup in Hx. case_decide; by simplify_eq. }
  assert (∀ c : nat, (0 < c)%nat → heap_ok [(0, c)] ∧ flat [(0, c)] = replicate c 0) as Hone.
  { intros c Hc. cbn. rewrite app_nil_r. split; [|done]. split; [|by constructor]. constructor; [constructor|done]. }
  split; [unfold reconcile_tips; f_equal; apply list_fmap_ext; intros; by rewrite lookup_empty|].
  split; cbn [tips hi lo replicate app]; [|intros v x; rewrite list_to_map_fmap_lookup; case_decide; intros; by simplify_eq].
  destruct (Hone (Z.to_nat (n - f))) as [Hlo El]; [lia|]. rewrite (Hv _ eq_refl).
  assert (heap_ok (if 0 <? f then [(0, Z.to_nat f)] else []) ∧ flat (if 0 <? f then [(0, Z.to_nat f)] else []) = replicate (Z.to_nat f) 0) as [Hhi Eh].
  { destruct (Z.ltb_spec 0 f); [apply Hone; lia|]. replace f with 0 by lia. split; [by constructor; constructor|done]. }
  split; [done|done| | |].
  - cbn [BTreeMap.insert]. rewrite El, Eh. intros x y [-> _]%elem_of_replicate [-> _]%elem_of_replicate. done.
  - cbn [BTreeMap.insert]. rewrite El, Eh, <- replicate_add. replace (Z.to_nat (n - f) + Z.to_nat f)%nat with (length vs) by lia. done.
  - cbn [BTreeMap.insert]. by rewrite Eh, length_replicate.
Qed.

(** ** The safe tip *)

(** Whatever [f] validators are faulty, another one reached [x]. *)
Definition reached t (f : nat) (x : Z) : Prop :=
  ∀ faulty : list K, (length faulty ≤ f)%nat → ∃ v tip, v ∉ faulty ∧ t !! v = Some tip ∧ x ≤ tip.

(** The entries of the two heaps. *)
Lemma entries f s : holds f 0 s → ∃ el eh : list (K * Z), map_to_list (tips s) ≡ₚ el ++ eh ∧ el.*2 = flat (lo s) ∧ eh.*2 = flat (hi s).
Proof.
  intros [Hs _]. cbn [replicate app] in Hs. pose proof (sp_values _ _ _ _ Hs) as Hv. unfold values in Hv. apply Permutation_map_inv in Hv as (es & E & Hp).
  exists (take (length (flat (lo s))) es), (drop (length (flat (lo s))) es). rewrite take_drop, fmap_take, fmap_drop. change (snd <$> es) with (map snd es).
  rewrite <- E, take_app_length, drop_app_length. done.
Qed.
Lemma not_all_in (l m : list K) : NoDup l → (length m < length l)%nat → ∃ v, v ∈ l ∧ v ∉ m.
Proof.
  intros Hl Hlt. destruct (decide (Forall (.∈ m) l)) as [H|H].
  - rewrite Forall_forall in H. pose proof (submseteq_length _ _ (NoDup_submseteq _ _ Hl H)). lia.
  - apply not_Forall_Exists in H; [|apply _]. by apply Exists_exists in H.
Qed.

(** What [get] returns is the greatest tip an honest validator certainly reached. *)
Lemma get_greatest f s : holds f 0 s → (f < size (tips s))%nat → ∃ m, get s = Some m ∧ ∀ x, reached (tips s) f x ↔ x ≤ m.
Proof.
  intros H Hf. pose proof (hd_split _ _ _ H) as Hs. cbn [replicate app] in Hs. destruct (entries _ _ H) as (el & eh & Hp & El & Eh).
  pose proof (last_ok _ (sp_lo _ _ _ _ Hs)) as Hl. pose proof (sp_faults _ _ _ _ Hs) as Hfaults. unfold get.
  assert (∀ e, e ∈ el ++ eh → tips s !! e.1 = Some e.2) as Hin by (intros [v x]; rewrite <- Hp; apply elem_of_map_to_list).
  pose proof (NoDup_fst_map_to_list (tips s)) as Hnd. rewrite Hp in Hnd. rewrite fmap_app in Hnd.
  destruct (BTreeMap.last (lo s)) as [[m c]|]; cbn.
  2: { apply Permutation_length in Hp. rewrite length_map_to_list, length_app in Hp. apply (f_equal length) in El, Eh. rewrite length_fmap in El, Eh. rewrite Hl in El. cbn in El. lia. }
  exists m. split; [done|]. destruct Hl as (Hm & Hmax & _). apply (contains_flat _ _ (sp_lo _ _ _ _ Hs)) in Hm. intros x. split.
  - intros Hr. destruct (Hr (eh.*1)) as (v & tip & Hv & E & Hx). { by rewrite <- Hfaults, <- Eh, !length_fmap. }
    apply elem_of_map_to_list in E. rewrite Hp in E. apply elem_of_app in E as [E|E]; [|destruct Hv; apply list_elem_of_fmap; by exists (v, tip)].
    transitivity tip; [done|]. apply Hmax. rewrite <- El. apply list_elem_of_fmap. by exists (v, tip).
  - intros Hx faulty Hfaulty. rewrite <- El in Hm. apply list_elem_of_fmap in Hm as ([w m'] & -> & Hw). cbn in *.
    destruct (not_all_in (w :: eh.*1) faulty) as (v & Hv & Hnot).
    + apply NoDup_app in Hnd as (_ & Hnd & Heh). constructor; [|done]. apply Hnd, list_elem_of_fmap. by exists (w, m').
    + cbn. rewrite <- Hfaults, <- Eh, !length_fmap in Hfaulty. rewrite length_fmap. lia.
    + apply elem_of_cons in Hv as [->|([v' y] & -> & Hv)%list_elem_of_fmap].
      * exists w, m'. split_and!; [done| |done]. apply (Hin (w, m')). apply elem_of_app. by left.
      * exists v', y. split_and!; [done|apply (Hin (v', y)); apply elem_of_app; by right|]. transitivity m'; [done|]. apply (sp_order _ _ _ _ Hs).
        { rewrite <- El. apply list_elem_of_fmap. by exists (w, m'). } { rewrite <- Eh. apply list_elem_of_fmap. by exists (v', y). }
Qed.

(** ** Sequences of operations *)

Inductive op : Type := Update (v : K) (new : Z) | Reconcile (keys vs : list K).

Fixpoint run s (ops : list op) : option (list (option Z) * SafeTip K) :=
  match ops with
  | [] => Some ([], s)
  | Update v new :: ops => '(r, s) ← update s v new; '(rs, s) ← run s ops; Some (r :: rs, s)
  | Reconcile keys vs :: ops => s ← reconcile s keys vs; run s ops
  end.
(** The same on the tips alone. *)
Fixpoint run_tips t (ops : list op) : list (option Z) * gmap K Z :=
  match ops with
  | [] => ([], t)
  | Update v new :: ops => let '(r, t) := update_tips t v new in let '(rs, t) := run_tips t ops in (r :: rs, t)
  | Reconcile _ vs :: ops => run_tips (reconcile_tips t vs) ops
  end.
(** Tips are unsigned, a set keeps its size, and the keys are those of the map. *)
Fixpoint valid t (ops : list op) : Prop :=
  match ops with
  | [] => True
  | Update v new :: ops => 0 ≤ new ∧ valid (update_tips t v new).2 ops
  | Reconcile keys vs :: ops => keys ≡ₚ (map_to_list t).*1 ∧ ascending vs ∧ length vs = size t ∧ valid (reconcile_tips t vs) ops
  end.

Lemma update_tips_size t v new : size (update_tips t v new).2 = size t.
Proof.
  unfold update_tips. destruct (t !! v) as [old|] eqn:E; [|done]. case_match; [done|]. cbn. rewrite <- !values_length, values_replace.
  by rewrite (values_delete _ _ _ E).
Qed.
Lemma ops_ok f ops : ∀ s, holds f 0 s → valid (tips s) ops →
  ∃ s', run s ops = Some ((run_tips (tips s) ops).1, s') ∧ tips s' = (run_tips (tips s) ops).2 ∧ size (tips s') = size (tips s) ∧ holds f 0 s'.
Proof.
  induction ops as [|[v new|keys vs] ops IH]; intros s H Hv; cbn in Hv |- *; [by exists s| |].
  - destruct Hv as [Hnew Hv]. destruct (update_ok _ _ v new H Hnew) as (s1 & -> & E1 & H1). cbn.
    destruct (IH s1 H1) as (s' & -> & E' & Hn & H'); [by rewrite E1|]. cbn. exists s'. rewrite E1 in E', Hn |- *. rewrite update_tips_size in Hn.
    destruct (update_tips (tips s) v new) as [r t]. cbn in E' |- *. by destruct (run_tips t ops).
  - destruct Hv as (Hk & Hvs & Hn & Hv). destruct (reconcile_ok _ _ _ _ H Hk Hvs Hn) as (s1 & -> & E1 & H1). cbn.
    destruct (IH s1 H1) as (s' & -> & E' & Hn' & H'); [by rewrite E1|]. exists s'. rewrite E1 in E', Hn' |- *. unfold reconcile_tips at 1 in Hn'.
    rewrite size_fmap in Hn' by (by apply ascending_nodup). split_and!; [done|done|lia|done].
Qed.

(** C17: the safe tip of the aggregation engine.  From [init] on, no sequence of tip
    updates and of changes to validator sets of the same size panics, and a change to
    a set of another size does, as documented; the tips and the results are those of
    the map of tips alone (a leaving validator is forgotten, a new one starts at zero, a
    tip of one that stays never decreases), whatever order the hash map yields its keys
    in; and [get] is exactly the greatest tip that some validator reached whichever [f]
    validators lied, [f] being the faults the set tolerates. *)
Theorem safe_tip_refines vs ops : ascending vs → vs ≠ [] → fitsb 32 (Z.of_nat (length vs)) = true → valid (reconcile_tips ∅ vs) ops →
  ∃ s, (s ← init vs; run s ops) = Some ((run_tips (reconcile_tips ∅ vs) ops).1, s) ∧ tips s = (run_tips (reconcile_tips ∅ vs) ops).2 ∧
  (∀ keys vs', length vs' ≠ size (tips s) → reconcile s keys vs' = None) ∧ size (tips s) = length vs ∧
  ∃ m, get s = Some m ∧ ∀ x, reached (tips s) (Z.to_nat (ConsensusTypes.max_faults (Z.of_nat (length vs)))) x ↔ x ≤ m.
Proof.
  intros Hvs Hne Hfits Hv. destruct (init_ok vs Hvs Hne Hfits) as (s0 & -> & E0 & H0). cbn [mbind option_bind].
  rewrite <- E0 in Hv |- *. destruct (ops_ok _ _ _ H0 Hv) as (s & -> & E & Hn & H). exists s. split; [done|]. split; [done|].
  rewrite E0 in Hn. unfold reconcile_tips in Hn. rewrite size_fmap in Hn by (by apply ascending_nodup).
  split; [intros keys vs' Hne'; unfold reconcile; by rewrite (proj2 (Nat.eqb_neq _ _) Hne')|]. split; [done|].
  apply get_greatest; [done|]. rewrite Hn.
  assert (0 < Z.of_nat (length vs)) as Hpos by (destruct vs; [done|cbn; lia]).
  destruct (proj1 (ConsensusTypes.max_faults_spec _ _ Hpos) eq_refl). lia.
Qed.
End Properties.

Lemma safe_tip_refines_witness : let ops := [Update 1 7; Update 2 9; Update 3 4; Reconcile [1; 2; 3; 4] [2; 3; 4; 5]; Update 5 6; Update 9 1] in
  ∃ s, (s ← init [1; 2; 3; 4]; run s ops) = Some ((run_tips (reconcile_tips ∅ [1; 2; 3; 4]) ops).1, s) ∧
  tips s = (run_tips (reconcile_tips ∅ [1; 2; 3; 4]) ops).2 ∧
  (∀ keys vs', length vs' ≠ size (tips s) → reconcile s keys vs' = None) ∧ size (tips s) = 4%nat ∧ ∃ m, get s = Some m ∧ ∀ x, reached (tips s) 1 x ↔ x ≤ m.
Proof.
  intros ops. apply (safe_tip_refines [1; 2; 3; 4] ops); [repeat constructor|done|done|]. cbn [valid ops]. split_and!; [lia..| | |done|lia|lia|done].
  - vm_compute. solve_Permutation.
  - repeat constructor.
Defined.
End SafeTipProperties.
